(* ===== verification/_CoqProject ===== *)
-Q . S2P
Prelude.v
Bitset.v
Messages.v
Config.v
GoText.v
Base32.v
Log.v
LogText.v
Block.v
State.v
Graph.v
Determinism.v
Deliver.v
Updates.v
Ordering.v
Termination.v
Protocol.v
Typing.v
Chain.v
Safety.v
Meaning.v
MeaningFacts.v
Refine.v
RefineBlock.v
RefineExec.v
Votes.v
Accept.v
Agreement.v
TotalOrder.v
Lexinum.v
Codec.v
Kv.v
Conn.v
LogNet.v
ConnProps.v
LogNetProps.v
LogFront.v
Cache.v
Store.v
StoreProps.v
StoreScan.v
StoreInv.v
Missing.v
Ext.v
Depgraph.v
DepgraphProps.v
Broadcast.v
Node.v
NodeProps.v
Wire.v
Types.v
Keys.v
Files.v
Setup.v
Startup.v
SetupProps.v
Discovery.v
Peers.v
BroadcastProps.v
Replay.v
Callbacks.v
PeersProps.v
Loops.v
Network.v
Pubsub.v
PubsubProps.v
Restart.v
Serving.v
Listening.v
Commands.v
Web.v
GraphWitnesses.v
RefineWitnesses.v
AgreementWitnesses.v
Instances.v
StoreWitnesses.v
ServiceWitnesses.v
NodeWitnesses.v
SetupWitnesses.v
LogWitnesses.v
