(* ===== verification/Prelude.v ===== *)
(** * Blockmania: a verification development

    Blockmania is a consensus node written in Go.  Every node broadcasts signed blocks that
    reference the blocks it has received; from the references alone each node interprets a
    PBFT-like protocol, decides one block (or none) per node and round, and delivers the
    decided blocks round by round.  This library models that program, from the bytes on a
    connection to the transactions handed to subscribers, as executable Rocq functions and
    proves what makes it correct.

    ** The program and how its parts interact

    - [src/network], [src/node], [src/service]: nodes connect, authenticate with a signed
      hello message and exchange length-prefixed messages; [node.handleConnection] gives each
      request to the service the hello message names.
    - [src/broadcast]: the broadcast service checks received blocks, stores them in a
      key-value database, queues them in causal order (the dependency graph), creates the
      node's own blocks, sends them to the peers and asks for the ones it misses.
    - [src/blockmania]: every own block, with the blocks it references, is given to the
      consensus graph, which delivers decided rounds through a callback.
    - [src/pubsub], [src/txlistener], [src/rest]: the transactions of delivered blocks go to
      subscribers; new transactions come in over HTTP.

    ** Conventions

    Go integers are [Z] with the wrap-around written out ([u64], [i64], [i32]); bytes are
    integers from 0 to 255; Go maps are [gmap], and where the code depends on a nil map or on
    an order of iteration the model says so ([None], and the permutation results of
    Determinism.v).  A function that can panic, leave the process through [log.Fatal] or loop
    gives an [outcome] ([Ok], or [Halt] with [Panic], [Fatal] or [Diverge]); a Go error is a
    value.  Goroutines are modelled by the steps they take: [run_step] for [Graph.run],
    [process_step] for [depgraph.process], [genBlocks] for one created block, [maintainBroadcast]
    and [fillMissingBlocks] of Loops.v for the loops with a peer, [serve] for a connection,
    [RestServer.step] for the HTTP server.  Theorems about
    executions are by induction over reachable states.  Values that Go shares between a state
    and its clones (vote maps, backing arrays of slices) live in an explicit heap.  The capacity
    of a slice is taken to be its length, except where the code depends on it: the timeouts of a
    state, and the digests of log fields.

    ** Files

    Foundations.
    - Prelude.v: outcomes, machine integers, slices, shared lemmas, tactics and hints.
    - Kv.v: the classes that stand for code outside the repository: [KV] and [KVLaws] (badger
      transactions), [Proto] and [ProtoLaws] (protocol buffers and JSON of one message type),
      [Hasher] (SHA-512/256); [MapDB] implements [KV] by finite maps.  [Signatures] is in
      Broadcast.v; [netconn] of Conn.v lists what the calls of a TCP connection give.
      [Ed25519] and [X509] (Keys.v), [OS] and [Yaml] (Files.v) with their laws are what the
      configuration uses of those libraries.
    - Instances.v: concrete instances of all of them, for which the laws are proved.

    Consensus ([src/blockmania]).
    - Bitset.v ([bitset.go]), Messages.v ([messages/], [states/]), Block.v ([blockmania.go]),
      State.v ([state.go]), Graph.v ([graph.go], one definition per method).
    - Determinism.v: results do not depend on the order of map iterations.
    - Deliver.v, Updates.v, Ordering.v: rounds are delivered in order, once each, as soon as
      they are complete, and decisions are stable.
    - Termination.v: no step runs out of fuel.  Typing.v, Safety.v: type assertions succeed,
      indices are in range, and no step panics.
    - Protocol.v, Chain.v: quorums behind commits and decisions, the nodes a message can add
      votes for, intersection of the quorums of two decisions.
    - Meaning.v, MeaningFacts.v: the abstract specification, a pure interpretation of block
      graphs for one round (views as values, queues of messages).  Refine.v, RefineBlock.v,
      RefineExec.v: the interpreter implements it, so that what a node holds for a block is a
      function of the block graph.
    - Votes.v, Accept.v: what the votes and the first proposal in a chain of blocks mean.
      Agreement.v: with at most f nodes that fork their chains, of which each node sees one
      branch, all decisions of the first view agree.  TotalOrder.v: two such nodes deliver the
      same blocks in the same order.

    Broadcast ([src/broadcast]).
    - Lexinum.v ([src/internal/lexinum]), Codec.v (keys and values of [store.go]), Cache.v
      ([cache.go]), Store.v (the operations of [store.go]), Ext.v ([ext.go]), Depgraph.v
      ([depgraph.go]), Broadcast.v ([broadcast.go], [replay.go]), Peers.v (connecting, and the
      turns of [maintainBroadcast] and [fillMissingBlocks]), Loops.v (these goroutines as a
      whole, and the pauses between attempts to connect).
    - StoreProps.v, StoreScan.v, StoreInv.v, Missing.v: what the store keeps, what its scans
      visit, and that after any history of writes the waiting blocks are exactly the ones
      received and not referenced.
    - DepgraphProps.v: causal order and progress.  BroadcastProps.v: what a received block must
      satisfy, and that created blocks satisfy it.  PeersProps.v: a peer that lags behind
      catches up; Network.v: so it does over a connection, with the loops of both ends.  Replay.v, Callbacks.v: each stored graph is replayed once and each round is
      reported once.
    - Types.v ([types.pb.go]): accessors and enumerations of the messages.  Wire.v: the proto3
      wire format of the messages, an instance of [Proto] for which the laws are proved.

    Node and services.
    - Conn.v, ConnProps.v ([src/network/conn.go]): frames survive any chunking, in order, and
      reading never panics.
    - Node.v, NodeProps.v ([src/node/node.go], [src/network/network.go], [src/service]): peers,
      authentication, and the requests of a connection.  Discovery.v ([network.go]): addresses
      from mDNS and registries, and dialling; a node that announces itself is dialled.
    - Pubsub.v, PubsubProps.v ([src/pubsub], [src/txlistener], [src/rest/service]): publishing.
      Restart.v: over any number of runs, each started by [Broadcast.New] and stopped between
      two rounds, the transactions of a round are published once.  Serving.v: accepting
      and dialling connections.  Listening.v ([src/cmd/pubsublistener]): the program that prints
      transactions.
    - Config.v ([src/config/bytesize.go], [src/internal/log/level.go]): values read from text.
      Base32.v: the encoding of keys and identifiers.  Keys.v ([src/internal/crypto]): signing
      keys and certificates.  Files.v ([src/internal/fsutil]): files and directories.
    - Setup.v ([src/config/config.go], [src/config/generate], [network.New]), Startup.v
      ([src/node]: [LoadConfiguration], [EnsureRuntimeDirs], [Run], announcements), Commands.v
      ([src/cmd/blockmania], [src/internal/exitutil], [src/rest/api]), SetupProps.v: a
      generated network starts, and what an accepted network has been checked for.
    - Web.v ([src/rest/rest.go], [src/rest/api/api.go], the end of [run.go]): the HTTP server
      stops when it is shut down and no request waits for a block, requests reach their
      handlers, published transactions reach
      the clients of the websocket, and the process ends with everything closed.  The framework
      that matches requests with routes is the class [Engine].
    - GoText.v: the text the Go standard library gives for numbers, times and UTF-8.  Log.v,
      LogText.v ([field.go], [text.go], [logger.go] of [src/internal/log]): fields and lines of
      the log; values are printed on one line and can be read back, and which fields panic.
      LogNet.v, LogNetProps.v ([network.go], [server.go]): entries shipped to a log server
      arrive in order and complete, except for what the writer keeps in its buffer.  LogFront.v
      ([log.go], [fld/fld.go]): the root logger and the fields the program logs, which never
      make printing panic; which of them can be shipped.

    Witnesses: GraphWitnesses.v, RefineWitnesses.v, AgreementWitnesses.v, StoreWitnesses.v,
    ServiceWitnesses.v, NodeWitnesses.v, SetupWitnesses.v and LogWitnesses.v run the
    definitions on concrete networks, databases, connections, files and log entries and apply
    the theorems there.

    ** Fuel

    Loops that are not structural take fuel, and running out of it is [Halt Diverge], which the
    theorems exclude.
    - [Graph.drain] walks over a list its own body extends; [drain_fuel] adds up the ranks of
      the messages, and a response has a smaller rank than the message it answers.
    - [Graph.deliverRound] recurses over complete rounds, each of which leaves [g_resolved];
      [deliver_fuel] is the number of those rounds plus one.
    - [read_loop] and [write_loop] use one result of the network per turn; [read_fuel] and
      [write_fuel] are the number of results plus one (after the last one the deadline passes).
    - [Depgraph.drain] handles the blocks that were just included; each of them but the first
      was waiting, so the number of waiting entries plus one is enough.  [collect] and
      [publish_txs] read at least twelve bytes a turn.
    - [Lexinum.fuel] is 10: a 64-bit number has at most nine digits in base 253.
    - [replay_loop] advances by the batch size; [replay_adds_each_graph_once] and, for a start,
      [New_loads] state how many turns are enough.  [Node.serve] gets one turn per message that arrives.
    - [Text.write_runes] takes a byte or more a turn.  [Bufio.fill] makes a call of the
      connection a turn ([fill_total]), [send_entry] takes a further connection for every turn
      but the first ([send_entry_terminates]), and a turn of [LogNet.handle_loop] reads the
      headers of two frames.

    ** Hypotheses

    The laws of the classes above are the only assumptions on code outside the repository.
    Other hypotheses bound sizes (rounds and identifiers that fit into 64 bits, sizes below the
    limits the code checks), say that block graphs come from known nodes and have hashes that can
    be logged, or that distinct blocks of a round have distinct hashes.  The theorems about the meaning of block graphs ask
    for executions in which a node gets no block with two successors and the states a block builds on are
    still there ([linear], [timely]): the vote maps and timeouts of a state are shared with its
    clones, so with forks in one execution they do not hold.  Agreement and total order are proved for the first
    view only: in later views votes are counted for nodes that did not cast them
    ([unsent_prepare_counted]).  The witnesses show that the hypotheses can hold.

    ** Not modelled

    - Mutexes, condition variables, sleeping and the scheduling of goroutines below the steps
      named above; the measurement of time is an argument.
    - TLS, the mDNS and HTTP clients and the HTTP framework: calls of libraries, whose answers
      are arguments of the models.  [src/internal/x509certs] is a constant text.
    - The text formats and the registration of protocol buffer types, API documentation and the
      upgrade of a connection to a websocket.
    - Log entries that other components write: of a call of the log package the models of its
      callers have the exit of [log.Fatal], and the text of a block identifier or message, which
      panics on a hash of one to eleven bytes, where that hash comes from other nodes: in the
      consensus graph at debug level, in the dependency graph at every level and in the callback
      for delivered rounds.  Elsewhere the node has computed the hash itself, or, in
      [store.getBlocks], prints it before a fatal exit.
    - Parsing of command line flags, and the texts that commands print. *)

From Stdlib Require Export ZArith Lia.
From stdpp Require Export sorting.
From stdpp Require Export base tactics option numbers list fin_maps gmap.

#[export] Set Default Proof Using "Type".
#[global] Open Scope Z_scope.

(** ** Outcomes of Go code

    A Go function that runs to its end gives [Ok]; an index out of range, a
    nil dereference, a failed type assertion or a write to a nil map panics,
    and [log.Fatal] leaves the process ([exitutil.Exit]).  [Diverge] is what a
    loop modelled with fuel gives when the fuel is too small; the termination
    theorems show that it never comes out. *)
Inductive stop := Panic | Fatal | Diverge.

Inductive outcome (A : Type) :=
  | Ok (a : A)
  | Halt (why : stop).
Arguments Ok {A} a.
Arguments Halt {A} why.

#[export] Instance outcome_ret : MRet outcome := λ A, Ok.
#[export] Instance outcome_bind : MBind outcome := λ A B f m,
  match m with Ok a => f a | Halt w => Halt w end.
#[export] Instance outcome_fmap : FMap outcome := λ A B f m,
  match m with Ok a => Ok (f a) | Halt w => Halt w end.

Definition is_ok {A} (o : outcome A) : bool :=
  match o with Ok _ => true | Halt _ => false end.

(** An option read where Go panics when there is nothing to read. *)
Definition or_panic {A} (o : option A) : outcome A :=
  match o with Some a => Ok a | None => Halt Panic end.

(** A [for _, x := range l] loop over a state, whose body may halt. *)
Fixpoint range {S A} (f : S → A → outcome S) (s : S) (l : list A) : outcome S :=
  match l with
  | [] => Ok s
  | x :: l => s' ← f s x; range f s' l
  end.

Lemma bind_Ok {A B} (m : outcome A) (f : A → outcome B) b :
  m ≫= f = Ok b ↔ ∃ a, m = Ok a ∧ f a = Ok b.
Proof. destruct m; naive_solver. Qed.

Lemma or_panic_Ok {A} (o : option A) a : or_panic o = Ok a ↔ o = Some a.
Proof. destruct o; naive_solver. Qed.

Lemma range_app {S A} (f : S → A → outcome S) s l1 l2 :
  range f s (l1 ++ l2) = range f s l1 ≫= λ s', range f s' l2.
Proof.
  revert s; induction l1 as [|x l1 IH]; intros s; simpl; [done|].
  destruct (f s x); simpl; auto.
Qed.

(** The loop rule: an invariant the body keeps holds after the loop. *)
Lemma range_inv {S A} (P : S → Prop) (f : S → A → outcome S) s l s' :
  P s → (∀ s x s', x ∈ l → P s → f s x = Ok s' → P s') →
  range f s l = Ok s' → P s'.
Proof.
  revert s; induction l as [|x l IH]; intros s Hs Hf Hr; simpl in Hr; [naive_solver|].
  apply bind_Ok in Hr as (s1 & H1 & Hr).
  eapply IH; [eapply Hf; eauto; left|..|done]. intros; eapply Hf; eauto. by right.
Qed.

(** The total version: a body that never halts under the invariant. *)
Lemma range_total {S A} (P : S → Prop) (f : S → A → outcome S) s l :
  P s → (∀ s x, x ∈ l → P s → ∃ s', f s x = Ok s' ∧ P s') →
  ∃ s', range f s l = Ok s' ∧ P s'.
Proof.
  revert s; induction l as [|x l IH]; intros s Hs Hf; simpl; [eauto|].
  destruct (Hf s x) as (s1 & -> & H1); [left|done|]. simpl.
  apply IH; [done|]. intros; apply Hf; [by right|done].
Qed.

(** [go_inv H] runs a function backwards: from [H : body = Ok r] it opens the
    binds, the conditionals and the matches of the body and keeps the paths that
    end in [Ok].  A component can add a step of its own with [go_inv_hook]. *)
Ltac go_inv_hook H := fail.
Ltac go_inv_step H :=
  first [go_inv_hook H|
  lazymatch type of H with
  | mbind ?f ?m = Ok _ =>
      let x := fresh "x" in let E := fresh "E" in apply bind_Ok in H as (x & E & H)
  | Ok _ = Ok _ => injection H as H
  | Halt _ = Ok _ => discriminate H
  | or_panic _ = Ok _ => apply or_panic_Ok in H
  | context [if ?b then _ else _] => let E := fresh "E" in destruct b eqn:E
  | context [let (_, _) := ?p in _] => let E := fresh "E" in destruct p eqn:E
  | context [match ?x with _ => _ end] => let E := fresh "E" in destruct x eqn:E
  end].
Ltac go_inv H := repeat (go_inv_step H; cbv beta zeta in H).

(** ** Functions that return [(value, error)]

    [inl e] is the error return, [inr a] the return with a nil error.
    [x <-? m ; k] is [x, err := m; if err != nil { return err }; k]. *)
Notation "x ←? m ; k" :=
  (mbind (λ r, match r with inl e => Ok (inl e) | inr x => k end) m)
  (at level 20, m at level 100, k at level 200, only parsing).
Notation "' p ←? m ; k" :=
  (mbind (λ r, match r with inl e => Ok (inl e) | inr p => k end) m)
  (at level 20, p pattern, m at level 100, k at level 200, only parsing).

(** ** Outcomes and postconditions *)

(** [wp o Q E]: a result satisfies [Q], a halt satisfies [E]. *)
Definition wp {A} (o : outcome A) (Q : A → Prop) (E : stop → Prop) : Prop :=
  match o with Ok a => Q a | Halt w => E w end.

Lemma wp_bind {A B} (m : outcome A) (f : A → outcome B) Q E :
  wp m (λ a, wp (f a) Q E) E → wp (m ≫= f) Q E.
Proof. by destruct m. Qed.
Lemma wp_mono {A} (o : outcome A) (Q Q' : A → Prop) (E E' : stop → Prop) :
  wp o Q E → (∀ a, Q a → Q' a) → (∀ w, E w → E' w) → wp o Q' E'.
Proof. destruct o; simpl; auto. Qed.
Lemma wp_range {S A} (P : S → Prop) (f : S → A → outcome S) s l E :
  P s → (∀ s x, x ∈ l → P s → wp (f s x) P E) → wp (range f s l) P E.
Proof.
  revert s; induction l as [|x l IH]; intros s Hs Hf; simpl; [done|].
  apply wp_bind. eapply wp_mono; [apply Hf; [left|done]| |done].
  intros s' Hs'. apply IH; [done|]. intros; apply Hf; [by right|done].
Qed.

(** ** Machine integers: a [w]-bit unsigned integer is a [Z] kept modulo [2^w] *)
Definition u8 (z : Z) : Z := z mod 2 ^ 8.
Definition u16 (z : Z) : Z := z mod 2 ^ 16.
Definition u32 (z : Z) : Z := z mod 2 ^ 32.
Definition u64 (z : Z) : Z := z mod 2 ^ 64.
Definition i32 (z : Z) : Z := (z + 2 ^ 31) mod 2 ^ 32 - 2 ^ 31.
Definition i64 (z : Z) : Z := (z + 2 ^ 63) mod 2 ^ 64 - 2 ^ 63.

Definition is_u8 (z : Z) : Prop := 0 ≤ z < 2 ^ 8.
Definition is_u32 (z : Z) : Prop := 0 ≤ z < 2 ^ 32.
Definition is_u64 (z : Z) : Prop := 0 ≤ z < 2 ^ 64.

Lemma u64_small z : is_u64 z → u64 z = z.
Proof. apply Z.mod_small. Qed.
Lemma u32_small z : is_u32 z → u32 z = z.
Proof. apply Z.mod_small. Qed.
Lemma u8_small z : is_u8 z → u8 z = z.
Proof. apply Z.mod_small. Qed.
Lemma i32_small z : - 2 ^ 31 ≤ z < 2 ^ 31 → i32 z = z.
Proof. intros H. unfold i32. rewrite Z.mod_small; lia. Qed.
Lemma i32_lt z : i32 z < 2 ^ 31.
Proof. unfold i32. pose proof (Z.mod_pos_bound (z + 2 ^ 31) (2 ^ 32)). lia. Qed.
Lemma i64_small z : - 2 ^ 63 ≤ z < 2 ^ 63 → i64 z = z.
Proof. intros H. unfold i64. rewrite Z.mod_small; lia. Qed.
Lemma u64_range z : is_u64 (u64 z).
Proof. by apply Z.mod_pos_bound. Qed.
Lemma u32_range z : is_u32 (u32 z).
Proof. by apply Z.mod_pos_bound. Qed.

(** [uz] closes goals on machine integers: it opens the ranges and the
    wrap-arounds and calls [lia] with the equations of [/] and [mod]. *)
Ltac uz := unfold is_u8, is_u32, is_u64, u8, u16, u32, u64 in *;
  Z.div_mod_to_equations; lia.

(** ** Byte strings

    Go's [[]byte] and [string] are byte sequences; a byte is a [Z] below 256. *)
Notation bytes := (list Z) (only parsing).

Definition is_bytes (s : bytes) : Prop := Forall is_u8 s.

#[export] Instance is_u8_dec z : Decision (is_u8 z).
Proof. unfold is_u8; apply _. Defined.
#[export] Instance is_bytes_dec s : Decision (is_bytes s).
Proof. unfold is_bytes; apply _. Defined.

(** Go compares strings and keys byte by byte, a proper prefix being smaller. *)
Fixpoint bytes_le (a b : bytes) : bool :=
  match a, b with
  | [], _ => true
  | _ :: _, [] => false
  | x :: a', y :: b' => if x <? y then true else if x =? y then bytes_le a' b' else false
  end.
Definition bytes_lt (a b : bytes) : bool := negb (bytes_le b a).

Lemma bytes_le_refl a : bytes_le a a.
Proof. induction a as [|x a IH]; simpl; [done|]. by rewrite Z.ltb_irrefl, Z.eqb_refl. Qed.

Lemma bytes_le_cons x a y b :
  bytes_le (x :: a) (y :: b) ↔ x < y ∨ x = y ∧ bytes_le a b.
Proof.
  simpl. destruct (Z.ltb_spec x y), (Z.eqb_spec x y); simpl; naive_solver lia.
Qed.

Lemma bytes_le_trans a b c : bytes_le a b → bytes_le b c → bytes_le a c.
Proof.
  revert b c; induction a as [|x a IH]; intros [|y b] [|z c]; try done.
  rewrite !bytes_le_cons. intros [?|[-> ?]] [?|[-> ?]]; [lia..|].
  right; split; [done|]. by eapply IH.
Qed.

Lemma bytes_le_antisym a b : bytes_le a b → bytes_le b a → a = b.
Proof.
  revert b; induction a as [|x a IH]; intros [|y b]; try done.
  rewrite !bytes_le_cons. intros [?|[-> ?]] [?|[? ?]]; try lia. f_equal; auto.
Qed.

Lemma bytes_le_total a b : bytes_le a b ∨ bytes_le b a.
Proof.
  revert b; induction a as [|x a IH]; intros [|y b]; [by left..|by right|].
  rewrite !bytes_le_cons. destruct (IH b), (Z.lt_trichotomy x y) as [?|[?|?]]; naive_solver.
Qed.

Lemma bytes_lt_iff a b : bytes_lt a b ↔ bytes_le a b ∧ a ≠ b.
Proof.
  unfold bytes_lt. split.
  - intros H. destruct (bytes_le b a) eqn:E; [done|].
    destruct (bytes_le_total a b) as [?|E']; [|by rewrite E in E'].
    split; [done|]. intros ->. pose proof (bytes_le_refl b) as R. by rewrite E in R.
  - intros [H Hne]. destruct (bytes_le b a) eqn:E; [|done].
    exfalso; apply Hne, bytes_le_antisym; [done|]. by rewrite E.
Qed.

Lemma bytes_le_app p a b : bytes_le (p ++ a) (p ++ b) = bytes_le a b.
Proof. induction p as [|x p IH]; simpl; [done|]. by rewrite Z.ltb_irrefl, Z.eqb_refl. Qed.

(** [before a b]: the first byte in which [a] and [b] differ is smaller in [a];
    what follows does not matter. *)
Definition before (a b : bytes) : Prop :=
  ∃ p x s y t, a = p ++ x :: s ∧ b = p ++ y :: t ∧ x < y.

Lemma bytes_lt_cons x a y b : bytes_lt (x :: a) (y :: b) ↔ x < y ∨ x = y ∧ bytes_lt a b.
Proof.
  rewrite !bytes_lt_iff, bytes_le_cons. split.
  - intros [[?|[-> ?]] Hne]; [by left|]. right. split_and!; congruence.
  - intros [?|(-> & ? & ?)]; (split; [naive_solver|]); [|congruence]. intros [= ? ?]. lia.
Qed.

Lemma before_lt a b : before a b → bytes_lt a b.
Proof.
  intros (p & x & s & y & t & -> & -> & Hxy). induction p as [|z p IH]; simpl app.
  - apply bytes_lt_cons. by left.
  - apply bytes_lt_cons. by right.
Qed.

Lemma before_app a b s t : before a b → before (a ++ s) (b ++ t).
Proof.
  intros (p & x & s0 & y & t0 & -> & -> & Hxy).
  exists p, x, (s0 ++ s), y, (t0 ++ t). rewrite <- !(assoc_L (++)). done.
Qed.

Lemma before_cons z a b : before a b → before (z :: a) (z :: b).
Proof. intros (p & x & s & y & t & -> & -> & Hxy). by exists (z :: p), x, s, y, t. Qed.
Lemma before_prepend p a b : before a b → before (p ++ a) (p ++ b).
Proof. intros H. induction p; [done|]. by apply before_cons. Qed.
Lemma before_head x y s t : x < y → before (x :: s) (y :: t).
Proof. intros. by exists [], x, s, y, t. Qed.

(** A string is smaller when it is a proper prefix or comes [before]. *)
Lemma bytes_lt_cases a b : bytes_lt a b ↔ (∃ x t, b = a ++ x :: t) ∨ before a b.
Proof.
  split.
  - revert b; induction a as [|x a IH]; intros [|y b] H; try done; [left; by eexists _, _|].
    apply bytes_lt_cons in H as [?|[-> H]]; [right; by apply before_head|].
    destruct (IH _ H) as [(z & t & ->)|?]; [left; by eexists _, _|right; by apply before_cons].
  - intros [(x & t & ->)|?]; [|by apply before_lt]. induction a; [done|]. simpl app.
    apply bytes_lt_cons. by right.
Qed.

(** ** Little-endian words (encoding/binary) *)
Fixpoint put_le (n : nat) (z : Z) : bytes :=
  match n with
  | O => []
  | S n => z mod 256 :: put_le n (z / 256)
  end.

Fixpoint get_le (s : bytes) : Z :=
  match s with
  | [] => 0
  | b :: s => b + 256 * get_le s
  end.

Lemma length_put_le n z : length (put_le n z) = n.
Proof. revert z; induction n; intros; simpl; auto. Qed.

Lemma put_le_bytes n z : is_bytes (put_le n z).
Proof.
  revert z; induction n as [|n IH]; intros z; constructor; [|apply IH].
  by apply Z.mod_pos_bound.
Qed.

Lemma get_put_le n z : get_le (put_le n z) = z mod 256 ^ Z.of_nat n.
Proof.
  revert z; induction n as [|n IH]; intros z; simpl put_le; simpl get_le.
  - by rewrite Z.mod_1_r.
  - rewrite IH. rewrite Nat2Z.inj_succ, Z.pow_succ_r by lia.
    rewrite Z.rem_mul_r by lia. lia.
Qed.

(** [get_le] reads back what [put_le] wrote when the number fits. *)
Lemma get_put_le_small n z : 0 ≤ z < 256 ^ Z.of_nat n → get_le (put_le n z) = z.
Proof. intros H. rewrite get_put_le. by apply Z.mod_small. Qed.

(** ** Slice expressions: [s[i:j]] panics unless [i <= j <= len s]; the capacity of a slice is
    taken to be its length *)
Definition sub (s : bytes) (i j : nat) : outcome bytes :=
  if bool_decide (i ≤ j ≤ length s)%nat then Ok (take (j - i) (drop i s)) else Halt Panic.

Lemma sub_app (p m q : bytes) :
  sub (p ++ m ++ q) (length p) (length p + length m) = Ok m.
Proof.
  unfold sub. rewrite bool_decide_eq_true_2 by (rewrite !length_app; lia).
  rewrite drop_app_length. f_equal.
  replace (length p + length m - length p)%nat with (length m) by lia.
  by rewrite take_app_length.
Qed.

Lemma sub_Ok s i j r : sub s i j = Ok r → length r = (j - i)%nat ∧ (i ≤ j ≤ length s)%nat.
Proof.
  unfold sub. case_bool_decide; [|done]. intros [= <-].
  rewrite length_take, length_drop. lia.
Qed.

(** ** Writing into a slice *)

(** A write to [buf[i:i+len(x)]] (PutUint64, PutUint32, Read). *)
Definition put_at (buf : bytes) (i : nat) (x : bytes) : outcome bytes :=
  if bool_decide (i + length x ≤ length buf)%nat
  then Ok (take i buf ++ x ++ drop (i + length x) buf) else Halt Panic.
(** [copy(buf[i:], x)] *)
Definition copy_at (buf : bytes) (i : nat) (x : bytes) : outcome bytes :=
  if bool_decide (i ≤ length buf)%nat
  then let x := take (length buf - i) x in
       Ok (take i buf ++ x ++ drop (i + length x) buf)
  else Halt Panic.

Lemma put_at_Ok buf i x :
  (i + length x ≤ length buf)%nat →
  ∃ buf', put_at buf i x = Ok buf' ∧ length buf' = length buf ∧ take (i + length x) buf' = take i buf ++ x.
Proof.
  intros H. unfold put_at. rewrite bool_decide_eq_true_2 by done. eexists. split; [done|]. split.
  - rewrite !length_app, length_take, length_drop. lia.
  - rewrite (assoc_L (++)), take_app_length'; [done|]. rewrite length_app, length_take. lia.
Qed.
Lemma copy_at_put buf i x : (i + length x ≤ length buf)%nat → copy_at buf i x = put_at buf i x.
Proof.
  intros H. unfold copy_at, put_at. rewrite !bool_decide_eq_true_2 by lia. by rewrite (take_ge x) by lia.
Qed.

(** ** Lists *)
Lemma list_filter_ext {A} (P Q : A → Prop) `{!∀ x, Decision (P x), !∀ x, Decision (Q x)} (l : list A) :
  (∀ x, x ∈ l → P x ↔ Q x) → filter P l = filter Q l.
Proof.
  induction l as [|x l IH]; intros HPQ; [done|]. rewrite !filter_cons.
  assert (filter P l = filter Q l) as E by (apply IH; intros; apply HPQ; by right).
  assert (P x ↔ Q x) by (apply HPQ; left).
  rewrite E. destruct (decide (P x)), (decide (Q x)); done || tauto.
Qed.

Lemma length_filter_fmap {A B} (f : A → B) (P : B → Prop) `{!∀ x, Decision (P x)} (l : list A) :
  length (filter P (f <$> l)) = length (filter (λ x, P (f x)) l).
Proof.
  induction l as [|x l IH]; [done|]. rewrite fmap_cons, !filter_cons.
  destruct (decide (P (f x))); simpl; auto.
Qed.

Lemma filter_every {A} (P : A → Prop) `{!∀ x, Decision (P x)} (l : list A) :
  (∀ x, x ∈ l → P x) → filter P l = l.
Proof.
  induction l as [|x l IH]; intros HP; [done|]. rewrite filter_cons, decide_True by (apply HP; left).
  f_equal. apply IH. intros; apply HP; by right.
Qed.

Lemma StronglySorted_weaken {A} (R S : A → A → Prop) l :
  (∀ x y, R x y → S x y) → StronglySorted R l → StronglySorted S l.
Proof.
  intros HRS. induction 1 as [|x l _ IH Hx]; constructor; [done|].
  eapply Forall_impl; [exact Hx|auto].
Qed.

Lemma filter_none {A} (P : A → Prop) `{!∀ x, Decision (P x)} (l : list A) :
  (∀ x, x ∈ l → ¬ P x) → filter P l = [].
Proof.
  induction l as [|x l IH]; intros Hn; [done|]. rewrite filter_cons, decide_False by (apply Hn; left).
  apply IH. intros y Hy. apply Hn. by right.
Qed.

Lemma StronglySorted_filter {A} (R : relation A) (P : A → Prop) `{!∀ x, Decision (P x)} l :
  StronglySorted R l → StronglySorted R (filter P l).
Proof.
  induction 1 as [|x l Hs IH Hh]; [constructor|]. rewrite filter_cons. case_decide; [|done].
  constructor; [done|]. apply Forall_forall. intros y [_ Hy]%list_elem_of_filter.
  by eapply Forall_forall in Hh.
Qed.

Lemma Forall_choose {A B} (P : A → B → Prop) (l : list A) :
  Forall (λ x, ∃ y, P x y) l → ∃ l', Forall2 P l l'.
Proof.
  induction 1 as [|x l [y Hy] _ [l' IH]]; [by exists []|]. exists (y :: l'). by constructor.
Qed.

Lemma Forall2_elem_l {A B} (P : A → B → Prop) l l' x :
  Forall2 P l l' → x ∈ l → ∃ y, y ∈ l' ∧ P x y.
Proof.
  induction 1 as [|a b l l' Hab _ IH]; [by intros ?%elem_of_nil|].
  intros [->|Hx]%elem_of_cons; [exists b; split; [left|done]|].
  destruct (IH Hx) as (y & ? & ?). exists y. split; [by right|done].
Qed.
Lemma Forall2_elem_r {A B} (P : A → B → Prop) l l' y :
  Forall2 P l l' → y ∈ l' → ∃ x, x ∈ l ∧ P x y.
Proof.
  induction 1 as [|a b l l' Hab _ IH]; [by intros ?%elem_of_nil|].
  intros [->|Hy]%elem_of_cons; [exists a; split; [left|done]|].
  destruct (IH Hy) as (x & ? & ?). exists x. split; [by right|done].
Qed.

(** Sorting carries over to a related list. *)
Lemma StronglySorted_Forall2 {A B} (R : relation A) (R' : relation B) (P : A → B → Prop) l l' :
  Forall2 P l l' → (∀ x x' y y', P x y → P x' y' → R x x' → R' y y') →
  StronglySorted R l → StronglySorted R' l'.
Proof.
  intros HF HR. induction HF as [|x y l l' Hxy HF IH]; intros Hs; [constructor|].
  apply StronglySorted_inv in Hs as [Hs Hx]. constructor; [auto|].
  apply Forall_forall. intros y' (x' & Hx' & Hp)%(Forall2_elem_r _ _ _ _ HF).
  eapply HR; [done..|]. by eapply Forall_forall in Hx.
Qed.

(** A zero byte separates strings without zero bytes. *)
Lemma split_zero (a b x y : bytes) :
  Forall (λ c, c ≠ 0) a → Forall (λ c, c ≠ 0) b → a ++ 0 :: x = b ++ 0 :: y → a = b ∧ x = y.
Proof.
  revert b; induction a as [|c a IH]; intros [|d b] Ha Hb E; simplify_eq/=.
  - done.
  - by apply Forall_cons in Hb as [? _].
  - by apply Forall_cons in Ha as [? _].
  - apply Forall_cons in Ha as [_ Ha], Hb as [_ Hb]. destruct (IH b Ha Hb) as [-> ->]; done.
Qed.

(** ** Ranges of rounds *)
Lemma seqZ_sorted i n : StronglySorted Z.lt (seqZ i n).
Proof.
  unfold seqZ. generalize (Z.to_nat n) as m. intros m. generalize 0%nat as j.
  induction m as [|m IH]; intros j; simpl; [constructor|]. constructor; [apply IH|].
  apply Forall_fmap, Forall_seq. intros x Hx. simpl. lia.
Qed.
Lemma sorted_is_seqZ l a n :
  StronglySorted Z.lt l → (∀ k, k ∈ l ↔ a ≤ k < a + n) → l = seqZ a n.
Proof.
  intros Hs Hin. apply (StronglySorted_unique_strong Z.lt); [lia|done|apply seqZ_sorted|].
  apply NoDup_Permutation; [|apply NoDup_seqZ|intros k; by rewrite Hin, elem_of_seqZ].
  clear Hin. induction Hs as [|x l _ IH Hx]; constructor; [|done].
  intros Hx'. by apply (Forall_forall _ _) with x in Hx; [lia|].
Qed.

(** A choice for every element of a list. *)
Lemma list_choice {A B} `{EqDecision A, Inhabited B} (P : A → B → Prop) (l : list A) :
  (∀ x, x ∈ l → ∃ y, P x y) → ∃ f, ∀ x, x ∈ l → P x (f x).
Proof.
  induction l as [|x l IH]; intros HP; [exists (λ _, inhabitant); by intros x ?%elem_of_nil|].
  destruct IH as [f Hf]; [intros; apply HP; by right|]. destruct (HP x) as [y Hy]; [left|].
  exists (λ z, if decide (z = x) then y else f z). intros z Hz. case_decide; subst; [done|].
  apply Hf. by apply elem_of_cons in Hz as [->|].
Qed.
