(* ===== verification/Bitset.v ===== *)
(** * Vote bitsets (src/blockmania/bitset.go)

    A [bitset] holds two arrays of 64-bit words, one bit per node ID, for the
    prepare and the commit votes of one proposal.  The arrays are refined to
    finite sets of node IDs ([votes]): setting a bit is adding to the set,
    testing is membership, counting is cardinality; reading or setting a node
    ID beyond the arrays panics. *)

From S2P Require Import Prelude.

Record bitset := mkBitset { commits : list Z; prepares : list Z }.

#[export] Instance bitset_eq_dec : EqDecision bitset.
Proof. solve_decision. Defined.

(** ** Operations *)
Module Bitset.

(** [words[int(v>>6)]], the word that holds the bit of [v]. *)
Definition word_index (v : Z) : nat := Z.to_nat (Z.shiftr v 6).
(** [1 << (v & 63)] *)
Definition bit_mask (v : Z) : Z := Z.shiftl 1 (Z.land v 63).

Definition test_word (ws : list Z) (v : Z) : outcome bool :=
  w ← or_panic (ws !! word_index v); Ok (negb (Z.land w (bit_mask v) =? 0)).

Definition set_word (ws : list Z) (v : Z) : outcome (list Z) :=
  w ← or_panic (ws !! word_index v); Ok (<[word_index v := Z.lor w (bit_mask v)]> ws).

(** [bits.OnesCount64] *)
Definition OnesCount64 (w : Z) : Z :=
  Z.of_nat (length (filter (λ i, Z.testbit w i) (seqZ 0 64))).

Fixpoint count_words (ws : list Z) : Z :=
  match ws with
  | [] => 0
  | w :: ws => OnesCount64 w + count_words ws
  end.

Definition clone (b : bitset) : bitset := mkBitset (commits b) (prepares b).

Definition commitCount (b : bitset) : Z := count_words (commits b).
Definition prepareCount (b : bitset) : Z := count_words (prepares b).

Definition hasCommit (b : bitset) (v : Z) : outcome bool := test_word (commits b) v.
Definition hasPrepare (b : bitset) (v : Z) : outcome bool := test_word (prepares b) v.

Definition setCommit (b : bitset) (v : Z) : outcome bitset :=
  ws ← set_word (commits b) v; Ok (mkBitset ws (prepares b)).
Definition setPrepare (b : bitset) (v : Z) : outcome bitset :=
  ws ← set_word (prepares b) v; Ok (mkBitset (commits b) ws).

Definition newBitset (size : Z) : bitset :=
  let words := Z.to_nat (Z.shiftr (size + 63) 6) in
  mkBitset (replicate words 0) (replicate words 0).

(** ** The abstract view: a finite set of node IDs *)

(** The IDs an array of [n] words can hold. *)
Definition in_range (n : nat) (v : Z) : Prop := 0 ≤ v < 64 * Z.of_nat n.

Definition has_bit (ws : list Z) (v : Z) : bool :=
  match ws !! word_index v with
  | Some w => Z.testbit w (Z.land v 63)
  | None => false
  end.

Definition votes (ws : list Z) : gset Z :=
  list_to_set (filter (λ v, has_bit ws v) (seqZ 0 (64 * Z.of_nat (length ws)))).

(** Well-formed arrays hold 64-bit words. *)
Definition words_ok (ws : list Z) : Prop := Forall is_u64 ws.
Definition wf (n : nat) (b : bitset) : Prop :=
  length (commits b) = n ∧ length (prepares b) = n ∧
  words_ok (commits b) ∧ words_ok (prepares b).

(** ** Lemmas on one word *)
Lemma word_index_spec v : 0 ≤ v → word_index v = Z.to_nat (v / 64).
Proof. intros. unfold word_index. by rewrite Z.shiftr_div_pow2. Qed.

Lemma land_63 v : Z.land v 63 = v mod 64.
Proof. change 63 with (Z.ones 6). by rewrite Z.land_ones. Qed.

Lemma word_index_lt n v : 0 ≤ v → (word_index v < n)%nat ↔ in_range n v.
Proof. intros. rewrite word_index_spec by done. unfold in_range. Z.div_mod_to_equations; lia. Qed.

Lemma bit_mask_spec v : bit_mask v = 2 ^ (v mod 64).
Proof. unfold bit_mask. rewrite land_63. rewrite Z.shiftl_1_l. done. Qed.

Lemma testbit_mask v i : 0 ≤ i → Z.testbit (bit_mask v) i = bool_decide (i = v mod 64).
Proof.
  intros. rewrite bit_mask_spec. pose proof (Z.mod_pos_bound v 64 eq_refl).
  rewrite Z.pow2_bits_eqb by lia. case_bool_decide; destruct (Z.eqb_spec (v mod 64) i); lia.
Qed.

Lemma test_mask w v : negb (Z.land w (bit_mask v) =? 0) = Z.testbit w (v mod 64).
Proof.
  pose proof (Z.mod_pos_bound v 64 eq_refl).
  destruct (Z.testbit w (v mod 64)) eqn:E.
  - destruct (Z.eqb_spec (Z.land w (bit_mask v)) 0) as [H0|]; [|done].
    assert (Z.testbit (Z.land w (bit_mask v)) (v mod 64) = false) as HF
      by (rewrite H0; apply Z.bits_0).
    rewrite Z.land_spec, testbit_mask, E in HF by lia. by case_bool_decide.
  - replace (Z.land w (bit_mask v)) with 0; [done|].
    symmetry; apply Z.bits_inj'; intros i Hi.
    rewrite Z.bits_0, Z.land_spec, testbit_mask by done.
    case_bool_decide; [subst; by rewrite E|by rewrite andb_false_r].
Qed.

Lemma lor_mask_u64 w v : is_u64 w → is_u64 (Z.lor w (bit_mask v)).
Proof.
  intros [H0 H1]. pose proof (Z.mod_pos_bound v 64 eq_refl).
  rewrite bit_mask_spec. split.
  - apply Z.lor_nonneg; split; [done|]. apply Z.pow_nonneg; lia.
  - destruct (decide (Z.lor w (2 ^ (v mod 64)) = 0)) as [->|Hn]; [lia|].
    apply Z.log2_lt_pow2; [pose proof (proj2 (Z.lor_nonneg w (2 ^ (v mod 64)))); 
      assert (0 ≤ 2 ^ (v mod 64)) by (apply Z.pow_nonneg; lia); lia|].
    rewrite Z.log2_lor by (try apply Z.pow_nonneg; lia).
    rewrite Z.log2_pow2 by lia.
    destruct (decide (w = 0)) as [->|]; [simpl; lia|].
    assert (Z.log2 w < 64) by (apply Z.log2_lt_pow2; lia). lia.
Qed.

(** ** Lemmas on arrays *)
Lemma elem_of_votes ws v : v ∈ votes ws ↔ in_range (length ws) v ∧ has_bit ws v.
Proof.
  unfold votes. rewrite elem_of_list_to_set, list_elem_of_filter, elem_of_seqZ.
  unfold in_range. split; intros [? ?]; split; auto; lia.
Qed.

Lemma test_word_Ok ws v b :
  0 ≤ v → test_word ws v = Ok b ↔ in_range (length ws) v ∧ b = bool_decide (v ∈ votes ws).
Proof.
  intros Hv. unfold test_word. rewrite <- (word_index_lt (length ws)) by done.
  destruct (ws !! word_index v) as [w|] eqn:E; simpl.
  - apply lookup_lt_Some in E as Hlt. rewrite test_mask.
    assert (Z.testbit w (v mod 64) = bool_decide (v ∈ votes ws)) as ->; [|naive_solver].
    case_bool_decide as Hin.
    all: rewrite elem_of_votes, <- word_index_lt in Hin by done; unfold has_bit in Hin;
      rewrite E, land_63 in Hin.
    + by destruct Hin as [_ ?%Is_true_true_1].
    + apply not_true_is_false. intros ?. apply Hin. split; [done|by apply Is_true_true_2].
  - apply lookup_ge_None in E. split; [done|]. intros [? _]. lia.
Qed.

Lemma set_word_Ok ws v ws' :
  0 ≤ v → set_word ws v = Ok ws' ↔
  ∃ w, ws !! word_index v = Some w ∧ ws' = <[word_index v := Z.lor w (bit_mask v)]> ws.
Proof.
  intros. unfold set_word. destruct (ws !! word_index v); simpl; naive_solver.
Qed.

Lemma set_word_total ws v : in_range (length ws) v → ∃ ws', set_word ws v = Ok ws'.
Proof.
  intros Hr. pose proof Hr as [Hv _]. apply word_index_lt in Hr; [|done].
  apply lookup_lt_is_Some_2 in Hr as [w E]. unfold set_word. rewrite E. simpl; eauto.
Qed.

Lemma set_word_panics ws v : 0 ≤ v → ¬ in_range (length ws) v → set_word ws v = Halt Panic.
Proof.
  intros Hv Hr. rewrite <- word_index_lt in Hr by done. unfold set_word.
  rewrite (proj2 (lookup_ge_None _ _)); [done|lia].
Qed.

Lemma set_word_length ws v ws' : 0 ≤ v → set_word ws v = Ok ws' → length ws' = length ws.
Proof. intros Hv (w & _ & ->)%set_word_Ok; [|done]. apply length_insert. Qed.

Lemma set_word_ok ws v ws' : 0 ≤ v → words_ok ws → set_word ws v = Ok ws' → words_ok ws'.
Proof.
  intros Hv Hok (w & Hw & ->)%set_word_Ok; [|done].
  apply Forall_insert; [done|]. apply lor_mask_u64. by eapply Forall_lookup_1.
Qed.

Lemma votes_set_word ws v ws' :
  0 ≤ v → set_word ws v = Ok ws' → votes ws' = {[v]} ∪ votes ws.
Proof.
  intros Hv H. pose proof (set_word_length _ _ _ Hv H) as Hlen.
  apply set_word_Ok in H as (w & Hw & ->); [|done].
  pose proof (proj1 (word_index_lt _ v Hv) (lookup_lt_Some _ _ _ Hw)) as Hr.
  apply leibniz_equiv; intros u. rewrite elem_of_union, elem_of_singleton, !elem_of_votes, Hlen.
  unfold has_bit. rewrite !land_63. split.
  - intros [Hu Hb]. destruct (decide (word_index u = word_index v)) as [Heq|Hne].
    + rewrite Heq, Hw. rewrite Heq, list_lookup_insert_eq in Hb by (by eapply lookup_lt_Some).
      rewrite Z.lor_spec, testbit_mask in Hb by (apply Z.mod_pos_bound; lia).
      apply orb_True in Hb as [?|Hm]; [right; by split|left].
      apply bool_decide_unpack in Hm. destruct Hu.
      rewrite !word_index_spec in Heq by lia. Z.div_mod_to_equations; lia.
    + rewrite list_lookup_insert_ne in Hb by done. right; by split.
  - intros [->|[Hu Hb]]; split; auto.
    + rewrite list_lookup_insert_eq by (by eapply lookup_lt_Some).
      rewrite Z.lor_spec, testbit_mask, bool_decide_eq_true_2
        by (done || apply Z.mod_pos_bound; lia).
      by rewrite orb_true_r.
    + destruct (decide (word_index u = word_index v)) as [Heq|Hne].
      * rewrite Heq in *. rewrite list_lookup_insert_eq by (by eapply lookup_lt_Some).
        rewrite Hw in Hb. rewrite Z.lor_spec. apply orb_True; by left.
      * by rewrite list_lookup_insert_ne.
Qed.

(** Setting a bit removes none. *)
Lemma votes_set_word_mono ws v ws' : set_word ws v = Ok ws' → votes ws ⊆ votes ws'.
Proof.
  unfold set_word. intros (w & Hw%or_panic_Ok & [= <-])%bind_Ok u.
  rewrite !elem_of_votes, length_insert. intros [Hu Hb]; split; [done|]. unfold has_bit in *.
  destruct (decide (word_index u = word_index v)) as [Heq|Hne].
  - rewrite Heq in *. rewrite list_lookup_insert_eq by (by eapply lookup_lt_Some).
    rewrite Hw in Hb. rewrite Z.lor_spec. apply orb_True; by left.
  - by rewrite list_lookup_insert_ne.
Qed.

Lemma has_bit_cons_high w ws u : 0 ≤ u → has_bit (w :: ws) (64 + u) = has_bit ws u.
Proof.
  intros. unfold has_bit. rewrite !land_63, !word_index_spec by lia.
  replace (Z.to_nat ((64 + u) / 64)) with (S (Z.to_nat (u / 64)))
    by (Z.div_mod_to_equations; lia).
  replace ((64 + u) mod 64) with (u mod 64) by (Z.div_mod_to_equations; lia). done.
Qed.

Lemma has_bit_cons_low w ws u : 0 ≤ u < 64 → has_bit (w :: ws) u = Z.testbit w u.
Proof.
  intros. unfold has_bit. rewrite land_63, word_index_spec by lia.
  rewrite Z.div_small, Z.mod_small by lia. done.
Qed.

Lemma count_words_filter ws :
  count_words ws =
  Z.of_nat (length (filter (λ v, has_bit ws v) (seqZ 0 (64 * Z.of_nat (length ws))))).
Proof.
  induction ws as [|w ws IH]; [done|].
  cbn [count_words length]. rewrite IH. unfold OnesCount64.
  replace (64 * Z.of_nat (S (length ws))) with (64 + 64 * Z.of_nat (length ws)) by lia.
  rewrite seqZ_app, list.filter_app, length_app, Nat2Z.inj_add by lia.
  apply (f_equal2 Z.add); apply (f_equal Z.of_nat).
  - apply (f_equal length), list_filter_ext. intros u Hu%elem_of_seqZ. by rewrite has_bit_cons_low by lia.
  - rewrite <- (fmap_add_seqZ 64 0), length_filter_fmap.
    apply (f_equal length), list_filter_ext. intros u Hu%elem_of_seqZ. by rewrite has_bit_cons_high by lia.
Qed.

(** Counting the bits counts the votes. *)
Lemma count_words_size ws : count_words ws = Z.of_nat (size (votes ws)).
Proof.
  rewrite count_words_filter. unfold votes. rewrite size_list_to_set; [done|].
  apply NoDup_filter, NoDup_seqZ.
Qed.

Lemma votes_replicate_0 n : votes (replicate n 0) = ∅.
Proof.
  apply leibniz_equiv; intros v. rewrite elem_of_votes. split; [|set_solver].
  intros [_ Hb]. unfold has_bit in Hb.
  destruct (replicate n 0 !! word_index v) as [w|] eqn:E; [|done].
  apply lookup_replicate in E as [-> _]. by rewrite Z.bits_0 in Hb.
Qed.

(** ** The bitset as two sets of votes *)

(** A sequence of votes: [true] for a commit, [false] for a prepare. *)
Definition vote (b : bitset) (x : bool * Z) : outcome bitset :=
  if x.1 then setCommit b x.2 else setPrepare b x.2.
Definition voters (kind : bool) (xs : list (bool * Z)) : gset Z :=
  list_to_set (filter (λ x, x.1 = kind) xs).*2.

Lemma voters_snoc kind xs x :
  voters kind (xs ++ [x]) = if decide (x.1 = kind) then {[x.2]} ∪ voters kind xs else voters kind xs.
Proof.
  unfold voters. rewrite list.filter_app, fmap_app, list_to_set_app_L, filter_cons, filter_nil.
  destruct (decide (x.1 = kind)); simpl; set_solver.
Qed.

Lemma capacity size : 0 ≤ size → length (commits (newBitset size)) = Z.to_nat ((size + 63) / 64).
Proof. intros. simpl. by rewrite length_replicate, Z.shiftr_div_pow2. Qed.

Lemma votes_range size xs :
  let n := Z.to_nat ((size + 63) / 64) in
  0 ≤ size → Forall (λ x, in_range n x.2) xs →
  ∃ b, range vote (newBitset size) xs = Ok b ∧ length (commits b) = n ∧ length (prepares b) = n ∧
    votes (commits b) = voters true xs ∧ votes (prepares b) = voters false xs.
Proof.
  intros n Hs. induction xs as [|[kind v] xs IH] using rev_ind; intros Hr.
  { exists (newBitset size). rewrite (capacity size) by done. simpl.
    rewrite length_replicate, Z.shiftr_div_pow2, !votes_replicate_0 by done. done. }
  apply Forall_app in Hr as [Hr Hv]. apply Forall_inv in Hv. simpl in Hv.
  destruct (IH Hr) as (b & Hb & Lc & Lp & Vc & Vp). rewrite range_app, Hb. cbn [mbind outcome_bind range].
  assert (0 ≤ v) as H0 by apply Hv. rewrite !voters_snoc. unfold vote. cbn [fst snd].
  destruct kind; unfold setCommit, setPrepare.
  - destruct (set_word_total (commits b) v) as [ws Hw]; [by rewrite Lc|]. rewrite Hw. eexists. split; [done|].
    simpl. rewrite (votes_set_word _ _ _ H0 Hw), (set_word_length _ _ _ H0 Hw), Vc. done.
  - destruct (set_word_total (prepares b) v) as [ws Hw]; [by rewrite Lp|]. rewrite Hw. eexists. split; [done|].
    simpl. rewrite (votes_set_word _ _ _ H0 Hw), (set_word_length _ _ _ H0 Hw), Vp. done.
Qed.

(** C15: The bitset implements two finite sets of voters: after any sequence of votes in range
    the counts are the sizes of the sets of distinct committers and preparers, and the tests are
    membership. *)
Theorem bitset_refines_sets size xs :
  let n := Z.to_nat ((size + 63) / 64) in
  0 ≤ size → Forall (λ x, in_range n x.2) xs →
  ∃ b, range vote (newBitset size) xs = Ok b ∧
    commitCount b = Z.of_nat (base.size (voters true xs)) ∧
    prepareCount b = Z.of_nat (base.size (voters false xs)) ∧
    ∀ v, in_range n v → hasCommit b v = Ok (bool_decide (v ∈ voters true xs)) ∧
                        hasPrepare b v = Ok (bool_decide (v ∈ voters false xs)).
Proof.
  intros n Hs Hr. destruct (votes_range size xs Hs Hr) as (b & Hb & Lc & Lp & Vc & Vp).
  exists b. unfold commitCount, prepareCount, hasCommit, hasPrepare. rewrite !count_words_size, Vc, Vp.
  split_and!; [done..|]. intros v Hv. pose proof Hv as [H0 _].
  rewrite <- Vc, <- Vp. split; apply test_word_Ok; rewrite ?Lc, ?Lp; done.
Qed.

(** The capacity of a new bitset: with a size that is not a multiple of 64 every identifier
    from 0 to the size can vote; with a multiple of 64 a vote of the node numbered like the size
    panics. *)
Theorem newBitset_misses_last_node size :
  0 < size →
  (size mod 64 = 0 → setCommit (newBitset size) size = Halt Panic ∧ setPrepare (newBitset size) size = Halt Panic) ∧
  (size mod 64 ≠ 0 → ∀ v, 0 ≤ v ≤ size → is_ok (setCommit (newBitset size) v) ∧ is_ok (setPrepare (newBitset size) v)).
Proof.
  intros Hs. assert (length (prepares (newBitset size)) = Z.to_nat ((size + 63) / 64)) as Lp
    by (simpl; by rewrite length_replicate, Z.shiftr_div_pow2).
  pose proof (capacity size) as Lc. specialize (Lc ltac:(lia)). unfold setCommit, setPrepare. split.
  - intros Hm. rewrite !set_word_panics; [done|lia| |lia|]; rewrite ?Lc, ?Lp; unfold in_range;
      Z.div_mod_to_equations; lia.
  - intros Hm v Hv. assert (in_range (Z.to_nat ((size + 63) / 64)) v)
      by (unfold in_range; Z.div_mod_to_equations; lia).
    destruct (set_word_total (commits (newBitset size)) v) as [wc ->]; [by rewrite Lc|].
    destruct (set_word_total (prepares (newBitset size)) v) as [wp ->]; [by rewrite Lp|]. done.
Qed.
End Bitset.
