(* ===== verification/Messages.v ===== *)
(** * Protocol messages and state keys (src/blockmania/messages, src/blockmania/states)

    The five message structs of the consensus protocol, the [Message] interface
    as their sum, and the keys of a state's key-value store ([StateData]).  All
    of them are Go map keys, so each gets decidable equality and [Countable]. *)

From stdpp Require Import strings.
From S2P Require Import Prelude.

(** ** Text: string literals and decimal numbers as bytes *)

(** A Go string literal. *)
Fixpoint lit (s : string) : bytes :=
  match s with
  | EmptyString => []
  | String a s => Z.of_N (Ascii.N_of_ascii a) :: lit s
  end.

Fixpoint uint_bytes (d : Decimal.uint) : bytes :=
  match d with
  | Decimal.Nil => []
  | Decimal.D0 d => 48 :: uint_bytes d
  | Decimal.D1 d => 49 :: uint_bytes d
  | Decimal.D2 d => 50 :: uint_bytes d
  | Decimal.D3 d => 51 :: uint_bytes d
  | Decimal.D4 d => 52 :: uint_bytes d
  | Decimal.D5 d => 53 :: uint_bytes d
  | Decimal.D6 d => 54 :: uint_bytes d
  | Decimal.D7 d => 55 :: uint_bytes d
  | Decimal.D8 d => 56 :: uint_bytes d
  | Decimal.D9 d => 57 :: uint_bytes d
  end.

(** [strconv.FormatUint(z, 10)], and [%d] on an unsigned value. *)
Definition dec (z : Z) : bytes := uint_bytes (N.to_uint (Z.to_N z)).

(** One digit of [0123456789ABCDEF]. *)
Definition hexUpper (c : Z) : Z := if c <? 10 then 48 + c else 55 + c.

(** [%X] on a string: two digits a byte. *)
Definition hex_bytes (s : bytes) : bytes :=
  s ≫= λ c, [hexUpper (Z.shiftr c 4); hexUpper (Z.land c 15)].

(** ** Message structs *)
Record PrePrepare := mkPrePrepare { pp_hash : bytes; pp_node : Z; pp_round : Z; pp_view : Z }.
Record Prepare := mkPrepare {
  p_hash : bytes; p_node : Z; p_round : Z; p_sender : Z; p_view : Z }.
Record Commit := mkCommit {
  c_hash : bytes; c_node : Z; c_round : Z; c_sender : Z; c_view : Z }.
Record ViewChange := mkViewChange {
  vc_hash : bytes; vc_node : Z; vc_round : Z; vc_sender : Z; vc_view : Z }.
Record NewView := mkNewView {
  nv_hash : bytes; nv_node : Z; nv_round : Z; nv_sender : Z; nv_view : Z }.

Inductive Message :=
  | MPrePrepare (m : PrePrepare)
  | MPrepare (m : Prepare)
  | MCommit (m : Commit)
  | MViewChange (m : ViewChange)
  | MNewView (m : NewView).

#[export] Instance PrePrepare_eq_dec : EqDecision PrePrepare.
Proof. solve_decision. Defined.
#[export] Instance Prepare_eq_dec : EqDecision Prepare.
Proof. solve_decision. Defined.
#[export] Instance Commit_eq_dec : EqDecision Commit.
Proof. solve_decision. Defined.
#[export] Instance ViewChange_eq_dec : EqDecision ViewChange.
Proof. solve_decision. Defined.
#[export] Instance NewView_eq_dec : EqDecision NewView.
Proof. solve_decision. Defined.
#[export] Instance Message_eq_dec : EqDecision Message.
Proof. solve_decision. Defined.

#[export] Instance PrePrepare_countable : Countable PrePrepare.
Proof.
  refine (inj_countable' (λ m, (pp_hash m, pp_node m, pp_round m, pp_view m))
    (λ '(h, n, r, v), mkPrePrepare h n r v) _). by intros [].
Defined.

(** Every message as a tag and its five fields. *)
Definition msg_fields (m : Message) : Z * (bytes * Z * Z * Z * Z) :=
  match m with
  | MPrePrepare (mkPrePrepare h n r v) => (0, (h, n, r, 0, v))
  | MPrepare (mkPrepare h n r s v) => (1, (h, n, r, s, v))
  | MCommit (mkCommit h n r s v) => (2, (h, n, r, s, v))
  | MViewChange (mkViewChange h n r s v) => (3, (h, n, r, s, v))
  | MNewView (mkNewView h n r s v) => (4, (h, n, r, s, v))
  end.
Definition msg_build (t : Z * (bytes * Z * Z * Z * Z)) : option Message :=
  let '(k, (h, n, r, s, v)) := t in
  if k =? 0 then Some (MPrePrepare (mkPrePrepare h n r v))
  else if k =? 1 then Some (MPrepare (mkPrepare h n r s v))
  else if k =? 2 then Some (MCommit (mkCommit h n r s v))
  else if k =? 3 then Some (MViewChange (mkViewChange h n r s v))
  else Some (MNewView (mkNewView h n r s v)).
#[export] Instance Message_countable : Countable Message.
Proof. refine (inj_countable msg_fields msg_build _). by intros [[]|[]|[]|[]|[]]. Defined.

(** ** Message methods *)
Module Msg.

(** [MessageKind] is a [uint8]; the constants count from zero ([iota]). *)
Definition UnknownMsg : Z := 0.
Definition PrePrepareMsg : Z := 1.
Definition PrepareMsg : Z := 2.
Definition CommitMsg : Z := 3.
Definition ViewChangedMsg : Z := 4.
Definition NewViewMsg : Z := 5.

Definition Kind (m : Message) : Z :=
  match m with
  | MPrePrepare _ => PrePrepareMsg
  | MPrepare _ => PrepareMsg
  | MCommit _ => CommitMsg
  | MViewChange _ => ViewChangedMsg
  | MNewView _ => NewViewMsg
  end.

Definition MessageKind_String (m : Z) : outcome bytes :=
  if m =? CommitMsg then Ok (lit "commit")
  else if m =? NewViewMsg then Ok (lit "new-view")
  else if m =? PrepareMsg then Ok (lit "prepare")
  else if m =? PrePrepareMsg then Ok (lit "pre-prepare")
  else if m =? UnknownMsg then Ok (lit "unknown")
  else if m =? ViewChangedMsg then Ok (lit "view-change")
  else Halt Panic.

Definition NodeRound (m : Message) : Z * Z :=
  match m with
  | MPrePrepare m => (pp_node m, pp_round m)
  | MPrepare m => (p_node m, p_round m)
  | MCommit m => (c_node m, c_round m)
  | MViewChange m => (vc_node m, vc_round m)
  | MNewView m => (nv_node m, nv_round m)
  end.

Definition Prepare_Pre (p : Prepare) : PrePrepare :=
  mkPrePrepare (p_hash p) (p_node p) (p_round p) (p_view p).
Definition Commit_Pre (c : Commit) : PrePrepare :=
  mkPrePrepare (c_hash c) (c_node c) (c_round c) (c_view c).

(** [v[6:12]] panics on a hash of one to eleven bytes. *)
(** The bytes 6 to 11 of a hash that is not empty are shown. *)
Definition shows (h : bytes) : bool := bool_decide (h = []) || bool_decide (12 ≤ length h)%nat.
Definition fmtHash (v : bytes) : outcome bytes :=
  if decide (v = []) then Ok [] else h ← sub v 6 12; Ok (hex_bytes h).

(** The part of the rendering the five structs share. *)
Definition render (name : string) (node round view : Z) (hash : bytes) (tl : bytes) : outcome bytes :=
  h ← fmtHash hash;
  Ok (lit name ++ lit "{node: " ++ dec node ++ lit ", round: " ++ dec round ++
      lit ", view: " ++ dec view ++ lit ", hash: '" ++ h ++ lit "'" ++ tl ++ lit "}").

Definition render_sender (s : Z) : bytes := lit ", sender: " ++ dec s.

Definition PrePrepare_String (p : PrePrepare) : outcome bytes :=
  render "pre-prepare" (pp_node p) (pp_round p) (pp_view p) (pp_hash p) [].
Definition Prepare_String (p : Prepare) : outcome bytes :=
  render "prepare" (p_node p) (p_round p) (p_view p) (p_hash p) (render_sender (p_sender p)).
Definition Commit_String (c : Commit) : outcome bytes :=
  render "commit" (c_node c) (c_round c) (c_view c) (c_hash c) (render_sender (c_sender c)).
Definition ViewChange_String (v : ViewChange) : outcome bytes :=
  render "view-change" (vc_node v) (vc_round v) (vc_view v) (vc_hash v)
    (render_sender (vc_sender v)).
Definition NewView_String (n : NewView) : outcome bytes :=
  render "new-view" (nv_node n) (nv_round n) (nv_view n) (nv_hash n)
    (render_sender (nv_sender n)).

Definition String (m : Message) : outcome bytes :=
  match m with
  | MPrePrepare m => PrePrepare_String m
  | MPrepare m => Prepare_String m
  | MCommit m => Commit_String m
  | MViewChange m => ViewChange_String m
  | MNewView m => NewView_String m
  end.

Definition hash_of (m : Message) : bytes :=
  match m with
  | MPrePrepare m => pp_hash m
  | MPrepare m => p_hash m
  | MCommit m => c_hash m
  | MViewChange m => vc_hash m
  | MNewView m => nv_hash m
  end.
Lemma String_cases m : if shows (hash_of m) then is_ok (String m) = true else String m = Halt Panic.
Proof.
  assert (∀ name n r v h tl, if shows h then is_ok (render name n r v h tl) = true else render name n r v h tl = Halt Panic) as H.
  { intros. unfold render, fmtHash, shows. case_decide; [by rewrite bool_decide_eq_true_2|].
    rewrite bool_decide_eq_false_2 by done. unfold sub. simpl. do 2 case_bool_decide; try done; lia. }
  destruct m; apply H.
Qed.

(** The sender a message claims; a pre-prepare has none. *)
Definition sender_of (m : Message) : option Z :=
  match m with
  | MPrePrepare _ => None
  | MPrepare m => Some (p_sender m)
  | MCommit m => Some (c_sender m)
  | MViewChange m => Some (vc_sender m)
  | MNewView m => Some (nv_sender m)
  end.

(** How many further messages processing one message can trigger:
    view-change, new-view, pre-prepare, prepare, commit. *)
Definition rank (m : Message) : nat :=
  match m with
  | MCommit _ => 0
  | MPrepare _ => 1
  | MPrePrepare _ => 2
  | MNewView _ => 3
  | MViewChange _ => 4
  end.
End Msg.

(** ** State keys (src/blockmania/states) *)
Inductive StateData :=
  | Final (node round : Z)
  | HNV (node round view : Z)
  | Prepared (node round view : Z)
  | PrePrepared (node round view : Z)
  | View (node round : Z)
  | ViewChanged (node round view : Z).

#[export] Instance StateData_eq_dec : EqDecision StateData.
Proof. solve_decision. Defined.

Definition sd_fields (k : StateData) : Z * (Z * Z * Z) :=
  match k with
  | Final n r => (0, (n, r, 0))
  | HNV n r v => (1, (n, r, v))
  | Prepared n r v => (2, (n, r, v))
  | PrePrepared n r v => (3, (n, r, v))
  | View n r => (4, (n, r, 0))
  | ViewChanged n r v => (5, (n, r, v))
  end.
Definition sd_build (t : Z * (Z * Z * Z)) : option StateData :=
  let '(k, (n, r, v)) := t in
  if k =? 0 then Some (Final n r) else if k =? 1 then Some (HNV n r v)
  else if k =? 2 then Some (Prepared n r v) else if k =? 3 then Some (PrePrepared n r v)
  else if k =? 4 then Some (View n r) else Some (ViewChanged n r v).
#[export] Instance StateData_countable : Countable StateData.
Proof. refine (inj_countable sd_fields sd_build _). by intros []. Defined.

Module Sd.
Definition UnknownState : Z := 0.
Definition FinalState : Z := 1.
Definition HNVState : Z := 2.
Definition PreparedState : Z := 3.
Definition PrePreparedState : Z := 4.
Definition ViewState : Z := 5.
Definition ViewChangedState : Z := 6.

Definition GetRound (k : StateData) : Z :=
  match k with
  | Final _ r | HNV _ r _ | Prepared _ r _ | PrePrepared _ r _ | View _ r | ViewChanged _ r _ => r
  end.

(** The node and round a key is about. *)
Definition key_node (k : StateData) : Z :=
  match k with
  | Final n _ | HNV n _ _ | Prepared n _ _ | PrePrepared n _ _ | View n _ | ViewChanged n _ _ => n
  end.

Definition SdKind (k : StateData) : Z :=
  match k with
  | Final _ _ => FinalState
  | HNV _ _ _ => HNVState
  | Prepared _ _ _ => PreparedState
  | PrePrepared _ _ _ => PrePreparedState
  | View _ _ => ViewState
  | ViewChanged _ _ _ => ViewChangedState
  end.

Definition StateDataKind_String (s : Z) : outcome bytes :=
  if s =? FinalState then Ok (lit "final")
  else if s =? HNVState then Ok (lit "hnv")
  else if s =? PreparedState then Ok (lit "prepared")
  else if s =? PrePreparedState then Ok (lit "preprepared")
  else if s =? UnknownState then Ok (lit "unknown")
  else if s =? ViewState then Ok (lit "viewState")
  else if s =? ViewChangedState then Ok (lit "viewchanged")
  else Halt Panic.
End Sd.
