(* ===== verification/Config.v ===== *)
(** * Configuration values (src/config/bytesize.go, src/internal/log/level.go)

    Byte sizes and log levels are read from and written to YAML as strings; [raw] is the
    string the YAML decoder gives.  A Go [string(char)] of a byte is one code point. *)

From Stdlib Require Import DecimalN.
From stdpp Require Import strings.
From S2P Require Import Prelude Messages.

(** ** strconv and strings *)

(** [strconv.ParseUint(s, 10, 64)]; [None]: an error. *)
Fixpoint parse_digits (acc : Z) (s : bytes) : option Z :=
  match s with
  | [] => Some acc
  | c :: s => if (48 <=? c) && (c <=? 57) then parse_digits (acc * 10 + (c - 48)) s else None
  end.
Definition ParseUint (s : bytes) : option Z :=
  match s with
  | [] => None
  | _ => match parse_digits 0 s with
         | Some v => if v <? 2 ^ 64 then Some v else None
         | None => None
         end
  end.

(** [strings.ToLower] on code points below 256. *)
Definition lower (c : Z) : Z :=
  if ((65 <=? c) && (c <=? 90)) || ((192 <=? c) && (c <=? 222) && negb (c =? 215)) then c + 32 else c.
Definition ToLower (s : list Z) : list Z := lower <$> s.

Lemma parse_uint_acc d : ∀ p, parse_digits (Zpos p) (uint_bytes d) = Some (Zpos (Pos.of_uint_acc d p)).
Proof.
  induction d as [|d IH|d IH|d IH|d IH|d IH|d IH|d IH|d IH|d IH|d IH]; intros p; [done|..];
    cbn [uint_bytes parse_digits]; cbn -[Z.mul Z.add Pos.of_uint_acc]; cbn [Pos.of_uint_acc];
    rewrite <- IH; f_equal; lia.
Qed.

Lemma parse_uint_bytes d : parse_digits 0 (uint_bytes d) = Some (Z.of_N (N.of_uint d)).
Proof.
  induction d as [|d IH|d _|d _|d _|d _|d _|d _|d _|d _|d _]; [done|exact IH|..];
    cbn [uint_bytes parse_digits]; cbn -[parse_digits]; apply parse_uint_acc.
Qed.

Lemma dec_nonempty z : dec z ≠ [].
Proof.
  unfold dec, N.to_uint. destruct (Z.to_N z) as [|p]; [done|]. unfold Pos.to_uint.
  intros E. pose proof (DecimalPos.Unsigned.to_uint_nonnil p) as Hn. unfold Pos.to_uint in Hn.
  by destruct (Decimal.rev _).
Qed.

(** [ParseUint] reads back what [FormatUint] writes. *)
Lemma ParseUint_dec z : is_u64 z → ParseUint (dec z) = Some z.
Proof.
  intros Hz. unfold ParseUint. pose proof (dec_nonempty z) as Hn. destruct (dec z) as [|c s] eqn:E; [done|].
  rewrite <- E. unfold dec. rewrite parse_uint_bytes, Unsigned.of_to, Z2N.id by (destruct Hz; lia).
  destruct Hz. by destruct (Z.ltb_spec z (2 ^ 64)); [|lia].
Qed.

Lemma dec_digits z : Forall (λ c, 48 ≤ c ≤ 57) (dec z).
Proof. unfold dec. generalize (N.to_uint (Z.to_N z)) as d. induction d; simpl; constructor; done || lia. Qed.

(** ** Byte sizes *)
Module ByteSize.
Definition KB : Z := 1024.
Definition MB : Z := 1024 * KB.
Definition GB : Z := 1024 * MB.
Definition TB : Z := 1024 * GB.
Definition maxInt : Z := 2 ^ 63 - 1.

(** [None]: the value overflows an int. *)
Definition Int (b : Z) : option Z := if maxInt <? b then None else Some b.

Definition MarshalYAML (b : Z) : bytes :=
  if b mod TB =? 0 then dec (b / TB) ++ lit "TB"
  else if b mod GB =? 0 then dec (b / GB) ++ lit "GB"
  else if b mod MB =? 0 then dec (b / MB) ++ lit "MB"
  else if b mod KB =? 0 then dec (b / KB) ++ lit "KB"
  else dec b ++ lit "B".

Inductive error := ErrYAML | ErrNumber | ErrSuffix.

(** The loop from the end of the string to its last digit: the characters after it, and
    the value, when there is a digit.  [rraw] is the string reversed. *)
Fixpoint scan (rraw : bytes) (suffix : list Z) : option (option Z) * list Z :=
  match rraw with
  | [] => (None, suffix)
  | char :: rest =>
      if (48 <=? char) && (char <=? 57) then (Some (ParseUint (reverse rraw)), suffix)
      else scan rest (char :: suffix)
  end.

(** The value after the call, and the error; [b] is the value before. *)
Definition UnmarshalYAML (b : Z) (raw : option bytes) : Z * option error :=
  match raw with
  | None => (b, Some ErrYAML)
  | Some raw =>
      let '(val, suffix) := scan (reverse raw) [] in
      match val with
      | Some None => (b, Some ErrNumber)
      | _ =>
          let b := match val with Some (Some v) => v | _ => b end in
          let suffix := ToLower suffix in
          if bool_decide (suffix ∈ [lit ""; lit "b"; lit "byte"; lit "bytes"]) then (b, None)
          else if bool_decide (suffix ∈ [lit "k"; lit "kb"]) then (u64 (b * KB), None)
          else if bool_decide (suffix ∈ [lit "m"; lit "mb"]) then (u64 (b * MB), None)
          else if bool_decide (suffix ∈ [lit "g"; lit "gb"]) then (u64 (b * GB), None)
          else if bool_decide (suffix ∈ [lit "t"; lit "tb"]) then (u64 (b * TB), None)
          else (b, Some ErrSuffix)
      end
  end.

(** A number followed by letters. *)
Lemma scan_letters letters : ∀ rest suffix,
  Forall (λ c, ¬ 48 ≤ c ≤ 57) letters →
  scan (letters ++ rest) suffix = scan rest (reverse letters ++ suffix).
Proof.
  induction letters as [|c letters IH]; intros rest suffix HF; [done|]. apply Forall_cons in HF as [Hc HF].
  simpl. destruct (Z.leb_spec 48 c), (Z.leb_spec c 57); try lia; simpl; rewrite IH by done;
    by rewrite reverse_cons, <- (assoc_L (++)).
Qed.

Lemma scan_value z letters :
  is_u64 z → Forall (λ c, ¬ 48 ≤ c ≤ 57) letters →
  scan (reverse (dec z ++ letters)) [] = (Some (Some z), letters).
Proof.
  intros Hz HF. rewrite reverse_app, scan_letters by (by apply Forall_reverse).
  rewrite reverse_involutive, app_nil_r. pose proof (dec_nonempty z) as Hn.
  destruct (reverse (dec z)) as [|c rest] eqn:E.
  { apply (f_equal reverse) in E. by rewrite reverse_involutive in E. }
  assert (48 ≤ c ≤ 57) as Hc.
  { pose proof (dec_digits z) as Hd. apply Forall_reverse in Hd. rewrite E in Hd. by apply Forall_inv in Hd. }
  simpl. destruct (Z.leb_spec 48 c), (Z.leb_spec c 57); try lia. simpl.
  by rewrite <- E, reverse_involutive, ParseUint_dec.
Qed.

(** Reading a number with a given suffix. *)
Lemma unmarshal_value old z letters :
  is_u64 z → Forall (λ c, ¬ 48 ≤ c ≤ 57) letters →
  UnmarshalYAML old (Some (dec z ++ letters)) = UnmarshalYAML z (Some letters).
Proof.
  intros Hz HF. unfold UnmarshalYAML. rewrite scan_value by done.
  rewrite <- (app_nil_r (reverse letters)), scan_letters by (by apply Forall_reverse).
  by rewrite reverse_involutive, app_nil_r.
Qed.

(** UnmarshalYAML reads back every 64-bit byte size from the text MarshalYAML writes for
    it, whichever unit it chooses. *)
Theorem byte_size_round_trip old b : is_u64 b → UnmarshalYAML old (Some (MarshalYAML b)) = (b, None).
Proof.
  intros Hb. unfold MarshalYAML.
  assert (∀ unit, 0 < unit → b mod unit = 0 → is_u64 (b / unit) ∧ u64 (b / unit * unit) = b) as Hunit.
  { intros unit Hu Hm. apply Z.div_exact in Hm; [|lia]. unfold is_u64 in *. split.
    - split; [apply Z.div_pos; lia|]. apply Z.div_lt_upper_bound; nia.
    - rewrite (Z.mul_comm _ unit), <- Hm. by apply u64_small. }
  repeat (match goal with |- context[if ?m =? 0 then _ else _] => destruct (Z.eqb_spec m 0) as [Hm|_] end);
    try (apply Hunit in Hm as [Hd He]; [|by vm_compute]);
    (rewrite unmarshal_value; [|done|repeat constructor; vm_compute; intros [? ?]; congruence]).
  1-4: change (UnmarshalYAML _ (Some (lit _))) with (u64 (b / TB * TB), @None error) ||
       change (UnmarshalYAML _ (Some (lit _))) with (u64 (b / GB * GB), @None error) ||
       change (UnmarshalYAML _ (Some (lit _))) with (u64 (b / MB * MB), @None error) ||
       change (UnmarshalYAML _ (Some (lit _))) with (u64 (b / KB * KB), @None error); by rewrite He.
  done.
Qed.

(** There is no check for overflow: sixteen million terabytes are read as zero. *)
Theorem large_sizes_wrap old : UnmarshalYAML old (Some (lit "16777216TB")) = (0, None).
Proof. vm_compute. reflexivity. Qed.
End ByteSize.

(** ** Log levels *)
Module Level.
Definition DebugLevel : Z := 1.
Definition InfoLevel : Z := 2.
Definition WarnLevel : Z := 3.
Definition ErrorLevel : Z := 4.
Definition StackTraceLevel : Z := 5.
Definition FatalLevel : Z := 6.
Definition maxLevel : Z := 7.

Definition MarshalYAML (l : Z) : outcome bytes :=
  if l =? 0 then Ok (lit "")
  else if l =? DebugLevel then Ok (lit "debug")
  else if l =? ErrorLevel then Ok (lit "error")
  else if l =? FatalLevel then Ok (lit "fatal")
  else if l =? InfoLevel then Ok (lit "info")
  else if l =? StackTraceLevel then Ok (lit "stacktrace")
  else if l =? WarnLevel then Ok (lit "warn")
  else Halt Panic.

Definition String (l : Z) : outcome bytes :=
  if l =? DebugLevel then Ok (lit "DEBUG")
  else if l =? ErrorLevel then Ok (lit "ERROR")
  else if l =? FatalLevel then Ok (lit "FATAL")
  else if l =? InfoLevel then Ok (lit "INFO")
  else if l =? StackTraceLevel then Ok (lit "STACKTRACE")
  else Halt Panic.

(** The value after the call and whether there was an error; [l] is the value before. *)
Definition UnmarshalYAML (l : Z) (raw : option bytes) : Z * bool :=
  match raw with
  | None => (l, true)
  | Some raw =>
      let s := ToLower raw in
      if bool_decide (s = lit "") then (l, false)
      else if bool_decide (s = lit "debug") then (DebugLevel, false)
      else if bool_decide (s = lit "error") then (ErrorLevel, false)
      else if bool_decide (s = lit "fatal") then (FatalLevel, false)
      else if bool_decide (s = lit "info") then (InfoLevel, false)
      else if bool_decide (s = lit "stacktrace") then (StackTraceLevel, false)
      else if bool_decide (s = lit "warn") then (WarnLevel, false)
      else (l, true)
  end.

(** The levels of the outputs, and the smallest ones that are derived from them. *)
Record levels := mkLevels { lv_console : Z; lv_file : Z; lv_net : Z }.
Definition updateMinLevels (v : levels) : Z * Z :=
  let '(minLevel, textLevel) := (maxLevel, maxLevel) in
  let '(minLevel, textLevel) :=
    if lv_console v <? minLevel then (lv_console v, lv_console v) else (minLevel, textLevel) in
  let '(minLevel, textLevel) :=
    if lv_file v <? minLevel then (lv_file v, lv_file v) else (minLevel, textLevel) in
  let minLevel := if lv_net v <? minLevel then lv_net v else minLevel in
  (minLevel, textLevel).
Definition AtDebug (v : levels) : bool := (updateMinLevels v).1 <=? DebugLevel.
Definition AtInfo (v : levels) : bool := (updateMinLevels v).1 <=? InfoLevel.
Definition AtWarn (v : levels) : bool := (updateMinLevels v).1 <=? WarnLevel.
Definition AtError (v : levels) : bool := (updateMinLevels v).1 <=? ErrorLevel.
Definition AtStackTrace (v : levels) : bool := (updateMinLevels v).1 <=? StackTraceLevel.

(** Every level is read back from what is written for it, and an entry passes the guard
    for its level when some output is at that level or below it; [String] has no name for
    [WarnLevel]. *)
Theorem levels_round_trip l old v :
  DebugLevel ≤ l ≤ FatalLevel →
  (∃ raw, MarshalYAML l = Ok raw ∧ UnmarshalYAML old (Some raw) = (l, false)) ∧
  (is_ok (String l) = true ↔ l ≠ WarnLevel) ∧
  ((updateMinLevels v).1 <=? l = true ↔ lv_console v ≤ l ∨ lv_file v ≤ l ∨ lv_net v ≤ l).
Proof.
  intros Hl. unfold DebugLevel, FatalLevel in Hl.
  assert (l = 1 ∨ l = 2 ∨ l = 3 ∨ l = 4 ∨ l = 5 ∨ l = 6) as Hcases by lia. split_and!.
  - destruct Hcases as [->|[->|[->|[->|[->| ->]]]]]; (eexists; split; [reflexivity|]); vm_compute; reflexivity.
  - destruct Hcases as [->|[->|[->|[->|[->| ->]]]]]; split; vm_compute; done || congruence.
  - unfold updateMinLevels, maxLevel. rewrite Z.leb_le.
    repeat match goal with |- context[?a <? ?b] => destruct (Z.ltb_spec a b); simpl end; lia.
Qed.
End Level.
