(* ===== verification/GoText.v ===== *)
(** * Text of the Go standard library

    What the log package prints numbers, times and strings with: [utf8.DecodeRune],
    [strconv.AppendInt] and [AppendFloat] (format ['f'], shortest form), [Duration.String] and
    [Time.AppendFormat] with the layout of a date and a time of day. *)

From stdpp Require Import strings.
From S2P Require Import Prelude Messages.

(** ** UTF-8 *)
Module Utf8.
Definition RuneError : Z := 65533.
Definition between (lo hi b : Z) : bool := (lo <=? b) && (b <=? hi).

(** The length of a sequence by its first byte, and the range of the second one. *)
Definition first (b : Z) : option (nat * Z * Z) :=
  if between 194 223 b then Some (2%nat, 128, 191)
  else if b =? 224 then Some (3%nat, 160, 191)
  else if between 225 236 b || between 238 239 b then Some (3%nat, 128, 191)
  else if b =? 237 then Some (3%nat, 128, 159)
  else if b =? 240 then Some (4%nat, 144, 191)
  else if between 241 243 b then Some (4%nat, 128, 191)
  else if b =? 244 then Some (4%nat, 128, 143)
  else None.

(** The last six bits of a byte that continues a sequence, under the bits before it. *)
Definition more (r b : Z) : Z := Z.lor (Z.shiftl r 6) (Z.land b 63).

(** The code point at the start of [s] and its size; [(RuneError, 1)] for an invalid byte. *)
Definition DecodeRune (s : bytes) : Z * nat :=
  match s with
  | [] => (RuneError, 0%nat)
  | b0 :: s =>
      if b0 <? 128 then (b0, 1%nat)
      else match first b0, s with
           | Some (2%nat, lo, hi), b1 :: _ =>
               if between lo hi b1 then (more (Z.land b0 31) b1, 2%nat) else (RuneError, 1%nat)
           | Some (3%nat, lo, hi), b1 :: b2 :: _ =>
               if between lo hi b1 && between 128 191 b2
               then (more (more (Z.land b0 15) b1) b2, 3%nat) else (RuneError, 1%nat)
           | Some (4%nat, lo, hi), b1 :: b2 :: b3 :: _ =>
               if between lo hi b1 && between 128 191 b2 && between 128 191 b3
               then (more (more (more (Z.land b0 7) b1) b2) b3, 4%nat) else (RuneError, 1%nat)
           | _, _ => (RuneError, 1%nat)
           end
  end.

(** [utf8.Valid]: every code point in turn is valid; at most [length s] of them. *)
Fixpoint valid_loop (fuel : nat) (s : bytes) : bool :=
  match fuel, s with
  | _, [] => true
  | O, _ => false
  | S fuel, _ =>
      let '(r, n) := DecodeRune s in
      if (r =? RuneError) && bool_decide (n = 1%nat) then false else valid_loop fuel (drop n s)
  end.
Definition Valid (s : bytes) : bool := valid_loop (length s) s.

(** A byte of 128 or more decodes to an invalid byte, or to a sequence of such bytes. *)
Lemma DecodeRune_spec b s r n :
  128 ≤ b → DecodeRune (b :: s) = (r, n) →
  (r, n) = (RuneError, 1%nat) ∨
  (2 ≤ n ≤ length (b :: s))%nat ∧ Forall (λ c, 128 ≤ c) (take n (b :: s)).
Proof.
  intros Hb. unfold DecodeRune. destruct (Z.ltb_spec b 128); [lia|].
  assert (∀ lo hi c, between lo hi c = true → lo ≤ c) as Hlo.
  { intros lo hi c. unfold between. rewrite andb_true_iff, Z.leb_le. tauto. }
  assert (∀ n lo hi, first b = Some (n, lo, hi) → 128 ≤ lo) as Hf.
  { intros m lo hi. unfold first. repeat case_match; intros; simplify_eq; lia. }
  destruct (first b) as [[[[|[|[|[|[|k]]]]] lo] hi]|] eqn:E; try (intros [= <- <-]; by left);
    specialize (Hf _ _ _ eq_refl).
  - destruct s as [|b1 s]; [intros [= <- <-]; by left|].
    destruct (between lo hi b1) eqn:E1; intros [= <- <-]; [|by left]. right.
    apply Hlo in E1. split; [simpl; lia|]. repeat constructor; lia.
  - destruct s as [|b1 [|b2 s]]; try (intros [= <- <-]; by left).
    destruct (between lo hi b1) eqn:E1, (between 128 191 b2) eqn:E2; intros [= <- <-]; try by left. right.
    apply Hlo in E1, E2. split; [simpl; lia|]. repeat constructor; lia.
  - destruct s as [|b1 [|b2 [|b3 s]]]; try (intros [= <- <-]; by left).
    destruct (between lo hi b1) eqn:E1, (between 128 191 b2) eqn:E2, (between 128 191 b3) eqn:E3;
      intros [= <- <-]; try by left. right.
    apply Hlo in E1, E2, E3. split; [simpl; lia|]. repeat constructor; lia.
Qed.
End Utf8.

(** ** Numbers *)

(** [strconv.AppendInt(nil, z, 10)]. *)
Definition sdec (z : Z) : bytes := if z <? 0 then 45 :: dec (- z) else dec z.

(** [n] with at least [w] digits. *)
Definition pad (w : nat) (z : Z) : bytes := replicate (w - length (dec z)) 48 ++ dec z.

(** *** Floating point numbers, given by their bits *)
Module Float.
(** The widths of the mantissa and of the exponent, and the bias. *)
Record format := mkFormat { mantbits : Z; expbits : Z; bias : Z }.
Definition float32 : format := mkFormat 23 8 127.
Definition float64 : format := mkFormat 52 11 1023.

(** The shortest decimal [(n, k)], meaning [n * 10^k], that is closer to [mant * 2^exp] than
    to its neighbours: the first position, from the most significant one on, at which the
    number rounded down or up is between the midpoints to the neighbours. *)
Section Shortest.
Context (mant exp : Z) (narrow : bool).
(** Four times the number and the two midpoints, in units of [2^exp / 4]; below a power of two
    the neighbours are closer ([narrow]). *)
Definition value : Z := 4 * mant.
Definition lower : Z := if narrow then 4 * mant - 1 else 4 * mant - 2.
Definition upper : Z := 4 * mant + 2.
Definition inclusive : bool := Z.even mant.
Definition num (k : Z) : Z := 2 ^ Z.max 0 (exp - 2) * 10 ^ Z.max 0 (- k).
Definition den (k : Z) : Z := 2 ^ Z.max 0 (2 - exp) * 10 ^ Z.max 0 k.

Definition try_at (k : Z) : option Z :=
  let down := value * num k / den k in
  let above := den k * down - lower * num k in
  let below := upper * num k - den k * (down + 1) in
  let okdown := (0 <? above) || inclusive && (above =? 0) in
  let okup := (0 <? below) || inclusive && (below =? 0) in
  if okdown && okup then
    let rest := 2 * (value * num k - den k * down) in
    if (den k <? rest) || (den k =? rest) && Z.odd down then Some (down + 1) else Some down
  else if okdown then Some down
  else if okup then Some (down + 1)
  else None.

Fixpoint shortest (fuel : nat) (k : Z) : Z * Z :=
  match try_at k, fuel with
  | Some n, _ => (n, k)
  | None, O => (0, 0)
  | None, S fuel => shortest fuel (k - 1)
  end.
End Shortest.

(** [strconv.AppendFloat(nil, x, 'f', -1, bits)]: no number of 64 bits is above [10^309], and
    all of them are multiples of [10^-1074]. *)
Definition AppendFloat (f : format) (bits : Z) : bytes :=
  let neg := Z.testbit bits (mantbits f + expbits f) in
  let exp := Z.land (Z.shiftr bits (mantbits f)) (Z.ones (expbits f)) in
  let mant := Z.land bits (Z.ones (mantbits f)) in
  let sign := if neg then lit "-" else lit "" in
  if exp =? Z.ones (expbits f) then
    if negb (mant =? 0) then lit "NaN" else if neg then lit "-Inf" else lit "+Inf"
  else
    let narrow := (mant =? 0) && (1 <? exp) in
    let '(exp, mant) :=
      if exp =? 0 then (1, mant) else (exp, Z.lor mant (Z.shiftl 1 (mantbits f))) in
    if mant =? 0 then sign ++ lit "0"
    else
      let '(n, k) := shortest mant (exp - bias f - mantbits f) narrow 1400 309 in
      sign ++
        if 0 <=? k then dec (n * 10 ^ k)
        else dec (n / 10 ^ (- k)) ++ lit "." ++ pad (Z.to_nat (- k)) (n mod 10 ^ (- k)).

Example AppendFloat_values :
  AppendFloat float64 0x3fb999999999999a = lit "0.1" ∧
  AppendFloat float64 0xc05edd2f1a9fbe77 = lit "-123.456" ∧
  AppendFloat float64 0x433fffffffffffff = lit "9007199254740991" ∧
  AppendFloat float64 0x4415af1d78b58c40 = lit "100000000000000000000" ∧
  AppendFloat float32 0x3dcccccd = lit "0.1" ∧ AppendFloat float32 0x40490fdb = lit "3.1415927".
Proof. by vm_compute. Qed.
End Float.

(** ** Durations and times *)
Module Time.
Definition Microsecond : Z := 1000.
Definition Millisecond : Z := 1000000.
Definition Second : Z := 1000000000.

(** [fmtFrac]: the last [prec] digits as a fraction, without zeros at its end. *)
Fixpoint strip_zeros (s : bytes) : bytes :=
  match s with
  | [] => []
  | c :: s => match strip_zeros s with [] => if c =? 48 then [] else [c] | s => c :: s end
  end.
Definition frac (v prec : Z) : bytes :=
  let f := v mod 10 ^ prec in
  if f =? 0 then [] else lit "." ++ strip_zeros (pad (Z.to_nat prec) f).

(** [Duration.String] of [d] nanoseconds. *)
Definition Duration_String (d : Z) : bytes :=
  let u := Z.abs d in
  (if d <? 0 then lit "-" else lit "") ++
  if u =? 0 then lit "0s"
  else if u <? Microsecond then dec u ++ lit "ns"
  else if u <? Millisecond then dec (u / 1000) ++ frac u 3 ++ [194; 181] ++ lit "s"
  else if u <? Second then dec (u / 1000000) ++ frac u 6 ++ lit "ms"
  else
    let s := u / Second in
    let m := s / 60 in
    let h := m / 60 in
    (if 0 <? h then dec h ++ lit "h" else lit "") ++
    (if 0 <? m then dec (m mod 60) ++ lit "m" else lit "") ++
    dec (s mod 60) ++ frac u 9 ++ lit "s".

(** The date of a number of days since 1970-01-01. *)
Definition civil (days : Z) : Z * Z * Z :=
  let z := days + 719468 in
  let era := z / 146097 in
  let doe := z mod 146097 in
  let yoe := (doe - doe / 1460 + doe / 36524 - doe / 146096) / 365 in
  let doy := doe - (365 * yoe + yoe / 4 - yoe / 100) in
  let mp := (5 * doy + 2) / 153 in
  let d := doy - (153 * mp + 2) / 5 + 1 in
  let m := if mp <? 10 then mp + 3 else mp - 9 in
  (yoe + era * 400 + (if m <=? 2 then 1 else 0), m, d).

(** [t.AppendFormat(nil, timefmt)] with the layout [2006-01-02 15:04:05]; [t] is the time as the
    seconds since the start of 1970 that its clock shows. *)
Definition AppendFormat (t : Z) : bytes :=
  let '(y, m, d) := civil (t / 86400) in
  let s := t mod 86400 in
  (if y <? 0 then lit "-" else lit "") ++ pad 4 (Z.abs y) ++ lit "-" ++ pad 2 m ++ lit "-" ++ pad 2 d ++
  lit " " ++ pad 2 (s / 3600) ++ lit ":" ++ pad 2 (s / 60 mod 60) ++ lit ":" ++ pad 2 (s mod 60).

Example time_values :
  AppendFormat 1551398399 = lit "2019-02-28 23:59:59" ∧ AppendFormat 951782400 = lit "2000-02-29 00:00:00" ∧
  Duration_String 1500000000 = lit "1.5s" ∧ Duration_String (-3723000000001) = lit "-1h2m3.000000001s" ∧
  Duration_String 60000000000 = lit "1m0s" ∧ Duration_String 2500 = lit "2.5" ++ [194; 181; 115].
Proof. by vm_compute. Qed.
End Time.
