(* ===== verification/Base32.v ===== *)
(** * Base32 text (encoding/base32 as config/generate, network and node use it)

    [base32.StdEncoding.WithPadding(base32.NoPadding)]: five bytes are eight letters of five
    bits, and the letters of an incomplete group are left out.  The byte 255, which UTF-8 text
    does not have, is taken for a letter outside the alphabet. *)

From stdpp Require Import strings.
From S2P Require Import Prelude Messages.

Module Base32.
Definition alphabet : bytes := lit "ABCDEFGHIJKLMNOPQRSTUVWXYZ234567".
Definition letter (d : Z) : Z := default 0 (alphabet !! Z.to_nat d).
(** [decodeMap]; [None]: 0xFF. *)
Definition value (c : Z) : option Z :=
  if (65 <=? c) && (c <=? 90) then Some (c - 65)
  else if (50 <=? c) && (c <=? 55) then Some (c - 24)
  else None.

(** The eight digits of five bytes. *)
Definition digits (a b c d e : Z) : list Z :=
  let low x := Z.land x 31 in
  [ Z.shiftr a 3;
    Z.lor (low (Z.shiftr b 6)) (low (Z.shiftl a 2));
    low (Z.shiftr b 1);
    Z.lor (low (Z.shiftr c 4)) (low (Z.shiftl b 4));
    Z.lor (Z.shiftr d 7) (low (Z.shiftl c 1));
    low (Z.shiftr d 2);
    Z.lor (Z.shiftr e 5) (low (Z.shiftl d 3));
    low e ].

Fixpoint encode (src : bytes) : list Z :=
  match src with
  | [] => []
  | [a] => take 2 (digits a 0 0 0 0)
  | [a; b] => take 4 (digits a b 0 0 0)
  | [a; b; c] => take 5 (digits a b c 0 0)
  | [a; b; c; d] => take 7 (digits a b c d 0)
  | a :: b :: c :: d :: e :: src => digits a b c d e ++ encode src
  end.
Definition EncodeToString (src : bytes) : bytes := letter <$> encode src.

(** The bytes of a group of digits; a group of one, three or six digits adds none. *)
Definition group (dbuf : list Z) : bytes :=
  let at_ i := default 0 (dbuf !! i) in
  let dst := [ Z.lor (u8 (Z.shiftl (at_ 0%nat) 3)) (Z.shiftr (at_ 1%nat) 2);
               Z.lor (Z.lor (u8 (Z.shiftl (at_ 1%nat) 6)) (u8 (Z.shiftl (at_ 2%nat) 1))) (Z.shiftr (at_ 3%nat) 4);
               Z.lor (u8 (Z.shiftl (at_ 3%nat) 4)) (Z.shiftr (at_ 4%nat) 1);
               Z.lor (Z.lor (u8 (Z.shiftl (at_ 4%nat) 7)) (u8 (Z.shiftl (at_ 5%nat) 2))) (Z.shiftr (at_ 6%nat) 3);
               Z.lor (u8 (Z.shiftl (at_ 6%nat) 5)) (at_ 7%nat) ] in
  match length dbuf with
  | 2%nat => take 1 dst | 4%nat => take 2 dst | 5%nat => take 3 dst | 7%nat => take 4 dst | 8%nat => dst | _ => []
  end.

Fixpoint decode (src : list Z) : bytes :=
  match src with
  | a :: b :: c :: d :: e :: f :: g :: h :: src => group [a; b; c; d; e; f; g; h] ++ decode src
  | _ => group src
  end.

(** [DecodeString]: line ends are dropped; [None]: CorruptInputError. *)
Definition DecodeString (s : bytes) : option bytes :=
  decode <$> mapM value (filter (λ c, c ≠ 13 ∧ c ≠ 10) s).

(** ** Round trip *)
Lemma testbit_high n z i : 0 ≤ z < 2 ^ n → n ≤ i → Z.testbit z i = false.
Proof.
  intros [H0 H1] Hi. destruct (Z.eq_dec z 0) as [->|Hn]; [apply Z.bits_0|].
  apply Z.bits_above_log2; [lia|]. assert (Z.log2 z < n); [|lia]. apply Z.log2_lt_pow2; lia.
Qed.
Lemma testbit_u8_high z i : is_u8 z → 8 ≤ i → Z.testbit z i = false.
Proof. apply testbit_high. Qed.

(** Bytes are equal when their bits are. *)
Lemma byte_bits x y :
  is_u8 x → is_u8 y → Forall (λ i, Z.testbit x i = Z.testbit y i) [0; 1; 2; 3; 4; 5; 6; 7] → x = y.
Proof.
  intros Hx Hy Hb. apply Z.bits_inj'. intros i Hi. destruct (Z.lt_ge_cases i 8) as [Hl|Hg].
  - rewrite Forall_forall in Hb. apply Hb. rewrite !elem_of_cons. lia.
  - by rewrite !testbit_u8_high.
Qed.

Lemma lor_lt n x y : 0 ≤ n → 0 ≤ x < 2 ^ n → 0 ≤ y < 2 ^ n → 0 ≤ Z.lor x y < 2 ^ n.
Proof.
  intros Hn Hx Hy. assert (Z.lor x y = Z.lor x y mod 2 ^ n) as ->; [|apply Z.mod_pos_bound; lia].
  apply Z.bits_inj'. intros i Hi. destruct (Z.lt_ge_cases i n) as [Hl|Hg].
  - by rewrite Z.mod_pow2_bits_low.
  - by rewrite Z.mod_pow2_bits_high, Z.lor_spec, !(testbit_high n) by (done || lia).
Qed.
Lemma lor_u8 x y : is_u8 x → is_u8 y → is_u8 (Z.lor x y).
Proof. by apply lor_lt. Qed.
Lemma u8_u8 x : is_u8 (u8 x).
Proof. apply Z.mod_pos_bound. lia. Qed.
Lemma shiftr_u8 x k : is_u8 x → 0 ≤ k → is_u8 (Z.shiftr x k).
Proof.
  intros [H0 H1] Hk. rewrite Z.shiftr_div_pow2 by done. assert (0 < 2 ^ k) by lia. split; [apply Z.div_pos; lia|].
  apply Z.div_lt_upper_bound; nia.
Qed.
Lemma low_lt x : 0 ≤ Z.land x 31 < 2 ^ 5.
Proof. change 31 with (Z.ones 5). rewrite Z.land_ones by done. by apply Z.mod_pos_bound. Qed.
Lemma low_u8 x : is_u8 (Z.land x 31).
Proof. pose proof (low_lt x). unfold is_u8. lia. Qed.
#[local] Hint Resolve lor_u8 u8_u8 shiftr_u8 low_u8 : u8.

(** The bit [i] of a shift by a constant. *)
Lemma shiftl_bit x n i : 0 ≤ i → Z.testbit (Z.shiftl x n) i = if i <? n then false else Z.testbit x (i - n).
Proof.
  intros Hi. rewrite Z.shiftl_spec by done. destruct (Z.ltb_spec i n); [|done]. apply Z.testbit_neg_r. lia.
Qed.
Lemma u8_bit x i : 0 ≤ i → Z.testbit (u8 x) i = if i <? 8 then Z.testbit x i else false.
Proof.
  intros Hi. unfold u8. destruct (Z.ltb_spec i 8); [by apply Z.mod_pow2_bits_low|apply Z.mod_pow2_bits_high; lia].
Qed.
Lemma low_bit x i : 0 ≤ i → Z.testbit (Z.land x 31) i = if i <? 5 then Z.testbit x i else false.
Proof.
  intros Hi. change 31 with (Z.ones 5). rewrite Z.land_spec. destruct (Z.ltb_spec i 5).
  - rewrite Z.ones_spec_low by lia. by rewrite andb_true_r.
  - rewrite Z.ones_spec_high by lia. by rewrite andb_false_r.
Qed.

Local Ltac bit_step :=
  first [rewrite Z.lor_spec|rewrite u8_bit by lia|rewrite shiftl_bit by lia|rewrite low_bit by lia|
         rewrite Z.shiftr_spec by lia].
Local Ltac byte_eq :=
  apply byte_bits; [eauto 12 with u8 lia|done|];
  repeat apply Forall_cons_2; [..|done];
  repeat (bit_step; cbn -[Z.testbit Z.lor Z.shiftl Z.shiftr Z.land u8]);
  repeat match goal with |- context [Z.testbit ?x ?i] => rewrite (testbit_u8_high x i) by (done || lia) end;
  rewrite ?Z.bits_0, ?orb_false_r; try done.

Lemma group_digits a b c d e :
  is_bytes [a; b; c; d; e] → group (digits a b c d e) = [a; b; c; d; e].
Proof.
  unfold is_bytes. rewrite !Forall_cons. intros HF. destruct HF as (Ha & Hb & Hc & Hd & He & _).
  unfold group, digits. cbn -[Z.lor Z.shiftl Z.shiftr Z.land u8].
  repeat f_equal; byte_eq.
Qed.

Lemma digits_range a b c d e : is_bytes [a; b; c; d; e] → Forall (λ x, 0 ≤ x < 32) (digits a b c d e).
Proof.
  unfold is_bytes, is_u8. rewrite !Forall_cons. intros (Ha & Hb & Hc & Hd & He & _).
  assert (∀ x k, 3 ≤ k → 0 ≤ x < 2 ^ 8 → 0 ≤ Z.shiftr x k < 2 ^ 5) as Hs.
  { intros x k Hk Hx. rewrite Z.shiftr_div_pow2 by lia. pose proof (Z.pow_le_mono_r 2 3 k). split; [apply Z.div_pos; lia|].
    apply Z.div_lt_upper_bound; nia. }
  repeat apply Forall_cons_2; [..|done]; change 32 with (2 ^ 5); try apply low_lt; try (by apply Hs);
    (apply lor_lt; [done|..]; by apply low_lt || by apply Hs).
Qed.

Lemma value_letter d : 0 ≤ d < 32 → value (letter d) = Some d ∧ letter d ≠ 13 ∧ letter d ≠ 10.
Proof.
  intros Hd. assert (d ∈ seqZ 0 32) as Hin by (apply elem_of_seqZ; lia). clear Hd. revert d Hin.
  apply Forall_forall. repeat apply Forall_cons_2; done.
Qed.

(** Five bytes at a time. *)
Lemma five_ind (P : bytes → Prop) :
  P [] → (∀ a, P [a]) → (∀ a b, P [a; b]) → (∀ a b c, P [a; b; c]) → (∀ a b c d, P [a; b; c; d]) →
  (∀ a b c d e s, P s → P (a :: b :: c :: d :: e :: s)) → ∀ s, P s.
Proof.
  intros H0 H1 H2 H3 H4 H5. fix IH 1.
  intros [|a [|b [|c [|d [|e s]]]]]; [exact H0|apply H1|apply H2|apply H3|apply H4|apply H5, IH].
Qed.

Lemma decode_app l s : length l = 8%nat → decode (l ++ s) = group l ++ decode s.
Proof. intros Hl. do 8 (destruct l as [|? l]; [done|]). by destruct l. Qed.

(** Bytes that are known or zero. *)
Local Ltac with_zeros HF := repeat apply Forall_cons_2; try apply Forall_nil_2; (by apply HF) || by split.

Lemma decode_encode s : is_bytes s → decode (encode s) = s.
Proof.
  induction s as [|a|a b|a b c|a b c d|a b c d e s IH] using five_ind; intros HF; [done|..];
    unfold is_bytes in HF; rewrite !Forall_cons in HF.
  - change (decode (encode [a])) with (take 1 (group (digits a 0 0 0 0))). rewrite group_digits; [done|].
    with_zeros HF.
  - change (decode (encode [a; b])) with (take 2 (group (digits a b 0 0 0))). rewrite group_digits; [done|].
    with_zeros HF.
  - change (decode (encode [a; b; c])) with (take 3 (group (digits a b c 0 0))). rewrite group_digits; [done|].
    with_zeros HF.
  - change (decode (encode [a; b; c; d])) with (take 4 (group (digits a b c d 0))). rewrite group_digits; [done|].
    with_zeros HF.
  - destruct HF as (Ha & Hb & Hc & Hd & He & HF).
    change (encode (a :: b :: c :: d :: e :: s)) with (digits a b c d e ++ encode s).
    rewrite decode_app, group_digits, IH; [done|done|by repeat (apply Forall_cons_2; [done|])|done].
Qed.

Lemma encode_range s : is_bytes s → Forall (λ x, 0 ≤ x < 32) (encode s).
Proof.
  induction s as [|a|a b|a b c|a b c d|a b c d e s IH] using five_ind; intros HF; [done|..];
    unfold is_bytes in HF; rewrite !Forall_cons in HF.
  1-4: apply Forall_take, digits_range; with_zeros HF.
  destruct HF as (Ha & Hb & Hc & Hd & He & HF). apply Forall_app; split; [apply digits_range; by repeat (apply Forall_cons_2; [done|])|].
  by apply IH.
Qed.

(** Text is read back as the bytes it was written for. *)
Lemma DecodeString_EncodeToString s : is_bytes s → DecodeString (EncodeToString s) = Some s.
Proof.
  intros HF. unfold DecodeString, EncodeToString. pose proof (encode_range s HF) as HR.
  rewrite filter_every.
  2:{ intros x (d & -> & Hd)%list_elem_of_fmap. rewrite Forall_forall in HR. by apply value_letter, HR. }
  assert (mapM value (letter <$> encode s) = Some (encode s)) as ->; [|simpl; by rewrite decode_encode].
  apply mapM_Some. rewrite Forall2_fmap_l. apply Forall2_same_length_lookup_2; [done|].
  intros i x y Hx Hy. simplify_eq. rewrite Forall_forall in HR. apply value_letter, HR. by eapply list_elem_of_lookup_2.
Qed.

Example Encode_foobar : EncodeToString (lit "foobar") = lit "MZXW6YTBOI".
Proof. reflexivity. Qed.
Example Decode_foobar : DecodeString (lit "MZXW6YTBOI") = Some (lit "foobar").
Proof. reflexivity. Qed.
End Base32.
