(* ===== verification/Log.v ===== *)
(** * Structured logging (src/internal/log): fields, text and loggers

    A field is a key and a value of one of 38 types; [writeTextFields] prints fields for the
    console and the log file.  An interface value ([xval]) carries its dynamic type, so that a
    type assertion on another type panics.  Times are seconds, durations nanoseconds, floating
    point numbers their bits, errors their texts. *)

From stdpp Require Import strings.
From S2P Require Import Prelude Messages Config GoText.

(** ** Fields (field.go) *)
Inductive fieldType :=
  | TypeBool | TypeBools | TypeBytes | TypeBytesArray | TypeDigest | TypeDigests
  | TypeDuration | TypeDurations | TypeErr | TypeErrs | TypeFloat32 | TypeFloat32s
  | TypeFloat64 | TypeFloat64s | TypeInt | TypeInts | TypeInt8 | TypeInt8s
  | TypeInt16 | TypeInt16s | TypeInt32 | TypeInt32s | TypeInt64 | TypeInt64s
  | TypeString | TypeStrings | TypeTime | TypeTimes | TypeUint | TypeUints
  | TypeUint8 | TypeUint8s | TypeUint16 | TypeUint16s | TypeUint32 | TypeUint32s
  | TypeUint64 | TypeUint64s.

(** [byte(typ)]: the constants count from one. *)
Definition type_code (t : fieldType) : Z :=
  match t with
  | TypeBool => 1 | TypeBools => 2 | TypeBytes => 3 | TypeBytesArray => 4
  | TypeDigest => 5 | TypeDigests => 6 | TypeDuration => 7 | TypeDurations => 8
  | TypeErr => 9 | TypeErrs => 10 | TypeFloat32 => 11 | TypeFloat32s => 12
  | TypeFloat64 => 13 | TypeFloat64s => 14 | TypeInt => 15 | TypeInts => 16
  | TypeInt8 => 17 | TypeInt8s => 18 | TypeInt16 => 19 | TypeInt16s => 20
  | TypeInt32 => 21 | TypeInt32s => 22 | TypeInt64 => 23 | TypeInt64s => 24
  | TypeString => 25 | TypeStrings => 26 | TypeTime => 27 | TypeTimes => 28
  | TypeUint => 29 | TypeUints => 30 | TypeUint8 => 31 | TypeUint8s => 32
  | TypeUint16 => 33 | TypeUint16s => 34 | TypeUint32 => 35 | TypeUint32s => 36
  | TypeUint64 => 37 | TypeUint64s => 38
  end.

Definition fieldType_String (t : fieldType) : bytes :=
  match t with
  | TypeBool => lit "Bool" | TypeBools => lit "Bools" | TypeBytes => lit "Bytes"
  | TypeBytesArray => lit "BytesArray" | TypeDigest => lit "Digest" | TypeDigests => lit "Digests"
  | TypeDuration => lit "Duration" | TypeDurations => lit "Durations" | TypeErr => lit "Err"
  | TypeErrs => lit "Errs" | TypeFloat32 => lit "Float32" | TypeFloat32s => lit "Float32s"
  | TypeFloat64 => lit "Float64" | TypeFloat64s => lit "Float64s" | TypeInt => lit "Int"
  | TypeInts => lit "Ints" | TypeInt8 => lit "Int8" | TypeInt8s => lit "Int8s"
  | TypeInt16 => lit "Int16" | TypeInt16s => lit "Int16s" | TypeInt32 => lit "Int32"
  | TypeInt32s => lit "Int32s" | TypeInt64 => lit "Int64" | TypeInt64s => lit "Int64s"
  | TypeString => lit "String" | TypeStrings => lit "Strings" | TypeTime => lit "Time"
  | TypeTimes => lit "Times" | TypeUint => lit "Uint" | TypeUints => lit "Uints"
  | TypeUint8 => lit "Uint8" | TypeUint8s => lit "Uint8s" | TypeUint16 => lit "Uint16"
  | TypeUint16s => lit "Uint16s" | TypeUint32 => lit "Uint32" | TypeUint32s => lit "Uint32s"
  | TypeUint64 => lit "Uint64" | TypeUint64s => lit "Uint64s"
  end.

(** The integer types of Go whose slices can be in a field; [[]uint8] is [[]byte]. *)
Inductive inttype := GoInt | GoInt8 | GoInt16 | GoInt32 | GoInt64 | GoUint | GoUint16 | GoUint32 | GoUint64.
#[export] Instance inttype_eq_dec : EqDecision inttype.
Proof. solve_decision. Defined.

(** A byte slice: its elements, and what follows them in the backing array. *)
Record slice := mkSlice { sl_data : bytes; sl_spare : bytes }.

(** The values of [xval] by their dynamic type. *)
Inductive any :=
  | XNil | XBools (v : list bool) | XBytes (v : slice) | XBytesArray (v : list slice)
  | XDurations (v : list Z) | XError (text : bytes) | XErrors (texts : list bytes)
  | XFloat32s (bits : list Z) | XFloat64s (bits : list Z) | XInts (t : inttype) (v : list Z)
  | XStrings (v : list bytes) | XTime (t : Z) | XTimes (v : list Z).

Record Field := mkField { key : bytes; typ : fieldType; ival : Z; sval : bytes; xval : any }.

Module Fields.
Definition with_ival (k : bytes) (t : fieldType) (i : Z) : Field := mkField k t i [] XNil.
Definition with_sval (k : bytes) (t : fieldType) (s : bytes) : Field := mkField k t 0 s XNil.
Definition with_xval (k : bytes) (t : fieldType) (x : any) : Field := mkField k t 0 [] x.

Definition Bool (k : bytes) (value : bool) : Field :=
  if value then with_ival k TypeBool 1 else with_ival k TypeBool 0.
Definition Bools (k : bytes) (value : list bool) : Field := with_xval k TypeBools (XBools value).
Definition Bytes (k : bytes) (value : slice) : Field := with_xval k TypeBytes (XBytes value).
Definition BytesArray (k : bytes) (value : list slice) : Field := with_xval k TypeBytesArray (XBytesArray value).
Definition Digest (k : bytes) (value : slice) : Field := with_xval k TypeDigest (XBytes value).
Definition Digests (k : bytes) (value : list slice) : Field := with_xval k TypeDigests (XBytesArray value).
Definition Duration (k : bytes) (value : Z) : Field := with_ival k TypeDuration value.
Definition Durations (k : bytes) (value : list Z) : Field := with_xval k TypeDurations (XDurations value).
(** [value.Error()] of a nil error panics. *)
Definition Err (value : option bytes) : outcome Field :=
  match value with Some text => Ok (with_sval (lit "error") TypeErr text) | None => Halt Panic end.
Definition Errs (value : option bytes) : Field :=
  with_xval (lit "error") TypeErrs (match value with Some text => XError text | None => XNil end).
Definition Float32 (k : bytes) (bits : Z) : Field := with_ival k TypeFloat32 (i64 bits).
Definition Float32s (k : bytes) (bits : list Z) : Field := with_xval k TypeFloat32s (XFloat32s bits).
Definition Float64 (k : bytes) (bits : Z) : Field := with_ival k TypeFloat64 (i64 bits).
Definition Float64s (k : bytes) (bits : list Z) : Field := with_xval k TypeFloat64s (XFloat64s bits).
Definition Int (k : bytes) (value : Z) : Field := with_ival k TypeInt value.
Definition Ints (k : bytes) (value : list Z) : Field := with_xval k TypeInts (XInts GoInt value).
Definition Int8 (k : bytes) (value : Z) : Field := with_ival k TypeInt8 value.
Definition Int8s (k : bytes) (value : list Z) : Field := with_xval k TypeInt8s (XInts GoInt8 value).
Definition Int16 (k : bytes) (value : Z) : Field := with_ival k TypeInt16 value.
Definition Int16s (k : bytes) (value : list Z) : Field := with_xval k TypeInt16s (XInts GoInt16 value).
Definition Int32 (k : bytes) (value : Z) : Field := with_ival k TypeInt32 value.
Definition Int32s (k : bytes) (value : list Z) : Field := with_xval k TypeInt32s (XInts GoInt32 value).
Definition Int64 (k : bytes) (value : Z) : Field := with_ival k TypeInt64 value.
Definition Int64s (k : bytes) (value : list Z) : Field := with_xval k TypeInt64s (XInts GoInt64 value).
Definition String (k : bytes) (value : bytes) : Field := with_sval k TypeString value.
Definition Strings (k : bytes) (value : list bytes) : Field := with_xval k TypeStrings (XStrings value).
Definition Time (k : bytes) (value : Z) : Field := with_xval k TypeTime (XTime value).
Definition Times (k : bytes) (value : list Z) : Field := with_xval k TypeTimes (XTimes value).
Definition Uint (k : bytes) (value : Z) : Field := with_ival k TypeUint (i64 value).
Definition Uints (k : bytes) (value : list Z) : Field := with_xval k TypeUints (XInts GoUint value).
Definition Uint8 (k : bytes) (value : Z) : Field := with_ival k TypeUint8 (i64 value).
Definition Uint8s (k : bytes) (value : slice) : Field := with_xval k TypeUint8s (XBytes value).
Definition Uint16 (k : bytes) (value : Z) : Field := with_ival k TypeUint16 (i64 value).
Definition Uint16s (k : bytes) (value : list Z) : Field := with_xval k TypeUint16s (XInts GoUint16 value).
Definition Uint32 (k : bytes) (value : Z) : Field := with_ival k TypeUint32 (i64 value).
Definition Uint32s (k : bytes) (value : list Z) : Field := with_xval k TypeUint32s (XInts GoUint32 value).
Definition Uint64 (k : bytes) (value : Z) : Field := with_ival k TypeUint64 (i64 value).
Definition Uint64s (k : bytes) (value : list Z) : Field := with_xval k TypeUint64s (XInts GoUint64 value).
End Fields.

(** ** Text (text.go) *)
Module Text.
(** One digit of [0123456789abcdef]. *)
Definition hex (c : Z) : Z := if c <? 10 then 48 + c else 87 + c.

(** Each function gives the buffer after it appended to [b]. *)
Definition writeTextByte (b : bytes) (v : Z) : bytes * bool :=
  if 128 <=? v then (b, false)
  else if (32 <=? v) && negb (v =? 92) && negb (v =? 34) then (b ++ [v], true)
  else if (v =? 92) || (v =? 34) then (b ++ [92; v], true)
  else if v =? 10 then (b ++ lit "\n", true)
  else if v =? 13 then (b ++ lit "\r", true)
  else if v =? 9 then (b ++ lit "\t", true)
  else (b ++ lit "\u00" ++ [hex (Z.shiftr v 4); hex (Z.land v 15)], true).

(** The loop of [writeTextBytes] and of [writeTextString]: each turn takes a byte or more. *)
Fixpoint write_runes (fuel : nat) (b s : bytes) : outcome bytes :=
  match s with
  | [] => Ok b
  | v :: rest =>
      match fuel with
      | O => Halt Diverge
      | S fuel =>
          let '(b, ok) := writeTextByte b v in
          if ok : bool then write_runes fuel b rest
          else
            let '(r, size) := Utf8.DecodeRune s in
            if (r =? Utf8.RuneError) && bool_decide (size = 1%nat)
            then write_runes fuel (b ++ lit "\ufffd") rest
            else chunk ← sub s 0 size; write_runes fuel (b ++ chunk) (drop size s)
      end
  end.
Definition writeTextBytes (b s : bytes) : outcome bytes := write_runes (length s) b s.
Definition writeTextString (b s : bytes) : outcome bytes := write_runes (length s) b s.

(** [hash[:6]] panics when the backing array is too short. *)
Definition writeTextDigest (b : bytes) (hash : slice) : outcome bytes :=
  head ← sub (sl_data hash ++ sl_spare hash) 0 6;
  Ok (b ++ hex_bytes head).

(** The loops over a slice, which write a comma after every element but the last. *)
Fixpoint items {A} (f : bytes → A → outcome bytes) (b : bytes) (val : list A) : outcome bytes :=
  match val with
  | [] => Ok b
  | v :: rest => b ← f b v; items f (match rest with [] => b | _ => b ++ lit ", " end) rest
  end.
Definition write_list {A} (f : bytes → A → outcome bytes) (b : bytes) (val : list A) : outcome bytes :=
  b ← items f (b ++ lit "[") val; Ok (b ++ lit "]").

Definition quote : bytes := [34].
Definition write_bool (b : bytes) (v : bool) : outcome bytes := Ok (b ++ if v then lit "true" else lit "false").
Definition write_quoted (b s : bytes) : outcome bytes := b ← writeTextString (b ++ quote) s; Ok (b ++ quote).
Definition write_bytes (b : bytes) (s : slice) : outcome bytes :=
  b ← writeTextBytes (b ++ quote) (sl_data s); Ok (b ++ quote).

(** [x.([]T)] for an integer type [T]. *)
Definition as_ints (t : inttype) (x : any) : outcome (list Z) :=
  match x with XInts t' v => if bool_decide (t = t') then Ok v else Halt Panic | _ => Halt Panic end.

(** The cases of the switch from the integers on; [int16] and [uint16] have none. *)
Definition write_number (b : bytes) (field : Field) : outcome bytes :=
  match typ field with
  | TypeInt | TypeInt8 | TypeInt32 | TypeInt64 => Ok (b ++ sdec (ival field))
  | TypeInts => val ← as_ints GoInt (xval field); write_list (λ b v, Ok (b ++ sdec v)) b val
  | TypeInt8s => val ← as_ints GoInt8 (xval field); write_list (λ b v, Ok (b ++ sdec v)) b val
  | TypeInt16s => val ← as_ints GoInt16 (xval field); write_list (λ b v, Ok (b ++ sdec v)) b val
  | TypeInt32s => val ← as_ints GoInt32 (xval field); write_list (λ b v, Ok (b ++ sdec v)) b val
  | TypeInt64s => val ← as_ints GoInt64 (xval field); write_list (λ b v, Ok (b ++ sdec v)) b val
  | TypeString => write_quoted b (sval field)
  | TypeStrings => match xval field with XStrings val => write_list write_quoted b val | _ => Halt Panic end
  | TypeTime => match xval field with XTime t => Ok (b ++ Time.AppendFormat t) | _ => Halt Panic end
  | TypeTimes =>
      match xval field with
      | XTimes val => write_list (λ b t, Ok (b ++ Time.AppendFormat t)) b val
      | _ => Halt Panic
      end
  | TypeUint | TypeUint8 | TypeUint32 | TypeUint64 => Ok (b ++ dec (u64 (ival field)))
  | TypeUints => val ← as_ints GoUint (xval field); write_list (λ b v, Ok (b ++ dec v)) b val
  | TypeUint8s =>
      match xval field with
      | XBytes val => write_list (λ b v, Ok (b ++ dec v)) b (sl_data val)
      | _ => Halt Panic
      end
  | TypeUint16s => val ← as_ints GoUint16 (xval field); write_list (λ b v, Ok (b ++ dec v)) b val
  | TypeUint32s => val ← as_ints GoUint32 (xval field); write_list (λ b v, Ok (b ++ dec v)) b val
  | TypeUint64s => val ← as_ints GoUint64 (xval field); write_list (λ b v, Ok (b ++ dec v)) b val
  | _ => Halt Panic
  end.

(** The whole switch. *)
Definition write_value (b : bytes) (field : Field) : outcome bytes :=
  match typ field with
  | TypeBool => write_bool b (ival field =? 1)
  | TypeBools => match xval field with XBools val => write_list write_bool b val | _ => Halt Panic end
  | TypeBytes => match xval field with XBytes val => write_bytes b val | _ => Halt Panic end
  | TypeBytesArray => match xval field with XBytesArray val => write_list write_bytes b val | _ => Halt Panic end
  | TypeDigest => match xval field with XBytes val => writeTextDigest b val | _ => Halt Panic end
  | TypeDigests => match xval field with XBytesArray val => write_list writeTextDigest b val | _ => Halt Panic end
  | TypeDuration => Ok (b ++ Time.Duration_String (ival field))
  | TypeDurations =>
      match xval field with
      | XDurations val => write_list (λ b v, Ok (b ++ Time.Duration_String v)) b val
      | _ => Halt Panic
      end
  | TypeErr => write_quoted b (sval field)
  | TypeErrs => match xval field with XErrors val => write_list write_quoted b val | _ => Halt Panic end
  | TypeFloat32 => Ok (b ++ Float.AppendFloat Float.float32 (u32 (ival field)))
  | TypeFloat32s =>
      match xval field with
      | XFloat32s val => write_list (λ b v, Ok (b ++ Float.AppendFloat Float.float32 v)) b val
      | _ => Halt Panic
      end
  | TypeFloat64 => Ok (b ++ Float.AppendFloat Float.float64 (u64 (ival field)))
  | TypeFloat64s =>
      match xval field with
      | XFloat64s val => write_list (λ b v, Ok (b ++ Float.AppendFloat Float.float64 v)) b val
      | _ => Halt Panic
      end
  | _ => write_number b field
  end.

Definition esc : bytes := [27].
Definition writeTextField (b : bytes) (field : Field) : outcome bytes :=
  let code := match typ field with TypeErr => lit "101" | _ => lit "100" end in
  write_value (b ++ lit "  " ++ esc ++ lit "[" ++ code ++ lit "m " ++ key field ++ lit " " ++ esc ++ lit "[0m ") field.
Definition writeTextFields (b : bytes) (fields : list Field) : outcome bytes := range writeTextField b fields.
End Text.

(** ** Entries and loggers (logger.go, log.go, level.go, intercept.go)

    The state of the package: the levels of the outputs, what was written to the console and to
    the log file, and the channel of the entries for the log server. *)
Module Logger.
Import Level Text.

(** A logger is its fields; [None] is a nil slice. *)
Abbreviation Logger := (option (list Field)).

Record entry := mkLogEntry {
  fields : list Field; level : Z; parfields : list Field; text : bytes; time : Z }.

(** A channel of entries; [ch_waiting]: its reader waits for one. *)
Record chan := mkChan { ch_cap : nat; ch_queue : list entry; ch_waiting : bool }.

Record logging := mkLogging {
  lg_levels : levels; lg_console : list bytes; lg_file : option (list bytes); lg_pending : option chan }.
Definition set_levels (l : logging) v := mkLogging v (lg_console l) (lg_file l) (lg_pending l).
Definition set_console (l : logging) c := mkLogging (lg_levels l) c (lg_file l) (lg_pending l).
Definition set_file (l : logging) f := mkLogging (lg_levels l) (lg_console l) f (lg_pending l).
Definition set_pending (l : logging) p := mkLogging (lg_levels l) (lg_console l) (lg_file l) p.

(** Nothing is logged at the start. *)
Definition start : logging := mkLogging (mkLevels maxLevel maxLevel maxLevel) [] None None.

Definition rpad (s : bytes) : bytes := s ++ replicate (12 - length s) 32.
Definition color (code : Z) (s : bytes) : bytes := esc ++ lit "[" ++ sdec code ++ lit "m" ++ rpad s ++ esc ++ lit "[0m".
Definition level2color : list bytes :=
  [lit ""; color 33 (lit "DEBUG"); color 34 (lit "INFO"); color 36 (lit "WARN"); color 31 (lit "ERROR");
   color 35 (lit "STACKTRACE"); color 31 (lit "FATAL")].
Definition level2string : list bytes :=
  [lit ""; rpad (lit "DEBUG"); rpad (lit "INFO"); rpad (lit "WARN"); rpad (lit "ERROR");
   rpad (lit "STACKTRACE"); rpad (lit "FATAL")].

Definition newline : bytes := [10].
Definition nonempty {A} (l : list A) : bool := match l with [] => false | _ => true end.

(** The line of an entry and the line of its fields. *)
Definition textLine (e : entry) : outcome bytes :=
  name ← or_panic (if level e <? 0 then None else level2color !! Z.to_nat (level e));
  let b := lit "[" ++ Time.AppendFormat (time e) ++ lit "]   " ++ name ++ text e ++ newline in
  if nonempty (parfields e) || nonempty (fields e) then
    let b := b ++ replicate 34 32 in
    b ← (if nonempty (parfields e) then writeTextFields b (parfields e) else Ok b);
    b ← (if nonempty (fields e) then writeTextFields b (fields e) else Ok b);
    Ok (b ++ newline)
  else Ok b.

Definition textLog (l : logging) (e : entry) : outcome logging :=
  if level e <? (updateMinLevels (lg_levels l)).2 then Ok l
  else
    b ← textLine e;
    let l := if lv_console (lg_levels l) <=? level e then set_console l (lg_console l ++ [b]) else l in
    match lg_file l with
    | Some lines => if lv_file (lg_levels l) <=? level e then Ok (set_file l (Some (lines ++ [b]))) else Ok l
    | None => Ok l
    end.

(** [select { case pending <- e: default: }]; on a nil channel nothing happens. *)
Definition netLog (l : logging) (e : entry) : logging :=
  if level e <? lv_net (lg_levels l) then l
  else match lg_pending l with
       | None => l
       | Some ch =>
           if ch_waiting ch || bool_decide (length (ch_queue ch) < ch_cap ch)%nat
           then set_pending l (Some (mkChan (ch_cap ch) (ch_queue ch ++ [e]) false))
           else l
       end.

(** The methods of a logger; [now] is the time of the call. *)
Definition log (l : logging) (lg : Logger) (now lvl : Z) (txt : bytes) (fs : list Field) : outcome logging :=
  let e := mkLogEntry fs lvl (default [] lg) txt now in
  l ← textLog l e; Ok (netLog l e).
Definition Debug l lg now txt fs := log l lg now DebugLevel txt fs.
Definition Error l lg now txt fs := log l lg now ErrorLevel txt fs.
Definition Info l lg now txt fs := log l lg now InfoLevel txt fs.
Definition Warn l lg now txt fs := log l lg now WarnLevel txt fs.
Definition Fatal l lg now txt fs : outcome logging := _ ← log l lg now FatalLevel txt fs; Halt Fatal.
(** The methods with a format, on the formatted text; [Fatalf] does not leave the process. *)
Definition Debugf l lg now txt := log l lg now DebugLevel txt [].
Definition Errorf l lg now txt := log l lg now ErrorLevel txt [].
Definition Fatalf l lg now txt := log l lg now FatalLevel txt [].
Definition Infof l lg now txt := log l lg now InfoLevel txt [].
Definition Warnf l lg now txt := log l lg now WarnLevel txt [].

(** The frames of the stack: function, file and line; the loop leaves out the last one. *)
Record stackFrame := mkFrame { fr_Function : bytes; fr_File : bytes; fr_Line : Z }.
Definition trace_line (f : stackFrame) : bytes :=
  [9] ++ fr_Function f ++ lit "()" ++ newline ++ [9; 9] ++ fr_File f ++ lit ":" ++ sdec (fr_Line f) ++ newline.
Definition stacktrace l lg now (txt : bytes) (frames : list stackFrame) : outcome logging :=
  log l lg now StackTraceLevel (txt ++ newline ++ newline ++ mjoin (trace_line <$> take (length frames - 1) frames)) [].

Definition With (lg : Logger) (fs : list Field) : Logger :=
  match lg with None => Some fs | Some old => Some (old ++ fs) end.

Definition ToConsole (l : logging) (lvl : Z) : logging :=
  set_levels l (mkLevels lvl (lv_file (lg_levels l)) (lv_net (lg_levels l))).
(** [opened]: the file could be opened. *)
Definition ToFile (l : logging) (opened : bool) (lvl : Z) : logging * bool :=
  if opened then
    (set_levels (set_file l (Some [])) (mkLevels (lv_console (lg_levels l)) lvl (lv_net (lg_levels l))), true)
  else (l, false).
Definition ToServer (l : logging) (lvl limit : Z) : outcome logging :=
  if limit <? 0 then Halt Panic
  else Ok (set_levels (set_pending l (Some (mkChan (Z.to_nat limit) [] false)))
             (mkLevels (lv_console (lg_levels l)) (lv_file (lg_levels l)) lvl)).

(** What the log package of the standard library writes through [intercept]. *)
Definition intercept_Write (l : logging) (now : Z) (p : bytes) : outcome (logging * nat) :=
  let p := match last p with Some 10 => take (length p - 1) p | _ => p end in
  l ← textLog l (mkLogEntry [] InfoLevel [] p now); Ok (l, length p).
End Logger.
