(* ===== verification/LogText.v ===== *)
(** * The text of log entries: quoting, panics and outputs *)

From stdpp Require Import strings.
From S2P Require Import Prelude Messages Config GoText Log.
Import Text.

(** ** Quoted strings

    [unquote] reads a quoted string up to its closing quote and undoes the escapes. *)
Definition unhex (c : Z) : Z := if c <? 58 then c - 48 else c - 87.
(** The encoding of U+FFFD, the replacement character. *)
Definition replacement : bytes := [239; 191; 189].
Definition prepend (p : bytes) (r : option (bytes * bytes)) : option (bytes * bytes) :=
  '(s, rest) ← r; Some (p ++ s, rest).
Fixpoint unquote (s : bytes) : option (bytes * bytes) :=
  match s with
  | [] => None
  | c :: s =>
      if c =? 34 then Some ([], s)
      else if c =? 92 then
        match s with
        | [] => None
        | c :: s =>
            if c =? 110 then prepend [10] (unquote s)
            else if c =? 114 then prepend [13] (unquote s)
            else if c =? 116 then prepend [9] (unquote s)
            else if c =? 117 then
              match s with
              | a :: b :: c :: d :: s =>
                  prepend (if a =? 102 then replacement else [16 * unhex c + unhex d]) (unquote s)
              | _ => None
              end
            else prepend [c] (unquote s)
        end
      else prepend [c] (unquote s)
  end.

(** [s] with every byte that is not part of a valid code point replaced. *)
Fixpoint clean_loop (fuel : nat) (s : bytes) : bytes :=
  match fuel, s with
  | S fuel, v :: rest =>
      let '(r, n) := Utf8.DecodeRune s in
      if (r =? Utf8.RuneError) && bool_decide (n = 1%nat) then replacement ++ clean_loop fuel rest
      else take n s ++ clean_loop fuel (drop n s)
  | _, _ => []
  end.
Definition clean (s : bytes) : bytes := clean_loop (length s) s.

Lemma clean_valid fuel : ∀ s, Utf8.valid_loop fuel s = true → clean_loop fuel s = s.
Proof.
  induction fuel as [|fuel IH]; intros [|v s] H; try done.
  cbn [clean_loop Utf8.valid_loop] in *. destruct (Utf8.DecodeRune (v :: s)) as [r n].
  destruct (_ && _); [done|]. rewrite IH by done. apply take_drop.
Qed.

(** What is written for a byte below 128 is read back as that byte. *)
Lemma writeTextByte_spec b v :
  0 ≤ v < 128 → ∃ out, writeTextByte b v = (b ++ out, true) ∧
    (∀ rest, unquote (out ++ rest) = prepend [v] (unquote rest)) ∧ Forall (λ c, 32 ≤ c) out.
Proof.
  intros Hv.
  destruct (decide (32 ≤ v ∧ v ≠ 92 ∧ v ≠ 34)) as [(H1 & H2 & H3)|Hn].
  - exists [v]. unfold writeTextByte. destruct (Z.leb_spec 128 v), (Z.leb_spec 32 v); try lia.
    rewrite (proj2 (Z.eqb_neq v 92) H2), (proj2 (Z.eqb_neq v 34) H3). simpl. split_and!; [done| |by repeat constructor].
    intros rest. by rewrite (proj2 (Z.eqb_neq v 92) H2), (proj2 (Z.eqb_neq v 34) H3).
  - assert (v = 92 ∨ v = 34 ∨ v < 32) as [->|[->|Hlow]] by lia.
    1,2: (eexists; split_and!; [reflexivity|done|by repeat constructor; lia]).
    assert (v ∈ seqZ 0 32) as Hin by (apply elem_of_seqZ; lia). clear Hn Hlow Hv.
    let l := eval vm_compute in (seqZ 0 32) in change (seqZ 0 32) with l in Hin.
    repeat (apply elem_of_cons in Hin as [->|Hin]; [eexists; split_and!; [reflexivity|done|by repeat constructor; vm_compute]|]).
    by apply elem_of_nil in Hin.
Qed.

Lemma unquote_high out rest : Forall (λ c, 128 ≤ c) out → unquote (out ++ rest) = prepend out (unquote rest).
Proof.
  induction 1 as [|c out Hc _ IH]; simpl; [by destruct (unquote rest) as [[]|]|].
  destruct (Z.eqb_spec c 34), (Z.eqb_spec c 92); try lia. rewrite IH. by destruct (unquote rest) as [[]|].
Qed.

Lemma prepend_app p q r : prepend p (prepend q r) = prepend (p ++ q) r.
Proof. destruct r as [[s rest]|]; simpl; [by rewrite (assoc_L (++))|done]. Qed.

Lemma write_runes_spec fuel : ∀ b s, is_bytes s → (length s ≤ fuel)%nat →
  ∃ out, write_runes fuel b s = Ok (b ++ out) ∧
    (∀ rest, unquote (out ++ rest) = prepend (clean_loop fuel s) (unquote rest)) ∧ Forall (λ c, 32 ≤ c) out.
Proof.
  induction fuel as [|fuel IH]; intros b s Hs Hf.
  { destruct s; [|simpl in Hf; lia]. exists []. rewrite app_nil_r. split_and!; [done| |done].
    intros rest. simpl. by destruct (unquote rest) as [[]|]. }
  destruct s as [|v s]; cbn [write_runes clean_loop].
  { exists []. rewrite app_nil_r. split_and!; [done| |done]. intros rest. simpl. by destruct (unquote rest) as [[]|]. }
  apply Forall_cons in Hs as [Hv Hs]. simpl in Hf. unfold is_u8 in Hv.
  destruct (decide (v < 128)) as [Hlow|Hhigh].
  - destruct (writeTextByte_spec b v) as (o1 & -> & Hu1 & Hp1); [lia|].
    destruct (IH (b ++ o1) s Hs) as (o2 & -> & Hu2 & Hp2); [lia|]. exists (o1 ++ o2).
    rewrite (assoc_L (++)). split_and!; [done| |by apply Forall_app].
    intros rest. rewrite <- (assoc_L (++)), Hu1, Hu2, prepend_app. unfold Utf8.DecodeRune.
    rewrite (proj2 (Z.ltb_lt v 128) Hlow). destruct (Z.eqb_spec v Utf8.RuneError) as [->|]; [done|]. simpl.
    by rewrite drop_0.
  - unfold writeTextByte. rewrite (proj2 (Z.leb_le 128 v)) by lia.
    destruct (Utf8.DecodeRune (v :: s)) as [r n] eqn:ED.
    pose proof (Utf8.DecodeRune_spec v s r n ltac:(lia) ED) as Hspec.
    destruct ((r =? Utf8.RuneError) && bool_decide (n = 1%nat)) eqn:EE.
    + destruct (IH (b ++ lit "\ufffd") s Hs) as (o2 & -> & Hu2 & Hp2); [lia|].
      exists (lit "\ufffd" ++ o2). rewrite (assoc_L (++)). split_and!; [done| |].
      * intros rest. rewrite <- (assoc_L (++)), <- prepend_app, <- Hu2. done.
      * apply Forall_app. split; [by repeat constructor; vm_compute|done].
    + destruct Hspec as [[= -> ->]|[[Hn1 Hn2] Hhi]]; [done|].
      unfold sub. rewrite bool_decide_eq_true_2, drop_0, Nat.sub_0_r by lia. cbn [mbind outcome_bind].
      destruct (IH (b ++ take n (v :: s)) (drop n (v :: s))) as (o2 & -> & Hu2 & Hp2).
      { apply Forall_drop. by constructor. }
      { rewrite length_drop. simpl. lia. }
      exists (take n (v :: s) ++ o2). rewrite (assoc_L (++)). split_and!; [done| |].
      * intros rest. by rewrite <- (assoc_L (++)), unquote_high, Hu2, prepend_app.
      * apply Forall_app. split; [|done]. eapply Forall_impl; [done|]. intros; simpl in *; lia.
Qed.

(** ** Which fields can be printed *)

(** The fields that the constructors of the package give. *)
Inductive constructed : Field → Prop :=
  | c_Bool k v : constructed (Fields.Bool k v)
  | c_Bools k v : constructed (Fields.Bools k v)
  | c_Bytes k v : is_bytes (sl_data v) → constructed (Fields.Bytes k v)
  | c_BytesArray k v : Forall (λ s, is_bytes (sl_data s)) v → constructed (Fields.BytesArray k v)
  | c_Digest k v : is_bytes (sl_data v ++ sl_spare v) → constructed (Fields.Digest k v)
  | c_Digests k v : Forall (λ s, is_bytes (sl_data s ++ sl_spare s)) v → constructed (Fields.Digests k v)
  | c_Duration k v : constructed (Fields.Duration k v)
  | c_Durations k v : constructed (Fields.Durations k v)
  | c_Err text f : is_bytes text → Fields.Err (Some text) = Ok f → constructed f
  | c_Errs v : constructed (Fields.Errs v)
  | c_Float32 k v : constructed (Fields.Float32 k v)
  | c_Float32s k v : constructed (Fields.Float32s k v)
  | c_Float64 k v : constructed (Fields.Float64 k v)
  | c_Float64s k v : constructed (Fields.Float64s k v)
  | c_Int k v : constructed (Fields.Int k v)
  | c_Ints k v : constructed (Fields.Ints k v)
  | c_Int8 k v : constructed (Fields.Int8 k v)
  | c_Int8s k v : constructed (Fields.Int8s k v)
  | c_Int16 k v : constructed (Fields.Int16 k v)
  | c_Int16s k v : constructed (Fields.Int16s k v)
  | c_Int32 k v : constructed (Fields.Int32 k v)
  | c_Int32s k v : constructed (Fields.Int32s k v)
  | c_Int64 k v : constructed (Fields.Int64 k v)
  | c_Int64s k v : constructed (Fields.Int64s k v)
  | c_String k v : is_bytes v → constructed (Fields.String k v)
  | c_Strings k v : Forall is_bytes v → constructed (Fields.Strings k v)
  | c_Time k v : constructed (Fields.Time k v)
  | c_Times k v : constructed (Fields.Times k v)
  | c_Uint k v : constructed (Fields.Uint k v)
  | c_Uints k v : constructed (Fields.Uints k v)
  | c_Uint8 k v : constructed (Fields.Uint8 k v)
  | c_Uint8s k v : constructed (Fields.Uint8s k v)
  | c_Uint16 k v : constructed (Fields.Uint16 k v)
  | c_Uint16s k v : constructed (Fields.Uint16s k v)
  | c_Uint32 k v : constructed (Fields.Uint32 k v)
  | c_Uint32s k v : constructed (Fields.Uint32s k v)
  | c_Uint64 k v : constructed (Fields.Uint64 k v)
  | c_Uint64s k v : constructed (Fields.Uint64s k v).

Definition long_enough (s : slice) : bool := bool_decide (6 ≤ length (sl_data s ++ sl_spare s))%nat.

(** The fields [writeTextFields] has a text for. *)
Definition printable (f : Field) : bool :=
  match typ f, xval f with
  | TypeInt16, _ | TypeUint16, _ | TypeErrs, _ => false
  | TypeDigest, XBytes v => long_enough v
  | TypeDigests, XBytesArray v => forallb long_enough v
  | _, _ => true
  end.

(** [inline out]: nothing in [out] starts a new line or is another control character. *)
Definition inline (out : bytes) : Prop := Forall (λ c, 32 ≤ c) out.

(** [appends f x good]: [f] appends printable characters when [good], and panics otherwise. *)
Definition appends (r : outcome bytes) (b : bytes) (good : bool) : Prop :=
  if good then ∃ out, r = Ok (b ++ out) ∧ inline out else r = Halt Panic.

Lemma dec_inline z : inline (dec z).
Proof. eapply Forall_impl; [apply dec_digits|]. simpl; lia. Qed.
Lemma inline_app a b : inline a → inline b → inline (a ++ b).
Proof. by apply Forall_app_2. Qed.
Lemma lit_inline s : forallb (λ c, 32 <=? c) (lit s) = true → inline (lit s).
Proof. intros H. apply Forall_forall. intros c Hc. rewrite forallb_forall in H. apply Z.leb_le, H. by apply list_elem_of_In. Qed.
Lemma sdec_inline z : inline (sdec z).
Proof. unfold sdec. destruct (_ <? _); [constructor; [lia|]|]; apply dec_inline. Qed.
Lemma pad_inline w z : inline (pad w z).
Proof. apply inline_app; [|apply dec_inline]. by apply Forall_replicate. Qed.
Create HintDb inline.
#[export] Hint Resolve dec_inline inline_app sdec_inline pad_inline : inline.
#[export] Hint Extern 1 (inline (lit _)) => by apply lit_inline : inline.
#[export] Hint Extern 2 (inline (if _ then _ else _)) => case_match : inline.

Lemma strip_zeros_inline s : inline s → inline (Time.strip_zeros s).
Proof.
  induction 1 as [|c s Hc _ IH]; [constructor|]. simpl. destruct (Time.strip_zeros s); [|by constructor].
  destruct (_ =? _); by repeat constructor.
Qed.
#[export] Hint Resolve strip_zeros_inline : inline.
Lemma frac_inline v prec : inline (Time.frac v prec).
Proof. unfold Time.frac. destruct (_ =? _); [constructor|]. auto with inline. Qed.
#[export] Hint Resolve frac_inline : inline.
Lemma micro_inline : inline [194; 181].
Proof. repeat constructor; lia. Qed.
#[export] Hint Resolve micro_inline : inline.
Lemma Duration_inline d : inline (Time.Duration_String d).
Proof. unfold Time.Duration_String. cbv zeta. auto 10 with inline. Qed.
Lemma Time_inline t : inline (Time.AppendFormat t).
Proof. unfold Time.AppendFormat. destruct (Time.civil _) as [[y m] d]. auto 20 with inline. Qed.
Lemma Float_inline f bits : inline (Float.AppendFloat f bits).
Proof.
  unfold Float.AppendFloat. cbv zeta. destruct (_ =? Z.ones _); [auto with inline|].
  match goal with |- context [let '(_, _) := ?p in _] => destruct p as [exp mant] end.
  destruct (mant =? 0); [auto with inline|].
  destruct (Float.shortest _ _ _ _ _) as [n k]. auto with inline.
Qed.
#[export] Hint Resolve Duration_inline Time_inline Float_inline : inline.
Lemma hex_inline s : is_bytes s → inline (hex_bytes s).
Proof.
  induction 1 as [|c s Hc _ IH]; [constructor|]. change (hex_bytes (c :: s)) with ([hexUpper (Z.shiftr c 4); hexUpper (Z.land c 15)] ++ hex_bytes s).
  apply inline_app; [|done]. assert (∀ z, 0 ≤ z → 32 ≤ hexUpper z) as Hh.
  { intros z Hz. unfold hexUpper. destruct (z <? 10); lia. }
  destruct Hc. repeat constructor; apply Hh; [apply Z.shiftr_nonneg; lia|apply Z.land_nonneg; lia].
Qed.

(** ** What the parts of the switch append *)
Lemma appends_ok (b out : bytes) : inline out → appends (Ok (b ++ out)) b true.
Proof. intros H. by exists out. Qed.

Lemma appends_nil (b : bytes) : appends (Ok b) b true.
Proof. exists []. split; [by rewrite app_nil_r|constructor]. Qed.

Lemma appends_bind r b good (out : bytes) :
  appends r b good → inline out → appends (r ≫= λ b, Ok (b ++ out)) b good.
Proof.
  unfold appends. destruct good; [|by intros ->]. intros (o & -> & Ho) Hi. exists (o ++ out).
  simpl. rewrite (assoc_L (++)). auto with inline.
Qed.

Lemma appends_after r b p good : appends r (b ++ p) good → inline p → appends r b good.
Proof.
  unfold appends. destruct good; [|done]. intros (o & -> & Ho) Hi. exists (p ++ o).
  rewrite (assoc_L (++)). auto with inline.
Qed.

Lemma items_appends {A} (f : bytes → A → outcome bytes) good val : ∀ b,
  (∀ b v, v ∈ val → appends (f b v) b (good v)) → appends (items f b val) b (forallb good val).
Proof.
  induction val as [|v val IH]; intros b Hf; [by apply (appends_nil b)|]. cbn [items forallb].
  pose proof (Hf b v ltac:(left)) as Hv. destruct (good v); simpl in *; [|by rewrite Hv].
  destruct Hv as (o & -> & Ho). cbn [mbind outcome_bind].
  assert (∀ b, appends (items f b val) b (forallb good val)) as IH' by (intros; apply IH; intros; apply Hf; by right).
  destruct val as [|w val]; [by exists o|].
  rewrite <- (assoc_L (++)). eapply appends_after; [apply IH'|].
  apply inline_app; [done|by apply (lit_inline ", ")].
Qed.

Lemma list_appends {A} (f : bytes → A → outcome bytes) good val b :
  (∀ b v, v ∈ val → appends (f b v) b (good v)) → appends (write_list f b val) b (forallb good val).
Proof.
  intros Hf. unfold write_list. apply appends_bind; [|auto with inline].
  eapply appends_after; [by apply items_appends|auto with inline].
Qed.

Lemma forallb_true {A} (l : list A) : forallb (λ _, true) l = true.
Proof. by induction l. Qed.

(** A loop that prints every element. *)
Lemma list_appends_all {A} (f : A → bytes) val b :
  (∀ v, v ∈ val → inline (f v)) → appends (write_list (λ b v, Ok (b ++ f v)) b val) b true.
Proof.
  intros Hf. rewrite <- (forallb_true val).
  apply list_appends. intros. by apply appends_ok, Hf.
Qed.

Lemma quoted_appends b s : is_bytes s → appends (write_quoted b s) b true.
Proof.
  intros Hs. unfold write_quoted. assert (inline quote) by (repeat constructor; lia). apply appends_bind; [|done].
  eapply appends_after; [|done]. destruct (write_runes_spec (length s) (b ++ quote) s) as (o & E & _ & Ho); [done..|].
  by exists o.
Qed.

Lemma digest_appends b v : is_bytes (sl_data v ++ sl_spare v) → appends (writeTextDigest b v) b (long_enough v).
Proof.
  intros Hv. unfold writeTextDigest, long_enough, sub. case_bool_decide as H1; case_bool_decide as H2; try lia; simpl; [|done].
  eexists. split; [done|]. by apply hex_inline, Forall_take.
Qed.

Lemma ints_appends t val b (f : Z → bytes) :
  (∀ z, inline (f z)) →
  appends (val ← as_ints t (XInts t val); write_list (λ b v, Ok (b ++ f v)) b val) b true.
Proof. intros Hf. unfold as_ints. rewrite bool_decide_eq_true_2 by done. simpl. by apply list_appends_all. Qed.

Lemma lists_appends {A} (f : bytes → A → outcome bytes) (P : A → Prop) val b :
  (∀ b v, P v → appends (f b v) b true) → Forall P val → appends (write_list f b val) b true.
Proof.
  intros Hf Hv. rewrite <- (forallb_true val).
  apply list_appends. intros c v Hin. apply Hf. by eapply Forall_forall in Hv.
Qed.

Lemma bool_appends b v : appends (write_bool b v) b true.
Proof. apply appends_ok. auto with inline. Qed.

(** The value of a field is printed on the same line, or the switch panics. *)
Lemma value_appends b f : constructed f → appends (write_value b f) b (printable f).
Proof.
  destruct 1; try (by apply appends_ok; auto with inline); try (by apply ints_appends; auto with inline);
    try (by apply list_appends_all; auto with inline); try done.
  - destruct v; apply bool_appends.
  - by apply (quoted_appends b (sl_data v)).
  - eapply (lists_appends write_bytes); [|done]. intros. by apply quoted_appends.
  - by apply digest_appends.
  - apply list_appends. intros c w Hw. apply digest_appends. by eapply Forall_forall in H.
  - simplify_eq/=. by apply quoted_appends.
  - by destruct v.
  - by apply quoted_appends.
  - eapply (lists_appends write_quoted); [|done]. intros. by apply quoted_appends.
Qed.

(** ** Lines of the log *)

(** [oneline out]: no line ends in [out]; the only control character is the escape of the colours. *)
Definition oneline (out : bytes) : Prop := Forall (λ c, 32 ≤ c ∨ c = 27) out.
Lemma oneline_inline out : inline out → oneline out.
Proof. intros H. eapply Forall_impl; [exact H|]. simpl; lia. Qed.
Lemma oneline_app a b : oneline a → oneline b → oneline (a ++ b).
Proof. by apply Forall_app_2. Qed.
Lemma oneline_esc : oneline esc.
Proof. repeat constructor; lia. Qed.
#[export] Hint Resolve oneline_inline oneline_app oneline_esc : inline.

Lemma field_text b f : constructed f → inline (key f) →
  if printable f then ∃ out, writeTextField b f = Ok (b ++ out) ∧ oneline out else writeTextField b f = Halt Panic.
Proof.
  intros Hf Hk. unfold writeTextField.
  match goal with |- context [write_value (b ++ ?p) f] => set (pre := p) end.
  assert (oneline pre) as Hp.
  { unfold pre. assert (inline (match typ f with TypeErr => lit "101" | _ => lit "100" end)) by (destruct (typ f); auto with inline).
    auto 20 with inline. }
  clearbody pre. pose proof (value_appends (b ++ pre) f Hf) as Hv. unfold appends in Hv. destruct (printable f); [|done].
  destruct Hv as (out & -> & Ho). exists (pre ++ out). rewrite (assoc_L (++)). auto with inline.
Qed.


(** Any string is printed between quotes without control characters or line ends, and
    reading the quoted text back stops at the closing quote and gives the string, with every
    byte that is not valid UTF-8 replaced; valid UTF-8 comes back unchanged. *)
Theorem quoted_text_round_trip b s rest :
  is_bytes s →
  ∃ out, write_quoted b s = Ok (b ++ quote ++ out ++ quote) ∧
    unquote (out ++ quote ++ rest) = Some (clean s, rest) ∧ inline out ∧
    (Utf8.Valid s = true → clean s = s).
Proof.
  intros Hs. destruct (write_runes_spec (length s) (b ++ quote) s Hs) as (out & E & Hu & Ho); [done|].
  exists out. split_and!; [| |done|apply clean_valid].
  - unfold write_quoted, writeTextString. rewrite E. simpl. by rewrite <- !(assoc_L (++)).
  - rewrite Hu. simpl. by rewrite app_nil_r.
Qed.

(** ** Levels *)
Import Level Logger.

Lemma textLevel_le v lvl :
  lvl < maxLevel → (updateMinLevels v).2 ≤ lvl ↔ lv_console v ≤ lvl ∨ lv_file v ≤ lvl.
Proof.
  unfold updateMinLevels, maxLevel. intros Hl.
  destruct (Z.ltb_spec (lv_console v) 7); [destruct (Z.ltb_spec (lv_file v) (lv_console v))|destruct (Z.ltb_spec (lv_file v) 7)];
    simpl; lia.
Qed.

Lemma textLine_level e line : textLine e = Ok line → 0 ≤ level e < maxLevel.
Proof.
  unfold textLine, maxLevel. destruct (Z.ltb_spec (level e) 0); [done|]. intros H1.
  apply bind_Ok in H1 as (x & E & _). apply or_panic_Ok, lookup_lt_Some in E. simpl in E. lia.
Qed.

(** Each output gets exactly the entries of its level and above, in order; the test of the
    smaller of the two text levels loses none of them. *)
Theorem textLog_outputs l e line :
  textLine e = Ok line →
  textLog l e = Ok (mkLogging (lg_levels l)
    (lg_console l ++ if lv_console (lg_levels l) <=? level e then [line] else [])
    ((λ lines, lines ++ if lv_file (lg_levels l) <=? level e then [line] else []) <$> lg_file l)
    (lg_pending l)).
Proof.
  intros Hline. pose proof (textLine_level e line Hline) as Hl. unfold textLog.
  pose proof (textLevel_le (lg_levels l) (level e) ltac:(lia)) as Ht.
  destruct l as [v con file pend]; simpl in *.
  destruct (Z.ltb_spec (level e) (updateMinLevels v).2).
  - destruct (Z.leb_spec (lv_console v) (level e)), (Z.leb_spec (lv_file v) (level e)); try lia.
    rewrite app_nil_r. destruct file; simpl; by rewrite ?app_nil_r.
  - rewrite Hline. unfold set_console, set_file. simpl.
    destruct (lv_console v <=? level e), file as [lines|]; simpl; destruct (lv_file v <=? level e); simpl;
      by rewrite ?app_nil_r.
Qed.
