(* ===== verification/Block.v ===== *)
(** * Block identifiers and block graphs (src/blockmania/blockmania.go) *)

From stdpp Require Import strings.
From S2P Require Import Prelude Messages.

Record BlockID := mkBlockID { Hash : bytes; Node : Z; Round : Z }.

(** The zero value, Go's [BlockID{}]. *)
Definition zeroID : BlockID := mkBlockID [] 0 0.

Record Dep := mkDep { dep_Block : BlockID; dep_Deps : list BlockID; dep_Prev : BlockID }.
Record BlockGraph := mkBlockGraph { bg_Block : BlockID; bg_Deps : list Dep; bg_Prev : BlockID }.
Record Interpreted := mkInterpreted {
  in_Blocks : list BlockID; in_Consumed : Z; in_Round : Z }.

#[export] Instance BlockID_eq_dec : EqDecision BlockID.
Proof. solve_decision. Defined.
#[export] Instance Dep_eq_dec : EqDecision Dep.
Proof. solve_decision. Defined.
#[export] Instance BlockGraph_eq_dec : EqDecision BlockGraph.
Proof. solve_decision. Defined.
#[export] Instance Interpreted_eq_dec : EqDecision Interpreted.
Proof. solve_decision. Defined.
#[export] Instance BlockID_countable : Countable BlockID.
Proof.
  refine (inj_countable' (λ b, (Hash b, Node b, Round b)) (λ '(h, n, r), mkBlockID h n r) _).
  by intros [].
Defined.

(** [Valid] tells a block reference from the zero value. *)
Definition Valid (b : BlockID) : bool := negb (bool_decide (Hash b = [])).

(** The loop [for i := 6; i < 12; i++] over the bytes of the hash. *)
Fixpoint hash_digits (h : bytes) (i n : nat) : outcome bytes :=
  match n with
  | O => Ok []
  | S n =>
      c ← or_panic (h !! i);
      rest ← hash_digits h (S i) n;
      Ok (hexUpper (Z.shiftr c 4) :: hexUpper (Z.land c 15) :: rest)
  end.

(** [String] panics on a hash of one to eleven bytes. *)
Definition BlockID_String (b : BlockID) : outcome bytes :=
  let v := dec (Node b) ++ lit " | " ++ dec (Round b) in
  if bool_decide (Hash b = []) then Ok v
  else d ← hash_digits (Hash b) 6 6; Ok (v ++ lit " | " ++ d).

Lemma hash_digits_Ok h n i :
  (i + n ≤ length h)%nat → is_ok (hash_digits h i n).
Proof.
  revert i; induction n as [|n IH]; intros i Hi; simpl; [done|].
  destruct (lookup_lt_is_Some_2 h i) as [c ->]; [lia|]. simpl.
  specialize (IH (S i) ltac:(lia)). by destruct (hash_digits h (S i) n).
Qed.

Lemma hash_digits_panics h n i :
  (0 < n)%nat → (length h < i + n)%nat → hash_digits h i n = Halt Panic.
Proof.
  revert i; induction n as [|n IH]; intros i Hn Hi; simpl.
  - lia.
  - destruct (h !! i) eqn:E; simpl; [|done].
    apply lookup_lt_Some in E. rewrite IH by lia. done.
Qed.

Lemma BlockID_String_cases b : if Msg.shows (Hash b) then is_ok (BlockID_String b) = true else BlockID_String b = Halt Panic.
Proof.
  unfold BlockID_String, Msg.shows. case_bool_decide as E; [done|]. cbn [orb]. case_bool_decide as El.
  - pose proof (hash_digits_Ok (Hash b) 6 6 ltac:(lia)) as H. by destruct (hash_digits _ _ _).
  - by rewrite hash_digits_panics by lia.
Qed.
