(* ===== verification/State.v ===== *)
(** * Interpretation states (src/blockmania/state.go)

    A [state] is what the interpreter knows after one block.  Go's nil maps are
    [None].  Two kinds of values are shared between a state and its clones, and
    live in a [heap] the graph threads through: the maps of view-change votes
    stored under [ViewChanged] keys (references), and the backing arrays of the
    [timeouts] slices. *)

From S2P Require Import Prelude Bitset Messages Block.

Record timeout := mkTimeout { t_node : Z; t_round : Z; t_view : Z }.
#[export] Instance timeout_eq_dec : EqDecision timeout.
Proof. solve_decision. Defined.

Record nodeRound := mkNodeRound { nr_node : Z; nr_round : Z }.
#[export] Instance nodeRound_eq_dec : EqDecision nodeRound.
Proof. solve_decision. Defined.
#[export] Instance nodeRound_countable : Countable nodeRound.
Proof.
  refine (inj_countable' (λ x, (nr_node x, nr_round x)) (λ '(n, r), mkNodeRound n r) _).
  by intros [].
Defined.

(** The [interface{}] values of [stateKV]; [VVcs] is a reference to a
    [map[uint64]string] of the heap. *)
Inductive sdval :=
  | VUint32 (v : Z)
  | VMsg (m : PrePrepare)
  | VHash (h : bytes)
  | VVcs (loc : nat)
  | VBool (b : bool).
#[export] Instance sdval_eq_dec : EqDecision sdval.
Proof. solve_decision. Defined.

(** ** The heap shared by states *)
Record slice := mkSlice { sl_arr : nat; sl_len : nat }.
#[export] Instance slice_eq_dec : EqDecision slice.
Proof. solve_decision. Defined.

Record heap := mkHeap {
  h_vcs : list (gmap Z bytes);      (* view-change vote maps *)
  h_arr : list (list timeout)       (* backing arrays, one element per slot of capacity *)
}.

Module Heap.
Definition empty : heap := mkHeap [] [].

(** [map[uint64]string{}] *)
Definition alloc_vcs (h : heap) : nat * heap :=
  (length (h_vcs h), mkHeap (h_vcs h ++ [∅]) (h_arr h)).

(** [vcs[k] = v] *)
Definition set_vcs (h : heap) (loc : nat) (k : Z) (v : bytes) : outcome heap :=
  m ← or_panic (h_vcs h !! loc);
  Ok (mkHeap (<[loc := <[k := v]> m]> (h_vcs h)) (h_arr h)).

Definition get_vcs (h : heap) (loc : nat) : outcome (gmap Z bytes) := or_panic (h_vcs h !! loc).

Definition arr_of (h : heap) (s : slice) : list timeout := default [] (h_arr h !! sl_arr s).

(** The elements of a slice; the nil slice has none. *)
Definition read (h : heap) (os : option slice) : list timeout :=
  match os with
  | None => []
  | Some s => take (sl_len s) (arr_of h s)
  end.

(** [append(s, x)]: in place when the backing array has a free slot, in a new
    array otherwise; [spare c] is the number of free slots the runtime leaves
    when it grows an array of capacity [c]. *)
Definition append (spare : nat → nat) (h : heap) (os : option slice) (x : timeout) : heap * slice :=
  let zero := mkTimeout 0 0 0 in
  match os with
  | None =>
      (mkHeap (h_vcs h) (h_arr h ++ [x :: replicate (spare 0%nat) zero]),
       mkSlice (length (h_arr h)) 1)
  | Some s =>
      let a := arr_of h s in
      if bool_decide (sl_len s < length a)%nat then
        (mkHeap (h_vcs h) (<[sl_arr s := <[sl_len s := x]> a]> (h_arr h)),
         mkSlice (sl_arr s) (S (sl_len s)))
      else
        (mkHeap (h_vcs h) (h_arr h ++ [a ++ x :: replicate (spare (length a)) zero]),
         mkSlice (length (h_arr h)) (S (sl_len s)))
  end.
End Heap.

(** ** The state *)
Record state := mkState {
  bitsets : option (gmap PrePrepare bitset);
  data : option (gmap StateData sdval);
  delay : option (gmap Z Z);
  final : option (gmap nodeRound bytes);
  out : list Message;
  timeout_ : Z;
  timeouts : gmap Z slice
}.

Module State.
(** Field updates. *)
Definition set_bitsets (s : state) x := mkState x (data s) (delay s) (final s) (out s) (timeout_ s) (timeouts s).
Definition set_data (s : state) x := mkState (bitsets s) x (delay s) (final s) (out s) (timeout_ s) (timeouts s).
Definition set_delay (s : state) x := mkState (bitsets s) (data s) x (final s) (out s) (timeout_ s) (timeouts s).
Definition set_final (s : state) x := mkState (bitsets s) (data s) (delay s) x (out s) (timeout_ s) (timeouts s).
Definition set_out (s : state) x := mkState (bitsets s) (data s) (delay s) (final s) x (timeout_ s) (timeouts s).
Definition set_timeout (s : state) x := mkState (bitsets s) (data s) (delay s) (final s) (out s) x (timeouts s).
Definition set_timeouts (s : state) x := mkState (bitsets s) (data s) (delay s) (final s) (out s) (timeout_ s) x.

(** [m[k]] on a map that may be nil. *)
Definition get {K A} `{Countable K} (m : option (gmap K A)) (k : K) : option A :=
  match m with Some m => m !! k | None => None end.

(** [if m == nil { m = map{k: v} } else { m[k] = v }] *)
Definition put {K A} `{Countable K} (m : option (gmap K A)) (k : K) (v : A) : option (gmap K A) :=
  match m with Some m => Some (<[k := v]> m) | None => Some {[k := v]} end.

(** [m[k] = v], which panics on a nil map. *)
Definition put_nonnil {K A} `{Countable K} (m : option (gmap K A)) (k : K) (v : A)
    : outcome (option (gmap K A)) :=
  m ← or_panic m; Ok (Some (<[k := v]> m)).

(** [&state{timeouts: map[uint64][]timeout{}}] *)
Definition fresh_state : state := mkState None None None None [] 0 ∅.

(** The copy loop [for k, v := range m { if round(k) < minround { continue } .. }]. *)
Definition keep {K A} `{Countable K} (round : K → Z) (minround : Z) (m : gmap K A) : gmap K A :=
  filter (λ kv, ¬ round kv.1 < minround) m.

(** [data] values are copied as they are: a vote map stays shared with the
    original; so are the slices of [timeouts]. *)
Definition clone (s : option state) (minround : Z) : state :=
  match s with
  | None => fresh_state
  | Some s => {|
      bitsets := option_map (λ m, Bitset.clone <$> keep pp_round minround m) (bitsets s);
      data := option_map (keep Sd.GetRound minround) (data s);
      delay := delay s;
      final := option_map (keep nr_round minround) (final s);
      out := filter (λ m, ¬ (Msg.NodeRound m).2 < minround) (out s);
      timeout_ := timeout_ s;
      timeouts := keep id minround (timeouts s) |}
  end.

(** [getBitset] gives the bitset of a proposal, creating it when missing. *)
Definition getBitset (s : state) (size : Z) (pp : PrePrepare) : bitset * state :=
  match bitsets s with
  | None => let b := Bitset.newBitset size in (b, set_bitsets s (Some {[pp := b]}))
  | Some m =>
      match m !! pp with
      | Some b => (b, s)
      | None => let b := Bitset.newBitset size in (b, set_bitsets s (Some (<[pp := b]> m)))
      end
  end.

(** The write through the pointer [getBitset] returned. *)
Definition store_bitset (s : state) (pp : PrePrepare) (b : bitset) : state :=
  set_bitsets s (put (bitsets s) pp b).

Definition getOutput (s : option state) : list Message :=
  match s with None => [] | Some s => out s end.

(** [getView] reads the view of a node and round, writing zero when there is none. *)
Definition getView (s : state) (node round : Z) : outcome (Z * state) :=
  match get (data s) (View node round) with
  | Some (VUint32 v) => Ok (v, s)
  | Some _ => Halt Panic
  | None => Ok (0, set_data s (put (data s) (View node round) (VUint32 0)))
  end.

Definition diff (a b : Z) : Z := if b <=? a then u64 (a - b) else u64 (b - a).
End State.
