(* ===== verification/Graph.v ===== *)
(** * The consensus interpreter (src/blockmania/graph.go): definitions

    A [graph] is the state of the goroutine that runs [Graph.run]: the queued
    entries, the interpreted blocks not yet consumed, the per-block states, the
    decisions per round ([g_resolved]) and the calls made to the delivery
    callback, in order ([g_delivered]).  One [run_step] is one iteration of the
    loop: it takes a block graph off the queue and interprets its entries. *)

From S2P Require Import Prelude Bitset Messages Block State.

(** ** Data *)
Record entry := mkEntry { e_block : BlockID; e_deps : list BlockID; e_prev : BlockID }.

Record blockInfo := mkBlockInfo { info_data : BlockGraph; info_max : Z }.

(** [cfg_AtDebug] is not a field of the code: it is the answer of [log.AtDebug()], which is fixed
    when the node starts. *)
Record Config := mkConfig {
  cfg_LastInterpreted : Z; cfg_Peers : list Z; cfg_SelfID : Z; cfg_TotalNodes : Z; cfg_AtDebug : bool }.

(** The fields [New] sets once and nothing changes. *)
Record params := mkParams {
  peerCount : Z; peers : list Z; quorumf1 : Z; quorum2f : Z; quorum2f1 : Z;
  self : Z; totalNodes : Z; at_debug : bool }.

Record graph := mkGraph {
  g_par : params;
  g_blocks : list blockInfo;
  g_delivered : list Interpreted;
  g_entries : list BlockGraph;
  g_max : gmap BlockID Z;
  g_resolved : gmap Z (gmap Z bytes);
  g_round : Z;
  g_statess : gmap BlockID state;
  g_heap : heap }.

Module Graph.
Import State.

Definition set_blocks (g : graph) x := mkGraph (g_par g) x (g_delivered g) (g_entries g) (g_max g) (g_resolved g) (g_round g) (g_statess g) (g_heap g).
Definition set_delivered (g : graph) x := mkGraph (g_par g) (g_blocks g) x (g_entries g) (g_max g) (g_resolved g) (g_round g) (g_statess g) (g_heap g).
Definition set_entries (g : graph) x := mkGraph (g_par g) (g_blocks g) (g_delivered g) x (g_max g) (g_resolved g) (g_round g) (g_statess g) (g_heap g).
Definition set_max (g : graph) x := mkGraph (g_par g) (g_blocks g) (g_delivered g) (g_entries g) x (g_resolved g) (g_round g) (g_statess g) (g_heap g).
Definition set_resolved (g : graph) x := mkGraph (g_par g) (g_blocks g) (g_delivered g) (g_entries g) (g_max g) x (g_round g) (g_statess g) (g_heap g).
Definition set_round (g : graph) x := mkGraph (g_par g) (g_blocks g) (g_delivered g) (g_entries g) (g_max g) (g_resolved g) x (g_statess g) (g_heap g).
Definition set_statess (g : graph) x := mkGraph (g_par g) (g_blocks g) (g_delivered g) (g_entries g) (g_max g) (g_resolved g) (g_round g) x (g_heap g).
Definition set_heap (g : graph) x := mkGraph (g_par g) (g_blocks g) (g_delivered g) (g_entries g) (g_max g) (g_resolved g) (g_round g) (g_statess g) x.

(** ** Delivery *)

(** The blocks of a decided round: the non-empty decisions, sorted by hash. *)
Definition round_blocks (round : Z) (hashes : list (Z * bytes)) : list BlockID :=
  omap (λ '(node, hash), if bool_decide (hash = []) then None
                         else Some (mkBlockID hash node round)) hashes.
Definition hash_le (a b : BlockID) : Prop := bytes_le (Hash a) (Hash b).
#[export] Instance hash_le_dec : RelDecision hash_le := λ a b, _.
Definition sort_blocks (l : list BlockID) : list BlockID := merge_sort hash_le l.

(** The loop over [graph.blocks]: drops the blocks whose [max] is not above the
    round, with their entries and the ones of their dependencies. *)
Definition forget {A} (m : gmap BlockID A) (bg : BlockGraph) : gmap BlockID A :=
  foldl (λ m d, delete (dep_Block d) m) (delete (bg_Block bg) m) (bg_Deps bg).

Fixpoint consume (round : Z) (bs : list blockInfo) (mx : gmap BlockID Z)
    (st : gmap BlockID state) (consumed : Z)
    : list blockInfo * gmap BlockID Z * gmap BlockID state * Z :=
  match bs with
  | [] => ([], mx, st, consumed)
  | info :: bs' =>
      if round <? info_max info then (bs, mx, st, consumed)
      else consume round bs' (forget mx (info_data info)) (forget st (info_data info))
             (u64 (consumed + 1))
  end.

Fixpoint deliverRound (fuel : nat) (g : graph) (round : Z) (hashes : gmap Z bytes)
    : outcome graph :=
  match fuel with
  | O => Halt Diverge
  | S fuel =>
      let blocks := sort_blocks (round_blocks round (map_to_list hashes)) in
      let g := set_resolved g (delete round (g_resolved g)) in
      first ← or_panic (head (g_blocks g));
      let consumed := u64 (Round (bg_Block (info_data first)) - 1) in
      let '(bs, mx, st, consumed) :=
        consume round (g_blocks g) (g_max g) (g_statess g) consumed in
      let g := set_statess (set_max (set_blocks g bs) mx) st in
      let g := set_round g (u64 (g_round g + 1)) in
      let g := set_delivered g (g_delivered g ++ [mkInterpreted blocks consumed round]) in
      match g_resolved g !! u64 (round + 1) with
      | Some hashes =>
          if Z.of_nat (size hashes) =? peerCount (g_par g)
          then deliverRound fuel g (u64 (round + 1)) hashes else Ok g
      | None => Ok g
      end
  end.

Arguments deliverRound : simpl never.

(** Each recursive call finds its round among the resolved ones and removes it. *)
Definition deliver_fuel (g : graph) : nat := S (size (g_resolved g)).

(** [if log.AtDebug() { log.Debug(..., text) }]: at debug level the text is made, which panics
    on a hash that is too short to be printed. *)
Definition debug (g : graph) (text : outcome bytes) : outcome unit :=
  if at_debug (g_par g) then text ≫= λ _, Ok tt else Ok tt.

(** A run that goes on made the text, or did not need it. *)
Lemma debug_bind {A} g text (k : unit → outcome A) x : (debug g text ≫= k) = Ok x → k tt = Ok x.
Proof. unfold debug. destruct (at_debug _); [|done]. by destruct text. Qed.

Ltac go_inv_hook H ::=
  lazymatch type of H with mbind _ (debug _ _) = Ok _ => apply debug_bind in H end.
Lemma debug_block g b :
  debug g (BlockID_String b) = if at_debug (g_par g) && negb (Msg.shows (Hash b)) then Halt Panic else Ok tt.
Proof.
  unfold debug. destruct (at_debug _); [|done]. pose proof (BlockID_String_cases b) as H. simpl.
  destruct (Msg.shows (Hash b)); [by destruct (BlockID_String b)|by rewrite H].
Qed.
Lemma debug_message g b m :
  debug g (_ ← BlockID_String b; Msg.String m) =
    if at_debug (g_par g) && negb (Msg.shows (Hash b) && Msg.shows (Msg.hash_of m)) then Halt Panic else Ok tt.
Proof.
  unfold debug. destruct (at_debug _); [|done]. pose proof (BlockID_String_cases b) as H. pose proof (Msg.String_cases m) as H'.
  simpl. destruct (Msg.shows (Hash b)); [|by rewrite H]. destruct (BlockID_String b); [|done]. simpl.
  destruct (Msg.shows (Msg.hash_of m)); [by destruct (Msg.String m)|by rewrite H'].
Qed.

Definition deliver (g : graph) (node round : Z) (hash : bytes) : outcome graph :=
  if round <? g_round g then Ok g
  else
    hashes ← match g_resolved g !! round with
             | Some hashes =>
                 match hashes !! node with
                 | Some curhash => if bool_decide (curhash ≠ hash) then Halt Fatal else Ok hashes
                 | None => _ ← debug g (BlockID_String (mkBlockID hash node round)); Ok (<[node := hash]> hashes)
                 end
             | None => Ok {[node := hash]}
             end;
    let g := set_resolved g (<[round := hashes]> (g_resolved g)) in
    if negb (round =? g_round g) then Ok g
    else if Z.of_nat (size hashes) =? peerCount (g_par g)
         then deliverRound (deliver_fuel g) g round hashes
         else Ok g.

(** ** Interpreting one message *)

(** The loop over the votes of a view change: the last non-empty hash, or exit
    when two differ. *)
Fixpoint pick_hash (hash : bytes) (hvals : list bytes) : outcome bytes :=
  match hvals with
  | [] => Ok hash
  | hval :: hvals =>
      if bool_decide (hval = []) then pick_hash hash hvals
      else if bool_decide (hash ≠ [] ∧ hval ≠ hash) then Halt Fatal
      else pick_hash hval hvals
  end.

(** The map of view-change votes stored under [key], created when missing. *)
Definition find_vcs (g : graph) (s : state) (key : StateData) : outcome (nat * state * graph) :=
  match get (data s) key with
  | Some (VVcs loc) => Ok (loc, s, g)
  | Some _ => Halt Panic
  | None =>
      let '(loc, h) := Heap.alloc_vcs (g_heap g) in
      Ok (loc, set_data s (put (data s) key (VVcs loc)), set_heap g h)
  end.

Section Interpreter.
(** Free slots the Go runtime leaves when it grows a slice. *)
Context (spare : nat → nat).

(** [s.timeouts[k] = append(s.timeouts[k], x)] *)
Definition append_timeout (g : graph) (s : state) (k : Z) (x : timeout) : state * graph :=
  let '(h, sl) := Heap.append spare (g_heap g) (timeouts s !! k) x in
  (set_timeouts s (<[k := sl]> (timeouts s)), set_heap g h).

Definition processMessage (g : graph) (s : state) (sender receiver : Z) (origin : BlockID)
    (msg : Message) : outcome (option Message * state * graph) :=
  let '(node, round) := Msg.NodeRound msg in
  if bool_decide (is_Some (get (data s) (Final node round))) then Ok (None, s, g)
  else
  '(v, s) ← getView s node round;
  _ ← debug g (_ ← BlockID_String origin; Msg.String msg);
  match msg with
  | MPrePrepare m =>
      if negb (v =? pp_view m) then Ok (None, s, g)
      else
      let pp := PrePrepared node round (pp_view m) in
      if bool_decide (is_Some (get (data s) pp)) then Ok (None, s, g)
      else
      let '(b, s) := getBitset s (peerCount (g_par g)) m in
      b ← Bitset.setPrepare b sender;
      b ← Bitset.setPrepare b receiver;
      let s := store_bitset s m b in
      let s := set_data s (put (data s) pp (VMsg m)) in
      Ok (Some (MPrepare (mkPrepare (pp_hash m) node round receiver (pp_view m))), s, g)
  | MPrepare m =>
      if p_view m <? v then Ok (None, s, g)
      else if v <? p_view m then
        let '(b, s) := getBitset s (peerCount (g_par g)) (Msg.Prepare_Pre m) in
        b ← Bitset.setPrepare b (p_sender m);
        Ok (None, store_bitset s (Msg.Prepare_Pre m) b, g)
      else
      let '(b, s) := getBitset s (peerCount (g_par g)) (Msg.Prepare_Pre m) in
      b ← Bitset.setPrepare b (p_sender m);
      let s := store_bitset s (Msg.Prepare_Pre m) b in
      if negb (Bitset.prepareCount b =? quorum2f1 (g_par g)) then Ok (None, s, g)
      else
      has ← Bitset.hasCommit b receiver;
      if has : bool then Ok (None, s, g)
      else
      b ← Bitset.setCommit b receiver;
      let s := store_bitset s (Msg.Prepare_Pre m) b in
      let p := Prepared node round (p_view m) in
      let s := if bool_decide (is_Some (get (data s) p)) then s
               else set_data s (put (data s) p (VHash (p_hash m))) in
      Ok (Some (MCommit (mkCommit (p_hash m) node round receiver (p_view m))), s, g)
  | MCommit m =>
      if v <? c_view m then Ok (None, s, g)
      else
      let '(b, s) := getBitset s (peerCount (g_par g)) (Msg.Commit_Pre m) in
      b ← Bitset.setCommit b (c_sender m);
      let s := store_bitset s (Msg.Commit_Pre m) b in
      if negb (Bitset.commitCount b =? quorum2f1 (g_par g)) then Ok (None, s, g)
      else
      let nr := mkNodeRound node round in
      if bool_decide (is_Some (get (final s) nr)) then Ok (None, s, g)
      else
      let s := set_final s (put (final s) nr (c_hash m)) in
      g ← deliver g node round (c_hash m);
      Ok (None, s, g)
  | MViewChange m =>
      if vc_view m <? v then Ok (None, s, g)
      else
      let key := ViewChanged node round v in
      '(loc, s, g) ← find_vcs g s key;
      h ← Heap.set_vcs (g_heap g) loc (vc_sender m) (vc_hash m);
      let g := set_heap g h in
      vcs ← Heap.get_vcs h loc;
      if negb (Z.of_nat (size vcs) =? quorum2f1 (g_par g)) then Ok (None, s, g)
      else
      d ← put_nonnil (data s) (View node round) (VUint32 (vc_view m));
      let s := set_data s d in
      hash ← pick_hash [] (map_to_list vcs).*2;
      Ok (Some (MNewView (mkNewView hash node round receiver (vc_view m))), s, g)
  | MNewView m =>
      if nv_view m <? v then Ok (None, s, g)
      else
      let key := HNV node round (nv_view m) in
      if bool_decide (is_Some (get (data s) key)) then Ok (None, s, g)
      else
      let s := set_data s (Some (default ∅ (data s))) in
      d ← put_nonnil (data s) (View node round) (VUint32 (nv_view m));
      let s := set_data s d in
      let tval := u64 (Round origin + timeout_ s + 5) in
      let '(s, g) := append_timeout g s tval (mkTimeout node round (nv_view m)) in
      d ← put_nonnil (data s) key (VBool true);
      let s := set_data s d in
      Ok (Some (MPrePrepare (mkPrePrepare (nv_hash m) node round (nv_view m))), s, g)
  end.

(** ** Interpreting a list of messages *)

(** What both loops of [processMessages] do with one message: skip it when it
    was processed before, else process it and append the response to [out]. *)
Definition process_one (sender receiver : Z) (origin : BlockID)
    (a : state * gset Message * graph * list Message) (msg : Message)
    : outcome (state * gset Message * graph * list Message) :=
  let '(s, processed, g, out) := a in
  if bool_decide (msg ∈ processed) then Ok (s, processed, g, out)
  else
    '(resp, s, g) ← processMessage g s sender receiver origin msg;
    Ok (s, {[msg]} ∪ processed, g, match resp with Some r => out ++ [r] | None => out end).

(** The second loop, [for i := 0; i < len(out); i++], over a list that grows. *)
Fixpoint drain (fuel : nat) (sender receiver : Z) (origin : BlockID) (i : nat)
    (a : state * gset Message * graph * list Message)
    : outcome (state * gset Message * graph * list Message) :=
  let '(_, _, _, out) := a in
  match out !! i with
  | None => Ok a
  | Some msg =>
      match fuel with
      | O => Halt Diverge
      | S fuel => a ← process_one sender receiver origin a msg;
                  drain fuel sender receiver origin (S i) a
      end
  end.

(** Each message can trigger at most [rank] further ones. *)
Definition drain_fuel (out : list Message) : nat := sum_list_with (λ m, S (Msg.rank m)) out.

Definition processMessages (g : graph) (s : state) (processed : gset Message)
    (sender receiver : Z) (origin : BlockID) (msgs : list Message)
    : outcome (state * gset Message * graph * list Message) :=
  a ← range (process_one sender receiver origin) (s, processed, g, []) msgs;
  let '(_, _, _, out) := a in
  drain (drain_fuel out) sender receiver origin 0 a.

(** ** Interpreting one block *)
Definition findOrCreateState (g : graph) (e : entry) : state :=
  if Valid (e_prev e) then clone (g_statess g !! e_prev e) (g_round g) else fresh_state.

(** The delays the dependencies show, in logical time. *)
Definition update_delay (s : state) (round : Z) (deps : list BlockID) : state :=
  match deps with
  | [] => s
  | _ => set_delay s (Some (foldl (λ d dep, <[Node dep := u64 (diff round (Round dep) * 10)]> d)
                              (default ∅ (delay s)) deps))
  end.

(** The timeout: the delay at position [2f] of the sorted delays when there are
    more than [2f+1] of them, the largest one otherwise, and at least ten. *)
Definition timeout_of (par : params) (vals : list Z) : outcome Z :=
  if quorum2f1 par <? Z.of_nat (length vals) then
    xval ← or_panic (merge_sort Z.le vals !! Z.to_nat (quorum2f par));
    Ok (if 10 <? xval then xval else 10)
  else Ok (foldl (λ tval val, if tval <? val then val else tval) 10 vals).
(** [vals] in the order Go iterates over the map of delays. *)
Definition timeout_value (par : params) (delay : option (gmap Z Z)) : outcome Z :=
  timeout_of par (map_to_list (default ∅ delay)).*2.

(** One iteration of the loop over the timeouts that expire in this round. *)
Definition check_timeout (node : Z) (a : state * list Message) (tmout : timeout)
    : outcome (state * list Message) :=
  let '(s, out) := a in
  if bool_decide (is_Some (get (data s) (Final (t_node tmout) (t_round tmout)))) then Ok a
  else
  let skey := View (t_node tmout) (t_round tmout) in
  v ← match get (data s) skey with
      | Some (VUint32 v) => Ok v
      | Some _ => Halt Panic
      | None => Ok 0
      end;
  if t_view tmout <? v then Ok a
  else
  hval ← match get (data s) (Prepared (t_node tmout) (t_round tmout) (t_view tmout)) with
         | Some (VHash h) => Ok h
         | Some _ => Halt Panic
         | None => Ok []
         end;
  Ok (set_data s (put (data s) skey (VUint32 (u32 (v + 1)))),
      out ++ [MViewChange (mkViewChange hval (t_node tmout) (t_round tmout) node
                             (u32 (t_view tmout + 1)))]).

(** One iteration of the loop over the dependencies' outputs. *)
Definition process_dep (node : Z) (origin : BlockID)
    (a : state * gset Message * graph * list Message) (dep : BlockID)
    : outcome (state * gset Message * graph * list Message) :=
  let '(s, processed, g, out) := a in
  _ ← debug g (BlockID_String dep);
  '(s, processed, g, resp) ← processMessages g s processed (Node dep) node origin
                               (getOutput (g_statess g !! dep));
  Ok (s, processed, g, out ++ resp).

Definition process (g : graph) (ntry : entry) : outcome graph :=
  let s := findOrCreateState g ntry in
  let block := e_block ntry in
  _ ← debug g (BlockID_String block);
  let '(node, round, hash) := (Node block, Round block, Hash block) in
  let out := [MPrePrepare (mkPrePrepare hash node round 0)] in
  let s := update_delay s round (e_deps ntry) in
  tval ← timeout_value (g_par g) (delay s);
  let s := set_timeout s tval in
  let tround := u64 (round + tval) in
  let '(s, g) := foldl (λ '(s, g) xnode, append_timeout g s tround (mkTimeout xnode round 0))
                   (s, g) (peers (g_par g)) in
  '(s, out) ← range (check_timeout node) (s, out) (Heap.read (g_heap g) (timeouts s !! round));
  '(s, processed, g, resp) ← processMessages g s ∅ node node block out;
  '(s, processed, g, out) ← range (process_dep node block) (s, processed, g, out ++ resp)
                              (e_deps ntry);
  let s := set_out s out in
  Ok (set_statess g (<[block := s]> (g_statess g))).

(** ** The run loop *)

(** [if !exists { rcheck = true } else if m > acc { acc = m }], over the links. *)
Definition max_link (mx : gmap BlockID Z) (a : bool * Z) (link : BlockID) : bool * Z :=
  let '(rcheck, acc) := a in
  match mx !! link with
  | None => (true, acc)
  | Some m => (rcheck, if acc <? m then m else acc)
  end.

(** [if rcheck && round > acc { acc = round }] *)
Definition raise_max (round : Z) (a : bool * Z) : Z :=
  let '(rcheck, acc) := a in if rcheck && (acc <? round) then round else acc.

(** One dependency of the block graph: its entry and its [max]. *)
Definition dep_entry (dep : Dep) : entry :=
  mkEntry (dep_Block dep)
    (if Round (dep_Block dep) =? 1 then dep_Deps dep else dep_Prev dep :: dep_Deps dep)
    (dep_Prev dep).

Definition dep_max (round : Z) (mx : gmap BlockID Z) (dep : Dep) : Z :=
  let a := (false, Round (dep_Block dep)) in
  let a := if Round (dep_Block dep) =? 1 then a else max_link mx a (dep_Prev dep) in
  raise_max round (foldl (max_link mx) a (dep_Deps dep)).

Definition scan_deps (round : Z) (mx : gmap BlockID Z) (max : Z) (deps : list Dep)
    : gmap BlockID Z * Z :=
  foldl (λ '(mx, max) dep,
           let m := dep_max round mx dep in
           (<[dep_Block dep := m]> mx, if max <? m then m else max)) (mx, max) deps.

(** What [run] does with a block graph under the lock: the [max] of the block
    and of its dependencies, and the new [blockInfo]. *)
Definition register (g : graph) (bg : BlockGraph) : graph :=
  let round := g_round g in
  let '(mx, max) := scan_deps round (g_max g) (Round (bg_Block bg)) (bg_Deps bg) in
  let a := (false, max) in
  let a := if Round (bg_Block bg) =? 1 then a else max_link mx a (bg_Prev bg) in
  let max := raise_max round a in
  set_blocks (set_max g (<[bg_Block bg := max]> mx)) (g_blocks g ++ [mkBlockInfo bg max]).

Definition self_entry (bg : BlockGraph) : entry :=
  mkEntry (bg_Block bg) (bg_Prev bg :: (dep_Block <$> bg_Deps bg)) (bg_Prev bg).

(** One iteration of [run] on the next queued block graph. *)
Definition run_step (g : graph) : outcome (option graph) :=
  match g_entries g with
  | [] => Ok None
  | bg :: rest =>
      _ ← range (λ _ dep, debug g (BlockID_String (dep_Block dep))) tt (bg_Deps bg);
      let g := register (set_entries g rest) bg in
      g ← range process g (dep_entry <$> bg_Deps bg);
      g ← process g (self_entry bg);
      Ok (Some g)
  end.

(** [Add] blocks while the channel holds 10000 entries. *)
Definition Add (g : graph) (data : BlockGraph) : outcome (option graph) :=
  _ ← debug g (BlockID_String (bg_Block data));
  Ok (if Z.of_nat (length (g_entries g)) <? 10000
      then Some (set_entries g (g_entries g ++ [data])) else None).
End Interpreter.
Arguments processMessage : simpl never.
Arguments process_one : simpl never.
Arguments processMessages : simpl never.
Arguments process : simpl never.

Definition mk_params (cfg : Config) : params :=
  let n := Z.of_nat (length (cfg_Peers cfg)) in
  let f := Z.quot (n - 1) 3 in
  {| peerCount := n; peers := cfg_Peers cfg; quorumf1 := f + 1; quorum2f := 2 * f;
     quorum2f1 := 2 * f + 1; self := cfg_SelfID cfg; totalNodes := cfg_TotalNodes cfg;
     at_debug := cfg_AtDebug cfg |}.

Definition New (cfg : Config) : graph :=
  {| g_par := mk_params cfg; g_blocks := []; g_delivered := []; g_entries := []; g_max := ∅;
     g_resolved := ∅; g_round := u64 (cfg_LastInterpreted cfg + 1); g_statess := ∅;
     g_heap := Heap.empty |}.

(** ** Executions: accepted blocks are added, and the goroutine takes steps *)
Inductive step (spare : nat → nat) (accepted : BlockGraph → Prop) : graph → graph → Prop :=
  | step_add g bg g' : accepted bg → Add g bg = Ok (Some g') → step spare accepted g g'
  | step_run g g' : run_step spare g = Ok (Some g') → step spare accepted g g'.

Definition reachable (spare : nat → nat) (accepted : BlockGraph → Prop) (cfg : Config)
    : graph → Prop :=
  rtc (step spare accepted) (New cfg).
End Graph.
