(* ===== verification/Determinism.v ===== *)
(** * The order in which Go iterates over maps does not matter

    [processMessage] ranges over the view-change votes, [process] over the recorded delays
    and [deliverRound] over the decisions of a round.  Go iterates over maps in an order of its
    own; these results do not depend on it. *)

From S2P Require Import Prelude Messages Block State Graph.
Import Graph.

Lemma pick_hash_perm l l' : l ≡ₚ l' → ∀ h, pick_hash h l = pick_hash h l'.
Proof.
  induction 1 as [|x l l' _ IH|x y l|l1 l2 l3 _ IH1 _ IH2]; intros h; simpl.
  - done.
  - by rewrite !IH.
  - destruct (decide (x = y)) as [->|]; [done|].
    destruct (decide (h = [])), (decide (x = h)), (decide (y = h));
      repeat case_bool_decide; done || (exfalso; subst; intuition congruence).
  - by rewrite IH1.
Qed.

Lemma foldl_max_perm l l' : l ≡ₚ l' → ∀ m : Z,
  foldl (λ tval val, if tval <? val then val else tval) m l
  = foldl (λ tval val, if tval <? val then val else tval) m l'.
Proof.
  induction 1 as [|x l l' _ IH|x y l|l1 l2 l3 _ IH1 _ IH2]; intros m; simpl; [done|done| |by rewrite IH1].
  f_equal. destruct (Z.ltb_spec m x), (Z.ltb_spec m y), (Z.ltb_spec x y), (Z.ltb_spec y x);
    repeat match goal with |- context [?a <? ?b] => destruct (Z.ltb_spec a b) end; lia.
Qed.

Lemma merge_sort_perm (l l' : list Z) : l ≡ₚ l' → merge_sort Z.le l = merge_sort Z.le l'.
Proof.
  intros Hp. apply (StronglySorted_unique Z.le); [apply (StronglySorted_merge_sort Z.le)..|].
  by rewrite !merge_sort_Permutation.
Qed.

Theorem map_order_irrelevant par vals vals' hvals hvals' hash :
  vals ≡ₚ vals' → hvals ≡ₚ hvals' →
  timeout_of par vals = timeout_of par vals' ∧ pick_hash hash hvals = pick_hash hash hvals'.
Proof.
  intros Hv Hh. split; [|by apply pick_hash_perm]. unfold timeout_of.
  by rewrite (Permutation_length Hv), (merge_sort_perm _ _ Hv), (foldl_max_perm _ _ Hv).
Qed.

#[local] Instance hash_le_total : Total hash_le.
Proof. intros a b. apply bytes_le_total. Qed.
#[local] Instance hash_le_trans : Transitive hash_le.
Proof. intros a b c. apply bytes_le_trans. Qed.

(** C11: The blocks of a delivered round do not depend on the order in which Go iterates over
    the map of decisions, when the hashes differ: any order gives the same list, strictly
    ascending by hash. *)
Theorem delivered_order_irrelevant round (hashes : gmap Z bytes) l :
  l ≡ₚ map_to_list hashes → NoDup (Hash <$> round_blocks round l) →
  sort_blocks (round_blocks round l) = sort_blocks (round_blocks round (map_to_list hashes)) ∧
  StronglySorted (λ a b, bytes_lt (Hash a) (Hash b)) (sort_blocks (round_blocks round l)).
Proof.
  intros Hp Hnd. assert (round_blocks round l ≡ₚ round_blocks round (map_to_list hashes)) as Hb
    by (unfold round_blocks; by rewrite Hp).
  assert (∀ a b, a ∈ round_blocks round l → b ∈ round_blocks round l → Hash a = Hash b → a = b) as Hinj.
  { intros a b Ha Hb' E. apply list_elem_of_lookup in Ha as [i Hi], Hb' as [j Hj].
    assert (i = j) as -> by (eapply (NoDup_lookup _ i j (Hash a) Hnd); rewrite list_lookup_fmap;
      [by rewrite Hi|by rewrite Hj, E]). congruence. }
  unfold sort_blocks. split.
  - apply (StronglySorted_unique_strong hash_le); [|apply (StronglySorted_merge_sort hash_le)..|].
    + intros a b. rewrite !merge_sort_Permutation, <- Hb. intros Ha Hb' H1 H2.
      apply Hinj; [done..|by apply bytes_le_antisym].
    + by rewrite !merge_sort_Permutation.
  - pose proof (StronglySorted_merge_sort hash_le (round_blocks round l)) as Hs.
    assert (NoDup (Hash <$> merge_sort hash_le (round_blocks round l))) as Hnd'
      by (by rewrite merge_sort_Permutation).
    clear -Hs Hnd'. induction Hs as [|a bs _ IH Ha]; [constructor|]. rewrite fmap_cons in Hnd'.
    apply NoDup_cons in Hnd' as [Hn Hnd']. constructor; [by apply IH|]. rewrite Forall_forall in Ha.
    apply Forall_forall. intros b Hb. apply bytes_lt_iff. split; [by apply Ha|].
    intros E. apply Hn. rewrite E. by apply list_elem_of_fmap_2.
Qed.
