(* ===== verification/Deliver.v ===== *)
(** * Delivery of decided rounds (src/blockmania/graph.go: deliver, deliverRound)

    Rounds are delivered one after the other, each once and only when every
    peer has a decision for it; the blocks of a round come sorted by hash; a
    recorded decision is never replaced; delivery terminates. *)

From S2P Require Import Prelude Bitset Messages Block State Graph.
Import Graph.

(** ** Vocabulary *)

(** [n] rounds counting up from [r], in 64-bit arithmetic. *)
Definition rounds_from (r : Z) (n : nat) : list Z := (λ i, u64 (r + Z.of_nat i)) <$> seq 0 n.

(** What a client of [Graph] may rely on for every delivered round. *)
Record interpreted_ok (n : Z) (i : Interpreted) : Prop := {
  io_sorted : StronglySorted hash_le (in_Blocks i);
  io_nodes : NoDup (Node <$> in_Blocks i);
  io_blocks : Forall (λ b, Round b = in_Round i ∧ Hash b ≠ []) (in_Blocks i);
  io_count : Z.of_nat (length (in_Blocks i)) ≤ n }.

(** The round the graph waits for is not complete: a complete one is delivered
    at once. *)
Definition no_backlog (g : graph) : Prop :=
  ∀ hs, g_resolved g !! g_round g = Some hs → Z.of_nat (size hs) ≠ peerCount (g_par g).

(** [later g g']: what delivery can have done between [g] and [g']. *)
Record later (g g' : graph) : Prop := {
  lt_par : g_par g' = g_par g;
  lt_delivered : ∃ l, g_delivered g' = g_delivered g ++ l ∧
     in_Round <$> l = rounds_from (g_round g) (length l) ∧
     Forall (interpreted_ok (peerCount (g_par g))) l ∧
     g_round g' = u64 (g_round g + Z.of_nat (length l)) }.

Lemma rounds_from_app r n m :
  rounds_from r (n + m) = rounds_from r n ++ rounds_from (u64 (r + Z.of_nat n)) m.
Proof.
  unfold rounds_from. rewrite seq_app, fmap_app. f_equal. simpl.
  pose proof (fmap_add_seq n 0 m) as E. rewrite Nat.add_0_r in E. rewrite <- E.
  rewrite <- list_fmap_compose. apply list_fmap_ext; intros _ i _. simpl.
  unfold u64. rewrite Zplus_mod_idemp_l. f_equal. lia.
Qed.

Lemma later_refl g : is_u64 (g_round g) → later g g.
Proof.
  intros H. split; [done|]. exists []. rewrite app_nil_r. split_and!; try done. simpl.
  rewrite Z.add_0_r, u64_small; done.
Qed.

Lemma later_trans g1 g2 g3 : later g1 g2 → later g2 g3 → later g1 g3.
Proof.
  intros [P1 (l1 & D1 & C1 & F1 & R1)] [P2 (l2 & D2 & C2 & F2 & R2)].
  split; [congruence|]. exists (l1 ++ l2). rewrite D2, D1, app_assoc, fmap_app, length_app.
  rewrite rounds_from_app, <- R1, <- C1, <- C2. split_and!; try done.
  - apply Forall_app; split; [done|]. by rewrite <- P1.
  - rewrite R2, R1. unfold u64. rewrite Zplus_mod_idemp_l. f_equal. lia.
Qed.

Lemma later_round g g' : later g g' → is_u64 (g_round g').
Proof. intros [_ (l & _ & _ & _ & ->)]. apply u64_range. Qed.

(** ** The order of a round's blocks *)
#[export] Instance hash_le_trans : Transitive hash_le.
Proof. intros a b c. apply bytes_le_trans. Qed.
#[export] Instance hash_le_total : Total hash_le.
Proof. intros a b. apply bytes_le_total. Qed.

Lemma sort_blocks_sorted l : StronglySorted hash_le (sort_blocks l).
Proof. apply (StronglySorted_merge_sort hash_le). Qed.

Lemma sort_blocks_perm l : sort_blocks l ≡ₚ l.
Proof. apply merge_sort_Permutation. Qed.

Lemma round_blocks_elem r l b :
  b ∈ round_blocks r l ↔ Round b = r ∧ Hash b ≠ [] ∧ (Node b, Hash b) ∈ l.
Proof.
  unfold round_blocks. rewrite list_elem_of_omap. split.
  - intros ([n h] & Hin & E). case_bool_decide; simplify_eq/=. done.
  - destruct b as [h n r']; simpl. intros (-> & Hh & Hin). exists (n, h).
    rewrite bool_decide_eq_false_2 by done. done.
Qed.

Lemma round_blocks_cons r n h l :
  round_blocks r ((n, h) :: l) =
  if bool_decide (h = []) then round_blocks r l else mkBlockID h n r :: round_blocks r l.
Proof. unfold round_blocks; simpl. by case_bool_decide. Qed.

Lemma round_blocks_nodes r l : Node <$> round_blocks r l = (filter (λ p, p.2 ≠ []) l).*1.
Proof.
  induction l as [|[n h] l IH]; [done|]. rewrite round_blocks_cons, filter_cons.
  case_bool_decide; [rewrite decide_False by tauto; done|].
  rewrite decide_True, !fmap_cons by done. by f_equal.
Qed.

(** One delivered round keeps its promise. *)
Lemma interpreted_ok_round hashes round c n :
  Z.of_nat (size hashes) ≤ n →
  interpreted_ok n (mkInterpreted (sort_blocks (round_blocks round (map_to_list hashes))) c round).
Proof.
  intros Hn. split; simpl.
  - apply sort_blocks_sorted.
  - rewrite (fmap_Permutation _ _ _ (sort_blocks_perm _)), round_blocks_nodes.
    eapply (sublist_NoDup _ (map_to_list hashes).*1); [apply NoDup_fst_map_to_list|].
    apply fmap_sublist, sublist_filter.
  - apply Forall_forall. intros b. rewrite sort_blocks_perm, round_blocks_elem. naive_solver.
  - rewrite sort_blocks_perm. rewrite <- (length_fmap Node), round_blocks_nodes, length_fmap.
    pose proof (length_filter (λ p, p.2 ≠ []) (map_to_list hashes)).
    rewrite length_map_to_list in *. lia.
Qed.

(** ** One call of [deliverRound] *)

(** The graph after one iteration of [deliverRound], before the recursive call. *)
Definition round_done (g : graph) (round : Z) (hashes : gmap Z bytes) (first : blockInfo) : graph :=
  let '(bs, mx, st, consumed) :=
    consume round (g_blocks g) (g_max g) (g_statess g)
      (u64 (Round (bg_Block (info_data first)) - 1)) in
  mkGraph (g_par g) bs
    (g_delivered g ++
       [mkInterpreted (sort_blocks (round_blocks round (map_to_list hashes))) consumed round])
    (g_entries g) mx (delete round (g_resolved g)) (u64 (g_round g + 1)) st (g_heap g).

Lemma deliverRound_S fuel g round hashes :
  deliverRound (S fuel) g round hashes =
  first ← or_panic (head (g_blocks g));
  let g' := round_done g round hashes first in
  match g_resolved g' !! u64 (round + 1) with
  | Some hs => if Z.of_nat (size hs) =? peerCount (g_par g')
               then deliverRound fuel g' (u64 (round + 1)) hs else Ok g'
  | None => Ok g'
  end.
Proof.
  unfold deliverRound at 1; fold deliverRound. unfold round_done. simpl.
  destruct (head (g_blocks g)) as [first|]; simpl; [|done].
  by destruct (consume _ _ _ _ _) as [[[bs mx] st] c].
Qed.

(** What a delivery leaves alone: it only drops blocks and what belongs to them. *)
Record shrinks (g g' : graph) : Prop := {
  sh_heap : g_heap g' = g_heap g;
  sh_entries : g_entries g' = g_entries g;
  sh_statess : g_statess g' ⊆ g_statess g;
  sh_max : g_max g' ⊆ g_max g;
  sh_resolved : g_resolved g' ⊆ g_resolved g;
  sh_blocks : g_blocks g' `suffix_of` g_blocks g }.

Lemma shrinks_trans g1 g2 g3 : shrinks g1 g2 → shrinks g2 g3 → shrinks g1 g3.
Proof. intros [] []. split; (etransitivity; eauto) || congruence. Qed.

Lemma forget_sub {A} (m : gmap BlockID A) bg : forget m bg ⊆ m.
Proof.
  unfold forget. trans (delete (bg_Block bg) m); [|apply delete_subseteq].
  generalize (delete (bg_Block bg) m); intros m'. clear m. revert m'.
  induction (bg_Deps bg) as [|d ds IH]; intros m'; simpl; [done|].
  etransitivity; [apply IH|apply delete_subseteq].
Qed.

(** [consume] drops the longest prefix of blocks whose [max] is at most [round]. *)
Lemma consume_spec round bs mx st c :
  is_u64 c →
  ∃ pre post mx' st',
    consume round bs mx st c = (post, mx', st', u64 (c + Z.of_nat (length pre))) ∧
    bs = pre ++ post ∧ Forall (λ i, info_max i ≤ round) pre ∧
    (∀ i, head post = Some i → round < info_max i) ∧ mx' ⊆ mx ∧ st' ⊆ st ∧
    mx' = foldl (λ m i, forget m (info_data i)) mx pre ∧
    st' = foldl (λ m i, forget m (info_data i)) st pre.
Proof.
  revert mx st c; induction bs as [|info bs IH]; intros mx st c Hc; simpl.
  { exists [], [], mx, st. simpl. rewrite Z.add_0_r, u64_small by done. by split_and!. }
  destruct (Z.ltb_spec round (info_max info)).
  { exists [], (info :: bs), mx, st. simpl. rewrite Z.add_0_r, u64_small by done.
    split_and!; try done. by intros ? [= <-]. }
  destruct (IH (forget mx (info_data info)) (forget st (info_data info)) (u64 (c + 1)))
    as (pre & post & mx' & st' & E & -> & Hpre & Hpost & Hmx & Hst & -> & ->); [apply u64_range|].
  exists (info :: pre), post, (foldl (λ m i, forget m (info_data i)) mx (info :: pre)),
    (foldl (λ m i, forget m (info_data i)) st (info :: pre)).
  rewrite E. split_and!; eauto.
  - apply (f_equal2 pair); [done|]. unfold u64. rewrite Zplus_mod_idemp_l. f_equal. simpl length. lia.
  - etransitivity; [done|apply forget_sub].
  - etransitivity; [done|apply forget_sub].
Qed.

Lemma round_done_shrinks g round hs first : shrinks g (round_done g round hs first).
Proof.
  unfold round_done.
  destruct (consume_spec round (g_blocks g) (g_max g) (g_statess g)
    (u64 (Round (bg_Block (info_data first)) - 1)) (u64_range _))
    as (pre & post & mx & st & -> & E & _ & _ & Hmx & Hst & _).
  split; simpl; try done.
  - apply delete_subseteq.
  - rewrite E. by exists pre.
Qed.

Lemma round_done_later g round hs first :
  round = g_round g → is_u64 round → Z.of_nat (size hs) ≤ peerCount (g_par g) →
  later g (round_done g round hs first).
Proof.
  intros -> Hr Hs. unfold round_done. destruct (consume _ _ _ _ _) as [[[bs mx] st] c].
  split; [done|]. eexists [_]; split_and!; simpl; [done|..].
  - unfold rounds_from; simpl. by rewrite Z.add_0_r, u64_small.
  - constructor; [|done]. by apply interpreted_ok_round.
  - done.
Qed.

Lemma round_done_round g round hs first : g_round (round_done g round hs first) = u64 (g_round g + 1).
Proof. unfold round_done. by destruct (consume _ _ _ _ _) as [[[bs mx] st] c]. Qed.
Lemma round_done_resolved g round hs first :
  g_resolved (round_done g round hs first) = delete round (g_resolved g).
Proof. unfold round_done. by destruct (consume _ _ _ _ _) as [[[bs mx] st] c]. Qed.
Lemma round_done_par g round hs first : g_par (round_done g round hs first) = g_par g.
Proof. unfold round_done. by destruct (consume _ _ _ _ _) as [[[bs mx] st] c]. Qed.

Lemma deliverRound_ok fuel g round hs g' :
  round = g_round g → is_u64 round → Z.of_nat (size hs) = peerCount (g_par g) →
  deliverRound fuel g round hs = Ok g' →
  later g g' ∧ shrinks g g' ∧ no_backlog g'.
Proof.
  revert g round hs; induction fuel as [|fuel IH]; intros g round hs Hr Hu Hs H; [done|].
  rewrite deliverRound_S in H. apply bind_Ok in H as (first & _ & H). cbv zeta in H.
  set (g1 := round_done g round hs first) in *.
  assert (later g g1) as L1 by (apply round_done_later; auto; lia).
  pose proof (round_done_shrinks g round hs first : shrinks g g1) as S1.
  assert (g_round g1 = u64 (round + 1)) as R1 by (unfold g1; by rewrite round_done_round, Hr).
  destruct (g_resolved g1 !! u64 (round + 1)) as [hs'|] eqn:E.
  - destruct (Z.eqb_spec (Z.of_nat (size hs')) (peerCount (g_par g1))) as [Heq|Hne].
    + destruct (IH _ _ _ (eq_sym R1) (u64_range _) Heq H) as (L & S & N).
      split_and!; [by eapply later_trans|by eapply shrinks_trans|done].
    + injection H as <-. split_and!; [done..|]. intros hs'' Hl. rewrite R1 in Hl. congruence.
  - injection H as <-. split_and!; [done..|]. intros hs'' Hl. rewrite R1 in Hl. congruence.
Qed.

(** The fuel of [deliver] is enough. *)
Lemma deliverRound_terminates fuel g round hs :
  is_Some (g_resolved g !! round) → (size (g_resolved g) < fuel)%nat →
  deliverRound fuel g round hs ≠ Halt Diverge.
Proof.
  revert g round hs; induction fuel as [|fuel IH]; intros g round hs [h0 Hin] Hf; [lia|].
  rewrite deliverRound_S. destruct (head (g_blocks g)) as [first|]; simpl; [|done].
  set (g1 := round_done g round hs first).
  destruct (g_resolved g1 !! u64 (round + 1)) as [hs'|] eqn:E; [|done].
  destruct (_ =? _); [|done]. apply IH; [by rewrite E|].
  unfold g1. rewrite round_done_resolved, map_size_delete, Hin. 
  assert (size (g_resolved g) ≠ 0%nat) by (rewrite map_size_ne_0_lookup; eauto). lia.
Qed.

(** ** [deliver] *)

(** The decisions of a round after one more vote outcome. *)
Definition add_decision (g : graph) (node round : Z) (hash : bytes) : outcome (gmap Z bytes) :=
  match g_resolved g !! round with
  | Some hashes =>
      match hashes !! node with
      | Some curhash => if bool_decide (curhash ≠ hash) then Halt Fatal else Ok hashes
      | None => _ ← debug g (BlockID_String (mkBlockID hash node round)); Ok (<[node := hash]> hashes)
      end
  | None => Ok {[node := hash]}
  end.

Lemma add_decision_Ok g node round hash hs :
  add_decision g node round hash = Ok hs →
  hs = <[node := hash]> (default ∅ (g_resolved g !! round)) ∧
  (∀ n h, g_resolved g !! round ≫= (.!! n) = Some h → hs !! n = Some h).
Proof.
  unfold add_decision. intros H.
  destruct (g_resolved g !! round) as [hs0|] eqn:E; simpl.
  - destruct (hs0 !! node) as [cur|] eqn:En.
    + destruct (decide (cur = hash)) as [->|]; [|by rewrite bool_decide_eq_true_2 in H].
      rewrite bool_decide_eq_false_2 in H by (intros F; by apply F). simplify_eq.
      by rewrite insert_id.
    + apply debug_bind in H. simplify_eq. split; [done|]. intros n h Hn.
      rewrite lookup_insert_ne; [done|]. intros ->. congruence.
  - simplify_eq. done.
Qed.

Lemma deliver_ok g node round hash g' :
  is_u64 (g_round g) → deliver g node round hash = Ok g' →
  (round < g_round g ∧ g' = g) ∨
  ∃ hs g1, g_round g ≤ round ∧ add_decision g node round hash = Ok hs ∧
    g1 = set_resolved g (<[round := hs]> (g_resolved g)) ∧
    later g g' ∧ shrinks g1 g' ∧
    ((g' = g1 ∧ (round = g_round g → Z.of_nat (size hs) ≠ peerCount (g_par g))) ∨
     (round = g_round g ∧ no_backlog g')).
Proof.
  intros Hu H. unfold deliver in H.
  destruct (Z.ltb_spec round (g_round g)) as [|Hr]; [left; naive_solver|].
  right. apply bind_Ok in H as (hs & Ehs & H). cbv zeta in H.
  set (g1 := set_resolved g (<[round := hs]> (g_resolved g))) in *.
  exists hs, g1. split; [done|]. split; [exact Ehs|]. split; [done|].
  assert (later g g1) as L1.
  { pose proof (later_refl g Hu) as [P D]. by split. }
  change (g_round g1) with (g_round g) in H. change (g_par g1) with (g_par g) in H.
  destruct (Z.eqb_spec round (g_round g)) as [Heq|Hne]; cbn [negb] in H;
    [|injection H as <-; split_and!; [done|by split|left; split; [done|lia]]].
  destruct (Z.eqb_spec (Z.of_nat (size hs)) (peerCount (g_par g))) as [Hs|Hs];
    [|injection H as <-; split_and!; [done|by split|by left]].
  destruct (deliverRound_ok (deliver_fuel g1) g1 round hs g') as (L & S & N); try done.
  { by rewrite Heq. }
  split_and!; [by eapply later_trans|done|by right].
Qed.

Lemma deliver_terminates g node round hash : deliver g node round hash ≠ Halt Diverge.
Proof.
  unfold deliver. destruct (_ <? _); [done|].
  change (match g_resolved g !! round with
          | Some hashes => _ | None => _ end) with (add_decision g node round hash).
  destruct (add_decision g node round hash) as [hs|w] eqn:E; simpl.
  - destruct (negb _); [done|]. destruct (_ =? _); [|done].
    apply deliverRound_terminates; [|unfold deliver_fuel; lia].
    simpl. rewrite lookup_insert_eq. by eexists.
  - unfold add_decision in E. repeat case_match; try naive_solver.
    rewrite debug_block in E. by destruct (_ && _); simplify_eq/=.
Qed.
