(* ===== verification/Updates.v ===== *)
(** * Every step of the interpreter changes the delivery state only by [deliver]

    [updates g g'] says that [g'] comes from [g] by calls of [deliver] and by
    changes of the other fields.  Every function of the interpreter is shown to
    be such a sequence, so what [deliver] keeps, the whole program keeps. *)

From S2P Require Import Prelude Bitset Messages Block State Graph Deliver.
Import Graph.

(** [same_delivery]: the decisions and what was delivered have not changed. *)
Definition same_delivery (g g' : graph) : Prop :=
  g_par g' = g_par g ∧ g_delivered g' = g_delivered g ∧
  g_resolved g' = g_resolved g ∧ g_round g' = g_round g.

Inductive update : graph → graph → Prop :=
  | up_deliver g node round hash g' : deliver g node round hash = Ok g' → update g g'
  | up_other g g' : same_delivery g g' → g_blocks g' = g_blocks g → update g g'.

Abbreviation updates := (rtc update).

Create HintDb updates.

Lemma updates_deliver g node round hash g' : deliver g node round hash = Ok g' → updates g g'.
Proof. intros. eapply rtc_once, up_deliver; eauto. Qed.

Lemma updates_same g g' : same_delivery g g' → g_blocks g' = g_blocks g → updates g g'.
Proof. intros. by apply rtc_once, up_other. Qed.

Lemma updates_set_heap g h : updates g (set_heap g h).
Proof. by apply updates_same. Qed.
Lemma updates_set_statess g st : updates g (set_statess g st).
Proof. by apply updates_same. Qed.
Lemma updates_set_entries g l : updates g (set_entries g l).
Proof. by apply updates_same. Qed.

#[export] Hint Resolve rtc_refl updates_deliver updates_set_heap updates_set_statess
  updates_set_entries : updates.

Section Updates.
Context (spare : nat → nat).

Lemma append_timeout_updates g s k x s' g' :
  append_timeout spare g s k x = (s', g') → updates g g'.
Proof. unfold append_timeout. destruct (Heap.append _ _ _ _). intros [= <- <-]. eauto with updates. Qed.

Lemma find_vcs_Ok g s key loc s' g' :
  find_vcs g s key = Ok (loc, s', g') →
  (State.get (data s) key = Some (VVcs loc) ∧ s' = s ∧ g' = g) ∨
  (State.get (data s) key = None ∧ loc = length (h_vcs (g_heap g)) ∧
   s' = State.set_data s (State.put (data s) key (VVcs loc)) ∧
   g' = set_heap g (Heap.alloc_vcs (g_heap g)).2).
Proof. unfold find_vcs, Heap.alloc_vcs. intros H. repeat case_match; simplify_eq/=; auto. Qed.

Lemma find_vcs_updates g s key loc s' g' : find_vcs g s key = Ok (loc, s', g') → updates g g'.
Proof. intros [(_ & _ & ->)|(_ & _ & _ & ->)]%find_vcs_Ok; eauto with updates. Qed.

Lemma processMessage_updates g s sd rc o msg r s' g' :
  processMessage spare g s sd rc o msg = Ok (r, s', g') → updates g g'.
Proof.
  unfold processMessage. intros H. destruct (Msg.NodeRound msg) as [node round].
  destruct msg; go_inv H; simplify_eq;
    eauto using append_timeout_updates, find_vcs_updates with updates.
  all: etrans; [by eapply find_vcs_updates|]; eauto with updates.
Qed.

Lemma process_one_updates sd rc o a msg a' :
  process_one spare sd rc o a msg = Ok a' → updates a.1.2 a'.1.2.
Proof.
  destruct a as [[[s p] g] out]. unfold process_one. intros H. go_inv H; simplify_eq/=;
    eauto using processMessage_updates with updates.
Qed.

Lemma drain_updates fuel sd rc o i a a' :
  drain spare fuel sd rc o i a = Ok a' → updates a.1.2 a'.1.2.
Proof.
  revert i a; induction fuel as [|fuel IH]; intros i a H; destruct a as [[[s p] g] out];
    simpl in H; destruct (out !! i); try by simplify_eq.
  apply bind_Ok in H as (a1 & H1 & H).
  etrans; [by apply process_one_updates in H1|by eapply IH].
Qed.

Lemma processMessages_updates g s p sd rc o msgs a :
  processMessages spare g s p sd rc o msgs = Ok a → updates g a.1.2.
Proof.
  unfold processMessages. intros (a1 & H1 & H)%bind_Ok. destruct a1 as [[[s1 p1] g1] out1].
  etrans; [|by apply drain_updates in H].
  apply (range_inv (λ x, updates g x.1.2)) in H1; [done..|]. intros a0 x a0' _ Ha H2.
  etrans; [done|]. by apply process_one_updates in H2.
Qed.

Lemma process_updates g e g' : process spare g e = Ok g' → updates g g'.
Proof.
  unfold process. intros H. cbv beta zeta in H. apply debug_bind in H. apply bind_Ok in H as (tval & _ & H).
  destruct (foldl _ _ _) as [s1 g1] eqn:E1.
  assert (updates g g1) as U1.
  { clear H. revert E1. generalize (peers (g_par g)) as l.
    generalize (State.set_timeout (update_delay (findOrCreateState g e) (Round (e_block e)) (e_deps e)) tval).
    intros s0 l. revert s0 g. induction l as [|x l IH]; intros s0 g; simpl; [naive_solver|].
    destruct (append_timeout _ _ _ _ _) as [s2 g2] eqn:E2. intros E1.
    etrans; [by eapply append_timeout_updates|eauto]. }
  apply bind_Ok in H as ([s2 out] & _ & H).
  apply bind_Ok in H as ([[[s3 p3] g3] resp] & H3 & H).
  apply bind_Ok in H as ([[[s4 p4] g4] out4] & H4 & H). injection H as <-.
  apply processMessages_updates in H3; simpl in H3.
  assert (updates g3 g4) as U4.
  { apply (range_inv (λ x, updates g3 x.1.2)) in H4; [done..|].
    intros [[[s5 p5] g5] out5] x a' _ Ha H5. etrans; [done|]. unfold process_dep in H5.
    apply debug_bind in H5. apply bind_Ok in H5 as ([[[s6 p6] g6] r6] & H6 & H5). simplify_eq/=.
    by apply processMessages_updates in H6. }
  etrans; [done|]. etrans; [done|]. etrans; [done|]. apply updates_set_statess.
Qed.

Lemma register_same g bg : same_delivery g (register g bg).
Proof. unfold register. by destruct (scan_deps _ _ _ _). Qed.

(** A step registers a block and then only updates. *)
Lemma run_step_updates g g' :
  run_step spare g = Ok (Some g') →
  ∃ bg rest, g_entries g = bg :: rest ∧ updates (register (set_entries g rest) bg) g'.
Proof.
  unfold run_step. intros H. destruct (g_entries g) as [|bg rest]; [done|]. cbv zeta in H.
  apply bind_Ok in H as ([] & _ & H). apply bind_Ok in H as (g1 & H1 & H). apply bind_Ok in H as (g2 & H2 & H). simplify_eq.
  exists bg, rest. split; [done|]. etrans; [|by eapply process_updates].
  apply (range_inv (updates (register (set_entries g rest) bg))) in H1; [done..|].
  intros. etrans; [done|by eapply process_updates].
Qed.

(** What deliveries keep, and what depends on the decisions only, holds in every
    reachable graph. *)
Lemma reachable_inv (P : graph → Prop) accepted g g' :
  (∀ g g', P g → same_delivery g g' → P g') →
  (∀ g node round hash g', P g → deliver g node round hash = Ok g' → P g') →
  P g → rtc (step spare accepted) g g' → P g'.
Proof.
  intros Hsame Hdel Hg. 
  assert (∀ g g', P g → updates g g' → P g') as Hup.
  { intros g1 g2 Hg1. induction 1 as [|x y z []]; eauto. }
  induction 1 as [|x y z Hst _ IH]; [done|]. apply IH. destruct Hst as [g1 bg g2 _ Ha|g1 g2 Hr].
  - apply debug_bind in Ha. case_match; simplify_eq. eapply Hsame; [exact Hg|done].
  - apply run_step_updates in Hr as (bg & rest & _ & Hu). eapply Hup; [|done].
    eapply Hsame; [|apply register_same]. eapply Hsame; [exact Hg|done].
Qed.
End Updates.
