(* ===== verification/Ordering.v ===== *)
(** * What the interpreter delivers, over whole executions

    The invariant of the delivery state ([delivery_inv]) and its consequences:
    rounds come in order and once each, a complete round is never kept back,
    and decisions are stable. *)

From S2P Require Import Prelude Bitset Messages Block State Graph Deliver Updates.
Import Graph.

Definition first_round (cfg : Config) : Z := u64 (cfg_LastInterpreted cfg + 1).

(** The rounds that have decisions have not been delivered. *)
Definition fresh_rounds (g : graph) : Prop :=
  ∀ r hs, g_resolved g !! r = Some hs → 0 ≤ r ∧ g_round g ≤ r.

Record delivery_inv (cfg : Config) (g : graph) : Prop := {
  di_par : g_par g = mk_params cfg;
  di_rounds : in_Round <$> g_delivered g
              = rounds_from (first_round cfg) (length (g_delivered g));
  di_round : g_round g = u64 (first_round cfg + Z.of_nat (length (g_delivered g)));
  di_ok : Forall (interpreted_ok (peerCount (mk_params cfg))) (g_delivered g);
  di_backlog : no_backlog g;
  di_fresh : fresh_rounds g }.

(** [decided g r n h]: block [h] of node [n] in round [r] has been agreed on,
    and is recorded or already delivered. *)
Definition decided (g : graph) (r n : Z) (h : bytes) : Prop :=
  h ≠ [] ∧
  (g_resolved g !! r ≫= (.!! n) = Some h ∨
   ∃ i, i ∈ g_delivered g ∧ in_Round i = r ∧ mkBlockID h n r ∈ in_Blocks i).

Lemma fresh_round_done g round hs first :
  round = g_round g → is_u64 round → fresh_rounds g → fresh_rounds (round_done g round hs first).
Proof.
  intros Hr Hu Hf r hs'. rewrite round_done_resolved, round_done_round, lookup_delete_Some.
  intros [Hne [? ?]%Hf]. subst round. uz.
Qed.

Lemma decided_round_done g round hs first r n h :
  g_resolved g !! round = Some hs → decided g r n h → decided (round_done g round hs first) r n h.
Proof.
  intros Hhs [Hh H]. split; [done|]. rewrite round_done_resolved. unfold round_done.
  destruct (consume _ _ _ _ _) as [[[bs mx] st] c]; simpl.
  destruct H as [H|(i & Hi & Hr & Hb)]; [|right; exists i; set_solver].
  destruct (decide (r = round)) as [->|]; [|left; by rewrite lookup_delete_ne].
  right. eexists; split; [apply elem_of_app; right; by left|]. simpl. split; [done|].
  rewrite sort_blocks_perm. apply round_blocks_elem; simpl. split_and!; [done..|].
  apply elem_of_map_to_list. by rewrite Hhs in H.
Qed.

Lemma deliverRound_keeps fuel g round hs g' :
  round = g_round g → is_u64 round → g_resolved g !! round = Some hs →
  deliverRound fuel g round hs = Ok g' → fresh_rounds g →
  fresh_rounds g' ∧ ∀ r n h, decided g r n h → decided g' r n h.
Proof.
  revert g round hs; induction fuel as [|fuel IH]; intros g round hs Hr Hu Hhs H Hf; [done|].
  rewrite deliverRound_S in H. apply bind_Ok in H as (first & _ & H). cbv zeta in H.
  pose proof (fresh_round_done g round hs first Hr Hu Hf) as F1.
  pose proof (λ r n h, decided_round_done g round hs first r n h Hhs) as D1.
  pose proof (round_done_round g round hs first) as R1.
  set (g1 := round_done g round hs first) in *. rewrite <- Hr in R1.
  destruct (g_resolved g1 !! u64 (round + 1)) as [hs'|] eqn:E; [|naive_solver].
  destruct (_ =? _); [|naive_solver].
  destruct (IH g1 _ _ (eq_sym R1) (u64_range _) E H F1) as [F2 D2]. auto.
Qed.

Lemma deliver_keeps g node round hash g' :
  is_u64 (g_round g) → fresh_rounds g → deliver g node round hash = Ok g' →
  fresh_rounds g' ∧ ∀ r n h, decided g r n h → decided g' r n h.
Proof.
  intros Hu Hf H. unfold deliver in H.
  destruct (Z.ltb_spec round (g_round g)) as [|Hr]; [naive_solver|].
  apply bind_Ok in H as (hs & Ehs & H). apply add_decision_Ok in Ehs as [_ Hkeep].
  cbv zeta in H. set (g1 := set_resolved g (<[round := hs]> (g_resolved g))) in *.
  assert (fresh_rounds g1) as F1.
  { intros r hs'. simpl. rewrite lookup_insert_Some.
    intros [[<- _]|[_ [? ?]%Hf]]; [|done]. destruct Hu. lia. }
  assert (∀ r n h, decided g r n h → decided g1 r n h) as D1.
  { intros r n h [Hh [Hd|Hd]]; (split; [done|]); [left|by right]. simpl.
    destruct (decide (r = round)) as [->|];
      [rewrite lookup_insert_eq; simpl; auto|by rewrite lookup_insert_ne]. }
  change (g_round g1) with (g_round g) in H. change (g_par g1) with (g_par g) in H.
  destruct (Z.eqb_spec round (g_round g)) as [Heq|Hne]; cbn [negb] in H; [|naive_solver].
  destruct (_ =? _); [|naive_solver].
  destruct (deliverRound_keeps _ g1 _ _ _ Heq ltac:(by rewrite Heq)
    (lookup_insert_eq _ _ _) H F1) as [F2 D2].
  split; [done|]. intros. auto.
Qed.

(** ** The invariant *)
Lemma delivery_inv_New cfg : delivery_inv cfg (New cfg).
Proof.
  split; try done; simpl.
  rewrite Z.add_0_r. symmetry. apply u64_small, u64_range.
Qed.

Lemma delivery_inv_deliver cfg g node round hash g' :
  delivery_inv cfg g → deliver g node round hash = Ok g' → delivery_inv cfg g'.
Proof.
  intros [P R0 R K B F] H.
  assert (is_u64 (g_round g)) as Hu by (rewrite R; apply u64_range).
  pose proof (deliver_keeps _ _ _ _ _ Hu F H) as [F' _].
  destruct (deliver_ok _ _ _ _ _ Hu H)
    as [[_ ->]|(hs & g1 & Hr & Ehs & -> & L & S & C)]; [done|].
  pose proof L as [P' (l & D' & C' & K' & R')].
  split; [congruence|..|done].
  - rewrite D', fmap_app, length_app, rounds_from_app, <- R0, <- R, C'. done.
  - rewrite R', D', R, length_app. unfold u64. rewrite Zplus_mod_idemp_l. f_equal. lia.
  - rewrite D'. apply Forall_app. rewrite P in K'. done.
  - destruct C as [[-> Hs]|[_ N]]; [|done]. intros hs'; simpl.
    rewrite lookup_insert_Some. intros [[Hrd <-]|[_ Hl]]; [by apply Hs|by apply B].
Qed.

Lemma delivery_inv_same cfg g g' : delivery_inv cfg g → same_delivery g g' → delivery_inv cfg g'.
Proof.
  intros [] (P & D & R & N). split; rewrite ?P, ?D, ?N; try done.
  - unfold no_backlog. by rewrite P, R, N.
  - unfold fresh_rounds. by rewrite R, N.
Qed.

Lemma delivery_inv_reachable spare accepted cfg g :
  reachable spare accepted cfg g → delivery_inv cfg g.
Proof.
  apply reachable_inv; eauto using delivery_inv_New, delivery_inv_same, delivery_inv_deliver.
Qed.

(** Decisions are kept. *)
Lemma decided_steps spare accepted cfg g g' r n h :
  delivery_inv cfg g → rtc (step spare accepted) g g' → decided g r n h → decided g' r n h.
Proof.
  intros Hi Hs Hd.
  apply (reachable_inv spare (λ x, delivery_inv cfg x ∧ decided x r n h) accepted g g'); [..|done].
  - intros x y [Hx Hxd] Hxy. split; [by eapply delivery_inv_same|].
    unfold decided in *. by destruct Hxy as (_ & -> & -> & _).
  - intros x nd rd hs y [Hx Hxd] Hxy. split; [by eapply delivery_inv_deliver|].
    eapply deliver_keeps in Hxy; [by apply Hxy| |by apply di_fresh in Hx].
    rewrite (di_round _ _ Hx). apply u64_range.
  - done.
Qed.

(** Without a wrap-around the [k]-th delivered round is the [k]-th one from the start. *)
Definition no_wrap (cfg : Config) (g : graph) : Prop :=
  first_round cfg + Z.of_nat (length (g_delivered g)) < 2 ^ 64.

Lemma delivered_round_at cfg g k i :
  delivery_inv cfg g → no_wrap cfg g → g_delivered g !! k = Some i →
  in_Round i = first_round cfg + Z.of_nat k.
Proof.
  intros Hi Hw Hk. pose proof (lookup_lt_Some _ _ _ Hk).
  assert ((in_Round <$> g_delivered g) !! k = Some (in_Round i)) as E
    by (by rewrite list_lookup_fmap, Hk).
  rewrite (di_rounds _ _ Hi) in E. unfold rounds_from in E.
  rewrite list_lookup_fmap, lookup_seq_lt in E by done. simpl in E. injection E as <-.
  pose proof (u64_range (cfg_LastInterpreted cfg + 1)).
  unfold no_wrap, first_round in *. apply u64_small. unfold is_u64 in *. lia.
Qed.

Lemma delivered_before cfg g i :
  delivery_inv cfg g → no_wrap cfg g → i ∈ g_delivered g → in_Round i < g_round g.
Proof.
  intros Hi Hw (k & Hk)%list_elem_of_lookup. pose proof (lookup_lt_Some _ _ _ Hk).
  rewrite (delivered_round_at _ _ _ _ Hi Hw Hk), (di_round _ _ Hi).
  pose proof (u64_range (cfg_LastInterpreted cfg + 1)) as Hf. fold (first_round cfg) in Hf.
  unfold no_wrap, is_u64 in *. rewrite u64_small; unfold is_u64; lia.
Qed.

Lemma delivered_inj cfg g i j :
  delivery_inv cfg g → no_wrap cfg g → i ∈ g_delivered g → j ∈ g_delivered g →
  in_Round i = in_Round j → i = j.
Proof.
  intros Hi Hw (k & Hk)%list_elem_of_lookup (l & Hl)%list_elem_of_lookup E.
  rewrite (delivered_round_at _ _ _ _ Hi Hw Hk), (delivered_round_at _ _ _ _ Hi Hw Hl) in E.
  assert (k = l) as -> by lia. congruence.
Qed.

(** One decision per node and round, as long as the round counter has not wrapped. *)
Lemma decided_unique cfg g r n h h' :
  delivery_inv cfg g → no_wrap cfg g → decided g r n h → decided g r n h' → h = h'.
Proof.
  intros Hi Hw [_ H] [_ H'].
  assert (∀ i, g_resolved g !! r ≫= (.!! n) ≠ None → i ∈ g_delivered g → in_Round i = r → False)
    as Hdisj.
  { intros i Hs Hin <-. destruct (g_resolved g !! in_Round i) as [hs|] eqn:E; [|done].
    apply (di_fresh _ _ Hi) in E. pose proof (delivered_before _ _ _ Hi Hw Hin). lia. }
  destruct H as [H|(i & Hin & Hr & Hb)], H' as [H'|(j & Hjn & Hs & Hc)].
  - congruence.
  - exfalso. eapply Hdisj; eauto. congruence.
  - exfalso. eapply Hdisj; eauto. congruence.
  - assert (i = j) as <- by (eapply delivered_inj; eauto; congruence).
    pose proof (proj1 (Forall_forall _ _) (di_ok _ _ Hi) i Hin) as [_ Hnd _ _].
    apply list_elem_of_lookup in Hb as [k Hk], Hc as [l Hl].
    assert (k = l) as <-; [|congruence].
    eapply NoDup_lookup; [exact Hnd|..]; rewrite list_lookup_fmap, ?Hk, ?Hl; done.
Qed.

(** ** The theorems *)
Section Theorems.
Context (spare : nat → nat) (accepted : BlockGraph → Prop) (cfg : Config).

(** C4: In every execution of the consensus graph the delivered rounds are the consecutive
    rounds that follow the last interpreted one, each once and in order, and the round the graph
    works on is the next one. *)
Theorem rounds_in_order g :
  reachable spare accepted cfg g →
  in_Round <$> g_delivered g
    = rounds_from (u64 (cfg_LastInterpreted cfg + 1)) (length (g_delivered g)) ∧
  g_round g = u64 (cfg_LastInterpreted cfg + 1 + Z.of_nat (length (g_delivered g))).
Proof.
  intros Hi%delivery_inv_reachable. split; [apply (di_rounds _ _ Hi)|].
  rewrite (di_round _ _ Hi). unfold first_round, u64. by rewrite Zplus_mod_idemp_l.
Qed.

Theorem delivered_rounds_ok g i :
  reachable spare accepted cfg g → i ∈ g_delivered g →
  interpreted_ok (Z.of_nat (length (cfg_Peers cfg))) i.
Proof.
  intros Hi%delivery_inv_reachable. by apply Forall_forall, (di_ok _ _ Hi).
Qed.

(** C5: A round for which every node has a decision never waits: in every reachable graph the
    current round misses the decision of some node, since a complete round is delivered in the
    step that completes it, together with the complete rounds after it. *)
Theorem complete_round_delivered g hs :
  reachable spare accepted cfg g → g_resolved g !! g_round g = Some hs →
  Z.of_nat (size hs) ≠ Z.of_nat (length (cfg_Peers cfg)).
Proof.
  intros Hi%delivery_inv_reachable Hl. pose proof (di_backlog _ _ Hi hs Hl) as H.
  by rewrite (di_par _ _ Hi) in H.
Qed.

(** C6: A decision is never changed: if a block of a node and round is decided, recorded or
    delivered, then in every later graph of the execution a decided block of that node and round
    is the same one. *)
Theorem decisions_stable g g' r n h h' :
  reachable spare accepted cfg g → rtc (step spare accepted) g g' →
  cfg_LastInterpreted cfg + 1 + Z.of_nat (length (g_delivered g')) < 2 ^ 64 →
  0 ≤ cfg_LastInterpreted cfg →
  decided g r n h → decided g' r n h' → h = h'.
Proof.
  intros Hr Hs Hw H0 Hd Hd'. pose proof Hr as Hi%delivery_inv_reachable.
  eapply (decided_unique cfg g').
  - apply (delivery_inv_reachable spare accepted). by eapply rtc_trans.
  - unfold no_wrap, first_round. rewrite u64_small; [lia|]. split; lia.
  - by eapply decided_steps.
  - done.
Qed.
End Theorems.
