(* ===== verification/Termination.v ===== *)
(** * The interpreter terminates

    [processMessages] iterates over a list its own body extends.  The response
    to a message has a smaller [rank] than the message, which bounds the loop;
    delivery recurses over the resolved rounds it removes.  So no step of the
    program runs out of the fuel the model gives it. *)

From S2P Require Import Prelude Bitset Messages Block State Graph Deliver.
Import Graph.

(** The computation ends, by a result or by a halt of the program. *)
Definition halts {A} (o : outcome A) : Prop := o ≠ Halt Diverge.

Create HintDb halts.

Lemma halts_Ok {A} (a : A) : halts (Ok a).
Proof. done. Qed.
Lemma halts_Panic {A} : halts (Halt Panic : outcome A).
Proof. done. Qed.
Lemma halts_Fatal {A} : halts (Halt Fatal : outcome A).
Proof. done. Qed.
Lemma halts_or_panic {A} (o : option A) : halts (or_panic o).
Proof. by destruct o. Qed.
Lemma halts_bind {A B} (m : outcome A) (f : A → outcome B) :
  halts m → (∀ a, m = Ok a → halts (f a)) → halts (m ≫= f).
Proof. destruct m; unfold halts; simpl; [eauto|congruence]. Qed.
Lemma halts_range {S A} (f : S → A → outcome S) s l :
  (∀ s x, halts (f s x)) → halts (range f s l).
Proof.
  intros Hf. revert s; induction l as [|x l IH]; intros s; simpl; [done|].
  apply halts_bind; [done|]. intros; apply IH.
Qed.

#[export] Hint Resolve halts_Ok halts_Panic halts_Fatal halts_or_panic : halts.

(** [halts] proves that a body ends when the functions it calls do. *)
Ltac halts_step :=
  match goal with
  | |- halts (mbind _ _) => apply halts_bind; [|intros]
  | |- halts (if ?b then _ else _) => destruct b
  | |- halts (let (_, _) := ?p in _) => destruct p
  | |- halts (match ?x with _ => _ end) => destruct x
  end.
Ltac halts := repeat (halts_step; cbv beta zeta); auto with halts.

Lemma halts_set_word ws v : halts (Bitset.set_word ws v).
Proof. unfold Bitset.set_word. halts. Qed.
#[export] Hint Resolve halts_set_word : halts.

Lemma halts_setPrepare b v : halts (Bitset.setPrepare b v).
Proof. unfold Bitset.setPrepare. halts. Qed.
Lemma halts_setCommit b v : halts (Bitset.setCommit b v).
Proof. unfold Bitset.setCommit. halts. Qed.
Lemma halts_hasCommit b v : halts (Bitset.hasCommit b v).
Proof. unfold Bitset.hasCommit, Bitset.test_word. halts. Qed.
Lemma halts_getView s n r : halts (State.getView s n r).
Proof. unfold State.getView. halts. Qed.
Lemma halts_put_nonnil {K A} `{Countable K} (m : option (gmap K A)) k v :
  halts (State.put_nonnil m k v).
Proof. unfold State.put_nonnil. halts. Qed.
Lemma halts_find_vcs g s k : halts (find_vcs g s k).
Proof. unfold find_vcs. halts. Qed.
Lemma halts_set_vcs h l k v : halts (Heap.set_vcs h l k v).
Proof. unfold Heap.set_vcs. halts. Qed.
Lemma halts_get_vcs h l : halts (Heap.get_vcs h l).
Proof. unfold Heap.get_vcs. halts. Qed.
Lemma halts_pick_hash h l : halts (pick_hash h l).
Proof. revert h; induction l; intros; simpl; halts. Qed.
Lemma halts_deliver g n r h : halts (deliver g n r h).
Proof. apply deliver_terminates. Qed.
Lemma halts_debug_block g b : halts (debug g (BlockID_String b)).
Proof. rewrite debug_block. by destruct (_ && _). Qed.
Lemma halts_debug_message g b m : halts (debug g (_ ← BlockID_String b; Msg.String m)).
Proof. rewrite debug_message. by destruct (_ && _). Qed.
#[export] Hint Resolve halts_debug_block halts_debug_message halts_setPrepare halts_setCommit halts_hasCommit halts_getView
  halts_put_nonnil halts_find_vcs halts_set_vcs halts_get_vcs halts_pick_hash halts_deliver : halts.

Section Termination.
Context (spare : nat → nat).

Lemma halts_processMessage g s sd rc o msg : halts (processMessage spare g s sd rc o msg).
Proof. unfold processMessage. destruct (Msg.NodeRound msg), msg; halts. Qed.

(** A response is about the same node and round, and has a smaller rank. *)
Lemma processMessage_rank g s sd rc o msg r s' g' :
  processMessage spare g s sd rc o msg = Ok (Some r, s', g') →
  (Msg.rank r < Msg.rank msg)%nat ∧ Msg.NodeRound r = Msg.NodeRound msg.
Proof.
  unfold processMessage. intros H. destruct (Msg.NodeRound msg) as [node round].
  destruct msg; go_inv H; simplify_eq; (split; [simpl; lia|done]).
Qed.

Lemma halts_process_one sd rc o a msg : halts (process_one spare sd rc o a msg).
Proof.
  destruct a as [[[s p] g] out]. unfold process_one.
  pose proof (halts_processMessage g s sd rc o msg). halts.
Qed.

Lemma process_one_out sd rc o s p g out msg s' p' g' out' :
  process_one spare sd rc o (s, p, g, out) msg = Ok (s', p', g', out') →
  (out' = out ∨ ∃ r, out' = out ++ [r] ∧ (Msg.rank r < Msg.rank msg)%nat) ∧
  p' = {[msg]} ∪ p.
Proof.
  unfold process_one. intros H. case_bool_decide; [simplify_eq; split; [by left|set_solver]|].
  apply bind_Ok in H as ([[[r|] s1] g1] & H1 & H); simplify_eq; (split; [|done]); [|by left].
  right. exists r. split; [done|]. by eapply processMessage_rank.
Qed.

Lemma drain_fuel_app l1 l2 : drain_fuel (l1 ++ l2) = (drain_fuel l1 + drain_fuel l2)%nat.
Proof. apply sum_list_with_app. Qed.

(** One step of the second loop uses up at least one unit of fuel. *)
Lemma drain_fuel_step out i msg out' :
  out !! i = Some msg →
  (out' = out ∨ ∃ r, out' = out ++ [r] ∧ (Msg.rank r < Msg.rank msg)%nat) →
  (drain_fuel (drop (S i) out') < drain_fuel (drop i out))%nat.
Proof.
  intros Hi Ho. rewrite (drop_S out msg i Hi). cbn [drain_fuel sum_list_with].
  fold (drain_fuel (drop (S i) out)).
  destruct Ho as [->|(r & -> & Hr)]; [unfold drain_fuel; lia|].
  rewrite drop_app_le by (apply lookup_lt_Some in Hi; lia).
  rewrite drain_fuel_app. unfold drain_fuel. simpl. lia.
Qed.

Lemma halts_drain fuel sd rc o i a :
  (drain_fuel (drop i a.2) ≤ fuel)%nat → halts (drain spare fuel sd rc o i a).
Proof.
  revert i a; induction fuel as [|fuel IH]; intros i [[[s p] g] out] Hf; simpl in *;
    destruct (out !! i) as [msg|] eqn:E; try done.
  - rewrite (drop_S _ _ _ E) in Hf. unfold drain_fuel in Hf; simpl in Hf. lia.
  - apply halts_bind; [apply halts_process_one|]. intros [[[s' p'] g'] out'] H.
    apply IH; simpl. apply process_one_out in H as [Ho _].
    pose proof (drain_fuel_step _ _ _ _ E Ho). lia.
Qed.

Lemma halts_processMessages g s p sd rc o msgs :
  halts (processMessages spare g s p sd rc o msgs).
Proof.
  unfold processMessages. apply halts_bind; [apply halts_range, halts_process_one|].
  intros [[[s1 p1] g1] out1] _. by apply halts_drain.
Qed.

Lemma halts_process g e : halts (process spare g e).
Proof.
  unfold process. cbv beta zeta. apply halts_bind; [auto with halts|]. intros _ _. apply halts_bind; [unfold timeout_value, timeout_of; halts|]. intros tval _.
  destruct (foldl _ _ _) as [s1 g1]. apply halts_bind.
  { apply halts_range. intros [s2 out] t. unfold check_timeout. halts. }
  intros [s2 out] _. apply halts_bind; [apply halts_processMessages|].
  intros [[[s3 p3] g3] resp] _. apply halts_bind; [|intros [[[s4 p4] g4] o4] _; halts].
  apply halts_range. intros [[[s5 p5] g5] o5] d. unfold process_dep.
  apply halts_bind; [auto with halts|]. intros _ _. apply halts_bind; [apply halts_processMessages|]. intros [[[s6 p6] g6] o6] _. halts.
Qed.

(** The second loop processes the whole list, and the fuel bounds its length. *)
Lemma drain_complete fuel sd rc o i s p g out s' p' g' out' :
  (i ≤ length out)%nat → (∀ m, m ∈ take i out → m ∈ p) →
  drain spare fuel sd rc o i (s, p, g, out) = Ok (s', p', g', out') →
  p ⊆ p' ∧ out `prefix_of` out' ∧ (∀ m, m ∈ out' → m ∈ p') ∧
  (length out' ≤ i + drain_fuel (drop i out))%nat.
Proof.
  revert i s p g out; induction fuel as [|fuel IH]; intros i s p g out Hi Hp H; simpl in H;
    destruct (out !! i) as [msg|] eqn:E; simplify_eq.
  1,3: apply lookup_ge_None in E; rewrite take_ge in Hp by lia; split_and!; auto; lia.
  apply bind_Ok in H as ([[[s1 p1] g1] out1] & H1 & H).
  apply process_one_out in H1 as [Ho ->].
  pose proof (drain_fuel_step _ _ _ _ E Ho) as Hstep.
  assert (out `prefix_of` out1) as Hpre
    by (destruct Ho as [->|(r & -> & _)]; [done|by eexists]).
  apply lookup_lt_Some in E as Hlt. pose proof (prefix_length _ _ Hpre).
  apply IH in H as (Hsub & Hpre' & Hall & Hlen); [|lia|].
  - split_and!; [set_solver|by etrans|done|lia].
  - intros m Hm. destruct Hpre as [k ->]. rewrite take_app_le in Hm by lia.
    rewrite (take_S_r _ _ _ E) in Hm. set_solver.
Qed.

Lemma collect_complete sd rc o msgs s p g out s' p' g' out' :
  range (process_one spare sd rc o) (s, p, g, out) msgs = Ok (s', p', g', out') →
  p' = list_to_set msgs ∪ p ∧ (drain_fuel out' ≤ drain_fuel out + sum_list_with Msg.rank msgs)%nat.
Proof.
  revert s p g out; induction msgs as [|m msgs IH]; intros s p g out H; simpl in H.
  { simplify_eq/=. split; [set_solver|lia]. }
  apply bind_Ok in H as ([[[s1 p1] g1] out1] & H1 & H).
  apply process_one_out in H1 as [Ho ->]. apply IH in H as [-> Hf]. simpl.
  split; [set_solver|]. destruct Ho as [->|(r & -> & Hr)]; [lia|].
  rewrite drain_fuel_app in Hf. unfold drain_fuel in *; simpl in *. lia.
Qed.

(** processMessages terminates, and when it returns, every message it was given and every
    message it produced has been processed, and it produced at most as many messages as the
    ranks of its inputs allow. *)
Theorem processMessages_complete g s p sd rc o msgs :
  processMessages spare g s p sd rc o msgs ≠ Halt Diverge ∧
  ∀ s' p' g' out, processMessages spare g s p sd rc o msgs = Ok (s', p', g', out) →
    p ⊆ p' ∧ (∀ m, m ∈ msgs ∨ m ∈ out → m ∈ p') ∧
    (length out ≤ sum_list_with Msg.rank msgs)%nat.
Proof.
  split; [apply halts_processMessages|]. intros s' p' g' out H. unfold processMessages in H.
  apply bind_Ok in H as ([[[s1 p1] g1] out1] & H1 & H).
  apply collect_complete in H1 as [-> Hf].
  apply drain_complete in H as (Hsub & _ & Hall & Hlen); [|lia|set_solver].
  unfold drain_fuel in Hf; simpl in Hf. fold (drain_fuel out1) in Hf.
  rewrite drop_0 in Hlen. split_and!; [set_solver|set_solver|lia].
Qed.

(** C10: Every step of the run loop terminates: the growing worklist of processMessages and the
    recursion of deliverRound never use up the fuel, which is computed from the messages and the
    resolved rounds. *)
Theorem run_step_terminates g : run_step spare g ≠ Halt Diverge.
Proof.
  change (halts (run_step spare g)). unfold run_step. destruct (g_entries g); [done|].
  cbv zeta. apply halts_bind; [apply halts_range; auto with halts|]. intros _ _.
  apply halts_bind; [apply halts_range, halts_process|]. intros g1 _.
  apply halts_bind; [apply halts_process|]. halts.
Qed.
End Termination.
