(* ===== verification/Protocol.v ===== *)
(** * Interpreting one message: what it can and cannot change

    The rules of the protocol as theorems on [processMessage]: quorums behind
    every commit and every decision, one prepare per view, views that only go
    up, votes that are only counted for who cast them, decisions that stay, and
    no effect on other nodes' and rounds' entries. *)

From S2P Require Import Prelude Bitset Messages Block State Graph Deliver Updates Termination.
Import Graph State.

(** ** Reading states *)
Definition view_of (s : state) (node round : Z) : Z :=
  match get (data s) (View node round) with Some (VUint32 v) => v | _ => 0 end.

Definition prepare_votes (s : state) (pp : PrePrepare) : gset Z :=
  match get (bitsets s) pp with Some b => Bitset.votes (prepares b) | None => ∅ end.
Definition commit_votes (s : state) (pp : PrePrepare) : gset Z :=
  match get (bitsets s) pp with Some b => Bitset.votes (commits b) | None => ∅ end.

Definition is_View (k : StateData) : bool := match k with View _ _ => true | _ => false end.

(** ** Maps that may be nil *)
Section Maps.
Context {K A : Type} `{Countable K}.
Implicit Types (m : option (gmap K A)).

Lemma get_put_eq m k v : get (put m k v) k = Some v.
Proof. destruct m; simpl; by rewrite ?lookup_insert_eq, ?lookup_singleton_eq. Qed.
Lemma get_put_ne m k k' v : k ≠ k' → get (put m k v) k' = get m k'.
Proof. intros. destruct m; simpl; by rewrite ?lookup_insert_ne, ?lookup_singleton_ne. Qed.
Lemma get_put m k k' v : get (put m k v) k' = if decide (k = k') then Some v else get m k'.
Proof. case_decide; subst; [apply get_put_eq|by apply get_put_ne]. Qed.
Lemma get_default m k : get (Some (default ∅ m)) k = get m k.
Proof. by destruct m. Qed.
Lemma put_nonnil_Ok m k v m' : put_nonnil m k v = Ok m' → m ≠ None ∧ m' = put m k v.
Proof. destruct m; simpl; [intros [= <-]|]; done. Qed.
End Maps.

#[export] Hint Rewrite @get_put_eq : state.

(** ** getView, getBitset *)
Lemma getView_Ok s n r v s' :
  getView s n r = Ok (v, s') →
  v = view_of s n r ∧ get (data s') (View n r) = Some (VUint32 v) ∧
  (s' = s ∨ (get (data s) (View n r) = None ∧ v = 0 ∧ s' = set_data s (put (data s) (View n r) (VUint32 0)))).
Proof.
  unfold getView, view_of. intros Hg. destruct (get (data s) (View n r)) as [[]|] eqn:E; simplify_eq.
  - auto.
  - split; [done|]. simpl. rewrite get_put_eq. auto.
Qed.

Lemma getBitset_Ok s size pp b s' :
  getBitset s size pp = (b, s') →
  get (bitsets s') pp = Some b ∧
  (s' = s ∨ (get (bitsets s) pp = None ∧ b = Bitset.newBitset size ∧ s' = store_bitset s pp b)).
Proof.
  unfold getBitset, store_bitset. intros Hg.
  destruct (bitsets s) as [m|] eqn:E; simpl.
  - destruct (m !! pp) eqn:E2; simplify_eq; simpl; rewrite ?E; simpl; [auto|].
    rewrite lookup_insert_eq. auto.
  - simplify_eq; simpl. rewrite lookup_singleton_eq. auto.
Qed.

(** Reading the votes on a proposal creates an empty bitset at most. *)
Lemma getBitset_votes s size pp b s' :
  getBitset s size pp = (b, s') →
  Bitset.votes (prepares b) = prepare_votes s pp ∧ Bitset.votes (commits b) = commit_votes s pp ∧
  (∀ q, prepare_votes s' q = prepare_votes s q) ∧ (∀ q, commit_votes s' q = commit_votes s q) ∧
  data s' = data s ∧ final s' = final s ∧ timeouts s' = timeouts s ∧ timeout_ s' = timeout_ s.
Proof.
  intros [Hb [->|(Hn & -> & ->)]]%getBitset_Ok; unfold prepare_votes, commit_votes.
  - by rewrite Hb.
  - rewrite Hn. simpl. rewrite !Bitset.votes_replicate_0. split_and!; try done.
    all: intros q; rewrite get_put; case_decide; subst; [rewrite Hn; simpl|done].
    all: apply Bitset.votes_replicate_0.
Qed.

Lemma setPrepare_Ok b v b' :
  0 ≤ v → Bitset.setPrepare b v = Ok b' →
  commits b' = commits b ∧ Bitset.votes (prepares b') = {[v]} ∪ Bitset.votes (prepares b).
Proof.
  unfold Bitset.setPrepare. intros Hv (ws & Hw & [= <-])%bind_Ok. split; [done|].
  by apply Bitset.votes_set_word.
Qed.

Lemma setCommit_Ok b v b' :
  0 ≤ v → Bitset.setCommit b v = Ok b' →
  prepares b' = prepares b ∧ Bitset.votes (commits b') = {[v]} ∪ Bitset.votes (commits b).
Proof.
  unfold Bitset.setCommit. intros Hv (ws & Hw & [= <-])%bind_Ok. split; [done|].
  by apply Bitset.votes_set_word.
Qed.

Lemma prepare_votes_store s pp b q :
  prepare_votes (store_bitset s pp b) q =
  if decide (pp = q) then Bitset.votes (prepares b) else prepare_votes s q.
Proof. unfold prepare_votes, store_bitset. simpl. rewrite get_put. by case_decide. Qed.
Lemma commit_votes_store s pp b q :
  commit_votes (store_bitset s pp b) q =
  if decide (pp = q) then Bitset.votes (commits b) else commit_votes s q.
Proof. unfold commit_votes, store_bitset. simpl. rewrite get_put. by case_decide. Qed.

Lemma prepare_votes_set_data s d q : prepare_votes (set_data s d) q = prepare_votes s q.
Proof. done. Qed.
Lemma commit_votes_set_data s d q : commit_votes (set_data s d) q = commit_votes s q.
Proof. done. Qed.
Lemma prepare_votes_set_final s f q : prepare_votes (set_final s f) q = prepare_votes s q.
Proof. done. Qed.
Lemma commit_votes_set_final s f q : commit_votes (set_final s f) q = commit_votes s q.
Proof. done. Qed.

(** ** Growing states *)

(** [extends s s']: decisions and recorded facts stay, votes are not lost. *)
Record extends (s s' : state) : Prop := {
  ext_final : ∀ nr h, get (final s) nr = Some h → get (final s') nr = Some h;
  ext_data : ∀ k v, is_View k = false → get (data s) k = Some v → get (data s') k = Some v;
  ext_prepares : ∀ pp, prepare_votes s pp ⊆ prepare_votes s' pp;
  ext_commits : ∀ pp, commit_votes s pp ⊆ commit_votes s' pp }.

#[export] Instance extends_preorder : PreOrder extends.
Proof.
  split; [by intros s; split|]. intros s1 s2 s3 [] []. split; eauto; intros; etrans; eauto.
Qed.

Create HintDb extends.

Lemma extends_put_View s n r v : extends s (set_data s (put (data s) (View n r) v)).
Proof.
  split; try done. intros k v' Hk Hd. simpl. rewrite get_put_ne; [done|]. by intros <-.
Qed.

Lemma extends_put_fresh s k v :
  get (data s) k = None → extends s (set_data s (put (data s) k v)).
Proof.
  intros Hn. split; try done. intros k' v' Hk Hd. simpl. rewrite get_put_ne; [done|].
  intros <-. congruence.
Qed.

Lemma extends_put_final s nr h :
  get (final s) nr = None → extends s (set_final s (put (final s) nr h)).
Proof.
  intros Hn. split; try done. intros nr' h' Hd. simpl. rewrite get_put_ne; [done|].
  intros <-. congruence.
Qed.

Lemma extends_getView s n r v s' : getView s n r = Ok (v, s') → extends s s'.
Proof.
  intros (_ & _ & [->|(_ & _ & ->)])%getView_Ok; [done|apply extends_put_View].
Qed.

Lemma extends_getBitset s size pp b s' : getBitset s size pp = (b, s') → extends s s'.
Proof.
  intros (_ & _ & HP & HC & HD & HF & _)%getBitset_votes.
  split; intros; rewrite ?HD, ?HF, ?HP, ?HC; done.
Qed.

Lemma extends_store s pp b :
  prepare_votes s pp ⊆ Bitset.votes (prepares b) → commit_votes s pp ⊆ Bitset.votes (commits b) →
  extends s (store_bitset s pp b).
Proof.
  intros HP HC. split; try done; intros q.
  - rewrite prepare_votes_store. by case_decide; subst.
  - rewrite commit_votes_store. by case_decide; subst.
Qed.

Lemma votes_setPrepare b v b' :
  Bitset.setPrepare b v = Ok b' →
  Bitset.votes (prepares b) ⊆ Bitset.votes (prepares b') ∧ commits b' = commits b.
Proof.
  unfold Bitset.setPrepare. intros (ws & Hw & [= <-])%bind_Ok. split; [|done].
  by eapply Bitset.votes_set_word_mono.
Qed.
Lemma votes_setCommit b v b' :
  Bitset.setCommit b v = Ok b' →
  Bitset.votes (commits b) ⊆ Bitset.votes (commits b') ∧ prepares b' = prepares b.
Proof.
  unfold Bitset.setCommit. intros (ws & Hw & [= <-])%bind_Ok. split; [|done].
  by eapply Bitset.votes_set_word_mono.
Qed.

(** A vote is taken out of the state, counted and written back. *)
Lemma extends_prepare_vote s size pp b s1 v b' :
  getBitset s size pp = (b, s1) → Bitset.setPrepare b v = Ok b' →
  extends s (store_bitset s1 pp b').
Proof.
  intros Hg [Hp Hc]%votes_setPrepare. pose proof Hg as (P & C & HP & HC & _)%getBitset_votes.
  etrans; [by eapply extends_getBitset|]. apply extends_store.
  - rewrite HP, <- P. done.
  - rewrite HC, <- C, Hc. done.
Qed.
Lemma extends_commit_vote s size pp b s1 v b' :
  getBitset s size pp = (b, s1) → Bitset.setCommit b v = Ok b' →
  extends s (store_bitset s1 pp b').
Proof.
  intros Hg [Hp Hc]%votes_setCommit. pose proof Hg as (P & C & HP & HC & _)%getBitset_votes.
  etrans; [by eapply extends_getBitset|]. apply extends_store.
  - rewrite HP, <- P, Hc. done.
  - rewrite HC, <- C. done.
Qed.

Lemma extends_make_map s : extends s (set_data s (Some (default ∅ (data s)))).
Proof. split; try done. intros k v _ Hk. by destruct (data s). Qed.

Lemma extends_append_timeout spare g s k x s' g' :
  append_timeout spare g s k x = (s', g') → extends s s' ∧ data s' = data s ∧ timeout_ s' = timeout_ s.
Proof.
  unfold append_timeout. destruct (Heap.append _ _ _ _). intros [= <- <-]. by split.
Qed.

Lemma extends_find_vcs g s k loc s' g' : find_vcs g s k = Ok (loc, s', g') → extends s s'.
Proof.
  intros [(_ & -> & _)|(Hn & _ & -> & _)]%find_vcs_Ok; [done|by apply extends_put_fresh].
Qed.

Lemma not_is_Some_get {K A} `{Countable K} (m : option (gmap K A)) k :
  bool_decide (is_Some (get m k)) = false → get m k = None.
Proof. intros Hb%bool_decide_eq_false. by apply eq_None_not_Some. Qed.

Section Message.
Context (spare : nat → nat).

Lemma extends_prepare_commit s size pp b s1 v b1 w b2 :
  getBitset s size pp = (b, s1) → Bitset.setPrepare b v = Ok b1 → Bitset.setCommit b1 w = Ok b2 →
  extends s (store_bitset (store_bitset s1 pp b1) pp b2).
Proof.
  intros Hg H1 [Hc Hp]%votes_setCommit. etrans; [by eapply extends_prepare_vote|].
  apply extends_store.
  - by rewrite prepare_votes_store, decide_True, Hp.
  - by rewrite commit_votes_store, decide_True.
Qed.

Lemma extends_prepare_twice s size pp b s1 v b1 w b2 :
  getBitset s size pp = (b, s1) → Bitset.setPrepare b v = Ok b1 → Bitset.setPrepare b1 w = Ok b2 →
  extends s (store_bitset s1 pp b2).
Proof.
  intros Hg [H1 C1]%votes_setPrepare [H2 C2]%votes_setPrepare.
  pose proof Hg as (P & C & HP & HC & _)%getBitset_votes.
  etrans; [by eapply extends_getBitset|]. apply extends_store.
  - rewrite HP, <- P. by etrans.
  - by rewrite HC, <- C, C2, C1.
Qed.

Lemma processMessage_extends g s sd rc o msg r s' g' :
  processMessage spare g s sd rc o msg = Ok (r, s', g') → extends s s'.
Proof.
  unfold processMessage. intros H. destruct (Msg.NodeRound msg) as [node round].
  case_bool_decide as HF; [by simplify_eq|].
  apply bind_Ok in H as ([v s0] & Hv & H). etrans; [by eapply extends_getView|]. clear Hv HF s.
  destruct msg; go_inv H; simplify_eq; try done.
  all: repeat match goal with
       | E : bool_decide (is_Some (get _ _)) = false |- _ => apply not_is_Some_get in E
       end.
  all: try by eauto using extends_prepare_vote, extends_commit_vote, extends_find_vcs.
  - etrans; [by eapply extends_prepare_twice|].
    apply (extends_put_fresh (store_bitset s m x0)). simpl.
    match goal with E : getBitset _ _ _ = _ |- _ =>
      by apply getBitset_votes in E as (_ & _ & _ & _ & -> & _) end.
  - etrans; [by eapply extends_prepare_commit|]. case_bool_decide as Hb; [done|].
    apply (extends_put_fresh (store_bitset (store_bitset s _ x) _ x1)).
    by apply eq_None_not_Some.
  - etrans; [by eapply extends_commit_vote|].
    by apply (extends_put_final (store_bitset s (Msg.Commit_Pre m) x)).
  - etrans; [by eapply extends_find_vcs|].
    match goal with E : put_nonnil _ _ _ = _ |- _ => apply put_nonnil_Ok in E as [_ ->] end.
    apply extends_put_View.
  - apply put_nonnil_Ok in E1 as [_ ->], E3 as [_ ->].
    apply extends_append_timeout in E2 as (X & D & _).
    etrans; [apply extends_make_map|]. etrans; [apply extends_put_View|].
    etrans; [exact X|]. apply extends_put_fresh. rewrite D. simpl.
    rewrite lookup_insert_ne by done. by destruct (data s0).
Qed.

(** ** What a message cannot touch *)

(** [only node round s s']: nothing about another node or round has changed. *)
Record only (node round : Z) (s s' : state) : Prop := {
  on_data : ∀ k, (Sd.key_node k, Sd.GetRound k) ≠ (node, round) →
            get (data s') k = get (data s) k;
  on_final : ∀ nr, (nr_node nr, nr_round nr) ≠ (node, round) → get (final s') nr = get (final s) nr;
  on_votes : ∀ pp, (pp_node pp, pp_round pp) ≠ (node, round) →
             prepare_votes s' pp = prepare_votes s pp ∧ commit_votes s' pp = commit_votes s pp }.

Lemma only_refl node round s : only node round s s.
Proof. by split. Qed.
Lemma only_trans node round s1 s2 s3 :
  only node round s1 s2 → only node round s2 s3 → only node round s1 s3.
Proof.
  intros [D1 F1 V1] [D2 F2 V2]. split; intros x Hx.
  - by rewrite D2, D1.
  - by rewrite F2, F1.
  - destruct (V1 x Hx), (V2 x Hx). split; congruence.
Qed.

Lemma only_put_data node round s k v :
  (Sd.key_node k, Sd.GetRound k) = (node, round) → only node round s (set_data s (put (data s) k v)).
Proof. intros E. split; try done. intros k' Hk. simpl. apply get_put_ne. by intros ->. Qed.
Lemma only_put_final node round s h :
  only node round s (set_final s (put (final s) (mkNodeRound node round) h)).
Proof. split; try done. intros nr Hk. simpl. apply get_put_ne. by intros <-. Qed.
Lemma only_store node round s pp b :
  (pp_node pp, pp_round pp) = (node, round) → only node round s (store_bitset s pp b).
Proof.
  intros E. split; try done. intros q Hq. rewrite prepare_votes_store, commit_votes_store.
  rewrite !decide_False; [done|by intros ->..].
Qed.
Lemma only_make_map node round s : only node round s (set_data s (Some (default ∅ (data s)))).
Proof. split; try done. intros k _. by destruct (data s). Qed.
Lemma only_getView node round s v s' : getView s node round = Ok (v, s') → only node round s s'.
Proof.
  intros (_ & _ & [->|(_ & _ & ->)])%getView_Ok; [apply only_refl|by apply only_put_data].
Qed.
Lemma only_getBitset node round s size pp b s' : getBitset s size pp = (b, s') → only node round s s'.
Proof.
  intros (_ & _ & HP & HC & HD & HF & _)%getBitset_votes.
  split; intros; rewrite ?HD, ?HF, ?HP, ?HC; done.
Qed.
Lemma only_append_timeout node round g s k x s' g' :
  append_timeout spare g s k x = (s', g') → only node round s s'.
Proof. unfold append_timeout. destruct (Heap.append _ _ _ _). by intros [= <- <-]. Qed.
Lemma only_find_vcs node round g s k loc s' g' :
  find_vcs g s k = Ok (loc, s', g') →
  (Sd.key_node k, Sd.GetRound k) = (node, round) → only node round s s'.
Proof.
  intros [(_ & -> & _)|(Hn & _ & -> & _)]%find_vcs_Ok E; [apply only_refl|by apply only_put_data].
Qed.

Lemma processMessage_only g s sd rc o msg r s' g' :
  processMessage spare g s sd rc o msg = Ok (r, s', g') →
  only (Msg.NodeRound msg).1 (Msg.NodeRound msg).2 s s'.
Proof.
  unfold processMessage. intros H. destruct (Msg.NodeRound msg) as [node round] eqn:NR. simpl.
  case_bool_decide as HF; [simplify_eq; apply only_refl|].
  apply bind_Ok in H as ([v s0] & Hv & H).
  eapply only_trans; [by eapply only_getView|]. clear Hv HF s.
  assert (match msg with MPrePrepare m => (pp_node m, pp_round m) = (node, round)
    | MPrepare m => (pp_node (Msg.Prepare_Pre m), pp_round (Msg.Prepare_Pre m)) = (node, round)
    | MCommit m => (pp_node (Msg.Commit_Pre m), pp_round (Msg.Commit_Pre m)) = (node, round)
    | _ => True end) as Hpp by (by destruct msg).
  destruct msg; go_inv H; simplify_eq; try apply only_refl;
    repeat match goal with
      | E : put_nonnil _ _ _ = _ |- _ => apply put_nonnil_Ok in E as [_ ->]
      end;
    try (eapply only_trans; [by eapply only_getBitset|]);
    try (eapply only_trans; [eapply only_find_vcs; [eassumption|done]|]);
    try apply only_refl; try (by apply only_store); try (by apply only_put_data).
  - eapply only_trans; [by apply (only_store _ _ s m x0)|].
    by apply (only_put_data _ _ (store_bitset s m x0)).
  - eapply only_trans; [by apply (only_store _ _ s (Msg.Prepare_Pre m) x)|].
    eapply only_trans; [by apply (only_store _ _ _ (Msg.Prepare_Pre m) x1)|].
    case_bool_decide; [apply only_refl|].
    by apply (only_put_data _ _ (store_bitset (store_bitset s (Msg.Prepare_Pre m) x) (Msg.Prepare_Pre m) x1)).
  - eapply only_trans; [by apply (only_store _ _ s (Msg.Commit_Pre m) x)|].
    apply (only_put_final _ _ (store_bitset s (Msg.Commit_Pre m) x)).
  - eapply only_trans; [apply only_make_map|].
    eapply only_trans; [apply (only_put_data _ _ _ (View _ _) (VUint32 (nv_view m)) eq_refl)|].
    eapply only_trans; [by eapply only_append_timeout|]. by apply only_put_data.
Qed.

(** ** Views *)
Lemma view_of_put s k v n r :
  view_of (set_data s (put (data s) k (VUint32 v))) n r =
  if decide (k = View n r) then v else view_of s n r.
Proof. unfold view_of. simpl. rewrite get_put. by case_decide. Qed.

Lemma view_of_data s s' n r : data s' = data s → view_of s' n r = view_of s n r.
Proof. unfold view_of. by intros ->. Qed.

Lemma view_of_put_other s k v n r :
  is_View k = false → view_of (set_data s (put (data s) k v)) n r = view_of s n r.
Proof. intros Hk. unfold view_of. simpl. rewrite get_put_ne; [done|]. by intros ->. Qed.

Lemma getView_view s n r v s' n' r' :
  getView s n r = Ok (v, s') → v = view_of s n r ∧ view_of s' n' r' = view_of s n' r'.
Proof.
  intros (Hv & _ & [->|(Hn & -> & ->)])%getView_Ok; [done|]. split; [done|].
  rewrite view_of_put. case_decide as E; [|done]. injection E as -> ->.
  unfold view_of. by rewrite Hn.
Qed.

Lemma find_vcs_view g s k loc s' g' n r :
  find_vcs g s k = Ok (loc, s', g') → is_View k = false → view_of s' n r = view_of s n r.
Proof.
  intros [(_ & -> & _)|(_ & _ & -> & _)]%find_vcs_Ok Hk; [done|by apply view_of_put_other].
Qed.

Lemma processMessage_view g s sd rc o msg r s' g' n rd :
  processMessage spare g s sd rc o msg = Ok (r, s', g') →
  view_of s n rd ≤ view_of s' n rd.
Proof.
  unfold processMessage. intros H. destruct (Msg.NodeRound msg) as [node round].
  case_bool_decide as HF; [by simplify_eq|]. apply bind_Ok in H as ([v s0] & Hv & H).
  destruct (getView_view _ _ _ _ _ n rd Hv) as [_ <-].
  destruct (getView_view _ _ _ _ _ node round Hv) as [-> Hv0]. rewrite <- Hv0 in H.
  clear HF Hv Hv0 s.
  assert (∀ size pp b s1, getBitset s0 size pp = (b, s1) → view_of s1 n rd = view_of s0 n rd) as HB.
  { intros ???? (_ & _ & _ & _ & HD & _)%getBitset_votes. by apply view_of_data. }
  destruct msg; go_inv H; simplify_eq; try done;
    try (erewrite <- HB by eassumption; done).
  - rewrite (view_of_put_other (store_bitset s m x0)) by done.
    erewrite <- HB by eassumption. done.
  - erewrite <- HB by eassumption. case_bool_decide; [done|].
    by rewrite (view_of_put_other (store_bitset (store_bitset s (Msg.Prepare_Pre m) x)
                                     (Msg.Prepare_Pre m) x1)).
  - by rewrite (find_vcs_view _ _ _ _ _ _ n rd E0 eq_refl).
  - match goal with F : put_nonnil _ _ _ = _ |- _ => apply put_nonnil_Ok in F as [_ ->] end.
    rewrite view_of_put, (find_vcs_view _ _ _ _ _ _ n rd E0 eq_refl).
    case_decide as Ek; [|done]. injection Ek as -> ->. lia.
  - apply put_nonnil_Ok in E1 as [_ ->], E3 as [_ ->]. rewrite view_of_put_other by done.
    apply extends_append_timeout in E2 as (_ & D & _). rewrite (view_of_data _ _ _ _ D).
    rewrite (view_of_put (set_data s0 _)). case_decide as Ek; [injection Ek as -> ->; lia|].
    unfold view_of; simpl. by destruct (data s0).
Qed.

(** ** Quorums *)

(** Rewrites the votes of the states a path goes through. *)
Ltac votes_simpl :=
  repeat match goal with
  | E : getBitset _ _ _ = (?b, ?s1) |- _ =>
      let P := fresh "P" in let C := fresh "C" in let HP := fresh "HP" in let HC := fresh "HC" in
      let D := fresh "D" in let F := fresh "F" in
      apply getBitset_votes in E as (P & C & HP & HC & D & F & _)
  | E : Bitset.setPrepare _ _ = Ok _ |- _ => apply setPrepare_Ok in E as [? ?]; [|done]
  | E : Bitset.setCommit _ _ = Ok _ |- _ => apply setCommit_Ok in E as [? ?]; [|done]
  end.

Lemma getView_votes s n r v s' :
  getView s n r = Ok (v, s') →
  (∀ q, prepare_votes s' q = prepare_votes s q) ∧ (∀ q, commit_votes s' q = commit_votes s q) ∧
  final s' = final s.
Proof. intros (_ & _ & [->|(_ & _ & ->)])%getView_Ok; done. Qed.

Lemma find_vcs_final g s k loc s' g' : find_vcs g s k = Ok (loc, s', g') → final s' = final s.
Proof. by intros [(_ & -> & _)|(_ & _ & -> & _)]%find_vcs_Ok. Qed.
Lemma append_timeout_final g s k x s' g' :
  append_timeout spare g s k x = (s', g') → final s' = final s.
Proof. unfold append_timeout. destruct (Heap.append _ _ _ _). by intros [= <- <-]. Qed.

Lemma find_vcs_votes g s k loc s' g' :
  find_vcs g s k = Ok (loc, s', g') →
  (∀ q, prepare_votes s' q = prepare_votes s q) ∧ (∀ q, commit_votes s' q = commit_votes s q).
Proof. by intros [(_ & -> & _)|(_ & _ & -> & _)]%find_vcs_Ok. Qed.
Lemma append_timeout_votes g s k x s' g' :
  append_timeout spare g s k x = (s', g') →
  (∀ q, prepare_votes s' q = prepare_votes s q) ∧ (∀ q, commit_votes s' q = commit_votes s q).
Proof. unfold append_timeout. destruct (Heap.append _ _ _ _). by intros [= <- <-]. Qed.

(** Node IDs are unsigned. *)
Definition sender_ok (msg : Message) : Prop := ∀ x, Msg.sender_of msg = Some x → 0 ≤ x.

(** C12: A commit is sent only in response to a prepare in the current view that completes a
    quorum of exactly 2f+1 prepare votes, by a node that had not committed to it; its own commit
    vote and the prepared entry are then recorded. *)
Theorem commit_quorum g s sd rc o msg c s' g' :
  0 ≤ rc → sender_ok msg → processMessage spare g s sd rc o msg = Ok (Some (MCommit c), s', g') →
  let pp := Msg.Commit_Pre c in
  Z.of_nat (size (prepare_votes s' pp)) = quorum2f1 (g_par g) ∧
  c_sender c = rc ∧ rc ∈ commit_votes s' pp ∧ rc ∉ commit_votes s pp ∧
  ∃ p, msg = MPrepare p ∧ Msg.Prepare_Pre p = pp ∧ p_view p = view_of s (p_node p) (p_round p) ∧
       is_Some (get (data s') (Prepared (p_node p) (p_round p) (p_view p))).
Proof.
  intros Hrc Hok H. unfold processMessage in H.
  destruct msg as [m|m|m|m|m]; cbn [Msg.NodeRound] in H; go_inv H; simplify_eq.
  assert (0 ≤ p_sender m) by (by apply Hok).
  destruct (getView_view _ _ _ _ _ (p_node m) (p_round m) E0) as [Ev _].
  destruct (getView_votes _ _ _ _ _ E0) as (_ & HC0 & _).
  match goal with E : Bitset.hasCommit _ _ = Ok false |- _ =>
    unfold Bitset.hasCommit in E; apply Bitset.test_word_Ok in E as [_ Hnot]; [|done] end.
  symmetry in Hnot. apply bool_decide_eq_false in Hnot.
  match goal with E : negb (Bitset.prepareCount _ =? _) = false |- _ =>
    apply negb_false_iff, Z.eqb_eq in E; unfold Bitset.prepareCount in E;
    rewrite Bitset.count_words_size in E; rename E into Hq end.
  votes_simpl. change (Msg.Commit_Pre _) with (Msg.Prepare_Pre m). cbv zeta.
  set (t := store_bitset (store_bitset s1 (Msg.Prepare_Pre m) x0) (Msg.Prepare_Pre m) x2).
  assert (prepare_votes t (Msg.Prepare_Pre m) = Bitset.votes (prepares x0)) as Tp
    by (unfold t; by rewrite prepare_votes_store, decide_True, H2).
  assert (rc ∈ commit_votes t (Msg.Prepare_Pre m)) as Tc
    by (unfold t; rewrite commit_votes_store, decide_True by done; set_solver).
  assert (rc ∉ commit_votes s (Msg.Prepare_Pre m)) by congruence.
  assert (p_view m = z) by lia.
  rewrite <- Tp in Hq. clear E.
  case_bool_decide; (split; [exact Hq|split; [done|split; [exact Tc|split; [done|]]]]);
    exists m; (split; [done|split; [done|split; [congruence|]]]); [done|].
  simpl. rewrite get_put_eq. eauto.
Qed.

(** A decision is recorded only in response to a commit whose hash it decides, when the
    commit completes a quorum of exactly 2f+1 commit votes and its view is not above the current
    one; the decision is then passed to deliver. *)
Theorem decision_quorum g s sd rc o msg r s' g' nr h :
  sender_ok msg → processMessage spare g s sd rc o msg = Ok (r, s', g') →
  get (final s) nr = None → get (final s') nr = Some h →
  ∃ c, msg = MCommit c ∧ nr = mkNodeRound (c_node c) (c_round c) ∧ h = c_hash c ∧
    Z.of_nat (size (commit_votes s' (Msg.Commit_Pre c))) = quorum2f1 (g_par g) ∧
    c_sender c ∈ commit_votes s' (Msg.Commit_Pre c) ∧
    c_view c ≤ view_of s (c_node c) (c_round c) ∧
    deliver g (c_node c) (c_round c) h = Ok g'.
Proof.
  intros Hok H Hn Hs. unfold processMessage in H.
  destruct msg as [m|m|m|m|m]; cbn [Msg.NodeRound] in H; go_inv H; simplify_eq;
    repeat match goal with
      | E : getView _ _ _ = Ok _ |- _ =>
          let V := fresh "V" in pose proof (getView_view _ _ _ _ _ 0 0 E) as [V _];
          apply getView_votes in E as (_ & _ & ?)
      | E : getBitset _ _ _ = _ |- _ => apply getBitset_votes in E as (_ & ? & _ & _ & _ & ? & _)
      | E : find_vcs _ _ _ = _ |- _ => apply find_vcs_final in E
      | E : append_timeout _ _ _ _ _ = _ |- _ => apply append_timeout_final in E
      | E : Bitset.setCommit _ _ = Ok _ |- _ => apply setCommit_Ok in E as [? ?]; [|by apply Hok]
      end;
    repeat match type of Hs with context [if ?b then _ else _] => destruct b end;
    simpl in *; try congruence.
  rewrite get_put in Hs. case_decide as Ek; [|congruence]. subst nr. injection Hs as <-.
  apply negb_false_iff, Z.eqb_eq in E5. unfold Bitset.commitCount in E5.
  rewrite Bitset.count_words_size in E5.
  assert (commit_votes (store_bitset s1 (Msg.Commit_Pre m) x0) (Msg.Commit_Pre m)
          = Bitset.votes (commits x0)) as Ht by (by rewrite commit_votes_store, decide_True).
  rewrite <- Ht in E5. exists m. split_and!; [done..|exact E5| |lia|done].
  change (c_sender m ∈ commit_votes (store_bitset s1 (Msg.Commit_Pre m) x0) (Msg.Commit_Pre m)).
  rewrite Ht, H3. set_solver.
Qed.

(** A decision is recorded only on a quorum of commit votes, ... *)
Lemma new_final g s sd rc o msg r s' g' nr h :
  processMessage spare g s sd rc o msg = Ok (r, s', g') →
  get (final s) nr = None → get (final s') nr = Some h →
  ∃ c, msg = MCommit c ∧ nr = mkNodeRound (c_node c) (c_round c) ∧ h = c_hash c ∧
    Z.of_nat (size (commit_votes s' (Msg.Commit_Pre c))) = quorum2f1 (g_par g).
Proof.
  intros H Hn Hs. unfold processMessage in H.
  destruct msg as [m|m|m|m|m]; cbn [Msg.NodeRound] in H; go_inv H; simplify_eq;
    repeat match goal with
      | E : getView _ _ _ = Ok _ |- _ => apply getView_votes in E as (_ & _ & ?)
      | E : getBitset _ _ _ = _ |- _ => apply getBitset_votes in E as (_ & _ & _ & _ & _ & ? & _)
      | E : find_vcs _ _ _ = _ |- _ => apply find_vcs_final in E
      | E : append_timeout _ _ _ _ _ = _ |- _ => apply append_timeout_final in E
      end;
    repeat match type of Hs with context [if ?b then _ else _] => destruct b end;
    simpl in *; try congruence.
  rewrite get_put in Hs. case_decide as Ek; [|congruence]. subst nr. injection Hs as <-.
  apply negb_false_iff, Z.eqb_eq in E5. unfold Bitset.commitCount in E5.
  rewrite Bitset.count_words_size in E5. exists m. split_and!; [done..|]. rewrite <- E5.
  by rewrite commit_votes_set_final, commit_votes_store, decide_True.
Qed.

(** ... and a prepared certificate only on a quorum of prepare votes. *)
Lemma new_prepared g s sd rc o msg r s' g' n rd v x :
  processMessage spare g s sd rc o msg = Ok (r, s', g') →
  get (data s) (Prepared n rd v) = None → get (data s') (Prepared n rd v) = Some x →
  ∃ p, msg = MPrepare p ∧ (p_node p, p_round p, p_view p) = (n, rd, v) ∧ x = VHash (p_hash p) ∧
    Z.of_nat (size (prepare_votes s' (Msg.Prepare_Pre p))) = quorum2f1 (g_par g).
Proof.
  intros H Hn Hs. unfold processMessage in H.
  assert (∀ s0 n0 r0 v0, getView s n0 r0 = Ok (v0, s0) → get (data s0) (Prepared n rd v) = None) as HV.
  { intros s0 n0 r0 v0 (_ & _ & [->|(_ & _ & ->)])%getView_Ok; [done|]. simpl. by rewrite get_put_ne. }
  destruct msg as [m|m|m|m|m]; cbn [Msg.NodeRound] in H; go_inv H; simplify_eq;
    repeat match goal with
      | E : getView s _ _ = Ok _ |- _ => apply HV in E
      | E : getBitset _ _ _ = _ |- _ => apply getBitset_votes in E as (_ & _ & _ & _ & ? & _ & _)
      | E : find_vcs _ _ _ = _ |- _ => apply find_vcs_Ok in E as [(_ & -> & ->)|(_ & _ & -> & ->)]
      | E : append_timeout _ _ _ _ _ = _ |- _ => apply extends_append_timeout in E as (_ & ? & _)
      | E : put_nonnil _ _ _ = Ok _ |- _ => apply put_nonnil_Ok in E as [_ ->]
      end; simpl in *; try congruence.
  all: try (rewrite !get_put_ne in Hs by done; congruence).
  - assert (Z.of_nat (size (prepare_votes (store_bitset (store_bitset s1 (Msg.Prepare_Pre m) x1)
      (Msg.Prepare_Pre m) x3) (Msg.Prepare_Pre m))) = quorum2f1 (g_par g')) as Hq.
    { apply votes_setCommit in E9 as [_ Hp]. rewrite prepare_votes_store, decide_True, Hp by done.
      apply negb_false_iff, Z.eqb_eq in E6. unfold Bitset.prepareCount in E6.
      by rewrite Bitset.count_words_size in E6. }
    match type of Hs with context [if ?b then _ else _] => destruct b end; [simpl in Hs; congruence|].
    simpl in Hs. rewrite get_put in Hs.
    case_decide; simplify_eq; [|congruence]. exists m. by split_and!.
  - rewrite get_put_ne in Hs by done. replace (data s1) with (put (Some (default ∅ (data s0)))
      (View (nv_node m) (nv_round m)) (VUint32 (nv_view m))) in Hs by done.
    rewrite get_put_ne, get_default in Hs by done. congruence.
Qed.

(** A prepare is sent only for a pre-prepare in the current view when none was accepted
    before for its node, round and view, and the accepted one is then recorded. *)
Theorem prepare_once g s sd rc o msg p s' g' :
  processMessage spare g s sd rc o msg = Ok (Some (MPrepare p), s', g') →
  ∃ m, msg = MPrePrepare m ∧ m = Msg.Prepare_Pre p ∧ p_sender p = rc ∧
    pp_view m = view_of s (pp_node m) (pp_round m) ∧
    get (data s) (PrePrepared (pp_node m) (pp_round m) (pp_view m)) = None ∧
    get (data s') (PrePrepared (pp_node m) (pp_round m) (pp_view m)) = Some (VMsg m).
Proof.
  intros H. unfold processMessage in H.
  destruct msg as [m|m|m|m|m]; cbn [Msg.NodeRound] in H; go_inv H; simplify_eq.
  exists m. split; [done|]. split; [by destruct m|]. split; [done|].
  pose proof (getView_view _ _ _ _ _ 0 0 E0) as [V _].
  split; [destruct (Z.eqb_spec z (pp_view m)); [congruence|done]|].
  split; [|simpl; apply get_put_eq].
  apply not_is_Some_get in E3. apply getView_Ok in E0 as (_ & _ & [->|(_ & _ & ->)]); [done|].
  simpl in E3. by rewrite get_put_ne in E3.
Qed.

(** C13: A message adds votes only for the nodes it is handled for: a new prepare vote is for
    the sender or the receiver with which a pre-prepare is handled or for the sender named by a
    prepare for the same proposal, a new commit vote for the receiver that commits or for the
    sender named by a commit. (The sender of a pre-prepare is the node whose block is
    interpreted, which need not have cast a vote itself; see the finding for graph.go:583.) *)
Theorem votes_sound g s sd rc o msg r s' g' :
  0 ≤ sd → 0 ≤ rc → sender_ok msg →
  processMessage spare g s sd rc o msg = Ok (r, s', g') →
  ∀ pp x,
    (x ∈ prepare_votes s' pp → x ∈ prepare_votes s pp ∨
       (msg = MPrePrepare pp ∧ (x = sd ∨ x = rc)) ∨
       (∃ p, msg = MPrepare p ∧ Msg.Prepare_Pre p = pp ∧ x = p_sender p)) ∧
    (x ∈ commit_votes s' pp → x ∈ commit_votes s pp ∨
       (∃ c, r = Some (MCommit c) ∧ Msg.Commit_Pre c = pp ∧ x = rc) ∨
       (∃ c, msg = MCommit c ∧ Msg.Commit_Pre c = pp ∧ x = c_sender c)).
Proof.
  intros Hsd Hrc Hok H pp x. unfold processMessage in H.
  destruct msg as [m|m|m|m|m]; cbn [Msg.NodeRound] in H; go_inv H; simplify_eq;
    try assert (0 ≤ p_sender m) by (by apply Hok);
    try assert (0 ≤ c_sender m) by (by apply Hok);
    repeat match goal with
      | E : getView _ _ _ = Ok _ |- _ => apply getView_votes in E as (? & ? & _)
      | E : find_vcs _ _ _ = _ |- _ => apply find_vcs_votes in E as [? ?]
      | E : append_timeout _ _ _ _ _ = _ |- _ => apply append_timeout_votes in E as [? ?]
      end; votes_simpl;
    repeat match goal with |- context [if ?b then _ else _] => destruct b end.
  all: split; intros Hx;
    rewrite ?prepare_votes_set_data, ?commit_votes_set_data, ?prepare_votes_set_final,
      ?commit_votes_set_final, ?prepare_votes_store, ?commit_votes_store in Hx.
  all: repeat case_decide; subst; try done.
  all: repeat match goal with
    | HP : ∀ q, prepare_votes ?a q = _ |- _ =>
        rewrite HP, ?prepare_votes_set_data in Hx
    | HC : ∀ q, commit_votes ?a q = _ |- _ =>
        rewrite HC, ?commit_votes_set_data in Hx
    | HP : Bitset.votes _ = _ |- _ => rewrite HP in Hx
    | HP : prepares _ = prepares _ |- _ => rewrite HP in Hx
    | HP : commits _ = commits _ |- _ => rewrite HP in Hx
    end.
  all: rewrite ?elem_of_union, ?elem_of_singleton in Hx; destruct_or?; subst; eauto 10.
Qed.
End Message.
