(* ===== verification/Typing.v ===== *)
(** * The well-formedness invariant of the interpreter, and where it can panic

    Every value of a state's key-value store has the type its key calls for, so
    the type assertions of the code cannot fail; every reference points into
    the heap; every bitset has room for every node, so no index is out of range.
    The access to [graph.blocks[0]] in [deliverRound] is in range because every
    round a message talks about is below the round of the graph or at most the
    [max] of a block that is still in [graph.blocks] ([covered]). *)

From S2P Require Import Prelude Bitset Messages Block State Graph Deliver Updates Termination Protocol.
Import Graph State.

(** ** Well-formed data *)

(** The heap only grows; backing arrays keep their capacity. *)
Record heap_le (h h' : heap) : Prop := {
  hl_vcs : (length (h_vcs h) ≤ length (h_vcs h'))%nat;
  hl_arr : ∀ i a, h_arr h !! i = Some a → ∃ a', h_arr h' !! i = Some a' ∧ length a' = length a }.

#[export] Instance heap_le_preorder : PreOrder heap_le.
Proof.
  split; [intros h; split; eauto|]. intros h1 h2 h3 [V1 A1] [V2 A2]. split; [lia|].
  intros i a (a' & Ha & E)%A1. apply A2 in Ha as (a'' & ? & ?). exists a''. split; [done|congruence].
Qed.

(** What messages may talk about: rounds, and hashes that can be printed when they are logged. *)
Record scope := mkScope { in_round : Z → Prop; in_hash : bytes → Prop }.

Definition slot_ok (R : scope) (h : heap) (k : StateData) (v : sdval) : Prop :=
  match k, v with
  | View _ _, VUint32 x => is_u32 x
  | PrePrepared n r w, VMsg m => pp_node m = n ∧ pp_round m = r ∧ pp_view m = w
  | Prepared _ _ _, VHash x => in_hash R x
  | ViewChanged _ _ _, VVcs loc => (loc < length (h_vcs h))%nat
  | HNV _ _ _, VBool b => b = true
  | _, _ => False
  end.

Definition slice_ok (h : heap) (s : slice) : Prop :=
  ∃ a, h_arr h !! sl_arr s = Some a ∧ (sl_len s ≤ length a)%nat.

Definition msg_view (m : Message) : Z :=
  match m with
  | MPrePrepare m => pp_view m | MPrepare m => p_view m | MCommit m => c_view m
  | MViewChange m => vc_view m | MNewView m => nv_view m
  end.

(** The number of words of a bitset. *)
Definition words (par : params) : nat := Z.to_nat (Z.shiftr (peerCount par + 63) 6).

Section Data.
Context (R : scope).

Record msg_ok (n : nat) (m : Message) : Prop := {
  mo_view : is_u32 (msg_view m);
  mo_round : in_round R (Msg.NodeRound m).2;
  mo_hash : in_hash R (Msg.hash_of m);
  mo_sender : ∀ x, Msg.sender_of m = Some x → Bitset.in_range n x }.

Record state_ok (n : nat) (h : heap) (s : state) : Prop := {
  so_data : ∀ k v, get (data s) k = Some v → slot_ok R h k v;
  so_bits : ∀ pp b, get (bitsets s) pp = Some b → Bitset.wf n b;
  so_out : Forall (msg_ok n) (out s);
  so_slices : ∀ k sl, timeouts s !! k = Some sl → slice_ok h sl }.

Record heap_ok (h : heap) : Prop := {
  ho_arr : Forall (Forall (λ t, in_round R (t_round t))) (h_arr h);
  ho_vcs : Forall (map_Forall (λ _, in_hash R)) (h_vcs h) }.

(** ** The invariant is kept by the parts of a state update *)
Lemma slot_ok_le h h' k v : heap_le h h' → slot_ok R h k v → slot_ok R h' k v.
Proof. intros [V _]. destruct k, v; simpl; auto; lia. Qed.

Lemma slice_ok_le h h' s : heap_le h h' → slice_ok h s → slice_ok h' s.
Proof.
  intros [_ L] (a & Ha & Hl). apply L in Ha as (a' & Ha & E). exists a'. split; [done|lia].
Qed.

Lemma state_ok_le n h h' s : heap_le h h' → state_ok n h s → state_ok n h' s.
Proof. intros L [D B O T]. split; eauto using slot_ok_le, slice_ok_le. Qed.

Lemma state_ok_put n h s k v :
  state_ok n h s → slot_ok R h k v → state_ok n h (set_data s (put (data s) k v)).
Proof.
  intros [D B O T] Hs. split; try done. intros k' v'. simpl. rewrite get_put.
  case_decide; [naive_solver|]. apply D.
Qed.

Lemma state_ok_store n h s pp b :
  state_ok n h s → Bitset.wf n b → state_ok n h (store_bitset s pp b).
Proof.
  intros [D B O T] Hb. split; try done. intros pp' b'. simpl. rewrite get_put.
  case_decide; [naive_solver|]. apply B.
Qed.

Lemma state_ok_final n h s f : state_ok n h s → state_ok n h (set_final s f).
Proof. by intros []. Qed.
Lemma state_ok_make_map n h s : state_ok n h s → state_ok n h (set_data s (Some (default ∅ (data s)))).
Proof. intros [D B O T]. split; try done. intros k v Hk. apply D. by destruct (data s). Qed.

Lemma newBitset_wf par : Bitset.wf (words par) (Bitset.newBitset (peerCount par)).
Proof.
  unfold Bitset.wf, words, Bitset.newBitset. simpl. rewrite !length_replicate.
  split_and!; try done; apply Forall_replicate; by split.
Qed.

Lemma getBitset_wp n h s par pp :
  n = words par → state_ok n h s →
  let '(b, s') := getBitset s (peerCount par) pp in state_ok n h s' ∧ Bitset.wf n b.
Proof.
  intros -> Hs. destruct (getBitset s (peerCount par) pp) as [b s'] eqn:E.
  apply getBitset_Ok in E as [Hb [->|(_ & -> & ->)]].
  - split; [done|]. by eapply so_bits.
  - split; [apply state_ok_store; [done|]|]; apply newBitset_wf.
Qed.

Lemma setPrepare_wp n b v E :
  Bitset.wf n b → Bitset.in_range n v → wp (Bitset.setPrepare b v) (Bitset.wf n) E.
Proof.
  intros (L1 & L2 & W1 & W2) Hv. unfold Bitset.setPrepare.
  destruct (Bitset.set_word_total (prepares b) v) as [ws Hw]; [by rewrite L2|].
  rewrite Hw. simpl. destruct Hv. split_and!; try done; simpl.
  - rewrite <- L2. by eapply Bitset.set_word_length.
  - by apply (λ p q, Bitset.set_word_ok _ v _ p q Hw).
Qed.

Lemma setCommit_wp n b v E :
  Bitset.wf n b → Bitset.in_range n v → wp (Bitset.setCommit b v) (Bitset.wf n) E.
Proof.
  intros (L1 & L2 & W1 & W2) Hv. unfold Bitset.setCommit.
  destruct (Bitset.set_word_total (commits b) v) as [ws Hw]; [by rewrite L1|].
  rewrite Hw. simpl. destruct Hv. split_and!; try done; simpl.
  - rewrite <- L1. by eapply Bitset.set_word_length.
  - by apply (λ p q, Bitset.set_word_ok _ v _ p q Hw).
Qed.

Lemma hasCommit_wp n b v E :
  Bitset.wf n b → Bitset.in_range n v → wp (Bitset.hasCommit b v) (λ _, True) E.
Proof.
  intros (L1 & _) [Hv Hr]. unfold Bitset.hasCommit.
  rewrite (proj2 (Bitset.test_word_Ok (commits b) v
    (bool_decide (v ∈ Bitset.votes (commits b))) Hv)); [done|].
  split; [|done]. by rewrite L1.
Qed.

Lemma getView_wp n h s nd r E :
  state_ok n h s →
  wp (getView s nd r) (λ '(v, s'), state_ok n h s' ∧ is_u32 v ∧ data s' ≠ None) E.
Proof.
  intros Hs. unfold getView. destruct (get (data s) (View nd r)) as [v|] eqn:Ev.
  - pose proof (so_data _ _ _ Hs _ _ Ev) as Hv. destruct v; try done. simpl.
    split_and!; [done|done|]. intros D. by rewrite D in Ev.
  - simpl. split_and!; [by apply state_ok_put|done|by destruct (data s)].
Qed.

Lemma find_vcs_wp n g s k E :
  state_ok n (g_heap g) s → (∃ a b c, k = ViewChanged a b c) →
  wp (find_vcs g s k) (λ '(loc, s', g'),
    state_ok n (g_heap g') s' ∧ heap_le (g_heap g) (g_heap g') ∧
    (loc < length (h_vcs (g_heap g')))%nat ∧ data s' ≠ None ∧ g_par g' = g_par g ∧
    (heap_ok (g_heap g) → heap_ok (g_heap g'))) E.
Proof.
  intros Hs (a & b & c & ->). unfold find_vcs.
  destruct (get (data s) (ViewChanged a b c)) as [v|] eqn:Ev.
  - pose proof (so_data _ _ _ Hs _ _ Ev) as Hv. destruct v; try done. simpl.
    split_and!; try done. intros D. by rewrite D in Ev.
  - simpl. set (h' := mkHeap _ _).
    assert (heap_le (g_heap g) h') as L.
    { split; simpl; [rewrite length_app; simpl; lia|eauto]. }
    assert (length (h_vcs (g_heap g)) < length (h_vcs h'))%nat
      by (simpl; rewrite length_app; simpl; lia).
    split_and!; try done; [|by destruct (data s)|].
    + apply state_ok_put; [|done]. by eapply state_ok_le.
    + intros [HA HV]. split; [done|]. simpl. apply Forall_app; split; [done|]. by constructor; [apply map_Forall_empty|].
Qed.

Lemma set_vcs_wp h loc k v E :
  (loc < length (h_vcs h))%nat →
  wp (Heap.set_vcs h loc k v)
     (λ h', heap_le h h' ∧ (loc < length (h_vcs h'))%nat ∧ (heap_ok h → in_hash R v → heap_ok h')) E.
Proof.
  intros Hl. unfold Heap.set_vcs. destruct (lookup_lt_is_Some_2 _ _ Hl) as [m Em]. rewrite Em. simpl.
  rewrite length_insert. split_and!; [|done|].
  - split; simpl; [by rewrite length_insert|eauto].
  - intros [HA HV] Hv. split; [done|]. simpl. apply Forall_insert; [done|].
    apply map_Forall_insert_2; [done|]. by eapply Forall_lookup_1 in Em.
Qed.

Lemma get_vcs_wp h loc E :
  (loc < length (h_vcs h))%nat → heap_ok h → wp (Heap.get_vcs h loc) (map_Forall (λ _, in_hash R)) E.
Proof.
  intros Hl [_ HV]. unfold Heap.get_vcs. destruct (lookup_lt_is_Some_2 _ _ Hl) as [m Em]. rewrite Em. simpl.
  by eapply Forall_lookup_1 in Em.
Qed.

Lemma pick_hash_wp hash l :
  in_hash R hash → Forall (in_hash R) l → wp (pick_hash hash l) (in_hash R) (λ w, w = Fatal).
Proof.
  intros Hh HF. revert hash Hh. induction HF; intros; simpl; [done|]. repeat case_bool_decide; simpl; auto.
Qed.

Lemma put_nonnil_wp n h s k v E :
  state_ok n h s → data s ≠ None → slot_ok R h k v →
  wp (put_nonnil (data s) k v) (λ d, state_ok n h (set_data s d) ∧ d ≠ None) E.
Proof.
  intros Hs Hd Hk. destruct (data s) as [m|] eqn:Em; [|done]. simpl. split; [|done].
  replace (Some (<[k:=v]> m)) with (put (data s) k v) by (by rewrite Em).
  by apply state_ok_put.
Qed.

(** [append] makes a valid slice and leaves the others valid. *)
Lemma append_ok spare h os x h' sl :
  (∀ s, os = Some s → slice_ok h s) → Heap.append spare h os x = (h', sl) →
  heap_le h h' ∧ slice_ok h' sl.
Proof.
  intros Hs Ha. unfold Heap.append in Ha. destruct os as [s|].
  - destruct (Hs s eq_refl) as (a & Ea & La). unfold Heap.arr_of in Ha. rewrite Ea in Ha. simpl in Ha.
    case_bool_decide; simplify_eq; split.
    + split; simpl; [done|]. intros i b Hb. destruct (decide (i = sl_arr s)) as [->|].
      * rewrite list_lookup_insert_eq by (by eapply lookup_lt_Some).
        eexists; split; [done|]. rewrite length_insert. congruence.
      * rewrite list_lookup_insert_ne by done. eauto.
    + eexists; simpl. rewrite list_lookup_insert_eq by (by eapply lookup_lt_Some).
      split; [done|]. rewrite length_insert. lia.
    + split; simpl; [done|]. intros i b Hb. exists b. split; [|done].
      by apply lookup_app_l_Some.
    + eexists; simpl. rewrite lookup_app_r, Nat.sub_diag by done. split; [done|].
      rewrite length_app; simpl. lia.
  - simplify_eq; split.
    + split; simpl; [done|]. intros i b Hb. exists b. split; [|done]. by apply lookup_app_l_Some.
    + eexists; simpl. rewrite lookup_app_r, Nat.sub_diag by done. split; [done|]. simpl; lia.
Qed.

Lemma append_heap_ok spare h os x h' sl :
  heap_ok h → in_round R (t_round x) → in_round R 0 → Heap.append spare h os x = (h', sl) → heap_ok h'.
Proof.
  intros [Hh HV] Hx H0 Ha.
  assert (∀ n, Forall (λ t, in_round R (t_round t)) (x :: replicate n (mkTimeout 0 0 0))) as Hnew.
  { intros m. constructor; [done|]. by apply Forall_replicate. }
  unfold Heap.append in Ha. destruct os as [s|].
  - assert (Forall (λ t, in_round R (t_round t)) (Heap.arr_of h s)) as Hs.
    { unfold Heap.arr_of. destruct (h_arr h !! sl_arr s) eqn:E; [|constructor].
      by eapply Forall_lookup_1 in E. }
    case_bool_decide; simplify_eq; (split; [|done]); simpl.
    + apply Forall_insert; [done|]. by apply Forall_insert.
    + apply Forall_app; split; [done|]. constructor; [|done]. by apply Forall_app.
  - simplify_eq. split; [|done]. apply Forall_app; split; [done|]. by constructor.
Qed.

Lemma append_timeout_ok spare n g s k x s' g' :
  state_ok n (g_heap g) s → heap_ok (g_heap g) → in_round R (t_round x) → in_round R 0 →
  append_timeout spare g s k x = (s', g') →
  state_ok n (g_heap g') s' ∧ heap_le (g_heap g) (g_heap g') ∧ heap_ok (g_heap g') ∧
  data s' = data s ∧ g_par g' = g_par g ∧ g_statess g' = g_statess g.
Proof.
  intros Hs Hh Hx H0 Ha. unfold append_timeout in Ha.
  destruct (Heap.append spare (g_heap g) (timeouts s !! k) x) as [h sl] eqn:E. simplify_eq.
  destruct (append_ok _ _ _ _ _ _ (λ s0 E0, so_slices _ _ _ Hs k s0 E0) E) as [L Hsl].
  split_and!; try done; [|by eapply append_heap_ok]. destruct (state_ok_le _ _ _ _ L Hs) as [D B O T]. split; try done.
  intros k' sl'. simpl. rewrite lookup_insert_Some. naive_solver.
Qed.
End Data.

(** The invariant is monotone in the scope. *)
Section Mono.
Context (R R' : scope) (HR : ∀ r, in_round R r → in_round R' r) (HT : ∀ h, in_hash R h → in_hash R' h).

Lemma msg_ok_mono n m : msg_ok R n m → msg_ok R' n m.
Proof using HR HT. intros []. split; auto. Qed.
Lemma msgs_ok_mono n l : Forall (msg_ok R n) l → Forall (msg_ok R' n) l.
Proof using HR HT. intros H. eapply Forall_impl; [exact H|]. apply msg_ok_mono. Qed.
Lemma slot_ok_mono h k v : slot_ok R h k v → slot_ok R' h k v.
Proof using HT. destruct k, v; simpl; auto. Qed.
Lemma state_ok_mono n h s : state_ok R n h s → state_ok R' n h s.
Proof using HR HT. intros []. split; auto using msgs_ok_mono. intros k v Hk. by apply slot_ok_mono, so_data0. Qed.
Lemma heap_ok_mono h : heap_ok R h → heap_ok R' h.
Proof using HR HT.
  intros [HA HV]. split; (eapply Forall_impl; [eassumption|]).
  - intros a Ha. eapply Forall_impl; [exact Ha|]. auto.
  - intros m Hm. eapply map_Forall_impl; [exact Hm|]. auto.
Qed.
End Mono.
