(* ===== verification/Chain.v ===== *)
(** * From messages to blocks and executions

    What one message keeps, a whole block keeps ([process_lift]).  Two uses: the
    state of a block extends the one of its predecessor, so nothing that was
    decided or voted in a round not yet delivered is lost along a chain; and in
    every reachable graph each recorded decision rests on a quorum of commit
    votes, each prepared certificate on a quorum of prepare votes. *)

From S2P Require Import Prelude Bitset Messages Block State Graph Deliver Updates Termination Protocol.
Import Graph State.

(** ** Lifting

    [P] is a property of the graph and the state a block is interpreted with, [M]
    one of messages, [RC] one of the interpreting nodes. *)
Section Lift.
Context (spare : nat → nat) (g0 : graph).
Context (P : graph → state → Prop) (M : Message → Prop) (RC : Z → Prop).
Context (P_message : ∀ g s sd rc o msg r s' g',
  processMessage spare g s sd rc o msg = Ok (r, s', g') → RC rc → M msg → P g s →
  P g' s' ∧ ∀ m, r = Some m → M m).

(** The property of the loops over messages. *)
Definition holds (a : state * gset Message * graph * list Message) : Prop :=
  P a.1.2 a.1.1.1 ∧ Forall M a.2.

Lemma process_one_lift sd rc o a msg a' :
  process_one spare sd rc o a msg = Ok a' → RC rc → M msg → holds a → holds a'.
Proof using P_message.
  destruct a as [[[s p] g] out]. unfold process_one. intros H Hrc Hm [Hs Ho].
  case_bool_decide; [by simplify_eq|]. apply bind_Ok in H as ([[r s1] g1] & H1 & H).
  apply P_message in H1 as [H1 HM]; [|done..]. simplify_eq/=. split; [done|]. simpl in *.
  destruct r; [|done]. apply Forall_app; split; [done|]. constructor; auto.
Qed.

Lemma drain_lift fuel sd rc o i a a' :
  drain spare fuel sd rc o i a = Ok a' → RC rc → holds a → holds a'.
Proof using P_message.
  revert i a; induction fuel as [|fuel IH]; intros i a H Hrc Ha; destruct a as [[[s p] g] out];
    simpl in H; destruct (out !! i) as [msg|] eqn:E; try by simplify_eq.
  apply bind_Ok in H as (a1 & H1 & H). eapply IH; [done..|].
  eapply process_one_lift; [done..| |done]. destruct Ha as [_ Ho]. by eapply Forall_lookup_1 in Ho.
Qed.

Lemma processMessages_lift g s p sd rc o msgs a :
  processMessages spare g s p sd rc o msgs = Ok a → RC rc → Forall M msgs → P g s → holds a.
Proof using P_message.
  unfold processMessages. intros (a1 & H1 & H)%bind_Ok Hrc Hm Hs.
  apply (range_inv holds) in H1; [|by split|].
  - destruct a1 as [[[s1 p1] g1] out1]. by apply drain_lift in H.
  - intros a2 x a3 Hx Ha H2. eapply process_one_lift; [done..| |done]. by eapply Forall_forall in Hx.
Qed.

Context (P_timeouts : ∀ g s k x s' g', append_timeout spare g s k x = (s', g') → P g s → P g' s').
Context (P_view : ∀ g s n r v, P g s → P g (set_data s (put (data s) (View n r) v))).
Context (P_clock : ∀ g s d t o, P g s → P g (set_out (set_timeout (set_delay s d) t) o)).
Context (P_statess : ∀ g s, P g s → g_statess g ⊆ g_statess g0).
Context (M_pre : ∀ pp, M (MPrePrepare pp)) (M_vc : ∀ m, RC (vc_sender m) → M (MViewChange m)).
Context (M_out : ∀ b s, g_statess g0 !! b = Some s → Forall M (out s)).

Lemma P_fields g s s' :
  bitsets s' = bitsets s → data s' = data s → final s' = final s → timeouts s' = timeouts s →
  P g s → P g s'.
Proof using P_clock.
  intros B D F T Hs. apply (P_clock g s (delay s') (timeout_ s') (out s')) in Hs.
  by destruct s, s'; simplify_eq/=.
Qed.

Lemma append_all_lift k r l g s s' g' :
  foldl (λ '(s, g) x, append_timeout spare g s k (mkTimeout x r 0)) (s, g) l = (s', g') →
  P g s → P g' s'.
Proof using P_timeouts.
  revert g s; induction l as [|x l IH]; intros g s H Hs; simpl in H; [by simplify_eq|].
  destruct (append_timeout spare g s k _) as [s1 g1] eqn:E. eapply IH; [done|].
  by eapply P_timeouts.
Qed.

Lemma check_timeout_lift g nd a tm a' :
  check_timeout nd a tm = Ok a' → RC nd → P g a.1 ∧ Forall M a.2 → P g a'.1 ∧ Forall M a'.2.
Proof using P_view M_vc.
  destruct a as [s out]. unfold check_timeout. intros H Hnd [Hs Ho].
  case_bool_decide; [by simplify_eq|]. cbv zeta in H. apply bind_Ok in H as (v & _ & H).
  destruct (_ <? _); [by simplify_eq|]. apply bind_Ok in H as (h & _ & H). simplify_eq/=.
  split; [by apply P_view|]. apply Forall_app; split; [done|]. constructor; [by apply M_vc|done].
Qed.

Lemma process_dep_lift nd o a dep a' :
  process_dep spare nd o a dep = Ok a' → RC nd → holds a → holds a'.
Proof using P_message P_statess M_out.
  destruct a as [[[s p] g] out]. unfold process_dep.
  intros ([[[s1 p1] g1] r1] & H1 & H)%debug_bind%bind_Ok Hnd [Hs Ho]. simplify_eq/=.
  apply processMessages_lift in H1 as [H1 H2]; [|done| |done].
  - split; [done|]. by apply Forall_app.
  - destruct (g_statess g !! dep) as [t|] eqn:E; [|done]. simpl.
    eapply M_out, lookup_weaken; [done|]. by eapply P_statess.
Qed.

(** The state a block ends with is the one it started with, with what the
    interpreter did to it. *)
Lemma process_lift e g' :
  process spare g0 e = Ok g' → RC (Node (e_block e)) → P g0 (findOrCreateState g0 e) →
  ∃ g1 s, P g1 s ∧ Forall M (out s) ∧ g' = set_statess g1 (<[e_block e := s]> (g_statess g1)).
Proof using All.
  intros H Hrc H0. unfold process in H. cbv beta zeta in H. apply debug_bind in H. apply bind_Ok in H as (tval & _ & H).
  destruct (foldl _ _ _) as [s1 g1] eqn:E1. apply append_all_lift in E1.
  2: { eapply P_fields, H0; simpl; unfold update_delay; by destruct (e_deps e). }
  apply bind_Ok in H as ([s2 out] & H2 & H).
  apply (range_inv (λ a, P g1 a.1 ∧ Forall M a.2)) in H2 as [H2 O2];
    [|split; [done|by constructor]|eauto using check_timeout_lift].
  apply bind_Ok in H as ([[[s3 p3] g3] resp] & H3 & H).
  apply processMessages_lift in H3 as [H3 O3]; [|done..].
  apply bind_Ok in H as ([[[s4 p4] g4] out4] & H4 & H). injection H as <-.
  apply (range_inv holds) in H4 as [H4 O4];
    [|split; [done|by apply Forall_app]|eauto using process_dep_lift].
  exists g4, (set_out s4 out4). split_and!; [|done..]. by eapply P_fields, H4.
Qed.
End Lift.

(** ** The frame of a message: the states of other blocks are at most dropped *)
Record frame (g g' : graph) : Prop := {
  fr_par : g_par g' = g_par g;
  fr_entries : g_entries g' = g_entries g;
  fr_statess : g_statess g' ⊆ g_statess g;
  fr_round : is_u64 (g_round g) → is_u64 (g_round g') }.

#[export] Instance frame_preorder : PreOrder frame.
Proof. split; [by split|]. intros ??? [] []. split; [congruence..|by etrans|auto]. Qed.

Lemma frame_deliver g n r h g' : is_u64 (g_round g) → deliver g n r h = Ok g' → frame g g'.
Proof.
  intros Hu [[_ ->]|(hs & g1 & _ & _ & -> & L & S & _)]%deliver_ok; [done| |done].
  split; [apply L|apply S|apply S|]. intros _. by apply later_round in L.
Qed.

Section Frame.
Context (spare : nat → nat).

Lemma frame_append_timeout g s k x s' g' : append_timeout spare g s k x = (s', g') → frame g g'.
Proof. unfold append_timeout. destruct (Heap.append _ _ _ _). intros [= <- <-]. by split. Qed.

Lemma frame_find_vcs g s k loc s' g' : find_vcs g s k = Ok (loc, s', g') → frame g g'.
Proof. intros [(_ & _ & ->)|(_ & _ & _ & ->)]%find_vcs_Ok; by split. Qed.

Lemma frame_processMessage g s sd rc o msg r s' g' :
  is_u64 (g_round g) → processMessage spare g s sd rc o msg = Ok (r, s', g') → frame g g'.
Proof.
  unfold processMessage. intros Hu H. destruct (Msg.NodeRound msg) as [node round].
  destruct msg; go_inv H; simplify_eq; eauto using frame_append_timeout, frame_deliver;
    try done.
  all: match goal with E : find_vcs _ _ _ = _ |- _ => apply frame_find_vcs in E as [] end; by split.
Qed.
End Frame.

(** ** Executions *)

(** Processing a block adds its state, *)
Lemma process_new_state spare g e g' :
  is_u64 (g_round g) → process spare g e = Ok g' →
  ∃ g1 s, frame g g1 ∧ g' = set_statess g1 (<[e_block e := s]> (g_statess g1)).
Proof.
  intros Hu H. apply (process_lift spare g (λ g1 _, frame g g1) (λ _, True) (λ _, True))
    in H as (g1 & s & Fr & _ & ->); try done.
  - by exists g1, s.
  - intros g1 s sd rc o msg r s' g2 Hm _ _ Hf. split; [|done].
    etrans; [done|]. eapply frame_processMessage; [by apply Hf|done].
  - intros. etrans; [done|by eapply frame_append_timeout].
  - intros g1 _ []. done.
  - intros. by apply Forall_true.
Qed.

(** and leaves the queue alone. *)
Lemma process_frame spare g e g' :
  is_u64 (g_round g) → process spare g e = Ok g' →
  g_entries g' = g_entries g ∧ is_u64 (g_round g').
Proof. intros Hu (g1 & s & [_ E _ R] & ->)%process_new_state; [|done]. split; [done|by apply R]. Qed.

(** What the interpretation of blocks keeps holds in every reachable graph. *)
Section Executions.
Context (spare : nat → nat) (accepted A : BlockGraph → Prop) (E : entry → Prop) (I : graph → Prop).
Context (A_accepted : ∀ bg, accepted bg → A bg)
  (E_deps : ∀ bg d, A bg → d ∈ bg_Deps bg → E (dep_entry d))
  (E_self : ∀ bg, A bg → E (self_entry bg))
  (I_entries : ∀ g l, I g → I (set_entries g l))
  (I_register : ∀ g bg, I g → I (register g bg))
  (I_process : ∀ g e g', process spare g e = Ok g' → is_u64 (g_round g) → E e → I g → I g').

Let ok (rest : list BlockGraph) (g : graph) : Prop :=
  I g ∧ is_u64 (g_round g) ∧ g_entries g = rest.

Lemma process_ok rest g e g' : process spare g e = Ok g' → E e → ok rest g → ok rest g'.
Proof using I_process.
  intros H He (Hi & Hu & Hr). destruct (process_frame _ _ _ _ Hu H). split_and!; [|done|congruence].
  by eapply I_process.
Qed.

Lemma step_process_inv g g' :
  step spare accepted g g' → ok (g_entries g) g → Forall A (g_entries g) →
  ok (g_entries g') g' ∧ Forall A (g_entries g').
Proof using All.
  intros Hs (Hi & Hu & _) HA. destruct Hs as [g bg g' Hbg Ha|g g' Hs].
  - apply debug_bind in Ha. destruct (_ <? _); [|done]. injection Ha as <-.
    split; [split_and!; auto|]. apply Forall_app; split; [done|]. constructor; auto.
  - unfold run_step in Hs. destruct (g_entries g) as [|bg rest]; [done|]. cbv zeta in Hs.
    apply Forall_cons in HA as [Hbg HA].
    apply bind_Ok in Hs as ([] & _ & Hs). apply bind_Ok in Hs as (g1 & H1 & Hs). apply bind_Ok in Hs as (g2 & H2 & Hs). simplify_eq.
    apply (range_inv (ok rest)) in H1.
    + apply (process_ok rest) in H2; [|by apply E_self|done].
      pose proof H2 as (_ & _ & ER). rewrite ER. done.
    + pose proof (register_same (set_entries g rest) bg) as (_ & _ & _ & RR).
      split_and!; [by apply I_register, I_entries|by rewrite RR|].
      unfold register. by destruct (scan_deps _ _ _ _).
    + intros g3 e g4 (d & -> & Hd)%list_elem_of_fmap Hg3 H3.
      eapply process_ok; [done| |done]. by eapply E_deps.
Qed.

Lemma reachable_process_inv cfg g :
  I (New cfg) → reachable spare accepted cfg g → I g ∧ Forall A (g_entries g).
Proof using All.
  intros H0 Hr. assert (ok (g_entries (New cfg)) (New cfg) ∧ Forall A (g_entries (New cfg))) as H1.
  { split; [split_and!; [done|apply u64_range|done]|constructor]. }
  enough (ok (g_entries g) g ∧ Forall A (g_entries g)) as [[? _] ?] by done.
  clear H0. unfold reachable in Hr. generalize dependent (New cfg). intros g0 Hr.
  induction Hr as [|x y z Hxy _ IH]; [done|]. intros [? ?]. apply IH.
  by eapply step_process_inv.
Qed.
End Executions.

(** ** Quorum certificates *)

(** Every decision of the state has [q] commit votes, every prepared hash [q]
    prepare votes. *)
Record certified (q : Z) (s : state) : Prop := {
  ce_final : ∀ nr h, get (final s) nr = Some h →
    ∃ v, q ≤ Z.of_nat (size (commit_votes s (mkPrePrepare h (nr_node nr) (nr_round nr) v)));
  ce_prepared : ∀ n r v h, get (data s) (Prepared n r v) = Some (VHash h) →
    q ≤ Z.of_nat (size (prepare_votes s (mkPrePrepare h n r v))) }.

Lemma size_mono (X Y : gset Z) : X ⊆ Y → Z.of_nat (size X) ≤ Z.of_nat (size Y).
Proof. intros H%subseteq_size. lia. Qed.

(** Certificates are kept when nothing new is decided. *)
Lemma certified_extends q s s' :
  (∀ pp, prepare_votes s pp ⊆ prepare_votes s' pp) →
  (∀ pp, commit_votes s pp ⊆ commit_votes s' pp) →
  (∀ nr h, get (final s') nr = Some h → get (final s) nr = Some h) →
  (∀ n r v h, get (data s') (Prepared n r v) = Some (VHash h) →
    get (data s) (Prepared n r v) = Some (VHash h)) →
  certified q s → certified q s'.
Proof.
  intros HP HC HF HD [F D]. split.
  - intros nr h (v & Hv)%HF%F. exists v. etrans; [done|]. by apply size_mono.
  - intros n r v h Hd%HD%D. etrans; [done|]. by apply size_mono.
Qed.

Lemma certified_same q s s' :
  bitsets s' = bitsets s → data s' = data s → final s' = final s → certified q s → certified q s'.
Proof.
  intros B D F. apply certified_extends; unfold prepare_votes, commit_votes;
    rewrite ?B, ?D, ?F; done.
Qed.

Section Certified.
Context (spare : nat → nat).

Lemma certified_message g s sd rc o msg r s' g' :
  processMessage spare g s sd rc o msg = Ok (r, s', g') →
  certified (quorum2f1 (g_par g)) s → certified (quorum2f1 (g_par g)) s'.
Proof.
  intros H [F D]. pose proof H as [EF ED EP EC]%processMessage_extends. split.
  - intros nr h Hs. destruct (get (final s) nr) as [h0|] eqn:E.
    + destruct (F _ _ E) as [v Hv]. apply EF in E. assert (h0 = h) as -> by congruence.
      exists v. etrans; [done|]. by apply size_mono.
    + eapply new_final in H as (c & -> & -> & -> & Hq); [|done..]. exists (c_view c).
      destruct c; simpl in *. unfold Msg.Commit_Pre in Hq; simpl in Hq. lia.
  - intros n rd v h Hs. destruct (get (data s) (Prepared n rd v)) as [x|] eqn:E.
    + apply ED in E as E'; [|done]. assert (x = VHash h) as -> by congruence.
      apply D in E. etrans; [done|]. by apply size_mono.
    + eapply new_prepared in H as (p & -> & Hp & Hx & Hq); [|done..]. simplify_eq.
      unfold Msg.Prepare_Pre in Hq. lia.
Qed.

(** Cloning drops votes and decisions of the same rounds. *)
Lemma clone_votes s minround pp :
  ¬ pp_round pp < minround →
  prepare_votes (clone (Some s) minround) pp = prepare_votes s pp ∧
  commit_votes (clone (Some s) minround) pp = commit_votes s pp.
Proof.
  intros Hr. unfold prepare_votes, commit_votes, clone. simpl.
  destruct (bitsets s) as [m|]; simpl; [|done]. rewrite lookup_fmap. unfold keep.
  destruct (m !! pp) as [b|] eqn:E.
  - by rewrite (proj2 (map_lookup_filter_Some _ m pp b)).
  - rewrite (proj2 (map_lookup_filter_None _ m pp)); [done|by left].
Qed.

Lemma get_keep {K A} `{Countable K} (round : K → Z) minround (m : option (gmap K A)) k v :
  get (option_map (keep round minround) m) k = Some v ↔
  get m k = Some v ∧ ¬ round k < minround.
Proof. destruct m; simpl; [apply map_lookup_filter_Some|naive_solver]. Qed.

Lemma certified_clone q os minround :
  (∀ s, os = Some s → certified q s) → certified q (clone os minround).
Proof.
  intros Hs. destruct os as [s|]; [|by split]. destruct (Hs s eq_refl) as [F D]. split.
  - intros nr h [Hf Hr]%get_keep. destruct (F _ _ Hf) as [v Hv]. exists v.
    by rewrite (proj2 (clone_votes s minround (mkPrePrepare h (nr_node nr) (nr_round nr) v) Hr)).
  - intros n r v h [Hd Hr]%get_keep. apply D in Hd.
    by rewrite (proj1 (clone_votes s minround (mkPrePrepare h n r v) Hr)).
Qed.

(** The invariant on graphs: every state is certified. *)
Definition all_certified (par : params) (g : graph) : Prop :=
  g_par g = par ∧ is_u64 (g_round g) ∧
  ∀ b s, g_statess g !! b = Some s → certified (quorum2f1 par) s.

Lemma all_certified_process par g e g' :
  process spare g e = Ok g' → all_certified par g → all_certified par g'.
Proof.
  intros H (HP & HU & HS).
  apply (process_lift spare g (λ g1 s, frame g g1 ∧ certified (quorum2f1 par) s)
    (λ _, True) (λ _, True)) in H as (g1 & s & [Hf Hs] & _ & ->); try done.
  - destruct Hf as [P1 _ S1 R1]. split_and!; [by rewrite <- HP|by apply R1|].
    intros b t. simpl. rewrite lookup_insert_Some. intros [[_ <-]|[_ Ht]]; [done|].
    eapply HS, lookup_weaken; done.
  - intros g1 s sd rc o msg r s' g2 Hm _ _ [Hf Hc]. split; [|done].
    assert (frame g g2) by (etrans; [done|]; eapply frame_processMessage; [by apply Hf|done]).
    split; [done|]. pose proof (certified_message _ _ _ _ _ _ _ _ _ Hm) as Hc'.
    rewrite (fr_par _ _ Hf), HP in Hc'. auto.
  - intros g1 s k x s' g2 Ha [Hf Hc]. split; [etrans; [done|by eapply frame_append_timeout]|].
    unfold append_timeout in Ha. destruct (Heap.append _ _ _ _). simplify_eq.
    by eapply certified_same, Hc.
  - intros g1 s n r v [Hf Hc]. split; [done|]. eapply certified_extends, Hc; try done.
    intros n' r' v' h. simpl. by rewrite get_put_ne.
  - intros g1 s d t o [Hf Hc]. split; [done|]. by eapply certified_same, Hc.
  - intros g1 s [[] _]. done.
  - intros b s _. by apply Forall_true.
  - split; [done|]. unfold findOrCreateState. destruct (Valid _); [|by split].
    apply certified_clone. eauto.
Qed.

Lemma all_certified_reachable accepted cfg g :
  reachable spare accepted cfg g → all_certified (mk_params cfg) g.
Proof.
  intros Hr. apply (reachable_process_inv spare accepted (λ _, True) (λ _, True)
    (all_certified (mk_params cfg))) in Hr as [Hr _]; try done.
  - intros g1 bg H1. unfold register. by destruct (scan_deps _ _ _ _).
  - intros. by eapply all_certified_process.
  - split_and!; [done|apply u64_range|done].
Qed.
End Certified.

(** ** Voters *)

(** Commit votes are only counted for nodes whose blocks were accepted. *)
Definition voter (V : gset Z) (m : Message) : Prop := ∀ x, Msg.sender_of m = Some x → x ∈ V.
Definition votes_in (V : gset Z) (s : state) : Prop := ∀ pp, commit_votes s pp ⊆ V.

Lemma votes_in_same V s s' : bitsets s' = bitsets s → votes_in V s → votes_in V s'.
Proof. unfold votes_in, commit_votes. by intros ->. Qed.

Lemma votes_in_clone V os minround :
  (∀ s, os = Some s → votes_in V s) → votes_in V (clone os minround).
Proof.
  intros Hs. destruct os as [s|]; [|intros pp; set_solver]. intros pp.
  destruct (decide (pp_round pp < minround)) as [Hr|Hr].
  - unfold commit_votes, clone. simpl. destruct (bitsets s) as [m|]; simpl; [|set_solver].
    rewrite lookup_fmap. unfold keep. rewrite (proj2 (map_lookup_filter_None _ m pp)); [set_solver|].
    right. intros b _. simpl. auto.
  - rewrite (proj2 (clone_votes s minround pp Hr)). by apply Hs.
Qed.

Lemma votes_in_store V s pp b :
  votes_in V s → Bitset.votes (commits b) ⊆ V → votes_in V (store_bitset s pp b).
Proof. intros Hs Hb q. rewrite commit_votes_store. case_decide; [done|apply Hs]. Qed.

Section Voters.
Context (spare : nat → nat) (V : gset Z) (V_ids : ∀ x, x ∈ V → 0 ≤ x).

Lemma votes_in_getBitset s size pp b s' :
  getBitset s size pp = (b, s') → votes_in V s → votes_in V s' ∧ Bitset.votes (commits b) ⊆ V.
Proof.
  intros (_ & HC & _ & HC' & _)%getBitset_votes Hs. split; [|rewrite HC; apply Hs].
  intros q. rewrite HC'. apply Hs.
Qed.

Lemma votes_in_message g s sd rc o msg r s' g' :
  processMessage spare g s sd rc o msg = Ok (r, s', g') →
  rc ∈ V → voter V msg → votes_in V s → votes_in V s' ∧ ∀ m, r = Some m → voter V m.
Proof using V_ids.
  intros H Hrc Hm Hs. split.
  2: { intros m ->. unfold processMessage in H. destruct (Msg.NodeRound msg), msg; go_inv H;
       simplify_eq; by intros x [= <-]. }
  unfold processMessage in H. destruct (Msg.NodeRound msg) as [nd rd].
  destruct (bool_decide _); [by simplify_eq|]. apply bind_Ok in H as ([v s0] & Hv & H).
  assert (votes_in V s0) as Hs0.
  { apply getView_votes in Hv as (_ & HC & _). intros pp. rewrite HC. apply Hs. }
  clear Hv Hs. destruct msg as [m|m|m|m|m]; go_inv H; simplify_eq; try done.
  all: repeat match goal with
    | E : getBitset _ _ _ = _ |- _ =>
        apply votes_in_getBitset in E as [? ?]; [|done]
    | E : Bitset.setPrepare _ _ = Ok _ |- _ => apply votes_setPrepare in E as [_ ?]
    | E : Bitset.setCommit _ _ = Ok _ |- _ =>
        apply setCommit_Ok in E as [_ ?]; [|apply V_ids; first [exact Hrc|by apply Hm]]
    | E : find_vcs _ _ _ = _ |- _ => apply find_vcs_votes in E as [_ E]
    | E : append_timeout _ _ _ _ _ = _ |- _ => apply append_timeout_votes in E as [_ E]
    end.
  all: try match goal with |- context [if ?b then _ else _] => destruct b end.
  all: repeat match goal with
    | |- votes_in V (set_data ?t _) => apply (votes_in_same V t); [done|]
    | |- votes_in V (set_final ?t _) => apply (votes_in_same V t); [done|]
    | |- votes_in V (store_bitset _ _ _) => apply votes_in_store
    end; try done.
  all: try (intros q; match goal with E : ∀ q, commit_votes _ q = _ |- _ => rewrite E end; apply Hs0).
  all: try assert (c_sender m ∈ V) by (by apply Hm).
  all: repeat match goal with
    | E : commits ?b = _ |- context [commits ?b] => rewrite E
    | E : Bitset.votes ?b = _ |- context [Bitset.votes ?b] => rewrite E
    end; set_solver.
Qed.

Definition all_votes_in (g : graph) : Prop :=
  is_u64 (g_round g) ∧
  ∀ b s, g_statess g !! b = Some s → votes_in V s ∧ Forall (voter V) (out s).

Lemma all_votes_in_process g e g' :
  process spare g e = Ok g' → Node (e_block e) ∈ V → all_votes_in g → all_votes_in g'.
Proof using V_ids.
  intros H He (HU & HS).
  apply (process_lift spare g (λ g1 s, frame g g1 ∧ votes_in V s) (voter V) (.∈ V))
    in H as (g1 & s & [Hf Hs] & Ho & ->); try done.
  - destruct Hf as [P1 _ S1 R1]. split; [by apply R1|].
    intros b t. simpl. rewrite lookup_insert_Some. intros [[_ <-]|[_ Ht]]; [done|].
    eapply HS, lookup_weaken; done.
  - intros g1 s sd rc o msg r s' g2 Hm Hrc Hv [Hf Hs].
    assert (frame g g2) by (etrans; [done|]; eapply frame_processMessage; [by apply Hf|done]).
    apply votes_in_message in Hm as [? ?]; done.
  - intros g1 s k x s' g2 Ha [Hf Hs]. split; [etrans; [done|by eapply frame_append_timeout]|].
    apply append_timeout_votes in Ha as [_ HC]. intros pp. rewrite HC. apply Hs.
  - intros g1 s [[] _]. done.
  - intros m Hm x [= <-]. done.
  - intros b s Hb. by apply (HS b).
  - split; [done|]. unfold findOrCreateState. destruct (Valid _); [|intros pp; set_solver].
    apply votes_in_clone. intros s Hs. by apply (HS _ _ Hs).
Qed.

(** A block graph all of whose blocks are from [V]. *)
Definition from_voters (bg : BlockGraph) : Prop :=
  Node (bg_Block bg) ∈ V ∧ Forall (λ d, Node (dep_Block d) ∈ V) (bg_Deps bg).

Lemma all_votes_in_reachable accepted cfg g :
  (∀ bg, accepted bg → from_voters bg) → reachable spare accepted cfg g → all_votes_in g.
Proof using V_ids.
  intros Hacc Hr. apply (reachable_process_inv spare accepted from_voters
    (λ e, Node (e_block e) ∈ V) all_votes_in) in Hr as [Hr _]; try done.
  - intros bg d [_ Hd] Hin. simpl. by eapply Forall_forall in Hd.
  - by intros bg [].
  - intros g1 bg H1. unfold register. by destruct (scan_deps _ _ _ _).
  - intros. by eapply all_votes_in_process.
  - split; [apply u64_range|done].
Qed.
End Voters.

(** ** Chains of blocks *)
Lemma process_extends spare g e g' :
  is_u64 (g_round g) → process spare g e = Ok g' →
  ∃ s', g_statess g' !! e_block e = Some s' ∧ extends (findOrCreateState g e) s'.
Proof.
  intros Hu H.
  apply (process_lift spare g (λ g1 s', frame g g1 ∧ extends (findOrCreateState g e) s')
    (λ _, True) (λ _, True)) in H as (g1 & s' & [_ Hs] & _ & ->); try done.
  - exists s'. split; [apply lookup_insert_eq|done].
  - intros g1 s sd rc o msg r s' g2 Hm _ _ [Hf Hs]. split; [|done]. split.
    + etrans; [done|]. eapply frame_processMessage; [by apply Hf|done].
    + etrans; [done|]. by eapply processMessage_extends.
  - intros g1 s k x s' g2 Ha [Hf Hs]. split; [etrans; [done|by eapply frame_append_timeout]|].
    etrans; [done|]. by eapply extends_append_timeout.
  - intros g1 s n r v [Hf Hs]. split; [done|]. etrans; [done|]. apply extends_put_View.
  - intros g1 s d t o [Hf [F D P C]]. by split.
  - intros g1 s [[] _]. done.
  - intros b s _. by apply Forall_true.
Qed.

(** ** Quorums *)
Lemma quorum_overlap (P X Y : gset Z) f :
  Z.of_nat (size P) = 3 * f + 1 → X ⊆ P → Y ⊆ P →
  2 * f + 1 ≤ Z.of_nat (size X) → 2 * f + 1 ≤ Z.of_nat (size Y) →
  f + 1 ≤ Z.of_nat (size (X ∩ Y)).
Proof.
  intros HP HX HY SX SY.
  assert (size (X ∪ Y) ≤ size P)%nat by (apply subseteq_size; set_solver).
  assert (size X = size (X ∩ Y) + size (X ∖ Y))%nat as EX.
  { rewrite <- size_union by set_solver. f_equal. apply leibniz_equiv.
    intros x. destruct (decide (x ∈ Y)); set_solver. }
  assert (size (X ∪ Y) = size (X ∖ Y) + size Y)%nat as EU.
  { rewrite <- size_union by set_solver. f_equal. apply leibniz_equiv.
    intros x. destruct (decide (x ∈ Y)); set_solver. }
  lia.
Qed.

Lemma quorum_params cfg f :
  Z.of_nat (length (cfg_Peers cfg)) = 3 * f + 1 →
  quorum2f1 (mk_params cfg) = 2 * f + 1 ∧ quorumf1 (mk_params cfg) = f + 1.
Proof.
  intros Hn. unfold mk_params. simpl. rewrite Hn.
  replace (3 * f + 1 - 1) with (f * 3) by lia. rewrite Z.quot_mul by lia. done.
Qed.

Section Theorems.
Context (spare : nat → nat).

(** C7: In every reachable graph, every decision in the state of a block has at least 2f+1
    distinct commit votes for its hash in that state, and every prepared hash at least 2f+1
    distinct prepare votes. *)
Theorem decisions_have_quorums accepted cfg g b s :
  reachable spare accepted cfg g → g_statess g !! b = Some s →
  certified (quorum2f1 (mk_params cfg)) s.
Proof. intros (_ & _ & HS)%all_certified_reachable Hb. eauto. Qed.

(** The state of a block extends the state of its predecessor: decisions, state data other
    than views and all votes for rounds not yet delivered are kept. *)
Theorem chain_keeps_decisions g e g' s :
  is_u64 (g_round g) → process spare g e = Ok g' → Valid (e_prev e) → g_statess g !! e_prev e = Some s →
  ∃ s', g_statess g' !! e_block e = Some s' ∧
    (∀ nr h, g_round g ≤ nr_round nr → get (final s) nr = Some h → get (final s') nr = Some h) ∧
    (∀ k v, is_View k = false → g_round g ≤ Sd.GetRound k →
      get (data s) k = Some v → get (data s') k = Some v) ∧
    (∀ pp, g_round g ≤ pp_round pp →
      prepare_votes s pp ⊆ prepare_votes s' pp ∧ commit_votes s pp ⊆ commit_votes s' pp).
Proof.
  intros Hu (s' & Hs' & [F D P C])%process_extends Hv Hs; [|done]. exists s'. split; [done|].
  unfold findOrCreateState in *. rewrite Hs in *. destruct (Valid (e_prev e)); [|done].
  split_and!.
  - intros nr h Hr Hf. apply F, get_keep. split; [done|lia].
  - intros k v Hk Hr Hd. apply D; [done|]. apply get_keep. split; [done|lia].
  - intros pp Hr. destruct (clone_votes s (g_round g) pp) as [EP EC]; [lia|].
    rewrite <- EP, <- EC. auto.
Qed.

(** C8: With 3f+1 nodes, if two blocks' states decide (possibly different) hashes for the same
    node and round, the two commit quorums have at least f+1 nodes in common, so a disagreement
    needs more than f nodes that voted twice. *)
Theorem conflicting_decisions_share_voters accepted cfg f g b b' s s' nr h h' :
  Z.of_nat (length (cfg_Peers cfg)) = 3 * f + 1 → NoDup (cfg_Peers cfg) →
  Forall (λ x, 0 ≤ x) (cfg_Peers cfg) →
  (∀ bg, accepted bg → from_voters (list_to_set (cfg_Peers cfg)) bg) →
  reachable spare accepted cfg g → g_statess g !! b = Some s → g_statess g !! b' = Some s' →
  get (final s) nr = Some h → get (final s') nr = Some h' →
  ∃ v v', let common := commit_votes s (mkPrePrepare h (nr_node nr) (nr_round nr) v) ∩
                        commit_votes s' (mkPrePrepare h' (nr_node nr) (nr_round nr) v') in
    common ⊆ list_to_set (cfg_Peers cfg) ∧ quorumf1 (mk_params cfg) ≤ Z.of_nat (size common).
Proof.
  intros Hn Hnd H0 Hacc Hr Hb Hb' Hf Hf'.
  destruct (all_votes_in_reachable spare (list_to_set (cfg_Peers cfg))) with accepted cfg g as [_ HV];
    [|done..|].
  { intros x Hx%elem_of_list_to_set. by eapply Forall_forall in H0. }
  apply all_certified_reachable in Hr as (_ & _ & HS).
  destruct (ce_final _ _ (HS _ _ Hb) _ _ Hf) as [v Hv].
  destruct (ce_final _ _ (HS _ _ Hb') _ _ Hf') as [v' Hv']. exists v, v'.
  destruct (quorum_params cfg f Hn) as [E1 E2]. rewrite E1 in Hv, Hv'. rewrite E2.
  apply HV in Hb as [HC _], Hb' as [HC' _]. split; [intros x [Hx _]%elem_of_intersection; by apply HC in Hx|].
  eapply quorum_overlap; [|apply HC|apply HC'|done..]. by rewrite size_list_to_set.
Qed.

(** When the number of nodes is not 3f+1 the quorums computed by New need not intersect:
    there is a configuration with two disjoint sets of quorum2f1 nodes. *)
Theorem quorums_may_be_disjoint :
  ∃ cfg (X Y : gset Z), NoDup (cfg_Peers cfg) ∧
    X ⊆ list_to_set (cfg_Peers cfg) ∧ Y ⊆ list_to_set (cfg_Peers cfg) ∧
    Z.of_nat (size X) = quorum2f1 (mk_params cfg) ∧
    Z.of_nat (size Y) = quorum2f1 (mk_params cfg) ∧ X ∩ Y = ∅.
Proof.
  exists (mkConfig 0 [1; 2; 3; 4; 5; 6] 1 6 false), {[1; 2; 3]}, {[4; 5; 6]}.
  split_and!; try by vm_compute.
  - by apply (bool_decide_unpack _).
  - set_solver.
  - set_solver.
Qed.
End Theorems.
