(* ===== verification/Safety.v ===== *)
(** * The interpreter does not panic

    [covered g r]: round [r] is below the round of the graph, or at most the
    [max] of a block that is still in [graph.blocks].  Every round a message, a
    timeout or a decision talks about is covered, and delivery keeps it so: it
    drops only blocks whose [max] is at most the delivered round.  So
    [graph.blocks] is not empty when a round is delivered; with the typing
    invariant, no step on well-formed block graphs panics. *)

From S2P Require Import Prelude Bitset Messages Block State Graph Deliver Updates Termination Protocol Typing.
Import Graph State.

(** ** Covered rounds *)
Definition covered (g : graph) (r : Z) : Prop :=
  0 ≤ r < 2 ^ 64 - 1 ∧ (r < g_round g ∨ ∃ info, info ∈ g_blocks g ∧ r ≤ info_max info).

(** What delivery needs of the graph. *)
Record safe (g : graph) : Prop := {
  sf_round : 1 ≤ g_round g < 2 ^ 64;
  sf_resolved : ∀ r hs, g_resolved g !! r = Some hs → covered g r }.

(** At debug level the hashes of blocks and messages are printed. *)
Definition prints (par : params) (h : bytes) : Prop := at_debug par = true → Msg.shows h = true.
Lemma prints_nil par : prints par [].
Proof. done. Qed.
Lemma debug_block_wp g b E : prints (g_par g) (Hash b) → wp (debug g (BlockID_String b)) (λ _, True) E.
Proof. intros H. rewrite debug_block. unfold prints in H. destruct (at_debug _); [|done]. by rewrite H. Qed.
Lemma debug_message_wp g b m E :
  prints (g_par g) (Hash b) → prints (g_par g) (Msg.hash_of m) →
  wp (debug g (_ ← BlockID_String b; Msg.String m)) (λ _, True) E.
Proof.
  intros H H'. rewrite debug_message. unfold prints in H, H'. destruct (at_debug _); [|done]. by rewrite H, H'.
Qed.
(** What the messages of a graph may talk about. *)
Definition within (g : graph) : scope := mkScope (covered g) (prints (g_par g)).

Definition covers (g g' : graph) : Prop := ∀ r, covered g r → covered g' r.

#[export] Instance covers_preorder : PreOrder covers.
Proof. split; unfold covers; red; auto. Qed.

Section Widen.
Context (g g' : graph) (HC : covers g g') (HP : g_par g' = g_par g).
Lemma prints_par h : in_hash (within g) h → in_hash (within g') h.
Proof using HP. simpl. by rewrite HP. Qed.
Lemma msg_within n m : msg_ok (within g) n m → msg_ok (within g') n m.
Proof using HC HP. apply msg_ok_mono; [exact HC|apply prints_par]. Qed.
Lemma msgs_within n l : Forall (msg_ok (within g) n) l → Forall (msg_ok (within g') n) l.
Proof using HC HP. apply msgs_ok_mono; [exact HC|apply prints_par]. Qed.
Lemma state_within n h s : state_ok (within g) n h s → state_ok (within g') n h s.
Proof using HC HP. apply state_ok_mono; [exact HC|apply prints_par]. Qed.
Lemma heap_within h : heap_ok (within g) h → heap_ok (within g') h.
Proof using HC HP. apply heap_ok_mono; [exact HC|apply prints_par]. Qed.
End Widen.

Lemma safe_u64 g : safe g → is_u64 (g_round g).
Proof. intros [? _]. unfold is_u64. lia. Qed.

(** Delivering the round of the graph keeps every covered round covered. *)
Lemma round_done_covers g hs first :
  covered g (g_round g) → safe g →
  let g' := round_done g (g_round g) hs first in covers g g' ∧ safe g'.
Proof.
  intros [Hc _] [Hr Hres] g'.
  assert (g_round g' = g_round g + 1) as R'.
  { unfold g'. rewrite round_done_round. apply u64_small. unfold is_u64. lia. }
  assert (covers g g') as C.
  { intros r [Hr0 Hb]. split; [done|]. rewrite R'.
    destruct Hb as [|(info & Hin & Hm)]; [left; lia|]. revert R'. unfold g', round_done.
    destruct (consume_spec (g_round g) (g_blocks g) (g_max g) (g_statess g)
      (u64 (Round (bg_Block (info_data first)) - 1)) (u64_range _))
      as (pre & post & mx & st & -> & E & Hpre & _). intros _. simpl.
    rewrite E in Hin. apply elem_of_app in Hin as [Hin|Hin]; [left|right; eauto].
    eapply Forall_forall in Hpre; [|done]. simpl in *. lia. }
  split; [done|]. split; [rewrite R'; lia|]. intros r h'. unfold g'.
  rewrite round_done_resolved, lookup_delete_Some. intros [_ ?]. apply C. by eapply Hres.
Qed.

Lemma covered_first g : safe g → covered g (g_round g) → ∃ first, head (g_blocks g) = Some first.
Proof.
  intros _ [_ [?|(info & Hin & _)]]; [lia|]. destruct (g_blocks g); [by apply elem_of_nil in Hin|].
  by eexists.
Qed.

Lemma deliverRound_wp fuel g hs :
  safe g → covered g (g_round g) →
  wp (deliverRound fuel g (g_round g) hs) (λ g', covers g g' ∧ safe g') (λ w, w = Diverge).
Proof.
  revert g hs; induction fuel as [|fuel IH]; intros g hs Hs Hc; [done|].
  rewrite deliverRound_S. destruct (covered_first g Hs Hc) as [first ->]. cbn -[deliverRound].
  destruct (round_done_covers g hs first Hc Hs) as [C1 S1].
  pose proof (round_done_round g (g_round g) hs first) as R1.
  set (g1 := round_done g (g_round g) hs first) in *.
  destruct (g_resolved g1 !! u64 (g_round g + 1)) as [hs'|] eqn:E; [|done].
  destruct (_ =? _); [|done]. rewrite <- R1 in *. eapply wp_mono; [apply IH; [done|]|..|done].
  - by eapply sf_resolved.
  - intros g' [C2 S2]. split; [by etrans|done].
Qed.

Lemma deliver_wp g node round hash :
  safe g → covered g round → prints (g_par g) hash →
  wp (deliver g node round hash) (λ g', covers g g' ∧ safe g') (λ w, w = Fatal).
Proof.
  intros Hs Hc Hh. destruct (deliver g node round hash) as [g'|w] eqn:E; simpl.
  all: pose proof E as E0; unfold deliver in E.
  all: destruct (Z.ltb_spec round (g_round g)) as [|Hr]; [by simplify_eq|].
  all: change (match g_resolved g !! round with
          | Some hashes => _ | None => _ end) with (add_decision g node round hash) in E.
  all: destruct (add_decision g node round hash) as [hs|w'] eqn:Ea; simpl in E;
    [|unfold add_decision in Ea; repeat case_match; simplify_eq;
      try (by pose proof (debug_block_wp g (mkBlockID hash node round) (λ _, False) Hh) as W; destruct (debug _ _); simplify_eq); done].
  all: set (g1 := set_resolved g (<[round := hs]> (g_resolved g))) in *.
  all: assert (covers g g1) as C1 by (intros r []; by split).
  all: assert (safe g1) as S1 by (destruct Hs as [Hr0 Hres]; split; [done|];
    intros r h'; simpl; rewrite lookup_insert_Some; intros [[<- _]|[_ ?]]; apply C1; eauto).
  all: destruct (Z.eqb_spec round (g_round g)) as [Heq|Hne]; cbn [negb] in E; [|by simplify_eq].
  all: destruct (_ =? _); [|by simplify_eq].
  all: subst round.
  all: pose proof (deliverRound_wp (deliver_fuel g1) g1 hs S1) as W;
    change (g_round g1) with (g_round g) in W; rewrite E in W; simpl in W.
  - destruct W as [C2 S2]; [by apply C1|]. split; [by etrans|done].
  - exfalso. apply (deliver_terminates g node (g_round g) hash). rewrite E0. f_equal. by apply W, C1.
Qed.

(** ** One message *)
Section Message.
Context (spare : nat → nat).

(** The graph a message is processed in: delivery is safe, the heap is well formed. *)
Record ready (g : graph) : Prop := {
  rd_safe : safe g;
  rd_heap : heap_ok (within g) (g_heap g) }.

Definition good (n : nat) (g : graph) (s : state) : Prop := state_ok (within g) n (g_heap g) s.

Definition message_post (n : nat) (g : graph) (a : option Message * state * graph) : Prop :=
  let '(r, s', g') := a in
  good n g' s' ∧ ready g' ∧ heap_le (g_heap g) (g_heap g') ∧ covers g g' ∧ g_par g' = g_par g ∧
  g_entries g' = g_entries g ∧ g_statess g' ⊆ g_statess g ∧ (∀ m, r = Some m → msg_ok (within g') n m).

Definition fatal (w : stop) : Prop := w = Fatal.

Lemma message_post_none n g s : ready g → good n g s → message_post n g (None, s, g).
Proof. intros. by split_and!. Qed.

Lemma in_range_sender g n m x :
  msg_ok (within g) n m → Msg.sender_of m = Some x → Bitset.in_range n x.
Proof. intros []. auto. Qed.

Lemma covered_0 g : safe g → covered g 0.
Proof. intros [? _]. split; [lia|]. left. lia. Qed.

(** Only the heap changed. *)
Lemma ready_set_heap g h : ready g → heap_ok (within g) h → ready (set_heap g h).
Proof. intros [[S1 S2] _] Hh. by split; [split|]. Qed.

Lemma getBitset_case R n h s par pp (Φ : bitset * state → Prop) :
  n = words par → state_ok R n h s →
  (∀ b s', state_ok R n h s' → Bitset.wf n b → data s' = data s → Φ (b, s')) →
  Φ (getBitset s (peerCount par) pp).
Proof.
  intros Hn Hs HΦ. pose proof (getBitset_wp R n h s par pp Hn Hs) as Hb.
  destruct (getBitset s (peerCount par) pp) as [b s'] eqn:E. destruct Hb.
  apply HΦ; [done..|]. by apply getBitset_votes in E as (_ & _ & _ & _ & ? & _).
Qed.

Lemma processMessage_PrePrepare n g s sd rc o m :
  n = words (g_par g) → ready g → good n g s → msg_ok (within g) n (MPrePrepare m) → prints (g_par g) (Hash o) →
  Bitset.in_range n sd → Bitset.in_range n rc →
  wp (processMessage spare g s sd rc o (MPrePrepare m)) (message_post n g) fatal.
Proof.
  intros Hn Hg Hs Hm Ho Hsd Hrc. unfold processMessage. cbn [Msg.NodeRound].
  destruct (bool_decide _); [by apply message_post_none|].
  apply wp_bind. eapply wp_mono; [by apply (getView_wp (within g) n (g_heap g))| |done].
  intros [v s0] (H0 & Hv & _). apply wp_bind. eapply wp_mono; [by apply debug_message_wp, (mo_hash _ _ _ Hm)| |done]. intros _ _.
  destruct (negb _); [by apply message_post_none|].
  cbv zeta. destruct (bool_decide _); [by apply message_post_none|].
  apply (getBitset_case (within g) n (g_heap g)); [done..|]. intros b s1 H1 Hb _.
  apply wp_bind. eapply wp_mono; [by apply (setPrepare_wp n)| |done]. intros b1 Hb1.
  apply wp_bind. eapply wp_mono; [by apply (setPrepare_wp n)| |done]. intros b2 Hb2.
  simpl. split_and!; try done.
  - apply (state_ok_put _ _ _ (store_bitset s1 m b2)); [by apply state_ok_store|done].
  - intros m' [= <-]. split; [apply (mo_view _ _ _ Hm)|apply (mo_round _ _ _ Hm)|apply (mo_hash _ _ _ Hm)|]. by intros x [= <-].
Qed.

Lemma processMessage_Prepare n g s sd rc o m :
  n = words (g_par g) → ready g → good n g s → msg_ok (within g) n (MPrepare m) → prints (g_par g) (Hash o) →
  Bitset.in_range n sd → Bitset.in_range n rc →
  wp (processMessage spare g s sd rc o (MPrepare m)) (message_post n g) fatal.
Proof.
  intros Hn Hg Hs Hm Ho Hsd Hrc. unfold processMessage. cbn [Msg.NodeRound].
  assert (Bitset.in_range n (p_sender m)) as Hms by (by eapply in_range_sender).
  destruct (bool_decide _); [by apply message_post_none|].
  apply wp_bind. eapply wp_mono; [by apply (getView_wp (within g) n (g_heap g))| |done].
  intros [v s0] (H0 & Hv & _). apply wp_bind. eapply wp_mono; [by apply debug_message_wp, (mo_hash _ _ _ Hm)| |done]. intros _ _.
  destruct (_ <? _); [by apply message_post_none|].
  destruct (_ <? _).
  { apply (getBitset_case (within g) n (g_heap g)); [done..|]. intros b s1 H1 Hb _.
    apply wp_bind. eapply wp_mono; [by apply (setPrepare_wp n)| |done]. intros b1 Hb1.
    apply message_post_none; [done|]. by apply state_ok_store. }
  apply (getBitset_case (within g) n (g_heap g)); [done..|]. intros b s1 H1 Hb _.
  apply wp_bind. eapply wp_mono; [by apply (setPrepare_wp n)| |done]. intros b1 Hb1. cbv zeta.
  destruct (negb _); [apply message_post_none; [done|]; by apply state_ok_store|].
  apply wp_bind. eapply wp_mono; [by apply (hasCommit_wp n)| |done]. intros [] _;
    [apply message_post_none; [done|]; by apply state_ok_store|].
  apply wp_bind. eapply wp_mono; [by apply (setCommit_wp n)| |done]. intros b2 Hb2.
  set (t := store_bitset (store_bitset s1 _ b1) _ b2).
  assert (good n g t) by (apply state_ok_store; [by apply state_ok_store|done]).
  cbn [wp message_post]. split_and!; try done.
  - case_bool_decide; [done|]. apply state_ok_put; [done|apply (mo_hash _ _ _ Hm)].
  - intros m' [= <-]. split; [apply (mo_view _ _ _ Hm)|apply (mo_round _ _ _ Hm)|apply (mo_hash _ _ _ Hm)|]. by intros x [= <-].
Qed.

Lemma processMessage_Commit n g s sd rc o m :
  n = words (g_par g) → ready g → good n g s → msg_ok (within g) n (MCommit m) → prints (g_par g) (Hash o) →
  wp (processMessage spare g s sd rc o (MCommit m)) (message_post n g) fatal.
Proof.
  intros Hn Hg Hs Hm Ho. unfold processMessage. cbn [Msg.NodeRound].
  assert (Bitset.in_range n (c_sender m)) as Hms by (by eapply in_range_sender).
  destruct (bool_decide _); [by apply message_post_none|].
  apply wp_bind. eapply wp_mono; [by apply (getView_wp (within g) n (g_heap g))| |done].
  intros [v s0] (H0 & Hv & _). apply wp_bind. eapply wp_mono; [by apply debug_message_wp, (mo_hash _ _ _ Hm)| |done]. intros _ _.
  destruct (_ <? _); [by apply message_post_none|].
  apply (getBitset_case (within g) n (g_heap g)); [done..|]. intros b s1 H1 Hb _.
  apply wp_bind. eapply wp_mono; [by apply (setCommit_wp n)| |done]. intros b1 Hb1. cbv zeta.
  destruct (negb _); [apply message_post_none; [done|]; by apply state_ok_store|].
  destruct (bool_decide _); [apply message_post_none; [done|]; by apply state_ok_store|].
  pose proof (deliver_wp g (c_node m) (c_round m) (c_hash m) (rd_safe _ Hg) (mo_round _ _ _ Hm) (mo_hash _ _ _ Hm)) as W.
  destruct (deliver g _ _ _) as [g'|w] eqn:E; simpl in *; [|done]. destruct W as [C' S'].
  assert (g_heap g' = g_heap g ∧ g_par g' = g_par g ∧ g_entries g' = g_entries g ∧
    g_statess g' ⊆ g_statess g) as (EH & EP & EN & ES).
  { apply deliver_ok in E as [[_ ->]|(hs & g1 & _ & _ & -> & L & S & _)];
      [done..| |by apply safe_u64, rd_safe]. destruct S, L. done. }
  unfold good. rewrite EH. split_and!; try done.
  - apply (state_within g); [done..|]. by apply state_ok_final, state_ok_store.
  - split; [done|]. rewrite EH. apply (heap_within g); [done..|apply Hg].
Qed.

Lemma processMessage_ViewChange n g s sd rc o m :
  n = words (g_par g) → ready g → good n g s → msg_ok (within g) n (MViewChange m) → prints (g_par g) (Hash o) →
  Bitset.in_range n rc →
  wp (processMessage spare g s sd rc o (MViewChange m)) (message_post n g) fatal.
Proof.
  intros Hn Hg Hs Hm Ho Hrc. unfold processMessage. cbn [Msg.NodeRound].
  destruct (bool_decide _); [by apply message_post_none|].
  apply wp_bind. eapply wp_mono; [by apply (getView_wp (within g) n (g_heap g))| |done].
  intros [v s0] (H0 & Hv & _). apply wp_bind. eapply wp_mono; [by apply debug_message_wp, (mo_hash _ _ _ Hm)| |done]. intros _ _.
  destruct (_ <? _); [by apply message_post_none|]. cbv zeta.
  pose proof (find_vcs_wp (within g) n g s0 (ViewChanged (vc_node m) (vc_round m) v)
    (λ _, False) H0) as W.
  apply wp_bind. destruct (find_vcs _ _ _) as [[[loc s1] g1]|w] eqn:Ef; [|exfalso; apply W; eauto].
  destruct W as (H1 & L1 & Hloc & Hd & EP & HH); [eauto|]. specialize (HH (rd_heap _ Hg)).
  assert (g1 = set_heap g (g_heap g1)) as EG by
    (apply find_vcs_Ok in Ef as [(_ & _ & ->)|(_ & _ & _ & ->)]; by try destruct g).
  simpl. apply wp_bind. eapply wp_mono; [by apply (set_vcs_wp (within g))| |done]. intros h (L2 & Hloc2 & HH2).
  specialize (HH2 HH (mo_hash _ _ _ Hm)).
  assert (state_ok (within g) n h s1) as H2 by (by eapply state_ok_le).
  assert (heap_le (g_heap g) h) as L by (by etrans).
  assert (ready (set_heap g1 h)) as Hg1.
  { rewrite EG. by apply (ready_set_heap g). }
  assert (within g1 = within g) as EC by (by rewrite EG).
  assert (g_statess g1 = g_statess g) as ES by (by rewrite EG).
  apply wp_bind. eapply wp_mono; [by apply (get_vcs_wp (within g))| |done]. intros vcs Hvcs.
  assert (∀ s' r, state_ok (within g) n h s' → (∀ m', r = Some m' → msg_ok (within g) n m') →
    message_post n g (r, s', set_heap g1 h)) as Hpost.
  { intros s' r Hs' Hr. unfold message_post, good.
    change (within (set_heap g1 h)) with (within g1). rewrite EC. split_and!; try done.
    - intros x Hx. change (in_round (within g1) x). by rewrite EC.
    - simpl. by rewrite EG.
    - simpl. by rewrite ES. }
  destruct (negb _); [by apply Hpost|].
  apply wp_bind. eapply wp_mono;
    [apply (put_nonnil_wp (within g) n h); [done..|apply (mo_view _ _ _ Hm)]| |done].
  intros d [H3 _]. apply wp_bind. eapply wp_mono; [apply (pick_hash_wp (within g)); [done|]| |done].
  { apply Forall_fmap, Forall_forall. intros [k x] Hx%elem_of_map_to_list. by apply (Hvcs k). }
  intros hash Hhash. apply Hpost; [done|].
  intros m' [= <-]. split; [apply (mo_view _ _ _ Hm)|apply (mo_round _ _ _ Hm)|done|]. by intros x [= <-].
Qed.

Lemma processMessage_NewView n g s sd rc o m :
  n = words (g_par g) → ready g → good n g s → msg_ok (within g) n (MNewView m) → prints (g_par g) (Hash o) →
  wp (processMessage spare g s sd rc o (MNewView m)) (message_post n g) fatal.
Proof.
  intros Hn Hg Hs Hm Ho. unfold processMessage. cbn [Msg.NodeRound].
  destruct (bool_decide _); [by apply message_post_none|].
  apply wp_bind. eapply wp_mono; [by apply (getView_wp (within g) n (g_heap g))| |done].
  intros [v s0] (H0 & Hv & _). apply wp_bind. eapply wp_mono; [by apply debug_message_wp, (mo_hash _ _ _ Hm)| |done]. intros _ _.
  destruct (_ <? _); [by apply message_post_none|]. cbv zeta.
  destruct (bool_decide _); [by apply message_post_none|].
  apply wp_bind. eapply wp_mono.
  { apply (put_nonnil_wp (within g) n (g_heap g));
      [by apply state_ok_make_map|done|apply (mo_view _ _ _ Hm)]. }
  2: done. intros d [H1 Hd].
  destruct (append_timeout _ _ _ _ _) as [s2 g2] eqn:Ea.
  assert (g2 = set_heap g (g_heap g2)) as EG
    by (unfold append_timeout in Ea; destruct (Heap.append _ _ _ _); by simplify_eq).
  apply (append_timeout_ok (within g)) with (n := n) in Ea as (H2 & L & HH & ED & EP & ES);
    [|done|apply Hg|apply (mo_round _ _ _ Hm)|by apply covered_0, rd_safe].
  apply wp_bind. eapply wp_mono;
    [apply (put_nonnil_wp (within g) n (g_heap g2)); [done|by rewrite ED|done]| |done].
  intros d2 [H3 _]. assert (within g2 = within g) as EC by (by rewrite EG).
  cbn [wp message_post]. unfold good. rewrite EC. split_and!; try done.
  - rewrite EG. by apply ready_set_heap.
  - intros x Hx. change (in_round (within g2) x). by rewrite EC.
  - by rewrite EG.
  - by rewrite ES.
  - intros m' [= <-]. split; [apply (mo_view _ _ _ Hm)|apply (mo_round _ _ _ Hm)|apply (mo_hash _ _ _ Hm)|done].
Qed.

Lemma processMessage_wp n g s sd rc o msg :
  n = words (g_par g) → ready g → good n g s → msg_ok (within g) n msg → prints (g_par g) (Hash o) →
  Bitset.in_range n sd → Bitset.in_range n rc →
  wp (processMessage spare g s sd rc o msg) (message_post n g) fatal.
Proof.
  intros. destruct msg; eauto using processMessage_PrePrepare, processMessage_Prepare,
    processMessage_Commit, processMessage_ViewChange, processMessage_NewView.
Qed.
End Message.

(** ** Lists of messages *)
Section Loop.
Context (spare : nat → nat).

(** The invariant of the loops over messages, relative to the graph [g] at the start. *)
Record loop_ok (n : nat) (g : graph) (a : state * gset Message * graph * list Message) : Prop := {
  lo_state : good n a.1.2 a.1.1.1;
  lo_ready : ready a.1.2;
  lo_heap : heap_le (g_heap g) (g_heap a.1.2);
  lo_covers : covers g a.1.2;
  lo_par : g_par a.1.2 = g_par g;
  lo_entries : g_entries a.1.2 = g_entries g;
  lo_statess : g_statess a.1.2 ⊆ g_statess g;
  lo_out : Forall (msg_ok (within a.1.2) n) a.2 }.

Lemma process_one_wp n g sd rc o a msg :
  n = words (g_par g) → loop_ok n g a → msg_ok (within a.1.2) n msg → prints (g_par g) (Hash o) →
  Bitset.in_range n sd → Bitset.in_range n rc →
  wp (process_one spare sd rc o a msg) (λ a', loop_ok n g a' ∧ covers a.1.2 a'.1.2) fatal.
Proof.
  intros Hn La Hm Ho Hsd Hrc. pose proof La as []. destruct a as [[[s p] g1] out]; simpl in *.
  unfold process_one. destruct (bool_decide _); [done|].
  apply wp_bind. eapply wp_mono; [apply (processMessage_wp spare n); try done; congruence || by rewrite lo_par0| |done].
  intros [[r s'] g'] (S' & G' & H' & C' & P' & N' & T' & M'). simpl. split; [|done].
  split; simpl; try done; try (by etrans).
  assert (Forall (msg_ok (within g') n) out) by (by apply (msgs_within g1)).
  destruct r; [|done]. apply Forall_app; split; [done|]. constructor; auto.
Qed.

Lemma drain_wp n g fuel sd rc o i a :
  n = words (g_par g) → loop_ok n g a → prints (g_par g) (Hash o) → Bitset.in_range n sd → Bitset.in_range n rc →
  (drain_fuel (drop i a.2) ≤ fuel)%nat →
  wp (drain spare fuel sd rc o i a) (loop_ok n g) fatal.
Proof.
  intros Hn La Ho Hsd Hrc. revert i a La; induction fuel as [|fuel IH];
    intros i [[[s p] g1] out] La Hf; simpl in *; destruct (out !! i) as [msg|] eqn:E; try done.
  - rewrite (drop_S _ _ _ E) in Hf. unfold drain_fuel in Hf; simpl in Hf. lia.
  - assert (msg_ok (within g1) n msg) as Hm
      by (eapply Forall_lookup_1; [apply (lo_out _ _ _ La)|done]).
    apply wp_bind. destruct (process_one spare sd rc o (s, p, g1, out) msg) as [a1|w] eqn:E1;
      pose proof (process_one_wp n g sd rc o _ msg Hn La Hm Ho Hsd Hrc) as W; rewrite E1 in W; [|done].
    simpl. apply IH; [apply W|]. destruct a1 as [[[s' p'] g'] out'].
    apply process_one_out in E1 as [Hout _].
    pose proof (drain_fuel_step _ _ _ _ E Hout). simpl. lia.
Qed.

Lemma processMessages_wp n g s p sd rc o msgs :
  n = words (g_par g) → ready g → good n g s → Forall (msg_ok (within g) n) msgs → prints (g_par g) (Hash o) →
  Bitset.in_range n sd → Bitset.in_range n rc →
  wp (processMessages spare g s p sd rc o msgs) (loop_ok n g) fatal.
Proof.
  intros Hn Hu Hs Hm Ho Hsd Hrc. unfold processMessages. apply wp_bind. eapply wp_mono.
  { apply (wp_range (loop_ok n g)); [by split|]. intros a x Hx La.
    eapply wp_mono; [apply process_one_wp; try done|by intros ? []|done].
    apply (msg_within g); [apply La..|]. by eapply Forall_forall in Hx. }
  2: done. intros [[[s1 p1] g1] out1] La. by apply drain_wp.
Qed.

Lemma check_timeout_wp R n h nd a tm E :
  Bitset.in_range n nd → in_round R (t_round tm) → in_hash R [] → state_ok R n h a.1 ∧ Forall (msg_ok R n) a.2 →
  wp (check_timeout nd a tm) (λ a, state_ok R n h a.1 ∧ Forall (msg_ok R n) a.2) E.
Proof.
  intros Hnd Ht Hnil [Hs Hm]. destruct a as [s out]; simpl in *. unfold check_timeout.
  destruct (bool_decide _); [done|]. cbv zeta. apply wp_bind.
  assert (∀ v, wp (if t_view tm <? v then Ok (s, out) else
    hval ← match get (data s) (Prepared (t_node tm) (t_round tm) (t_view tm)) with
           | Some (VHash h) => Ok h | Some _ => Halt Panic | None => Ok [] end;
    Ok (set_data s (put (data s) (View (t_node tm) (t_round tm)) (VUint32 (u32 (v + 1)))),
      out ++ [MViewChange (mkViewChange hval (t_node tm) (t_round tm) nd (u32 (t_view tm + 1)))]))
    (λ a, state_ok R n h a.1 ∧ Forall (msg_ok R n) a.2) E) as Hgo.
  { intros v. destruct (_ <? _); [done|]. apply wp_bind.
    assert (∀ hv, in_hash R hv → state_ok R n h (set_data s (put (data s) (View (t_node tm) (t_round tm))
      (VUint32 (u32 (v + 1))))) ∧ Forall (msg_ok R n) (out ++ [MViewChange
        (mkViewChange hv (t_node tm) (t_round tm) nd (u32 (t_view tm + 1)))])) as Hend.
    { intros hv Hhv. split; [apply state_ok_put; [done|apply u32_range]|].
      apply Forall_app; split; [done|]. constructor; [|done].
      split; [apply u32_range|done|done|]. by intros x [= <-]. }
    destruct (get (data s) (Prepared _ _ _)) as [d|] eqn:Ed; [|by apply Hend].
    pose proof (so_data _ _ _ _ Hs _ _ Ed) as Hd. destruct d; try done. by apply Hend. }
  destruct (get (data s) (View _ _)) as [d|] eqn:Ed; [|apply Hgo].
  pose proof (so_data _ _ _ _ Hs _ _ Ed) as Hd. destruct d; try done. apply Hgo.
Qed.

Lemma clone_ok R n h s minround :
  (∀ s', s = Some s' → state_ok R n h s') → state_ok R n h (clone s minround).
Proof.
  intros Hs. destruct s as [s|]; [|by split]. destruct (Hs s eq_refl) as [D B O T].
  split; simpl.
  - intros k v Hk. apply D. destruct (data s) as [m|]; [|done]. simpl in *.
    by apply map_lookup_filter_Some in Hk as [? _].
  - intros pp b Hb. apply (B pp). destruct (bitsets s) as [m|]; [|done]. simpl in *.
    rewrite lookup_fmap_Some in Hb. destruct Hb as (b' & <- & Hb').
    apply map_lookup_filter_Some in Hb' as [? _]. by destruct b'.
  - apply Forall_forall. intros m [_ Hm]%list_elem_of_filter. by eapply Forall_forall.
  - intros k sl Hk. apply (T k). by apply map_lookup_filter_Some in Hk as [? _].
Qed.
End Loop.

(** ** Blocks *)
Record graph_ok (n : nat) (g : graph) : Prop := {
  go_ready : ready g;
  go_statess : ∀ b s, g_statess g !! b = Some s → good n g s }.

Record entry_ok (n : nat) (g : graph) (e : entry) : Prop := {
  eo_node : Bitset.in_range n (Node (e_block e));
  eo_round : covered g (Round (e_block e));
  eo_hash : prints (g_par g) (Hash (e_block e));
  eo_deps : Forall (λ d, Bitset.in_range n (Node d) ∧ prints (g_par g) (Hash d)) (e_deps e) }.

Definition params_ok (par : params) : Prop := 0 ≤ quorum2f par < quorum2f1 par.

Lemma timeout_value_wp par d E : params_ok par → wp (timeout_value par d) (λ _, True) E.
Proof.
  intros []. unfold timeout_value, timeout_of. destruct (Z.ltb_spec (quorum2f1 par)
    (Z.of_nat (length (map_to_list (default ∅ d)).*2))) as [Hl|]; [|done].
  set (vals := (map_to_list (default ∅ d)).*2) in *.
  destruct (lookup_lt_is_Some_2 (merge_sort Z.le vals) (Z.to_nat (quorum2f par))) as [x ->]; [|done].
  rewrite (Permutation_length (merge_sort_Permutation Z.le vals)). lia.
Qed.

Section Process.
Context (spare : nat → nat).

(** The loop that sets the timeouts of a block changes the state and the heap only. *)
Lemma append_all_ok n k r l g s s' g' :
  ready g → good n g s → covered g r →
  foldl (λ '(s, g) x, append_timeout spare g s k (mkTimeout x r 0)) (s, g) l = (s', g') →
  good n g' s' ∧ ready g' ∧ heap_le (g_heap g) (g_heap g') ∧ g' = set_heap g (g_heap g').
Proof.
  revert g s; induction l as [|x l IH]; intros g s Hg Hs Hr H; simpl in H.
  { simplify_eq. split_and!; try done. by destruct g'. }
  destruct (append_timeout spare g s k (mkTimeout x r 0)) as [s1 g1] eqn:E.
  assert (g1 = set_heap g (g_heap g1)) as EG
    by (unfold append_timeout in E; destruct (Heap.append _ _ _ _); by simplify_eq).
  apply (append_timeout_ok (within g)) with (n := n) in E as (S1 & L1 & H1 & _);
    [|done|apply Hg|done|by apply covered_0, rd_safe].
  assert (within g1 = within g) as EC by (by rewrite EG).
  apply IH in H as (S2 & R2 & L2 & E2).
  - split_and!; try done; [by etrans|]. rewrite E2. by rewrite EG.
  - rewrite EG. by apply ready_set_heap.
  - unfold good. by rewrite EC.
  - change (in_round (within g1) r). by rewrite EC.
Qed.

Lemma read_rounds R h os : heap_ok R h → Forall (λ t, in_round R (t_round t)) (Heap.read h os).
Proof.
  intros Hh. destruct os as [sl|]; simpl; [|done]. apply Forall_take. unfold Heap.arr_of.
  destruct (h_arr h !! sl_arr sl) eqn:E; simpl; [|done]. eapply Forall_lookup_1 in E; [done|apply Hh].
Qed.

Lemma process_dep_wp n g nd o a dep :
  n = words (g_par g) → graph_ok n g → loop_ok n g a → Bitset.in_range n nd → prints (g_par g) (Hash o) →
  Bitset.in_range n (Node dep) → prints (g_par g) (Hash dep) → wp (process_dep spare nd o a dep) (loop_ok n g) fatal.
Proof.
  intros Hn Hg La Hnd Ho Hdep Hd. pose proof La as []. destruct a as [[[s p] g1] out]; simpl in *.
  unfold process_dep. apply wp_bind. eapply wp_mono; [apply debug_block_wp; by rewrite lo_par0| |done].
  intros _ _. apply wp_bind. eapply wp_mono; [apply (processMessages_wp spare n)| |done];
    try done; try congruence; [|by rewrite lo_par0|].
  - destruct (g_statess g1 !! dep) as [t|] eqn:E; simpl; [|done].
    eapply lookup_weaken in E; [|done]. apply (msgs_within g); [done..|].
    apply (so_out _ _ _ _ (go_statess _ _ Hg _ _ E)).
  - intros [[[s2 p2] g2] resp] []; simpl in *. split; simpl; try done; try (by etrans).
    apply Forall_app; split; [|done]. by apply (msgs_within g1).
Qed.

Definition process_post (n : nat) (g g' : graph) : Prop :=
  graph_ok n g' ∧ covers g g' ∧ g_par g' = g_par g ∧ g_entries g' = g_entries g.

Lemma process_wp n g e :
  n = words (g_par g) → params_ok (g_par g) → graph_ok n g → entry_ok n g e →
  wp (process spare g e) (process_post n g) fatal.
Proof.
  intros Hn Hp Hg [Hnd Hrd Hh Hdeps]. pose proof Hg as [Hr Hst]. unfold process. cbv beta zeta.
  apply wp_bind. eapply wp_mono; [by apply debug_block_wp| |done]. intros _ _.
  set (s0 := update_delay _ _ _).
  assert (good n g s0) as H0.
  { assert (good n g (findOrCreateState g e)) as [].
    { unfold findOrCreateState. destruct (Valid _); [|by split]. apply clone_ok.
      intros s' Hs'. by eapply Hst. }
    unfold s0, update_delay. destruct (e_deps e); by split. }
  apply wp_bind. eapply wp_mono; [by apply timeout_value_wp| |done]. intros tval _.
  destruct (foldl _ _ _) as [s1 g1] eqn:E1.
  apply (append_all_ok n) in E1 as (H1 & R1 & L1 & G1); [|done|by destruct H0|done].
  assert (within g1 = within g) as C1 by (by rewrite G1).
  assert (loop_ok n g (s1, ∅, g1, [])) as Lo1.
  { split; simpl; try done; [intros r Hc|by rewrite G1..].
    change (in_round (within g1) r). by rewrite C1. }
  apply wp_bind. eapply wp_mono.
  { apply (wp_range (λ a, good n g1 a.1 ∧ Forall (msg_ok (within g1) n) a.2)).
    - split; [done|]. constructor; [|done]. by rewrite C1.
    - intros a t Ht Ha. apply check_timeout_wp; [done| |by apply prints_nil|done].
      pose proof (read_rounds (within g1) (g_heap g1) (timeouts s1 !! Round (e_block e)) (rd_heap _ R1)) as Hrr.
      by eapply Forall_forall in Hrr. }
  2: done. intros [s2 out2] [H2 O2]. simpl in *.
  apply wp_bind. eapply wp_mono; [apply (processMessages_wp spare n); try done|..|done].
  { rewrite Hn. by rewrite G1. }
  { by rewrite G1. }
  intros [[[s3 p3] g3] resp] Lo3.
  assert (loop_ok n g (s3, p3, g3, out2 ++ resp)) as Lo4.
  { destruct Lo1, Lo3; simpl in *. split; simpl; try done; try (by etrans).
    apply Forall_app; split; [|done]. by apply (msgs_within g1). }
  apply wp_bind. eapply wp_mono.
  { apply (wp_range (loop_ok n g)); [exact Lo4|]. intros a dep Hd La.
    eapply Forall_forall in Hdeps as []; [|done]. by apply process_dep_wp. }
  2: done. intros [[[s5 p5] g5] out5] []; simpl in *. split_and!; try done. split.
  - by destruct lo_ready0 as [[] ?]; split; [split|].
  - intros b s. simpl. rewrite lookup_insert_Some. intros [[_ <-]|[_ Hs]].
    + destruct lo_state0. by split.
    + eapply lookup_weaken in Hs; [|done]. apply Hst in Hs.
      eapply state_ok_le; [done|]. by apply (state_within g).
Qed.
End Process.

(** ** Steps *)
Definition ref_ok (n : nat) (par : params) (b : BlockID) : Prop :=
  Bitset.in_range n (Node b) ∧ prints par (Hash b).
Definition block_ok (n : nat) (par : params) (b : BlockID) : Prop :=
  ref_ok n par b ∧ 0 ≤ Round b < 2 ^ 64 - 1.

Record dep_ok (n : nat) (par : params) (d : Dep) : Prop := {
  do_block : block_ok n par (dep_Block d);
  do_prev : ref_ok n par (dep_Prev d);
  do_deps : Forall (ref_ok n par) (dep_Deps d) }.

(** A block graph whose node IDs fit into the bitsets, whose hashes can be
    logged and whose rounds are not the largest 64-bit number. *)
Record bg_ok (n : nat) (par : params) (bg : BlockGraph) : Prop := {
  bo_block : block_ok n par (bg_Block bg);
  bo_prev : ref_ok n par (bg_Prev bg);
  bo_deps : Forall (dep_ok n par) (bg_Deps bg) }.

Lemma max_link_ge mx a l : a.2 ≤ (max_link mx a l).2.
Proof.
  destruct a as [c acc]. simpl. destruct (mx !! l); [|done]. simpl.
  destruct (Z.ltb_spec acc z); lia.
Qed.
Lemma max_links_ge mx a ls : a.2 ≤ (foldl (max_link mx) a ls).2.
Proof.
  revert a; induction ls as [|l ls IH]; intros a; simpl; [done|].
  etrans; [apply max_link_ge|apply IH].
Qed.
Lemma raise_max_ge r a : a.2 ≤ raise_max r a.
Proof. destruct a as [[] m]; simpl; [|done]. destruct (Z.ltb_spec m r); simpl; lia. Qed.

Lemma dep_max_ge r mx d : Round (dep_Block d) ≤ dep_max r mx d.
Proof.
  unfold dep_max. etrans; [|apply raise_max_ge]. etrans; [|apply max_links_ge].
  destruct (_ =? _); [done|]. apply (max_link_ge mx (false, _)).
Qed.

Lemma scan_deps_ge r mx m ds :
  m ≤ (scan_deps r mx m ds).2 ∧ ∀ d, d ∈ ds → Round (dep_Block d) ≤ (scan_deps r mx m ds).2.
Proof.
  unfold scan_deps. revert mx m; induction ds as [|d ds IH]; intros mx m; simpl.
  { split; [done|]. by intros d ?%elem_of_nil. }
  destruct (IH (<[dep_Block d := dep_max r mx d]> mx)
    (if m <? dep_max r mx d then dep_max r mx d else m)) as [H1 H2].
  pose proof (dep_max_ge r mx d) as Hd.
  destruct (Z.ltb_spec m (dep_max r mx d)); (split; [lia|]);
    intros d' [->|?]%elem_of_cons; auto; lia.
Qed.

(** A registered block graph covers the rounds of its blocks. *)
Lemma register_covered n par g bg :
  bg_ok n par bg →
  covered (register g bg) (Round (bg_Block bg)) ∧
  Forall (λ d, covered (register g bg) (Round (dep_Block d))) (bg_Deps bg).
Proof.
  intros [[_ Hb] _ Hd]. unfold register.
  pose proof (scan_deps_ge (g_round g) (g_max g) (Round (bg_Block bg)) (bg_Deps bg)) as [H1 H2].
  destruct (scan_deps _ _ _ _) as [mx m]. simpl in *.
  set (a := if Round (bg_Block bg) =? 1 then _ else _).
  assert (m ≤ raise_max (g_round g) a) as Ha.
  { etrans; [|apply raise_max_ge]. unfold a. destruct (_ =? _); [done|].
    apply (max_link_ge mx (false, m)). }
  assert (∀ r, 0 ≤ r < 2 ^ 64 - 1 → r ≤ m →
    covered (set_blocks (set_max g (<[bg_Block bg := raise_max (g_round g) a]> mx))
      (g_blocks g ++ [mkBlockInfo bg (raise_max (g_round g) a)])) r) as Hc.
  { intros r Hr Hm. split; [done|]. right. eexists; split; [apply elem_of_app; right; by left|].
    simpl. lia. }
  split; [by apply Hc|]. apply Forall_forall. intros d Hin. apply Hc; [|by apply H2].
  eapply Forall_forall in Hd; [|done]. apply Hd.
Qed.

Lemma register_covers g bg : covers g (register g bg).
Proof.
  intros r [Hr Hb]. unfold register. destruct (scan_deps _ _ _ _) as [mx m]. split; [done|].
  destruct Hb as [|(i & Hi & Hm)]; [by left|right]. exists i. simpl.
  split; [apply elem_of_app; by left|done].
Qed.

Section Step.
Context (spare : nat → nat).

Definition graph_inv (n : nat) (par : params) (g : graph) : Prop :=
  graph_ok n g ∧ g_par g = par ∧ Forall (bg_ok n par) (g_entries g).

Lemma graph_ok_register n g bg rest :
  graph_ok n g → graph_ok n (register (set_entries g rest) bg).
Proof.
  intros [[[S1 S2] H] St]. pose proof (register_covers (set_entries g rest) bg) as C.
  pose proof (register_same (set_entries g rest) bg) as (_ & _ & RE & RR).
  assert (g_heap (register (set_entries g rest) bg) = g_heap g ∧
    g_statess (register (set_entries g rest) bg) = g_statess g ∧
    g_par (register (set_entries g rest) bg) = g_par g) as (EH & ES & EP)
    by (unfold register; by destruct (scan_deps _ _ _ _)).
  split; [split; [split|]|].
  - by rewrite RR.
  - intros r hs. rewrite RE. intros Hl%S2. by apply C.
  - rewrite EH. by apply (heap_within g).
  - intros b s. rewrite ES. intros Hs%St. unfold good. rewrite EH. by apply (state_within g).
Qed.

Lemma dep_entry_ok n g d :
  dep_ok n (g_par g) d → covered g (Round (dep_Block d)) → entry_ok n g (dep_entry d).
Proof.
  intros [[[Hb Hh] _] Hp Hd] Hc. split; try done. simpl. destruct (_ =? _); [done|]. by constructor.
Qed.
Lemma self_entry_ok n g bg :
  bg_ok n (g_par g) bg → covered g (Round (bg_Block bg)) → entry_ok n g (self_entry bg).
Proof.
  intros [[[Hb Hh] _] Hp Hd] Hc. split; try done. simpl. constructor; [done|].
  apply Forall_fmap. eapply Forall_impl; [done|]. by intros d [[]].
Qed.

Lemma run_step_wp n par g :
  n = words par → params_ok par → graph_inv n par g →
  wp (run_step spare g) (λ o, ∀ g', o = Some g' → graph_inv n par g') fatal.
Proof.
  intros Hn Hp (Hg & HP & HE). unfold run_step.
  destruct (g_entries g) as [|bg rest] eqn:E; [done|]. cbv zeta.
  apply Forall_cons in HE as [Hbg HE]. apply wp_bind. eapply wp_mono.
  { apply (wp_range (λ _, True)); [done|]. intros _ d Hd _. apply debug_block_wp. rewrite HP.
    eapply Forall_forall in Hd; [|apply Hbg]. apply Hd. }
  2: done. intros _ _.
  set (g1 := register (set_entries g rest) bg).
  assert (g_par g1 = par ∧ g_entries g1 = rest) as [P1 E1]
    by (unfold g1, register; by destruct (scan_deps _ _ _ _)).
  pose proof (graph_ok_register n g bg rest Hg) as G1.
  destruct (register_covered n par (set_entries g rest) bg Hbg) as [C1 D1]. fold g1 in G1, C1, D1.
  apply wp_bind. eapply wp_mono.
  { apply (wp_range (process_post n g1)); [done|].
    intros g2 e (d & -> & Hd)%list_elem_of_fmap (G2 & C2 & P2 & E2).
    eapply wp_mono; [apply (process_wp spare n)| |done]; [congruence..|done| |].
    - apply dep_entry_ok; [rewrite P2, P1; eapply Forall_forall; [apply Hbg|done]|].
      apply C2. by eapply Forall_forall in D1.
    - intros g3 (G3 & C3 & P3 & E3). split_and!; [done|by etrans|congruence..]. }
  2: done. intros g2 (G2 & C2 & P2 & E2). apply wp_bind.
  eapply wp_mono; [apply (process_wp spare n)| |done]; [congruence..|done| |].
  - apply self_entry_ok; [by rewrite P2, P1|]. by apply C2.
  - intros g3 (G3 & C3 & P3 & E3). intros g' [= <-]. split_and!; [done|congruence|].
    by rewrite E3, E2, E1.
Qed.

Lemma mk_params_ok cfg : params_ok (mk_params cfg).
Proof.
  unfold params_ok, mk_params. simpl.
  assert (0 ≤ Z.quot (Z.of_nat (length (cfg_Peers cfg)) - 1) 3); [|lia].
  destruct (cfg_Peers cfg) as [|p ps]; [done|]. apply Z.quot_pos; simpl length; lia.
Qed.

Lemma graph_inv_New cfg :
  0 ≤ cfg_LastInterpreted cfg < 2 ^ 64 - 1 →
  graph_inv (words (mk_params cfg)) (mk_params cfg) (New cfg).
Proof.
  intros Hl. split_and!; try done. split; [split; [split|]|]; simpl; try done.
  rewrite u64_small; unfold is_u64; lia.
Qed.

Lemma graph_inv_reachable accepted cfg g :
  0 ≤ cfg_LastInterpreted cfg < 2 ^ 64 - 1 →
  (∀ bg, accepted bg → bg_ok (words (mk_params cfg)) (mk_params cfg) bg) →
  reachable spare accepted cfg g → graph_inv (words (mk_params cfg)) (mk_params cfg) g.
Proof.
  intros Hl Hacc. unfold reachable. generalize (graph_inv_New cfg Hl). generalize (New cfg) as g0.
  intros g0 H0 Hr. induction Hr as [|x y z Hxy _ IH]; [done|]. apply IH. clear IH.
  destruct Hxy as [x bg y Hbg Ha|x y Hs].
  - apply debug_bind in Ha. destruct (_ <? _); [|done]. injection Ha as <-.
    destruct H0 as ([[[S1 S2] H] St] & HP & HE). split_and!; [|done|].
    + split; [split; [split|]|]; done.
    + simpl. apply Forall_app; split; [done|]. constructor; [by apply Hacc|done].
  - pose proof (run_step_wp _ _ _ eq_refl (mk_params_ok cfg) H0) as W.
    rewrite Hs in W. by apply W.
Qed.
End Step.

(** ** The theorems *)

(** Node IDs run from 0, for the predecessor of a first block, to [N]. *)
Definition node_ok (cfg : Config) (v : Z) : Prop := 0 ≤ v ≤ Z.of_nat (length (cfg_Peers cfg)).

(** A known node, and at debug level a hash of no or at least 12 bytes, as [fmtHash] needs. *)
Definition known (cfg : Config) (b : BlockID) : Prop :=
  node_ok cfg (Node b) ∧ (cfg_AtDebug cfg = true → Msg.shows (Hash b) = true).

Definition well_formed (cfg : Config) (bg : BlockGraph) : Prop :=
  (known cfg (bg_Block bg) ∧ 0 ≤ Round (bg_Block bg) < 2 ^ 64 - 1) ∧
  known cfg (bg_Prev bg) ∧
  Forall (λ d, (known cfg (dep_Block d) ∧ 0 ≤ Round (dep_Block d) < 2 ^ 64 - 1) ∧
               known cfg (dep_Prev d) ∧ Forall (known cfg) (dep_Deps d)) (bg_Deps bg).

Lemma node_ok_range cfg v :
  Z.of_nat (length (cfg_Peers cfg)) mod 64 ≠ 0 → node_ok cfg v →
  Bitset.in_range (words (mk_params cfg)) v.
Proof.
  intros Hm [H0 H1]. unfold Bitset.in_range, words, mk_params. simpl.
  rewrite Z.shiftr_div_pow2 by lia. change (2 ^ 6) with 64. split; [done|].
  rewrite Z2Nat.id by (apply Z.div_pos; lia). Z.div_mod_to_equations; lia.
Qed.

Lemma well_formed_ok cfg bg :
  Z.of_nat (length (cfg_Peers cfg)) mod 64 ≠ 0 → well_formed cfg bg →
  bg_ok (words (mk_params cfg)) (mk_params cfg) bg.
Proof.
  intros Hm ([Hb Hr] & Hp & Hd). 
  assert (∀ b, known cfg b → ref_ok (words (mk_params cfg)) (mk_params cfg) b) as Hn
    by (intros b []; split; [by apply node_ok_range|done]).
  split; [split; auto|auto|]. eapply Forall_impl; [exact Hd|].
  intros d ([Hb' Hr'] & Hp' & Hd'). split; [split; auto|auto|].
  eapply Forall_impl; [exact Hd'|auto].
Qed.

Section Theorems.
Context (spare : nat → nat) (accepted : BlockGraph → Prop) (cfg : Config).

(** C9: On well formed block graphs (known nodes, rounds below the largest 64-bit number, and at
    debug level hashes of no or at least 12 bytes, as the log texts need), with a number of
    nodes that is not a multiple of 64, a step of the run loop never panics (no nil map write,
    failed type assertion or index out of range, the texts of the debug log included) and always
    returns; the only other outcome is the fatal exit on conflicting hashes. *)
Theorem run_step_never_panics g :
  0 ≤ cfg_LastInterpreted cfg < 2 ^ 64 - 1 → Z.of_nat (length (cfg_Peers cfg)) mod 64 ≠ 0 →
  (∀ bg, accepted bg → well_formed cfg bg) → reachable spare accepted cfg g →
  run_step spare g = Halt Fatal ∨ ∃ o, run_step spare g = Ok o.
Proof.
  intros Hl Hm Hacc Hr. apply graph_inv_reachable in Hr; [|done|eauto using well_formed_ok].
  pose proof (run_step_wp spare _ _ _ eq_refl (mk_params_ok cfg) Hr) as W.
  destruct (run_step spare g); [right; eauto|left]. simpl in W. by rewrite W.
Qed.

End Theorems.
