(* ===== verification/Meaning.v ===== *)
(** * What a block graph means for one round

    The consensus interpreter computes, block by block, a state for all rounds at once, on
    maps and slices that several states share, and drops what belongs to delivered rounds.
    Here is the same for one round alone and without sharing: a view ([rview]) is a value, a
    block's view is computed from the view of its predecessor and the messages of the blocks it
    references ([interprets]), and [meaning] is that computation over a whole block graph.
    Refine.v and RefineExec.v show that the interpreter implements it. *)

From S2P Require Import Prelude Bitset Messages Block State Graph.
Import State.

(** ** Views *)

(** A value of the key-value store; vote maps are values. *)
Inductive aval := AVal (x : sdval) | AVcs (votes : gmap Z bytes).

Record rview := mkView {
  v_bits : gmap PrePrepare bitset;
  v_data : gmap StateData aval;
  v_final : gmap nodeRound bytes;
  v_delay : gmap Z Z;
  v_clock : Z;
  v_touts : gmap Z (list timeout) }.

Definition no_view : rview := mkView ∅ ∅ ∅ ∅ 0 ∅.
#[export] Instance rview_inhabited : Inhabited rview := populate no_view.
Definition vset_bits (v : rview) pp b := mkView (<[pp := b]> (v_bits v)) (v_data v) (v_final v) (v_delay v) (v_clock v) (v_touts v).
Definition vset_data (v : rview) k x := mkView (v_bits v) (<[k := x]> (v_data v)) (v_final v) (v_delay v) (v_clock v) (v_touts v).
Definition vset_final (v : rview) nr x := mkView (v_bits v) (v_data v) (<[nr := x]> (v_final v)) (v_delay v) (v_clock v) (v_touts v).
Definition vset_delay (v : rview) d := mkView (v_bits v) (v_data v) (v_final v) d (v_clock v) (v_touts v).
Definition vset_clock (v : rview) t := mkView (v_bits v) (v_data v) (v_final v) (v_delay v) t (v_touts v).
Definition vset_touts (v : rview) t := mkView (v_bits v) (v_data v) (v_final v) (v_delay v) (v_clock v) t.
(** A timeout more at [k]. *)
Definition vadd_tout (v : rview) (k : Z) (x : timeout) : rview :=
  vset_touts v (<[k := default [] (v_touts v !! k) ++ [x]]> (v_touts v)).

(** The parameters that all nodes of a network share. *)
Definition shared (par : params) : params :=
  mkParams (peerCount par) (peers par) (quorumf1 par) (quorum2f par) (quorum2f1 par) 0 0 false.

(** ** One message of the round *)
Definition vview (v : rview) (node round : Z) : outcome (Z * rview) :=
  match v_data v !! View node round with
  | Some (AVal (VUint32 w)) => Ok (w, v)
  | Some _ => Halt Panic
  | None => Ok (0, vset_data v (View node round) (AVal (VUint32 0)))
  end.
Definition vbits (par : params) (v : rview) (pp : PrePrepare) : bitset :=
  default (Bitset.newBitset (peerCount par)) (v_bits v !! pp).
Definition vvotes (v : rview) (k : StateData) : outcome (gmap Z bytes) :=
  match v_data v !! k with
  | Some (AVcs votes) => Ok votes
  | Some _ => Halt Panic
  | None => Ok ∅
  end.
Definition has (v : rview) (k : StateData) : bool := bool_decide (is_Some (v_data v !! k)).

(** The response to a message that [rc]'s block of round [oround] gets from [sd], when [w] is the
    current view of the node and round the message is about. *)
Definition vhandle (par : params) (sd rc oround w : Z) (v : rview) (msg : Message) : outcome (option Message * rview) :=
  let '(node, round) := Msg.NodeRound msg in
  match msg with
  | MPrePrepare m =>
      if negb (w =? pp_view m) || has v (PrePrepared node round (pp_view m)) then Ok (None, v)
      else
      b ← Bitset.setPrepare (vbits par v m) sd;
      b ← Bitset.setPrepare b rc;
      Ok (Some (MPrepare (mkPrepare (pp_hash m) node round rc (pp_view m))),
          vset_data (vset_bits v m b) (PrePrepared node round (pp_view m)) (AVal (VMsg m)))
  | MPrepare m =>
      let pp := Msg.Prepare_Pre m in
      if p_view m <? w then Ok (None, v)
      else
      b ← Bitset.setPrepare (vbits par v pp) (p_sender m);
      let v := vset_bits v pp b in
      if (w <? p_view m) || negb (Bitset.prepareCount b =? quorum2f1 par) then Ok (None, v)
      else
      committed ← Bitset.hasCommit b rc;
      if committed : bool then Ok (None, v)
      else
      b ← Bitset.setCommit b rc;
      let v := vset_bits v pp b in
      let p := Prepared node round (p_view m) in
      Ok (Some (MCommit (mkCommit (p_hash m) node round rc (p_view m))),
          if has v p then v else vset_data v p (AVal (VHash (p_hash m))))
  | MCommit m =>
      let pp := Msg.Commit_Pre m in
      if w <? c_view m then Ok (None, v)
      else
      b ← Bitset.setCommit (vbits par v pp) (c_sender m);
      let v := vset_bits v pp b in
      if negb (Bitset.commitCount b =? quorum2f1 par) || bool_decide (is_Some (v_final v !! mkNodeRound node round))
      then Ok (None, v)
      else Ok (None, vset_final v (mkNodeRound node round) (c_hash m))
  | MViewChange m =>
      if vc_view m <? w then Ok (None, v)
      else
      let key := ViewChanged node round w in
      votes ← vvotes v key;
      let votes := <[vc_sender m := vc_hash m]> votes in
      let v := vset_data v key (AVcs votes) in
      if negb (Z.of_nat (size votes) =? quorum2f1 par) then Ok (None, v)
      else
      hash ← Graph.pick_hash [] (map_to_list votes).*2;
      Ok (Some (MNewView (mkNewView hash node round rc (vc_view m))),
          vset_data v (View node round) (AVal (VUint32 (vc_view m))))
  | MNewView m =>
      let key := HNV node round (nv_view m) in
      if (nv_view m <? w) || has v key then Ok (None, v)
      else
      let v := vset_data v (View node round) (AVal (VUint32 (nv_view m))) in
      let v := vadd_tout v (u64 (oround + v_clock v + 5)) (mkTimeout node round (nv_view m)) in
      Ok (Some (MPrePrepare (mkPrePrepare (nv_hash m) node round (nv_view m))), vset_data v key (AVal (VBool true)))
  end.

(** Nothing happens when the round is settled for the node. *)
Definition vmessage (par : params) (sd rc oround : Z) (v : rview) (msg : Message) : outcome (option Message * rview) :=
  let '(node, round) := Msg.NodeRound msg in
  if has v (Final node round) then Ok (None, v)
  else '(w, v) ← vview v node round; vhandle par sd rc oround w v msg.

(** ** A queue of messages

    Messages are taken from the front, each at most once, and responses go to the back. *)
Inductive eats (par : params) (sd rc oround : Z)
    : rview → gset Message → list Message → rview → gset Message → list Message → Prop :=
  | eats_nil v seen : eats par sd rc oround v seen [] v seen []
  | eats_again v seen msg q v' seen' resps :
      msg ∈ seen → eats par sd rc oround v seen q v' seen' resps →
      eats par sd rc oround v seen (msg :: q) v' seen' resps
  | eats_msg v seen msg q resp v1 v' seen' resps :
      msg ∉ seen → vmessage par sd rc oround v msg = Ok (resp, v1) →
      eats par sd rc oround v1 ({[msg]} ∪ seen) (q ++ option_list resp) v' seen' resps →
      eats par sd rc oround v seen (msg :: q) v' seen' (option_list resp ++ resps).

(** The messages of the referenced blocks, block by block; [os b] are those of [b]. *)
Inductive eats_deps (par : params) (rc oround : Z) (os : BlockID → list Message)
    : rview → gset Message → list BlockID → rview → list Message → Prop :=
  | deps_nil v seen : eats_deps par rc oround os v seen [] v []
  | deps_cons v seen dep deps v1 seen1 resps v' resps' :
      eats par (Node dep) rc oround v seen (os dep) v1 seen1 resps →
      eats_deps par rc oround os v1 seen1 deps v' resps' →
      eats_deps par rc oround os v seen (dep :: deps) v' (resps ++ resps').

(** ** One block *)

(** A timeout that expires: a view change, unless the view has moved on. *)
Definition vtimeout (node : Z) (a : rview * list Message) (t : timeout) : outcome (rview * list Message) :=
  let '(v, out) := a in
  if has v (Final (t_node t) (t_round t)) then Ok a
  else
  let skey := View (t_node t) (t_round t) in
  w ← match v_data v !! skey with
      | Some (AVal (VUint32 w)) => Ok w
      | Some _ => Halt Panic
      | None => Ok 0
      end;
  if t_view t <? w then Ok a
  else
  hval ← match v_data v !! Prepared (t_node t) (t_round t) (t_view t) with
         | Some (AVal (VHash h)) => Ok h
         | Some _ => Halt Panic
         | None => Ok []
         end;
  Ok (vset_data v skey (AVal (VUint32 (u32 (w + 1)))),
      out ++ [MViewChange (mkViewChange hval (t_node t) (t_round t) node (u32 (t_view t + 1)))]).

Definition vdelay (v : rview) (round : Z) (deps : list BlockID) : gmap Z Z :=
  foldl (λ d dep, <[Node dep := u64 (diff round (Round dep) * 10)]> d) (v_delay v) deps.

(** The view of round [r] after block [e], and the messages about [r] it sends, when [v] is the
    view after its predecessor and [os] gives the messages of the blocks it references. *)
Definition interprets (par : params) (r : Z) (v : rview) (e : entry) (os : BlockID → list Message)
    (v' : rview) (out : list Message) : Prop :=
  let block := e_block e in
  let '(node, round) := (Node block, Round block) in
  let mine := round =? r in
  ∃ tval v2 out2 v3 seen3 resps3 resps4,
    let v0 := vset_delay v (vdelay v round (e_deps e)) in
    Graph.timeout_value par (Some (v_delay v0)) = Ok tval ∧
    let v1 := vset_clock v0 tval in
    let v1 := if mine then foldl (λ v x, vadd_tout v (u64 (round + tval)) (mkTimeout x round 0)) v1 (peers par)
              else v1 in
    let own := if mine then [MPrePrepare (mkPrePrepare (Hash block) node round 0)] else [] in
    range (vtimeout node) (v1, own) (default [] (v_touts v1 !! round)) = Ok (v2, out2) ∧
    eats par node node round v2 ∅ out2 v3 seen3 resps3 ∧
    eats_deps par node round os v3 seen3 (e_deps e) v' resps4 ∧
    out = out2 ++ resps3 ++ resps4.

(** ** A graph of blocks *)

(** The view of round [r] after block [b] of the graph with the entries [D], and its messages. *)
Inductive meaning (par : params) (r : Z) (D : list entry) : BlockID → rview → list Message → Prop :=
  | meaning_block e vp op vs os v out :
      e ∈ D →
      (Valid (e_prev e) = true → meaning par r D (e_prev e) vp op) →
      (Valid (e_prev e) = false → vp = no_view) →
      (∀ dep, dep ∈ e_deps e → Valid dep = true → meaning par r D dep (vs dep) (os dep)) →
      (∀ dep, dep ∈ e_deps e → Valid dep = false → os dep = []) →
      interprets par r vp e os v out →
      meaning par r D (e_block e) v out.

(** Blocks are identified by their IDs. *)
Definition consistent (D : list entry) : Prop := ∀ e e', e ∈ D → e' ∈ D → e_block e = e_block e' → e = e'.
