(* ===== verification/MeaningFacts.v ===== *)
(** * A block graph has one meaning

    The view of a block and the messages it sends are functions of the entries of its graph. *)

From S2P Require Import Prelude Bitset Messages Block State Graph Meaning.

(** A computation has one result. *)
Local Ltac same_Ok :=
  repeat match goal with
  | A : ?t = Ok _, B : ?t = Ok _ |- _ => rewrite A in B; simplify_eq B; clear B; intros; subst
  end.

Lemma eats_fun par sd rc o v seen q v1 seen1 rs1 v2 seen2 rs2 :
  eats par sd rc o v seen q v1 seen1 rs1 → eats par sd rc o v seen q v2 seen2 rs2 →
  v1 = v2 ∧ seen1 = seen2 ∧ rs1 = rs2.
Proof.
  intros H. revert v2 seen2 rs2. induction H as [|? ? ? ? ? ? ? Hin H IH|? ? ? ? ? ? ? ? ? Hin Hm H IH]; intros v2 seen2 rs2 H2;
    inversion H2; simplify_eq; try done; same_Ok; edestruct IH as (-> & -> & ->); eauto.
Qed.

Lemma eats_deps_fun par rc o os os' v seen deps v1 rs1 v2 rs2 :
  (∀ dep, dep ∈ deps → os dep = os' dep) →
  eats_deps par rc o os v seen deps v1 rs1 → eats_deps par rc o os' v seen deps v2 rs2 → v1 = v2 ∧ rs1 = rs2.
Proof.
  intros Hos H. revert v2 rs2 Hos. induction H as [|? ? dep ? ? ? ? ? ? He H IH]; intros v2 rs2 Hos H2;
    inversion H2 as [|? ? ? ? ? ? ? ? ? He' H']; simplify_eq; [done|].
  rewrite <- Hos in He' by left. destruct (eats_fun _ _ _ _ _ _ _ _ _ _ _ _ _ He He') as (? & ? & ->). subst.
  edestruct IH as (-> & ->); eauto. intros d Hd. apply Hos. by right.
Qed.

Lemma interprets_fun par r v e os os' v1 out1 v2 out2 :
  (∀ dep, dep ∈ e_deps e → os dep = os' dep) →
  interprets par r v e os v1 out1 → interprets par r v e os' v2 out2 → v1 = v2 ∧ out1 = out2.
Proof.
  intros Hos (t & va & oa & vb & sb & rb & rc & Ht & Ha & Hb & Hc & ->) (t' & va' & oa' & vb' & sb' & rb' & rc' & Ht' & Ha' & Hb' & Hc' & ->).
  cbv zeta in *. same_Ok. same_Ok. destruct (eats_fun _ _ _ _ _ _ _ _ _ _ _ _ _ Hb Hb') as (? & ? & ->). subst.
  by destruct (eats_deps_fun _ _ _ _ _ _ _ _ _ _ _ _ Hos Hc Hc') as [-> ->].
Qed.

Lemma meaning_fun par r D b v out v' out' :
  consistent D → meaning par r D b v out → meaning par r D b v' out' → v = v' ∧ out = out'.
Proof.
  intros HD H. revert v' out'.
  induction H as [e vp op vs os v out He Hp IHp Hp0 Hd IHd Hd0 Hi]; intros v' out' H'.
  remember (e_block e) as b eqn:Eb.
  destruct H' as [e' vp' op' vs' os' v' out' He' Hp' Hp0' Hd' Hd0' Hi'].
  apply HD in Eb as ->; [|done..]. assert (vp = vp') as <-.
  { destruct (Valid (e_prev e)) eqn:E; [by eapply IHp, Hp'|by rewrite Hp0, Hp0']. }
  eapply interprets_fun; [|exact Hi|exact Hi']. intros dep Hdep.
  destruct (Valid dep) eqn:E; [by eapply IHd, Hd'|by rewrite Hd0, Hd0'].
Qed.

Lemma meaning_mono par r D D' b v out : D ⊆ D' → meaning par r D b v out → meaning par r D' b v out.
Proof. intros HD H. induction H; econstructor; eauto. Qed.

Lemma meaning_known par r D b v out : meaning par r D b v out → b ∈ e_block <$> D.
Proof. intros []. by apply list_elem_of_fmap_2. Qed.
