(* ===== verification/Refine.v ===== *)
(** * The interpreter implements the meaning of a block, round by round

    States of the interpreter live on a heap they share.  [abs r K h s v] relates such a state to
    the view of one round [r], [sep] says that the parts of a state do not overlap on the heap
    and [modifies] that an operation writes only to the parts of the state it works on.  The
    lemmas go through the interpreter from the single writes ([eff]) to [process]. *)

From S2P Require Import Prelude Bitset Messages Block State Graph Deliver Updates Termination Protocol Typing Chain Meaning.
Import Graph State.

(** ** The abstraction *)
Definition deref (h : heap) (x : sdval) : option aval :=
  match x with
  | VVcs loc => AVcs <$> h_vcs h !! loc
  | _ => Some (AVal x)
  end.

Definition about (r : Z) (m : Message) : Prop := (Msg.NodeRound m).2 = r.
#[export] Instance about_dec r m : Decision (about r m).
Proof. unfold about; apply _. Defined.

Definition pending (r : Z) (l : list timeout) : list timeout := filter (λ t, t_round t = r) l.

(** [v] is what [s] says about round [r]; timeouts before [K] have expired. *)
Record abs (r K : Z) (h : heap) (s : state) (v : rview) : Prop := {
  ab_bits : ∀ pp, pp_round pp = r → get (bitsets s) pp = v_bits v !! pp;
  ab_data : ∀ k, Sd.GetRound k = r → get (data s) k ≫= deref h = v_data v !! k;
  ab_final : ∀ nr, nr_round nr = r → get (final s) nr = v_final v !! nr;
  ab_delay : default ∅ (delay s) = v_delay v;
  ab_clock : timeout_ s = v_clock v;
  ab_touts : ∀ k, K ≤ k → pending r (Heap.read h (timeouts s !! k)) = default [] (v_touts v !! k) }.

(** ** Footprints *)
Definition vloc (s : state) (loc : nat) : Prop := ∃ k, get (data s) k = Some (VVcs loc).
Definition aloc (s : state) (a : nat) : Prop := ∃ k sl, timeouts s !! k = Some sl ∧ sl_arr sl = a.

Record sep (h : heap) (s : state) : Prop := {
  sep_vlt : ∀ loc, vloc s loc → (loc < length (h_vcs h))%nat;
  sep_vinj : ∀ k k' loc, get (data s) k = Some (VVcs loc) → get (data s) k' = Some (VVcs loc) → k = k';
  sep_alt : ∀ a, aloc s a → (a < length (h_arr h))%nat;
  sep_ainj : ∀ k k' sl sl', timeouts s !! k = Some sl → timeouts s !! k' = Some sl' →
             sl_arr sl = sl_arr sl' → k = k';
  sep_len : ∀ k sl, timeouts s !! k = Some sl → (sl_len sl ≤ length (Heap.arr_of h sl))%nat }.

Record modifies (h : heap) (s : state) (h' : heap) (s' : state) : Prop := {
  mo_vlen : (length (h_vcs h) ≤ length (h_vcs h'))%nat;
  mo_alen : (length (h_arr h) ≤ length (h_arr h'))%nat;
  mo_vkeep : ∀ loc, (loc < length (h_vcs h))%nat → ¬ vloc s loc → h_vcs h' !! loc = h_vcs h !! loc;
  mo_akeep : ∀ a, (a < length (h_arr h))%nat → ¬ aloc s a → h_arr h' !! a = h_arr h !! a;
  mo_vfp : ∀ loc, vloc s' loc → vloc s loc ∨ (length (h_vcs h) ≤ loc)%nat;
  mo_afp : ∀ a, aloc s' a → aloc s a ∨ (length (h_arr h) ≤ a)%nat }.

Lemma modifies_refl h s : modifies h s h s.
Proof. split; auto. Qed.

Lemma modifies_trans h1 s1 h2 s2 h3 s3 :
  modifies h1 s1 h2 s2 → modifies h2 s2 h3 s3 → modifies h1 s1 h3 s3.
Proof.
  intros [VL AL VK AK VF AF] [VL' AL' VK' AK' VF' AF']. split; try lia.
  - intros loc Hl Hn. rewrite VK', VK; auto; [lia|]. intros [?|?]%VF; [done|lia].
  - intros a Hl Hn. rewrite AK', AK; auto; [lia|]. intros [?|?]%AF; [done|lia].
  - intros loc [[?|?]%VF|?]%VF'; auto; right; lia.
  - intros a [[?|?]%AF|?]%AF'; auto; right; lia.
Qed.

(** ** Effects

    A write about round [q]: it stays in the footprint, keeps the parts apart, and changes the view
    of [q] by [f] and no other. *)
Section Effects.
Context (spare : nat → nat) (r K : Z).
Implicit Types (h : heap) (s : state) (v : rview) (f : rview → rview).

Definition on (q : Z) f v : rview := if decide (q = r) then f v else v.

Definition eff (q : Z) h s h' s' f : Prop :=
  sep h s → modifies h s h' s' ∧ sep h' s' ∧ ∀ v, abs r K h s v → abs r K h' s' (on q f v).

Lemma eff_id q h s : eff q h s h s id.
Proof.
  intros S. split_and!; [apply modifies_refl|done|]. intros v A. unfold on. by case_decide.
Qed.

Lemma eff_trans q h1 s1 h2 s2 h3 s3 f1 f2 :
  eff q h1 s1 h2 s2 f1 → eff q h2 s2 h3 s3 f2 → eff q h1 s1 h3 s3 (λ v, f2 (f1 v)).
Proof.
  intros E1 E2 S1. destruct (E1 S1) as (M1 & S2 & A1). destruct (E2 S2) as (M2 & S3 & A2).
  split_and!; [by eapply modifies_trans|done|]. intros v A%A1%A2. revert A. unfold on. by case_decide.
Qed.

(** Without a new reference, keys can only leave the footprint. *)
Lemma sub_footprint h s s' :
  (∀ loc, vloc s' loc → vloc s loc) → (∀ a, aloc s' a → aloc s a) → modifies h s h s'.
Proof. intros V A. split; auto. Qed.

Definition plain (x : sdval) : Prop := match x with VVcs _ => False | _ => True end.

Lemma eff_put q h s k x :
  plain x → Sd.GetRound k = q →
  eff q h s h (set_data s (put (data s) k x)) (λ v, vset_data v k (AVal x)).
Proof.
  intros Hx Hk [VL VI AL AI LN].
  assert (∀ k' loc, get (put (data s) k x) k' = Some (VVcs loc) → get (data s) k' = Some (VVcs loc)) as Hg.
  { intros k' loc. rewrite get_put. case_decide; [|done]. by intros [= ->]. }
  split_and!.
  - apply sub_footprint; [|done]. intros loc [k' H]. exists k'. by apply Hg.
  - split; simpl; eauto. intros loc [k' H]. apply VL. exists k'. by apply Hg.
  - intros v []. unfold on. case_decide; split; simpl; auto; intros k' Hk'; rewrite get_put.
    + case_decide; subst; [rewrite lookup_insert_eq; by destruct x|rewrite lookup_insert_ne; auto].
    + rewrite decide_False by congruence. auto.
Qed.

Lemma eff_make q h s : eff q h s h (set_data s (Some (default ∅ (data s)))) id.
Proof.
  intros [VL VI AL AI LN]. split_and!.
  - apply sub_footprint; [|done]. intros loc [k' H]. exists k'. by rewrite <- get_default.
  - split; simpl; eauto.
    + intros loc [k' H]. apply VL. exists k'. by rewrite <- get_default.
    + intros k k' loc H H'. apply (VI k k' loc); by destruct (data s).
  - intros v []. unfold on. assert (v = id v) as <- by done.
    case_decide; split; simpl; auto; intros k Hk; rewrite <- ab_data0 by done; by destruct (data s).
Qed.

Lemma eff_count q h s size pp b s1 b' :
  pp_round pp = q → getBitset s size pp = (b, s1) →
  eff q h s h (store_bitset s1 pp b') (λ v, vset_bits v pp b').
Proof.
  intros Hq Hg S.
  assert (∃ m, store_bitset s1 pp b' = set_bitsets s m ∧
               ∀ p, get m p = if decide (pp = p) then Some b' else get (bitsets s) p) as (m & -> & Hm).
  { apply getBitset_Ok in Hg as [_ [->|(_ & _ & ->)]]; eexists; (split; [done|]); intros p; simpl;
      rewrite ?get_put; [done|]. by case_decide. }
  split_and!; [by apply sub_footprint|by destruct S|].
  intros v []. unfold on. case_decide; split; simpl; auto; intros p Hp; rewrite Hm.
  - case_decide; subst; [by rewrite lookup_insert_eq|rewrite lookup_insert_ne; auto].
  - rewrite decide_False by congruence. auto.
Qed.

Lemma eff_store q h s pp b :
  pp_round pp = q → eff q h s h (store_bitset s pp b) (λ v, vset_bits v pp b).
Proof.
  intros Hq S. split_and!; [by apply sub_footprint|by destruct S|].
  intros v []. unfold on. case_decide; split; simpl; auto; intros p Hp; rewrite get_put.
  - case_decide; subst; [by rewrite lookup_insert_eq|rewrite lookup_insert_ne; auto].
  - rewrite decide_False by congruence. auto.
Qed.

Lemma eff_final q h s nr x :
  nr_round nr = q → eff q h s h (set_final s (put (final s) nr x)) (λ v, vset_final v nr x).
Proof.
  intros Hq S. split_and!; [by apply sub_footprint|by destruct S|].
  intros v []. unfold on. case_decide; split; simpl; auto; intros p Hp; rewrite get_put.
  - case_decide; subst; [by rewrite lookup_insert_eq|rewrite lookup_insert_ne; auto].
  - rewrite decide_False by congruence. auto.
Qed.

Lemma eff_ext q h s h' s' f f' : (∀ v, f v = f' v) → eff q h s h' s' f → eff q h s h' s' f'.
Proof.
  intros E H S. destruct (H S) as (M & S' & A). split_and!; [done..|]. intros v Hv%A. revert Hv.
  unfold on. by rewrite E.
Qed.

(** A new vote map. *)
Lemma eff_alloc q h s key :
  Sd.GetRound key = q →
  let '(loc, h') := Heap.alloc_vcs h in
  eff q h s h' (set_data s (put (data s) key (VVcs loc))) (λ v, vset_data v key (AVcs ∅)).
Proof.
  intros Hq S. pose proof S as [VL VI AL AI LN]. simpl.
  assert (∀ k loc, get (put (data s) key (VVcs (length (h_vcs h)))) k = Some (VVcs loc) →
          (key = k ∧ loc = length (h_vcs h)) ∨
          (key ≠ k ∧ get (data s) k = Some (VVcs loc) ∧ (loc < length (h_vcs h))%nat)) as Hg.
  { intros k loc. rewrite get_put. case_decide; [by intros [= ->]; left|]. intros Hk. right.
    split_and!; [done..|]. apply VL. by exists k. }
  split_and!.
  - split; simpl; auto; rewrite ?length_app; try lia.
    + intros loc Hl _. by rewrite lookup_app_l.
    + intros loc [k [[_ ->]|(_ & H & _)]%Hg]; [by right|left; by exists k].
  - split; simpl; auto.
    + intros loc [k [[_ ->]|(_ & _ & H)]%Hg]; rewrite length_app; simpl; lia.
    + intros k k' loc [[<- ->]|(N & H & L)]%Hg [[<- E]|(N' & H' & L')]%Hg; try done; try lia. eauto.
  - intros v A. unfold on. case_decide; split; simpl; try apply A; intros k Hk; rewrite get_put.
    + case_decide; subst.
      * rewrite lookup_insert_eq. simpl. by rewrite lookup_app_r, Nat.sub_diag.
      * rewrite lookup_insert_ne by done. rewrite <- (ab_data _ _ _ _ _ A) by done.
        destruct (get (data s) k) as [[]|] eqn:E; simpl; try done.
        rewrite lookup_app_l; [done|]. apply VL. by exists k.
    + rewrite decide_False by congruence. rewrite <- (ab_data _ _ _ _ _ A) by done.
      destruct (get (data s) k) as [[]|] eqn:E; simpl; try done.
      rewrite lookup_app_l; [done|]. apply VL. by exists k.
Qed.

(** A write to a vote map. *)
Lemma eff_write q h s key loc m :
  get (data s) key = Some (VVcs loc) → Sd.GetRound key = q →
  eff q h s (mkHeap (<[loc := m]> (h_vcs h)) (h_arr h)) s (λ v, vset_data v key (AVcs m)).
Proof.
  intros Hd Hq S. pose proof S as [VL VI AL AI LN]. split_and!.
  - split; simpl; auto; rewrite ?length_insert; try lia.
    intros l Hl Hn. apply list_lookup_insert_ne. intros ->. apply Hn. by exists key.
  - split; simpl; auto. intros l Hl. rewrite length_insert. auto.
  - intros v A. assert (∀ k, key ≠ k → get (data s) k ≫= deref (mkHeap (<[loc := m]> (h_vcs h)) (h_arr h)) =
                             get (data s) k ≫= deref h) as Hk.
    { intros k Hk. destruct (get (data s) k) as [[]|] eqn:E; simpl; try done.
      rewrite list_lookup_insert_ne; [done|]. intros ->. eapply Hk, VI; eauto. }
    unfold on. case_decide; split; simpl; try apply A; intros k Hr.
    + destruct (decide (key = k)) as [<-|Hn].
      * rewrite Hd, lookup_insert_eq. simpl. rewrite list_lookup_insert_eq; [done|]. apply VL. by exists key.
      * rewrite lookup_insert_ne, Hk by done. by apply A.
    + rewrite Hk; [by apply A|congruence].
Qed.

(** [vcs[sender] = hash] on the votes under [key], which are created when missing. *)
Lemma eff_vote q g s key loc s' g' n x h' vcs :
  find_vcs g s key = Ok (loc, s', g') → Heap.set_vcs (g_heap g') loc n x = Ok h' →
  Heap.get_vcs h' loc = Ok vcs → Sd.GetRound key = q →
  eff q (g_heap g) s h' s' (λ v, vset_data v key (AVcs vcs)) ∧
  (∀ v, q = r → abs r K (g_heap g) s v → ∃ votes, vvotes v key = Ok votes ∧ vcs = <[n := x]> votes) ∧
  g_par g' = g_par g.
Proof.
  intros Hf Hs Hg Hq. apply and_assoc. split; [|by apply frame_find_vcs in Hf as []]. unfold Heap.set_vcs, Heap.get_vcs in *.
  apply bind_Ok in Hs as (m & Hm%or_panic_Ok & [= <-]). apply or_panic_Ok in Hg. simpl in Hg.
  rewrite list_lookup_insert_eq in Hg by (by eapply lookup_lt_Some). simplify_eq Hg. intros <-.
  apply find_vcs_Ok in Hf as [(Hk & -> & ->)|(Hk & -> & -> & ->)].
  - split; [by apply eff_write|]. intros v <- A. unfold vvotes.
    rewrite <- (ab_data _ _ _ _ _ A), Hk by done. simpl. rewrite Hm. eauto.
  - simpl in Hm. rewrite lookup_app_r, Nat.sub_diag in Hm by done. simplify_eq Hm. intros <-. split.
    + eapply eff_ext; [|eapply eff_trans; [by eapply eff_alloc|]].
      2:{ apply (eff_write q _ _ key); [simpl; by rewrite get_put_eq|done]. }
      intros v. unfold vset_data. simpl. by rewrite insert_insert_eq.
    + intros v <- A. unfold vvotes. rewrite <- (ab_data _ _ _ _ _ A), Hk by done. simpl. eauto.
Qed.
(** [append] adds to what the slice holds and leaves the other arrays alone. *)
Lemma append_spec h os x h' sl :
  Heap.append spare h os x = (h', sl) →
  (∀ sl0, os = Some sl0 → (sl_arr sl0 < length (h_arr h))%nat ∧ (sl_len sl0 ≤ length (Heap.arr_of h sl0))%nat) →
  h_vcs h' = h_vcs h ∧ (length (h_arr h) ≤ length (h_arr h'))%nat ∧
  (sl_arr sl < length (h_arr h'))%nat ∧
  ((length (h_arr h) ≤ sl_arr sl)%nat ∨ ∃ sl0, os = Some sl0 ∧ sl_arr sl = sl_arr sl0) ∧
  (∀ a, (a < length (h_arr h))%nat → a ≠ sl_arr sl → h_arr h' !! a = h_arr h !! a) ∧
  (sl_len sl ≤ length (Heap.arr_of h' sl))%nat ∧
  Heap.read h' (Some sl) = Heap.read h os ++ [x].
Proof.
  unfold Heap.append, Heap.arr_of. intros H Hos. destruct os as [sl0|]; simpl in H.
  - destruct (Hos _ eq_refl) as [L1 L2].
    destruct (lookup_lt_is_Some_2 _ _ L1) as [a Ha]. rewrite Ha in *. simpl in *.
    case_bool_decide as Hc; simplify_eq/=; unfold Heap.arr_of; simpl.
    + rewrite length_insert, list_lookup_insert_eq, Ha by done. simpl. split_and!; eauto.
      * intros a' _ Hn. by rewrite list_lookup_insert_ne.
      * rewrite length_insert. lia.
      * rewrite (take_S_r _ _ x) by (by rewrite list_lookup_insert_eq). by rewrite take_insert_ge.
    + rewrite length_app, lookup_app_r, Nat.sub_diag, Ha by done. simpl. split_and!; eauto; try lia.
      * intros a' Hl _. by rewrite lookup_app_l.
      * rewrite length_app. simpl. lia.
      * assert (sl_len sl0 = length a) as -> by lia. rewrite firstn_all.
        replace (S (length a)) with (length a + 1)%nat by lia. by rewrite take_app_add.
  - simplify_eq/=. unfold Heap.arr_of; simpl. rewrite length_app, lookup_app_r, Nat.sub_diag by done. simpl.
    split_and!; eauto; try lia. intros a' Hl _. by rewrite lookup_app_l.
Qed.
Lemma read_keep h h' s k :
  (∀ a, aloc s a → h_arr h' !! a = h_arr h !! a) → Heap.read h' (timeouts s !! k) = Heap.read h (timeouts s !! k).
Proof.
  intros H. destruct (timeouts s !! k) as [sl|] eqn:E; [|done]. simpl. unfold Heap.arr_of.
  rewrite H; [done|]. by exists k, sl.
Qed.

Lemma eff_append q g s k x s' g' :
  append_timeout spare g s k x = (s', g') → t_round x = q →
  eff q (g_heap g) s (g_heap g') s' (λ v, vadd_tout v k x) ∧ data s' = data s ∧ timeout_ s' = timeout_ s.
Proof.
  unfold append_timeout. destruct (Heap.append _ _ _ _) as [h' sl] eqn:E. intros [= <- <-] Hq.
  split; [|done]. intros S. pose proof S as [VL VI AL AI LN].
  apply append_spec in E as (HV & HL & H1 & H2 & HA & HN & HR);
    [|intros sl0 H0; split; [apply AL; by exists k, sl0|eauto]]. simpl.
  assert (∀ k' sl', k ≠ k' → timeouts s !! k' = Some sl' → h_arr h' !! sl_arr sl' = h_arr (g_heap g) !! sl_arr sl' ∧
            (sl_arr sl' < length (h_arr (g_heap g)))%nat ∧ sl_arr sl' ≠ sl_arr sl) as Hk.
  { intros k' sl' Hn Hs. assert (sl_arr sl' < length (h_arr (g_heap g)))%nat by (apply AL; by exists k', sl').
    assert (sl_arr sl' ≠ sl_arr sl); [|by auto]. intros Ea. destruct H2 as [?|(sl0 & H0 & E0)]; [lia|].
    apply Hn. eapply AI; [exact H0|exact Hs|congruence]. }
  split_and!.
  - split; simpl; auto; rewrite ?HV; auto.
    + intros a Ha Hn. apply HA; [done|]. intros ->. destruct H2 as [?|(sl0 & H0 & E0)]; [lia|].
      apply Hn. by exists k, sl0.
    + intros a (k' & sl' & H & <-). simpl in H. destruct (decide (k = k')) as [<-|Hn].
      * rewrite lookup_insert_eq in H. simplify_eq. destruct H2 as [?|(sl0 & H0 & E0)]; [by right|].
        left. by exists k, sl0.
      * rewrite lookup_insert_ne in H by done. left. by exists k', sl'.
  - split; simpl; rewrite ?HV; auto.
    + intros a (k' & sl' & H & <-). simpl in H. destruct (decide (k = k')) as [<-|Hn].
      * rewrite lookup_insert_eq in H. by simplify_eq.
      * rewrite lookup_insert_ne in H by done. apply Hk in H as (_ & ? & _); [lia|done].
    + intros k1 k2 sl1 sl2. rewrite !lookup_insert. do 2 case_decide; subst; intros A B; simplify_eq; try done.
      * intros Ea. by apply Hk in B as (_ & _ & []).
      * intros Ea. by apply Hk in A as (_ & _ & []).
      * eauto.
    + intros k1 sl1. rewrite lookup_insert. case_decide; subst; intros A; simplify_eq; [done|].
      unfold Heap.arr_of. destruct (Hk _ _ H A) as [-> _]. eauto.
  - intros v A. assert (∀ k', k ≠ k' → Heap.read h' (timeouts s !! k') = Heap.read (g_heap g) (timeouts s !! k')) as HK.
    { intros k' Hn. destruct (timeouts s !! k') as [sl'|] eqn:E; [|done]. simpl. unfold Heap.arr_of.
      by destruct (Hk _ _ Hn E) as [-> _]. }
    assert (∀ d, d ≫= deref h' = d ≫= deref (g_heap g)) as HD.
    { intros [[]|]; simpl; rewrite ?HV; done. }
    unfold on. case_decide; split; simpl; try apply A; try (intros; rewrite HD; by apply A).
    + intros k' Hk'. rewrite !lookup_insert. case_decide; subst.
      * rewrite HR. unfold pending. rewrite filter_app. simpl. f_equal; [by apply A|].
        rewrite filter_cons_True; done.
      * rewrite HK by done. by apply A.
    + intros k' Hk'. rewrite !lookup_insert. case_decide; subst.
      * rewrite HR. unfold pending. rewrite filter_app, filter_cons_False by done. rewrite app_nil_r. by apply A.
      * rewrite HK by done. by apply A.
Qed.
(** ** Reads *)
Lemma eff_abs h s h' s' f v :
  eff r h s h' s' f → sep h s → abs r K h s v → sep h' s' ∧ abs r K h' s' (f v).
Proof.
  intros E S A. destruct (E S) as (_ & S' & H). split; [done|]. apply H in A. revert A. unfold on.
  by rewrite decide_True.
Qed.

Lemma has_read h s v k :
  sep h s → abs r K h s v → Sd.GetRound k = r → has v k = bool_decide (is_Some (get (data s) k)).
Proof.
  intros S A Hk. unfold has. rewrite <- (ab_data _ _ _ _ _ A) by done.
  destruct (get (data s) k) as [[]|] eqn:E; simpl; try done.
  destruct (lookup_lt_is_Some_2 (h_vcs h) loc) as [m ->]; [|done]. eapply sep_vlt; [done|by exists k].
Qed.

Lemma has_bits v pp b k : has (vset_bits v pp b) k = has v k.
Proof. done. Qed.

Lemma data_read h s v k x :
  abs r K h s v → Sd.GetRound k = r → plain x → get (data s) k = Some x → v_data v !! k = Some (AVal x).
Proof. intros A Hk Hx E. rewrite <- (ab_data _ _ _ _ _ A), E by done. by destruct x. Qed.
Lemma data_read_None h s v k :
  abs r K h s v → Sd.GetRound k = r → get (data s) k = None → v_data v !! k = None.
Proof. intros A Hk E. by rewrite <- (ab_data _ _ _ _ _ A), E by done. Qed.

Lemma bits_read h s v size pp b s1 :
  abs r K h s v → pp_round pp = r → getBitset s size pp = (b, s1) → b = default (Bitset.newBitset size) (v_bits v !! pp).
Proof.
  intros A Hp Hg. rewrite <- (ab_bits _ _ _ _ _ A) by done.
  apply getBitset_Ok in Hg as [Hb [->|(-> & -> & _)]]; [by rewrite Hb|done].
Qed.

Lemma eff_getView q h s n w s1 :
  getView s n q = Ok (w, s1) →
  ∃ f, eff q h s h s1 f ∧ (q = r → ∀ v, abs r K h s v → vview v n q = Ok (w, f v)).
Proof.
  unfold getView. intros H. destruct (get (data s) (View n q)) as [[]|] eqn:E; simplify_eq.
  - exists id. split; [apply eff_id|]. intros -> v A. unfold vview. by rewrite (data_read _ _ _ (View n r) (VUint32 w) A eq_refl I E).
  - eexists. split; [by apply eff_put|]. intros -> v A. unfold vview. by rewrite (data_read_None _ _ _ (View n r) A eq_refl E).
Qed.
Lemma deliver_heap g n q x g' : is_u64 (g_round g) → deliver g n q x = Ok g' → g_heap g' = g_heap g.
Proof.
  intros Hu [[_ ->]|(hs & g1 & _ & _ & -> & _ & S & _)]%deliver_ok; [done| |done]. by apply S.
Qed.

(** ** One message *)

(** The operation from [(h, s)] to [(h', s')] is [body] on the views of round [q]. *)
Definition handles (q : Z) h s h' s' (resp : option Message) (body : rview → outcome (option Message * rview)) : Prop :=
  ∃ f, eff q h s h' s' f ∧
    (q = r → sep h s → ∀ v, abs r K h s v → body v = Ok (resp, f v)).

Lemma handles_ret q h s resp : handles q h s h s resp (λ v, Ok (resp, v)).
Proof. exists id. split; [apply eff_id|done]. Qed.

Lemma handles_after q h s h1 s1 h' s' f resp body body' :
  eff q h s h1 s1 f → handles q h1 s1 h' s' resp body' →
  (q = r → sep h s → ∀ v, abs r K h s v → body v = body' (f v)) →
  handles q h s h' s' resp body.
Proof.
  intros E1 (f' & E2 & V) Hb. eexists. split; [by eapply eff_trans|]. intros -> S v A.
  destruct (eff_abs _ _ _ _ _ _ E1 S A). rewrite Hb by done. by apply V.
Qed.
(** A change to the state that [body] also makes, and nothing else. *)
Lemma handles_eff q h s h' s' f resp (body : rview → outcome (option Message * rview)) :
  eff q h s h' s' f →
  (q = r → sep h s → ∀ v, abs r K h s v → body v = Ok (resp, f v)) → handles q h s h' s' resp body.
Proof. intros E V. by exists f. Qed.

(** The vote [E] takes from the state, and [E'] counts, is the one of the view. *)
Local Ltac read_bits A Hr E E' :=
  let H := fresh in
  unfold vbits; pose proof (λ Hp, bits_read _ _ _ _ _ _ _ A Hp E) as H; rewrite <- (H Hr), E'; clear H; simpl.

(** The quorum of prepares is there: the commit is counted and the prepared hash kept. *)
Lemma prepare_leaf g s m rc b s1 x x1 w :
  let pp := Msg.Prepare_Pre m in
  let key := Prepared (p_node m) (p_round m) (p_view m) in
  let s2 := store_bitset (store_bitset s1 pp x) pp x1 in
  getBitset s (peerCount (g_par g)) pp = (b, s1) → Bitset.setPrepare b (p_sender m) = Ok x →
  (p_view m <? w) = false → (w <? p_view m) = false →
  negb (Bitset.prepareCount x =? quorum2f1 (g_par g)) = false →
  Bitset.hasCommit x rc = Ok false → Bitset.setCommit x rc = Ok x1 →
  handles (p_round m) (g_heap g) s (g_heap g)
    (if bool_decide (is_Some (get (data s1) key)) then s2 else set_data s2 (put (data s1) key (VHash (p_hash m))))
    (Some (MCommit (mkCommit (p_hash m) (p_node m) (p_round m) rc (p_view m))))
    (λ v, vhandle (g_par g) 0 rc 0 w v (MPrepare m)).
Proof.
  intros pp key s2 E1 E2 H1 H2 E3 E4 E6. subst pp key. unfold vhandle. simpl. rewrite H1, H2.
  assert (data s1 = data s) as D by (by apply getBitset_votes in E1 as (_ & _ & _ & _ & ? & _)).
  pose proof (eff_count _ (g_heap g) _ _ _ _ _ x eq_refl E1) as F1.
  pose proof (eff_trans _ _ _ _ _ _ _ _ _ F1 (eff_store (p_round m) (g_heap g) _ (Msg.Prepare_Pre m) x1 eq_refl)) as F.
  rewrite D. case_bool_decide as Hb.
  - eapply handles_eff; [exact F|]. intros Hr S v A. read_bits A Hr E1 E2. rewrite E3, E4. simpl.
    rewrite E6. simpl. by rewrite !has_bits, (has_read _ _ v (Prepared _ _ _) S A Hr), bool_decide_eq_true_2.
  - eapply handles_eff; [eapply eff_trans; [exact F|]; rewrite <- D; by apply (eff_put _ _ s2)|].
    intros Hr S v A. read_bits A Hr E1 E2. rewrite E3, E4. simpl.
    rewrite E6. simpl. by rewrite !has_bits, (has_read _ _ v (Prepared _ _ _) S A Hr), bool_decide_eq_false_2.
Qed.

Lemma processMessage_eff g s sd rc o msg resp s' g' :
  is_u64 (g_round g) → processMessage spare g s sd rc o msg = Ok (resp, s', g') →
  handles (Msg.NodeRound msg).2 (g_heap g) s (g_heap g') s' resp (λ v, vmessage (g_par g) sd rc (Round o) v msg).
Proof.
  unfold processMessage, vmessage. destruct (Msg.NodeRound msg) as [node q] eqn:Eq. simpl. intros Hu H.
  case_bool_decide as HF.
  { simplify_eq. eapply handles_eff; [apply eff_id|]. intros -> S v A.
    rewrite (has_read _ _ _ _ S A), bool_decide_eq_true_2; done. }
  apply bind_Ok in H as ([w s0] & Hv & H). apply (eff_getView _ (g_heap g)) in Hv as (f0 & E0 & V0).
  eapply (handles_after _ _ _ _ _ _ _ _ _ _ (λ v, vhandle (g_par g) sd rc (Round o) w v msg)); [exact E0| |].
  2:{ intros Hr S v A. by rewrite (has_read _ _ _ _ S A), bool_decide_eq_false_2, (V0 Hr _ A). }
  clear HF E0 V0 f0. unfold vhandle. rewrite Eq.
  destruct msg; simpl in Eq; injection Eq as <- <-; go_inv H; simplify_eq;
    try (eapply handles_eff; [apply eff_id|done]).
  - eapply handles_eff; [apply eff_id|]. intros Hr S v A. by rewrite (has_read _ _ _ _ S A), E0.
  - eapply handles_eff; [eapply eff_trans; [by apply (eff_count _ _ _ _ _ _ _ x0 eq_refl E1)|
      by apply (eff_put _ _ (store_bitset s1 m x0))]|].
    intros Hr S v A. rewrite (has_read _ _ _ _ S A), E0 by done. simpl. read_bits A Hr E1 E2. by rewrite E3.
  - eapply handles_eff; [by eapply eff_count|]. intros Hr S v A. by read_bits A Hr E1 E2.
  - eapply handles_eff; [by eapply eff_count|]. intros Hr S v A. read_bits A Hr E1 E2. by rewrite E3.
  - eapply handles_eff; [by eapply eff_count|]. intros Hr S v A. read_bits A Hr E1 E2. rewrite E3. simpl. by rewrite E4.
  - destruct (prepare_leaf g' s0 m rc b s1 x x1 w) as (f & F & V); try done. exists f. split; [done|].
    intros Hr S v A. rewrite <- (V Hr S v A). unfold vhandle. simpl. by rewrite E, E0.
  - eapply handles_eff; [by eapply eff_count|]. intros Hr S v A. read_bits A Hr E0 E1. by rewrite E2.
  - assert (final s1 = final s0) as D by (by apply getBitset_votes in E0 as (_ & _ & _ & _ & _ & ? & _)).
    eapply handles_eff; [by eapply eff_count|]. intros Hr S v A. read_bits A Hr E0 E1.
    rewrite E2, <- (ab_final _ _ _ _ _ A), <- D by done. simpl in E3. by rewrite E3.
  - assert (final s1 = final s0) as D by (by apply getBitset_votes in E0 as (_ & _ & _ & _ & _ & ? & _)).
    rewrite (deliver_heap _ _ _ _ _ Hu E4).
    eapply handles_eff; [eapply eff_trans; [by apply (eff_count _ _ _ _ _ _ _ x eq_refl E0)|
      by apply (eff_final _ _ (store_bitset s1 (Msg.Commit_Pre m) x))]|]. intros Hr S v A. read_bits A Hr E0 E1.
    rewrite E2, <- (ab_final _ _ _ _ _ A), <- D by done. simpl in E3. by rewrite E3.
  - destruct (eff_vote _ _ _ _ _ _ _ _ _ _ _ E0 E3 E4 eq_refl) as (F & V & HP).
    eapply handles_eff; [exact F|]. intros Hr S v A. destruct (V v Hr A) as (votes & -> & ->). simpl.
    by rewrite <- HP, E5.
  - destruct (eff_vote _ _ _ _ _ _ _ _ _ _ _ E0 E3 E4 eq_refl) as (F & V & HP).
    apply put_nonnil_Ok in E6 as [_ ->].
    eapply handles_eff; [eapply eff_trans; [exact F|by apply eff_put]|].
    intros Hr S v A. destruct (V v Hr A) as (votes & -> & ->). simpl. rewrite <- HP, E5. by rewrite E7.
  - eapply handles_eff; [apply eff_id|]. intros Hr S v A. by rewrite (has_read _ _ _ _ S A), E0.
  - match goal with P : put_nonnil _ _ _ = Ok _ |- _ => apply put_nonnil_Ok in P as [_ ->] end.
    eapply eff_append in E1 as (F & _ & _); [|done]. eapply handles_eff.
    + eapply eff_trans; [apply eff_make|]. eapply eff_trans;
        [by apply (eff_put _ _ (set_data s0 _) (View (nv_node m) (nv_round m)) (VUint32 (nv_view m)))|].
      eapply eff_trans; [exact F|by apply eff_put].
    + intros Hr S v A. rewrite (has_read _ _ _ _ S A), E0 by done. simpl. unfold id. by rewrite (ab_clock _ _ _ _ _ A).
Qed.
End Effects.
