(* ===== verification/RefineBlock.v ===== *)
(** * The interpreter implements the meaning of a block: queues of messages and whole blocks

    The messages about one round, among all those a block reads, are handled as Meaning.v
    says, whatever the messages about other rounds do in between. *)

From S2P Require Import Prelude Bitset Messages Block State Graph Deliver Updates Termination Protocol Typing Chain Meaning Refine.
Import Graph State.

Section Queue.
Context (spare : nat → nat) (r K : Z).
Implicit Types (g : graph) (s : state) (v : rview).

(** What interpretation may do with the graph and the state it builds. *)
Record ran g s g' s' : Prop := {
  ran_frame : frame g g';
  ran_modifies : modifies (g_heap g) s (g_heap g') s';
  ran_sep : sep (g_heap g') s' }.

Lemma ran_trans g1 s1 g2 s2 g3 s3 : ran g1 s1 g2 s2 → ran g2 s2 g3 s3 → ran g1 s1 g3 s3.
Proof. intros [F1 M1 S1] [F2 M2 S2]. split; [by etrans|by eapply modifies_trans|done]. Qed.
Lemma ran_refl g s : sep (g_heap g) s → ran g s g s.
Proof. by split; [|apply modifies_refl|]. Qed.

Notation rf := (filter (about r)).

Lemma response_round g s sd rc o msg resp s' g' :
  processMessage spare g s sd rc o msg = Ok (Some resp, s', g') → Msg.NodeRound resp = Msg.NodeRound msg.
Proof. unfold processMessage. intros H. destruct msg; simpl in *; go_inv H; by simplify_eq/=. Qed.

(** Processing [msgs] with the responses [resp] is what a queue does that starts with [msgs]
    and gets [resp] at its end. *)
Definition feeds par sd rc oround g s (P : gset Message) g' s' P' msgs resp : Prop :=
  ran g s g' s' ∧ ∀ v, abs r K (g_heap g) s v → ∃ v', abs r K (g_heap g') s' v' ∧
    ∀ q v'' seen resps, eats par sd rc oround v' (rf P') (q ++ rf resp) v'' seen resps →
      eats par sd rc oround v (rf P) (rf msgs ++ q) v'' seen (rf resp ++ resps).

Lemma process_one_feeds sd rc o s P g out msg s' P' g' out' :
  is_u64 (g_round g) → sep (g_heap g) s →
  process_one spare sd rc o (s, P, g, out) msg = Ok (s', P', g', out') →
  ∃ resp, out' = out ++ resp ∧ feeds (shared (g_par g)) sd rc (Round o) g s P g' s' P' [msg] resp.
Proof.
  unfold process_one. intros Hu S H. case_bool_decide as Hin.
  { simplify_eq. exists []. rewrite app_nil_r. split; [done|]. split; [by apply ran_refl|].
    intros v A. exists v. split; [done|]. intros q v'' seen resps. rewrite filter_nil, app_nil_r, filter_cons.
    case_decide; [|done]. intros He. apply eats_again; [by apply elem_of_filter|done]. }
  apply bind_Ok in H as ([[resp s1] g1] & Hm & H). simplify_eq.
  pose proof (frame_processMessage _ _ _ _ _ _ _ _ _ _ Hu Hm) as Fr.
  assert (rf (option_list resp) = if decide (about r msg) then option_list resp else []) as Hrf.
  { destruct resp as [m|]; [|by case_decide]. apply response_round in Hm.
    simpl. rewrite filter_cons, filter_nil. repeat case_decide; unfold about in *; congruence. }
  apply (processMessage_eff spare r K) in Hm as Hh; [|done]. destruct Hh as (f & E & V).
  destruct (E S) as (M & S' & A'). exists (option_list resp).
  split; [by destruct resp; rewrite ?app_nil_r|]. split; [done|]. intros v A. exists (on r (Msg.NodeRound msg).2 f v).
  split; [by apply A'|]. intros q v'' seen resps He. rewrite filter_cons, filter_nil. rewrite Hrf in *.
  unfold on in He. destruct (decide (about r msg)) as [Hc|Hc]; unfold about in Hc;
    [rewrite decide_True in He by done|rewrite decide_False in He by done].
  - eapply eats_msg; [by intros []%elem_of_filter|by apply V|].
    replace ({[msg]} ∪ rf P) with (rf ({[msg]} ∪ P)); [done|]. unfold about in *. set_solver.
  - rewrite app_nil_r in He. replace (rf P) with (rf ({[msg]} ∪ P)); [done|]. unfold about in *. set_solver.
Qed.

Lemma feeds_cons par sd rc oround g s P g1 s1 P1 g2 s2 P2 msg msgs resp resps :
  feeds par sd rc oround g s P g1 s1 P1 [msg] resp → feeds par sd rc oround g1 s1 P1 g2 s2 P2 msgs resps →
  feeds par sd rc oround g s P g2 s2 P2 (msg :: msgs) (resp ++ resps).
Proof.
  intros [R1 F1] [R2 F2]. split; [by eapply ran_trans|]. intros v A.
  destruct (F1 v A) as (v1 & A1 & H1). destruct (F2 v1 A1) as (v2 & A2 & H2). exists v2. split; [done|].
  intros q v'' seen rs He. change (msg :: msgs) with ([msg] ++ msgs). rewrite !filter_app, <- !app_assoc in *.
  apply H1. rewrite <- app_assoc. apply H2. by rewrite <- app_assoc.
Qed.

Lemma range_feeds sd rc o msgs s P g out s' P' g' out' :
  is_u64 (g_round g) → sep (g_heap g) s →
  range (process_one spare sd rc o) (s, P, g, out) msgs = Ok (s', P', g', out') →
  ∃ resp, out' = out ++ resp ∧ feeds (shared (g_par g)) sd rc (Round o) g s P g' s' P' msgs resp.
Proof.
  revert s P g out. induction msgs as [|msg msgs IH]; intros s P g out Hu S H; cbn [range] in H.
  - simplify_eq. exists []. rewrite app_nil_r. split; [done|]. split; [by apply ran_refl|].
    intros v A. exists v. split; [done|]. intros q v'' seen resps. by rewrite filter_nil, app_nil_r.
  - apply bind_Ok in H as ([[[s1 P1] g1] out1] & H1 & H).
    apply process_one_feeds in H1 as (resp & -> & F1); [|done..]. pose proof F1 as [[Fr _ S1] _].
    apply IH in H as (resps & -> & F2); [|by apply Fr|done]. rewrite (fr_par _ _ Fr) in F2.
    exists (resp ++ resps). split; [by rewrite app_assoc|]. by eapply feeds_cons.
Qed.

Lemma drain_eats fuel sd rc o i s P g out s' P' g' out' :
  is_u64 (g_round g) → sep (g_heap g) s →
  drain spare fuel sd rc o i (s, P, g, out) = Ok (s', P', g', out') →
  ran g s g' s' ∧ ∃ tail, out' = out ++ tail ∧
    ∀ v, abs r K (g_heap g) s v → ∃ v', abs r K (g_heap g') s' v' ∧
      eats (shared (g_par g)) sd rc (Round o) v (rf P) (rf (drop i out)) v' (rf P') (rf tail).
Proof.
  revert i s P g out. induction fuel as [|fuel IH]; intros i s P g out Hu S H; simpl in H;
    (destruct (out !! i) as [msg|] eqn:Ei; [|simplify_eq; split; [by apply ran_refl|]; exists [];
      rewrite app_nil_r; split; [done|]; intros v A; exists v; split; [done|];
      rewrite drop_ge by (by apply lookup_ge_None); apply eats_nil]); [done|].
  apply bind_Ok in H as ([[[s1 P1] g1] out1] & H1 & H).
  apply process_one_feeds in H1 as (resp & -> & F1); [|done..]. pose proof F1 as [R1 F]. pose proof R1 as [Fr _ S1].
  apply IH in H as (R2 & tail & -> & H); [|by apply Fr|done]. split; [by eapply ran_trans|].
  exists (resp ++ tail). split; [by rewrite app_assoc|]. intros v A. destruct (F v A) as (v1 & A1 & H1).
  destruct (H v1 A1) as (v2 & A2 & H2). exists v2. split; [done|].
  rewrite (drop_S _ msg _ Ei), filter_app. change (msg :: ?l) with ([msg] ++ l). rewrite filter_app. apply H1.
  rewrite (fr_par _ _ Fr), drop_app_le, filter_app in H2; [done|]. by apply lookup_lt_Some in Ei.
Qed.

Lemma processMessages_eats sd rc o msgs s P g s' P' g' out' :
  is_u64 (g_round g) → sep (g_heap g) s →
  processMessages spare g s P sd rc o msgs = Ok (s', P', g', out') →
  ran g s g' s' ∧ ∀ v, abs r K (g_heap g) s v → ∃ v', abs r K (g_heap g') s' v' ∧
    eats (shared (g_par g)) sd rc (Round o) v (rf P) (rf msgs) v' (rf P') (rf out').
Proof.
  unfold processMessages. intros Hu S (([[s1 P1] g1] & out1) & H1 & H)%bind_Ok.
  apply range_feeds in H1 as (resp & -> & [R1 F]); [|done..]. pose proof R1 as [Fr _ S1].
  apply drain_eats in H as (R2 & tail & -> & H); [|by apply Fr|done]. split; [by eapply ran_trans|].
  intros v A. destruct (F v A) as (v1 & A1 & H1). destruct (H v1 A1) as (v2 & A2 & H2).
  exists v2. split; [done|]. rewrite drop_0, (fr_par _ _ Fr) in H2. simpl. rewrite filter_app.
  specialize (H1 [] _ _ _ H2). by rewrite app_nil_r in H1.
Qed.

(** ** The parts of [process] *)
Lemma appends_abs tround round xs s g s' g' :
  sep (g_heap g) s →
  foldl (λ '(s, g) x, append_timeout spare g s tround (mkTimeout x round 0)) (s, g) xs = (s', g') →
  ran g s g' s' ∧ ∀ v, abs r K (g_heap g) s v →
    abs r K (g_heap g') s'
      (if round =? r then foldl (λ v x, vadd_tout v tround (mkTimeout x round 0)) v xs else v).
Proof.
  revert s g. induction xs as [|x xs IH]; intros s g S H; cbn [foldl] in H.
  - simplify_eq. split; [by apply ran_refl|]. intros v A. by destruct (round =? r).
  - destruct (append_timeout _ _ _ _ _) as [s1 g1] eqn:E.
    pose proof (frame_append_timeout _ _ _ _ _ _ _ E) as Fr.
    apply (eff_append spare r K round) in E as (F & _); [|done]. destruct (F S) as (M & S1 & A1).
    apply IH in H as (R & H); [|done]. split; [by eapply ran_trans|]. intros v A. apply A1, H in A.
    revert A. unfold on. destruct (Z.eqb_spec round r); [by rewrite decide_True|by rewrite decide_False].
Qed.

Lemma check_timeout_eff h node s out t s' out' :
  check_timeout node (s, out) t = Ok (s', out') →
  ∃ f resp, eff r K (t_round t) h s h s' f ∧ out' = out ++ resp ∧ Forall (about (t_round t)) resp ∧
    (t_round t = r → sep h s → ∀ v o, abs r K h s v → vtimeout node (v, o) t = Ok (f v, o ++ resp)).
Proof.
  unfold check_timeout, vtimeout. intros H. case_bool_decide as HF.
  { simplify_eq. exists id, []. rewrite app_nil_r. split_and!; [apply eff_id|done..|]. intros Hr S v o A.
    by rewrite (has_read _ _ _ _ _ _ S A), bool_decide_eq_true_2, app_nil_r by done. }
  apply bind_Ok in H as (w & Hw & H).
  assert (t_round t = r → ∀ v, abs r K h s v →
    match v_data v !! View (t_node t) (t_round t) with
    | Some (AVal (VUint32 w)) => Ok w | Some _ => Halt Panic | None => Ok 0 end = Ok w) as Vw.
  { intros Hr v A. destruct (get (data s) _) as [[]|] eqn:E; try discriminate Hw; injection Hw as ->.
    - by rewrite (data_read _ _ _ _ _ (View _ _) (VUint32 _) A Hr I E).
    - by rewrite (data_read_None _ _ _ _ _ (View _ _) A Hr E). }
  destruct (t_view t <? w) eqn:Ew.
  { simplify_eq. exists id, []. rewrite app_nil_r. split_and!; [apply eff_id|done..|]. intros Hr S v o A.
    rewrite (has_read _ _ _ _ _ _ S A), bool_decide_eq_false_2, app_nil_r, (Vw Hr v A) by done. simpl. by rewrite Ew. }
  apply bind_Ok in H as (hval & Hh & H). simplify_eq.
  eexists _, [_]. split_and!; [by apply eff_put|done|by repeat constructor|]. intros Hr S v o A.
  rewrite (has_read _ _ _ _ _ _ S A), bool_decide_eq_false_2, (Vw Hr v A) by done. simpl. rewrite Ew.
  destruct (get (data s) (Prepared _ _ _)) as [[]|] eqn:E; try discriminate Hh; injection Hh as ->.
  - by rewrite (data_read _ _ _ _ _ (Prepared _ _ _) (VHash _) A Hr I E).
  - by rewrite (data_read_None _ _ _ _ _ (Prepared _ _ _) A Hr E).
Qed.

Lemma check_timeouts_abs h node l s out s' out' :
  sep h s → range (check_timeout node) (s, out) l = Ok (s', out') →
  modifies h s h s' ∧ sep h s' ∧ ∀ v, abs r K h s v → ∃ v', abs r K h s' v' ∧
    range (vtimeout node) (v, rf out) (pending r l) = Ok (v', rf out').
Proof.
  revert s out. induction l as [|t l IH]; intros s out S H; cbn [range] in H.
  - simplify_eq. split_and!; [apply modifies_refl|done|]. intros v A. by exists v.
  - apply bind_Ok in H as ([s1 out1] & H1 & H). apply (check_timeout_eff h) in H1 as (f & resp & F & -> & Hr & V).
    destruct (F S) as (M1 & S1 & A1). apply IH in H as (M2 & S2 & H); [|done].
    split_and!; [by eapply modifies_trans|done|]. intros v A. destruct (H _ (A1 v A)) as (v' & A' & H').
    exists v'. split; [done|]. unfold pending, on in *. rewrite filter_cons. rewrite filter_app in H'.
    destruct (decide (t_round t = r)) as [E|E].
    + rewrite (filter_every _ resp) in H'; [cbn [range]; rewrite (V E S v _ A); exact H'|].
      intros m Hm. rewrite <- E. revert m Hm. by apply Forall_forall.
    + rewrite (filter_none _ resp), app_nil_r in H'; [done|]. intros m Hm Hm'. apply E. rewrite Forall_forall in Hr.
      apply Hr in Hm. unfold about in *. congruence.
Qed.

(** A state that is there before and after is there in between. *)
Lemma frame_between g g1 g2 b :
  frame g g1 → frame g1 g2 → g_statess g2 !! b = g_statess g !! b → g_statess g1 !! b = g_statess g !! b.
Proof.
  intros F1 F2 E. destruct (g_statess g !! b) as [s|] eqn:Eb.
  - eapply lookup_weaken; [exact E|]. apply F2.
  - eapply lookup_weaken_None; [exact Eb|]. apply F1.
Qed.

Lemma process_deps_eats node o (os : BlockID → list Message) deps s P g out s' P' g' out' :
  is_u64 (g_round g) → sep (g_heap g) s →
  range (process_dep spare node o) (s, P, g, out) deps = Ok (s', P', g', out') →
  ran g s g' s' ∧ ∃ resp, out' = out ++ resp ∧
  ((∀ dep, dep ∈ deps → os dep = rf (getOutput (g_statess g !! dep)) ∧
                        g_statess g' !! dep = g_statess g !! dep) →
   ∀ v, abs r K (g_heap g) s v → ∃ v', abs r K (g_heap g') s' v' ∧
     eats_deps (shared (g_par g)) node (Round o) os v (rf P) deps v' (rf resp)).
Proof.
  revert s P g out. induction deps as [|dep deps IH]; intros s P g out Hu S H; cbn [range] in H.
  - simplify_eq. split; [by apply ran_refl|]. exists []. rewrite app_nil_r. split; [done|]. intros _ v A.
    exists v. split; [done|constructor].
  - apply bind_Ok in H as ([[[s2 P2] g2] out2] & H1 & H). unfold process_dep in H1.
    apply debug_bind in H1. apply bind_Ok in H1 as ([[[s1 P1] g1] resp1] & H1 & H1'). simplify_eq.
    apply processMessages_eats in H1 as (R1 & E1); [|done..]. pose proof R1 as [Fr _ S1].
    apply IH in H as (R2 & resp2 & -> & H); [|by apply Fr|done].
    split; [by eapply ran_trans|]. exists (resp1 ++ resp2). split; [by rewrite app_assoc|].
    intros Hos v A. destruct (E1 v A) as (v1 & A1 & E). destruct R2 as [Fr2 _ _].
    destruct H with v1 as (v2 & A2 & H2); [|done|].
    { intros d Hd. destruct (Hos d) as [Ho Hs]; [by right|].
      by rewrite (frame_between _ _ _ _ Fr Fr2 Hs). }
    exists v2. split; [done|]. rewrite filter_app. rewrite (fr_par _ _ Fr) in H2.
    econstructor; [|exact H2]. destruct (Hos dep) as [-> _]; [left|]. done.
Qed.

(** ** Cloning *)
Lemma keep_lookup {Q A} `{Countable Q} (round : Q → Z) minround (m : option (gmap Q A)) k x :
  get (option_map (State.keep round minround) m) k = Some x → get m k = Some x.
Proof. destruct m as [m|]; simpl; [|done]. unfold State.keep. by intros [? _]%map_lookup_filter_Some. Qed.
Lemma get_keep_ge {Q A} `{Countable Q} (round : Q → Z) minround (m : option (gmap Q A)) k :
  minround ≤ round k → get (option_map (State.keep round minround) m) k = get m k.
Proof.
  intros Hr. destruct m as [m|]; [|done]. simpl. unfold State.keep. rewrite map_lookup_filter.
  destruct (m !! k); [|done]. simpl. rewrite option_guard_True; [done|]. simpl. lia.
Qed.

Lemma clone_abs h s minround :
  minround ≤ r → minround ≤ K → sep h s →
  modifies h s h (clone (Some s) minround) ∧ sep h (clone (Some s) minround) ∧
  ∀ v, abs r K h s v → abs r K h (clone (Some s) minround) v.
Proof.
  intros Hr HK [VL VI AL AI LN].
  assert (∀ k sl, State.keep id minround (timeouts s) !! k = Some sl → timeouts s !! k = Some sl) as HT.
  { intros k sl. unfold State.keep. by intros [? _]%map_lookup_filter_Some. }
  assert (∀ loc, vloc (clone (Some s) minround) loc → vloc s loc) as HV.
  { intros loc [k Hk%keep_lookup]. by exists k. }
  assert (∀ a, aloc (clone (Some s) minround) a → aloc s a) as HA.
  { intros a (k & sl & Hk%HT & <-). by exists k, sl. }
  split_and!.
  - by apply sub_footprint.
  - split; auto; simpl; eauto. intros k k' loc H1%keep_lookup H2%keep_lookup. eauto.
  - intros v A. split; simpl; try apply A.
    + intros pp Hp. rewrite <- (ab_bits _ _ _ _ _ A) by done.
      rewrite <- (get_keep_ge pp_round minround (bitsets s)) by lia. destruct (bitsets s) as [m|]; [|done]. simpl.
      rewrite lookup_fmap. by destruct (_ !! pp) as [[]|].
    + intros k Hk. rewrite get_keep_ge by lia. by apply A.
    + intros nr Hn. rewrite get_keep_ge by lia. by apply A.
    + intros k Hk. pose proof (get_keep_ge id minround (Some (timeouts s)) k) as E. simpl in E.
      rewrite E by (unfold id; lia). by apply A.
Qed.

(** Without a predecessor there is nothing to start from. *)
Lemma fresh_abs h : sep h fresh_state ∧ abs r K h fresh_state no_view.
Proof.
  split; split; try done.
  - by intros loc [k Hk].
  - intros a (k & sl & Hk & _). simpl in Hk. by rewrite lookup_empty in Hk.
Qed.

(** ** One block *)
Lemma same_ran g s s' :
  data s' = data s → timeouts s' = timeouts s → sep (g_heap g) s → ran g s g s'.
Proof.
  intros D T [VL VI AL AI LN]. unfold vloc, aloc in *. split; [done|..].
  - apply sub_footprint; unfold vloc, aloc; by rewrite ?D, ?T.
  - split; unfold vloc, aloc; rewrite ?D, ?T; auto.
Qed.

Lemma delay_abs h s v round deps :
  abs r K h s v → abs r K h (update_delay s round deps) (vset_delay v (vdelay v round deps)).
Proof.
  intros A. unfold vdelay. rewrite <- (ab_delay _ _ _ _ _ A). destruct deps; split; simpl; try apply A; done.
Qed.

Lemma rf_own b :
  let own := MPrePrepare (mkPrePrepare (Hash b) (Node b) (Round b) 0) in
  rf [own] = if Round b =? r then [own] else [].
Proof.
  simpl. rewrite filter_cons, filter_nil. destruct (Z.eqb_spec (Round b) r); [by rewrite decide_True|by rewrite decide_False].
Qed.

Lemma process_abs g e g' :
  let block := e_block e in let s0 := findOrCreateState g e in
  is_u64 (g_round g) → sep (g_heap g) s0 → K ≤ Round block → process spare g e = Ok g' →
  ∃ g1 s', g' = set_statess g1 (<[block := s']> (g_statess g1)) ∧ ran g s0 g1 s' ∧
  ((∀ dep, dep ∈ e_deps e → g_statess g1 !! dep = g_statess g !! dep) →
   ∀ v, abs r K (g_heap g) s0 v → ∃ v', abs r K (g_heap g1) s' v' ∧
     interprets (shared (g_par g)) r v e (λ dep, rf (getOutput (g_statess g !! dep))) v' (rf (out s'))).
Proof.
  intros block s0 Hu S0 HK H. unfold process in H. cbv beta zeta in H. fold s0 block in H.
  apply debug_bind in H. apply bind_Ok in H as (tval & Ht & H). set (s1 := set_timeout (update_delay s0 (Round block) (e_deps e)) tval) in H.
  assert (ran g s0 g s1) as R1 by (by apply same_ran; destruct (e_deps e)).
  destruct (foldl _ _ _) as [s2 g2] eqn:E2.
  pose proof (ran_sep _ _ _ _ R1) as S1. apply appends_abs in E2 as (R2 & A2); [|exact S1].
  apply bind_Ok in H as ([s3 out3] & H3 & H).
  apply (check_timeouts_abs (g_heap g2)) in H3 as (M3 & S3 & A3); [|apply R2].
  apply bind_Ok in H as ([[[s4 P4] g4] resp4] & H4 & H).
  pose proof (ran_frame _ _ _ _ R2) as F2.
  apply processMessages_eats in H4 as (R4 & A4); [|by apply F2|done]. pose proof (ran_frame _ _ _ _ R4) as F4.
  apply bind_Ok in H as ([[[s5 P5] g5] out5] & H5 & H). simplify_eq.
  apply (process_deps_eats _ _ (λ dep, rf (getOutput (g_statess g !! dep)))) in H5 as (R5 & resp5 & -> & A5);
    [|by apply F4, F2|apply R4].
  eexists g5, (set_out s5 _). split; [done|]. split.
  { eapply ran_trans; [exact R1|]. eapply ran_trans; [exact R2|]. eapply (ran_trans _ _ g2 s3); [by split|].
    eapply ran_trans; [exact R4|]. eapply ran_trans; [exact R5|]. apply same_ran; [done..|apply R5]. }
  intros Hd v A. apply (delay_abs _ _ _ (Round block) (e_deps e)) in A.
  set (v0 := vset_delay v (vdelay v (Round block) (e_deps e))) in A.
  assert (abs r K (g_heap g) s1 (vset_clock v0 tval)) as A1 by (split; simpl; try apply A; done).
  apply A2 in A1. destruct (A3 _ A1) as (v3 & A3' & H3). destruct (A4 _ A3') as (v4 & A4' & H4).
  destruct A5 with v4 as (v5 & A5' & H5); [|done|].
  { intros dep Hdep. apply Hd in Hdep. pose proof (ran_frame _ _ _ _ R5) as F5.
    assert (frame g g4) as F by (by etrans). by rewrite (frame_between _ _ _ _ F F5 Hdep). }
  exists v5. split; [split; simpl; apply A5'|].
  rewrite (ab_touts _ _ _ _ _ A1) in H3 by done. rewrite (fr_par _ _ F4) in H5. rewrite (fr_par _ _ F2) in H4, H5.
  exists tval, v3, (rf out3), v4, (rf P4), (rf resp4), (rf resp5). fold block v0.
  assert (rf (∅ : gset Message) = ∅) as Hnil by set_solver. rewrite Hnil in H4.
  rewrite rf_own in H3. split; [by rewrite <- Ht; unfold timeout_value; rewrite (ab_delay _ _ _ _ _ A)|].
  cbv zeta. split; [exact H3|]. split_and!; [done..|]. simpl. by rewrite !filter_app, app_assoc.
Qed.
End Queue.
