(* ===== verification/RefineExec.v ===== *)
(** * The interpreter implements the meaning of a block graph

    Executions of the interpreter, seen as the sequence of the entries it processes.  As long as
    the states of the blocks an entry builds on are still there and no two blocks have the same
    predecessor, every state the interpreter holds is the meaning of its block: it depends on
    the graph of blocks alone, not on the order in which they came, on what else was interpreted, or
    on the arrays and maps the states share. *)

From S2P Require Import Prelude Bitset Messages Block State Graph Deliver Updates Termination Protocol Typing Chain Meaning MeaningFacts Refine RefineBlock.
Import Graph State.

(** ** Executions *)

(** One call of [process]. *)
Record pstep := mkStep { ps_before : graph; ps_entry : entry; ps_after : graph }.

(** What happens between two calls of [process]. *)
Record quiet (g g' : graph) : Prop := {
  qu_par : g_par g' = g_par g; qu_heap : g_heap g' = g_heap g;
  qu_round : g_round g' = g_round g; qu_statess : g_statess g' = g_statess g;
  qu_resolved : g_resolved g' = g_resolved g; qu_delivered : g_delivered g' = g_delivered g }.

Inductive trace (spare : nat → nat) (cfg : Config) : list pstep → graph → Prop :=
  | tr_start : trace spare cfg [] (New cfg)
  | tr_quiet l g g' : trace spare cfg l g → quiet g g' → trace spare cfg l g'
  | tr_process l g e g' :
      trace spare cfg l g → process spare g e = Ok g' → trace spare cfg (l ++ [mkStep g e g']) g'.

(** The states an entry builds on are there, and the round [r] is not over yet. *)
Record timely (r : Z) (st : pstep) : Prop := {
  ti_round : g_round (ps_before st) ≤ r;
  ti_block : g_round (ps_before st) ≤ Round (e_block (ps_entry st));
  ti_valid : Valid (e_block (ps_entry st)) = true;
  ti_prev : Valid (e_prev (ps_entry st)) = true →
    is_Some (g_statess (ps_before st) !! e_prev (ps_entry st)) ∧
    Round (e_prev (ps_entry st)) ≤ Round (e_block (ps_entry st));
  ti_deps : ∀ dep, dep ∈ e_deps (ps_entry st) → Valid dep = true →
    is_Some (g_statess (ps_before st) !! dep) ∧ is_Some (g_statess (ps_after st) !! dep) }.

(** Every block once, and every predecessor of one block only. *)
Record linear (es : list entry) : Prop := {
  li_blocks : NoDup (e_block <$> es);
  li_prevs : NoDup (filter (λ b, Valid b = true) (e_prev <$> es)) }.

(** ** Apart on the heap *)
Definition apart (s s' : state) : Prop :=
  (∀ loc, vloc s loc → ¬ vloc s' loc) ∧ (∀ a, aloc s a → ¬ aloc s' a).

Lemma apart_sym s s' : apart s s' → apart s' s.
Proof. intros [V A]. split; intros x H H'; [by eapply V|by eapply A]. Qed.

Lemma apart_fresh s : apart s fresh_state.
Proof.
  split; [by intros loc _ [k Hk]|]. intros a _ (k & sl & Hk & _). simpl in Hk. by rewrite lookup_empty in Hk.
Qed.

(** A state that is apart from the one that is worked on does not change. *)
Lemma keep_abs h s h' s' sb r K :
  modifies h sb h' s' → apart s sb → sep h s →
  sep h' s ∧ apart s s' ∧ ∀ v, abs r K h s v → abs r K h' s v.
Proof.
  intros [VL AL VK AK VF AF] [PV PA] [SV SI SA SJ SN].
  assert (∀ loc, vloc s loc → h_vcs h' !! loc = h_vcs h !! loc) as HV by (intros loc H; apply VK; auto).
  assert (∀ a, aloc s a → h_arr h' !! a = h_arr h !! a) as HA by (intros a H; apply AK; auto).
  split_and!.
  - split; auto.
    + intros loc H%SV. lia.
    + intros a H%SA. lia.
    + intros k sl Hk. unfold Heap.arr_of. rewrite HA by (by exists k, sl). by apply (SN k).
  - split; [intros loc H H'%VF|intros a H H'%AF].
    + destruct H' as [H'|H']; [by eapply PV|apply SV in H; lia].
    + destruct H' as [H'|H']; [by eapply PA|apply SA in H; lia].
  - intros v A. split; try apply A.
    + intros k Hk. rewrite <- (ab_data _ _ _ _ _ A) by done.
      destruct (get (data s) k) as [[]|] eqn:E; simpl; try done. rewrite HV; [done|]. by exists k.
    + intros k Hk. rewrite <- (ab_touts _ _ _ _ _ A) by done. f_equal. by apply read_keep.
Qed.

Lemma abs_later r K K' h s v : K ≤ K' → abs r K h s v → abs r K' h s v.
Proof. intros HK A. split; try apply A. intros k Hk. apply A. lia. Qed.

(** ** The invariant *)

(** What [s] says about round [r], apart from its open business. *)
Record says (r : Z) (s : state) (v : rview) : Prop := {
  sa_bits : ∀ pp, pp_round pp = r → get (bitsets s) pp = v_bits v !! pp;
  sa_final : ∀ nr, nr_round nr = r → get (final s) nr = v_final v !! nr }.

Record implements (par : params) (r : Z) (es : list entry) (g : graph) : Prop := {
  im_round : is_u64 (g_round g);
  im_par : shared (g_par g) = par;
  im_valid : Forall (λ e, Valid (e_block e) = true) es;
  im_held : ∀ b s, g_statess g !! b = Some s →
    ∃ v, meaning par r es b v (filter (about r) (out s)) ∧ says r s v ∧
         (b ∉ e_prev <$> es → sep (g_heap g) s ∧ abs r (Round b) (g_heap g) s v);
  im_apart : ∀ b b' s s', b ≠ b' → b ∉ e_prev <$> es → b' ∉ e_prev <$> es →
    g_statess g !! b = Some s → g_statess g !! b' = Some s' → apart s s' }.

Section Exec.
Context (spare : nat → nat) (par : params) (r : Z).
Implicit Types (g : graph) (s : state) (v : rview).

Lemma implements_quiet es g g' : quiet g g' → implements par r es g → implements par r es g'.
Proof. intros [P H R S _ _] [A B C D E]. split; rewrite ?P, ?H, ?R, ?S; done. Qed.

Lemma implements_New cfg : shared (mk_params cfg) = par → implements par r [] (New cfg).
Proof.
  intros Hp. split; [apply u64_range|done|done|..]; simpl; intros *; rewrite lookup_empty; [done|]. by intros _ _ _.
Qed.

(** The state an entry starts from. *)
Lemma start_abs es g e :
  let block := e_block e in
  implements par r es g → g_round g ≤ r → g_round g ≤ Round block →
  (Valid (e_prev e) = true → is_Some (g_statess g !! e_prev e) ∧ Round (e_prev e) ≤ Round block) →
  (Valid (e_prev e) = true → e_prev e ∉ e_prev <$> es) →
  ∃ sb vp op, modifies (g_heap g) sb (g_heap g) (findOrCreateState g e) ∧
    sep (g_heap g) (findOrCreateState g e) ∧
    abs r (Round block) (g_heap g) (findOrCreateState g e) vp ∧
    (Valid (e_prev e) = true → meaning par r es (e_prev e) vp op) ∧
    (Valid (e_prev e) = false → vp = no_view) ∧
    (∀ b s, g_statess g !! b = Some s → b ∉ e_prev <$> es ++ [e] → apart s sb).
Proof.
  intros block I Hr Hb Hp Hn. unfold findOrCreateState. destruct (Valid (e_prev e)) eqn:E.
  - destruct Hp as [[sp Hsp] HR]; [done|]. specialize (Hn eq_refl). rewrite Hsp.
    destruct (im_held _ _ _ _ I _ _ Hsp) as (v & M & _ & HS). destruct (HS Hn) as [S A].
    apply (abs_later _ _ (Round block)) in A; [|done].
    destruct (clone_abs r (Round block) (g_heap g) sp (g_round g)) as (HM & S' & A'); [done..|].
    exists sp, v, (filter (about r) (out sp)). split_and!; auto; [done|]. intros b s Hs Hu.
    rewrite fmap_app, not_elem_of_app in Hu. destruct Hu as [Hu He].
    apply (im_apart _ _ _ _ I b (e_prev e)); try done. intros ->. apply He. by left.
  - destruct (fresh_abs r (Round block) (g_heap g)) as [S A].
    exists fresh_state, no_view, []. split_and!; auto using modifies_refl, apart_fresh; done.
Qed.

(** The messages of the referenced blocks. *)
Lemma deps_meaning es g dep :
  implements par r es g → (Valid dep = true → is_Some (g_statess g !! dep)) →
  let os := filter (about r) (getOutput (g_statess g !! dep)) in
  (Valid dep = true → ∃ v, meaning par r es dep v os) ∧ (Valid dep = false → g_statess g !! dep = None).
Proof.
  intros I Hd. split.
  - intros [s Hs]%Hd. rewrite Hs. destruct (im_held _ _ _ _ I _ _ Hs) as (v & M & _). by exists v.
  - intros Hv. destruct (g_statess g !! dep) as [s|] eqn:Hs; [|done].
    destruct (im_held _ _ _ _ I _ _ Hs) as (v & M & _). apply meaning_known in M.
    apply list_elem_of_fmap in M as (e & -> & He). pose proof (im_valid _ _ _ _ I) as HF.
    rewrite Forall_forall in HF. apply HF in He. congruence.
Qed.

(** The states that are held belong to blocks processed before. *)
Lemma held_old es g e s :
  implements par r es g → linear (es ++ [e]) → g_statess g !! e_block e = Some s → False.
Proof.
  intros I [L _] Hs. destruct (im_held _ _ _ _ I _ _ Hs) as (v & M%meaning_known & _).
  rewrite fmap_app, NoDup_app in L. destruct L as (_ & L & _). apply (L _ M). by left.
Qed.

(** Processing an entry gives its block a state that means what it should. *)
Lemma process_meaning es g e g' :
  implements par r es g → process spare g e = Ok g' → timely r (mkStep g e g') → linear (es ++ [e]) →
  ∃ g1 s' sb v, g' = set_statess g1 (<[e_block e := s']> (g_statess g1)) ∧ frame g g1 ∧
    modifies (g_heap g) sb (g_heap g1) s' ∧ sep (g_heap g1) s' ∧
    abs r (Round (e_block e)) (g_heap g1) s' v ∧
    meaning par r (es ++ [e]) (e_block e) v (filter (about r) (out s')) ∧
    (∀ b s, g_statess g !! b = Some s → b ∉ e_prev <$> es ++ [e] → apart s sb).
Proof.
  intros I H [T1 T2 T3 T4 T5] HL. pose proof HL as [_ L2]. simpl in *.
  destruct (start_abs es g e I) as (sb & vp & op & M0 & S0 & A0 & Mp & Mn & Hap); [done..| |].
  { intros Hv Hin. rewrite fmap_app, filter_app, NoDup_app in L2. destruct L2 as (_ & L2 & _).
    apply (L2 (e_prev e)); [by apply list_elem_of_filter|]. simpl. rewrite filter_cons_True by done. by left. }
  destruct (process_abs spare r (Round (e_block e)) g e g') as (g1 & s' & -> & [Fr M1 S1] & HA); [apply I|done..|].
  assert (∀ dep, dep ∈ e_deps e → ∃ v, Valid dep = true →
    meaning par r es dep v (filter (about r) (getOutput (g_statess g !! dep)))) as Hm.
  { intros dep Hd. destruct (deps_meaning es g dep I) as [HV _]; [intros; by eapply T5|].
    destruct (Valid dep); [|by exists no_view]. destruct HV as [v Hv]; [done|]. by exists v. }
  apply (list_choice (B := rview)) in Hm as [vs Hvs].
  destruct HA with vp as (v & A & HI); [|done|].
  { intros dep Hd. destruct (deps_meaning es g dep I) as [_ HN]; [intros; by eapply T5|].
    destruct (Valid dep) eqn:E.
    - destruct (T5 dep Hd E) as [[sd Hs] [sd' Hs']]. simpl in Hs'. rewrite lookup_insert_ne in Hs' by (intros <-; by eapply (held_old es g e)).
      rewrite Hs, Hs'. f_equal. eapply lookup_weaken in Hs'; [|apply Fr]. congruence.
    - rewrite HN by done. eapply lookup_weaken_None; [by apply HN|apply Fr]. }
  exists g1, s', sb, v. split_and!; try done; [by eapply modifies_trans|].
  rewrite (im_par _ _ _ _ I) in HI. assert (es ⊆ es ++ [e]) as Hsub by set_solver.
  eapply meaning_block; [set_solver|intros Hv; eapply meaning_mono; [exact Hsub|by apply Mp]|done| | |exact HI].
  - intros dep Hd Hv. eapply meaning_mono; [exact Hsub|]. by apply Hvs.
  - intros dep Hd Hv. destruct (deps_meaning es g dep I) as [_ HN]; [intros; by eapply T5|]. simpl. by rewrite HN.
Qed.

Lemma implements_process es g e g' :
  implements par r es g → process spare g e = Ok g' → timely r (mkStep g e g') → linear (es ++ [e]) →
  implements par r (es ++ [e]) g'.
Proof.
  intros I H HT HL. destruct (process_meaning _ _ _ _ I H HT HL) as (g1 & s' & sb & v & -> & Fr & M & S & A & Mb & Hap).
  assert (∀ b s, g_statess g1 !! b = Some s → g_statess g !! b = Some s) as Hsub.
  { intros b s Hs. eapply lookup_weaken; [done|apply Fr]. }
  assert (∀ b, b ∉ e_prev <$> es ++ [e] → b ∉ e_prev <$> es) as Hu by (intros b; rewrite fmap_app; set_solver).
  assert (∀ b s, g_statess g1 !! b = Some s → b ∉ e_prev <$> es ++ [e] →
    sep (g_heap g1) s ∧ apart s s' ∧ ∀ v, abs r (Round b) (g_heap g) s v → abs r (Round b) (g_heap g1) s v) as Hk.
  { intros b s Hs Hb. destruct (im_held _ _ _ _ I _ _ (Hsub _ _ Hs)) as (v0 & _ & _ & HS).
    eapply keep_abs; [done|by eapply Hap, Hb; apply Hsub|by apply HS, Hu]. }
  split; simpl.
  - apply Fr, I.
  - rewrite (fr_par _ _ Fr). apply I.
  - apply Forall_app; split; [apply I|]. constructor; [apply HT|done].
  - intros b s. rewrite lookup_insert. case_decide as E; subst.
    + intros [= <-]. exists v. split_and!; [done|split; apply A|done].
    + intros Hs. destruct (im_held _ _ _ _ I _ _ (Hsub _ _ Hs)) as (v0 & M0 & Sa & HS). exists v0.
      split_and!; [eapply meaning_mono, M0; set_solver|done|]. intros Hb. destruct (Hk _ _ Hs Hb) as (S1 & _ & A1).
      split; [done|]. by apply A1, HS, Hu.
  - intros b b' s1 s2 Hne Hb Hb'. rewrite !lookup_insert. do 2 case_decide; subst; intros Hs1 Hs2; simplify_eq.
    + by apply apart_sym, (Hk b' s2).
    + by apply (Hk b s1).
    + eapply (im_apart _ _ _ _ I b b'); auto.
Qed.

(** ** The theorem *)
Lemma linear_init es es' : linear (es ++ es') → linear es.
Proof. intros [L1 L2]. rewrite fmap_app, ?filter_app, NoDup_app in *. split; [apply L1|apply L2]. Qed.

Lemma trace_implements cfg l g :
  shared (mk_params cfg) = par → trace spare cfg l g → Forall (timely r) l → linear (ps_entry <$> l) →
  implements par r (ps_entry <$> l) g.
Proof.
  intros Hp Ht. induction Ht as [|l g g' Ht IH Hq|l g e g' Ht IH Hs]; intros HT HL.
  - by apply implements_New.
  - eapply implements_quiet; [done|]. by apply IH.
  - apply Forall_app in HT as [HT [He _]%Forall_cons]. rewrite fmap_app in *.
    eapply implements_process; [|done|exact He|done].
    apply IH; [done|]. by eapply linear_init.
Qed.
End Exec.

(** ** Executions of the graph are such executions *)
Lemma quiet_register g bg rest : quiet g (register (set_entries g rest) bg).
Proof. unfold register. destruct (scan_deps _ _ _ _). by split. Qed.

Section Link.
Context (spare : nat → nat).

Lemma trace_range cfg l g es g' :
  trace spare cfg l g → range (process spare) g es = Ok g' →
  ∃ l', trace spare cfg (l ++ l') g' ∧ ps_entry <$> l' = es.
Proof.
  revert l g. induction es as [|e es IH]; intros l g Ht H; cbn [range] in H.
  - simplify_eq. exists []. by rewrite app_nil_r.
  - apply bind_Ok in H as (g1 & H1 & H). eapply tr_process in Ht; [|exact H1].
    destruct (IH _ _ Ht H) as (l' & Ht' & E). exists (mkStep g e g1 :: l'). split; [by rewrite <- app_assoc in Ht'|].
    by rewrite fmap_cons, E.
Qed.

(** The entries of a block graph, in the order in which [run] processes them. *)
Definition graph_entries (bg : BlockGraph) : list entry := (dep_entry <$> bg_Deps bg) ++ [self_entry bg].

(** Every reachable graph comes from processing the entries of accepted block graphs. *)
Lemma reachable_trace accepted cfg g :
  reachable spare accepted cfg g →
  ∃ l bgs, trace spare cfg l g ∧ ps_entry <$> l = bgs ≫= graph_entries ∧ Forall accepted bgs.
Proof.
  unfold reachable. revert g. apply rtc_ind_r.
  - exists [], []. split_and!; [constructor|done..].
  - intros g g' Hr Hst. revert Hr. destruct Hst as [g1 bg g2 Hb Ha|g1 g2 Hs]; intros Hr (l & bgs & Ht & El & HA).
    + apply debug_bind in Ha. destruct (_ <? _); [|done]. injection Ha as <-. exists l, bgs.
      split_and!; [by eapply tr_quiet|done..].
    + assert (Forall accepted (g_entries g1)) as HE
        by (eapply (reachable_process_inv spare accepted accepted (λ _, True) (λ _, True)), Hr; done).
      unfold run_step in Hs. destruct (g_entries g1) as [|bg rest] eqn:Eg; [done|]. cbv zeta in Hs.
      apply Forall_cons in HE as [Hb _].
      apply bind_Ok in Hs as ([] & _ & Hs). apply bind_Ok in Hs as (g3 & H3 & Hs). apply bind_Ok in Hs as (g4 & H4 & Hs). simplify_eq.
      pose proof (tr_quiet _ _ _ _ _ Ht (quiet_register g1 bg rest)) as Ht1.
      destruct (trace_range _ _ _ _ _ Ht1 H3) as (l' & Ht2 & E2). eapply tr_process in Ht2; [|exact H4].
      eexists _, (bgs ++ [bg]). split_and!; [exact Ht2| |apply Forall_app; split; [done|by constructor]].
      rewrite !fmap_app, El, E2, bind_app. simpl. by rewrite app_nil_r, <- app_assoc.
Qed.
End Link.

(** ** The theorems *)

(** C3: The interpreter refines an abstract meaning of block graphs: in every execution in which
    blocks are not forked and the states a block builds on are still there, the state kept for a
    block has, for each open round, exactly the decisions, votes and outgoing messages that a
    pure interpretation of the block graph gives it, computed for that round alone, without
    shared maps and slices and without pruning. *)
Theorem interpreter_refines_meaning spare cfg l g r b s :
  trace spare cfg l g → Forall (timely r) l → linear (ps_entry <$> l) →
  g_statess g !! b = Some s →
  ∃ v, meaning (shared (mk_params cfg)) r (ps_entry <$> l) b v (filter (about r) (out s)) ∧
    (∀ nr, nr_round nr = r → get (final s) nr = v_final v !! nr) ∧
    (∀ pp, pp_round pp = r → get (bitsets s) pp = v_bits v !! pp).
Proof.
  intros Ht HT HL Hs. pose proof (trace_implements _ _ r _ _ _ eq_refl Ht HT HL) as I.
  destruct (im_held _ _ _ _ I _ _ Hs) as (v & M & [B F] & _). by exists v.
Qed.

(** Two nodes with the same peers that get the blocks of one graph in any two orders, mixed
    with any other blocks, hold for a block they both know the same decisions, the same votes
    and the same outgoing messages for every round that is open for both. *)
Theorem nodes_interpret_blocks_alike spare spare' cfg cfg' l l' g g' r b s s' :
  cfg_Peers cfg = cfg_Peers cfg' →
  trace spare cfg l g → Forall (timely r) l → linear (ps_entry <$> l) →
  trace spare' cfg' l' g' → Forall (timely r) l' → linear (ps_entry <$> l') →
  consistent ((ps_entry <$> l) ++ (ps_entry <$> l')) →
  g_statess g !! b = Some s → g_statess g' !! b = Some s' →
  filter (about r) (out s) = filter (about r) (out s') ∧
  (∀ node, get (final s) (mkNodeRound node r) = get (final s') (mkNodeRound node r)) ∧
  (∀ pp, pp_round pp = r → get (bitsets s) pp = get (bitsets s') pp).
Proof.
  intros Hp Ht HT HL Ht' HT' HL' HC Hs Hs'.
  assert (shared (mk_params cfg') = shared (mk_params cfg)) as E by (unfold shared, mk_params; simpl; by rewrite Hp).
  pose proof (trace_implements _ _ r _ _ _ eq_refl Ht HT HL) as I.
  pose proof (trace_implements _ _ r _ _ _ E Ht' HT' HL') as I'.
  destruct (im_held _ _ _ _ I _ _ Hs) as (v & M & [B F] & _).
  destruct (im_held _ _ _ _ I' _ _ Hs') as (v' & M' & [B' F'] & _).
  eapply (meaning_mono _ _ _ ((ps_entry <$> l) ++ (ps_entry <$> l'))) in M; [|set_solver].
  eapply (meaning_mono _ _ _ ((ps_entry <$> l) ++ (ps_entry <$> l'))) in M'; [|set_solver].
  destruct (meaning_fun _ _ _ _ _ _ _ _ HC M M') as [<- <-].
  split_and!; [done|intros node; by rewrite F, F'|intros pp Hpp; by rewrite B, B'].
Qed.
