(* ===== verification/Votes.v ===== *)
(** * The votes of the first view

    The votes of view 0 for the blocks of one round, in the meaning of a block graph: a prepare
    vote is counted for a node that accepted or made the proposal, a commit vote is cast on a quorum of
    prepare votes, and a decision rests on a quorum of commit votes.  In later views votes are
    also counted for nodes that did not cast them (AgreementWitnesses.v). *)

From S2P Require Import Prelude Bitset Messages Block State Graph Deliver Updates Termination Protocol Typing Chain Meaning MeaningFacts Refine RefineBlock RefineExec.

(** ** Votes *)
Definition vprep (v : rview) (pp : PrePrepare) : gset Z :=
  match v_bits v !! pp with Some b => Bitset.votes (prepares b) | None => ∅ end.
Definition vcomm (v : rview) (pp : PrePrepare) : gset Z :=
  match v_bits v !! pp with Some b => Bitset.votes (commits b) | None => ∅ end.
(** [pp] is the proposal that was accepted for its node, round and view. *)
Definition acc (v : rview) (pp : PrePrepare) : Prop :=
  v_data v !! PrePrepared (pp_node pp) (pp_round pp) (pp_view pp) = Some (AVal (VMsg pp)).

Lemma vprep_bits par v pp : Bitset.votes (prepares (vbits par v pp)) = vprep v pp.
Proof. unfold vbits, vprep. destruct (v_bits v !! pp); [done|]. apply Bitset.votes_replicate_0. Qed.
Lemma vcomm_bits par v pp : Bitset.votes (commits (vbits par v pp)) = vcomm v pp.
Proof. unfold vbits, vcomm. destruct (v_bits v !! pp); [done|]. apply Bitset.votes_replicate_0. Qed.
Lemma vprep_set v pp b pp' :
  vprep (vset_bits v pp b) pp' = if decide (pp = pp') then Bitset.votes (prepares b) else vprep v pp'.
Proof. unfold vprep, vset_bits. simpl. rewrite lookup_insert. by case_decide. Qed.
Lemma vcomm_set v pp b pp' :
  vcomm (vset_bits v pp b) pp' = if decide (pp = pp') then Bitset.votes (commits b) else vcomm v pp'.
Proof. unfold vcomm, vset_bits. simpl. rewrite lookup_insert. by case_decide. Qed.

(** One bit more. *)
Lemma setPrepare_votes b x b' : Bitset.setPrepare b x = Ok b' →
  commits b' = commits b ∧ Bitset.votes (prepares b) ⊆ Bitset.votes (prepares b') ∧
  (0 ≤ x → Bitset.votes (prepares b') = {[x]} ∪ Bitset.votes (prepares b)).
Proof.
  intros (ws & H & [= <-])%bind_Ok. simpl. split_and!; [done|by eapply Bitset.votes_set_word_mono|].
  intros Hx. by apply Bitset.votes_set_word.
Qed.
Lemma setCommit_votes b x b' : Bitset.setCommit b x = Ok b' →
  prepares b' = prepares b ∧ Bitset.votes (commits b) ⊆ Bitset.votes (commits b') ∧
  (0 ≤ x → Bitset.votes (commits b') = {[x]} ∪ Bitset.votes (commits b)).
Proof.
  intros (ws & H & [= <-])%bind_Ok. simpl. split_and!; [done|by eapply Bitset.votes_set_word_mono|].
  intros Hx. by apply Bitset.votes_set_word.
Qed.

(** Views only grow. *)
Record grows (v v' : rview) : Prop := {
  gr_prep : ∀ pp, vprep v pp ⊆ vprep v' pp; gr_comm : ∀ pp, vcomm v pp ⊆ vcomm v' pp;
  gr_acc : ∀ pp, acc v pp → acc v' pp }.
Lemma grows_refl v : grows v v.
Proof. by split. Qed.
Lemma grows_trans v1 v2 v3 : grows v1 v2 → grows v2 v3 → grows v1 v3.
Proof. intros [P1 C1 A1] [P2 C2 A2]. split; [..|by auto]; intros pp; etrans; eauto. Qed.
Lemma grows_data v k x :
  (∀ n r w, k ≠ PrePrepared n r w) ∨ has v k = false → grows v (vset_data v k x).
Proof.
  intros Hk. split; [done..|]. intros pp H. unfold acc in *. simpl. rewrite lookup_insert_ne; [done|].
  intros ->. destruct Hk as [Hk|Hk]; [by eapply Hk|]. unfold has in Hk. rewrite H in Hk.
  by rewrite bool_decide_eq_true_2 in Hk.
Qed.
Lemma grows_bits v pp b :
  vprep v pp ⊆ Bitset.votes (prepares b) → vcomm v pp ⊆ Bitset.votes (commits b) → grows v (vset_bits v pp b).
Proof. intros H H'. split; [..|done]; intros pp'; [rewrite vprep_set|rewrite vcomm_set]; by case_decide; subst. Qed.

(** ** One block *)
Section Votes.
Context (par : params) (r : Z) (D : list entry).

(** A block that proposes [pp] is in the graph. *)
Definition proposed (pp : PrePrepare) : Prop :=
  ∃ e, e ∈ D ∧ Node (e_block e) = pp_node pp ∧ Round (e_block e) = pp_round pp ∧ Hash (e_block e) = pp_hash pp.
(** A block of [x] has accepted [pp]. *)
Definition accepted_by (x : Z) (pp : PrePrepare) : Prop :=
  ∃ b v out, meaning par r D b v out ∧ Node b = x ∧ acc v pp.
(** Some block has a quorum of prepare votes for [pp]. *)
Definition prepared_somewhere (pp : PrePrepare) : Prop :=
  ∃ b v out, meaning par r D b v out ∧ quorum2f1 par ≤ Z.of_nat (size (vprep v pp)).

(** A view of a block of [rc] while it is interpreted; no timeout is for a view above [N]. *)
Record good (rc N : Z) (v : rview) : Prop := {
  go_prep : ∀ pp x, pp_view pp = 0 → x ∈ vprep v pp →
    accepted_by x pp ∨ (x = rc ∧ acc v pp) ∨ (x = pp_node pp ∧ proposed pp);
  go_acc : ∀ pp, pp_view pp = 0 → acc v pp → proposed pp;
  go_comm : ∀ pp x, pp_view pp = 0 → x ∈ vcomm v pp →
    prepared_somewhere pp ∨ quorum2f1 par ≤ Z.of_nat (size (vprep v pp));
  go_final : ∀ nr h, v_final v !! nr = Some h →
    ∃ w, quorum2f1 par ≤ Z.of_nat (size (vcomm v (mkPrePrepare h (nr_node nr) (nr_round nr) w)));
  go_touts : ∀ k ts t, v_touts v !! k = Some ts → t ∈ ts → 0 ≤ t_view t ≤ N }.

(** A message that a block of [rc] gets from a block of [sd]. *)
Definition sound_msg (sd rc N : Z) (v : rview) (m : Message) : Prop :=
  match m with
  | MPrePrepare pp => pp_view pp = 0 → sd = pp_node pp ∧ proposed pp
  | MPrepare p => p_view p = 0 → 0 ≤ p_sender p ∧
      (accepted_by (p_sender p) (Msg.Prepare_Pre p) ∨ (p_sender p = rc ∧ acc v (Msg.Prepare_Pre p)))
  | MCommit c => c_view c = 0 → 0 ≤ c_sender c ∧
      (prepared_somewhere (Msg.Commit_Pre c) ∨ quorum2f1 par ≤ Z.of_nat (size (vprep v (Msg.Commit_Pre c))))
  | MViewChange m => 1 ≤ vc_view m ≤ N
  | MNewView m => 1 ≤ nv_view m ≤ N
  end.
(** A response: new proposals are for later views. *)
Definition sound_resp (rc N : Z) (v : rview) (m : Message) : Prop :=
  match m with MPrePrepare pp => pp_view pp ≠ 0 | _ => sound_msg 0 rc N v m end.

Lemma sound_resp_msg sd rc N v m : sound_resp rc N v m → sound_msg sd rc N v m.
Proof. by destruct m. Qed.
Lemma size_grows v v' pp : grows v v' → Z.of_nat (size (vprep v pp)) ≤ Z.of_nat (size (vprep v' pp)).
Proof. intros HG. apply size_mono, HG. Qed.
Lemma sound_msg_grows sd rc N v v' m : grows v v' → sound_msg sd rc N v m → sound_msg sd rc N v' m.
Proof.
  intros HG. destruct m as [| |c| |]; simpl; try done; intros H Hw; specialize (H Hw); destruct H as [H0 H]; (split; [done|]).
  - destruct H as [H|[E H]]; [by left|right; split; [done|by apply HG]].
  - destruct H as [H|H]; [by left|right]. pose proof (size_grows v v' (Msg.Commit_Pre c) HG). lia.
Qed.
Lemma sound_resp_grows rc N v v' m : grows v v' → sound_resp rc N v m → sound_resp rc N v' m.
Proof. intros HG. destruct m; try done; by apply (sound_msg_grows 0). Qed.

(** Changes of a view that keep it good. *)
Lemma good_data rc N v k x :
  good rc N v → (∀ n r w, k ≠ PrePrepared n r w) → good rc N (vset_data v k x).
Proof.
  intros [P A C Fi T] Hk. assert (∀ pp, acc (vset_data v k x) pp ↔ acc v pp) as E.
  { intros pp. unfold acc. simpl. by rewrite lookup_insert_ne by apply Hk. }
  split; [|intros pp Hw; rewrite E; by apply A|exact C|exact Fi|exact T].
  intros pp y Hw Hy. rewrite E. by apply P.
Qed.
Lemma good_bits rc N v pp b :
  good rc N v → vprep v pp ⊆ Bitset.votes (prepares b) → vcomm v pp ⊆ Bitset.votes (commits b) →
  (pp_view pp = 0 → ∀ x, x ∈ Bitset.votes (prepares b) →
     x ∈ vprep v pp ∨ accepted_by x pp ∨ (x = rc ∧ acc v pp) ∨ (x = pp_node pp ∧ proposed pp)) →
  (pp_view pp = 0 → ∀ x, x ∈ Bitset.votes (commits b) →
     x ∈ vcomm v pp ∨ prepared_somewhere pp ∨ quorum2f1 par ≤ Z.of_nat (size (Bitset.votes (prepares b)))) →
  good rc N (vset_bits v pp b).
Proof.
  intros [P A C Fi T] HM HMC HP HC. split; [| exact A| | |exact T].
  - intros pp' x Hw. rewrite vprep_set. case_decide as E; [subst pp'|by apply P].
    intros Hx. destruct (HP Hw x Hx) as [Hx'|Hx']; [by apply P|exact Hx'].
  - intros pp' x Hw. rewrite vcomm_set, vprep_set. case_decide as E; [subst pp'|by apply C].
    intros Hx. destruct (HC Hw x Hx) as [Hx'|Hx']; [|done]. apply C in Hx' as [H|H]; [by left| |done]. right.
    pose proof (size_mono _ _ HM). lia.
  - intros nr h Hh. destruct (Fi nr h Hh) as [w Hw]. exists w. rewrite vcomm_set. case_decide as E; [subst pp|done].
    pose proof (size_mono _ _ HMC). lia.
Qed.
Lemma good_touts rc N v k t : good rc N v → 0 ≤ t_view t ≤ N → good rc N (vadd_tout v k t).
Proof.
  intros [P A C Fi T] Ht. split; [exact P|exact A|exact C|exact Fi|]. intros k' ts t'. unfold vadd_tout. simpl.
  rewrite lookup_insert. case_decide; [intros [= <-]|by apply T]. intros [Hi|Hi%list_elem_of_singleton]%elem_of_app; [|by subst].
  subst. destruct (v_touts v !! k') as [ts|] eqn:E; [by eapply T|]. by apply elem_of_nil in Hi.
Qed.
Lemma good_accept rc N v m :
  good rc N v → has v (PrePrepared (pp_node m) (pp_round m) (pp_view m)) = false → (pp_view m = 0 → proposed m) →
  good rc N (vset_data v (PrePrepared (pp_node m) (pp_round m) (pp_view m)) (AVal (VMsg m))).
Proof.
  intros G Hh Hp. pose proof (grows_data v _ (AVal (VMsg m)) (or_intror Hh)) as [_ _ HA]. destruct G as [P A C Fi T].
  split; [|  |exact C|exact Fi|exact T].
  - intros pp x Hw Hx. destruct (P pp x Hw Hx) as [H|[[H1 H2]|H]]; [by left|right; left; split; [done|by apply HA]|auto].
  - intros pp Hw Hpp. unfold acc in Hpp. simpl in Hpp. rewrite lookup_insert in Hpp. case_decide as E; [|by apply A].
    injection Hpp as <-. by apply Hp.
Qed.

Lemma vview_good rc N v n rd w v' : vview v n rd = Ok (w, v') → good rc N v → good rc N v' ∧ grows v v'.
Proof.
  unfold vview. intros H G. destruct (v_data v !! _) as [[[]|]|]; simplify_eq; auto using grows_refl.
  split; [by apply good_data|by apply grows_data; left].
Qed.

Lemma vhandle_PrePrepare sd rc o N w v m resp v' :
  0 ≤ sd → 0 ≤ rc → vhandle par sd rc o w v (MPrePrepare m) = Ok (resp, v') → good rc N v →
  sound_msg sd rc N v (MPrePrepare m) →
  good rc N v' ∧ grows v v' ∧ (∀ x, resp = Some x → sound_resp rc N v' x).
Proof.
  intros Hsd Hrc. unfold vhandle. cbn [Msg.NodeRound]. destruct (_ || _) eqn:Eg.
  { intros [= <- <-] G _. split_and!; [done|apply grows_refl|done]. }
  apply orb_false_iff in Eg as [_ Eg]. intros H G S. simpl in S.
  apply bind_Ok in H as (b1 & H1 & H). apply bind_Ok in H as (b2 & H2 & H). injection H as <- <-.
  apply setPrepare_votes in H1 as (C1 & M1 & E1), H2 as (C2 & M2 & E2). rewrite vprep_bits in M1, E1.
  specialize (E1 Hsd). specialize (E2 Hrc).
  set (k := PrePrepared _ _ _) in *. change (vset_data (vset_bits v m b2) k (AVal (VMsg m))) with (vset_bits (vset_data v k (AVal (VMsg m))) m b2).
  assert (acc (vset_data v k (AVal (VMsg m))) m) as HA by (unfold acc; simpl; apply lookup_insert_eq).
  assert (grows v (vset_data v k (AVal (VMsg m)))) as HG by (by apply grows_data; right).
  split_and!.
  - apply good_bits; [by apply good_accept; [..|intros Hw; apply S]|set_solver|by rewrite C2, C1, (vcomm_bits par)| |].
    + intros Hw x. rewrite E2, E1. destruct (S Hw) as [-> HP]. intros [->%elem_of_singleton|[->%elem_of_singleton|Hx]%elem_of_union]%elem_of_union; auto.
    + intros Hw x. rewrite C2, C1, (vcomm_bits par). auto.
  - eapply grows_trans; [exact HG|]. apply grows_bits; [set_solver|by rewrite C2, C1, (vcomm_bits par)].
  - intros x [= <-]. simpl. intros Hw. split; [done|]. right. split; [done|]. clear -HA. by destruct m.
Qed.

Lemma vhandle_Prepare sd rc o N w v m resp v' :
  0 ≤ rc → vhandle par sd rc o w v (MPrepare m) = Ok (resp, v') → good rc N v →
  sound_msg sd rc N v (MPrepare m) →
  good rc N v' ∧ grows v v' ∧ (∀ x, resp = Some x → sound_resp rc N v' x).
Proof.
  intros Hrc. unfold vhandle. cbn [Msg.NodeRound]. destruct (p_view m <? w).
  { intros [= <- <-] G _. split_and!; [done|apply grows_refl|done]. }
  intros H G S. simpl in S. apply bind_Ok in H as (b1 & H1 & H).
  apply setPrepare_votes in H1 as (C1 & M1 & E1). rewrite vprep_bits in M1, E1. set (pp := Msg.Prepare_Pre m) in *.
  assert (good rc N (vset_bits v pp b1)) as G1.
  { apply good_bits; [done|done|by rewrite C1, (vcomm_bits par)| |].
    - intros Hw x. destruct (S Hw) as [H0 HP]. rewrite (E1 H0). intros [->%elem_of_singleton|Hx]%elem_of_union; [|by left]. tauto.
    - intros Hw x. rewrite C1, (vcomm_bits par). auto. }
  assert (grows v (vset_bits v pp b1)) as HG1 by (apply grows_bits; [done|by rewrite C1, (vcomm_bits par)]).
  destruct (_ || _) eqn:Eq; [injection H as <- <-; by split_and!|].
  apply orb_false_iff in Eq as [_ Eq]. apply negb_false_iff, Z.eqb_eq in Eq.
  apply bind_Ok in H as (cm & Hc & H). destruct cm; [injection H as <- <-; by split_and!|].
  apply bind_Ok in H as (b2 & H2 & H). injection H as <- <-.
  apply setCommit_votes in H2 as (P2 & M2 & E2). unfold Bitset.prepareCount in Eq. rewrite Bitset.count_words_size in Eq.
  set (v2 := vset_bits (vset_bits v pp b1) pp b2).
  assert (vprep v2 pp = Bitset.votes (prepares b1)) as EV by (unfold v2; rewrite vprep_set, decide_True by done; by rewrite P2).
  assert (good rc N v2) as G2.
  { apply good_bits; [done|rewrite vprep_set, decide_True by done; by rewrite P2|by rewrite vcomm_set, decide_True by done| |].
    - intros Hw x. rewrite P2. intros Hx. left. by rewrite vprep_set, decide_True.
    - intros Hw x Hx. right. right. rewrite P2, Eq. lia. }
  assert (grows v v2) as HG2.
  { eapply grows_trans; [exact HG1|]. apply grows_bits; [rewrite vprep_set, decide_True by done; by rewrite P2|].
    by rewrite vcomm_set, decide_True by done. }
  change (vset_bits (vset_bits v pp b1) pp b2) with v2.
  assert (∀ v3, grows v2 v3 → ∀ x, Some (MCommit (mkCommit (p_hash m) (p_node m) (p_round m) rc (p_view m))) = Some x → sound_resp rc N v3 x) as HR.
  { intros v3 H3 x [= <-]. simpl. intros Hw. split; [done|]. right. change (Msg.Commit_Pre _) with pp.
    pose proof (size_grows v2 v3 pp H3) as HS. rewrite EV in HS. lia. }
  destruct (has v2 _).
  - split_and!; [done|done|]. apply HR, grows_refl.
  - split_and!; [by apply good_data|eapply grows_trans; [exact HG2|by apply grows_data; left]|].
    apply HR. by apply grows_data; left.
Qed.

Lemma vhandle_Commit sd rc o N w v m resp v' :
  vhandle par sd rc o w v (MCommit m) = Ok (resp, v') → good rc N v → sound_msg sd rc N v (MCommit m) →
  good rc N v' ∧ grows v v' ∧ (∀ x, resp = Some x → sound_resp rc N v' x).
Proof.
  unfold vhandle. cbn [Msg.NodeRound]. destruct (w <? c_view m).
  { intros [= <- <-] G _. split_and!; [done|apply grows_refl|done]. }
  intros H G S. simpl in S. apply bind_Ok in H as (b1 & H1 & H).
  apply setCommit_votes in H1 as (P1 & M1 & E1). rewrite vcomm_bits in M1, E1. set (pp := Msg.Commit_Pre m) in *.
  assert (Bitset.votes (prepares b1) = vprep v pp) as EP by (rewrite P1; apply vprep_bits).
  assert (good rc N (vset_bits v pp b1)) as G1.
  { apply good_bits; [done|by rewrite EP|done| |].
    - intros Hw x. rewrite EP. auto.
    - intros Hw x. destruct (S Hw) as [H0 HC]. rewrite (E1 H0), EP.
      intros [->%elem_of_singleton|Hx]%elem_of_union; [|by left]. right. tauto. }
  assert (grows v (vset_bits v pp b1)) as HG1 by (apply grows_bits; [by rewrite EP|done]).
  destruct (_ || _) eqn:Eq; injection H as <- <-; [by split_and!|].
  apply orb_false_iff in Eq as [Eq%negb_false_iff%Z.eqb_eq _]. unfold Bitset.commitCount in Eq. rewrite Bitset.count_words_size in Eq.
  destruct HG1 as [P1' C1' A1']. split_and!; [|by split|done]. destruct G1 as [P A C Fi T]. split; [exact P|exact A|exact C| |exact T].
  intros nr h. simpl. rewrite lookup_insert. case_decide as E; [subst nr; intros [= <-]|by apply Fi].
  exists (c_view m). change (mkPrePrepare _ _ _ _) with pp. unfold vcomm. simpl. rewrite lookup_insert_eq. lia.
Qed.

Lemma vhandle_views sd rc o N w v msg resp v' :
  match msg with MViewChange _ | MNewView _ => True | _ => False end →
  vhandle par sd rc o w v msg = Ok (resp, v') → good rc N v → sound_msg sd rc N v msg →
  good rc N v' ∧ grows v v' ∧ (∀ x, resp = Some x → sound_resp rc N v' x).
Proof.
  destruct msg as [| | |m|m]; try done; intros _; unfold vhandle; cbn [Msg.NodeRound].
  - destruct (vc_view m <? w).
    { intros [= <- <-] G _. split_and!; [done|apply grows_refl|done]. }
    intros H G S. apply bind_Ok in H as (votes & _ & H).
    assert (∀ k x, (∀ n r w, k ≠ PrePrepared n r w) → ∀ u, good rc N u ∧ grows v u → good rc N (vset_data u k x) ∧ grows v (vset_data u k x)) as HD.
    { intros k x Hk u [Gu Hu]. split; [by apply good_data|]. eapply grows_trans; [exact Hu|]. apply grows_data. by left. }
    match type of H with context [vset_data v ?k ?x] => destruct (HD k x (λ n r w, ltac:(done)) v (conj G (grows_refl v))) as [G1 HG1] end.
    destruct (negb _); [injection H as <- <-; by split_and!|].
    apply bind_Ok in H as (hash & _ & H). injection H as <- <-.
    match goal with |- good rc N (vset_data ?u ?k ?x) ∧ _ => destruct (HD k x (λ n r w, ltac:(done)) u (conj G1 HG1)) as [G2 HG2] end.
    split_and!; [done|done|]. intros x [= <-]. exact S.
  - destruct (_ || _).
    { intros [= <- <-] G _. split_and!; [done|apply grows_refl|done]. }
    intros [= <- <-] G S. simpl in S. split_and!.
    + apply good_data; [|done]. apply good_touts; [by apply good_data|simpl; lia].
    + eapply grows_trans; [apply (grows_data v (View (nv_node m) (nv_round m)) (AVal (VUint32 (nv_view m)))); by left|].
      eapply grows_trans; [|apply grows_data; by left]. by split.
    + intros x [= <-]. simpl. lia.
Qed.

Lemma vmessage_good sd rc o N v msg resp v' :
  0 ≤ sd → 0 ≤ rc → vmessage par sd rc o v msg = Ok (resp, v') → good rc N v → sound_msg sd rc N v msg →
  good rc N v' ∧ grows v v' ∧ (∀ x, resp = Some x → sound_resp rc N v' x).
Proof.
  intros Hsd Hrc H G S. unfold vmessage in H. destruct (Msg.NodeRound msg) as [n rd].
  destruct (has v _). { injection H as <- <-. split_and!; [done|apply grows_refl|done]. }
  apply bind_Ok in H as ([w v1] & Hv & H). apply (vview_good rc N) in Hv as [G1 HG1]; [|done].
  apply (sound_msg_grows _ _ _ _ _ _ HG1) in S.
  assert (good rc N v' ∧ grows v1 v' ∧ (∀ x, resp = Some x → sound_resp rc N v' x)) as (G2 & HG2 & HR).
  { destruct msg; [eapply vhandle_PrePrepare|eapply vhandle_Prepare|eapply vhandle_Commit|eapply vhandle_views..];
      try exact H; done. }
  split_and!; [done|by eapply grows_trans|done].
Qed.

Lemma eats_good sd rc o N v seen q v' seen' resps :
  0 ≤ sd → 0 ≤ rc → eats par sd rc o v seen q v' seen' resps → good rc N v → Forall (sound_msg sd rc N v) q →
  good rc N v' ∧ grows v v' ∧ Forall (sound_resp rc N v') resps.
Proof.
  intros Hsd Hrc H. induction H as [v seen|v seen msg q v' seen' resps _ _ IH|v seen msg q resp v1 v' seen' resps _ Hm _ IH];
    intros G HQ.
  - split_and!; [done|apply grows_refl|constructor].
  - apply Forall_cons in HQ as [_ HQ]. by apply IH.
  - apply Forall_cons in HQ as [Hs HQ]. destruct (vmessage_good _ _ _ N _ _ _ _ Hsd Hrc Hm G Hs) as (G1 & HG1 & HR).
    destruct IH as (G2 & HG2 & HF); [done| |].
    + apply Forall_app. split; [by eapply Forall_impl; [exact HQ|intros; eapply sound_msg_grows]|].
      destruct resp as [x|]; constructor; [|constructor]. by apply sound_resp_msg, HR.
    + split_and!; [done|by eapply grows_trans|]. apply Forall_app. split; [|done].
      destruct resp as [x|]; constructor; [|constructor]. eapply sound_resp_grows; [exact HG2|]. by apply HR.
Qed.

Lemma eats_deps_good rc o os N v seen deps v' resps :
  0 ≤ rc → eats_deps par rc o os v seen deps v' resps → good rc N v →
  Forall (λ dep, os dep ≠ [] → 0 ≤ Node dep ∧ ∀ u m, m ∈ os dep → sound_msg (Node dep) rc N u m) deps →
  good rc N v' ∧ grows v v' ∧ Forall (sound_resp rc N v') resps.
Proof.
  intros Hrc H. induction H as [v seen|v seen dep deps v1 seen1 resps v' resps' He _ IH]; intros G HQ.
  - split_and!; [done|apply grows_refl|constructor].
  - apply Forall_cons in HQ as [Hd HQ]. assert (good rc N v1 ∧ grows v v1 ∧ Forall (sound_resp rc N v1) resps) as (G1 & HG1 & HF1).
    { destruct (os dep) as [|m0 ms] eqn:E.
      - inversion He; subst. split_and!; [done|apply grows_refl|constructor].
      - destruct Hd as [H0 Hd]; [done|]. eapply eats_good; [exact H0|exact Hrc|exact He|done|]. apply Forall_forall. intros m Hm. by apply Hd. }
    destruct (IH G1 HQ) as (G2 & HG2 & HF2). split_and!; [done|by eapply grows_trans|]. apply Forall_app. split; [|done].
    eapply Forall_impl; [exact HF1|]. intros m. by apply sound_resp_grows.
Qed.

Lemma good_more rc N N' v : N ≤ N' → good rc N v → good rc N' v.
Proof. intros HN [P A C Fi T]. split; [done..|]. intros k ts t Hk Ht. specialize (T k ts t Hk Ht). lia. Qed.

(** Timeouts ask for the view after theirs. *)
Lemma vtimeout_good rc N v out t v' out' :
  N < 2 ^ 32 → 0 ≤ t_view t < N → vtimeout rc (v, out) t = Ok (v', out') → good rc N v →
  good rc N v' ∧ grows v v' ∧ ∃ new, out' = out ++ new ∧ Forall (sound_resp rc N v') new.
Proof.
  intros HN Ht H G. unfold vtimeout in H.
  assert (good rc N v ∧ grows v v ∧ ∃ new, out = out ++ new ∧ Forall (sound_resp rc N v) new) as Hs.
  { split_and!; [done|apply grows_refl|]. exists []. by rewrite app_nil_r. }
  destruct (has v _); [by injection H as <- <-|].
  apply bind_Ok in H as (w & _ & H). destruct (_ <? w); [by injection H as <- <-|].
  apply bind_Ok in H as (h & _ & H). injection H as <- <-.
  split_and!; [by apply good_data|by apply grows_data; left|]. eexists. split; [done|]. constructor; [|constructor].
  simpl. unfold u32. rewrite Z.mod_small; lia.
Qed.

Lemma vtimeouts_good rc N ts : ∀ v out v' out',
  N < 2 ^ 32 → Forall (λ t, 0 ≤ t_view t < N) ts → range (vtimeout rc) (v, out) ts = Ok (v', out') → good rc N v →
  good rc N v' ∧ grows v v' ∧ ∃ new, out' = out ++ new ∧ Forall (sound_resp rc N v') new.
Proof.
  induction ts as [|t ts IH]; intros v out v' out' HN HF H G; cbn [range] in H.
  { injection H as <- <-. split_and!; [done|apply grows_refl|]. exists []. by rewrite app_nil_r. }
  apply Forall_cons in HF as [Ht HF]. apply bind_Ok in H as ([v1 out1] & H1 & H).
  destruct (vtimeout_good _ _ _ _ _ _ _ HN Ht H1 G) as (G1 & HG1 & new1 & -> & F1).
  destruct (IH _ _ _ _ HN HF H G1) as (G2 & HG2 & new2 & -> & F2).
  split_and!; [done|by eapply grows_trans|]. exists (new1 ++ new2). split; [by rewrite <- app_assoc|].
  apply Forall_app. split; [|done]. eapply Forall_impl; [exact F1|]. intros m. by apply sound_resp_grows.
Qed.

Lemma good_new_touts rc N k rd l : ∀ v, 0 ≤ N → good rc N v →
  good rc N (foldl (λ v x, vadd_tout v k (mkTimeout x rd 0)) v l) ∧ grows v (foldl (λ v x, vadd_tout v k (mkTimeout x rd 0)) v l).
Proof.
  induction l as [|x l IH]; intros v HN G; simpl; [split; [done|apply grows_refl]|].
  destruct (IH (vadd_tout v k (mkTimeout x rd 0))) as [G1 HG1]; [done|by apply good_touts; [|simpl; lia]|].
  split; [done|]. destruct HG1 as [P C A]. by split.
Qed.

(** [N] bounds the views of the messages the block sends. *)
Lemma interprets_good N e v os v' out :
  let rc := Node (e_block e) in
  e ∈ D → 0 ≤ rc → 1 ≤ N < 2 ^ 32 → interprets par r v e os v' out → good rc (N - 1) v →
  Forall (λ dep, os dep ≠ [] → 0 ≤ Node dep ∧ ∀ u m, m ∈ os dep → sound_msg (Node dep) rc N u m) (e_deps e) →
  good rc N v' ∧ grows v v' ∧ Forall (sound_msg rc rc N v') out.
Proof.
  intros rc He Hrc HN (tval & v2 & out2 & v3 & seen3 & resps3 & resps4 & _ & H2 & H3 & H4 & ->) G Hd.
  fold rc in H2, H3, H4. set (v0 := vset_clock _ tval) in H2.
  assert (good rc (N - 1) v0 ∧ grows v v0) as [G0 HG0].
  { destruct G as [P A C Fi T]. split; by split. }
  set (v1 := if _ =? r then _ else v0) in H2.
  assert (good rc (N - 1) v1 ∧ grows v0 v1) as [G1 HG1].
  { unfold v1. destruct (_ =? r); [|split; [done|apply grows_refl]]. apply good_new_touts; [lia|done]. }
  clearbody v1. set (own := if _ =? r then _ else []) in H2.
  assert (∀ u, Forall (sound_msg rc rc N u) own) as Hown.
  { intros u. unfold own. destruct (_ =? r); [|constructor]. constructor; [|constructor]. intros _. split; [done|].
    exists e. by split_and!. }
  clearbody own. apply (vtimeouts_good rc N) in H2 as (G2 & HG2 & new & -> & F2); [|lia| |by apply (good_more _ (N - 1)); [lia|]].
  2: { apply Forall_forall. intros t Ht. destruct (v_touts v1 !! _) as [ts|] eqn:Et; [|by apply elem_of_nil in Ht].
       pose proof (go_touts _ _ _ G1 _ _ _ Et Ht). lia. }
  apply (eats_good _ _ _ N) in H3 as (G3 & HG3 & F3); [|done..|].
  2: { apply Forall_app. split; [done|]. eapply Forall_impl; [exact F2|]. intros m. apply sound_resp_msg. }
  apply (eats_deps_good _ _ _ N) in H4 as (G4 & HG4 & F4); [|done..].
  split_and!; [done|by repeat (eapply grows_trans; [eassumption|]); apply grows_refl|].
  rewrite !Forall_app. split_and!; [done| | |].
  - eapply Forall_impl; [exact F2|]. intros m Hm. apply sound_resp_msg. eapply sound_resp_grows; [exact HG4|].
    eapply sound_resp_grows; [exact HG3|done].
  - eapply Forall_impl; [exact F3|]. intros m Hm. apply sound_resp_msg. by eapply sound_resp_grows.
  - eapply Forall_impl; [exact F4|]. intros m. apply sound_resp_msg.
Qed.

(** ** The whole graph *)

(** A block that has been interpreted. *)
Record settled (b : BlockID) (N : Z) (v : rview) (out : list Message) : Prop := {
  se_prep : ∀ pp x, pp_view pp = 0 → x ∈ vprep v pp → accepted_by x pp ∨ (x = pp_node pp ∧ proposed pp);
  se_acc : ∀ pp, pp_view pp = 0 → acc v pp → proposed pp;
  se_comm : ∀ pp x, pp_view pp = 0 → x ∈ vcomm v pp → prepared_somewhere pp;
  se_final : ∀ nr h, v_final v !! nr = Some h →
    ∃ w, quorum2f1 par ≤ Z.of_nat (size (vcomm v (mkPrePrepare h (nr_node nr) (nr_round nr) w)));
  se_touts : ∀ k ts t, v_touts v !! k = Some ts → t ∈ ts → 0 ≤ t_view t ≤ N;
  se_out : ∀ rc u m, m ∈ out → sound_msg (Node b) rc N u m }.

Lemma settled_good b N v out rc : settled b N v out → good rc N v.
Proof.
  intros [P A C Fi T _]. split; [|done| |done..].
  - intros pp x Hw Hx. destruct (P pp x Hw Hx); auto.
  - intros pp x Hw Hx. left. by eapply C.
Qed.
Lemma good_no_view rc N : good rc N no_view.
Proof. split; try done. Qed.

Lemma good_settled b N v out :
  meaning par r D b v out → good (Node b) N v → Forall (sound_msg (Node b) (Node b) N v) out → settled b N v out.
Proof.
  intros HM [P A C Fi T] HF. assert (∀ pp, acc v pp → accepted_by (Node b) pp) as HA by (intros pp Hpp; by exists b, v, out).
  assert (∀ pp, quorum2f1 par ≤ Z.of_nat (size (vprep v pp)) → prepared_somewhere pp) as HQ by (intros pp Hpp; by exists b, v, out).
  split; [|done| |done|done|].
  - intros pp x Hw Hx. destruct (P pp x Hw Hx) as [H|[[-> H]|H]]; auto.
  - intros pp x Hw Hx. destruct (C pp x Hw Hx); auto.
  - intros rc u m Hm. rewrite Forall_forall in HF. specialize (HF m Hm). destruct m; simpl in *; try done.
    + intros Hw. destruct (HF Hw) as [H0 [H|[E H]]]; [auto|]. split; [done|]. left. rewrite E. auto.
    + intros Hw. destruct (HF Hw) as [H0 [H|H]]; auto.
Qed.

(** The blocks a block builds on are lower than it. *)
Record heights (ht : BlockID → Z) : Prop := {
  he_range : ∀ e, e ∈ D → 1 ≤ ht (e_block e) < 2 ^ 32;
  he_prev : ∀ e, e ∈ D → Valid (e_prev e) = true → ht (e_prev e) < ht (e_block e);
  he_deps : ∀ e dep, e ∈ D → dep ∈ e_deps e → Valid dep = true → ht dep < ht (e_block e) }.

Lemma sound_msg_more sd rc N N' u m : N ≤ N' → sound_msg sd rc N u m → sound_msg sd rc N' u m.
Proof. intros HN. destruct m; simpl; try done; lia. Qed.

Lemma block_good ht e vp vs os v out :
  heights ht → e ∈ D → (∀ e, e ∈ D → 0 ≤ Node (e_block e)) →
  (Valid (e_prev e) = true → ∃ op, settled (e_prev e) (ht (e_prev e)) vp op) → (Valid (e_prev e) = false → vp = no_view) →
  (∀ dep, dep ∈ e_deps e → Valid dep = true → meaning par r D dep (vs dep) (os dep) ∧ settled dep (ht dep) (vs dep) (os dep)) →
  (∀ dep, dep ∈ e_deps e → Valid dep = false → os dep = []) → interprets par r vp e os v out →
  let rc := Node (e_block e) in
  good rc (ht (e_block e)) v ∧ grows vp v ∧ Forall (sound_msg rc rc (ht (e_block e)) v) out.
Proof.
  intros [HR HP HD] He H0 Hp Hp0 Hd Hd0 Hi. apply (interprets_good _ e vp os v out); [done|auto|auto|done|..].
  - destruct (Valid (e_prev e)) eqn:Ev; [|rewrite Hp0 by done; apply good_no_view]. destruct Hp as [op Hp]; [done|].
    eapply good_more; [|by eapply settled_good]. specialize (HP e He Ev). lia.
  - apply Forall_forall. intros dep Hdep Hne. destruct (Valid dep) eqn:Ev; [|by rewrite Hd0 in Hne].
    destruct (Hd dep Hdep Ev) as [HM HS]. split.
    + apply meaning_known, list_elem_of_fmap in HM as (e' & -> & He'). auto.
    + intros u m Hm. eapply sound_msg_more; [|by apply (se_out _ _ _ _ HS)].
      specialize (HD e dep He Hdep Ev). lia.
Qed.

Lemma meaning_settled ht b v out :
  heights ht → (∀ e, e ∈ D → 0 ≤ Node (e_block e)) →
  meaning par r D b v out → settled b (ht b) v out.
Proof.
  intros Hh H0 HM. induction HM as [e vp op vs os v out He Hp IHp Hp0 Hd IHd Hd0 Hi].
  assert (meaning par r D (e_block e) v out) as HM by (econstructor; eauto).
  destruct (block_good ht e vp vs os v out) as (G & _ & F); eauto using good_settled.
Qed.
End Votes.
