(* ===== verification/Accept.v ===== *)
(** * Which proposal a chain of blocks accepts

    A node accepts, in view 0, the first block of a node and round that its chain of blocks
    references, or none at all when it has moved to a later view before.  The first one depends on the
    blocks alone, so two interpretations of one chain never accept different proposals, even where
    they count delays differently. *)

From S2P Require Import Prelude Bitset Messages Block State Graph Meaning MeaningFacts Votes.

Section Accept.
Context (par : params) (r n : Z).
Implicit Types (f : option bytes) (v : rview) (m msg : Message).

(** The first block of [n] for round [r], when [f] was the first one before [b]. *)
Definition first_block f (b : BlockID) : option bytes :=
  match f with
  | Some _ => f
  | None => if bool_decide (Node b = n ∧ Round b = r) then Some (Hash b) else None
  end.
(** The same for a proposal of view 0. *)
Definition first_msg f m : option bytes :=
  match f, m with
  | None, MPrePrepare pp =>
      if bool_decide (pp_node pp = n ∧ pp_round pp = r ∧ pp_view pp = 0) then Some (pp_hash pp) else None
  | _, _ => f
  end.

(** Messages that change nothing in view 0, and those a block may send. *)
Definition later_msg m : Prop :=
  match m with
  | MPrePrepare pp => pp_view pp ≠ 0 | MViewChange m => 1 ≤ vc_view m | MNewView m => 1 ≤ nv_view m | _ => True
  end.
Definition ok_msg m : Prop := match m with MPrePrepare _ => True | _ => later_msg m end.

Lemma first_msg_later f m : later_msg m → first_msg f m = f.
Proof. destruct f, m; simpl; try done. intros H. rewrite bool_decide_eq_false_2; [done|]. tauto. Qed.
Lemma first_msgs_later f l : Forall later_msg l → foldl first_msg f l = f.
Proof. intros H. induction H as [|m l Hm _ IH]; simpl; [done|]. by rewrite first_msg_later. Qed.
Lemma later_ok m : later_msg m → ok_msg m.
Proof. by destruct m. Qed.
Lemma first_msgs_some h l : foldl first_msg (Some h) l = Some h.
Proof. by induction l. Qed.
Lemma first_blocks_some h l : foldl first_block (Some h) l = Some h.
Proof. by induction l. Qed.

(** Nothing is accepted in view 0 any more. *)
Definition closed v : Prop :=
  has v (Final n r) = true ∨ ∃ w, v_data v !! View n r = Some (AVal (VUint32 w)) ∧ 1 ≤ w.

(** [f] is the first proposal seen; it is the one that was accepted, if one was. *)
Record tracks f v : Prop := {
  tk_acc : ∀ x, v_data v !! PrePrepared n r 0 = Some x → ∃ h, f = Some h ∧ x = AVal (VMsg (mkPrePrepare h n r 0));
  tk_seen : ∀ h, f = Some h → is_Some (v_data v !! PrePrepared n r 0) ∨ closed v;
  tk_view : ∀ w, v_data v !! View n r = Some (AVal (VUint32 w)) → 0 ≤ w }.

Lemma tracks_same f v v' : v_data v' = v_data v → tracks f v → tracks f v'.
Proof. intros E [A S W]. unfold closed, has in *. split; [..|]; unfold closed, has; rewrite E; done. Qed.
Lemma tracks_no_view : tracks None no_view.
Proof. by split. Qed.

Lemma tracks_data f v k x :
  k ≠ PrePrepared n r 0 → k ≠ View n r → tracks f v → tracks f (vset_data v k x).
Proof.
  intros H1 H2 [A S W]. split; simpl.
  - intros y. rewrite lookup_insert_ne by done. apply A.
  - intros h Hh. destruct (S h Hh) as [HS|[HS|HS]]; [left; by rewrite lookup_insert_ne|right; left|right; right].
    + unfold has in *. apply bool_decide_eq_true in HS. apply bool_decide_eq_true. simpl. rewrite lookup_insert.
      case_decide; [by eexists|done].
    + simpl. by rewrite lookup_insert_ne.
  - intros w. rewrite lookup_insert_ne by done. apply W.
Qed.

Lemma tracks_view f v nd rd w :
  1 ≤ w → tracks f v → tracks f (vset_data v (View nd rd) (AVal (VUint32 w))).
Proof.
  intros Hw T. destruct (decide (View nd rd = View n r)) as [E|E]; [|by apply tracks_data].
  injection E as -> ->. destruct T as [A S W]. split; simpl.
  - intros y. rewrite lookup_insert_ne by done. apply A.
  - intros h Hh. right. right. exists w. simpl. by rewrite lookup_insert_eq.
  - intros w'. rewrite lookup_insert_eq. intros [= <-]. lia.
Qed.

Lemma vview_tracks f v nd rd w v' :
  vview v nd rd = Ok (w, v') → tracks f v → tracks f v' ∧ v_data v' !! View nd rd = Some (AVal (VUint32 w)) ∧ has v' (Final n r) = has v (Final n r).
Proof.
  unfold vview. intros H T. destruct (v_data v !! View nd rd) as [[[]|]|] eqn:E; simplify_eq; [done|].
  split; [|split; [apply lookup_insert_eq|unfold has; simpl; by rewrite lookup_insert_ne]].
  destruct (decide (View nd rd = View n r)) as [Ek|Ek]; [|by apply tracks_data].
  injection Ek as -> ->. destruct T as [A S W]. split; simpl.
  - intros y. rewrite lookup_insert_ne by done. apply A.
  - intros h Hh. destruct (S h Hh) as [HS|[HS|(w & HS & _)]]; [left; by rewrite lookup_insert_ne| |congruence].
    right. left. unfold has in *. simpl. by rewrite lookup_insert_ne.
  - intros w'. rewrite lookup_insert_eq. by intros [= <-].
Qed.

(** ** One message *)
Lemma vhandle_later sd rc o w f v msg resp v' :
  vhandle par sd rc o w v msg = Ok (resp, v') → later_msg msg → tracks f v →
  tracks f v' ∧ ∀ x, resp = Some x → later_msg x.
Proof.
  unfold vhandle. intros H L T. destruct (Msg.NodeRound msg) as [nd rd] eqn:EN.
  assert (∀ k x u, v_data u = v_data v → k ≠ PrePrepared n r 0 → k ≠ View n r → tracks f (vset_data u k x)) as HD.
  { intros k x u E H1 H2. apply tracks_data; [done..|]. by apply (tracks_same f v). }
  destruct msg as [m|m|m|m|m]; simpl in L.
  - destruct (_ || _); [by simplify_eq|]. apply bind_Ok in H as (b1 & _ & H). apply bind_Ok in H as (b2 & _ & H).
    injection H as <- <-. split; [apply HD; [done|intros [= _ _ E]; by apply L|done]|]. by intros x [= <-].
  - destruct (_ <? _); [by simplify_eq|]. apply bind_Ok in H as (b1 & _ & H). cbv zeta in H.
    destruct (_ || _); [simplify_eq; split; [by apply (tracks_same f v)|done]|].
    apply bind_Ok in H as (cm & _ & H). destruct cm; [simplify_eq; split; [by apply (tracks_same f v)|done]|].
    apply bind_Ok in H as (b2 & _ & H). injection H as <- <-. split; [|by intros x [= <-]].
    destruct (has _ _); [by apply (tracks_same f v)|by apply HD].
  - destruct (_ <? _); [by simplify_eq|]. apply bind_Ok in H as (b1 & _ & H). cbv zeta in H.
    destruct (_ || _); simplify_eq; (split; [by apply (tracks_same f v)|done]).
  - destruct (_ <? _); [by simplify_eq|]. apply bind_Ok in H as (vs & _ & H). cbv zeta in H.
    destruct (negb _); [simplify_eq; split; [by apply HD|done]|].
    apply bind_Ok in H as (h & _ & H). injection H as <- <-.
    split; [apply tracks_view; [done|by apply HD]|]. by intros x [= <-].
  - destruct (_ || _); [by simplify_eq|]. injection H as <- <-.
    split; [|intros x [= <-]; simpl; lia]. apply tracks_data; [done..|]. apply (tracks_same f (vset_data v (View nd rd) (AVal (VUint32 (nv_view m))))); [done|]. by apply tracks_view.
Qed.

Lemma vmessage_first sd rc o f v msg resp v' :
  vmessage par sd rc o v msg = Ok (resp, v') → ok_msg msg → tracks f v →
  tracks (first_msg f msg) v' ∧ ∀ x, resp = Some x → later_msg x.
Proof.
  intros H HM T. assert (later_msg msg ∨ ∃ pp, msg = MPrePrepare pp ∧ pp_view pp = 0) as [L|(pp & -> & Hw)].
  { destruct msg as [pp| | | |]; auto. destruct (decide (pp_view pp = 0)); eauto. }
  { rewrite first_msg_later by done. unfold vmessage in H. destruct (Msg.NodeRound msg) as [nd rd].
    destruct (has v _); [by simplify_eq|]. apply bind_Ok in H as ([w v1] & (T1 & _ & _)%(vview_tracks f) & H); [|done].
    by eapply vhandle_later. }
  destruct pp as [h nd rd w0]. simpl in Hw. subst w0. unfold vmessage, vhandle in H. cbn [Msg.NodeRound pp_node pp_round pp_view pp_hash] in H.
  assert (∀ u, (nd = n → rd = r → is_Some (v_data u !! PrePrepared n r 0) ∨ closed u) → tracks f u →
    (∀ x, nd = n → rd = r → v_data u !! PrePrepared n r 0 = Some x → is_Some f) →
    tracks (first_msg f (MPrePrepare (mkPrePrepare h nd rd 0))) u) as Hskip.
  { intros u Hu Tu Hf. destruct f as [h'|]; [done|]. simpl. case_bool_decide as E; [|done]. destruct E as (-> & -> & _).
    destruct Tu as [A S W]. split; [|intros h' _; by apply Hu|done].
    intros x Hx. destruct (Hf x) as [? ?]; done. }
  destruct (has v (Final nd rd)) eqn:EF.
  { injection H as <- <-. split; [|done]. apply Hskip; [intros -> ->; right; by left|done|].
    intros x -> -> Hx. destruct (tk_acc _ _ T x Hx) as (h' & -> & _). by eexists. }
  apply bind_Ok in H as ([w v1] & Hv & H). apply (vview_tracks f) in Hv as (T1 & Hv1 & EF1); [|done].
  destruct (_ || _) eqn:EG.
  - injection H as <- <-. split; [|done]. apply Hskip; [|done|].
    + intros -> ->. apply orb_true_iff in EG as [EG|EG].
      * apply negb_true_iff, Z.eqb_neq in EG. right. right. exists w. split; [done|].
        pose proof (tk_view _ _ T1 _ Hv1). lia.
      * left. unfold has in EG. by apply bool_decide_eq_true in EG.
    + intros x -> -> Hx. destruct (tk_acc _ _ T1 x Hx) as (h' & -> & _). by eexists.
  - apply orb_false_iff in EG as [EG%negb_false_iff%Z.eqb_eq EH]. subst w.
    apply bind_Ok in H as (b1 & _ & H). apply bind_Ok in H as (b2 & _ & H). injection H as <- <-.
    split; [|by intros x [= <-]].
    destruct (decide (nd = n ∧ rd = r)) as [[-> ->]|E].
    2: { replace (first_msg f _) with f by (destruct f; simpl; [done|rewrite bool_decide_eq_false_2; [done|tauto]]).
         apply tracks_data; [intros [= E1 E2]; tauto|done|]. by apply (tracks_same f v1). }
    unfold has in EH. apply bool_decide_eq_false in EH. rewrite <- eq_None_not_Some in EH.
    destruct f as [h'|].
    { destruct (tk_seen _ _ T1 h' eq_refl) as [[x Hx]|[HF|(w & Hw & Hw1)]]; [congruence|congruence|].
      rewrite Hv1 in Hw. injection Hw as <-. lia. }
    simpl. rewrite bool_decide_eq_true_2 by done. destruct T1 as [_ _ W]. split; simpl.
    + intros x. rewrite lookup_insert_eq. intros [= <-]. by exists h.
    + intros h' _. left. rewrite lookup_insert_eq. by eexists.
    + intros w. rewrite lookup_insert_ne by done. apply W.
Qed.

(** ** Queues of messages *)

(** Proposals that were seen before come after the first one. *)
Definition after_first f (seen : gset Message) : Prop := ∀ m, m ∈ seen → first_msg f m = f.

Lemma after_first_more f seen m : after_first f seen → after_first (first_msg f m) ({[m]} ∪ seen).
Proof.
  intros H m' [->%elem_of_singleton|Hm]%elem_of_union.
  - destruct f; [done|]. destruct m; simpl; try done. case_bool_decide; simpl; [done|]. by rewrite bool_decide_eq_false_2.
  - specialize (H m' Hm). destruct f as [h|]; [done|]. destruct (first_msg None m); done.
Qed.

Lemma eats_first sd rc o f v seen q v' seen' resps :
  eats par sd rc o v seen q v' seen' resps → Forall ok_msg q → after_first f seen → tracks f v →
  tracks (foldl first_msg f q) v' ∧ after_first (foldl first_msg f q) seen' ∧ Forall later_msg resps.
Proof.
  intros H. revert f. induction H as [v seen|v seen msg q v' seen' resps Hin _ IH|v seen msg q resp v1 v' seen' resps _ Hm _ IH];
    intros f HQ HS T; [by split_and!| |]; apply Forall_cons in HQ as [Hok HQ]; cbn [foldl].
  - rewrite (HS msg Hin). by apply IH.
  - destruct (vmessage_first _ _ _ f _ _ _ _ Hm Hok T) as [T1 HL].
    assert (Forall later_msg (option_list resp)) as HR by (destruct resp; repeat constructor; auto).
    destruct (IH (first_msg f msg)) as (T2 & HS2 & HF); [|by apply after_first_more|done|].
    { apply Forall_app. split; [done|]. eapply Forall_impl; [exact HR|]. intros m. apply later_ok. }
    rewrite foldl_app, (first_msgs_later _ (option_list resp)) in T2, HS2 by done.
    split_and!; [done|done|]. by apply Forall_app.
Qed.

(** The messages of a block: its proposal and later ones. *)
Definition sends (b : BlockID) (out : list Message) : Prop :=
  ∃ rest, out = (if Round b =? r then [MPrePrepare (mkPrePrepare (Hash b) (Node b) (Round b) 0)] else []) ++ rest ∧
          Forall later_msg rest.

Lemma sends_ok b out : sends b out → Forall ok_msg out.
Proof.
  intros (rest & -> & HF). apply Forall_app. split; [destruct (_ =? _); by repeat constructor|].
  eapply Forall_impl; [exact HF|]. intros m. apply later_ok.
Qed.
Lemma sends_first f b out : sends b out → foldl first_msg f out = first_block f b.
Proof.
  intros (rest & -> & HF). rewrite foldl_app, (first_msgs_later _ rest) by done.
  destruct f as [h|]; [by rewrite first_msgs_some|]. destruct (Z.eqb_spec (Round b) r) as [E|E]; simpl.
  - do 2 case_bool_decide; tauto.
  - rewrite bool_decide_eq_false_2; [done|tauto].
Qed.

Lemma eats_deps_first rc o os f v seen deps v' resps :
  eats_deps par rc o os v seen deps v' resps →
  (∀ dep, dep ∈ deps → Valid dep = true → sends dep (os dep)) → (∀ dep, dep ∈ deps → Valid dep = false → os dep = []) →
  after_first f seen → tracks f v →
  tracks (foldl first_block f (filter (λ b, Valid b = true) deps)) v' ∧ Forall later_msg resps.
Proof.
  intros H. revert f. induction H as [v seen|v seen dep deps v1 seen1 resps v' resps' He _ IH]; intros f HV HI HS T; [done|].
  assert (Forall ok_msg (os dep) ∧ foldl first_msg f (os dep) = foldl first_block f (filter (λ b, Valid b = true) [dep])) as [HO EF].
  { destruct (Valid dep) eqn:E.
    - rewrite filter_cons_True by done. pose proof (HV dep ltac:(left) E) as Hs. split; [by eapply sends_ok|by apply sends_first].
    - rewrite filter_cons_False by congruence. by rewrite (HI dep) by (done || left). }
  destruct (eats_first _ _ _ f _ _ _ _ _ _ He) as (T1 & HS1 & HF); [done..|]. rewrite EF in T1, HS1.
  change (dep :: deps) with ([dep] ++ deps). rewrite filter_app, foldl_app.
  destruct (IH _ (λ d Hd, HV d ltac:(by right)) (λ d Hd, HI d ltac:(by right)) HS1 T1) as [T2 HF2].
  split; [done|]. by apply Forall_app.
Qed.

(** ** One block *)
Definition touts_ok v : Prop := ∀ k ts t, v_touts v !! k = Some ts → t ∈ ts → 0 ≤ t_view t < 2 ^ 32 - 1.

Lemma vtimeouts_first rc f ts : ∀ v out v' out',
  Forall (λ t, 0 ≤ t_view t < 2 ^ 32 - 1) ts → range (vtimeout rc) (v, out) ts = Ok (v', out') → tracks f v →
  tracks f v' ∧ ∃ new, out' = out ++ new ∧ Forall later_msg new.
Proof.
  induction ts as [|t ts IH]; intros v out v' out' HF H T; cbn [range] in H.
  { injection H as <- <-. split; [done|]. exists []. by rewrite app_nil_r. }
  apply Forall_cons in HF as [Ht HF]. apply bind_Ok in H as ([v1 out1] & H1 & H).
  assert (tracks f v1 ∧ ∃ new, out1 = out ++ new ∧ Forall later_msg new) as (T1 & new1 & -> & F1).
  { assert (tracks f v ∧ ∃ new, out = out ++ new ∧ Forall later_msg new) as Hs by (split; [done|]; exists []; by rewrite app_nil_r).
    unfold vtimeout in H1. destruct (has v _); [by injection H1 as <- <-|].
    apply bind_Ok in H1 as (w & Hw & H1). destruct (Z.ltb_spec (t_view t) w) as [|Hle]; [by injection H1 as <- <-|].
    apply bind_Ok in H1 as (h & _ & H1). injection H1 as <- <-. split.
    - destruct (decide (View (t_node t) (t_round t) = View n r)) as [E|E]; [|by apply tracks_data].
      injection E as E1 E2. apply tracks_view; [|done]. rewrite E1, E2 in Hw.
      destruct (v_data v !! View n r) as [[[]|]|] eqn:Ev; simplify_eq/=;
        [pose proof (tk_view _ _ T _ Ev)|]; unfold u32; rewrite Z.mod_small; lia.
    - eexists. split; [done|]. constructor; [|constructor]. simpl. unfold u32. rewrite Z.mod_small; lia. }
  destruct (IH _ _ _ _ HF H T1) as (T2 & new2 & -> & F2). split; [done|]. exists (new1 ++ new2).
  split; [by rewrite <- app_assoc|by apply Forall_app].
Qed.

Lemma new_touts_data k rd l : ∀ v, v_data (foldl (λ v x, vadd_tout v k (mkTimeout x rd 0)) v l) = v_data v.
Proof. induction l as [|x l IH]; intros v; simpl; [done|]. by rewrite IH. Qed.
Lemma touts_ok_new k rd l : ∀ v, touts_ok v → touts_ok (foldl (λ v x, vadd_tout v k (mkTimeout x rd 0)) v l).
Proof.
  induction l as [|x l IH]; intros v H; simpl; [done|]. apply IH. intros k' ts t. unfold vadd_tout. simpl.
  rewrite lookup_insert. case_decide; [intros [= <-]|by apply H]. subst.
  intros [Hi| ->%list_elem_of_singleton]%elem_of_app; [|simpl; lia].
  destruct (v_touts v !! k') as [ts|] eqn:E; [by eapply H|]. by apply elem_of_nil in Hi.
Qed.

(** The blocks an entry shows, in their order. *)
Definition shown (e : entry) : list BlockID := e_block e :: filter (λ b, Valid b = true) (e_deps e).

Lemma interprets_first f v e os v' out :
  interprets par r v e os v' out → touts_ok v → tracks f v →
  (∀ dep, dep ∈ e_deps e → Valid dep = true → sends dep (os dep)) →
  (∀ dep, dep ∈ e_deps e → Valid dep = false → os dep = []) →
  tracks (foldl first_block f (shown e)) v' ∧ sends (e_block e) out.
Proof.
  intros (tval & v2 & out2 & v3 & seen3 & resps3 & resps4 & _ & H2 & H3 & H4 & ->) HT T HV HI.
  set (v0 := vset_clock _ tval) in H2.
  assert (touts_ok v0 ∧ tracks f v0) as [HT0 T0] by (split; [done|by apply (tracks_same f v)]). clearbody v0.
  set (v1 := if _ =? r then _ else v0) in H2.
  assert (touts_ok v1 ∧ tracks f v1) as [HT1 T1].
  { unfold v1. destruct (_ =? r); [|done]. split; [by apply touts_ok_new|]. eapply tracks_same, T0. apply new_touts_data. }
  clearbody v1. apply (vtimeouts_first _ f) in H2 as (T2 & new & -> & F2); [|apply Forall_forall|done].
  2: { intros t Ht. destruct (v_touts v1 !! _) as [ts|] eqn:Et; [by eapply HT1|by apply elem_of_nil in Ht]. }
  assert (sends (e_block e) ((if Round (e_block e) =? r then [MPrePrepare (mkPrePrepare (Hash (e_block e)) (Node (e_block e)) (Round (e_block e)) 0)] else []) ++ new)) as HS
    by (by exists new).
  destruct (eats_first _ _ _ f _ _ _ _ _ _ H3) as (T3 & HS3 & F3); [by eapply sends_ok|by intros m ?%elem_of_empty|done|].
  rewrite (sends_first _ _ _ HS) in T3, HS3.
  destruct (eats_deps_first _ _ _ _ _ _ _ _ _ H4 HV HI HS3 T3) as [T4 F4]. split; [exact T4|].
  exists (new ++ resps3 ++ resps4). split; [by rewrite <- app_assoc|]. by rewrite !Forall_app.
Qed.

(** ** Chains of blocks *)
Context (D : list entry).

(** The first block of [n] for round [r] in the chain that ends with [b]. *)
Inductive sees : BlockID → option bytes → Prop :=
  | sees_block e f :
      e ∈ D → (Valid (e_prev e) = true → sees (e_prev e) f) → (Valid (e_prev e) = false → f = None) →
      sees (e_block e) (foldl first_block f (shown e)).

Lemma meaning_first ht b v out :
  heights D ht → (∀ e, e ∈ D → 0 ≤ Node (e_block e)) → meaning par r D b v out →
  (∃ f, sees b f ∧ tracks f v) ∧ sends b out.
Proof.
  intros Hh H0 M. induction M as [e vp op vs os v out He Hp IHp Hp0 Hd IHd Hd0 Hi].
  assert (touts_ok vp) as HT.
  { destruct (Valid (e_prev e)) eqn:E; [|by rewrite Hp0]. intros k ts t Hk Ht.
    pose proof (se_touts _ _ _ _ _ _ _ (meaning_settled _ _ _ _ _ _ _ Hh H0 (Hp eq_refl)) k ts t Hk Ht).
    pose proof (he_prev _ _ Hh e He E). pose proof (he_range _ _ Hh e He). lia. }
  assert (∃ f, (Valid (e_prev e) = true → sees (e_prev e) f) ∧ (Valid (e_prev e) = false → f = None) ∧ tracks f vp) as (f & Hs & Hn & T).
  { destruct (Valid (e_prev e)); [destruct IHp as [(f & Hf & T) _]; [done|by exists f]|].
    exists None. rewrite Hp0 by done. split_and!; [done|done|apply tracks_no_view]. }
  destruct (interprets_first f vp e os v out Hi HT T) as [T' HS]; [intros; by apply IHd|done|].
  split; [|done]. exists (foldl first_block f (shown e)). split; [by econstructor|done].
Qed.

(** Two entries of one block differ at most in references to nothing. *)
Definition similar : Prop :=
  ∀ e e', e ∈ D → e' ∈ D → e_block e = e_block e' → e_prev e = e_prev e' ∧ shown e = shown e'.

Lemma sees_fun b f f' : similar → sees b f → sees b f' → f = f'.
Proof.
  intros HS H. revert f'. induction H as [e f He _ IH Hn]; intros f' H'.
  remember (e_block e) as b eqn:Eb. destruct H' as [e' f' He' Hp' Hn'].
  destruct (HS e' e He' He Eb) as [Ep Es]. rewrite Ep in Hp', Hn'. rewrite Es. f_equal.
  destruct (Valid (e_prev e)); [by apply IH, Hp'|by rewrite Hn, Hn'].
Qed.

(** [b'] is [b] or builds on it, block by block. *)
Definition before : BlockID → BlockID → Prop :=
  rtc (λ b b', ∃ e, e ∈ D ∧ e_block e = b' ∧ Valid (e_prev e) = true ∧ e_prev e = b).

Lemma sees_before b b' h f' : similar → before b b' → sees b (Some h) → sees b' f' → f' = Some h.
Proof.
  intros HS HB Hb. revert b' HB f'. apply (rtc_ind_r (λ b', ∀ f', sees b' f' → f' = Some h) b).
  { intros f' Hf. by eapply sees_fun. }
  intros b1 b2 _ (e & He & Eb & Hv & Ep) IH f' Hf. destruct Hf as [e' f' He' Hp' _].
  destruct (HS e' e He' He (eq_sym Eb)) as [Ep' _]. rewrite Ep', Ep in Hp'.
  rewrite (IH f'); [apply first_blocks_some|]. apply Hp'. by rewrite <- Ep.
Qed.
End Accept.
