(* ===== verification/Agreement.v ===== *)
(** * Agreement in the first view

    A node votes for a block in view 0 by accepting its proposal, which a chain of blocks does
    once, and two quorums of prepare votes have a node in common that did not fork its chain: so all
    the commit votes of view 0, in the states of all nodes, are for the same block. *)

From S2P Require Import Prelude Bitset Messages Block State Graph Deliver Updates Termination Protocol Typing Chain Meaning MeaningFacts Refine RefineBlock RefineExec Votes Accept.

(** ** Nodes that do not fork *)
Section Honest.
Context (par : params) (r : Z) (D : list entry).

(** [x] made one block after the other, and one for each round. *)
Record honest (x : Z) : Prop := {
  ho_chain : ∀ e e', e ∈ D → e' ∈ D → Node (e_block e) = x → Node (e_block e') = x →
    before D (e_block e) (e_block e') ∨ before D (e_block e') (e_block e);
  ho_round : ∀ e e', e ∈ D → e' ∈ D → Node (e_block e) = x → Node (e_block e') = x →
    Round (e_block e) = Round (e_block e') → e_block e = e_block e' }.

Context (ht : BlockID → Z) (HS : similar D) (Hh : heights D ht) (H0 : ∀ e, e ∈ D → 0 ≤ Node (e_block e)).

(** What a node accepted is the first block its chain shows. *)
Lemma accepted_first b v out pp :
  meaning par r D b v out → acc v pp → pp_round pp = r → pp_view pp = 0 → sees r (pp_node pp) D b (Some (pp_hash pp)).
Proof using Hh H0.
  intros M HA Hr Hw. destruct (meaning_first par r (pp_node pp) D ht b v out Hh H0 M) as [(f & Hf & T) _].
  unfold acc in HA. rewrite Hr, Hw in HA. destruct (tk_acc _ _ _ _ T _ HA) as (h & -> & E). injection E as E. by rewrite E.
Qed.

(** An honest node accepts one proposal for a node and round. *)
Lemma honest_accepts x pp pp' :
  honest x → pp_node pp = pp_node pp' → pp_round pp = r → pp_round pp' = r → pp_view pp = 0 → pp_view pp' = 0 →
  accepted_by par r D x pp → accepted_by par r D x pp' → pp_hash pp = pp_hash pp'.
Proof using All.
  intros [HO _] E R R' W W' (b & v & out & M & Hb & HA) (b' & v' & out' & M' & Hb' & HA').
  pose proof (accepted_first _ _ _ _ M HA R W) as S1. pose proof (accepted_first _ _ _ _ M' HA' R' W') as S2.
  pose proof (meaning_known _ _ _ _ _ _ M) as (e & -> & He)%list_elem_of_fmap.
  pose proof (meaning_known _ _ _ _ _ _ M') as (e' & -> & He')%list_elem_of_fmap.
  rewrite <- E in S2. destruct (HO e e') as [HB|HB]; [done..| |].
  - pose proof (sees_before _ _ _ _ _ _ _ HS HB S1 S2). congruence.
  - pose proof (sees_before _ _ _ _ _ _ _ HS HB S2 S1). congruence.
Qed.

(** An honest node's vote in view 0 is for one hash. *)
Definition endorses (x : Z) (pp : PrePrepare) : Prop := accepted_by par r D x pp ∨ (x = pp_node pp ∧ proposed D pp).

Lemma endorsed_proposed x pp : pp_view pp = 0 → endorses x pp → proposed D pp.
Proof using Hh H0.
  intros Hw [(b & v & out & M & _ & HA)|[_ H]]; [|done].
  by apply (se_acc _ _ _ _ _ _ _ (meaning_settled _ _ _ ht _ _ _ Hh H0 M)).
Qed.

Lemma honest_endorses x pp pp' :
  honest x → pp_node pp = pp_node pp' → pp_round pp = r → pp_round pp' = r → pp_view pp = 0 → pp_view pp' = 0 →
  endorses x pp → endorses x pp' → pp_hash pp = pp_hash pp'.
Proof using All.
  intros HO E R R' W W' H H'.
  assert (x = pp_node pp → pp_hash pp = pp_hash pp') as Hown.
  { intros Ex. destruct (endorsed_proposed x pp W H) as (e & He & N1 & R1 & <-).
    destruct (endorsed_proposed x pp' W' H') as (e' & He' & N2 & R2 & <-). f_equal. apply (ho_round _ HO); congruence. }
  destruct H as [H|[Ex _]]; [|by apply Hown]. destruct H' as [H'|[Ex _]]; [|apply Hown; congruence].
  by apply (honest_accepts x).
Qed.

(** Prepare votes of view 0 are endorsements. *)
Lemma prepare_endorses b v out pp y :
  meaning par r D b v out → pp_view pp = 0 → y ∈ vprep v pp → endorses y pp ∧ ∃ e, e ∈ D ∧ Node (e_block e) = y.
Proof using Hh H0.
  intros M W Hy. pose proof (se_prep _ _ _ _ _ _ _ (meaning_settled _ _ _ ht _ _ _ Hh H0 M) pp y W Hy) as HE.
  split; [exact HE|]. destruct HE as [(b2 & v2 & out2 & M2 & <- & _)|[-> (e & He & <- & _)]]; [|by exists e].
  apply meaning_known, list_elem_of_fmap in M2 as (e & -> & He). by exists e.
Qed.
End Honest.

(** ** Decisions of the first view *)
Section Decisions.
Context (par : params) (r : Z) (D : list entry) (ht : BlockID → Z) (f : Z) (P F : gset Z).
Context (HS : similar D) (Hh : heights D ht) (HN : ∀ e, e ∈ D → Node (e_block e) ∈ P) (HP : ∀ x, x ∈ P → 0 ≤ x).
Context (SP : Z.of_nat (size P) = 3 * f + 1) (HQ : quorum2f1 par = 2 * f + 1).
Context (SF : Z.of_nat (size F) ≤ f) (HO : ∀ x, x ∉ F → honest D x).

#[local] Set Default Proof Using "All".

Lemma nodes_nonneg e : e ∈ D → 0 ≤ Node (e_block e).
Proof. auto. Qed.

(** Two commit votes of view 0 are for the same hash. *)
Lemma meaning_agreement b v out b' v' out' pp pp' x x' :
  pp_node pp = pp_node pp' → pp_round pp = r → pp_round pp' = r → pp_view pp = 0 → pp_view pp' = 0 →
  meaning par r D b v out → meaning par r D b' v' out' → x ∈ vcomm v pp → x' ∈ vcomm v' pp' →
  pp_hash pp = pp_hash pp'.
Proof.
  intros E R R' W W' M M' Hx Hx'. pose proof nodes_nonneg as H0.
  assert (∀ b v out pp, meaning par r D b v out → pp_view pp = 0 → ∀ y, y ∈ vprep v pp → endorses par r D y pp ∧ y ∈ P) as HE.
  { intros b1 v1 out1 pp1 M1 W1 y Hy. destruct (prepare_endorses par r D ht Hh H0 _ _ _ pp1 y M1 W1 Hy) as (HE & e & He & <-). auto. }
  destruct (se_comm _ _ _ _ _ _ _ (meaning_settled _ _ _ ht _ _ _ Hh H0 M) pp x W Hx) as (b1 & v1 & out1 & M1 & Q1).
  destruct (se_comm _ _ _ _ _ _ _ (meaning_settled _ _ _ ht _ _ _ Hh H0 M') pp' x' W' Hx') as (b2 & v2 & out2 & M2 & Q2).
  rewrite HQ in Q1, Q2.
  assert (f + 1 ≤ Z.of_nat (size (vprep v1 pp ∩ vprep v2 pp'))) as HI.
  { apply (quorum_overlap P); [done|intros y Hy; by eapply (HE b1 v1 out1 pp)|intros y Hy; by eapply (HE b2 v2 out2 pp')|done..]. }
  destruct (set_choose_or_empty ((vprep v1 pp ∩ vprep v2 pp') ∖ F)) as [[y Hy]|He].
  2: { assert (vprep v1 pp ∩ vprep v2 pp' ⊆ F) as HSub.
       { intros y Hy. destruct (decide (y ∈ F)); [done|]. set_solver. }
       pose proof (size_mono _ _ HSub). lia. }
  apply elem_of_difference in Hy as [[Hy1 Hy2]%elem_of_intersection HF].
  eapply (honest_endorses par r D ht HS Hh H0 y); eauto; [by apply (HE b1 v1 out1)|by apply (HE b2 v2 out2)].
Qed.

(** No commit vote of a later view has been counted for the node and round. *)
Definition first_view_only (s : state) (n r : Z) : Prop :=
  ∀ h w, w ≠ 0 → commit_votes s (mkPrePrepare h n r w) = ∅.

(** A decision of view 0 rests on a commit vote, *)
Lemma decision_vote b v out s n h :
  meaning par r D b v out → says r s v → State.get (final s) (mkNodeRound n r) = Some h → first_view_only s n r →
  ∃ x, x ∈ vcomm v (mkPrePrepare h n r 0).
Proof.
  intros M [SB SF1] Hfin Hone. rewrite SF1 in Hfin by done. pose proof nodes_nonneg as H0.
  apply (meaning_settled _ _ _ ht) in M; [|done..].
  destruct (se_final _ _ _ _ _ _ _ M _ _ Hfin) as [w HW]. cbn [nr_node nr_round] in HW. rewrite HQ in HW.
  assert (commit_votes s (mkPrePrepare h n r w) = vcomm v (mkPrePrepare h n r w)) as EV
    by (unfold commit_votes, vcomm; by rewrite SB).
  destruct (decide (w = 0)) as [->|Hw0]; [|rewrite <- EV, Hone, size_empty in HW by done; lia].
  destruct (set_choose_or_empty (vcomm v (mkPrePrepare h n r 0))) as [Hx|Hx]; [done|].
  apply leibniz_equiv in Hx. rewrite Hx, size_empty in HW. lia.
Qed.

(** and is for a block of the graph, the same in all states. *)
Lemma decision_proposed b v out s n h :
  meaning par r D b v out → says r s v → State.get (final s) (mkNodeRound n r) = Some h → first_view_only s n r →
  proposed D (mkPrePrepare h n r 0).
Proof.
  intros M SA Hh1 H1. destruct (decision_vote _ _ _ _ _ _ M SA Hh1 H1) as [x Hx]. pose proof nodes_nonneg as H0.
  destruct (se_comm _ _ _ _ _ _ _ (meaning_settled _ _ _ ht _ _ _ Hh H0 M) (mkPrePrepare h n r 0) x eq_refl Hx) as (b1 & v1 & out1 & M1 & Q1).
  destruct (set_choose_or_empty (vprep v1 (mkPrePrepare h n r 0))) as [[y Hy]|He].
  - destruct (prepare_endorses par r D ht Hh H0 _ _ _ (mkPrePrepare h n r 0) y M1 eq_refl Hy) as (HE & _). by eapply endorsed_proposed.
  - apply leibniz_equiv in He. rewrite He, size_empty, HQ in Q1. lia.
Qed.

Lemma decisions_agree b v out s b' v' out' s' n h h' :
  meaning par r D b v out → says r s v → meaning par r D b' v' out' → says r s' v' →
  State.get (final s) (mkNodeRound n r) = Some h → first_view_only s n r →
  State.get (final s') (mkNodeRound n r) = Some h' → first_view_only s' n r → h = h'.
Proof.
  intros M SA M' SA' Hh1 H1 Hh2 H2. destruct (decision_vote _ _ _ _ _ _ M SA Hh1 H1) as [x Hx].
  destruct (decision_vote _ _ _ _ _ _ M' SA' Hh2 H2) as [x' Hx'].
  apply (meaning_agreement b v out b' v' out' (mkPrePrepare h n r 0) (mkPrePrepare h' n r 0) x x'); done.
Qed.
End Decisions.

(** ** The order of an execution gives heights *)
Fixpoint pos (es : list entry) (b : BlockID) : Z :=
  match es with [] => 0 | e :: es => if decide (e_block e = b) then 0 else 1 + pos es b end.

Lemma pos_nonneg es b : 0 ≤ pos es b.
Proof. induction es; simpl; [done|]. case_decide; lia. Qed.
Lemma pos_in es es' b : b ∈ e_block <$> es → pos (es ++ es') b < Z.of_nat (length es).
Proof.
  induction es as [|e es IH]; simpl; [by intros ?%elem_of_nil|]. case_decide as E; [lia|].
  intros [Hb|Hb]%elem_of_cons; [by symmetry in Hb|]. specialize (IH Hb). lia.
Qed.
Lemma pos_at es e es' : e_block e ∉ e_block <$> es → pos (es ++ e :: es') (e_block e) = Z.of_nat (length es).
Proof.
  induction es as [|e0 es IH]; simpl; [by rewrite decide_True|]. rewrite not_elem_of_cons. intros [Hne Hin].
  rewrite decide_False by done. rewrite IH by done. lia.
Qed.

(** Every block comes after the blocks it builds on. *)
Definition ordered (es : list entry) : Prop :=
  ∀ es1 e es2, es = es1 ++ e :: es2 →
    (Valid (e_prev e) = true → e_prev e ∈ e_block <$> es1) ∧
    ∀ dep, dep ∈ e_deps e → Valid dep = true → dep ∈ e_block <$> es1.

Lemma ordered_pos es e :
  ordered es → NoDup (e_block <$> es) → e ∈ es →
  let lower b := b ∈ e_block <$> es ∧ pos es b < pos es (e_block e) in
  (Valid (e_prev e) = true → lower (e_prev e)) ∧ ∀ dep, dep ∈ e_deps e → Valid dep = true → lower dep.
Proof.
  intros HO HD (es1 & es2 & ->)%list_elem_of_split lower.
  assert (e_block e ∉ e_block <$> es1) as Hn.
  { rewrite fmap_app, NoDup_app in HD. destruct HD as (_ & HD & _). intros Hin. apply (HD _ Hin). left. }
  assert (∀ b, b ∈ e_block <$> es1 → lower b) as HL.
  { intros b Hb. split; [rewrite fmap_app; set_solver|]. rewrite pos_at by done. by apply pos_in. }
  destruct (HO es1 e es2 eq_refl) as [H1 H2]. split; auto.
Qed.

Lemma ordered_snoc es e :
  ordered es → (Valid (e_prev e) = true → e_prev e ∈ e_block <$> es) →
  (∀ dep, dep ∈ e_deps e → Valid dep = true → dep ∈ e_block <$> es) → ordered (es ++ [e]).
Proof.
  intros HO Hp Hd es1 e1 es2 E. destruct es2 as [|e2 es2 _] using rev_ind.
  - apply app_inj_tail in E as [<- <-]. done.
  - rewrite app_comm_cons, app_assoc in E. apply app_inj_tail in E as [-> _]. by eapply HO.
Qed.

(** The states that are held are those of processed blocks. *)
Lemma process_held spare g e g' b :
  is_u64 (g_round g) → Graph.process spare g e = Ok g' → is_Some (g_statess g' !! b) →
  b = e_block e ∨ is_Some (g_statess g !! b).
Proof.
  intros Hu H Hb. destruct (process_new_state _ _ _ _ Hu H) as (g1 & s & Fr & ->). simpl in Hb.
  rewrite lookup_insert in Hb. case_decide; [by left|right]. destruct Hb as [x Hx]. exists x.
  eapply lookup_weaken; [done|apply Fr].
Qed.

Lemma trace_held spare cfg l g :
  trace spare cfg l g → is_u64 (g_round g) ∧ ∀ b, is_Some (g_statess g !! b) → b ∈ e_block <$> (ps_entry <$> l).
Proof.
  induction 1 as [|l g g' Ht [IU IH] Hq|l g e g' Ht [IU IH] Hs].
  - split; [apply u64_range|]. intros b [s Hs]. simpl in Hs. by rewrite lookup_empty in Hs.
  - by rewrite (qu_statess _ _ Hq), (qu_round _ _ Hq).
  - split; [by eapply process_frame in Hs as [_ ?]|]. intros b Hb. rewrite !fmap_app. apply elem_of_app.
    destruct (process_held _ _ _ _ _ IU Hs Hb) as [->|Hb']; [right; by left|left; by apply IH].
Qed.

Lemma trace_ordered (R : pstep → Z) spare cfg l g :
  trace spare cfg l g → Forall (λ st, timely (R st) st) l → ordered (ps_entry <$> l).
Proof.
  intros Ht. induction Ht as [|l g g' Ht IH Hq|l g e g' Ht IH Hs]; intros HT; [by intros [] ? ?|auto|].
  apply Forall_app in HT as [HT [[_ _ _ Tp Td] _]%Forall_cons]. rewrite fmap_app in *. simpl in *.
  pose proof (proj2 (trace_held _ _ _ _ Ht)) as HK.
  apply ordered_snoc; [by apply IH|intros Hv; by apply HK, Tp|intros dep Hd Hv; by eapply HK, Td].
Qed.

(** The blocks of two executions together. *)
Definition joint (es es' : list entry) (b : BlockID) : Z :=
  1 + if decide (b ∈ e_block <$> es) then pos es b else Z.of_nat (length es) + pos es' b.

Lemma joint_heights es es' :
  ordered es → ordered es' → NoDup (e_block <$> es) → NoDup (e_block <$> es') → similar (es ++ es') →
  Z.of_nat (length es) + Z.of_nat (length es') < 2 ^ 32 → heights (es ++ es') (joint es es').
Proof.
  intros O O' N N' HC HL. set (alike e e1 := e_block e1 = e_block e ∧ e_prev e1 = e_prev e ∧ shown e1 = shown e).
  assert (∀ e, e ∈ es ++ es' → (∃ e1, e1 ∈ es ∧ alike e e1 ∧ joint es es' (e_block e) = 1 + pos es (e_block e)) ∨
    (e ∈ es' ∧ joint es es' (e_block e) = 1 + Z.of_nat (length es) + pos es' (e_block e))) as HE.
  { intros e He. unfold joint. case_decide as Hin.
    - left. apply list_elem_of_fmap in Hin as (e1 & Eb & He1). exists e1. split; [done|]. split; [|done].
      split; [done|]. apply HC; [set_solver|done|done].
    - right. apply elem_of_app in He as [He|He]; [by apply (list_elem_of_fmap_2 e_block) in He|]. split; [done|lia]. }
  assert (∀ b, b ∈ e_block <$> es → pos es b < Z.of_nat (length es)) as Hb
    by (intros b Hin; rewrite <- (app_nil_r es) at 1; by apply pos_in).
  assert (∀ b, b ∈ e_block <$> es' → pos es' b < Z.of_nat (length es')) as Hb'
    by (intros b Hin; rewrite <- (app_nil_r es') at 1; by apply pos_in).
  assert (∀ e b, e ∈ es ++ es' →
    (∀ e1, e1 ∈ es → alike e e1 → b ∈ e_block <$> es ∧ pos es b < pos es (e_block e1)) →
    (e ∈ es' → b ∈ e_block <$> es' ∧ pos es' b < pos es' (e_block e)) → joint es es' b < joint es es' (e_block e)) as HJ.
  { intros e b He H1 H2. destruct (HE e He) as [(e1 & He1 & HA & ->)|(He1 & ->)]; unfold joint.
    - destruct (H1 e1 He1 HA) as [Hin Hlt]. rewrite decide_True by done. rewrite (proj1 HA) in Hlt. lia.
    - destruct (H2 He1) as [_ Hlt]. pose proof (pos_nonneg es' (e_block e)). case_decide as Hin; [specialize (Hb b Hin)|]; lia. }
  split.
  - intros e He. pose proof (pos_nonneg es (e_block e)). pose proof (pos_nonneg es' (e_block e)).
    destruct (HE e He) as [(e1 & He1 & HA & ->)|(He1 & ->)]; apply (list_elem_of_fmap_2 e_block) in He1;
      [rewrite (proj1 HA) in He1; specialize (Hb _ He1)|specialize (Hb' _ He1)]; lia.
  - intros e He Hv. apply HJ; [done|intros e1 He1 (_ & E & _); rewrite <- E in *; apply (proj1 (ordered_pos es e1 O N He1) Hv)|
      intros He1; apply (proj1 (ordered_pos es' e O' N' He1) Hv)].
  - intros e dep He Hd Hv. apply HJ; [done|intros e1 He1 (_ & _ & E)|intros He1; apply (proj2 (ordered_pos es' e O' N' He1) dep Hd Hv)].
    injection E as _ E. apply (proj2 (ordered_pos es e1 O N He1) dep); [|done].
    assert (dep ∈ filter (λ b, Valid b = true) (e_deps e1)) as [_ ?]%list_elem_of_filter; [|done].
    rewrite E. by apply list_elem_of_filter.
Qed.

(** ** The theorem *)

(** C2: Agreement, in a network of 3f+1 nodes of which at most f fork their chains, for two
    nodes such that neither of them itself processes a block twice or gets two blocks with the
    same predecessor (a fork shows one branch to each of them), blocks of known nodes, less than
    2^32 in all, arrive while the round in question is open and the states they build on are
    still kept, and the entries of a block that both have agree up to references to nothing (a
    node keeps such a reference in its own first block): if the two, which may have different
    blocks in different orders, decide a block of the same node and round while no commit vote
    of a later view has been counted for it, they decide the same block. *)
Theorem first_view_agreement spare spare' cfg cfg' f (F : gset Z) l l' g g' r b b' s s' n h h' :
  let D := (ps_entry <$> l) ++ (ps_entry <$> l') in
  cfg_Peers cfg = cfg_Peers cfg' → Z.of_nat (length (cfg_Peers cfg)) = 3 * f + 1 → NoDup (cfg_Peers cfg) →
  Forall (λ x, 0 ≤ x) (cfg_Peers cfg) →
  trace spare cfg l g → Forall (timely r) l → linear (ps_entry <$> l) →
  trace spare' cfg' l' g' → Forall (timely r) l' → linear (ps_entry <$> l') →
  similar D → Z.of_nat (length D) < 2 ^ 32 → Forall (λ e, Node (e_block e) ∈ cfg_Peers cfg) D →
  Z.of_nat (size F) ≤ f → (∀ x, x ∉ F → honest D x) →
  g_statess g !! b = Some s → g_statess g' !! b' = Some s' →
  State.get (final s) (mkNodeRound n r) = Some h → first_view_only s n r →
  State.get (final s') (mkNodeRound n r) = Some h' → first_view_only s' n r → h = h'.
Proof.
  intros D Hp Hf Hnd H0 Ht HT HL Ht' HT' HL' HC HN HD SF HO Hs Hs' Hh Hw Hh' Hw'.
  assert (shared (Graph.mk_params cfg') = shared (Graph.mk_params cfg)) as E by (unfold shared, Graph.mk_params; simpl; by rewrite Hp).
  pose proof (trace_implements _ _ r _ _ _ eq_refl Ht HT HL) as I. pose proof (trace_implements _ _ r _ _ _ E Ht' HT' HL') as I'.
  destruct (im_held _ _ _ _ I _ _ Hs) as (v & M & SA & _). destruct (im_held _ _ _ _ I' _ _ Hs') as (v' & M' & SA' & _).
  apply (meaning_mono _ _ _ D) in M; [|set_solver]. apply (meaning_mono _ _ _ D) in M'; [|set_solver].
  rewrite Forall_forall in HD. destruct (quorum_params cfg f Hf) as [EQ _].
  assert (heights D (joint (ps_entry <$> l) (ps_entry <$> l'))) as HH.
  { apply joint_heights; [by eapply (trace_ordered (λ _, r))|by eapply (trace_ordered (λ _, r))|apply HL|apply HL'|done|].
    unfold D in HN. rewrite length_app in HN. lia. }
  apply (decisions_agree (shared (Graph.mk_params cfg)) r D _ f (list_to_set (cfg_Peers cfg)) F HC HH) with
    b v (filter (about r) (out s)) s b' v' (filter (about r) (out s')) s' n; try done.
  - intros e He. by apply elem_of_list_to_set, HD.
  - intros x Hx%elem_of_list_to_set. by eapply Forall_forall in H0.
  - by rewrite size_list_to_set.
Qed.
