(* ===== verification/TotalOrder.v ===== *)
(** * Nodes deliver the same blocks in the same order

    Every decision that [deliver] records or delivers is in the state of the block that was being
    processed ([explained]), so the agreement of states carries over to what nodes deliver:
    as long as decisions are made in the first view, the sequence of blocks one node delivers is a
    prefix of the sequence any other node delivers. *)

From S2P Require Import Prelude Bitset Messages Block State Graph Deliver Updates Ordering Termination Protocol Typing Chain Meaning MeaningFacts Refine RefineBlock RefineExec Votes Accept Agreement.
Import Graph State.

(** ** Where decisions come from *)

(** Every decision satisfies [B], and a delivered round has one for every peer. *)
Record explained (B : Z → Z → bytes → Prop) (g : graph) : Prop := {
  ex_resolved : ∀ r hs n h, g_resolved g !! r = Some hs → hs !! n = Some h → B r n h;
  ex_delivered : ∀ i, i ∈ g_delivered g →
    ∃ hs : gmap Z bytes, in_Blocks i = sort_blocks (round_blocks (in_Round i) (map_to_list hs)) ∧
      Z.of_nat (size hs) = peerCount (g_par g) ∧ ∀ n h, hs !! n = Some h → B (in_Round i) n h }.

Lemma explained_mono (B B' : Z → Z → bytes → Prop) g :
  (∀ r n h, B r n h → B' r n h) → explained B g → explained B' g.
Proof.
  intros HB [R D]. split; [eauto|]. intros i Hi. destruct (D i Hi) as (hs & E & S & H). exists hs. split_and!; auto.
Qed.
Lemma explained_same B g g' : same_delivery g g' → explained B g → explained B g'.
Proof. intros (P & D & R & _) [ER ED]. split; [by rewrite R|by rewrite D, P]. Qed.

Lemma round_done_delivered g round hs first : ∃ c, g_delivered (round_done g round hs first) =
  g_delivered g ++ [mkInterpreted (sort_blocks (round_blocks round (map_to_list hs))) c round].
Proof. unfold round_done. destruct (consume _ _ _ _ _) as [[[bs mx] st] c]. by exists c. Qed.

Lemma explained_deliverRound B fuel g round hs g' :
  deliverRound fuel g round hs = Ok g' → g_resolved g !! round = Some hs →
  Z.of_nat (size hs) = peerCount (g_par g) → explained B g → explained B g'.
Proof.
  revert g round hs; induction fuel as [|fuel IH]; intros g round hs H Hl Hs E; [done|].
  rewrite deliverRound_S in H. apply bind_Ok in H as (first & _ & H). cbv zeta in H.
  set (g1 := round_done g round hs first) in *.
  assert (explained B g1) as E1.
  { unfold g1. destruct (round_done_delivered g round hs first) as [c Ed]. destruct E as [R D]. split.
    - intros r hs' n h. rewrite round_done_resolved, lookup_delete_Some. intros [_ Hr]. by eapply R.
    - intros i. rewrite Ed, round_done_par, elem_of_app, list_elem_of_singleton. intros [Hi| ->]; [by apply D|].
      exists hs. split_and!; [done..|]. intros n h. by eapply R. }
  destruct (g_resolved g1 !! u64 (round + 1)) as [hs'|] eqn:El; [|by simplify_eq].
  destruct (Z.eqb_spec (Z.of_nat (size hs')) (peerCount (g_par g1))); [by eapply IH|by simplify_eq].
Qed.

Lemma explained_deliver (B : Z → Z → bytes → Prop) g n r h g' :
  deliver g n r h = Ok g' → (g_round g ≤ r → B r n h) → explained B g → explained B g'.
Proof.
  unfold deliver. intros H HB E. destruct (Z.ltb_spec r (g_round g)); [by simplify_eq|].
  apply bind_Ok in H as (hs & Ehs & H). apply add_decision_Ok in Ehs as [-> _]. cbv zeta in H.
  set (hs := <[n := h]> _) in *. set (g1 := set_resolved g _) in *.
  assert (explained B g1) as E1.
  { split; [|apply E]. intros r' hs' n' h'. simpl. rewrite lookup_insert. case_decide; [|by apply (ex_resolved _ _ E)].
    subst r'. intros [= <-]. unfold hs. rewrite lookup_insert. case_decide; [intros [= <-]; subst; auto|].
    destruct (g_resolved g !! r) eqn:Er; [by eapply (ex_resolved _ _ E)|done]. }
  destruct (negb _); [by simplify_eq|].
  destruct (Z.eqb_spec (Z.of_nat (size hs)) (peerCount (g_par g1))); [|by simplify_eq].
  eapply explained_deliverRound; [exact H|apply lookup_insert_eq|done..].
Qed.

(** A message decides what its state records. *)
Lemma processMessage_decides spare g s sd rc o msg resp s' g' :
  processMessage spare g s sd rc o msg = Ok (resp, s', g') →
  same_delivery g g' ∨ ∃ n r h, deliver g n r h = Ok g' ∧ get (final s') (mkNodeRound n r) = Some h.
Proof.
  unfold processMessage. intros H. destruct (Msg.NodeRound msg) as [node round].
  destruct msg; go_inv H; simplify_eq; try (by left).
  - right. eexists _, _, _. split; [done|]. simpl. by rewrite get_put_eq.
  - left. match goal with Hf : find_vcs _ _ _ = _ |- _ => apply find_vcs_Ok in Hf as [(_ & _ & ->)|(_ & _ & _ & ->)] end; done.
  - left. match goal with Hf : find_vcs _ _ _ = _ |- _ => apply find_vcs_Ok in Hf as [(_ & _ & ->)|(_ & _ & _ & ->)] end; done.
  - left. unfold append_timeout in *. destruct (Heap.append _ _ _ _). by simplify_eq.
Qed.

(** ** One block *)
Lemma deliver_invs cfg g n r h g' :
  delivery_inv cfg g → deliver g n r h = Ok g' → delivery_inv cfg g' ∧ (length (g_delivered g) ≤ length (g_delivered g'))%nat.
Proof.
  intros Hi H. split; [by eapply delivery_inv_deliver|].
  assert (is_u64 (g_round g)) as Hu by (rewrite (di_round _ _ Hi); apply u64_range).
  destruct (deliver_ok _ _ _ _ _ Hu H) as [[_ ->]|(hs & g1 & _ & _ & _ & [_ (l & -> & _)] & _)]; [done|]. rewrite length_app. lia.
Qed.

Lemma updates_invs cfg g g' :
  updates g g' → delivery_inv cfg g → delivery_inv cfg g' ∧ (length (g_delivered g) ≤ length (g_delivered g'))%nat.
Proof.
  induction 1 as [|x y z Hxy _ IH]; intros Hi; [done|].
  assert (delivery_inv cfg y ∧ (length (g_delivered x) ≤ length (g_delivered y))%nat) as [Hy Hl].
  { destruct Hxy as [? ? ? ? ? Hd|? ? Hs]; [by eapply deliver_invs|]. split; [by eapply delivery_inv_same|].
    destruct Hs as (_ & -> & _). done. }
  destruct (IH Hy) as [? ?]. split; [done|lia].
Qed.

(** Without a wrap-around the round counter grows. *)
Lemma rounds_grow cfg g g' :
  delivery_inv cfg g → delivery_inv cfg g' → (length (g_delivered g) ≤ length (g_delivered g'))%nat → no_wrap cfg g' →
  g_round g ≤ g_round g'.
Proof.
  intros Hi Hi' Hl Hw. rewrite (di_round _ _ Hi), (di_round _ _ Hi'). unfold no_wrap in Hw.
  pose proof (u64_range (cfg_LastInterpreted cfg + 1)) as Hf. fold (first_round cfg) in Hf. unfold is_u64 in *.
  rewrite !u64_small; unfold is_u64; lia.
Qed.
Lemma no_wrap_before cfg g g' : (length (g_delivered g) ≤ length (g_delivered g'))%nat → no_wrap cfg g' → no_wrap cfg g.
Proof. unfold no_wrap. lia. Qed.

(** Decisions that were there before, and those in the state [s] of the block being processed. *)
Definition also (B : Z → Z → bytes → Prop) (round : Z) (s : state) (r n : Z) (h : bytes) : Prop :=
  B r n h ∨ (round ≤ r ∧ get (final s) (mkNodeRound n r) = Some h).

Lemma process_explained spare cfg B g e g' :
  process spare g e = Ok g' → delivery_inv cfg g → (no_wrap cfg g → explained B g) →
  ∃ s, g_statess g' !! e_block e = Some s ∧ (no_wrap cfg g' → explained (also B (g_round g) s) g').
Proof.
  intros H Hi HB. assert (is_u64 (g_round g)) as Hu by (rewrite (di_round _ _ Hi); apply u64_range).
  assert (∀ s s' g1, (∀ nr h, get (final s) nr = Some h → get (final s') nr = Some h) →
    explained (also B (g_round g) s) g1 → explained (also B (g_round g) s') g1) as Hmono.
  { intros s s' g1 Hs. apply explained_mono. intros r n h [Hb|[Hr Hf]]; [by left|right; auto]. }
  apply (process_lift spare g (λ g1 s, frame g g1 ∧ updates g g1 ∧ (no_wrap cfg g1 → explained (also B (g_round g) s) g1))
    (λ _, True) (λ _, True)) in H as (g1 & s & (_ & _ & HE) & _ & ->); try done.
  - exists s. split; [apply lookup_insert_eq|]. intros Hw. eapply explained_same; [|by apply HE]. done.
  - intros g1 s sd rc o msg r s' g2 Hm _ _ (Hf & HU & HE). split; [|done].
    pose proof (processMessage_updates _ _ _ _ _ _ _ _ _ _ Hm) as HU2.
    destruct (updates_invs cfg _ _ HU Hi) as [Hi1 Hl1]. destruct (updates_invs cfg _ _ HU2 Hi1) as [Hi2 Hl2].
    split_and!; [etrans; [done|]; eapply frame_processMessage; [by apply Hf|done]|by etrans|].
    intros Hw. assert (no_wrap cfg g1) as Hw1 by (by eapply no_wrap_before).
    specialize (HE Hw1). apply (Hmono s s') in HE; [|by apply processMessage_extends in Hm as [? _ _ _]].
    destruct (processMessage_decides _ _ _ _ _ _ _ _ _ _ Hm) as [Hs|(n & rd & h & Hd & Hfin)]; [by eapply explained_same|].
    eapply explained_deliver; [exact Hd| |done]. intros Hr. right. split; [|done].
    pose proof (rounds_grow _ _ _ Hi Hi1 Hl1 Hw1). lia.
  - intros g1 s k x s' g2 Ha (Hf & HU & HE). pose proof (append_timeout_updates _ _ _ _ _ _ _ Ha).
    split_and!; [etrans; [done|by eapply frame_append_timeout]|by etrans|].
    unfold append_timeout in Ha. destruct (Heap.append _ _ _ _). simplify_eq. intros Hw. specialize (HE Hw).
    eapply explained_same; [|by eapply Hmono]. done.
  - intros g1 s (Hf & _). apply Hf.
  - intros b s _. by apply Forall_true.
  - split_and!; [done|done|]. intros Hw. eapply explained_mono; [|by apply HB]. intros r n h Hb. by left.
Qed.

(** ** Executions *)

(** The state of some processed block, of a round that was open then, has the decision. *)
Definition backed (l : list pstep) (r n : Z) (h : bytes) : Prop :=
  ∃ st s, st ∈ l ∧ g_round (ps_before st) ≤ r ∧ g_statess (ps_after st) !! e_block (ps_entry st) = Some s ∧
          get (final s) (mkNodeRound n r) = Some h.

Lemma trace_explained spare cfg l g :
  trace spare cfg l g → delivery_inv cfg g ∧ (no_wrap cfg g → explained (backed l) g).
Proof.
  induction 1 as [|l g g' Ht [Hi HE] Hq|l g e g' Ht [Hi HE] Hs].
  - split; [apply delivery_inv_New|]. intros _. split; simpl; [by intros r hs n h; rewrite lookup_empty|by intros i ?%elem_of_nil].
  - destruct Hq as [P _ R _ E D]. assert (same_delivery g g') as Hsd by done.
    split; [by eapply delivery_inv_same|]. unfold no_wrap. rewrite D. intros Hw. eapply explained_same; [done|]. by apply HE.
  - destruct (updates_invs cfg _ _ (process_updates _ _ _ _ Hs) Hi) as [Hi' _]. split; [done|]. intros Hw.
    destruct (process_explained _ _ _ _ _ _ Hs Hi HE) as (s & Hst & HE'). eapply explained_mono; [|by apply HE'].
    intros r n h [(st & s' & Hin & Hrest)|[Hr Hf]]; [exists st, s'; set_solver|].
    exists (mkStep g e g'), s. set_solver.
Qed.

(** The steps of an execution, and the executions up to them. *)
Lemma trace_step spare cfg l g st :
  trace spare cfg l g → st ∈ l →
  (∃ l1 l2, l = l1 ++ st :: l2 ∧ trace spare cfg (l1 ++ [st]) (ps_after st) ∧ trace spare cfg l1 (ps_before st)) ∧
  (length (g_delivered (ps_before st)) ≤ length (g_delivered g))%nat.
Proof.
  intros Ht. induction Ht as [|l g g' Ht IH Hq|l g e g' Ht IH Hs]; intros Hin; [by apply elem_of_nil in Hin| |].
  - by rewrite (qu_delivered _ _ Hq); apply IH.
  - pose proof (trace_explained _ _ _ _ Ht) as [Hi _].
    destruct (updates_invs cfg _ _ (process_updates _ _ _ _ Hs) Hi) as [_ Hl].
    apply elem_of_app in Hin as [Hin| ->%list_elem_of_singleton].
    + destruct (IH Hin) as [(l1 & l2 & -> & H1 & H2) Hd]. split; [|lia]. exists l1, (l2 ++ [mkStep g e g']).
      split_and!; [by rewrite <- app_assoc|done..].
    + split; [|done]. exists l, []. split_and!; [done|by apply tr_process|done].
Qed.

Lemma rounds_before spare cfg l g st :
  trace spare cfg l g → no_wrap cfg g → st ∈ l → g_round (ps_before st) ≤ g_round g.
Proof.
  intros Ht Hw Hin. destruct (trace_step _ _ _ _ _ Ht Hin) as [(l1 & l2 & _ & _ & H2) Hd].
  by apply (rounds_grow cfg); [eapply trace_explained|eapply trace_explained|..].
Qed.

(** The states a block builds on are there when it is processed. *)
Definition steady (st : pstep) : Prop := timely (g_round (ps_before st)) st.
(** No commit vote of a later view is counted. *)
Definition first_view (st : pstep) : Prop :=
  ∀ s n r, g_statess (ps_after st) !! e_block (ps_entry st) = Some s → first_view_only s n r.

Lemma steady_timely r st : steady st → g_round (ps_before st) ≤ r → timely r st.
Proof. intros [_ B V P Dp] Hr. by split. Qed.

(** Such an execution, without forks. *)
Record orderly (spare : nat → nat) (cfg : Config) (l : list pstep) (g : graph) : Prop := {
  or_trace : trace spare cfg l g;
  or_steady : Forall steady l;
  or_first : Forall first_view l;
  or_linear : linear (ps_entry <$> l);
  or_wrap : no_wrap cfg g }.

(** Decisions are those of the graph of blocks. *)
Definition means (par : params) (D : list entry) (r n : Z) (h : bytes) : Prop :=
  ∃ b v out s, meaning par r D b v out ∧ says r s v ∧ get (final s) (mkNodeRound n r) = Some h ∧ first_view_only s n r.

Lemma backed_means spare cfg l g D r n h :
  orderly spare cfg l g → ps_entry <$> l ⊆ D → backed l r n h → means (shared (mk_params cfg)) D r n h.
Proof.
  intros [Ht HS HF HL Hw] HD (st & s & Hin & Hr & Hst & Hfin).
  destruct (trace_step _ _ _ _ _ Ht Hin) as [(l1 & l2 & -> & H1 & H2) Hd].
  rewrite Forall_forall in HS, HF.
  assert (Forall (timely r) (l1 ++ [st])) as HT.
  { apply Forall_forall. intros st1 Hst1. apply steady_timely; [apply HS; set_solver|].
    apply elem_of_app in Hst1 as [Hst1| ->%list_elem_of_singleton]; [|done].
    pose proof (rounds_before _ _ _ _ _ H2 ltac:(by eapply no_wrap_before) Hst1). lia. }
  assert (linear (ps_entry <$> l1 ++ [st])) as HL1.
  { apply (linear_init _ (ps_entry <$> l2)). by rewrite <- fmap_app, <- app_assoc. }
  pose proof (trace_implements _ _ r _ _ _ eq_refl H1 HT HL1) as I.
  destruct (im_held _ _ _ _ I _ _ Hst) as (v & M & SA & _).
  exists (e_block (ps_entry st)), v, (filter (about r) (out s)), s.
  split_and!; [|done|done|by eapply HF]. eapply meaning_mono, M. intros e He. apply HD.
  rewrite fmap_app in *. set_solver.
Qed.

(** Decisions for as many nodes as there are, all of them known, are decisions for all. *)
Lemma full_dom (P : gset Z) (hs : gmap Z bytes) : dom hs ⊆ P → size hs = size P → dom hs = P.
Proof.
  intros HS Hn. apply leibniz_equiv. apply set_subseteq_size_equiv; [done|]. by rewrite size_dom, Hn.
Qed.

Lemma prefix_at {A B} (f : A → B) (l l' : list A) :
  (length l ≤ length l')%nat → (∀ k x x', l !! k = Some x → l' !! k = Some x' → f x = f x') → (f <$> l) `prefix_of` (f <$> l').
Proof.
  revert l'. induction l as [|x l IH]; intros [|x' l'] Hl H; simpl in *; [apply prefix_nil..|lia|].
  rewrite (H 0%nat x x' eq_refl eq_refl). apply prefix_cons, IH; [lia|]. intros k. apply (H (S k)).
Qed.

(** ** Two nodes *)
Section TwoNodes.
Context (spare spare' : nat → nat) (cfg cfg' : Config) (l l' : list pstep) (g g' : graph) (f : Z) (F : gset Z).
Let D : list entry := (ps_entry <$> l) ++ (ps_entry <$> l').
Context (same_peers : cfg_Peers cfg = cfg_Peers cfg') (same_start : cfg_LastInterpreted cfg = cfg_LastInterpreted cfg').
Context (peer_count : Z.of_nat (length (cfg_Peers cfg)) = 3 * f + 1) (peers_once : NoDup (cfg_Peers cfg))
  (peers_nonneg : Forall (λ x, 0 ≤ x) (cfg_Peers cfg)).
Context (one : orderly spare cfg l g) (other : orderly spare' cfg' l' g').
Context (HC : similar D) (HN : Z.of_nat (length D) < 2 ^ 32) (HD : Forall (λ e, Node (e_block e) ∈ cfg_Peers cfg) D).
Context (SF : Z.of_nat (size F) ≤ f) (HO : ∀ x, x ∉ F → honest D x).
Let P : gset Z := list_to_set (cfg_Peers cfg).
Let par : params := shared (mk_params cfg).

#[local] Set Default Proof Using "All".

Lemma two_heights : heights D (joint (ps_entry <$> l) (ps_entry <$> l')).
Proof.
  destruct one as [T1 S1 _ L1 _], other as [T2 S2 _ L2 _].
  apply joint_heights; [by eapply (trace_ordered (λ st, g_round (ps_before st)))|by eapply (trace_ordered (λ st, g_round (ps_before st)))|apply L1|apply L2|done|].
  unfold D in HN. rewrite length_app in HN. lia.
Qed.

Lemma two_nodes e : e ∈ D → Node (e_block e) ∈ P.
Proof. intros He. rewrite Forall_forall in HD. by apply elem_of_list_to_set, HD. Qed.
Lemma peer_ids x : x ∈ P → 0 ≤ x.
Proof. intros Hx%elem_of_list_to_set. by eapply Forall_forall in peers_nonneg. Qed.
Lemma peer_size : Z.of_nat (size P) = 3 * f + 1.
Proof. unfold P. by rewrite size_list_to_set. Qed.

(** The decisions of the two nodes are the same, for the peers. *)
Lemma means_agree r n h h' : means par D r n h → means par D r n h' → h = h'.
Proof.
  intros (b & v & out & s & M & SA & Hf & H1) (b' & v' & out' & s' & M' & SA' & Hf' & H1').
  apply (decisions_agree par r D _ f P F HC two_heights two_nodes peer_ids peer_size (proj1 (quorum_params cfg f peer_count)) SF HO)
    with b v out s b' v' out' s' n; done.
Qed.
Lemma means_peer r n h : means par D r n h → n ∈ P.
Proof.
  intros (b & v & out & s & M & SA & Hf & H1).
  destruct (decision_proposed par r D _ f P F HC two_heights two_nodes peer_ids peer_size
    (proj1 (quorum_params cfg f peer_count)) SF HO b v out s n h) as (e & He & En & _); try done.
  simpl in En. rewrite <- En. by apply two_nodes.
Qed.

Lemma one_means r n h : backed l r n h → means par D r n h.
Proof. apply (backed_means spare cfg l g D r n h one). unfold D. set_solver. Qed.
Lemma other_means r n h : backed l' r n h → means par D r n h.
Proof.
  replace par with (shared (mk_params cfg')) by (unfold par, shared, mk_params; simpl; by rewrite same_peers).
  apply (backed_means spare' cfg' l' g' D r n h other). unfold D. set_solver.
Qed.

(** A round that both deliver has the same blocks. *)
Lemma rounds_agree i i' :
  i ∈ g_delivered g → i' ∈ g_delivered g' → in_Round i = in_Round i' → in_Blocks i = in_Blocks i'.
Proof.
  intros Hi Hi' ER. destruct (trace_explained _ _ _ _ (or_trace _ _ _ _ one)) as [Hv EX].
  destruct (trace_explained _ _ _ _ (or_trace _ _ _ _ other)) as [Hv' EX'].
  destruct (ex_delivered _ _ (EX (or_wrap _ _ _ _ one)) i Hi) as (hs & -> & Sz & HB).
  destruct (ex_delivered _ _ (EX' (or_wrap _ _ _ _ other)) i' Hi') as (hs' & -> & Sz' & HB').
  rewrite (di_par _ _ Hv) in Sz. rewrite (di_par _ _ Hv') in Sz'. simpl in Sz, Sz'. rewrite <- same_peers in Sz'.
  rewrite <- ER in *. enough (hs = hs') as -> by done.
  pose proof peer_size as SP. rewrite <- peer_count in SP.
  assert (dom hs = P) as Ed.
  { apply full_dom; [|lia]. intros n [h Hh]%elem_of_dom. by eapply means_peer, one_means, HB. }
  assert (dom hs' = P) as Ed'.
  { apply full_dom; [|lia]. intros n [h Hh]%elem_of_dom. by eapply means_peer, other_means, HB'. }
  apply map_eq. intros n. destruct (hs !! n) as [h|] eqn:Eh, (hs' !! n) as [h'|] eqn:Eh'; [|exfalso..|done].
  - f_equal. eapply means_agree; [by apply one_means, HB|by apply other_means, HB'].
  - apply not_elem_of_dom in Eh'. apply Eh'. rewrite Ed', <- Ed. by apply elem_of_dom.
  - apply not_elem_of_dom in Eh. apply Eh. rewrite Ed, <- Ed'. by apply elem_of_dom.
Qed.

Lemma delivered_alike k i i' : g_delivered g !! k = Some i → g_delivered g' !! k = Some i' → in_Blocks i = in_Blocks i'.
Proof.
  intros Hk Hk'. apply rounds_agree; [by eapply list_elem_of_lookup_2..|].
  rewrite (delivered_round_at cfg g k i), (delivered_round_at cfg' g' k i'); [|by eapply trace_explained; apply other|apply other|done|
    by eapply trace_explained; apply one|apply one|done].
  unfold first_round. by rewrite same_start.
Qed.

(** What one has delivered is a prefix of what the other has delivered. *)
Lemma delivered_prefixes :
  (in_Blocks <$> g_delivered g) `prefix_of` (in_Blocks <$> g_delivered g') ∨
  (in_Blocks <$> g_delivered g') `prefix_of` (in_Blocks <$> g_delivered g).
Proof.
  destruct (decide (length (g_delivered g) ≤ length (g_delivered g'))%nat); [left|right]; (apply prefix_at; [lia|]);
    intros k i i' Hk Hk'; [|symmetry]; by eapply delivered_alike.
Qed.
End TwoNodes.

