(* ===== verification/Lexinum.v ===== *)
(** * Order-preserving integers (src/internal/lexinum/lexinum.go)

    [Encode] writes a [uint64] as bytes whose lexicographic order is the order of
    the numbers; the bytes are never zero, so a zero byte can end an encoded
    number inside a key.  Numbers below [maxSmall] take three base-255 digits,
    the others a length byte, base-253 digits and a remainder. *)

From Stdlib Require Zpow_facts.
From S2P Require Import Prelude.

Module Lexinum.

Definition maxSmall : Z := 8258175.

(** ** Operations *)

(** The loop of [pow]; [b] is halved in every iteration, so 64 are enough. *)
Fixpoint pow_loop (fuel : nat) (n a b : Z) : Z :=
  match fuel with
  | O => n
  | S fuel =>
      if 0 <? b
      then pow_loop fuel (if Z.odd b then u64 (n * a) else n) (u64 (a * a)) (Z.shiftr b 1)
      else n
  end.
Definition pow (a b : Z) : Z := pow_loop 64 1 a b.

(** [for lead/pow(253, n) > 0 { n++ }]; [None] when the fuel ends first. *)
Fixpoint count_loop (fuel : nat) (lead n : Z) : option Z :=
  match fuel with
  | O => None
  | S fuel => if 0 <? lead / pow 253 n then count_loop fuel lead (n + 1) else Some n
  end.

(** The base-253 digits of [lead], least significant first. *)
Fixpoint chars_loop (fuel : nat) (lead : Z) : option bytes :=
  match fuel with
  | O => None
  | S fuel =>
      if lead =? 0 then Some []
      else chars ← chars_loop fuel (lead / 253); Some (u8 (lead mod 253 + 2) :: chars)
  end.

Definition fuel : nat := 10.

Definition Encode (v : Z) : bytes :=
  if v =? 0 then [128; 1; 1]
  else if v <? maxSmall then
    let '(div, mod_) := (v / 255, v mod 255) in
    let enc2 := u8 (mod_ + 1) in
    if 0 <? div then
      let '(div, mod_) := (div / 255, div mod 255) in
      let enc1 := u8 (mod_ + 1) in
      if 0 <? div then [u8 (div + 128); enc1; enc2] else [128; enc1; enc2]
    else [128; 1; enc2]
  else
    let v := v - maxSmall in
    let '(lead, rem) := (v / 255, v mod 255) in
    let n := default 0 (count_loop fuel lead 1) in
    let chars := default [] (chars_loop fuel lead) in
    [255; u8 (u8 n + 1)] ++ rev chars ++ (if 0 <? rem then [1; u8 rem] else []).

Inductive error := TooSmall | Negative (first : Z) | TooSmallInt.

(** The loop over the digits: the remainder is the byte after the first 1;
    reading it panics when there is none. *)
Fixpoint digits_loop (v : Z) (d : bytes) : outcome (Z * Z) :=
  match d with
  | [] => Ok (v, 0)
  | char :: d =>
      if char =? 1 then rem ← or_panic (head d); Ok (v, rem)
      else digits_loop (u64 (v + (u64 (v * 252) + u8 (char - 2)))) d
  end.

Definition Decode (d : bytes) : outcome (error + Z) :=
  match d with
  | d0 :: d1 :: rest =>
      if d0 <? 128 then Ok (inl (Negative d0))
      else if d0 =? 255 then
        '(v, rem) ← digits_loop 0 rest;
        Ok (inr (u64 (u64 (v * 255) + rem + maxSmall)))
      else match rest with
           | [] => Ok (inl TooSmallInt)
           | d2 :: _ =>
               Ok (inr (u64 (u64 ((u64 (u64 (u8 (d0 - 128) * 255) + u8 (d1 - 1))) * 255)
                             + u8 (d2 - 1))))
           end
  | _ => Ok (inl TooSmall)
  end.

(** ** The loops compute what they mean to, within their fuel *)
Lemma pow_loop_spec f n a b :
  is_u64 n → 0 ≤ b < 2 ^ Z.of_nat f → pow_loop f n a b = u64 (n * a ^ b).
Proof.
  revert n a b; induction f as [|f IH]; intros n a b Hn Hb; cbn [pow_loop].
  { replace b with 0 by (simpl in Hb; lia). by rewrite Z.mul_1_r, u64_small. }
  destruct (Z.ltb_spec 0 b) as [H0|H0].
  2: { replace b with 0 by lia. by rewrite Z.mul_1_r, u64_small. }
  rewrite Z.shiftr_div_pow2 by lia. change (2 ^ 1) with 2.
  rewrite Nat2Z.inj_succ, Z.pow_succ_r in Hb by lia.
  pose proof (Z.div_mod b 2 ltac:(lia)) as Hdiv. rewrite Zmod_odd in Hdiv.
  assert (u64 (u64 (a * a) ^ (b / 2)) = u64 ((a * a) ^ (b / 2))) as Hp.
  { unfold u64. by rewrite <- Zpow_facts.Zpower_mod by lia. }
  assert (0 ≤ b / 2) by (apply Z.div_pos; lia).
  rewrite IH; [|destruct (Z.odd b); [apply u64_range|done]|Z.div_mod_to_equations; lia].
  transitivity (u64 ((if Z.odd b then n * a else n) * (a * a) ^ (b / 2))).
  - unfold u64 in *. rewrite Zmult_mod, Hp, <- Zmult_mod.
    destruct (Z.odd b); [by rewrite Zmult_mod_idemp_l|done].
  - f_equal. assert (a ^ b = (a * a) ^ (b / 2) * (if Z.odd b then a else 1)) as ->.
    { rewrite Hdiv at 1. rewrite Z.pow_add_r, Z.pow_mul_r, Z.pow_2_r by (destruct (Z.odd b); lia).
      f_equal. destruct (Z.odd b); [apply Z.pow_1_r|done]. }
    destruct (Z.odd b); ring.
Qed.

Lemma pow_small n : 1 ≤ n ≤ 8 → pow 253 n = 253 ^ n.
Proof.
  intros H. assert (n = 1 ∨ n = 2 ∨ n = 3 ∨ n = 4 ∨ n = 5 ∨ n = 6 ∨ n = 7 ∨ n = 8) as Hn by lia.
  by repeat destruct Hn as [->|Hn]; [..|subst].
Qed.

Lemma pow_step n : 1 ≤ n → 253 ^ n = 253 * 253 ^ (n - 1).
Proof. intros. rewrite <- Z.pow_succ_r by lia. f_equal. lia. Qed.

Lemma count_loop_spec f lead n :
  0 ≤ lead < 253 ^ 8 → 1 ≤ n ≤ 8 → 9 - n ≤ Z.of_nat f → (n = 1 ∨ 253 ^ (n - 1) ≤ lead) →
  ∃ m, count_loop f lead n = Some m ∧ 1 ≤ m ≤ 8 ∧ lead < 253 ^ m ∧ (m = 1 ∨ 253 ^ (m - 1) ≤ lead).
Proof.
  intros Hl. revert n; induction f as [|f IH]; intros n Hn Hf Hlow; [lia|].
  cbn [count_loop]. rewrite pow_small by done.
  assert (0 < 253 ^ n) by (apply Z.pow_pos_nonneg; lia).
  destruct (Z.ltb_spec 0 (lead / 253 ^ n)) as [Hd|Hd].
  - assert (253 ^ n ≤ lead).
    { destruct (Z.le_gt_cases (253 ^ n) lead); [done|]. rewrite Z.div_small in Hd; lia. }
    assert (n ≠ 8) by (intros ->; lia).
    apply IH; [lia..|right]. by replace (n + 1 - 1) with n by lia.
  - exists n. split; [done|]. split; [done|]. split; [|done].
    destruct (Z.le_gt_cases (253 ^ n) lead) as [Hge|]; [|done].
    pose proof (Z.div_le_mono _ _ (253 ^ n) ltac:(done) Hge) as Hm. rewrite Z.div_same in Hm; lia.
Qed.

(** The number a list of digits stands for, most significant first. *)
Definition num (l : bytes) : Z := foldl (λ v c, v * 253 + (c - 2)) 0 l.
Definition is_digit (c : Z) : Prop := 2 ≤ c ≤ 254.

Lemma num_snoc l c : num (l ++ [c]) = num l * 253 + (c - 2).
Proof. unfold num. by rewrite foldl_snoc. Qed.

Lemma num_bound l : Forall is_digit l → 0 ≤ num l < 253 ^ Z.of_nat (length l).
Proof.
  induction l as [|c l IH] using rev_ind; intros H; [done|].
  apply Forall_app in H as [Hl Hc]. apply Forall_inv in Hc. unfold is_digit in Hc.
  rewrite num_snoc, length_app. replace (Z.of_nat (length l + length [c]))
    with (Z.succ (Z.of_nat (length l))) by (simpl; lia).
  rewrite Z.pow_succ_r by lia. specialize (IH Hl). lia.
Qed.

Lemma chars_loop_spec f lead :
  0 ≤ lead < 253 ^ (Z.of_nat f - 1) →
  ∃ cs, chars_loop f lead = Some cs ∧ Forall is_digit cs ∧ num (rev cs) = lead ∧
    (lead = 0 → cs = []) ∧ (lead ≠ 0 → 253 ^ (Z.of_nat (length cs) - 1) ≤ lead).
Proof.
  revert lead; induction f as [|f IH]; intros lead Hl; [simpl in Hl; lia|]. cbn [chars_loop].
  destruct (Z.eqb_spec lead 0) as [->|Hne]; [by exists []|].
  assert (1 ≤ Z.of_nat f).
  { destruct f; [|lia]. simpl in Hl. lia. }
  replace (Z.of_nat (S f) - 1) with (Z.of_nat f) in Hl by lia. rewrite pow_step in Hl by done.
  destruct (IH (lead / 253)) as (cs & E & Hd & Hn & H0 & Hlow).
  { split; [apply Z.div_pos; lia|]. apply Z.div_lt_upper_bound; lia. }
  rewrite E. cbn [mbind option_bind]. pose proof (Z.mod_pos_bound lead 253 eq_refl).
  rewrite u8_small by (unfold is_u8; lia).
  exists ((lead mod 253 + 2) :: cs). split; [done|]. split; [constructor; [unfold is_digit; lia|done]|].
  split; [|split; [done|]].
  - simpl rev. rewrite num_snoc, Hn. pose proof (Z.div_mod lead 253). lia.
  - intros _. cbn [length]. replace (Z.of_nat (S (length cs)) - 1) with (Z.of_nat (length cs)) by lia.
    destruct (decide (lead / 253 = 0)) as [E0|E0].
    + rewrite (H0 E0). simpl. lia.
    + specialize (Hlow E0). destruct cs as [|c cs']; [simpl in *; lia|]. 
      rewrite pow_step by (simpl; lia).
      pose proof (Z.mul_div_le lead 253 ltac:(lia)). lia.
Qed.

(** ** The three shapes of an encoding *)
Definition tail (rem : Z) : bytes := if 0 <? rem then [1; rem] else [].

Lemma Encode_small v :
  0 ≤ v < maxSmall → Encode v = [v / 255 / 255 + 128; v / 255 mod 255 + 1; v mod 255 + 1].
Proof.
  intros Hv. unfold Encode, maxSmall in *. destruct (Z.eqb_spec v 0) as [->|]; [done|].
  destruct (Z.ltb_spec v 8258175); [|lia]. 
  assert (is_u8 (v mod 255 + 1)) by uz. assert (is_u8 (v / 255 mod 255 + 1)) by uz.
  assert (0 ≤ v / 255 / 255 < 127) by (Z.div_mod_to_equations; lia).
  rewrite !(u8_small (_ mod _ + 1)) by done. rewrite u8_small by (unfold is_u8; lia).
  destruct (Z.ltb_spec 0 (v / 255)); [destruct (Z.ltb_spec 0 (v / 255 / 255)); [done|]|].
  - by replace (v / 255 / 255) with 0 by lia.
  - by replace (v / 255) with 0 by (Z.div_mod_to_equations; lia).
Qed.

Definition lead_of (v : Z) : Z := (v - maxSmall) / 255.
Definition rem_of (v : Z) : Z := (v - maxSmall) mod 255.

Lemma Encode_big v :
  maxSmall ≤ v < 2 ^ 64 →
  ∃ n cs, Encode v = 255 :: (n + 1) :: cs ++ tail (rem_of v) ∧ 1 ≤ n ≤ 8 ∧
    Forall is_digit cs ∧ num cs = lead_of v ∧
    (lead_of v = 0 → cs = [] ∧ n = 1) ∧ (lead_of v ≠ 0 → Z.of_nat (length cs) = n) ∧
    lead_of v < 253 ^ n ∧ (n = 1 ∨ 253 ^ (n - 1) ≤ lead_of v).
Proof.
  intros Hv. unfold Encode, lead_of, rem_of, maxSmall in *.
  destruct (Z.eqb_spec v 0) as [|_]; [lia|]. destruct (Z.ltb_spec v 8258175) as [|_]; [lia|].
  set (lead := (v - 8258175) / 255). set (rem := (v - 8258175) mod 255).
  assert (0 ≤ lead < 253 ^ 8) as Hl by (unfold lead; Z.div_mod_to_equations; lia).
  assert (0 ≤ rem < 255) as Hr by (apply Z.mod_pos_bound; lia).
  destruct (count_loop_spec fuel lead 1) as (n & -> & Hn & Hup & Hlow); [done|lia|done|by left|].
  destruct (chars_loop_spec fuel lead) as (cs & -> & Hd & Hnum & H0 & Hlen).
  { split; [lia|]. etrans; [apply Hl|]. done. }
  cbn [default id]. exists n, (rev cs). rewrite (u8_small n), u8_small, (u8_small rem)
    by (unfold is_u8; lia).
  split_and!; try done; try lia.
  - by apply Forall_rev.
  - intros Hz. rewrite (H0 Hz). destruct Hlow as [->|Hlow]; [done|]. rewrite Hz in Hlow.
    assert (0 < 253 ^ (n - 1)) by (apply Z.pow_pos_nonneg; lia). lia.
  - intros Hz. rewrite length_rev. specialize (Hlen Hz).
    pose proof (num_bound (rev cs) ltac:(by apply Forall_rev)) as [_ Hb].
    rewrite Hnum, length_rev in Hb.
    assert (Z.of_nat (length cs) - 1 < n) by (apply (Z.pow_lt_mono_r_iff 253); lia).
    assert (n - 1 < Z.of_nat (length cs)); [|lia].
    destruct Hlow as [->|]; [|apply (Z.pow_lt_mono_r_iff 253); lia].
    destruct cs; simpl in *; lia.
Qed.

(** ** Reading back *)
Lemma num_from_le l v : Forall is_digit l → 0 ≤ v → v ≤ foldl (λ v c, v * 253 + (c - 2)) v l.
Proof.
  revert v; induction l as [|c l IH]; intros v Hd Hv; simpl; [done|].
  apply Forall_cons in Hd as [Hc Hd]. unfold is_digit in Hc.
  etrans; [|apply IH; [done|lia]]. lia.
Qed.

Lemma digits_loop_spec cs v rem :
  Forall is_digit cs → 0 ≤ v → 0 ≤ rem → foldl (λ v c, v * 253 + (c - 2)) v cs < 2 ^ 64 →
  digits_loop v (cs ++ tail rem) = Ok (foldl (λ v c, v * 253 + (c - 2)) v cs, rem).
Proof.
  revert v; induction cs as [|c cs IH]; intros v Hd Hv Hr Hlt.
  - unfold tail. destruct (Z.ltb_spec 0 rem); [done|]. simpl. by replace rem with 0 by lia.
  - apply Forall_cons in Hd as [Hc Hd]. unfold is_digit in Hc. simpl in *.
    assert (v * 253 + (c - 2) < 2 ^ 64)
      by (eapply Z.le_lt_trans; [apply num_from_le; [exact Hd|lia]|done]).
    destruct (Z.eqb_spec c 1); [lia|].
    rewrite (u8_small (c - 2)), (u64_small (v * 252)), u64_small
      by (unfold is_u8, is_u64; lia).
    replace (v + (v * 252 + (c - 2))) with (v * 253 + (c - 2)) by lia. apply IH; (done || lia).
Qed.

(** Decoding an encoded number gives the number. *)
Lemma Decode_Encode_inv v : is_u64 v → Decode (Encode v) = Ok (inr v).
Proof.
  intros Hv. destruct (Z.lt_ge_cases v maxSmall) as [Hs|Hs].
  - rewrite Encode_small by (unfold is_u64 in Hv; lia). unfold Decode, maxSmall in *.
    assert (0 ≤ v / 255 / 255 < 127) by (unfold is_u64 in Hv; Z.div_mod_to_equations; lia).
    pose proof (Z.mod_pos_bound v 255 eq_refl). pose proof (Z.mod_pos_bound (v / 255) 255 eq_refl).
    pose proof (Z.div_mod v 255 ltac:(lia)). pose proof (Z.div_mod (v / 255) 255 ltac:(lia)).
    destruct (Z.ltb_spec (v / 255 / 255 + 128) 128); [lia|].
    destruct (Z.eqb_spec (v / 255 / 255 + 128) 255); [lia|].
    rewrite !u8_small by (unfold is_u8; lia). unfold is_u64 in Hv.
    rewrite !(u64_small (_ * _)), !u64_small; unfold is_u64; repeat f_equal; try lia.
    all: rewrite ?(u64_small (_ * _)), ?u64_small; unfold is_u64; lia.
  - destruct (Encode_big v) as (n & cs & -> & Hn & Hd & Hnum & _); [unfold is_u64 in *; lia|].
    unfold Decode. cbn [Z.ltb Z.compare Z.eqb Pos.compare Pos.compare_cont Pos.eqb].
    assert (0 ≤ rem_of v < 255) by (apply Z.mod_pos_bound; lia).
    assert (0 ≤ lead_of v < 2 ^ 64)
      by (unfold lead_of, maxSmall, is_u64 in *; Z.div_mod_to_equations; lia).
    rewrite digits_loop_spec; fold (num cs); rewrite ?Hnum; [|done || lia..]. simpl.
    unfold lead_of, rem_of in *. pose proof (Z.div_mod (v - maxSmall) 255 ltac:(lia)).
    unfold is_u64, maxSmall in *.
    rewrite (u64_small (_ * _)), u64_small by (unfold is_u64; lia). repeat f_equal. lia.
Qed.

Lemma tail_nonzero rem : 0 ≤ rem < 255 → Forall (λ b, 1 ≤ b < 256) (tail rem).
Proof. intros. unfold tail. destruct (Z.ltb_spec 0 rem); repeat constructor; lia. Qed.

(** An encoding has no zero byte and starts with a byte above 127. *)
Lemma Encode_bytes v :
  is_u64 v → Forall (λ b, 1 ≤ b < 256) (Encode v) ∧ ∃ b s, Encode v = b :: s ∧ 128 ≤ b.
Proof.
  unfold is_u64. intros Hv. destruct (Z.lt_ge_cases v maxSmall) as [Hs|Hs].
  - rewrite Encode_small by lia. unfold maxSmall in *.
    assert (0 ≤ v / 255 / 255 < 127) by (Z.div_mod_to_equations; lia).
    pose proof (Z.mod_pos_bound v 255 eq_refl). pose proof (Z.mod_pos_bound (v / 255) 255 eq_refl).
    split; [repeat constructor; lia|]. eexists _, _. split; [done|lia].
  - destruct (Encode_big v) as (n & cs & -> & Hn & Hd & _); [lia|]. split.
    + repeat constructor; [lia..|]. apply Forall_app; split.
      * eapply Forall_impl; [exact Hd|]. unfold is_digit. intros; lia.
      * apply tail_nonzero. apply Z.mod_pos_bound; lia.
    + by eexists _, _.
Qed.

(** ** The order *)

Lemma num_inj l l' :
  length l = length l' → Forall is_digit l → Forall is_digit l' → num l = num l' → l = l'.
Proof.
  revert l'; induction l as [|x l IH] using rev_ind; intros l' Hlen Hd Hd' E; [by destruct l'|].
  destruct l' as [|x' l' _] using rev_ind; [rewrite length_app in Hlen; simpl in Hlen; lia|].
  rewrite !length_app in Hlen. simpl in Hlen. rewrite !num_snoc in E.
  apply Forall_app in Hd as [Hd Hx], Hd' as [Hd' Hx'].
  apply Forall_inv in Hx, Hx'. unfold is_digit in Hx, Hx'.
  rewrite (IH l'); [f_equal; f_equal; lia|lia|done..|lia].
Qed.

(** Digit strings of one length compare as the numbers they stand for. *)
Lemma digits_before l l' :
  length l = length l' → Forall is_digit l → Forall is_digit l' → num l < num l' → before l l'.
Proof.
  revert l'; induction l as [|c l IH] using rev_ind; intros l' Hlen Hd Hd' Hlt.
  { destruct l'; [|done]. unfold num in Hlt; simpl in Hlt. lia. }
  destruct l' as [|c' l' _] using rev_ind; [rewrite length_app in Hlen; simpl in Hlen; lia|].
  rewrite !length_app in Hlen. simpl in Hlen. rewrite !num_snoc in Hlt.
  apply Forall_app in Hd as [Hd Hc], Hd' as [Hd' Hc'].
  apply Forall_inv in Hc, Hc'. unfold is_digit in Hc, Hc'.
  destruct (decide (num l < num l')) as [Hl|Hl].
  - apply before_app, IH; (done || lia).
  - assert (num l = num l') as E by lia.
    assert (l = l') as ->.
    { apply num_inj; (done || lia). }
    apply before_prepend, before_head. lia.
Qed.

Lemma Encode_lt_small v w : 0 ≤ v → v < w → w < maxSmall → before (Encode v) (Encode w).
Proof.
  intros Hv Hlt Hw. rewrite !Encode_small by lia.
  destruct (decide (v / 255 / 255 < w / 255 / 255)); [apply before_head; lia|].
  replace (v / 255 / 255) with (w / 255 / 255) by (Z.div_mod_to_equations; lia).
  apply before_cons. destruct (decide (v / 255 < w / 255)).
  - apply before_head. Z.div_mod_to_equations; lia.
  - replace (v / 255) with (w / 255) by (Z.div_mod_to_equations; lia).
    apply before_cons, before_head. Z.div_mod_to_equations; lia.
Qed.

Lemma tail_lt r r' : 0 ≤ r < r' → bytes_lt (tail r) (tail r').
Proof.
  intros Hr. unfold tail. destruct (Z.ltb_spec 0 r), (Z.ltb_spec 0 r'); try lia; [|done].
  apply before_lt, before_cons, before_head. lia.
Qed.

(** A tail sorts before any digit. *)
Lemma tail_digits r c s : 0 ≤ r → is_digit c → bytes_lt (tail r) (c :: s).
Proof.
  intros Hr Hc. unfold is_digit in Hc. unfold tail. destruct (Z.ltb_spec 0 r); [|done].
  apply before_lt, before_head. lia.
Qed.

Lemma bytes_lt_app p a b : bytes_lt (p ++ a) (p ++ b) = bytes_lt a b.
Proof. unfold bytes_lt. by rewrite bytes_le_app. Qed.

Lemma Encode_lt_big v w : maxSmall ≤ v → v < w → w < 2 ^ 64 → bytes_lt (Encode v) (Encode w).
Proof.
  intros Hv Hlt Hw.
  destruct (Encode_big v) as (n & cs & -> & Hn & Hd & Hnum & H0 & Hlen & Hup & Hlow); [lia|].
  destruct (Encode_big w) as (n' & cs' & -> & Hn' & Hd' & Hnum' & H0' & Hlen' & Hup' & Hlow'); [lia|].
  assert (0 ≤ rem_of v) by (apply Z.mod_pos_bound; lia).
  assert (lead_of v ≤ lead_of w) as Hle by (apply Z.div_le_mono; lia).
  assert (0 ≤ lead_of v) by (apply Z.div_pos; lia).
  apply bytes_lt_cons. right. split; [done|].
  destruct (decide (n < n')) as [Hnn|Hnn]; [apply bytes_lt_cons; left; lia|].
  assert (n' = n) as ->.
  { destruct Hlow as [->|Hlow]; [lia|]. assert (253 ^ (n - 1) < 253 ^ n') as Hp by lia.
    apply Z.pow_lt_mono_r_iff in Hp; lia. }
  apply bytes_lt_cons. right. split; [done|].
  destruct (decide (lead_of v = lead_of w)) as [El|El].
  - assert (cs = cs') as ->.
    { destruct (decide (lead_of v = 0)) as [Ez|Ez].
      - destruct (H0 Ez) as [-> _], H0' as [-> _]; [congruence|done].
      - apply num_inj; [lia|done..|congruence]. }
    rewrite bytes_lt_app. apply tail_lt. unfold lead_of, rem_of in *.
    split; [done|]. Z.div_mod_to_equations; lia.
  - destruct (decide (lead_of v = 0)) as [Ez|Ez].
    + destruct (H0 Ez) as [-> _]. destruct cs' as [|c cs']; [unfold num in Hnum'; simpl in *; lia|].
      apply tail_digits; [done|]. by apply Forall_inv in Hd'.
    + apply before_lt, before_app, digits_before; [lia|done..|lia].
Qed.

Lemma Encode_lt v w : 0 ≤ v → v < w → w < 2 ^ 64 → bytes_lt (Encode v) (Encode w).
Proof.
  intros Hv Hlt Hw. destruct (decide (w < maxSmall)); [apply before_lt; by apply Encode_lt_small|].
  destruct (decide (v < maxSmall)); [|apply Encode_lt_big; lia].
  destruct (Encode_big w) as (n' & cs' & -> & _); [lia|]. rewrite Encode_small by lia.
  apply bytes_lt_cons. left. unfold maxSmall in *. Z.div_mod_to_equations; lia.
Qed.

(** A zero byte ends a number: what follows it does not change the order. *)
Lemma Encode_before v w s t :
  0 ≤ v → v < w → w < 2 ^ 64 → before (Encode v ++ 0 :: s) (Encode w ++ 0 :: t).
Proof.
  intros Hv Hlt Hw. pose proof (Encode_lt v w Hv Hlt Hw) as [(x & u & E)|?]%bytes_lt_cases;
    [|by apply before_app].
  rewrite E, <- (assoc_L (++)). apply before_prepend, before_head.
  destruct (Encode_bytes w) as [Hb _]; [unfold is_u64; lia|]. rewrite E in Hb.
  apply Forall_app in Hb as [_ Hb]. apply Forall_inv in Hb. lia.
Qed.

Lemma Encode_inj v w : is_u64 v → is_u64 w → Encode v = Encode w → v = w.
Proof.
  intros Hv%Decode_Encode_inv Hw%Decode_Encode_inv E. rewrite E in Hv. congruence.
Qed.

(** Comparing a number with a number that is followed by a zero byte. *)
Lemma Encode_le_iff v w s :
  is_u64 v → is_u64 w → bytes_le (Encode v) (Encode w ++ 0 :: s) ↔ v ≤ w.
Proof.
  unfold is_u64. intros Hv Hw. destruct (decide (w < v)) as [Hlt|Hge].
  - split; [|lia]. intros Hle. exfalso.
    assert (bytes_lt (Encode w ++ 0 :: s) (Encode v)) as Hl; [|unfold bytes_lt in Hl; by destruct (bytes_le _ _)].
    apply before_lt. pose proof (Encode_lt w v ltac:(lia) Hlt ltac:(lia)) as [(x & t & E)|Hb]%bytes_lt_cases.
    + rewrite E. apply before_prepend, before_head.
      destruct (Encode_bytes v) as [Hb _]; [unfold is_u64; lia|]. rewrite E in Hb.
      apply Forall_app in Hb as [_ Hb]. apply Forall_inv in Hb. lia.
    + rewrite <- (app_nil_r (Encode v)). by apply before_app.
  - split; [lia|]. intros _. destruct (decide (v = w)) as [->|].
    + rewrite <- (app_nil_r (Encode w)) at 1. by rewrite bytes_le_app.
    + pose proof (Encode_lt v w ltac:(lia) ltac:(lia) ltac:(lia)) as [(x & t & ->)|Hb]%bytes_lt_cases.
      * rewrite <- (app_nil_r (Encode v)) at 1. rewrite <- (assoc_L (++)). by rewrite bytes_le_app.
      * rewrite <- (app_nil_r (Encode v)). by apply bytes_lt_iff, before_lt, before_app.
Qed.

(** ** The theorems *)

(** Decode inverts Encode on all 64-bit numbers, the wrap-around of pow included. *)
Theorem Decode_Encode v : is_u64 v → Decode (Encode v) = Ok (inr v).
Proof. apply Decode_Encode_inv. Qed.

Theorem Encode_order v w :
  is_u64 v → is_u64 w → v < w ↔ bytes_lt (Encode v) (Encode w).
Proof.
  unfold is_u64. intros Hv Hw. split; [intros; apply Encode_lt; lia|].
  intros H. destruct (Z.lt_trichotomy v w) as [|[->|Hgt]]; [done|..].
  - by apply bytes_lt_iff in H as [_ ?].
  - apply Encode_lt in Hgt; [|lia..]. apply bytes_lt_iff in H as [H Hne], Hgt as [Hgt _].
    exfalso. by apply Hne, bytes_le_antisym.
Qed.

Theorem pow_wraps a b : is_u64 b → pow a b = u64 (a ^ b).
Proof. intros Hb. unfold pow. rewrite pow_loop_spec; [by rewrite Z.mul_1_l|done..]. Qed.
End Lexinum.
