(* ===== verification/Codec.v ===== *)
(** * The byte formats of the broadcast store (src/broadcast/store.go)

    The keys of the database, and the encoding of block IDs and block graphs.
    A block key is a prefix byte, the order-preserving encodings of the node and
    of the round, each ended by a zero byte, and the hash. *)

From S2P Require Import Prelude Messages Block Lexinum.

(** ** Messages of types.proto *)
Record SignedData := mkSigned { sd_Data : bytes; sd_Signature : bytes }.
Record BlockReference := mkRef { br_Hash : bytes; br_Node : Z; br_Round : Z }.
Record Transactions := mkTxs { tx_Count : Z; tx_Data : bytes }.
Record Block := mkBlock {
  b_Node : Z; b_Previous : option SignedData; b_References : list SignedData;
  b_Round : Z; b_Transactions : option Transactions }.

#[export] Instance SignedData_eq_dec : EqDecision SignedData.
Proof. solve_decision. Defined.
#[export] Instance BlockReference_eq_dec : EqDecision BlockReference.
Proof. solve_decision. Defined.
#[export] Instance Transactions_eq_dec : EqDecision Transactions.
Proof. solve_decision. Defined.
#[export] Instance Block_eq_dec : EqDecision Block.
Proof. solve_decision. Defined.

Module Codec.
Import Lexinum.

(** ** Keys *)
Definition blockPrefix : Z := 1.
Definition blockGraphPrefix : Z := 2.
Definition includedPrefix : Z := 3.
Definition interpretedPrefix : Z := 4.
Definition lastBlockRefPrefix : Z := 5.
Definition lastHashPrefix : Z := 6.
Definition lastInterpretedPrefix : Z := 7.
Definition lastRoundPrefix : Z := 8.
Definition notIncludedPrefix : Z := 9.
Definition ownBlockPrefix : Z := 10.
Definition receivedMapPrefix : Z := 11.
Definition roundAcknowledgedPrefix : Z := 12.
Definition sentMapPrefix : Z := 13.

Definition encodeBlockID (id : BlockID) : bytes :=
  Encode (Node id) ++ [0] ++ Encode (Round id) ++ [0] ++ Hash id.

Definition blockKey (id : BlockID) : bytes :=
  [blockPrefix] ++ Encode (Node id) ++ [0] ++ Encode (Round id) ++ [0] ++ Hash id.
Definition blockGraphKey (id : BlockID) : bytes :=
  [blockGraphPrefix] ++ Encode (Node id) ++ [0] ++ Encode (Round id) ++ [0] ++ Hash id.
Definition includedKey (id : BlockID) : bytes :=
  [includedPrefix] ++ Encode (Node id) ++ [0] ++ Encode (Round id) ++ [0] ++ Hash id.
Definition notIncludedKey (id : BlockID) : bytes :=
  [notIncludedPrefix] ++ Encode (Node id) ++ [0] ++ Encode (Round id) ++ [0] ++ Hash id.
Definition interpretedKey (round : Z) : bytes := [interpretedPrefix] ++ Encode round.
Definition ownBlockKey (round : Z) : bytes := [ownBlockPrefix] ++ Encode round.

(** ** Block IDs *)

(** The loop of [decodeBlockID] over the bytes at [i] and after; [stage] is
    false before the first zero byte. *)
Fixpoint id_loop (d : bytes) (i : nat) (rest : bytes) (nodeID : Z) (rstart : nat) (stage : bool)
    : outcome (error + BlockID) :=
  match rest with
  | [] => Ok (inr (mkBlockID [] nodeID 0))
  | char :: rest =>
      if char =? 0 then
        if stage then
          x ← sub d rstart i;
          round ←? Decode x;
          hash ← sub d (S i) (length d);
          Ok (inr (mkBlockID hash nodeID round))
        else
          x ← sub d 0 i;
          nodeID ←? Decode x;
          id_loop d (S i) rest nodeID (S i) true
      else id_loop d (S i) rest nodeID rstart stage
  end.
Definition decodeBlockID (d : bytes) : outcome (error + BlockID) := id_loop d 0 d 0 0 false.

(** The loop of [decodeBlockRound] over [d[1:]]: where the round starts and ends. *)
Fixpoint round_loop (i : nat) (rest : bytes) (rstart : nat) : nat * nat :=
  match rest with
  | [] => (rstart, 0%nat)
  | char :: rest =>
      if char =? 0 then
        if bool_decide (rstart = 0%nat) then round_loop (S i) rest (i + 2)
        else (rstart, S i)
      else round_loop (S i) rest rstart
  end.
Definition decodeBlockRound (d : bytes) : outcome (error + Z) :=
  rest ← sub d 1 (length d);
  let '(rstart, rend) := round_loop 0 rest 0 in
  x ← sub d rstart rend;
  Decode x.

(** ** Block graphs *)
Definition put_sized (id : bytes) : bytes := put_le 2 (Z.of_nat (length id)) ++ id.
Definition put_prev (id : BlockID) : bytes :=
  if Valid id then put_sized (encodeBlockID id) else [0; 0].
Definition put_dep (dep : Dep) : bytes :=
  put_sized (encodeBlockID (dep_Block dep)) ++ put_prev (dep_Prev dep) ++
  put_le 4 (Z.of_nat (length (dep_Deps dep))) ++
  mjoin ((λ id, put_sized (encodeBlockID id)) <$> dep_Deps dep).

Definition encodeBlockGraph (block : BlockGraph) : bytes :=
  put_prev (bg_Prev block) ++ put_le 4 (Z.of_nat (length (bg_Deps block))) ++
  mjoin (put_dep <$> bg_Deps block).

(** Reading at an index that only moves forward: [val[idx:idx+n]] and what is
    left of [val]. *)
Definition read_n (n : nat) (s : bytes) : outcome (bytes * bytes) :=
  if bool_decide (n ≤ length s)%nat then Ok (take n s, drop n s) else Halt Panic.
Definition read_uint (n : nat) (s : bytes) : outcome (Z * bytes) :=
  '(x, s) ← read_n n s; Ok (get_le x, s).

Definition read_id (s : bytes) : outcome (error + (BlockID * bytes)) :=
  '(ksize, s) ← read_uint 2 s;
  '(x, s) ← read_n (Z.to_nat ksize) s;
  id ←? decodeBlockID x;
  Ok (inr (id, s)).
Definition read_prev (s : bytes) : outcome (error + (BlockID * bytes)) :=
  '(ksize, s) ← read_uint 2 s;
  if 0 <? ksize then
    '(x, s) ← read_n (Z.to_nat ksize) s;
    id ←? decodeBlockID x;
    Ok (inr (id, s))
  else Ok (inr (zeroID, s)).

Fixpoint read_list {A} (f : bytes → outcome (error + (A * bytes))) (n : nat) (s : bytes)
    : outcome (error + (list A * bytes)) :=
  match n with
  | O => Ok (inr ([], s))
  | S n =>
      '(x, s) ←? f s;
      '(l, s) ←? read_list f n s;
      Ok (inr (x :: l, s))
  end.

Definition read_dep (s : bytes) : outcome (error + (Dep * bytes)) :=
  '(id, s) ←? read_id s;
  '(prev, s) ←? read_prev s;
  '(lsize, s) ← read_uint 4 s;
  '(links, s) ←? read_list read_id (Z.to_nat lsize) s;
  Ok (inr (mkDep id links prev, s)).

(** The body of the loop of [getBlockGraphs]: the block graph of one item. *)
Definition decodeBlockGraph (key val : bytes) : outcome (error + BlockGraph) :=
  k ← sub key 1 (length key);
  id ←? decodeBlockID k;
  '(prev, s) ←? read_prev val;
  '(size, s) ← read_uint 4 s;
  '(deps, s) ←? read_list read_dep (Z.to_nat size) s;
  Ok (inr (mkBlockGraph id deps prev)).

(** ** Reading block IDs back *)
Definition id_ok (id : BlockID) : Prop := is_u64 (Node id) ∧ is_u64 (Round id).

Lemma Encode_nonzero v : is_u64 v → Forall (λ b, b ≠ 0) (Encode v).
Proof. intros [H _]%Encode_bytes. eapply Forall_impl; [exact H|]. intros; simpl in *; lia. Qed.

Lemma id_loop_skip d a i rest n r st :
  Forall (λ b, b ≠ 0) a → id_loop d i (a ++ rest) n r st = id_loop d (i + length a) rest n r st.
Proof.
  revert i; induction a as [|c a IH]; intros i H; simpl; [by rewrite Nat.add_0_r|].
  apply Forall_cons in H as [Hc Ha]. destruct (Z.eqb_spec c 0); [done|].
  rewrite IH by done. f_equal. lia.
Qed.

Lemma decode_encode_id id : id_ok id → decodeBlockID (encodeBlockID id) = Ok (inr id).
Proof.
  intros [Hn Hr]. unfold decodeBlockID. set (d := encodeBlockID id) at 1.
  unfold encodeBlockID. rewrite id_loop_skip by (by apply Encode_nonzero).
  cbn [app id_loop Nat.add]. rewrite Z.eqb_refl.
  assert (sub d 0 (length (Encode (Node id))) = Ok (Encode (Node id))) as ->.
  { apply (sub_app [] (Encode (Node id))). }
  cbn [mbind outcome_bind]. rewrite Decode_Encode_inv by done. cbn [mbind outcome_bind].
  rewrite id_loop_skip by (by apply Encode_nonzero). cbn [app id_loop]. rewrite Z.eqb_refl.
  assert (sub d (S (length (Encode (Node id))))
    (S (length (Encode (Node id))) + length (Encode (Round id))) = Ok (Encode (Round id))) as ->.
  { pose proof (sub_app (Encode (Node id) ++ [0]) (Encode (Round id)) ([0] ++ Hash id)) as E.
    rewrite length_app, <- (assoc_L (++)) in E. simpl length in E.
    rewrite Nat.add_1_r in E. exact E. }
  cbn [mbind outcome_bind]. rewrite Decode_Encode_inv by done. cbn [mbind outcome_bind].
  assert (sub d (S (S (length (Encode (Node id))) + length (Encode (Round id)))) (length d)
    = Ok (Hash id)) as ->; [|by destruct id].
  pose proof (sub_app (Encode (Node id) ++ [0] ++ Encode (Round id) ++ [0]) (Hash id) []) as E.
  rewrite app_nil_r in E. unfold d, encodeBlockID. rewrite <- !(assoc_L (++)) in E.
  rewrite !length_app in E. rewrite !length_app. simpl length in *. rewrite <- E. f_equal; lia.
Qed.

Lemma round_loop_skip a i rest r :
  Forall (λ b, b ≠ 0) a → round_loop i (a ++ rest) r = round_loop (i + length a) rest r.
Proof.
  revert i; induction a as [|c a IH]; intros i H; simpl; [by rewrite Nat.add_0_r|].
  apply Forall_cons in H as [Hc Ha]. destruct (Z.eqb_spec c 0); [done|].
  rewrite IH by done. f_equal. lia.
Qed.

Lemma decode_block_round p id : id_ok id → decodeBlockRound (p :: encodeBlockID id) = Ok (inr (Round id)).
Proof.
  intros [Hn Hr]. unfold decodeBlockRound.
  assert (sub (p :: encodeBlockID id) 1 (length (p :: encodeBlockID id)) = Ok (encodeBlockID id)) as ->.
  { pose proof (sub_app [p] (encodeBlockID id) []) as E. rewrite app_nil_r in E. exact E. }
  cbn [mbind outcome_bind]. unfold encodeBlockID at 1.
  rewrite round_loop_skip by (by apply Encode_nonzero). cbn [app round_loop].
  rewrite Z.eqb_refl, bool_decide_eq_true_2 by done.
  rewrite round_loop_skip by (by apply Encode_nonzero). cbn [round_loop].
  rewrite Z.eqb_refl, bool_decide_eq_false_2 by lia.
  pose proof (sub_app (p :: Encode (Node id) ++ [0]) (Encode (Round id)) ([0] ++ Hash id)) as E.
  unfold encodeBlockID. simpl app in *. rewrite <- (assoc_L (++)) in E. simpl app in E.
  simpl length in E. rewrite length_app in E. simpl length in E.
  replace (0 + length (Encode (Node id)) + 2)%nat
    with (S (length (Encode (Node id)) + 1)) by lia.
  replace (S (S (0 + length (Encode (Node id))) + length (Encode (Round id))))
    with (S (length (Encode (Node id)) + 1) + length (Encode (Round id)))%nat by lia.
  rewrite E. cbn [mbind outcome_bind]. by apply Decode_Encode_inv.
Qed.

Lemma encodeBlockID_inj a b : id_ok a → id_ok b → encodeBlockID a = encodeBlockID b → a = b.
Proof. intros Ha%decode_encode_id Hb%decode_encode_id E. rewrite E in Ha. congruence. Qed.

(** ** Reading block graphs back *)
Lemma read_n_app a s : read_n (length a) (a ++ s) = Ok (a, s).
Proof.
  unfold read_n. rewrite bool_decide_eq_true_2 by (rewrite length_app; lia).
  by rewrite take_app_length, drop_app_length.
Qed.

Lemma read_uint_put n z s :
  0 ≤ z < 256 ^ Z.of_nat n → read_uint n (put_le n z ++ s) = Ok (z, s).
Proof.
  intros Hz. unfold read_uint. rewrite <- (length_put_le n z) at 1. rewrite read_n_app. simpl.
  by rewrite get_put_le_small.
Qed.

(** An ID whose encoding fits the two length bytes. *)
Definition fits (id : BlockID) : Prop :=
  id_ok id ∧ Z.of_nat (length (encodeBlockID id)) < 2 ^ 16.

Lemma read_sized id s :
  fits id → read_id (put_sized (encodeBlockID id) ++ s) = Ok (inr (id, s)).
Proof.
  intros [Hid Hlen]. unfold read_id, put_sized. rewrite <- (assoc_L (++)).
  rewrite read_uint_put by (simpl; lia). cbn [mbind outcome_bind].
  rewrite Nat2Z.id, read_n_app. cbn [mbind outcome_bind]. by rewrite decode_encode_id.
Qed.

(** What [Prev] is read back as: an invalid reference is not stored. *)
Definition clean (id : BlockID) : BlockID := if Valid id then id else zeroID.
Definition prev_fits (id : BlockID) : Prop := Valid id → fits id.

Lemma read_put_prev id s : prev_fits id → read_prev (put_prev id ++ s) = Ok (inr (clean id, s)).
Proof.
  intros Hp. unfold put_prev, clean. destruct (Valid id) eqn:Hv; [|done].
  destruct (Hp ltac:(by rewrite Hv)) as [Hid Hlen]. unfold read_prev, put_sized. rewrite <- (assoc_L (++)).
  rewrite read_uint_put by (simpl; lia). cbn [mbind outcome_bind].
  assert (0 < length (encodeBlockID id))%nat.
  { destruct Hid as [Hn _]. apply Encode_bytes in Hn as (_ & b & t & E & _).
    unfold encodeBlockID. rewrite E. simpl. lia. }
  destruct (Z.ltb_spec 0 (Z.of_nat (length (encodeBlockID id)))); [|lia].
  rewrite Nat2Z.id, read_n_app. cbn [mbind outcome_bind]. by rewrite decode_encode_id.
Qed.

Lemma read_list_app {A} (f : bytes → outcome (error + (A * bytes))) (put : A → bytes) (g : A → A) l s :
  (∀ x s, x ∈ l → f (put x ++ s) = Ok (inr (g x, s))) →
  read_list f (length l) (mjoin (put <$> l) ++ s) = Ok (inr (g <$> l, s)).
Proof.
  induction l as [|x l IH]; intros Hf; [done|]. cbn [length read_list].
  change (mjoin (put <$> x :: l)) with (put x ++ mjoin (put <$> l)). rewrite <- (assoc_L (++)).
  rewrite Hf by left. cbn [mbind outcome_bind]. rewrite IH; [done|]. intros; apply Hf. by right.
Qed.

Definition clean_dep (d : Dep) : Dep := mkDep (dep_Block d) (dep_Deps d) (clean (dep_Prev d)).
Definition clean_graph (bg : BlockGraph) : BlockGraph :=
  mkBlockGraph (bg_Block bg) (clean_dep <$> bg_Deps bg) (clean (bg_Prev bg)).

Record dep_fits (d : Dep) : Prop := {
  df_block : fits (dep_Block d);
  df_prev : prev_fits (dep_Prev d);
  df_deps : Forall fits (dep_Deps d);
  df_count : Z.of_nat (length (dep_Deps d)) < 2 ^ 32 }.
Record graph_fits (bg : BlockGraph) : Prop := {
  gf_block : id_ok (bg_Block bg);
  gf_prev : prev_fits (bg_Prev bg);
  gf_deps : Forall dep_fits (bg_Deps bg);
  gf_count : Z.of_nat (length (bg_Deps bg)) < 2 ^ 32 }.

Lemma read_put_dep d s : dep_fits d → read_dep (put_dep d ++ s) = Ok (inr (clean_dep d, s)).
Proof.
  intros [Hb Hp Hd Hc]. unfold read_dep, put_dep. rewrite <- !(assoc_L (++)).
  rewrite read_sized by done. cbn [mbind outcome_bind].
  rewrite read_put_prev by done. cbn [mbind outcome_bind].
  rewrite read_uint_put by (simpl; lia). cbn [mbind outcome_bind]. rewrite Nat2Z.id.
  rewrite (read_list_app read_id (λ id, put_sized (encodeBlockID id)) id).
  - cbn [mbind outcome_bind]. by rewrite list_fmap_id.
  - intros x t Hx. apply read_sized. by eapply Forall_forall in Hd.
Qed.

Lemma decode_encode_graph bg :
  graph_fits bg →
  decodeBlockGraph (blockGraphKey (bg_Block bg)) (encodeBlockGraph bg) = Ok (inr (clean_graph bg)).
Proof.
  intros [Hb Hp Hd Hc]. unfold decodeBlockGraph.
  assert (sub (blockGraphKey (bg_Block bg)) 1 (length (blockGraphKey (bg_Block bg)))
    = Ok (encodeBlockID (bg_Block bg))) as ->.
  { pose proof (sub_app [blockGraphPrefix] (encodeBlockID (bg_Block bg)) []) as E.
    rewrite app_nil_r in E. exact E. }
  cbn [mbind outcome_bind]. rewrite decode_encode_id by done. cbn [mbind outcome_bind].
  unfold encodeBlockGraph. rewrite read_put_prev by done. cbn [mbind outcome_bind].
  rewrite read_uint_put by (simpl; lia). cbn [mbind outcome_bind]. rewrite Nat2Z.id.
  pose proof (read_list_app read_dep put_dep clean_dep (bg_Deps bg) []) as E.
  rewrite app_nil_r in E. rewrite E; [done|]. intros d t Hin. apply read_put_dep.
  by eapply Forall_forall in Hd.
Qed.

(** ** The order of keys *)

(** Block IDs are ordered by node, then by round, then by hash. *)
Definition id_lt (a b : BlockID) : Prop :=
  Node a < Node b ∨ Node a = Node b ∧
  (Round a < Round b ∨ Round a = Round b ∧ bytes_lt (Hash a) (Hash b)).

Lemma encodeBlockID_lt a b :
  id_ok a → id_ok b → id_lt a b → bytes_lt (encodeBlockID a) (encodeBlockID b).
Proof.
  unfold id_ok, is_u64. intros [Na Ra] [Nb Rb] H. unfold encodeBlockID.
  destruct H as [H|[-> [H|[-> H]]]].
  - apply before_lt. apply (Encode_before _ _ _ _); lia.
  - apply before_lt. apply before_prepend, before_prepend. apply (Encode_before _ _ _ _); lia.
  - by rewrite !bytes_lt_app.
Qed.

Lemma bytes_lt_asym a b : bytes_lt a b → bytes_lt b a → False.
Proof. rewrite !bytes_lt_iff. intros [? Hn] [? _]. by apply Hn, bytes_le_antisym. Qed.

Lemma id_lt_total a b : a = b ∨ id_lt a b ∨ id_lt b a.
Proof.
  unfold id_lt. destruct (Z.lt_trichotomy (Node a) (Node b)) as [|[|]]; [tauto| |tauto].
  destruct (Z.lt_trichotomy (Round a) (Round b)) as [|[|]]; [tauto| |intuition].
  destruct (decide (Hash a = Hash b)); [left; destruct a, b; simpl in *; congruence|].
  destruct (bytes_le_total (Hash a) (Hash b)); [right; left|right; right];
    rewrite bytes_lt_iff; intuition.
Qed.

Lemma encodeBlockID_lt_inv a b :
  id_ok a → id_ok b → bytes_lt (encodeBlockID a) (encodeBlockID b) → id_lt a b.
Proof.
  intros Ha Hb Hlt. destruct (id_lt_total a b) as [->|[?|Hba]]; [|done|].
  - by apply bytes_lt_iff in Hlt as [_ ?].
  - exfalso. eapply bytes_lt_asym; [exact Hlt|]. by apply encodeBlockID_lt.
Qed.

(** The keys of one node from one round on. *)
Definition node_prefix (p node : Z) : bytes := [p] ++ Encode node ++ [0].

Lemma node_prefix_key p node id :
  is_u64 node → id_ok id → node_prefix p node `prefix_of` p :: encodeBlockID id ↔ Node id = node.
Proof.
  intros Hn [Hid _]. split.
  - intros [k E]. unfold node_prefix, encodeBlockID in E. simpl in E. injection E as E.
    rewrite <- (assoc_L (++)) in E. simpl in E.
    apply split_zero in E as [E _]; [|by apply Encode_nonzero..]. by apply Encode_inj.
  - intros <-. exists (Encode (Round id) ++ [0] ++ Hash id). unfold node_prefix, encodeBlockID.
    simpl. by rewrite <- (assoc_L (++)).
Qed.

Lemma node_prefix_from p node from id :
  is_u64 from → id_ok id → Node id = node →
  bytes_le (node_prefix p node ++ Encode from) (p :: encodeBlockID id) ↔ from ≤ Round id.
Proof.
  intros Hf [_ Hr] <-. unfold node_prefix, encodeBlockID.
  replace (p :: Encode (Node id) ++ [0] ++ Encode (Round id) ++ [0] ++ Hash id)
    with (([p] ++ Encode (Node id) ++ [0]) ++ Encode (Round id) ++ [0] ++ Hash id)
    by (simpl; by rewrite <- (assoc_L (++))).
  rewrite bytes_le_app. by apply Encode_le_iff.
Qed.

(** ** The theorems *)

Theorem block_id_round_trip id p :
  id_ok id → decodeBlockID (encodeBlockID id) = Ok (inr id) ∧
    decodeBlockRound (p :: encodeBlockID id) = Ok (inr (Round id)).
Proof. intros Hid. split; [by apply decode_encode_id|by apply decode_block_round]. Qed.

(** C37: Decoding the key and value under which a block graph is stored gives the graph back,
    with invalid predecessors replaced by the zero identifier. *)
Theorem block_graph_round_trip bg :
  graph_fits bg →
  decodeBlockGraph (blockGraphKey (bg_Block bg)) (encodeBlockGraph bg) = Ok (inr (clean_graph bg)).
Proof. apply decode_encode_graph. Qed.

(** The byte order of block keys is the order by node, then round, then hash, so that scans
    by prefix see the rounds of a node in ascending order. *)
Theorem keys_follow_rounds a b :
  id_ok a → id_ok b →
  bytes_lt (blockKey a) (blockKey b) ↔
  Node a < Node b ∨ Node a = Node b ∧
    (Round a < Round b ∨ Round a = Round b ∧ bytes_lt (Hash a) (Hash b)).
Proof.
  intros Ha Hb. change (bytes_lt ([blockPrefix] ++ encodeBlockID a) ([blockPrefix] ++ encodeBlockID b) ↔ id_lt a b).
  rewrite bytes_lt_app. split; [by apply encodeBlockID_lt_inv|by apply encodeBlockID_lt].
Qed.
End Codec.
