(* ===== verification/Kv.v ===== *)
(** * What the store relies on: the database, protocol buffers and the hash

    badger, protocol buffers and SHA-512/256 are not part of the repository.  The
    classes state what the code uses of them: [KV] the operations of a badger
    transaction, with their documented laws in [KVLaws]; [Proto] the encoding of
    one message type.  [MapDB] is an instance, a finite map whose transactions
    never fail. *)

From S2P Require Import Prelude.

(** ** The database *)
Inductive dberr := KeyNotFound | DBFailure (code : Z).
#[export] Instance dberr_eq_dec : EqDecision dberr.
Proof. solve_decision. Defined.

Class KV (DB : Type) := {
  kv_get : DB → bytes → dberr + bytes;          (* txn.Get(k), then item.Value() *)
  kv_set : DB → bytes → bytes → dberr + DB;     (* txn.Set(k, v) *)
  kv_delete : DB → bytes → dberr + DB;          (* txn.Delete(k) *)
  kv_seek : DB → bytes → list (bytes * bytes);  (* it.Seek(k), then it.Next() to the end *)
  (* db.Update(fn): the database afterwards and the error, of [fn] or of the commit *)
  kv_update : ∀ {E}, (dberr → E) → DB → (DB → E + DB) → DB * option E
}.

(** Keys in strictly ascending order. *)
Definition key_le (a b : bytes * bytes) : Prop := bytes_le a.1 b.1.

Class KVLaws (DB : Type) `{KV DB} := {
  kv_get_set db k v db' k' :
    kv_set db k v = inr db' → kv_get db' k' = if decide (k = k') then inr v else kv_get db k';
  kv_get_delete db k db' k' :
    kv_delete db k = inr db' →
    kv_get db' k' = if decide (k = k') then inl KeyNotFound else kv_get db k';
  kv_seek_sorted db k : StronglySorted key_le (kv_seek db k);
  kv_seek_nodup db k : NoDup (kv_seek db k).*1;
  kv_seek_elem db k k' v : (k', v) ∈ kv_seek db k ↔ bytes_le k k' ∧ kv_get db k' = inr v;
  (* without an error the keys are those [fn] made; with one they are as before *)
  kv_update_ok {E} (of_db : dberr → E) db fn db' :
    kv_update of_db db fn = (db', None) → ∃ t, fn db = inr t ∧ ∀ k, kv_get db' k = kv_get t k;
  kv_update_err {E} (of_db : dberr → E) db fn db' e k :
    kv_update of_db db fn = (db', Some e) → kv_get db' k = kv_get db k
}.

(** ** Protocol buffers and the hash *)
Class Proto (A : Type) := {
  marshal : A → option bytes;        (* None: an error *)
  unmarshal : bytes → option A
}.
Class ProtoLaws (A : Type) `{Proto A} :=
  unmarshal_marshal a b : marshal a = Some b → unmarshal b = Some a.

Class Hasher := sha512_256 : bytes → bytes.

(** ** A finite map as the database *)
Abbreviation MapDB := (gmap (list Z) (list Z)).

#[export] Instance key_le_dec : RelDecision key_le := λ a b, _.
#[export] Instance key_le_total : Total key_le.
Proof. intros a b. apply bytes_le_total. Qed.
#[export] Instance key_le_trans : Transitive key_le.
Proof. intros a b c. apply bytes_le_trans. Qed.

#[export] Instance MapDB_KV : KV MapDB := {
  kv_get db k := match db !! k with Some v => inr v | None => inl KeyNotFound end;
  kv_set db k v := inr (<[k := v]> db);
  kv_delete db k := inr (delete k db);
  kv_seek db k := merge_sort key_le (filter (λ kv, bytes_le k kv.1) (map_to_list db));
  kv_update _ _ db fn := match fn db with inl e => (db, Some e) | inr t => (t, None) end
}.

#[export] Instance MapDB_laws : KVLaws MapDB.
Proof.
  split; simpl.
  - intros db k v db' k' [= <-]. rewrite lookup_insert. by case_decide.
  - intros db k db' k' [= <-]. rewrite lookup_delete. by case_decide.
  - intros db k. apply (StronglySorted_merge_sort key_le).
  - intros db k. rewrite (fmap_Permutation fst _ _ (merge_sort_Permutation _ _)).
    apply NoDup_fmap_fst; [|apply NoDup_filter, NoDup_map_to_list].
    intros x y y' [_ Hy]%list_elem_of_filter [_ Hy']%list_elem_of_filter.
    apply elem_of_map_to_list in Hy, Hy'. congruence.
  - intros db k k' v. rewrite merge_sort_Permutation, list_elem_of_filter, elem_of_map_to_list.
    simpl. destruct (db !! k') eqn:E; naive_solver.
  - intros E _ db fn db' Hu. destruct (fn db); simplify_eq. eauto.
  - intros E _ db fn db' e k Hu. destruct (fn db); by simplify_eq.
Qed.
