(* ===== verification/Conn.v ===== *)
(** * Connections between nodes (src/network/conn.go, messages of src/service/types.proto)

    A connection carries frames: the length of the payload as four bytes, then the
    payload.  The network delivers the bytes in pieces of any size: [netconn] lists what
    the next calls of [Read] and [Write] give.  A [Read] that finds nothing runs into its
    deadline. *)

From S2P Require Import Prelude Kv.

(** ** Messages of types.proto *)
Record SMessage := mkMessage { m_ID : Z; m_Error : bytes; m_Opcode : Z; m_Payload : bytes }.
Record Hello := mkHello { h_Agent : bytes; h_Payload : bytes; h_Signature : bytes; h_Type : Z }.

(** ** [net.Conn] *)
Inductive neterr := NetEOF | NetTimeout | NetFailure (code : Z).
Inductive rresult := Got (data : bytes) | ReadErr (e : neterr).
Inductive wresult := Took (n : nat) | WriteErr (e : neterr).

Record netconn := mkNet { n_in : list rresult; n_wr : list wresult; n_out : bytes; n_closed : bool }.

Module Net.
Definition set_in (c : netconn) x := mkNet x (n_wr c) (n_out c) (n_closed c).
Definition Close (c : netconn) := mkNet (n_in c) (n_wr c) (n_out c) true.

(** [conn.Read(buf)] on a buffer of [k] bytes. *)
Definition Read (c : netconn) (k : nat) : netconn * (neterr + bytes) :=
  if n_closed c then (c, inl (NetFailure 0))
  else match n_in c with
  | [] => (c, inl NetTimeout)
  | ReadErr e :: rest => (set_in c rest, inl e)
  | Got d :: rest =>
      if bool_decide (length d ≤ k)%nat then (set_in c rest, inr d)
      else (set_in c (Got (drop k d) :: rest), inr (take k d))
  end.

(** [conn.Write(data)]: how many bytes were written. *)
Definition Write (c : netconn) (data : bytes) : netconn * (neterr + nat) :=
  if n_closed c then (c, inl (NetFailure 0))
  else match n_wr c with
  | [] => (mkNet (n_in c) [] (n_out c ++ data) false, inr (length data))
  | WriteErr e :: rest => (mkNet (n_in c) rest (n_out c) false, inl e)
  | Took n :: rest =>
      (mkNet (n_in c) rest (n_out c ++ take n data) false, inr (length (take n data)))
  end.
End Net.

(** ** [Conn] *)
Record conn := mkConn { c_buf : bytes; c_conn : netconn; c_lastID : Z }.

Inductive cerr := CNet (e : neterr) | CMarshal | CUnmarshal | COverflow | CTooLarge.

Module Conn.
Definition NewConn (c : netconn) : conn := mkConn (replicate 1024 0) c 0.
Definition Close (c : conn) : conn := mkConn (c_buf c) (Net.Close (c_conn c)) (c_lastID c).

(** [for need > 0 { n, err := c.conn.Read(buf[hi-need:hi]); ...; need -= n }]; at most
    [fuel] calls. *)
Fixpoint read_loop (fuel : nat) (nc : netconn) (buf : bytes) (hi need : nat)
    : outcome (netconn * bytes * option neterr) :=
  match need with
  | O => Ok (nc, buf, None)
  | S _ =>
      match fuel with
      | O => Halt Diverge
      | S fuel =>
          let '(nc, r) := Net.Read nc need in
          match r with
          | inl e => Ok (Net.Close nc, buf, Some e)
          | inr d =>
              buf ← put_at buf (hi - need) d;
              read_loop fuel nc buf hi (need - length d)
          end
      end
  end.

(** Every call but the last takes one of the pieces that arrive. *)
Definition read_fuel (nc : netconn) : nat := S (length (n_in nc)).

Definition readPayload (c : conn) (limit : Z) : outcome (conn * (cerr + bytes)) :=
  '(nc, buf, e) ← read_loop (read_fuel (c_conn c)) (c_conn c) (c_buf c) 4 4;
  let c := mkConn buf nc (c_lastID c) in
  match e with
  | Some e => Ok (c, inl (CNet e))
  | None =>
      head ← sub buf 0 4;
      let size := i32 (get_le head) in
      if size <? 0 then Ok (Close c, inl COverflow)
      else if limit <? size then Ok (Close c, inl CTooLarge)
      else
        let size := Z.to_nat size in
        let buf := if bool_decide (length buf < size)%nat then replicate size 0 else buf in
        '(nc, buf, e) ← read_loop (read_fuel nc) nc buf size size;
        let c := mkConn buf nc (c_lastID c) in
        match e with
        | Some e => Ok (c, inl (CNet e))
        | None => payload ← sub buf 0 size; Ok (c, inr payload)
        end
  end.

(** [readPayload], then [proto.Unmarshal]: [ReadHello] and [ReadMessage]. *)
Definition read_as {A} `{Proto A} (c : conn) (limit : Z) : outcome (conn * (cerr + A)) :=
  '(c, r) ← readPayload c limit;
  Ok (c, match r with
         | inl e => inl e
         | inr payload => match unmarshal payload with None => inl CUnmarshal | Some a => inr a end
         end).
Definition ReadHello `{Proto Hello} : conn → Z → outcome (conn * (cerr + Hello)) := read_as.
Definition ReadMessage `{Proto SMessage} : conn → Z → outcome (conn * (cerr + SMessage)) := read_as.

(** [for need > 0 { n, err := c.conn.Write(buf); ...; buf = buf[n:]; need -= n }] *)
Fixpoint write_loop (fuel : nat) (nc : netconn) (buf : bytes) (need : nat) : outcome (netconn * option neterr) :=
  match need with
  | O => Ok (nc, None)
  | S _ =>
      match fuel with
      | O => Halt Diverge
      | S fuel =>
          let '(nc, r) := Net.Write nc buf in
          match r with
          | inl e => Ok (Net.Close nc, Some e)
          | inr n => write_loop fuel nc (drop n buf) (need - n)
          end
      end
  end.
Definition write_fuel (nc : netconn) : nat := S (length (n_wr nc)).

Definition WritePayload {A} `{Proto A} (c : conn) (pb : A) (limit : Z) : outcome (conn * option cerr) :=
  match marshal pb with
  | None => Ok (Close c, Some CMarshal)
  | Some payload =>
      let size := length payload in
      if limit <? Z.of_nat size then Ok (Close c, Some CTooLarge)
      else
        buf ← put_at (c_buf c) 0 (put_le 4 (u32 (Z.of_nat size)));
        let c := mkConn buf (c_conn c) (c_lastID c) in
        '(nc, e) ← write_loop (write_fuel (c_conn c)) (c_conn c) (take 4 buf) 4;
        let c := mkConn buf nc (c_lastID c) in
        match e with
        | Some e => Ok (c, Some (CNet e))
        | None =>
            '(nc, e) ← write_loop (write_fuel nc) nc payload size;
            Ok (mkConn buf nc (c_lastID c), option_map CNet e)
        end
  end.

(** [atomicid] is the counter that all connections share. *)
Definition WriteRequest `{Proto SMessage} (c : conn) (atomicid : Z) (msg : SMessage) (limit : Z)
    : outcome (conn * Z * (Z * option cerr)) :=
  let c := mkConn (c_buf c) (c_conn c) (u64 (c_lastID c + 1)) in
  let id := u64 (atomicid + 1) in
  '(c, e) ← WritePayload c (mkMessage id (m_Error msg) (m_Opcode msg) (m_Payload msg)) limit;
  Ok (c, id, (id, e)).

Definition AbnormalError (e : cerr) : bool :=
  match e with CNet NetEOF | CNet NetTimeout => false | _ => true end.
End Conn.
