(* ===== verification/LogNet.v ===== *)
(** * Shipping of log entries (src/internal/log/network.go, server.go)

    An entry is encoded as two frames, each with its length in four bytes: the entry itself,
    and its fields whose key starts with [@] once more.  The first bytes of the two buffers
    are also where numbers are encoded before they are appended ([writeUint32]).  The client
    writes through a [bufio.Writer]; the server reads the frames and prints them. *)

From S2P Require Import Prelude Messages Kv Conn GoText Log.
Import Logger.

(** ** [bufio.Writer] *)
Module Bufio.
Definition size : nat := 4096.
Record writer := mkWriter { w_buf : bytes; w_err : option neterr; w_conn : netconn }.
Definition NewWriter (c : netconn) : writer := mkWriter [] None c.

(** [ErrShortWrite] *)
Definition ShortWrite : neterr := NetFailure 1.

Definition Flush (w : writer) : writer :=
  match w_err w, w_buf w with
  | Some _, _ | _, [] => w
  | None, buf =>
      let '(c, r) := Net.Write (w_conn w) buf in
      match r with
      | inl e => mkWriter buf (Some e) c
      | inr n =>
          if bool_decide (n < length buf)%nat then mkWriter (drop n buf) (Some ShortWrite) c
          else mkWriter [] None c
      end
  end.

(** The loop of [Write] while [p] does not fit into the buffer. *)
Fixpoint fill (fuel : nat) (w : writer) (p : bytes) : outcome (writer * bytes) :=
  match w_err w with
  | Some _ => Ok (w, p)
  | None =>
      if bool_decide (length p ≤ size - length (w_buf w))%nat then Ok (w, p)
      else match fuel with
      | O => Halt Diverge
      | S fuel =>
          match w_buf w with
          | [] =>
              let '(c, r) := Net.Write (w_conn w) p in
              match r with
              | inl e => fill fuel (mkWriter [] (Some e) c) p
              | inr n => fill fuel (mkWriter [] None c) (drop n p)
              end
          | buf =>
              let n := (size - length buf)%nat in
              fill fuel (Flush (mkWriter (buf ++ take n p) None (w_conn w))) (drop n p)
          end
      end
  end.

(** Each turn is a call of [Write] of the connection. *)
Definition Write (w : writer) (p : bytes) : outcome (writer * option neterr) :=
  '(w, p) ← fill (S (S (length (n_wr (w_conn w))))) w p;
  match w_err w with
  | Some e => Ok (w, Some e)
  | None => Ok (mkWriter (w_buf w ++ p) None (w_conn w), None)
  end.
End Bufio.

(** ** The client (network.go) *)
Module LogNet.

(** [PutUint32(buf, uint32(val)); append(buf, buf[:4]...)] *)
Definition writeUint32 (buf : bytes) (val : Z) : outcome bytes :=
  buf ← put_at buf 0 (put_le 4 (u32 val));
  head ← sub buf 0 4; Ok (buf ++ head).
Definition writeUint64 (buf : bytes) (val : Z) : outcome bytes :=
  buf ← put_at buf 0 (put_le 8 (u64 val));
  head ← sub buf 0 8; Ok (buf ++ head).

(** The cases of the switch. *)
Definition writeNetValue (buf : bytes) (field : Field) : outcome bytes :=
  match typ field with
  | TypeBool => Ok (buf ++ [type_code TypeBool; if ival field =? 1 then 1 else 0])
  | TypeBools =>
      match xval field with
      | XBools val =>
          buf ← writeUint32 (buf ++ [type_code TypeBools]) (Z.of_nat (length val));
          Ok (buf ++ ((λ v : bool, if v then 1 else 0) <$> val))
      | _ => Halt Panic
      end
  | TypeErr =>
      buf ← writeUint32 (buf ++ [type_code TypeErr]) (Z.of_nat (length (sval field)));
      Ok (buf ++ sval field)
  | TypeString =>
      buf ← writeUint32 (buf ++ [type_code TypeString]) (Z.of_nat (length (sval field)));
      Ok (buf ++ sval field)
  | TypeUint32 => writeUint32 (buf ++ [type_code TypeUint32]) (u32 (ival field))
  | TypeUint64 => writeUint64 (buf ++ [type_code TypeUint64]) (u64 (ival field))
  | _ => Halt Panic
  end.

Definition writeNetField (bufs : bytes * bytes) (field : Field) : outcome (bytes * bytes) :=
  let '(buf, pbuf) := bufs in
  buf ← writeUint32 buf (Z.of_nat (length (key field)));
  let buf := buf ++ key field in
  c ← or_panic (head (key field));
  let idx := length buf in
  buf ← writeNetValue buf field;
  if c =? 64 then
    value ← sub buf idx (length buf);
    Ok (buf, pbuf ++ key field ++ value)
  else Ok (buf, pbuf).
Definition writeNetFields (buf pbuf : bytes) (fields : list Field) : outcome (bytes * bytes) :=
  range writeNetField (buf, pbuf) fields.

(** The buffers of an entry; [buf] and [pbuf] are the ones of the entry before. *)
Definition encode (buf pbuf : bytes) (e : entry) : outcome (bytes * bytes) :=
  buf ← sub buf 0 8;
  pbuf ← sub pbuf 0 4;
  let buf := buf ++ [u8 (level e)] in
  buf ← writeUint32 buf (Z.of_nat (length (text e)));
  let buf := buf ++ text e in
  let flen := Z.of_nat (length (parfields e)) + Z.of_nat (length (fields e)) in
  buf ← writeUint32 buf flen;
  '(buf, pbuf) ←
    (if 0 <? flen then
       '(buf, pbuf) ← (if nonempty (parfields e) then writeNetFields buf pbuf (parfields e) else Ok (buf, pbuf));
       (if nonempty (fields e) then writeNetFields buf pbuf (fields e) else Ok (buf, pbuf))
     else Ok (buf, pbuf));
  buf ← put_at buf 4 (put_le 4 (u32 (Z.of_nat (length buf) - 8)));
  Ok (buf, pbuf).

(** The state of the loop of [writeNetEntries]; [nt_c] is nil without a connection. *)
Record nettask := mkTask { nt_backoff : Z; nt_bc : option Bufio.writer; nt_buf : bytes; nt_pbuf : bytes }.
Definition init : nettask := mkTask 0 None (replicate 8 0) (replicate 4 0).

Definition seconds : Z := 1000000000.
Definition maxBackoff : Z := 5 * seconds.

(** [for c == nil]: the results of [net.Dial] in turn, and the times slept; [None]: all of them
    failed, and it goes on dialling. *)
Fixpoint dial (dials : list (option netconn)) (backoff : Z) (slept : list Z)
    : option Bufio.writer * Z * list (option netconn) * list Z :=
  match dials with
  | [] => (None, backoff, [], slept)
  | r :: dials =>
      let backoff := if backoff =? maxBackoff then backoff else backoff + seconds in
      match r with
      | None => dial dials backoff (slept ++ [backoff])
      | Some c => (Some (Bufio.NewWriter c), 0, dials, slept)
      end
  end.
Definition connect (t : nettask) (dials : list (option netconn)) : nettask * list (option netconn) * list Z :=
  match nt_bc t with
  | Some _ => (t, dials, [])
  | None =>
      let '(bc, backoff, dials, slept) := dial dials (nt_backoff t) [] in
      (mkTask backoff bc (nt_buf t) (nt_pbuf t), dials, slept)
  end.

(** One turn of the outer loop with an entry on a connection: whether it was written. *)
Definition send (t : nettask) (w : Bufio.writer) (e : entry) : outcome (nettask * bool) :=
  '(buf, pbuf) ← encode (nt_buf t) (nt_pbuf t) e;
  frame ← sub buf 4 (length buf);
  '(w, err) ← Bufio.Write w frame;
  match err with
  | Some _ => Ok (mkTask (nt_backoff t) None buf pbuf, false)
  | None =>
      pbuf ← put_at pbuf 0 (put_le 4 (u32 (Z.of_nat (length pbuf) - 4)));
      '(w, err) ← Bufio.Write w pbuf;
      match err with
      | Some _ => Ok (mkTask (nt_backoff t) None buf pbuf, false)
      | None => Ok (mkTask (nt_backoff t) (Some w) buf pbuf, true)
      end
  end.

(** An entry is sent until a connection takes it; [dials] are the results of the next calls of
    [net.Dial].  When its connection fails the entry is encoded again for the next one. *)
Fixpoint send_entry (fuel : nat) (t : nettask) (dials : list (option netconn)) (e : entry)
    : outcome (nettask * list (option netconn) * bool) :=
  let '(t, dials, _) := connect t dials in
  match nt_bc t with
  | None => Ok (t, dials, false)
  | Some w =>
      '(t, ok) ← send t w e;
      if ok : bool then Ok (t, dials, true)
      else match fuel with O => Halt Diverge | S fuel => send_entry fuel t dials e end
  end.

(** The entries that come in over the channel; every further connection takes one of [dials]. *)
Fixpoint writeNetEntries (t : nettask) (dials : list (option netconn)) (es : list entry)
    : outcome (nettask * list (option netconn)) :=
  match es with
  | [] => Ok (t, dials)
  | e :: es =>
      '(t, dials, ok) ← send_entry (S (length dials)) t dials e;
      if ok : bool then writeNetEntries t dials es else Ok (t, dials)
  end.

(** ** The server (server.go) *)

(** [total := 0; for total < size { n, err := r.Read(buf[total:size]); ...; total += n }];
    what the [bufio.Reader] gives are the pieces of [nc]. *)
Fixpoint read_full (fuel : nat) (nc : netconn) (buf : bytes) (total sz : nat)
    : outcome (netconn * bytes * option neterr) :=
  if bool_decide (total < sz)%nat then
    match fuel with
    | O => Halt Diverge
    | S fuel =>
        let '(nc, r) := Net.Read nc (sz - total) in
        match r with
        | inl e => Ok (nc, buf, Some e)
        | inr d => buf ← put_at buf total d; read_full fuel nc buf (total + length d) sz
        end
    end
  else Ok (nc, buf, None).

(** A frame: its length into [buf4], then the rest into a buffer that is large enough. *)
Definition read_frame (nc : netconn) (buf4 buf : bytes) : outcome (netconn * bytes * bytes * option neterr) :=
  '(nc, buf4, e) ← read_full (Conn.read_fuel nc) nc buf4 0 4;
  match e with
  | Some e => Ok (nc, buf4, buf, Some e)
  | None =>
      let sz := Z.to_nat (get_le buf4) in
      let buf := if bool_decide (length buf < sz)%nat then replicate sz 0 else buf in
      '(nc, buf, e) ← read_full (Conn.read_fuel nc) nc buf 0 sz;
      Ok (nc, buf4, buf, e)
  end.

(** The pairs of buffers that [handle] prints until reading fails. *)
Fixpoint handle_loop (fuel : nat) (nc : netconn) (buf4 buf pbuf : bytes) (printed : list (bytes * bytes))
    : outcome (netconn * list (bytes * bytes)) :=
  match fuel with
  | O => Halt Diverge
  | S fuel =>
      '(nc, buf4, buf, e) ← read_frame nc buf4 buf;
      match e with
      | Some _ => Ok (nc, printed)
      | None =>
          '(nc, buf4, pbuf, e) ← read_frame nc buf4 pbuf;
          match e with
          | Some _ => Ok (nc, printed)
          | None => handle_loop fuel nc buf4 buf pbuf (printed ++ [(pbuf, buf)])
          end
      end
  end.
(** Every turn takes a byte or more off the connection. *)
Definition in_size (nc : netconn) : nat :=
  sum_list_with (λ r, match r with Got d => length d | ReadErr _ => 0%nat end) (n_in nc).
Definition handle (nc : netconn) : outcome (netconn * list (bytes * bytes)) :=
  handle_loop (S (in_size nc)) nc (replicate 4 0) (replicate 1024 0) (replicate 1024 0) [].
End LogNet.
