(* ===== verification/ConnProps.v ===== *)
(** * Frames on a connection: chunking, limits and order *)

From S2P Require Import Prelude Kv Conn.
Import Conn.

(** ** The read loop *)

(** The bytes that have arrived, in pieces. *)
Definition arrives (nc : netconn) (chunks : list bytes) : Prop := n_in nc = Got <$> chunks ∧ n_closed nc = false.

(** Reading changes only the input. *)
Definition consumed (nc nc' : netconn) : Prop :=
  n_wr nc' = n_wr nc ∧ n_out nc' = n_out nc.

Lemma take_put_more (buf buf1 x y : bytes) (lo hi need n : nat) :
  (need ≤ hi)%nat → lo = (hi - need)%nat → (n ≤ need)%nat →
  take (lo + n) buf1 = take lo buf ++ x →
  take (hi - (need - n)) buf1 ++ y = take lo buf ++ x ++ y.
Proof.
  intros Hle -> Hn E. replace (hi - (need - n))%nat with (hi - need + n)%nat by lia.
  by rewrite E, (assoc_L (++)).
Qed.

Lemma read_loop_chunks fuel : ∀ nc buf hi need chunks,
  arrives nc chunks → (length chunks < fuel)%nat → (need ≤ hi ≤ length buf)%nat →
  (need ≤ length (mjoin chunks))%nat →
  ∃ nc' buf' chunks', read_loop fuel nc buf hi need = Ok (nc', buf', None) ∧
    arrives nc' chunks' ∧ consumed nc nc' ∧ mjoin chunks' = drop need (mjoin chunks) ∧
    length buf' = length buf ∧ take hi buf' = take (hi - need) buf ++ take need (mjoin chunks).
Proof.
  induction fuel as [|fuel IH]; intros nc buf hi need chunks [Hin Hc] Hf Hn Hlen; [lia|].
  destruct need as [|k]; cbn [read_loop].
  { exists nc, buf, chunks. split_and!; try done. by rewrite Nat.sub_0_r, app_nil_r. }
  destruct chunks as [|d chunks]; [simpl in Hlen; lia|].
  change (mjoin (M:=list) (d :: chunks)) with (d ++ mjoin chunks) in *.
  unfold Net.Read. rewrite Hc, Hin. cbn [fmap list_fmap]. rewrite length_app in Hlen.
  case_bool_decide as Hd.
  - destruct (put_at_Ok buf (hi - S k) d) as (b1 & E1 & L1 & T1); [lia|]. rewrite E1. cbn [mbind outcome_bind].
    destruct (IH (Net.set_in nc (Got <$> chunks)) b1 hi (S k - length d)%nat chunks)
      as (nc' & buf' & chunks' & E & Ha & Hco & Hj & L & T); [done|simpl in Hf; lia|lia|lia|].
    exists nc', buf', chunks'. rewrite E. split_and!; try done.
    + rewrite Hj, drop_app_ge by lia. done.
    + by rewrite L.
    + rewrite T, take_app_ge by lia. eapply take_put_more; try lia; done.
  - destruct (put_at_Ok buf (hi - S k) (take (S k) d)) as (b1 & E1 & L1 & T1); [rewrite length_take; lia|].
    rewrite E1. cbn [mbind outcome_bind]. rewrite length_take_le in T1 |- * by lia.
    rewrite Nat.sub_diag. exists (Net.set_in nc (Got (drop (S k) d) :: (Got <$> chunks))), b1, (drop (S k) d :: chunks).
    split_and!; try done.
    + by destruct fuel.
    + change (mjoin (M:=list) (drop (S k) d :: chunks)) with (drop (S k) d ++ mjoin chunks).
      by rewrite drop_app_le by lia.
    + rewrite take_app_le by lia. rewrite <- T1. f_equal. lia.
Qed.

(** Whatever the network does, the loop ends, and an error has closed the connection. *)
Lemma read_loop_total fuel : ∀ nc buf hi need,
  (length (n_in nc) < fuel)%nat → (need ≤ hi ≤ length buf)%nat →
  ∃ nc' buf' e, read_loop fuel nc buf hi need = Ok (nc', buf', e) ∧
    length buf' = length buf ∧ (e ≠ None → n_closed nc' = true) ∧
    (length (n_in nc') ≤ length (n_in nc))%nat.
Proof.
  induction fuel as [|fuel IH]; intros nc buf hi need Hf Hn; [lia|].
  destruct need as [|k]; cbn [read_loop]; [by exists nc, buf, None|].
  unfold Net.Read. destruct (n_closed nc) eqn:Hc; [by exists (Net.Close nc), buf, (Some (NetFailure 0))|].
  destruct (n_in nc) as [|[d|e] ins] eqn:Hin.
  - exists (Net.Close nc), buf, (Some NetTimeout). simpl. by rewrite Hin.
  - case_bool_decide as Hd.
    + destruct (put_at_Ok buf (hi - S k) d) as (b1 & -> & L1 & _); [lia|]. cbn [mbind outcome_bind].
      destruct (IH (Net.set_in nc ins) b1 hi (S k - length d)%nat) as (nc' & buf' & e & E & L & He & Hl);
        [simpl in *; lia..|].
      exists nc', buf', e. rewrite E. simpl in *. split_and!; [done|congruence|done|lia].
    + destruct (put_at_Ok buf (hi - S k) (take (S k) d)) as (b1 & -> & L1 & _); [rewrite length_take; lia|].
      cbn [mbind outcome_bind]. rewrite length_take_le by lia. rewrite Nat.sub_diag.
      exists (Net.set_in nc (Got (drop (S k) d) :: ins)), b1, None. destruct fuel; simpl; split_and!; done || lia.
  - exists (Net.Close (Net.set_in nc ins)), buf, (Some e). simpl. split_and!; done || lia.
Qed.

(** Too few bytes: the loop waits until the deadline. *)
Lemma read_loop_starved fuel : ∀ nc buf hi need chunks,
  arrives nc chunks → (length chunks < fuel)%nat → (need ≤ hi ≤ length buf)%nat →
  (length (mjoin chunks) < need)%nat →
  ∃ nc' buf', read_loop fuel nc buf hi need = Ok (nc', buf', Some NetTimeout) ∧ n_out nc' = n_out nc.
Proof.
  induction fuel as [|fuel IH]; intros nc buf hi need chunks [Hin Hc] Hf Hn Hlen; [lia|].
  destruct need as [|k]; [lia|]. cbn [read_loop]. unfold Net.Read. rewrite Hc, Hin.
  destruct chunks as [|d chunks]; [by eexists _, _|].
  change (mjoin (M:=list) (d :: chunks)) with (d ++ mjoin chunks) in *. rewrite length_app in Hlen.
  cbn [fmap list_fmap]. rewrite bool_decide_eq_true_2 by lia.
  destruct (put_at_Ok buf (hi - S k) d) as (b1 & -> & L1 & _); [lia|]. cbn [mbind outcome_bind].
  destruct (IH (Net.set_in nc (Got <$> chunks)) b1 hi (S k - length d)%nat chunks)
    as (nc' & buf' & E & Ho); [done|simpl in Hf; lia|lia|lia|].
  by exists nc', buf'.
Qed.

(** ** Reading a frame *)
Definition frame (p : bytes) : bytes := put_le 4 (Z.of_nat (length p)) ++ p.

Lemma sub_take s i : (i ≤ length s)%nat → sub s 0 i = Ok (take i s).
Proof. intros H. unfold sub. rewrite bool_decide_eq_true_2 by lia. by rewrite Nat.sub_0_r. Qed.

(** [c] is open and its buffer holds a header; [chunks] arrive. *)
Record readable (c : conn) (chunks : list bytes) : Prop := {
  rd_in : arrives (c_conn c) chunks;
  rd_buf : (4 ≤ length (c_buf c))%nat }.

(** The two loops on a frame: the header, and then the payload into any buffer that is
    large enough. *)
Lemma read_exact nc buf chunks n :
  arrives nc chunks → (n ≤ length buf)%nat → (n ≤ length (mjoin chunks))%nat →
  ∃ nc' buf' chunks', read_loop (read_fuel nc) nc buf n n = Ok (nc', buf', None) ∧ arrives nc' chunks' ∧
    consumed nc nc' ∧ mjoin chunks' = drop n (mjoin chunks) ∧ length buf' = length buf ∧
    sub buf' 0 n = Ok (take n (mjoin chunks)).
Proof.
  intros Hin Hb Hl.
  destruct (read_loop_chunks (read_fuel nc) nc buf n n chunks) as (nc' & buf' & ch & E & Ha & Hco & Hj & L & T);
    [done| |lia|done|].
  { unfold read_fuel. destruct Hin as [-> _]. rewrite length_fmap. lia. }
  exists nc', buf', ch. rewrite sub_take by lia. rewrite Nat.sub_diag, take_0, app_nil_l in T. by rewrite T.
Qed.

Lemma frame_header (p : bytes) : Z.of_nat (length p) < 2 ^ 31 → i32 (get_le (put_le 4 (Z.of_nat (length p)))) = Z.of_nat (length p).
Proof. intros Hp. rewrite get_put_le_small, i32_small by lia. done. Qed.

Lemma readPayload_frame c limit chunks p rest :
  readable c chunks → mjoin chunks = frame p ++ rest →
  Z.of_nat (length p) ≤ limit → Z.of_nat (length p) < 2 ^ 31 →
  ∃ c' chunks', readPayload c limit = Ok (c', inr p) ∧ readable c' chunks' ∧ mjoin chunks' = rest ∧
    consumed (c_conn c) (c_conn c').
Proof.
  intros [Hin Hb] Hj Hl Hp. unfold readPayload, frame in *. rewrite <- (assoc_L (++)) in Hj.
  destruct (read_exact (c_conn c) (c_buf c) chunks 4) as (nc & buf & ch & -> & Ha & Hco & Hj1 & L & S1);
    [done|done|rewrite Hj, length_app, length_put_le; lia|].
  cbn [mbind outcome_bind c_buf]. rewrite S1. cbn [mbind outcome_bind].
  rewrite Hj, drop_app_length' in Hj1 by (by rewrite length_put_le).
  rewrite Hj, take_app_length', frame_header by (done || by rewrite length_put_le).
  destruct (Z.ltb_spec (Z.of_nat (length p)) 0); [lia|].
  destruct (Z.ltb_spec limit (Z.of_nat (length p))); [lia|]. rewrite Nat2Z.id.
  set (buf1 := if bool_decide _ then _ else _).
  assert (length p ≤ length buf1 ∧ 4 ≤ length buf1)%nat as [Lb Lb'].
  { unfold buf1. case_bool_decide; rewrite ?length_replicate; lia. }
  destruct (read_exact nc buf1 ch (length p)) as (nc' & buf' & ch' & -> & Ha' & Hco' & Hj2 & L' & S2);
    [done|done|rewrite Hj1, length_app; lia|].
  cbn [mbind outcome_bind]. rewrite S2, Hj1, take_app_length. cbn [mbind outcome_bind].
  eexists _, ch'. split_and!; [done|split; [done|simpl; lia]|by rewrite Hj2, Hj1, drop_app_length|].
  unfold consumed in *. simpl. destruct Hco, Hco'. split; congruence.
Qed.

Lemma readPayload_starved c limit chunks :
  readable c chunks → mjoin chunks = [] →
  ∃ c', readPayload c limit = Ok (c', inl (CNet NetTimeout)) ∧ n_out (c_conn c') = n_out (c_conn c).
Proof.
  intros [Hin Hb] Hj. unfold readPayload.
  destruct (read_loop_starved (read_fuel (c_conn c)) (c_conn c) (c_buf c) 4 4 chunks)
    as (nc & buf & -> & Ho); [done| |lia|rewrite Hj; simpl; lia|].
  { unfold read_fuel. destruct Hin as [-> _]. rewrite length_fmap. lia. }
  by eexists.
Qed.

(** C25: Whatever the network delivers, readPayload terminates without a panic; it gives a
    payload within the limit and below two gigabytes, or an error after which the connection is
    closed. *)
Theorem readPayload_total c limit :
  (4 ≤ length (c_buf c))%nat →
  ∃ c' r, readPayload c limit = Ok (c', r) ∧ (4 ≤ length (c_buf c'))%nat ∧
    (length (n_in (c_conn c')) ≤ length (n_in (c_conn c)))%nat ∧
    match r with
    | inl _ => n_closed (c_conn c') = true
    | inr p => Z.of_nat (length p) ≤ limit ∧ Z.of_nat (length p) < 2 ^ 31
    end.
Proof.
  intros Hb. unfold readPayload.
  destruct (read_loop_total (read_fuel (c_conn c)) (c_conn c) (c_buf c) 4 4)
    as (nc & buf & e & -> & L & He & Hl); [unfold read_fuel; lia..|]. cbn [mbind outcome_bind c_buf c_conn].
  destruct e as [e|].
  { eexists _, _. split; [done|]. simpl. split_and!; [lia|done|by apply He]. }
  rewrite sub_take by lia. cbn [mbind outcome_bind]. set (size := i32 _).
  destruct (Z.ltb_spec size 0). { eexists _, _. split; [done|]. simpl. split_and!; done || lia. }
  destruct (Z.ltb_spec limit size). { eexists _, _. split; [done|]. simpl. split_and!; done || lia. }
  set (buf1 := if bool_decide _ then _ else _).
  assert (Z.to_nat size ≤ length buf1 ∧ 4 ≤ length buf1)%nat as [Lb Lb'].
  { unfold buf1. case_bool_decide; rewrite ?length_replicate; lia. }
  destruct (read_loop_total (read_fuel nc) nc buf1 (Z.to_nat size) (Z.to_nat size))
    as (nc' & buf' & e' & -> & L' & He' & Hl'); [unfold read_fuel; lia..|]. cbn [mbind outcome_bind].
  destruct e' as [e'|].
  { eexists _, _. split; [done|]. simpl. split_and!; [lia|lia|by apply He']. }
  rewrite sub_take by lia. cbn [mbind outcome_bind]. eexists _, _. split; [done|]. cbn [c_buf c_conn].
  split_and!; [lia|lia| |]; rewrite length_take_le by lia; [lia|].
  pose proof (i32_lt (get_le (take 4 buf))). unfold size in *. lia.
Qed.

(** ** Writing a frame *)

(** [c] is open, its buffer holds a header, and no write of the network fails. *)
Record writable (c : conn) : Prop := {
  wr_open : n_closed (c_conn c) = false;
  wr_took : Forall (λ w, ∃ n, w = Took n) (n_wr (c_conn c));
  wr_buf : (4 ≤ length (c_buf c))%nat }.

Lemma write_loop_all fuel : ∀ nc data,
  n_closed nc = false → Forall (λ w, ∃ n, w = Took n) (n_wr nc) → (length (n_wr nc) < fuel)%nat →
  ∃ nc', write_loop fuel nc data (length data) = Ok (nc', None) ∧ n_out nc' = n_out nc ++ data ∧
    n_in nc' = n_in nc ∧ n_closed nc' = false ∧ Forall (λ w, ∃ n, w = Took n) (n_wr nc').
Proof.
  induction fuel as [|fuel IH]; intros nc data Hc Hw Hf; [lia|]. destruct data as [|x data].
  { exists nc. by rewrite app_nil_r. }
  cbn [write_loop length]. unfold Net.Write. rewrite Hc. destruct (n_wr nc) as [|w ws].
  - rewrite drop_ge, Nat.sub_diag by done. eexists. split; [by destruct fuel|]. by split_and!.
  - apply Forall_cons in Hw as [[n ->] Hws]. set (l := x :: data). rewrite length_take.
    replace (S (length data) - min n (length l))%nat with (length (drop (min n (length l)) l))
      by (rewrite length_drop; done).
    edestruct (IH (mkNet (n_in nc) ws (n_out nc ++ take n l) false)) as (nc' & E & Ho & Hi & Hc' & Hw');
      [done|done|simpl in *; lia|].
    exists nc'. rewrite E. split_and!; try done. rewrite Ho. cbn [n_out]. rewrite <- (assoc_L (++)). f_equal.
    destruct (Nat.le_gt_cases (length l) n).
    + by rewrite Nat.min_r, drop_ge, take_ge, app_nil_r by lia.
    + by rewrite Nat.min_l, take_drop by lia.
Qed.

Lemma WritePayload_frame {A} `{Proto A} c (pb : A) limit p :
  writable c → marshal pb = Some p → Z.of_nat (length p) ≤ limit → Z.of_nat (length p) < 2 ^ 32 →
  ∃ c', WritePayload c pb limit = Ok (c', None) ∧ writable c' ∧
    n_out (c_conn c') = n_out (c_conn c) ++ frame p ∧ n_in (c_conn c') = n_in (c_conn c).
Proof.
  intros [Hc Hw Hb] Hm Hl Hp. unfold WritePayload. rewrite Hm.
  destruct (Z.ltb_spec limit (Z.of_nat (length p))); [lia|]. rewrite u32_small by (unfold is_u32; lia).
  destruct (put_at_Ok (c_buf c) 0 (put_le 4 (Z.of_nat (length p)))) as (buf & -> & L & T);
    [rewrite length_put_le; lia|].
  cbn [mbind outcome_bind c_conn]. rewrite take_0, app_nil_l, Nat.add_0_l, length_put_le in T. rewrite T.
  destruct (write_loop_all (write_fuel (c_conn c)) (c_conn c) (put_le 4 (Z.of_nat (length p))))
    as (nc & E & Ho & Hi & Hc' & Hw'); [done|done|unfold write_fuel; lia|].
  rewrite length_put_le in E. rewrite E. cbn [mbind outcome_bind].
  destruct (write_loop_all (write_fuel nc) nc p) as (nc' & E' & Ho' & Hi' & Hc'' & Hw'');
    [done|done|unfold write_fuel; lia|].
  rewrite E'. cbn [mbind outcome_bind]. eexists. split; [done|].
  split_and!; [split; simpl; done || lia|simpl; unfold frame; by rewrite Ho', Ho, (assoc_L (++))|].
  simpl. congruence.
Qed.

(** ** Messages arrive as they were sent *)
Section Messages.
Context {A : Type} `{Proto A}.

Fixpoint write_all (c : conn) (msgs : list A) (limit : Z) : outcome (conn * option cerr) :=
  match msgs with
  | [] => Ok (c, None)
  | msg :: msgs =>
      '(c, e) ← WritePayload c msg limit;
      match e with Some e => Ok (c, Some e) | None => write_all c msgs limit end
  end.

Fixpoint read_all (n : nat) (c : conn) (limit : Z) : outcome (conn * (cerr + list A)) :=
  match n with
  | O => Ok (c, inr [])
  | S n =>
      '(c, r) ← read_as c limit;
      match r with
      | inl e => Ok (c, inl e)
      | inr msg =>
          '(c, r) ← read_all n c limit;
          Ok (c, match r with inl e => inl e | inr msgs => inr (msg :: msgs) end)
      end
  end.

(** The message can be encoded and its encoding is within the limit. *)
Definition fits (limit : Z) (msg : A) (p : bytes) : Prop :=
  marshal msg = Some p ∧ Z.of_nat (length p) ≤ limit.

Lemma write_all_frames msgs : ∀ c limit ps,
  writable c → limit < 2 ^ 31 → Forall2 (fits limit) msgs ps →
  ∃ c', write_all c msgs limit = Ok (c', None) ∧ writable c' ∧
    n_out (c_conn c') = n_out (c_conn c) ++ mjoin (frame <$> ps).
Proof.
  induction msgs as [|msg msgs IH]; intros c limit ps Hc Hl HF; inversion HF as [|? p ? ps' [Hm Hp] HF']; subst.
  { exists c. simpl. by rewrite app_nil_r. }
  destruct (WritePayload_frame c msg limit p) as (c1 & E & Hc1 & Ho & _); [done|done|done|lia|].
  destruct (IH c1 limit ps') as (c' & E' & Hc' & Ho'); [done|done|done|].
  exists c'. cbn [write_all]. rewrite E. cbn [mbind outcome_bind]. split_and!; [done|done|].
  rewrite Ho', Ho, <- (assoc_L (++)). done.
Qed.

Context `{!ProtoLaws A}.
Lemma read_all_frames msgs : ∀ c limit ps chunks rest,
  readable c chunks → mjoin chunks = mjoin (frame <$> ps) ++ rest → limit < 2 ^ 31 →
  Forall2 (fits limit) msgs ps →
  ∃ c' chunks', read_all (length msgs) c limit = Ok (c', inr msgs) ∧ readable c' chunks' ∧ mjoin chunks' = rest.
Proof using All.
  induction msgs as [|msg msgs IH]; intros c limit ps chunks rest Hc Hj Hl HF;
    inversion HF as [|? p ? ps' [Hm Hp] HF']; subst; [by exists c, chunks|].
  destruct (readPayload_frame c limit chunks p (mjoin (frame <$> ps') ++ rest))
    as (c1 & ch1 & E & Hc1 & Hj1 & _); [done|by rewrite Hj, (assoc_L (++))|done|lia|].
  destruct (IH c1 limit ps' ch1 rest) as (c' & ch' & E' & Hc' & Hj'); [done|done|done|done|].
  exists c', ch'. split; [|done]. cbn [read_all length]. unfold read_as. rewrite E. cbn [mbind outcome_bind].
  rewrite (unmarshal_marshal _ _ Hm). cbn [mbind outcome_bind]. by rewrite E'.
Qed.

(** C24: Messages written with WritePayload are read back by the other side as the same messages
    in the same order, whatever the sizes of the partial writes and of the pieces in which the
    bytes arrive. *)
Theorem messages_arrive_in_order sender receiver limit msgs ps chunks :
  writable sender → readable receiver chunks → limit < 2 ^ 31 → Forall2 (fits limit) msgs ps →
  ∃ sender', write_all sender msgs limit = Ok (sender', None) ∧
    (n_out (c_conn sender') = n_out (c_conn sender) ++ mjoin chunks →
     ∃ receiver', read_all (length msgs) receiver limit = Ok (receiver', inr msgs)).
Proof using All.
  intros Hs Hr Hl HF. destruct (write_all_frames msgs sender limit ps Hs Hl HF) as (s' & E & _ & Ho).
  exists s'. split; [done|]. intros Hch. rewrite Ho in Hch. apply app_inv_head in Hch.
  destruct (read_all_frames msgs receiver limit ps chunks []) as (r' & _ & E' & _); [done| |done|done|by exists r'].
  by rewrite app_nil_r.
Qed.
End Messages.
