(* ===== verification/LogNetProps.v ===== *)
(** * Shipped log entries: what is written, and what the server gets

    [payload e] and [index e] are the contents of the two frames of an entry. *)

From S2P Require Import Prelude Messages Kv Conn ConnProps Log LogNet.
Import Logger LogNet.

(** ** The buffers *)

(** A number is encoded at the start of the buffer and appended. *)
Lemma scratch_app h body (x : bytes) :
  (length x ≤ length h)%nat → ∃ h', length h' = length h ∧
    (buf ← put_at (h ++ body) 0 x; head ← sub buf 0 (length x); Ok (buf ++ head)) = Ok (h' ++ body ++ x).
Proof.
  intros Hx. unfold put_at. rewrite bool_decide_eq_true_2 by (rewrite length_app; lia).
  rewrite take_0, app_nil_l, Nat.add_0_l, drop_app_le by lia. cbn [mbind outcome_bind].
  rewrite sub_take, take_app_length by (rewrite length_app; lia). cbn [mbind outcome_bind].
  exists (x ++ drop (length x) h). split; [rewrite length_app, length_drop; lia|]. by rewrite <- !(assoc_L (++)).
Qed.

Lemma writeUint32_app h body v :
  length h = 8%nat → ∃ h', length h' = 8%nat ∧ writeUint32 (h ++ body) v = Ok (h' ++ body ++ put_le 4 (u32 v)).
Proof.
  intros Hh. destruct (scratch_app h body (put_le 4 (u32 v))) as (h' & L & E); [rewrite length_put_le; lia|].
  exists h'. by rewrite <- E, length_put_le, L.
Qed.
Lemma writeUint64_app h body v :
  length h = 8%nat → ∃ h', length h' = 8%nat ∧ writeUint64 (h ++ body) v = Ok (h' ++ body ++ put_le 8 (u64 v)).
Proof.
  intros Hh. destruct (scratch_app h body (put_le 8 (u64 v))) as (h' & L & E); [rewrite length_put_le; lia|].
  exists h'. by rewrite <- E, length_put_le, L.
Qed.

(** ** Fields *)

(** The values the network encoding has a case for. *)
Inductive netvalue :=
  | NBool (v : bool) | NBools (v : list bool) | NErr (s : bytes) | NString (s : bytes)
  | NUint32 (v : Z) | NUint64 (v : Z).
Definition view (f : Field) : option netvalue :=
  match typ f, xval f with
  | TypeBool, _ => Some (NBool (ival f =? 1))
  | TypeBools, XBools v => Some (NBools v)
  | TypeErr, _ => Some (NErr (sval f))
  | TypeString, _ => Some (NString (sval f))
  | TypeUint32, _ => Some (NUint32 (u32 (ival f)))
  | TypeUint64, _ => Some (NUint64 (u64 (ival f)))
  | _, _ => None
  end.

Definition flag (v : bool) : Z := if v then 1 else 0.
Definition le32 (n : nat) : bytes := put_le 4 (u32 (Z.of_nat n)).
Definition value_bytes (v : netvalue) : bytes :=
  match v with
  | NBool v => [type_code TypeBool; flag v]
  | NBools v => type_code TypeBools :: le32 (length v) ++ (flag <$> v)
  | NErr s => type_code TypeErr :: le32 (length s) ++ s
  | NString s => type_code TypeString :: le32 (length s) ++ s
  | NUint32 v => type_code TypeUint32 :: put_le 4 v
  | NUint64 v => type_code TypeUint64 :: put_le 8 v
  end.

(** A number after the type of the field. *)
Lemma tagged32 h body c v : length h = 8%nat →
  ∃ h', length h' = 8%nat ∧ writeUint32 ((h ++ body) ++ [c]) v = Ok (h' ++ body ++ c :: put_le 4 (u32 v)).
Proof.
  intros Hh. rewrite <- (assoc_L (++)). destruct (writeUint32_app h (body ++ [c]) v Hh) as (h' & Hh' & ->).
  exists h'. by rewrite <- !(assoc_L (++)).
Qed.
Lemma tagged64 h body c v : length h = 8%nat →
  ∃ h', length h' = 8%nat ∧ writeUint64 ((h ++ body) ++ [c]) v = Ok (h' ++ body ++ c :: put_le 8 (u64 v)).
Proof.
  intros Hh. rewrite <- (assoc_L (++)). destruct (writeUint64_app h (body ++ [c]) v Hh) as (h' & Hh' & ->).
  exists h'. by rewrite <- !(assoc_L (++)).
Qed.

Lemma writeNetValue_app h body f v :
  length h = 8%nat → view f = Some v →
  ∃ h', length h' = 8%nat ∧ writeNetValue (h ++ body) f = Ok (h' ++ body ++ value_bytes v).
Proof.
  intros Hh Hv. unfold view in Hv. unfold writeNetValue.
  destruct (typ f); try discriminate Hv;
    try match type of Hv with context [xval f] =>
      destruct (xval f) as [|bs| | | | | | | | | | |]; try discriminate Hv end; injection Hv as <-.
  - exists h. split; [done|]. by rewrite <- (assoc_L (++)).
  - destruct (tagged32 h body (type_code TypeBools) (Z.of_nat (length bs)) Hh) as (h' & Hh' & ->).
    exists h'. split; [done|]. cbn [mbind outcome_bind]. by rewrite <- !(assoc_L (++)).
  - destruct (tagged32 h body (type_code TypeErr) (Z.of_nat (length (sval f))) Hh) as (h' & Hh' & ->).
    exists h'. split; [done|]. cbn [mbind outcome_bind]. by rewrite <- !(assoc_L (++)).
  - destruct (tagged32 h body (type_code TypeString) (Z.of_nat (length (sval f))) Hh) as (h' & Hh' & ->).
    exists h'. split; [done|]. cbn [mbind outcome_bind]. by rewrite <- !(assoc_L (++)).
  - destruct (tagged32 h body (type_code TypeUint32) (u32 (ival f)) Hh) as (h' & Hh' & ->).
    exists h'. by rewrite (u32_small (u32 _)) by apply u32_range.
  - destruct (tagged64 h body (type_code TypeUint64) (u64 (ival f)) Hh) as (h' & Hh' & ->).
    exists h'. by rewrite (u64_small (u64 _)) by apply u64_range.
Qed.

(** The end of a slice. *)
Lemma sub_end (p v : bytes) i j : i = length p → j = length (p ++ v) → sub (p ++ v) i j = Ok v.
Proof.
  intros -> ->. rewrite <- (app_nil_r v) at 1. rewrite length_app. apply sub_app.
Qed.

(** A key and a value; the key is not empty. *)
Abbreviation kv := (bytes * netvalue)%type.
Definition shipped (f : Field) : option kv :=
  match key f with [] => None | k => (λ v, (k, v)) <$> view f end.
Definition field_bytes (x : kv) : bytes := le32 (length x.1) ++ x.1 ++ value_bytes x.2.
Definition index_bytes (x : kv) : bytes :=
  if bool_decide (head x.1 = Some 64) then x.1 ++ value_bytes x.2 else [].

Lemma writeNetField_app h body pb f x :
  length h = 8%nat → shipped f = Some x →
  ∃ h', length h' = 8%nat ∧
    writeNetField (h ++ body, pb) f = Ok (h' ++ body ++ field_bytes x, pb ++ index_bytes x).
Proof.
  intros Hh Hx. unfold shipped in Hx. destruct (key f) as [|c k] eqn:Ek; [done|].
  destruct (view f) as [v|] eqn:Ev; simplify_eq/=. unfold writeNetField. rewrite Ek.
  destruct (writeUint32_app h body (Z.of_nat (length (c :: k))) Hh) as (h1 & H1 & ->). cbn [mbind outcome_bind head or_panic].
  rewrite <- !(assoc_L (++)).
  destruct (writeNetValue_app h1 (body ++ le32 (length (c :: k)) ++ c :: k) f v H1 Ev) as (h2 & H2 & E2).
  unfold le32 in E2. rewrite E2. cbn [mbind outcome_bind].
  exists h2. split; [done|]. unfold field_bytes, index_bytes, le32. cbn [fst snd head]. rewrite <- !(assoc_L (++)).
  destruct (Z.eqb_spec c 64) as [->|Hc].
  - rewrite bool_decide_eq_true_2 by done.
    match goal with |- context [sub ?s ?i ?j] => assert (sub s i j = Ok (value_bytes v)) as -> end; [|done].
    rewrite !(assoc_L (++)). apply sub_end; rewrite !length_app; cbn; lia.
  - rewrite bool_decide_eq_false_2 by congruence. by rewrite app_nil_r.
Qed.

Lemma writeNetFields_app fs : ∀ h body pb xs,
  length h = 8%nat → mapM shipped fs = Some xs →
  ∃ h', length h' = 8%nat ∧
    writeNetFields (h ++ body) pb fs = Ok (h' ++ body ++ (xs ≫= field_bytes), pb ++ (xs ≫= index_bytes)).
Proof.
  induction fs as [|f fs IH]; intros h body pb xs Hh Hm; simpl in Hm.
  { injection Hm as <-. exists h. split; [done|]. cbn. by rewrite !app_nil_r. }
  apply bind_Some in Hm as (x & Hx & Hm). apply bind_Some in Hm as (ys & Hys & [= <-]).
  unfold writeNetFields. cbn [range]. destruct (writeNetField_app h body pb f x Hh Hx) as (h1 & H1 & ->).
  cbn [mbind outcome_bind]. destruct (IH h1 (body ++ field_bytes x) (pb ++ index_bytes x) ys H1 Hys) as (h2 & H2 & E2).
  exists h2. split; [done|]. unfold writeNetFields in E2. rewrite E2, !bind_cons. by rewrite <- !(assoc_L (++)).
Qed.

(** ** Entries *)

(** What is shipped of an entry: its level, text and fields, those of the logger first. *)
Definition net_entry : Type := Z * bytes * list kv.
Definition entry_view (e : entry) : option net_entry :=
  xs ← mapM shipped (parfields e ++ fields e); Some (u8 (level e), text e, xs).
Definition payload (x : net_entry) : bytes :=
  let '(lvl, txt, xs) := x in lvl :: le32 (length txt) ++ txt ++ le32 (length xs) ++ (xs ≫= field_bytes).
Definition index (x : net_entry) : bytes := x.2 ≫= index_bytes.

Lemma mapM_app_Some {A B} (f : A → option B) l k ys :
  mapM f (l ++ k) = Some ys → ∃ y1 y2, mapM f l = Some y1 ∧ mapM f k = Some y2 ∧ ys = y1 ++ y2.
Proof.
  revert ys; induction l as [|a l IH]; intros ys; simpl; [intros; by eexists [], ys|].
  intros H. apply bind_Some in H as (y & -> & H). apply bind_Some in H as (zs & Hz & [= <-]).
  destruct (IH _ Hz) as (y1 & y2 & -> & -> & ->). by exists (y :: y1), y2.
Qed.

(** Both loops of an entry over its fields, which are skipped when there are none. *)
Lemma fields_app h body pb fs xs :
  length h = 8%nat → mapM shipped fs = Some xs →
  ∃ h', length h' = 8%nat ∧
    (if nonempty fs then writeNetFields (h ++ body) pb fs else Ok (h ++ body, pb))
    = Ok (h' ++ body ++ (xs ≫= field_bytes), pb ++ (xs ≫= index_bytes)).
Proof.
  intros Hh Hm. pose proof (writeNetFields_app fs h body pb xs Hh Hm) as H.
  destruct fs as [|f fs]; [|exact H]. injection Hm as <-. exists h. cbn. by rewrite !app_nil_r.
Qed.

Lemma all_fields_app h body pb par fs x1 x2 :
  length h = 8%nat → mapM shipped par = Some x1 → mapM shipped fs = Some x2 →
  ∃ h', length h' = 8%nat ∧
    (if 0 <? Z.of_nat (length par) + Z.of_nat (length fs) then
       '(buf, pbuf) ← (if nonempty par then writeNetFields (h ++ body) pb par else Ok (h ++ body, pb));
       (if nonempty fs then writeNetFields buf pbuf fs else Ok (buf, pbuf))
     else Ok (h ++ body, pb))
    = Ok (h' ++ body ++ ((x1 ++ x2) ≫= field_bytes), pb ++ ((x1 ++ x2) ≫= index_bytes)).
Proof.
  intros Hh M1 M2. destruct (Z.ltb_spec 0 (Z.of_nat (length par) + Z.of_nat (length fs))) as [Hpos|Hnone].
  - destruct (fields_app h body pb par x1 Hh M1) as (h1 & L1 & ->). cbn [mbind outcome_bind].
    destruct (fields_app h1 (body ++ (x1 ≫= field_bytes)) (pb ++ (x1 ≫= index_bytes)) fs x2 L1 M2) as (h2 & L2 & ->).
    exists h2. by rewrite !bind_app, <- !(assoc_L (++)).
  - destruct par, fs; simpl in Hnone; try lia. injection M1 as <-. injection M2 as <-. exists h. cbn. by rewrite !app_nil_r.
Qed.

(** The buffers of an entry are its frames, with four bytes before the first one. *)
Lemma encode_frames buf pbuf e x :
  (8 ≤ length buf)%nat → (4 ≤ length pbuf)%nat → entry_view e = Some x →
  ∃ h ph, length h = 4%nat ∧ length ph = 4%nat ∧
    encode buf pbuf e = Ok (h ++ le32 (length (payload x)) ++ payload x, ph ++ index x).
Proof.
  intros Hb Hp Hv. unfold entry_view in Hv. apply bind_Some in Hv as (xs & Hm & [= <-]).
  pose proof (length_mapM _ _ _ Hm) as Hlen. rewrite length_app in Hlen.
  apply mapM_app_Some in Hm as (x1 & x2 & M1 & M2 & ->).
  unfold encode. rewrite !sub_take by done. cbn [mbind outcome_bind].
  assert (length (take 8 buf) = 8)%nat as H8 by (rewrite length_take; lia).
  assert (length (take 4 pbuf) = 4)%nat as H4 by (rewrite length_take; lia).
  set (h := take 8 buf) in *. set (ph := take 4 pbuf) in *. clearbody h ph.
  destruct (writeUint32_app h [u8 (level e)] (Z.of_nat (length (text e))) H8) as (h1 & L1 & ->). cbn [mbind outcome_bind].
  rewrite <- !(assoc_L (++)).
  match goal with |- context [writeUint32 (h1 ++ ?b) ?n] => destruct (writeUint32_app h1 b n L1) as (h2 & L2 & ->) end.
  cbn [mbind outcome_bind].
  set (body := ([u8 (level e)] ++ _ ++ _) ++ _).
  destruct (all_fields_app h2 body ph (parfields e) (fields e) x1 x2 L2 M1 M2) as (h3 & L3 & ->).
  cbn [mbind outcome_bind].
  assert (body ++ ((x1 ++ x2) ≫= field_bytes) = payload (u8 (level e), text e, x1 ++ x2)) as ->.
  { unfold body, payload, le32. rewrite <- !(assoc_L (++)), <- Hlen, Nat2Z.inj_add. done. }
  unfold put_at. rewrite bool_decide_eq_true_2 by (rewrite length_put_le, length_app; lia). cbn [mbind outcome_bind].
  rewrite length_put_le, !length_app, take_app_le, drop_app_length' by lia.
  exists (take 4 h3), ph. split_and!; [rewrite length_take; lia|done|]. unfold le32.
  replace (Z.of_nat (length h3 + length (payload (u8 (level e), text e, x1 ++ x2))) - 8)
    with (Z.of_nat (length (payload (u8 (level e), text e, x1 ++ x2)))) by lia. done.
Qed.

(** ** Decoding *)
Definition take_n (n : nat) (s : bytes) : option (bytes * bytes) :=
  if bool_decide (n ≤ length s)%nat then Some (take n s, drop n s) else None.
Definition get32 (s : bytes) : option (nat * bytes) := '(h, s) ← take_n 4 s; Some (Z.to_nat (get_le h), s).
Definition get_string (s : bytes) : option (bytes * bytes) := '(n, s) ← get32 s; take_n n s.

Definition decode_value (s : bytes) : option (netvalue * bytes) :=
  match s with
  | [] => None
  | c :: s =>
      if c =? type_code TypeBool then '(v, s) ← take_n 1 s; Some (NBool (bool_decide (v = [1])), s)
      else if c =? type_code TypeBools then '(v, s) ← get_string s; Some (NBools ((λ b, b =? 1) <$> v), s)
      else if c =? type_code TypeErr then '(v, s) ← get_string s; Some (NErr v, s)
      else if c =? type_code TypeString then '(v, s) ← get_string s; Some (NString v, s)
      else if c =? type_code TypeUint32 then '(v, s) ← take_n 4 s; Some (NUint32 (get_le v), s)
      else if c =? type_code TypeUint64 then '(v, s) ← take_n 8 s; Some (NUint64 (get_le v), s)
      else None
  end.
Fixpoint decode_fields (n : nat) (s : bytes) : option (list kv * bytes) :=
  match n with
  | O => Some ([], s)
  | S n => '(k, s) ← get_string s; '(v, s) ← decode_value s; '(xs, s) ← decode_fields n s; Some ((k, v) :: xs, s)
  end.
Definition decode_entry (s : bytes) : option net_entry :=
  match s with
  | [] => None
  | lvl :: s =>
      '(txt, s) ← get_string s; '(n, s) ← get32 s; '(xs, s) ← decode_fields n s;
      if bool_decide (s = []) then Some (lvl, txt, xs) else None
  end.

(** Lengths that fit into 32 bits. *)
Definition fits32 (n : nat) : Prop := Z.of_nat n < 2 ^ 32.
Definition value_fits (v : netvalue) : Prop :=
  match v with
  | NBool _ => True
  | NBools v => fits32 (length v)
  | NErr s | NString s => fits32 (length s)
  | NUint32 v => is_u32 v
  | NUint64 v => is_u64 v
  end.
Definition entry_fits (x : net_entry) : Prop :=
  fits32 (length x.1.2) ∧ fits32 (length x.2) ∧ Forall (λ f : kv, fits32 (length f.1) ∧ value_fits f.2) x.2 ∧
  fits32 (length (payload x)) ∧ fits32 (length (index x)).

#[export] Instance value_fits_dec v : Decision (value_fits v).
Proof. destruct v; unfold value_fits, fits32, is_u32, is_u64; apply _. Defined.
#[export] Instance entry_fits_dec x : Decision (entry_fits x).
Proof. unfold entry_fits, fits32; apply _. Defined.

Lemma take_n_app n (p s : bytes) : length p = n → take_n n (p ++ s) = Some (p, s).
Proof.
  intros <-. unfold take_n. rewrite bool_decide_eq_true_2 by (rewrite length_app; lia).
  by rewrite take_app_length, drop_app_length.
Qed.
Lemma get32_le n s : fits32 n → get32 (le32 n ++ s) = Some (n, s).
Proof.
  intros Hn. unfold get32, le32. rewrite take_n_app by apply length_put_le. cbn [mbind option_bind].
  rewrite u32_small, get_put_le_small by (unfold fits32 in Hn; unfold is_u32; lia). by rewrite Nat2Z.id.
Qed.
Lemma get_string_app p s : fits32 (length p) → get_string (le32 (length p) ++ p ++ s) = Some (p, s).
Proof. intros Hp. unfold get_string. rewrite get32_le by done. cbn [mbind option_bind]. by apply take_n_app. Qed.

Lemma decode_value_app v s : value_fits v → decode_value (value_bytes v ++ s) = Some (v, s).
Proof.
  destruct v as [v|v|v|v|v|v]; intros Hv; cbn [value_bytes app]; unfold decode_value.
  - by destruct v.
  - cbn [Z.eqb type_code Pos.eqb]. rewrite <- (assoc_L (++)).
    rewrite <- (length_fmap flag v). rewrite get_string_app by (by rewrite length_fmap). cbn [mbind option_bind].
    rewrite <- list_fmap_compose. do 3 f_equal. rewrite <- (list_fmap_id v) at 2. apply list_fmap_ext. by intros _ [] _.
  - cbn [Z.eqb type_code Pos.eqb]. rewrite <- (assoc_L (++)). by rewrite get_string_app.
  - cbn [Z.eqb type_code Pos.eqb]. rewrite <- (assoc_L (++)). by rewrite get_string_app.
  - cbn [Z.eqb type_code Pos.eqb]. rewrite take_n_app by apply length_put_le. cbn [mbind option_bind].
    by rewrite get_put_le_small.
  - cbn [Z.eqb type_code Pos.eqb]. rewrite take_n_app by apply length_put_le. cbn [mbind option_bind].
    by rewrite get_put_le_small.
Qed.

Lemma decode_fields_app xs : ∀ s, Forall (λ f : kv, fits32 (length f.1) ∧ value_fits f.2) xs →
  decode_fields (length xs) ((xs ≫= field_bytes) ++ s) = Some (xs, s).
Proof.
  induction xs as [|[k v] xs IH]; intros s Hf; [done|]. apply Forall_cons in Hf as [[Hk Hv] Hf].
  rewrite bind_cons. unfold field_bytes at 1. cbn [fst snd length decode_fields]. rewrite <- !(assoc_L (++)).
  rewrite get_string_app by done. cbn [mbind option_bind]. rewrite decode_value_app by done. cbn [mbind option_bind].
  by rewrite IH.
Qed.

Lemma decode_payload x : entry_fits x → decode_entry (payload x) = Some x.
Proof.
  destruct x as [[lvl txt] xs]. intros (Ht & Hx & Hf & _). cbn [fst snd] in *. unfold decode_entry, payload.
  rewrite get_string_app by done. cbn [mbind option_bind]. rewrite get32_le by done. cbn [mbind option_bind].
  rewrite <- (app_nil_r (xs ≫= field_bytes)), decode_fields_app by done. by cbn.
Qed.

(** ** Writing through the buffer *)

(** The connection takes everything that is written to it. *)
Record steady (c : netconn) : Prop := { st_wr : n_wr c = []; st_open : n_closed c = false }.
Record wok (w : Bufio.writer) : Prop := {
  wok_err : Bufio.w_err w = None;
  wok_conn : steady (Bufio.w_conn w);
  wok_buf : (length (Bufio.w_buf w) ≤ Bufio.size)%nat }.
(** What was given to the writer: on the connection, or in the buffer. *)
Definition given (w : Bufio.writer) : bytes := n_out (Bufio.w_conn w) ++ Bufio.w_buf w.

Lemma steady_write c p : steady c →
  ∃ c', Net.Write c p = (c', inr (length p)) ∧ steady c' ∧ n_out c' = n_out c ++ p ∧ n_in c' = n_in c.
Proof. intros [Hw Hc]. unfold Net.Write. rewrite Hc, Hw. by eexists. Qed.

(** With an empty buffer what does not fit is written at once. *)
Lemma fill_empty fuel w p :
  wok w → Bufio.w_buf w = [] →
  ∃ w' p', Bufio.fill (S fuel) w p = Ok (w', p') ∧ wok w' ∧ Bufio.w_buf w' = [] ∧
    (length p' ≤ Bufio.size)%nat ∧ n_out (Bufio.w_conn w') ++ p' = n_out (Bufio.w_conn w) ++ p.
Proof.
  intros [He Hs Hb] Hbuf. cbn [Bufio.fill]. rewrite He, Hbuf. cbn [length]. rewrite Nat.sub_0_r.
  case_bool_decide; [by exists w, p|].
  destruct (steady_write (Bufio.w_conn w) p Hs) as (c' & -> & Hs' & Ho & _).
  rewrite drop_all. exists (Bufio.mkWriter [] None c'), []. split_and!.
  - by destruct fuel.
  - by split; [..|simpl; lia].
  - done.
  - simpl; lia.
  - cbn. by rewrite Ho, app_nil_r.
Qed.

Lemma Flush_all w : wok w → ∃ w', Bufio.Flush w = w' ∧ wok w' ∧ Bufio.w_buf w' = [] ∧ n_out (Bufio.w_conn w') = given w.
Proof.
  intros [He Hs Hb]. unfold Bufio.Flush, given. rewrite He. destruct (Bufio.w_buf w) as [|b buf] eqn:Eb.
  - exists w. rewrite app_nil_r. split_and!; try done. split; [done..|]. rewrite Eb. simpl; lia.
  - destruct (steady_write (Bufio.w_conn w) (b :: buf) Hs) as (c' & -> & Hs' & Ho & _).
    rewrite bool_decide_eq_false_2 by lia. exists (Bufio.mkWriter [] None c'). split_and!; try done.
    split; [done..|]. simpl; lia.
Qed.

Lemma fill_all fuel w p : wok w → (0 < fuel)%nat →
  ∃ w' p', Bufio.fill (S fuel) w p = Ok (w', p') ∧ wok w' ∧
    (length (Bufio.w_buf w') + length p' ≤ Bufio.size)%nat ∧ given w' ++ p' = given w ++ p.
Proof.
  intros Hw Hf. destruct (Bufio.w_buf w) as [|b buf] eqn:Eb.
  - destruct (fill_empty fuel w p Hw Eb) as (w' & p' & -> & Hw' & Hb' & Hl & Ho). exists w', p'. unfold given.
    rewrite Hb', Eb, !app_nil_r. cbn [length]. split_and!; done || lia.
  - pose proof Hw as [He Hs Hb]. rewrite Eb in Hb. cbn [Bufio.fill]. rewrite He, Eb. case_bool_decide as Hfit.
    { exists w, p. rewrite Eb. split_and!; done || lia. }
    destruct fuel as [|fuel]; [lia|]. set (n := (Bufio.size - length (b :: buf))%nat) in *.
    destruct (Flush_all (Bufio.mkWriter ((b :: buf) ++ take n p) None (Bufio.w_conn w))) as (w1 & -> & Hw1 & Hb1 & Ho1).
    { split; [done..|]. cbn [Bufio.w_buf]. rewrite length_app, length_take. lia. }
    destruct (fill_empty fuel w1 (drop n p) Hw1 Hb1) as (w' & p' & -> & Hw' & Hb' & Hl & Ho).
    exists w', p'. unfold given in *. rewrite Hb', Eb. cbn [length]. split_and!; [done..|].
    rewrite app_nil_r, Ho, Ho1. cbn [Bufio.w_conn Bufio.w_buf]. rewrite <- !(assoc_L (++)), take_drop. done.
Qed.

Lemma Write_all w p : wok w → ∃ w', Bufio.Write w p = Ok (w', None) ∧ wok w' ∧ given w' = given w ++ p.
Proof.
  intros Hw. unfold Bufio.Write. rewrite (st_wr _ (wok_conn _ Hw)). cbn [length].
  destruct (fill_all 1 w p Hw) as (w' & p' & -> & Hw' & Hfit & Hg); [lia|].
  cbn [mbind outcome_bind]. rewrite (wok_err _ Hw'). eexists. split; [done|]. split.
  - split; [done|exact (wok_conn _ Hw')|]. cbn [Bufio.w_buf]. rewrite length_app. lia.
  - unfold given in *. cbn [Bufio.w_conn Bufio.w_buf]. by rewrite (assoc_L (++)).
Qed.

(** ** Sending entries *)
Definition frames (x : net_entry) : bytes := frame (payload x) ++ frame (index x).

Lemma le32_frame (p : bytes) : fits32 (length p) → le32 (length p) ++ p = frame p.
Proof. intros Hp. unfold le32, frame. rewrite u32_small; [done|]. unfold fits32 in Hp. unfold is_u32. lia. Qed.

Lemma send_frames t w e x :
  (8 ≤ length (nt_buf t))%nat → (4 ≤ length (nt_pbuf t))%nat → wok w → entry_view e = Some x → entry_fits x →
  ∃ t' w', send t w e = Ok (t', true) ∧ nt_bc t' = Some w' ∧ wok w' ∧ given w' = given w ++ frames x ∧
    (8 ≤ length (nt_buf t'))%nat ∧ (4 ≤ length (nt_pbuf t'))%nat ∧ nt_backoff t' = nt_backoff t.
Proof.
  intros Hb Hp Hw Hv (_ & _ & _ & Hfp & Hfi). unfold send.
  destruct (encode_frames (nt_buf t) (nt_pbuf t) e x Hb Hp Hv) as (h & ph & Lh & Lph & ->). cbn [mbind outcome_bind].
  rewrite sub_end by done. cbn [mbind outcome_bind]. rewrite le32_frame by done.
  destruct (Write_all w (frame (payload x)) Hw) as (w1 & -> & Hw1 & G1). cbn [mbind outcome_bind].
  unfold put_at. rewrite bool_decide_eq_true_2 by (rewrite length_put_le, length_app; lia). cbn [mbind outcome_bind].
  rewrite take_0, app_nil_l, length_put_le, Nat.add_0_l, drop_app_length' by done.
  replace (put_le 4 (u32 (Z.of_nat (length (ph ++ index x)) - 4)) ++ index x) with (frame (index x)).
  2:{ rewrite <- le32_frame by done. unfold le32. do 3 f_equal. rewrite length_app. lia. }
  destruct (Write_all w1 (frame (index x)) Hw1) as (w2 & -> & Hw2 & G2). cbn [mbind outcome_bind].
  eexists _, w2. split; [done|]. cbn [nt_bc nt_buf nt_pbuf nt_backoff]. split_and!; try done.
  - unfold frames. by rewrite G2, G1, <- (assoc_L (++)).
  - rewrite length_app. unfold frame. rewrite length_app, length_put_le. lia.
  - unfold frame. rewrite length_app, length_put_le. lia.
Qed.

Lemma entries_sent es : ∀ t w dials xs,
  nt_bc t = Some w → (8 ≤ length (nt_buf t))%nat → (4 ≤ length (nt_pbuf t))%nat → wok w →
  mapM entry_view es = Some xs → Forall entry_fits xs →
  ∃ t' w', writeNetEntries t dials es = Ok (t', dials) ∧ nt_bc t' = Some w' ∧ wok w' ∧
    given w' = given w ++ (xs ≫= frames).
Proof.
  induction es as [|e es IH]; intros t w dials xs Hbc Hb Hp Hw Hm Hf; simpl in Hm.
  { injection Hm as <-. exists t, w. cbn. by rewrite app_nil_r. }
  apply bind_Some in Hm as (x & Hx & Hm). apply bind_Some in Hm as (ys & Hys & [= <-]).
  apply Forall_cons in Hf as [Hfx Hf].
  destruct (send_frames t w e x Hb Hp Hw Hx Hfx) as (t1 & w1 & E1 & Hbc1 & Hw1 & G1 & Hb1 & Hp1 & _).
  cbn [writeNetEntries send_entry]. unfold connect. rewrite Hbc. cbn [nt_bc]. rewrite Hbc, E1. cbn [mbind outcome_bind].
  destruct (IH t1 w1 dials ys Hbc1 Hb1 Hp1 Hw1 Hys Hf) as (t' & w' & -> & Hbc' & Hw' & G').
  exists t', w'. split_and!; try done. by rewrite G', G1, bind_cons, <- (assoc_L (++)).
Qed.

(** ** The server *)

(** [read_full] reads as the loop of a connection does, but leaves it open after an error. *)
Lemma read_full_loop fuel : ∀ nc buf total sz nc' buf' e,
  (total ≤ sz)%nat → Conn.read_loop fuel nc buf sz (sz - total) = Ok (nc', buf', e) →
  ∃ nc'', read_full fuel nc buf total sz = Ok (nc'', buf', e) ∧ (e = None → nc'' = nc').
Proof.
  induction fuel as [|fuel IH]; intros nc buf total sz nc' buf' e Hle; cbn [Conn.read_loop read_full];
    destruct (sz - total)%nat as [|k] eqn:Ek.
  1,3: intros [= <- <- <-]; rewrite bool_decide_eq_false_2 by lia; by exists nc.
  { done. }
  rewrite bool_decide_eq_true_2 by lia. destruct (Net.Read nc (S k)) as [nc1 [e1|d]] eqn:Er.
  { intros [= <- <- <-]. by exists nc1. }
  assert (length d ≤ S k)%nat as Hd.
  { unfold Net.Read in Er. repeat case_match; simplify_eq; rewrite ?length_take; rewrite ?bool_decide_eq_true in *; lia. }
  replace (sz - S k)%nat with total by lia. destruct (put_at buf total d) as [buf1|]; [|done]. cbn [mbind outcome_bind].
  intros H. apply IH; [lia|]. rewrite <- H. f_equal. lia.
Qed.

Lemma read_frame_ok nc buf4 buf chunks p rest :
  arrives nc chunks → mjoin chunks = frame p ++ rest → length buf4 = 4%nat → fits32 (length p) →
  ∃ nc' buf4' buf' chunks', read_frame nc buf4 buf = Ok (nc', buf4', buf', None) ∧ arrives nc' chunks' ∧
    mjoin chunks' = rest ∧ length buf4' = 4%nat ∧ take (length p) buf' = p.
Proof.
  intros Ha Hj H4 Hp. unfold read_frame, frame in *. rewrite <- (assoc_L (++)) in Hj.
  destruct (read_exact nc buf4 chunks 4) as (nc1 & b1 & ch1 & E1 & Ha1 & _ & Hj1 & L1 & S1);
    [done|lia|rewrite Hj, length_app, length_put_le; lia|].
  destruct (read_full_loop _ nc buf4 0 4 _ _ _ ltac:(lia) E1) as (? & -> & ->); [|done]. cbn [mbind outcome_bind].
  assert (get_le b1 = Z.of_nat (length p)) as ->.
  { rewrite sub_take in S1 by lia. rewrite take_ge in S1 by lia. injection S1 as ->.
    rewrite Hj, take_app_length' by (by rewrite length_put_le). apply get_put_le_small. unfold fits32 in Hp. lia. }
  rewrite Nat2Z.id, Hj, drop_app_length' in * by (by rewrite length_put_le).
  set (buf1 := if bool_decide _ then _ else _).
  assert (length p ≤ length buf1)%nat by (unfold buf1; case_bool_decide; rewrite ?length_replicate; lia).
  destruct (read_exact nc1 buf1 ch1 (length p)) as (nc2 & b2 & ch2 & E2 & Ha2 & _ & Hj2 & L2 & S2);
    [done|done|rewrite Hj1, length_app; lia|].
  rewrite <- (Nat.sub_0_r (length p)) in E2 at 2.
  destruct (read_full_loop _ nc1 buf1 0 (length p) _ _ _ ltac:(lia) E2) as (? & -> & ->); [|done]. cbn [mbind outcome_bind].
  exists nc2, b1, b2, ch2. split_and!; try done; [by rewrite Hj2, Hj1, drop_app_length|lia|].
  rewrite sub_take in S2 by lia. injection S2 as ->. by rewrite Hj1, take_app_length.
Qed.

(** When nothing more arrives, reading fails. *)
Lemma read_frame_end nc buf4 buf chunks :
  arrives nc chunks → mjoin chunks = [] → length buf4 = 4%nat →
  ∃ nc' buf4' e, read_frame nc buf4 buf = Ok (nc', buf4', buf, Some e).
Proof.
  intros Ha Hj H4. unfold read_frame.
  destruct (read_loop_starved (Conn.read_fuel nc) nc buf4 4 4 chunks) as (nc' & b' & E & _);
    [done| |lia|rewrite Hj; simpl; lia|].
  { unfold Conn.read_fuel. destruct Ha as [-> _]. rewrite length_fmap. lia. }
  destruct (read_full_loop _ nc buf4 0 4 _ _ _ ltac:(lia) E) as (nc1 & -> & _). by eexists _, _, _.
Qed.

(** The buffers printed for an entry start with the contents of its frames. *)
Definition printed_as (bufs : bytes * bytes) (x : net_entry) : Prop :=
  take (length (index x)) bufs.1 = index x ∧ take (length (payload x)) bufs.2 = payload x.

Lemma handle_loop_frames xs : ∀ fuel nc buf4 buf pbuf chunks printed,
  arrives nc chunks → mjoin chunks = xs ≫= frames → length buf4 = 4%nat → Forall entry_fits xs →
  (length xs < fuel)%nat →
  ∃ nc' more, handle_loop fuel nc buf4 buf pbuf printed = Ok (nc', printed ++ more) ∧ Forall2 printed_as more xs.
Proof.
  induction xs as [|x xs IH]; intros [|fuel] nc buf4 buf pbuf chunks printed Ha Hj H4 Hf Hn; simpl in Hn; try lia;
    cbn [handle_loop].
  - destruct (read_frame_end nc buf4 buf chunks Ha Hj H4) as (nc' & b' & e & ->). cbn [mbind outcome_bind].
    exists nc', []. by rewrite app_nil_r.
  - apply Forall_cons in Hf as [(_ & _ & _ & Hfp & Hfi) Hf]. rewrite bind_cons in Hj. unfold frames at 1 in Hj.
    rewrite <- (assoc_L (++)) in Hj.
    destruct (read_frame_ok nc buf4 buf chunks _ _ Ha Hj H4 Hfp) as (nc1 & b1 & buf1 & ch1 & -> & Ha1 & Hj1 & L1 & T1).
    cbn [mbind outcome_bind].
    destruct (read_frame_ok nc1 b1 pbuf ch1 _ _ Ha1 Hj1 L1 Hfi) as (nc2 & b2 & pbuf1 & ch2 & -> & Ha2 & Hj2 & L2 & T2).
    cbn [mbind outcome_bind].
    destruct (IH fuel nc2 b2 buf1 pbuf1 ch2 (printed ++ [(pbuf1, buf1)]) Ha2 Hj2 L2 Hf) as (nc' & more & -> & H2); [lia|].
    exists nc', ((pbuf1, buf1) :: more). rewrite <- (assoc_L (++)). split; [done|]. by constructor.
Qed.

Lemma in_size_arrives nc chunks : arrives nc chunks → in_size nc = length (mjoin chunks).
Proof.
  intros [Hin _]. unfold in_size. rewrite Hin. clear Hin. induction chunks as [|d chunks IH]; [done|].
  change (mjoin (M:=list) (d :: chunks)) with (d ++ mjoin chunks). rewrite length_app, <- IH. done.
Qed.

Lemma length_frames xs : (length xs ≤ length (xs ≫= frames))%nat.
Proof.
  induction xs as [|x xs IH]; [done|]. rewrite bind_cons, length_app. unfold frames at 1, frame at 1.
  rewrite !length_app, length_put_le. simpl length at 1. lia.
Qed.

Lemma printed_decodes printed xs :
  Forall2 printed_as printed xs → Forall entry_fits xs →
  Forall2 (λ bufs x, printed_as bufs x ∧ decode_entry (take (length (payload x)) bufs.2) = Some x) printed xs.
Proof.
  induction 1 as [|bufs x printed xs [H1 H2] _ IH]; intros Hf; [constructor|].
  apply Forall_cons in Hf as [Hx Hf]. constructor; [|by apply IH]. rewrite H2. split; [done|by apply decode_payload].
Qed.

(** The first entry is sent on a new connection. *)
Lemma new_connection c e es :
  writeNetEntries init [Some c] (e :: es)
  = writeNetEntries (mkTask 0 (Some (Bufio.NewWriter c)) (replicate 8 0) (replicate 4 0)) [] (e :: es).
Proof.
  cbn [writeNetEntries send_entry]. unfold connect, init. cbn [nt_bc dial nt_backoff nt_buf nt_pbuf length].
  destruct (send _ _ e) as [[t [|]]|] eqn:E; [done| |done]. cbn [mbind outcome_bind].
  assert (nt_bc t = None) as Ht.
  { unfold send in E. go_inv E; by simplify_eq/=. }
  cbn [send_entry]. unfold connect. by rewrite Ht.
Qed.

(** C39: Log entries whose fields have non-empty keys and are of one of the six types that can
    be shipped (any other entry panics; see the findings), written to a log server over a
    connection that does not fail, are, in order, exactly their frames, of which at most the
    last 4096 bytes stay in the buffer; a server that gets these bytes, cut into pieces of any
    size, prints one pair of buffers per entry, which starts with the contents of its two
    frames, and these decode to the level, the text and the fields of the entry. *)
Theorem shipped_entries_reach_server c e es xs :
  steady c → mapM entry_view (e :: es) = Some xs → Forall entry_fits xs →
  ∃ t w, writeNetEntries init [Some c] (e :: es) = Ok (t, []) ∧ nt_bc t = Some w ∧
    n_out (Bufio.w_conn w) ++ Bufio.w_buf w = n_out c ++ (xs ≫= frames) ∧
    (length (Bufio.w_buf w) ≤ Bufio.size)%nat ∧
    ∀ nc chunks, arrives nc chunks → mjoin chunks = xs ≫= frames →
      ∃ nc' printed, handle nc = Ok (nc', printed) ∧
        Forall2 (λ bufs x, printed_as bufs x ∧ decode_entry (take (length (payload x)) bufs.2) = Some x) printed xs.
Proof.
  intros Hc Hm Hf. rewrite new_connection.
  match goal with |- context [writeNetEntries ?t0 _ _] => set (t := t0) end.
  destruct (entries_sent (e :: es) t (Bufio.NewWriter c) [] xs) as (t' & w' & -> & Hbc & Hw & Hg);
    [done|simpl; lia|simpl; lia|by split; [..|simpl; lia]|done|done|].
  unfold given in Hg. cbn [Bufio.NewWriter Bufio.w_conn Bufio.w_buf] in Hg. rewrite app_nil_r in Hg.
  exists t', w'. split_and!; try done; [apply Hw|]. intros nc chunks Ha Hj. unfold handle.
  destruct (handle_loop_frames xs (S (in_size nc)) nc (replicate 4 0) (replicate 1024 0) (replicate 1024 0) chunks [])
    as (nc' & printed & E & H2); try done.
  { rewrite (in_size_arrives nc chunks Ha), Hj. pose proof (length_frames xs). lia. }
  exists nc', printed. split; [done|]. by apply printed_decodes.
Qed.

(** ** Connections that fail *)

(** A turn of [fill] takes a result of the connection, empties the buffer or writes the rest. *)
Definition turns (w : Bufio.writer) : nat :=
  length (n_wr (Bufio.w_conn w)) + match Bufio.w_buf w with [] => 1 | _ => 2 end.

Lemma Write_results c p c' r : Net.Write c p = (c', inr r) →
  n_wr c' = tail (n_wr c) ∧ (n_wr c = [] → r = length p).
Proof.
  unfold Net.Write. destruct (n_closed c); [done|]. destruct (n_wr c) as [|[n|e] rest]; by intros [= <- <-].
Qed.

Lemma fill_total fuel : ∀ w p, (turns w ≤ fuel)%nat → ∃ w' p', Bufio.fill fuel w p = Ok (w', p').
Proof.
  assert (∀ fuel w p, Bufio.w_err w ≠ None ∨ p = [] → ∃ w' p', Bufio.fill fuel w p = Ok (w', p')) as Hstop.
  { intros f w p H. destruct f; cbn [Bufio.fill]; destruct (Bufio.w_err w); try by eexists _, _.
    all: destruct H as [?| ->]; [done|]; rewrite bool_decide_eq_true_2 by (simpl; lia); by eexists _, _. }
  induction fuel as [|fuel IH]; intros w p Hf; [unfold turns in Hf; destruct (Bufio.w_buf w); lia|]. cbn [Bufio.fill].
  destruct (Bufio.w_err w) eqn:Ee; [by eexists _, _|]. case_bool_decide; [by eexists _, _|].
  unfold turns in Hf. destruct (Bufio.w_buf w) as [|b buf] eqn:Eb.
  - destruct (Net.Write (Bufio.w_conn w) p) as [c' [e|r]] eqn:Ew; [by apply Hstop; left|].
    apply Write_results in Ew as [Hwr Hall]. destruct (n_wr (Bufio.w_conn w)) as [|x rest] eqn:En.
    + apply Hstop. right. rewrite Hall by done. apply drop_all.
    + apply IH. unfold turns. cbn [Bufio.w_conn Bufio.w_buf]. rewrite Hwr. simpl in *. lia.
  - unfold Bufio.Flush. cbn [Bufio.w_err Bufio.w_buf Bufio.w_conn app].
    match goal with |- context [Net.Write ?c ?q] => destruct (Net.Write c q) as [c' [e|r]] eqn:Ew end; [by apply Hstop; left|].
    apply Write_results in Ew as [Hwr _]. case_bool_decide; [by apply Hstop; left|].
    apply IH. unfold turns. cbn [Bufio.w_conn Bufio.w_buf]. rewrite Hwr. destruct (n_wr (Bufio.w_conn w)); simpl in *; lia.
Qed.

Lemma Write_total w p : ∃ w' e, Bufio.Write w p = Ok (w', e).
Proof.
  unfold Bufio.Write. destruct (fill_total (S (S (length (n_wr (Bufio.w_conn w))))) w p) as (w' & p' & ->).
  { unfold turns. destruct (Bufio.w_buf w); lia. }
  cbn [mbind outcome_bind]. destruct (Bufio.w_err w'); by eexists _, _.
Qed.

(** The buffers between two entries. *)
Definition task_ok (t : nettask) : Prop := (8 ≤ length (nt_buf t))%nat ∧ (4 ≤ length (nt_pbuf t))%nat.

Lemma send_total t w e x : task_ok t → entry_view e = Some x →
  ∃ t' ok, send t w e = Ok (t', ok) ∧ task_ok t' ∧ (ok = false → nt_bc t' = None) ∧ (ok = true → nt_bc t' ≠ None).
Proof.
  intros [Hb Hp] Hv. unfold send, task_ok.
  destruct (encode_frames (nt_buf t) (nt_pbuf t) e x Hb Hp Hv) as (h & ph & Lh & Lph & ->). cbn [mbind outcome_bind].
  rewrite sub_end by done. cbn [mbind outcome_bind].
  match goal with |- context [Bufio.Write w ?f] => destruct (Write_total w f) as (w1 & [e1|] & ->) end; cbn [mbind outcome_bind].
  { eexists _, false. split; [done|]. cbn [nt_buf nt_pbuf nt_bc]. rewrite !length_app. unfold le32. rewrite length_put_le.
    split_and!; done || lia. }
  unfold put_at. rewrite bool_decide_eq_true_2 by (rewrite length_put_le, length_app; lia). cbn [mbind outcome_bind].
  match goal with |- context [Bufio.Write w1 ?f] => destruct (Write_total w1 f) as (w2 & [e2|] & ->) end; cbn [mbind outcome_bind];
    (eexists _, _; split; [done|]; cbn [nt_buf nt_pbuf nt_bc]; rewrite !length_app, length_drop, length_app; unfold le32;
     rewrite !length_put_le; split_and!; done || lia).
Qed.

Lemma dial_length dials : ∀ backoff slept bc b rest s,
  dial dials backoff slept = (bc, b, rest, s) → (length rest ≤ length dials)%nat ∧ (bc ≠ None → (length rest < length dials)%nat).
Proof.
  induction dials as [|[c|] dials IH]; intros backoff slept bc b rest s; cbn [dial length].
  - by intros [= <- <- <- <-].
  - intros [= <- <- <- <-]. lia.
  - intros H. apply IH in H. naive_solver lia.
Qed.

(** What sending an entry gives: it was sent, or the task is left dialling. *)
Definition sends (r : outcome (nettask * list (option netconn) * bool)) : Prop :=
  ∃ t' dials' ok, r = Ok (t', dials', ok) ∧ task_ok t' ∧ (ok = true ↔ nt_bc t' ≠ None).

Lemma sends_dialling fuel : ∀ t dials e x,
  task_ok t → entry_view e = Some x → nt_bc t = None → (length dials ≤ fuel)%nat → sends (send_entry fuel t dials e).
Proof.
  induction fuel as [|fuel IH]; intros t dials e x Ht Hv Hbc Hf; cbn [send_entry]; unfold connect; rewrite Hbc;
    destruct (dial dials (nt_backoff t) []) as [[[bc b] rest] s] eqn:Ed; apply dial_length in Ed as [_ Hlt];
    cbn [nt_bc]; (destruct bc as [w|]; [specialize (Hlt ltac:(done))|by eexists _, rest, false]); [lia|].
  destruct (send_total (mkTask b (Some w) (nt_buf t) (nt_pbuf t)) w e x Ht Hv) as (t1 & [|] & -> & Ht1 & Hn & Hs);
    cbn [mbind outcome_bind]; [by exists t1, rest, true; naive_solver|]. eapply IH; eauto. lia.
Qed.

(** Whatever the connections do, sending an entry terminates; an entry whose connection fails
    is sent again on the next one. *)
Theorem send_entry_terminates t dials e x :
  task_ok t → entry_view e = Some x → sends (send_entry (S (length dials)) t dials e).
Proof.
  intros Ht Hv. destruct (nt_bc t) as [w|] eqn:Hbc; [|by eapply sends_dialling; eauto; lia].
  cbn [send_entry]. unfold connect. rewrite Hbc. cbn [nt_bc]. rewrite Hbc.
  destruct (send_total t w e x Ht Hv) as (t1 & [|] & -> & Ht1 & Hn & Hs); cbn [mbind outcome_bind].
  - exists t1, dials, true. naive_solver.
  - eapply sends_dialling; eauto.
Qed.
