(* ===== verification/LogFront.v ===== *)
(** * The front ends of logging (src/internal/log/log.go, src/internal/log/fld/fld.go)

    The functions of the package log use one logger, [root]; the package fld makes the fields
    that the program logs.  A [fmt.Stringer] is the text it gives, an error its text. *)

From stdpp Require Import strings.
From S2P Require Import Prelude Messages Config Conn GoText Log LogText LogNet LogNetProps.

(** ** Fields with fixed keys (fld.go) *)
Module Fld.
Definition Address (value : bytes) : Field := Fields.String (lit "address") value.
Definition BlockHash (value : slice) : Field := Fields.Digest (lit "block.hash") value.
Definition BlockID (value : bytes) : Field := Fields.String (lit "block.id") value.
Definition ConnectionType (value : Z) : Field := Fields.Int32 (lit "type") value.
Definition Err (value : option bytes) : outcome Field := Fields.Err value.
Definition FromBlock (value : bytes) : Field := Fields.String (lit "block.from") value.
Definition FromState (value : bytes) : Field := Fields.String (lit "status.from") value.
Definition InterpretedRound (value : Z) : Field := Fields.Uint64 (lit "interpreted.round") value.
Definition LatestRound (value : Z) : Field := Fields.Uint64 (lit "latest.round") value.
Definition NetworkName (value : bytes) : Field := Fields.String (lit "network.name") value.
Definition NodeID (value : Z) : Field := Fields.Uint64 (lit "node.id") value.
Definition OK (value : bool) : Field := Fields.Bool (lit "ok") value.
Definition ObjectID (value : slice) : Field := Fields.Digest (lit "object.id") value.
Definition Path (value : bytes) : Field := Fields.String (lit "path") value.
Definition PayloadLimit (value : Z) : Field := Fields.Int (lit "payload.limit") value.
Definition PeerID (value : Z) : Field := Fields.Uint64 (lit "peer.id") value.
Definition PeerShard (value : Z) : Field := Fields.Uint64 (lit "peer.shard") value.
Definition Perspective (value : Z) : Field := Fields.Uint64 (lit "perspective") value.
Definition Port (value : Z) : Field := Fields.Int (lit "port") value.
Definition Round (value : Z) : Field := Fields.Uint64 (lit "round") value.
Definition Rounds (value : list Z) : Field := Fields.Uint64s (lit "rounds") value.
Definition SelfNodeID (value : Z) : Field := Fields.Uint64 (lit "@self/node.id") value.
Definition SelfShardID (value : Z) : Field := Fields.Uint64 (lit "@self/shard.id") value.
Definition Service (value : bytes) : Field := Fields.String (lit "service") value.
Definition ShardCount (value : Z) : Field := Fields.Uint64 (lit "shard.count") value.
Definition ShardID (value : Z) : Field := Fields.Uint64 (lit "shard.id") value.
Definition ShardSize (value : Z) : Field := Fields.Uint64 (lit "shard.size") value.
Definition Size (value : Z) : Field := Fields.Int (lit "size") value.
Definition Status (value : bytes) : Field := Fields.String (lit "status") value.
Definition TimeTaken (value : Z) : Field := Fields.Duration (lit "time.taken") value.
Definition ToBlock (value : bytes) : Field := Fields.String (lit "block.to") value.
Definition ToState (value : bytes) : Field := Fields.String (lit "status.to") value.
Definition SBACCmd (value : bytes) : Field := Fields.String (lit "cmd") value.
Definition TxID (value : Z) : Field := Fields.Uint32 (lit "tx.id") value.
Definition URL (value : bytes) : Field := Fields.String (lit "url") value.
End Fld.

(** ** The root logger (log.go) *)

(** The state of the package: the outputs, and the fields of the root logger. *)
Record package := mkPackage { pk_root : Logger.Logger; pk_log : Logger.logging }.

Module Root.
Definition start : package := mkPackage None Logger.start.
(** The call of a method of the root logger. *)
Definition call (p : package) (f : Logger.logging → Logger.Logger → outcome Logger.logging) : outcome package :=
  l ← f (pk_log p) (pk_root p); Ok (mkPackage (pk_root p) l).

Definition Debug p now text fields := call p (λ l r, Logger.Debug l r now text fields).
Definition Error p now text fields := call p (λ l r, Logger.Error l r now text fields).
Definition Fatal p now text fields := call p (λ l r, Logger.Fatal l r now text fields).
Definition Info p now text fields := call p (λ l r, Logger.Info l r now text fields).
Definition Warn p now text fields := call p (λ l r, Logger.Warn l r now text fields).
(** On the formatted text; unlike [Logger.Fatalf], [Fatalf] leaves the process. *)
Definition Debugf p now text := call p (λ l r, Logger.Debug l r now text []).
Definition Errorf p now text := call p (λ l r, Logger.Error l r now text []).
Definition Fatalf p now text := call p (λ l r, Logger.Fatal l r now text []).
Definition Infof p now text := call p (λ l r, Logger.Info l r now text []).
Definition Warnf p now text := call p (λ l r, Logger.Warn l r now text []).
Definition StackTrace p now text frames := call p (λ l r, Logger.stacktrace l r now text frames).
Definition SetGlobal (p : package) (fields : list Field) : package := mkPackage (Some fields) (pk_log p).
Definition With (p : package) (fields : list Field) : Logger.Logger := Logger.With (pk_root p) fields.
End Root.

(** ** What is logged *)

(** The fields of the package fld, with digests of at least six bytes. *)
Inductive built : Field → Prop :=
  | b_Address v : is_bytes v → built (Fld.Address v)
  | b_BlockHash v : is_bytes (sl_data v ++ sl_spare v) → long_enough v = true → built (Fld.BlockHash v)
  | b_BlockID v : is_bytes v → built (Fld.BlockID v)
  | b_ConnectionType v : built (Fld.ConnectionType v)
  | b_Err text f : is_bytes text → Fld.Err (Some text) = Ok f → built f
  | b_FromBlock v : is_bytes v → built (Fld.FromBlock v)
  | b_FromState v : is_bytes v → built (Fld.FromState v)
  | b_InterpretedRound v : built (Fld.InterpretedRound v)
  | b_LatestRound v : built (Fld.LatestRound v)
  | b_NetworkName v : is_bytes v → built (Fld.NetworkName v)
  | b_NodeID v : built (Fld.NodeID v)
  | b_OK v : built (Fld.OK v)
  | b_ObjectID v : is_bytes (sl_data v ++ sl_spare v) → long_enough v = true → built (Fld.ObjectID v)
  | b_Path v : is_bytes v → built (Fld.Path v)
  | b_PayloadLimit v : built (Fld.PayloadLimit v)
  | b_PeerID v : built (Fld.PeerID v)
  | b_PeerShard v : built (Fld.PeerShard v)
  | b_Perspective v : built (Fld.Perspective v)
  | b_Port v : built (Fld.Port v)
  | b_Round v : built (Fld.Round v)
  | b_Rounds v : built (Fld.Rounds v)
  | b_SelfNodeID v : built (Fld.SelfNodeID v)
  | b_SelfShardID v : built (Fld.SelfShardID v)
  | b_Service v : is_bytes v → built (Fld.Service v)
  | b_ShardCount v : built (Fld.ShardCount v)
  | b_ShardID v : built (Fld.ShardID v)
  | b_ShardSize v : built (Fld.ShardSize v)
  | b_Size v : built (Fld.Size v)
  | b_Status v : is_bytes v → built (Fld.Status v)
  | b_TimeTaken v : built (Fld.TimeTaken v)
  | b_ToBlock v : is_bytes v → built (Fld.ToBlock v)
  | b_ToState v : is_bytes v → built (Fld.ToState v)
  | b_SBACCmd v : is_bytes v → built (Fld.SBACCmd v)
  | b_TxID v : built (Fld.TxID v)
  | b_URL v : is_bytes v → built (Fld.URL v).

Lemma built_ok f : built f → constructed f ∧ inline (key f) ∧ printable f = true.
Proof.
  destruct 1; try (by split_and!; [constructor; done|apply lit_inline; reflexivity|first [reflexivity|assumption]]).
  - split_and!; [by eapply c_Err| |]; injection H0 as <-; [by apply (lit_inline "error")|done].
  - destruct v; by split_and!; [constructor|apply lit_inline|].
Qed.

Lemma built_text fs : ∀ b, Forall built fs → ∃ out, Text.writeTextFields b fs = Ok (b ++ out) ∧ oneline out.
Proof.
  induction fs as [|f fs IH]; intros b Hf; unfold Text.writeTextFields in *; simpl.
  { exists []. split; [by rewrite app_nil_r|constructor]. }
  apply Forall_cons in Hf as [(C & K & P)%built_ok Hfs]. pose proof (field_text b f C K) as Ht. rewrite P in Ht.
  destruct Ht as (o & -> & Ho). simpl. destruct (IH (b ++ o) Hfs) as (o2 & -> & Ho2).
  exists (o ++ o2). rewrite (assoc_L (++)). auto with inline.
Qed.

(** An entry with such fields, on a root logger with such fields, has a text. *)
Lemma built_line fs lvl par txt now :
  0 ≤ lvl < Level.maxLevel → Forall built par → Forall built fs →
  ∃ line, Logger.textLine (Logger.mkLogEntry fs lvl par txt now) = Ok line.
Proof.
  intros Hl Hp Hf. unfold Logger.textLine. cbn [Logger.level Logger.parfields Logger.fields].
  destruct (Z.ltb_spec lvl 0); [lia|].
  destruct (lookup_lt_is_Some_2 Logger.level2color (Z.to_nat lvl)) as [name ->]; [unfold Level.maxLevel in Hl; simpl; lia|].
  cbn [or_panic mbind outcome_bind]. destruct (_ || _); [|eauto].
  destruct (Logger.nonempty par); [match goal with |- context [Text.writeTextFields ?b par] => destruct (built_text par b Hp) as (o & -> & _) end|];
    cbn [mbind outcome_bind]; (destruct (Logger.nonempty fs);
      [match goal with |- context [Text.writeTextFields ?b fs] => destruct (built_text fs b Hf) as (o' & -> & _) end|]); cbn; eauto.
Qed.

(** Logging such an entry through the root logger never panics: the console and the log file get
    its text when their levels ask for it, and nothing else changes but the queue of entries to ship. *)
Lemma preset_entries_logged p now lvl txt fs :
  0 ≤ lvl < Level.maxLevel → Forall built (default [] (pk_root p)) → Forall built fs →
  let l := pk_log p in
  ∃ line p', Root.call p (λ l r, Logger.log l r now lvl txt fs) = Ok p' ∧ pk_root p' = pk_root p ∧
    Logger.lg_levels (pk_log p') = Logger.lg_levels l ∧
    Logger.lg_console (pk_log p') = Logger.lg_console l ++ (if Level.lv_console (Logger.lg_levels l) <=? lvl then [line] else []) ∧
    Logger.lg_file (pk_log p') =
      (λ lines, lines ++ if Level.lv_file (Logger.lg_levels l) <=? lvl then [line] else []) <$> Logger.lg_file l.
Proof.
  intros Hl Hp Hf l. destruct (built_line fs lvl _ txt now Hl Hp Hf) as [line Hline]. exists line.
  unfold Root.call, Logger.log. rewrite (textLog_outputs _ _ _ Hline). cbn [mbind outcome_bind].
  eexists. split; [reflexivity|]. unfold Logger.netLog. cbn [pk_root pk_log].
  by destruct (_ <? _); [|destruct (Logger.lg_pending _) as [ch|]; [destruct (_ || _)|]].
Qed.

(** ** What is shipped *)

Lemma unseen_panics buf f : view f = None → constructed f → LogNet.writeNetValue buf f = Halt Panic.
Proof. intros Hv Hc. destruct Hc; simplify_eq/=; try done. by destruct v. Qed.
Lemma built_key f : built f → key f ≠ [].
Proof. destruct 1; try done; [by injection H0 as <-|by destruct v]. Qed.

(** A field of the package is shipped when the network encoding has a case for its type; otherwise
    the sending goroutine panics on it. *)
Lemma preset_fields_shipped h body pb f :
  length h = 8%nat → built f →
  match shipped f with
  | Some x => ∃ h', length h' = 8%nat ∧
      LogNet.writeNetField (h ++ body, pb) f = Ok (h' ++ body ++ field_bytes x, pb ++ index_bytes x)
  | None => LogNet.writeNetField (h ++ body, pb) f = Halt Panic
  end.
Proof.
  intros Hh Hf. destruct (shipped f) as [x|] eqn:Es; [by apply writeNetField_app|].
  pose proof (built_key f Hf) as Hk. apply built_ok in Hf as (Hc & _ & _). unfold shipped in Es.
  unfold LogNet.writeNetField. destruct (key f) as [|c k]; [done|]. destruct (view f) eqn:Ev; [done|].
  destruct (writeUint32_app h body (Z.of_nat (length (c :: k))) Hh) as (h' & _ & ->). cbn [mbind outcome_bind head or_panic].
  by rewrite unseen_panics.
Qed.

(** The entry with which a node reports that it is running cannot be shipped. *)
Lemma running_not_shipped name port :
  Forall2 (λ f v, view f = v) [Fld.NetworkName name; Fld.Port port] [Some (NString name); None].
Proof. by repeat constructor. Qed.
