(* ===== verification/Cache.v ===== *)
(** * In-memory caches (src/broadcast/cache.go)

    [ownBlocks] keeps the node's recent blocks by round; [receivedMap] keeps, per
    peer, the latest round received and the end of the gap-free prefix of rounds
    ([sequence]). *)

From S2P Require Import Prelude Codec.

Record ownBlocks := mkOwn { ob_data : gmap Z SignedData; ob_latest : Z }.
Record receivedInfo := mkReceived { ri_latest : Z; ri_sequence : Z }.
Abbreviation receivedMap := (gmap Z receivedInfo).

#[export] Instance receivedInfo_eq_dec : EqDecision receivedInfo.
Proof. solve_decision. Defined.

Module OwnBlocks.
(** A nil result is [None]. *)
Definition get (o : ownBlocks) (round : Z) : option SignedData := ob_data o !! round.

Definition prune (o : ownBlocks) (size_ : Z) : ownBlocks :=
  if Z.of_nat (size (ob_data o)) <=? size_ then o
  else
    let limit := u64 (ob_latest o - u64 size_) in
    mkOwn (filter (λ kv, limit ≤ kv.1) (ob_data o)) (ob_latest o).

Definition set (o : ownBlocks) (round : Z) (block : SignedData) : ownBlocks :=
  mkOwn (<[round := block]> (ob_data o)) round.
End OwnBlocks.

Module Received.
(** The zero value stands for an unknown node. *)
Definition get (r : receivedMap) (nodeID : Z) : receivedInfo := default (mkReceived 0 0) (r !! nodeID).

Definition set (r : receivedMap) (nodeID round : Z) : receivedMap :=
  let info := get r nodeID in
  let info := if ri_latest info <? round then mkReceived round (ri_sequence info) else info in
  let info := if u64 (ri_sequence info + 1) =? round then mkReceived (ri_latest info) round else info in
  <[nodeID := info]> r.

Definition setSequence (r : receivedMap) (nodeID round : Z) : receivedMap :=
  <[nodeID := mkReceived (ri_latest (get r nodeID)) round]> r.
End Received.

(** ** Own blocks *)
Module Own.
Import OwnBlocks.

Lemma get_set o round block r :
  get (set o round block) r = if decide (r = round) then Some block else get o r.
Proof.
  unfold get, set; simpl. case_decide; subst; [apply lookup_insert_eq|by apply lookup_insert_ne].
Qed.

(** Pruning keeps the blocks of the last [size_] rounds up to [latest]. *)
Lemma get_prune o size_ r :
  0 ≤ size_ ≤ ob_latest o → is_u64 (ob_latest o) → ob_latest o - size_ ≤ r →
  get (prune o size_) r = get o r.
Proof.
  intros Hs Hl Hr. unfold prune. destruct (_ <=? _); [done|]. unfold get; simpl.
  rewrite (u64_small size_), u64_small by (unfold is_u64 in *; lia).
  destruct (ob_data o !! r) eqn:E.
  - apply map_lookup_filter_Some. done.
  - apply map_lookup_filter_None. by left.
Qed.

Lemma prune_subset o size_ r block : get (prune o size_) r = Some block → get o r = Some block.
Proof.
  unfold prune. destruct (_ <=? _); [done|]. unfold get; simpl.
  by intros [? _]%map_lookup_filter_Some.
Qed.
End Own.

(** ** Received rounds

    [rounds] are the rounds a node's blocks were received for, in order. *)
Definition receive_all (nodeID : Z) (rounds : list Z) : receivedMap :=
  foldl (λ r round, Received.set r nodeID round) ∅ rounds.

Lemma get_set_eq r n round :
  Received.get (Received.set r n round) n =
  mkReceived (Z.max (ri_latest (Received.get r n)) round)
    (if u64 (ri_sequence (Received.get r n) + 1) =? round then round
     else ri_sequence (Received.get r n)).
Proof.
  unfold Received.set. unfold Received.get at 1. rewrite lookup_insert_eq. simpl.
  destruct (Received.get r n) as [l s]; simpl.
  destruct (Z.ltb_spec l round); simpl; destruct (_ =? round); simpl; f_equal; lia.
Qed.

Lemma get_set_ne r n m round : m ≠ n → Received.get (Received.set r n round) m = Received.get r m.
Proof. intros. unfold Received.set. unfold Received.get at 1. by rewrite lookup_insert_ne. Qed.

(** The invariant behind [fillMissingBlocks]: every round up to [sequence] was
    received, [sequence] is at most [latest], and [latest] is the largest round. *)
Definition received_ok (i : receivedInfo) (rounds : list Z) : Prop :=
  0 ≤ ri_sequence i ≤ ri_latest i ∧
  (∀ k, 1 ≤ k ≤ ri_sequence i → k ∈ rounds) ∧
  (∀ k, k ∈ rounds → k ≤ ri_latest i) ∧ (ri_latest i = 0 ∨ ri_latest i ∈ rounds).

Lemma received_ok_snoc r n round rounds :
  1 ≤ round < 2 ^ 64 - 1 → ri_latest (Received.get r n) < 2 ^ 64 - 1 →
  received_ok (Received.get r n) rounds →
  received_ok (Received.get (Received.set r n round) n) (rounds ++ [round]).
Proof.
  intros Hr Hl (Hs & Hall & Hmax & Hlat). rewrite get_set_eq.
  set (i := Received.get r n) in *. rewrite u64_small by (unfold is_u64; lia).
  unfold received_ok; simpl. split_and!.
  - destruct (Z.eqb_spec (ri_sequence i + 1) round); lia.
  - destruct (Z.eqb_spec (ri_sequence i + 1) round); lia.
  - intros k Hk. apply elem_of_app. destruct (Z.eqb_spec (ri_sequence i + 1) round);
      [|left; by apply Hall].
    destruct (decide (k = round)) as [->|]; [right; by left|left; apply Hall; lia].
  - intros k [Hk|Hk]%elem_of_app; [apply Hmax in Hk; lia|]. apply list_elem_of_singleton in Hk. lia.
  - right. apply elem_of_app. destruct (Z.max_spec (ri_latest i) round) as [[_ ->]|[? ->]];
      [right; by left|]. destruct Hlat as [E|?]; [|by left]. lia.
Qed.

Lemma receive_all_ok n rounds :
  Forall (λ k, 1 ≤ k < 2 ^ 64 - 1) rounds →
  received_ok (Received.get (receive_all n rounds) n) rounds ∧
  ri_latest (Received.get (receive_all n rounds) n) < 2 ^ 64 - 1.
Proof.
  unfold receive_all. induction rounds as [|k rounds IH] using rev_ind; intros H.
  - simpl. unfold Received.get. rewrite lookup_empty. simpl. split; [|done]. split_and!; simpl; [done|done|intros; lia|set_solver|by left].
  - apply Forall_app in H as [Hrs Hk]. apply Forall_inv in Hk.
    destruct (IH Hrs) as [Hok Hl]. rewrite foldl_snoc. split; [by apply received_ok_snoc|].
    rewrite get_set_eq. simpl. lia.
Qed.

(** After any sequence of received rounds, every round up to [sequence] was received and
    [latest] is not below any received round, so that the gap between the two covers every
    missing round. *)
Theorem received_tracks_rounds n rounds :
  Forall (λ k, 1 ≤ k < 2 ^ 64 - 1) rounds →
  let i := Received.get (receive_all n rounds) n in
  0 ≤ ri_sequence i ≤ ri_latest i ∧
  (∀ k, 1 ≤ k ≤ ri_sequence i → k ∈ rounds) ∧ (∀ k, k ∈ rounds → k ≤ ri_latest i).
Proof. intros [(? & ? & ? & _) _]%(receive_all_ok n). done. Qed.
