(* ===== verification/Store.v ===== *)
(** * The broadcast store (src/broadcast/store.go): definitions

    Every operation of [store] on a database of class [KV].  Readers give an
    error or a value ([outcome (serr + A)]: slicing a stored value can panic);
    writers give the store afterwards and the error returned. *)

From S2P Require Import Prelude Messages Block Lexinum Codec Kv Cache.

Inductive serr := DBClosed | DBErr (e : dberr) | ProtoErr | LexErr (e : Lexinum.error).

Record store (DB : Type) := mkStore { s_closed : bool; s_db : DB; s_nodeCount : Z }.
Arguments mkStore {DB} s_closed s_db s_nodeCount.
Arguments s_closed {DB} s.
Arguments s_db {DB} s.
Arguments s_nodeCount {DB} s.

Record blockData := mkBlockData {
  bd_deps : list BlockID; bd_id : BlockID; bd_prev : BlockID; bd_ref : SignedData }.

Module Store.
Import Codec.

Definition set_db {DB} (s : store DB) (db : DB) : store DB := mkStore (s_closed s) db (s_nodeCount s).

(** A 64-bit word as Go's [int]. *)
Definition int_of (z : Z) : Z := if z <? 2 ^ 63 then z else z - 2 ^ 64.

Section Ops.
Context {DB : Type} `{KV DB}.
Context `{PS : Proto SignedData} `{PB : Proto Block} `{PR : Proto BlockReference} `{Hasher}.
Implicit Types (s : store DB).

(** [if s.closed { return errDBClosed }] *)
Definition opened {A} s (k : outcome (serr + A)) : outcome (serr + A) :=
  if s_closed s then Ok (inl DBClosed) else k.

Definition Get (db : DB) (k : bytes) : outcome (serr + bytes) :=
  match kv_get db k with inl e => Ok (inl (DBErr e)) | inr v => Ok (inr v) end.
Definition Unmarshal {A} `{Proto A} (val : bytes) : outcome (serr + A) :=
  match unmarshal val with None => Ok (inl ProtoErr) | Some a => Ok (inr a) end.
Definition lex {A} (m : outcome (Lexinum.error + A)) : outcome (serr + A) :=
  r ← m; match r with inl e => Ok (inl (LexErr e)) | inr a => Ok (inr a) end.

(** ** Decoding a signed block *)

(** The loop over [block.References]. *)
Fixpoint ref_ids (refs : list SignedData) : outcome (list BlockID) :=
  match refs with
  | [] => Ok []
  | sref :: refs =>
      match unmarshal (sd_Data sref) with
      | None => Halt Fatal
      | Some ref => ids ← ref_ids refs; Ok (mkBlockID (br_Hash ref) (br_Node ref) (br_Round ref) :: ids)
      end
  end.

(** The function [getBlockData]: it exits on data it cannot decode. *)
Definition block_data (signed : SignedData) : outcome blockData :=
  match unmarshal (sd_Data signed) with
  | None => Halt Fatal
  | Some block =>
      let hash := sha512_256 (sd_Data signed) in
      match marshal (mkRef hash (b_Node block) (b_Round block)) with
      | None => Halt Fatal
      | Some enc =>
          prev ← (if negb (b_Round block =? 1) then
                    previous ← or_panic (b_Previous block);
                    match unmarshal (sd_Data previous) with
                    | None => Halt Fatal
                    | Some ref => Ok (mkBlockID (br_Hash ref) (br_Node ref) (br_Round ref))
                    end
                  else Ok zeroID);
          deps ← ref_ids (b_References block);
          Ok (mkBlockData deps (mkBlockID hash (b_Node block) (b_Round block)) prev
                (mkSigned enc (sd_Signature signed)))
      end
  end.

(** ** Readers *)
Definition getBlock s (id : BlockID) : outcome (serr + SignedData) :=
  opened s (
    val ←? Get (s_db s) (blockKey id);
    Unmarshal val).

Definition getBlockData s (id : BlockID) : outcome (serr + blockData) :=
  opened s (
    signed ←? getBlock s id;
    d ← block_data signed; Ok (inr d)).

(** [it.Seek(start); it.ValidForPrefix(prefix)] *)
Fixpoint valid_for (prefix : bytes) (items : list (bytes * bytes)) : list (bytes * bytes) :=
  match items with
  | [] => []
  | kv :: items =>
      if bool_decide (prefix `prefix_of` kv.1) then kv :: valid_for prefix items else []
  end.

Fixpoint graphs_loop (limit : Z) (items : list (bytes * bytes)) (blocks : list BlockGraph)
    : outcome (serr + list BlockGraph) :=
  match items with
  | [] => Ok (inr blocks)
  | (k, v) :: items =>
      block ←? lex (decodeBlockGraph k v);
      let blocks := blocks ++ [block] in
      if Z.of_nat (length blocks) =? limit then Ok (inr blocks)
      else graphs_loop limit items blocks
  end.

Definition getBlockGraphs s (nodeID from limit : Z) : outcome (serr + list BlockGraph) :=
  opened s (
    let prefix := [blockGraphPrefix] ++ Lexinum.Encode nodeID ++ [0] in
    let start := prefix ++ Lexinum.Encode from in
    graphs_loop limit (valid_for prefix (kv_seek (s_db s) start)) []).

Fixpoint blocks_loop (db : DB) (keys : list bytes) : outcome (serr + list SignedData) :=
  match keys with
  | [] => Ok (inr [])
  | key :: keys =>
      val ←? Get db key;
      block ←? Unmarshal val;
      rest ←? blocks_loop db keys;
      Ok (inr (block :: rest))
  end.

Definition getBlocks s (ids : list BlockID) : outcome (serr + list SignedData) :=
  opened s (blocks_loop (s_db s) (blockKey <$> ids)).

Definition getDeliverAcknowledged s : outcome (serr + Z) :=
  opened s (
    val ←? Get (s_db s) [roundAcknowledgedPrefix];
    '(round, _) ← read_uint 8 val; Ok (inr round)).

(** The keys stored for a round are looked up one after the other. *)
Fixpoint interpreted_loop (db : DB) (n : nat) (val : bytes) : outcome (serr + list SignedData) :=
  match n with
  | O => Ok (inr [])
  | S n =>
      '(ksize, val) ← read_uint 2 val;
      '(key, val) ← read_n (Z.to_nat ksize) val;
      data ←? Get db key;
      block ←? Unmarshal data;
      rest ←? interpreted_loop db n val;
      Ok (inr (block :: rest))
  end.

Definition getInterpreted s (round : Z) : outcome (serr + list SignedData) :=
  opened s (
    val ←? Get (s_db s) (interpretedKey round);
    '(size, val) ← read_uint 8 val;
    interpreted_loop (s_db s) (Z.to_nat (int_of size)) val).

Definition getLastInterpreted s : outcome (serr + (Z * Z)) :=
  opened s (
    val ←? Get (s_db s) [lastInterpretedPrefix];
    '(round, val) ← read_uint 8 val;
    '(consumed, val) ← read_uint 8 val;
    Ok (inr (round, consumed))).

Definition getLastRoundData s : outcome (serr + (Z * bytes * SignedData)) :=
  opened s (
    hash ←? Get (s_db s) [lastHashPrefix];
    rval ←? Get (s_db s) [lastRoundPrefix];
    '(round, _) ← read_uint 8 rval;
    bval ←? Get (s_db s) [lastBlockRefPrefix];
    blockRef ←? Unmarshal bval;
    Ok (inr (round, hash, blockRef))).

(** [for i := latest + 1; i < next; i++]: the rounds between two stored ones, up
    to the limit.  The result says whether the limit was hit. *)
Fixpoint gap_loop (n : nat) (i limit : Z) (a : list Z * Z * Z) : bool * (list Z * Z * Z) :=
  match n with
  | O => (false, a)
  | S n =>
      let '(rounds, latest, added) := a in
      if added =? limit then (true, (rounds ++ [i], i, added))
      else gap_loop n (i + 1) limit (rounds ++ [i], i, added + 1)
  end.

Fixpoint missing_loop (limit : Z) (keys : list bytes) (a : list Z * Z * Z)
    : outcome (serr + (list Z * Z)) :=
  match keys with
  | [] => let '(rounds, latest, _) := a in Ok (inr (rounds, latest))
  | key :: keys =>
      next ←? lex (decodeBlockRound key);
      let '(_, latest, _) := a in
      let i := u64 (latest + 1) in
      let '(stop, (rounds, latest, added)) := gap_loop (Z.to_nat (next - i)) i limit a in
      if stop : bool then Ok (inr (rounds, latest))
      else missing_loop limit keys (rounds, next, added)
  end.

Definition getMissing s (nodeID since limit : Z) : outcome (serr + (list Z * Z)) :=
  opened s (
    let prefix := [blockPrefix] ++ Lexinum.Encode nodeID ++ [0] in
    let start := prefix ++ Lexinum.Encode (u64 (since + 1)) in
    missing_loop limit (valid_for prefix (kv_seek (s_db s) start)).*1 ([], since, 0)).

Fixpoint notIncluded_loop (db : DB) (keys : list bytes) : outcome (serr + list SignedData) :=
  match keys with
  | [] => Ok (inr [])
  | key :: keys =>
      k ← sub key 1 (length key);
      val ←? Get db ([blockPrefix] ++ k);
      block ←? Unmarshal val;
      rest ←? notIncluded_loop db keys;
      Ok (inr (block :: rest))
  end.

Fixpoint all_data (blocks : list SignedData) : outcome (list blockData) :=
  match blocks with
  | [] => Ok []
  | block :: blocks => d ← block_data block; ds ← all_data blocks; Ok (d :: ds)
  end.

Definition getNotIncluded s : outcome (serr + list blockData) :=
  opened s (
    let start := [notIncludedPrefix] in
    blocks ←? notIncluded_loop (s_db s) (valid_for start (kv_seek (s_db s) start)).*1;
    ds ← all_data blocks; Ok (inr ds)).

Definition getOwnBlock s (round : Z) : outcome (serr + SignedData) :=
  opened s (
    val ←? Get (s_db s) (ownBlockKey round);
    Unmarshal val).

Fixpoint received_loop (n : nat) (val : bytes) (data : receivedMap) : outcome receivedMap :=
  match n with
  | O => Ok data
  | S n =>
      '(k, val) ← read_uint 8 val;
      '(latest, val) ← read_uint 8 val;
      '(sequence, val) ← read_uint 8 val;
      received_loop n val (<[k := mkReceived latest sequence]> data)
  end.

Definition getReceivedMap s : outcome (serr + receivedMap) :=
  opened s (
    val ←? Get (s_db s) [receivedMapPrefix];
    '(n, val) ← read_uint 8 val;
    data ← received_loop (Z.to_nat (int_of n)) val ∅; Ok (inr data)).

(** The loop of [getRoundBlocks]: node and hash are read at fixed offsets. *)
Fixpoint round_blocks_loop (round : Z) (items : list (bytes * bytes)) (data : gmap BlockID Block)
    : outcome (serr + gmap BlockID Block) :=
  match items with
  | [] => Ok (inr data)
  | (key, val) :: items =>
      k ← sub key 21 (length key);
      nodeID ←? lex (Lexinum.Decode k);
      hash ← sub key 41 (length key);
      signed ←? (Unmarshal val : outcome (serr + SignedData));
      block ←? (Unmarshal (sd_Data signed) : outcome (serr + Block));
      round_blocks_loop round items (<[mkBlockID hash nodeID round := block]> data)
  end.
Definition getRoundBlocks s (round : Z) : outcome (serr + gmap BlockID Block) :=
  opened s (
    let prefix := [blockPrefix] ++ Lexinum.Encode round in
    round_blocks_loop round (valid_for prefix (kv_seek (s_db s) prefix)) ∅).

Fixpoint sent_loop (n : nat) (val : bytes) (data : gmap Z Z) : outcome (gmap Z Z) :=
  match n with
  | O => Ok data
  | S n =>
      '(k, val) ← read_uint 8 val;
      '(v, val) ← read_uint 8 val;
      sent_loop n val (<[k := v]> data)
  end.

Definition getSentMap s : outcome (serr + gmap Z Z) :=
  opened s (
    val ←? Get (s_db s) [sentMapPrefix];
    '(n, val) ← read_uint 8 val;
    data ← sent_loop (Z.to_nat (int_of n)) val ∅; Ok (inr data)).

Definition isIncluded s (id : BlockID) : outcome (serr + bool) :=
  opened s (
    match kv_get (s_db s) (includedKey id) with
    | inl KeyNotFound => Ok (inr false)
    | inl e => Ok (inl (DBErr e))
    | inr val => b ← or_panic (head val); Ok (inr (b =? 1))
    end).

(** ** Writers *)

(** [if s.closed { return errDBClosed }; ...; return s.db.Update(fn)] *)
Definition update s (fn : DB → serr + DB) : store DB * option serr :=
  if s_closed s then (s, Some DBClosed)
  else let '(db, e) := kv_update DBErr (s_db s) fn in (set_db s db, e).

(** [if err := m; err != nil { return err }] inside a transaction. *)
Definition andthen {A B} (m : dberr + A) (k : A → serr + B) : serr + B :=
  match m with inl e => inl (DBErr e) | inr a => k a end.
Definition Set_ (t : DB) (k v : bytes) : dberr + DB := kv_set t k v.
Definition Delete (t : DB) (k : bytes) : dberr + DB := kv_delete t k.
Definition finish (m : dberr + DB) : serr + DB := andthen m inr.

Fixpoint set_all (t : DB) (kvs : list (bytes * bytes)) (k : DB → serr + DB) : serr + DB :=
  match kvs with
  | [] => k t
  | (key, val) :: kvs => andthen (Set_ t key val) (λ t, set_all t kvs k)
  end.
Fixpoint delete_all (t : DB) (keys : list bytes) (k : DB → serr + DB) : serr + DB :=
  match keys with
  | [] => k t
  | key :: keys => andthen (Delete t key) (λ t, delete_all t keys k)
  end.

Definition setBlock s (id : BlockID) (block : SignedData) : store DB * option serr :=
  if s_closed s then (s, Some DBClosed)
  else match marshal block with
  | None => (s, Some ProtoErr)
  | Some val =>
      update s (λ t,
        match kv_get t (includedKey id) with
        | inr _ => inr t
        | inl KeyNotFound =>
            andthen (Set_ t (includedKey id) [0]) (λ t,
            andthen (Set_ t (notIncludedKey id) []) (λ t,
            finish (Set_ t (blockKey id) val)))
        | inl e => inl (DBErr e)
        end)
  end.

Definition setDeliverAcknowledged s (round : Z) : store DB * option serr :=
  update s (λ t, finish (Set_ t [roundAcknowledgedPrefix] (put_le 8 round))).

Definition encode_keys (keys : list bytes) : bytes :=
  put_le 8 (Z.of_nat (length keys)) ++ mjoin (put_sized <$> keys).

Definition setInterpreted s (data : Interpreted) : store DB * option serr :=
  let keys := blockKey <$> in_Blocks data in
  let lastVal := put_le 8 (in_Round data) ++ put_le 8 (in_Consumed data) in
  update s (λ t,
    andthen (Set_ t (interpretedKey (in_Round data)) (encode_keys keys)) (λ t,
    finish (Set_ t [lastInterpretedPrefix] lastVal))).

Definition setOwnBlock s (block blockRef : SignedData) (graph : BlockGraph)
    : store DB * option serr :=
  if s_closed s then (s, Some DBClosed)
  else match marshal block with
  | None => (s, Some ProtoErr)
  | Some val =>
      match marshal blockRef with
      | None => (s, Some ProtoErr)
      | Some blockRefVal =>
          let id := bg_Block graph in
          let delkeys := (λ ref, notIncludedKey (dep_Block ref)) <$> bg_Deps graph in
          let refkeys := (λ ref, (includedKey (dep_Block ref), [1])) <$> bg_Deps graph in
          update s (λ t,
            andthen (Set_ t (blockKey id) val) (λ t,
            andthen (Set_ t [lastBlockRefPrefix] blockRefVal) (λ t,
            andthen (Set_ t (blockGraphKey id) (encodeBlockGraph graph)) (λ t,
            andthen (Set_ t [lastHashPrefix] (Hash id)) (λ t,
            andthen (Set_ t [lastRoundPrefix] (put_le 8 (Round id))) (λ t,
            set_all t refkeys (λ t,
            delete_all t delkeys (λ t,
            finish (Set_ t (ownBlockKey (Round id)) val)))))))))
      end
  end.

(** The maps are written in the order Go iterates over them. *)
Definition encode_received (l : list (Z * receivedInfo)) : bytes :=
  put_le 8 (Z.of_nat (length l)) ++
  mjoin ((λ '(k, v), put_le 8 k ++ put_le 8 (ri_latest v) ++ put_le 8 (ri_sequence v)) <$> l).
Definition setReceivedMap s (data : list (Z * receivedInfo)) : store DB * option serr :=
  update s (λ t, finish (Set_ t [receivedMapPrefix] (encode_received data))).

Definition encode_sent (l : list (Z * Z)) : bytes :=
  put_le 8 (Z.of_nat (length l)) ++ mjoin ((λ '(k, v), put_le 8 k ++ put_le 8 v) <$> l).
Definition setSentMap s (data : list (Z * Z)) : store DB * option serr :=
  update s (λ t, finish (Set_ t [sentMapPrefix] (encode_sent data))).
End Ops.
End Store.
