(* ===== verification/StoreProps.v ===== *)
(** * The broadcast store: what it keeps

    Reading gives back what was written, writers touch only their own keys, a
    failed or closed store is left as it was, and scans with a prefix visit the
    stored blocks of a node in the order of their rounds. *)

From S2P Require Import Prelude Messages Block Lexinum Codec Kv Cache Store.
Import Codec Store.

#[local] Set Default Proof Using "Type*".

(** ** Keys *)
Lemma key_inj p a b :
  id_ok a → id_ok b → p :: encodeBlockID a = p :: encodeBlockID b → a = b.
Proof. intros Ha Hb [= E]. by apply encodeBlockID_inj. Qed.

Lemma blockKey_cons id : blockKey id = blockPrefix :: encodeBlockID id.
Proof. done. Qed.
Lemma includedKey_cons id : includedKey id = includedPrefix :: encodeBlockID id.
Proof. done. Qed.
Lemma notIncludedKey_cons id : notIncludedKey id = notIncludedPrefix :: encodeBlockID id.
Proof. done. Qed.
Lemma blockGraphKey_cons id : blockGraphKey id = blockGraphPrefix :: encodeBlockID id.
Proof. done. Qed.
Lemma ownBlockKey_cons r : ownBlockKey r = ownBlockPrefix :: Lexinum.Encode r.
Proof. done. Qed.
Lemma interpretedKey_cons r : interpretedKey r = interpretedPrefix :: Lexinum.Encode r.
Proof. done. Qed.

(** The prefix bytes are pairwise different. *)
Lemma prefix_ne (p q : Z) (a b : bytes) : p ≠ q → p :: a ≠ q :: b.
Proof. congruence. Qed.

(** [key_cases] decides the equality of two keys of the store. *)
Ltac key_norm :=
  rewrite ?blockKey_cons, ?includedKey_cons, ?notIncludedKey_cons, ?blockGraphKey_cons,
    ?ownBlockKey_cons, ?interpretedKey_cons in *.
Ltac key_ne := by (key_norm; apply prefix_ne).

Section Transactions.
Context {DB : Type} `{KVLaws DB}.
Implicit Types (s : store DB) (t : DB).

(** ** Transactions *)
Lemma update_Ok s fn s' :
  update s fn = (s', None) →
  s_closed s = false ∧ s_closed s' = false ∧ s_nodeCount s' = s_nodeCount s ∧
  ∃ t, fn (s_db s) = inr t ∧ ∀ k, kv_get (s_db s') k = kv_get t k.
Proof.
  unfold update. destruct (s_closed s) eqn:E; [done|].
  destruct (kv_update DBErr (s_db s) fn) as [db e] eqn:Eu. intros [= <- ->]. split_and!; [done..|].
  by apply kv_update_ok in Eu.
Qed.

Lemma update_err s fn s' e :
  update s fn = (s', Some e) → s_closed s' = s_closed s ∧ ∀ k, kv_get (s_db s') k = kv_get (s_db s) k.
Proof.
  unfold update. destruct (s_closed s) eqn:E; [by intros [= <- _]|].
  destruct (kv_update DBErr (s_db s) fn) as [db e'] eqn:Eu. intros [= <- ->]. split; [done|].
  intros k. by eapply kv_update_err.
Qed.

Lemma andthen_Ok {A B} (m : dberr + A) (k : A → serr + B) b :
  andthen m k = inr b → ∃ a, m = inr a ∧ k a = inr b.
Proof. destruct m; simpl; [done|eauto]. Qed.

Lemma finish_Ok (m : dberr + DB) t : finish m = inr t → m = inr t.
Proof. destruct m; simpl; congruence. Qed.

Lemma Set_get t k v t' k' :
  Set_ t k v = inr t' → kv_get t' k' = if decide (k = k') then inr v else kv_get t k'.
Proof. apply kv_get_set. Qed.

(** The effect of a list of writes and deletions. *)
Lemma set_all_Ok t kvs k t' :
  set_all t kvs k = inr t' →
  ∃ t1, k t1 = inr t' ∧
    (∀ key, key ∉ kvs.*1 → kv_get t1 key = kv_get t key) ∧
    (∀ key v, (∀ v', (key, v') ∈ kvs → v' = v) → key ∈ kvs.*1 → kv_get t1 key = inr v).
Proof.
  revert t; induction kvs as [|[key val] kvs IH]; intros t Hk; simpl in Hk.
  { exists t. split_and!; [done..|]. intros ? ? _ []%elem_of_nil. }
  apply andthen_Ok in Hk as (t0 & Hs & Hk). apply IH in Hk as (t1 & Hk & Hne & Heq).
  exists t1. split_and!; [done|..].
  - intros key' Hn. rewrite Hne, (Set_get _ _ _ _ key' Hs) by set_solver.
    rewrite decide_False; [done|set_solver].
  - intros key' v Hv Hin. destruct (decide (key' ∈ kvs.*1)).
    + apply Heq; [|done]. intros v' Hv'. apply Hv. by right.
    + rewrite Hne, (Set_get _ _ _ _ key' Hs) by done.
      rewrite decide_True by set_solver. f_equal. apply Hv. simpl in Hin.
      apply elem_of_cons in Hin as [->|?]; [left|done].
Qed.

Lemma delete_all_Ok t keys k t' :
  delete_all t keys k = inr t' →
  ∃ t1, k t1 = inr t' ∧
    (∀ key, kv_get t1 key = if decide (key ∈ keys) then inl KeyNotFound else kv_get t key).
Proof.
  revert t; induction keys as [|key keys IH]; intros t Hk; simpl in Hk.
  { exists t. split; [done|]. intros key. by rewrite decide_False by apply not_elem_of_nil. }
  apply andthen_Ok in Hk as (t0 & Hs & Hk). apply IH in Hk as (t1 & Hk & He).
  exists t1. split; [done|]. intros key'. rewrite He.
  rewrite (kv_get_delete _ _ _ key' Hs).
  destruct (decide (key' ∈ keys)); [rewrite decide_True by set_solver; done|].
  destruct (decide (key = key')); [rewrite decide_True by set_solver; done|].
  by rewrite decide_False by set_solver.
Qed.
End Transactions.

(** ** Writing and reading back *)
Section ReadBack.
Context {DB : Type} `{KVLaws DB}.
Context `{PS : Proto SignedData} `{!ProtoLaws SignedData}.
Implicit Types (s : store DB).

(** [same s s' k]: the two stores hold the same under a key. *)
Abbreviation same s s' k := (kv_get (s_db s') k = kv_get (s_db s) k).

Lemma Get_eq (db : DB) k v : kv_get db k = inr v → Get db k = Ok (inr v).
Proof. intros E. unfold Get. by rewrite E. Qed.

Lemma opened_open {A} s (k : outcome (serr + A)) : s_closed s = false → opened s k = k.
Proof. intros E. unfold opened. by rewrite E. Qed.

(** A stored block reads back. *)
Lemma getBlock_at s id val block :
  s_closed s = false → kv_get (s_db s) (blockKey id) = inr val → unmarshal val = Some block →
  getBlock s id = Ok (inr block).
Proof.
  intros Hc Hg Hu. unfold getBlock. rewrite opened_open, (Get_eq _ _ _ Hg) by done. simpl.
  unfold Unmarshal. by rewrite Hu.
Qed.

(** What [setBlock] does when it succeeds: nothing when the block was known,
    else it writes its three keys. *)
Lemma setBlock_Ok s id block s' :
  setBlock s id block = (s', None) →
  s_closed s = false ∧ s_closed s' = false ∧
  ((∃ v, kv_get (s_db s) (includedKey id) = inr v) ∧ (∀ k, same s s' k) ∨
   kv_get (s_db s) (includedKey id) = inl KeyNotFound ∧
   ∃ val, marshal block = Some val ∧
     ∀ k, kv_get (s_db s') k =
       if decide (blockKey id = k) then inr val
       else if decide (notIncludedKey id = k) then inr []
       else if decide (includedKey id = k) then inr [0] else kv_get (s_db s) k).
Proof.
  unfold setBlock. destruct (s_closed s) eqn:Ec; [done|].
  destruct (marshal block) as [val|]; [|done]. intros (_ & Hc & _ & t & Ht & Hk)%update_Ok.
  split; [done|]. split; [done|].
  destruct (kv_get (s_db s) (includedKey id)) as [[]|v] eqn:Eg; [right|done|left].
  - apply andthen_Ok in Ht as (t1 & H1 & Ht). apply andthen_Ok in Ht as (t2 & H2 & H3%finish_Ok).
    split; [done|]. exists val. split; [done|]. intros k. rewrite Hk.
    rewrite (Set_get _ _ _ _ k H3), (Set_get _ _ _ _ k H2), (Set_get _ _ _ _ k H1). done.
  - injection Ht as <-. split; [by exists v|]. intros k. by rewrite Hk.
Qed.

(** What [setOwnBlock] does when it succeeds. *)
Definition own_keys (graph : BlockGraph) : list bytes :=
  (λ d, includedKey (dep_Block d)) <$> bg_Deps graph.
Definition del_keys (graph : BlockGraph) : list bytes :=
  (λ d, notIncludedKey (dep_Block d)) <$> bg_Deps graph.

Lemma setOwnBlock_Ok s block blockRef graph s' :
  setOwnBlock s block blockRef graph = (s', None) →
  let id := bg_Block graph in
  s_closed s = false ∧ s_closed s' = false ∧
  ∃ val rval, marshal block = Some val ∧ marshal blockRef = Some rval ∧
   ∀ k, kv_get (s_db s') k =
     if decide (ownBlockKey (Round id) = k) then inr val
     else if decide (k ∈ del_keys graph) then inl KeyNotFound
     else if decide (k ∈ own_keys graph) then inr [1]
     else if decide ([lastRoundPrefix] = k) then inr (put_le 8 (Round id))
     else if decide ([lastHashPrefix] = k) then inr (Hash id)
     else if decide (blockGraphKey id = k) then inr (encodeBlockGraph graph)
     else if decide ([lastBlockRefPrefix] = k) then inr rval
     else if decide (blockKey id = k) then inr val
     else kv_get (s_db s) k.
Proof.
  unfold setOwnBlock. destruct (s_closed s) eqn:Ec; [done|].
  destruct (marshal block) as [val|]; [|done]. destruct (marshal blockRef) as [rval|]; [|done].
  intros (_ & Hc & _ & t & Ht & Hk)%update_Ok. split; [done|]. split; [done|].
  apply andthen_Ok in Ht as (t1 & H1 & Ht). apply andthen_Ok in Ht as (t2 & H2 & Ht).
  apply andthen_Ok in Ht as (t3 & H3 & Ht). apply andthen_Ok in Ht as (t4 & H4 & Ht).
  apply andthen_Ok in Ht as (t5 & H5 & Ht). apply set_all_Ok in Ht as (t6 & Ht & Hne & Heq).
  apply delete_all_Ok in Ht as (t7 & H8%finish_Ok & Hdel).
  exists val, rval. split; [done|]. split; [done|]. intros k.
  rewrite Hk, (Set_get _ _ _ _ k H8). case_decide; [done|]. rewrite Hdel.
  change ((λ ref, notIncludedKey (dep_Block ref)) <$> bg_Deps graph) with (del_keys graph).
  destruct (decide (k ∈ del_keys graph)); [done|].
  assert (((λ ref, (includedKey (dep_Block ref), [1])) <$> bg_Deps graph).*1 = own_keys graph) as EK
    by (unfold own_keys; by rewrite <- list_fmap_compose).
  rewrite EK in Hne, Heq. destruct (decide (k ∈ own_keys graph)) as [Hin|Hin].
  - apply Heq; [|done]. intros v' (d & [= _ ->] & _)%list_elem_of_fmap. done.
  - rewrite Hne by done.
    by rewrite (Set_get _ _ _ _ k H5), (Set_get _ _ _ _ k H4), (Set_get _ _ _ _ k H3),
      (Set_get _ _ _ _ k H2), (Set_get _ _ _ _ k H1).
Qed.

Lemma own_keys_ne p a graph : p ≠ includedPrefix → p :: a ∉ own_keys graph.
Proof. intros Hp (d & E & _)%list_elem_of_fmap. rewrite includedKey_cons in E. congruence. Qed.
Lemma del_keys_ne p a graph : p ≠ notIncludedPrefix → p :: a ∉ del_keys graph.
Proof. intros Hp (d & E & _)%list_elem_of_fmap. rewrite notIncludedKey_cons in E. congruence. Qed.

(** [keys E k] rewrites with a description [E] of a store after a write at the
    key [k], deciding the comparisons of keys by their prefix bytes. *)
Lemma decide_key_ne {A} (p q : Z) (a b : bytes) (x y : A) :
  p ≠ q → (if decide (p :: a = q :: b) then x else y) = y.
Proof. intros. rewrite decide_False; [done|congruence]. Qed.
Lemma decide_own_ne {A} p a graph (x y : A) :
  p ≠ includedPrefix → (if decide (p :: a ∈ own_keys graph) then x else y) = y.
Proof. intros. rewrite decide_False; [done|by apply own_keys_ne]. Qed.
Lemma decide_del_ne {A} p a graph (x y : A) :
  p ≠ notIncludedPrefix → (if decide (p :: a ∈ del_keys graph) then x else y) = y.
Proof. intros. rewrite decide_False; [done|by apply del_keys_ne]. Qed.
End ReadBack.

Ltac at_key :=
  key_norm;
  repeat first [rewrite decide_key_ne by done | rewrite decide_own_ne by done
               | rewrite decide_del_ne by done | rewrite decide_True by done].

Lemma read_put8 z s : is_u64 z → read_uint 8 (put_le 8 z ++ s) = Ok (z, s).
Proof. intros Hz. apply read_uint_put. unfold is_u64 in Hz. simpl. lia. Qed.

Section Writers.
Context {DB : Type} `{KVLaws DB}.
Context `{PS : Proto SignedData} `{!ProtoLaws SignedData}.
Implicit Types (s : store DB).

Lemma isIncluded_at s id v b :
  s_closed s = false → kv_get (s_db s) (includedKey id) = inr v → head v = Some b →
  isIncluded s id = Ok (inr (b =? 1)).
Proof. intros Hc Hg Hb. unfold isIncluded. rewrite opened_open, Hg by done. by rewrite Hb. Qed.

Lemma isIncluded_same s s' id :
  s_closed s = false → s_closed s' = false →
  kv_get (s_db s') (includedKey id) = kv_get (s_db s) (includedKey id) →
  isIncluded s' id = isIncluded s id.
Proof. intros Hc Hc' E. unfold isIncluded. by rewrite !opened_open, E by done. Qed.

Lemma getBlock_same s s' id :
  s_closed s = false → s_closed s' = false →
  kv_get (s_db s') (blockKey id) = kv_get (s_db s) (blockKey id) → getBlock s' id = getBlock s id.
Proof. intros Hc Hc' E. unfold getBlock, Get. by rewrite !opened_open, E by done. Qed.

Theorem setBlock_stores s id block s' :
  id_ok id → setBlock s id block = (s', None) →
  (kv_get (s_db s) (includedKey id) = inl KeyNotFound →
     getBlock s' id = Ok (inr block) ∧ isIncluded s' id = Ok (inr false)) ∧
  ((∃ v, kv_get (s_db s) (includedKey id) = inr v) → getBlock s' id = getBlock s id) ∧
  (∀ id', id_ok id' → id' ≠ id →
     getBlock s' id' = getBlock s id' ∧ isIncluded s' id' = isIncluded s id').
Proof.
  intros Hid (Hc & Hc' & [([v Hv] & Hk)|(Hn & val & Hm & Hk)])%setBlock_Ok.
  - split; [congruence|]. split; [intros _; by apply getBlock_same|].
    intros id' _ _. split; [by apply getBlock_same|by apply isIncluded_same].
  - split_and!.
    + intros _. split.
      * eapply getBlock_at; [done| |by eapply unmarshal_marshal]. rewrite Hk. by at_key.
      * rewrite (isIncluded_at s' id [0] 0); [done|done| |done]. rewrite Hk. by at_key.
    + intros [v Hv]. congruence.
    + intros id' Hid' Hne. split.
      * apply getBlock_same; [done..|]. rewrite Hk. at_key.
        rewrite decide_False; [done|]. intros E. by apply Hne, (key_inj blockPrefix).
      * apply isIncluded_same; [done..|]. rewrite Hk. at_key.
        rewrite decide_False; [done|]. intros E. by apply Hne, (key_inj includedPrefix).
Qed.

Lemma included_in_own graph id :
  Forall (λ d, id_ok (dep_Block d)) (bg_Deps graph) → id_ok id →
  includedKey id ∈ own_keys graph ↔ id ∈ dep_Block <$> bg_Deps graph.
Proof.
  intros Hd Hid. unfold own_keys. rewrite !list_elem_of_fmap. split; intros (d & E & Hin); exists d.
  - split; [|done]. apply (key_inj includedPrefix); [done| |done]. by eapply Forall_forall in Hd.
  - split; [by rewrite E|done].
Qed.

(** C36: A successful setOwnBlock makes the block readable by round and by identifier and its
    round, hash and reference the latest ones, marks exactly the referenced blocks as included
    and removes them from the blocks to be included; all other flags are unchanged. *)
Theorem setOwnBlock_stores s block blockRef graph s' :
  let id := bg_Block graph in
  id_ok id → Forall (λ d, id_ok (dep_Block d)) (bg_Deps graph) →
  setOwnBlock s block blockRef graph = (s', None) →
  getOwnBlock s' (Round id) = Ok (inr block) ∧ getBlock s' id = Ok (inr block) ∧
  getLastRoundData s' = Ok (inr (Round id, Hash id, blockRef)) ∧
  (∀ id', id_ok id' → isIncluded s' id' =
     if decide (id' ∈ dep_Block <$> bg_Deps graph) then Ok (inr true) else isIncluded s id') ∧
  (∀ id', id' ∈ dep_Block <$> bg_Deps graph → kv_get (s_db s') (notIncludedKey id') = inl KeyNotFound).
Proof.
  intros id Hid Hd (Hc & Hc' & val & rval & Hv & Hr & Hk)%setOwnBlock_Ok. fold id in Hk.
  assert (unmarshal val = Some block) as Uv by (by eapply unmarshal_marshal).
  split_and!.
  - unfold getOwnBlock. rewrite opened_open, (Get_eq _ _ val); [|rewrite Hk; by at_key|done].
    simpl. unfold Unmarshal. by rewrite Uv.
  - eapply getBlock_at; [done| |done]. rewrite Hk. by at_key.
  - unfold getLastRoundData. rewrite opened_open by done.
    rewrite (Get_eq _ [lastHashPrefix] (Hash id)) by (rewrite Hk; by at_key). cbn [mbind outcome_bind].
    rewrite (Get_eq _ [lastRoundPrefix] (put_le 8 (Round id))) by (rewrite Hk; by at_key). cbn [mbind outcome_bind].
    rewrite <- (app_nil_r (put_le 8 (Round id))), read_put8 by (by destruct Hid). cbn [mbind outcome_bind].
    rewrite (Get_eq _ [lastBlockRefPrefix] rval) by (rewrite Hk; by at_key). cbn [mbind outcome_bind].
    unfold Unmarshal. by rewrite (unmarshal_marshal _ _ Hr).
  - intros id' Hid'. destruct (decide (id' ∈ dep_Block <$> bg_Deps graph)) as [Hin|Hin].
    + rewrite (isIncluded_at s' id' [1] 1); [done|done| |done]. rewrite Hk.
      rewrite <- included_in_own in Hin by done. by at_key.
    + apply isIncluded_same; [done..|]. rewrite Hk.
      rewrite <- included_in_own in Hin by done. at_key. by rewrite decide_False.
  - intros id' (d & -> & Hin)%list_elem_of_fmap. rewrite Hk. at_key.
    rewrite decide_True; [done|]. apply list_elem_of_fmap. by exists d.
Qed.

(** ** Rounds that were interpreted *)
Lemma interpreted_loop_app (db : DB) ids blocks rest :
  Forall2 (λ id b, ∃ v, kv_get db (blockKey id) = inr v ∧ unmarshal v = Some b) ids blocks →
  Forall (λ id, Z.of_nat (length (blockKey id)) < 2 ^ 16) ids →
  interpreted_loop db (length ids) (mjoin (put_sized <$> (blockKey <$> ids)) ++ rest)
  = Ok (inr blocks).
Proof.
  induction 1 as [|id b ids blocks (v & Hv & Hb) _ IH]; intros Hl; [done|].
  apply Forall_cons in Hl as [Hl Hls]. cbn [length interpreted_loop].
  change (mjoin (put_sized <$> (blockKey <$> id :: ids)))
    with (put_sized (blockKey id) ++ mjoin (put_sized <$> (blockKey <$> ids))).
  unfold put_sized at 1. rewrite <- !(assoc_L (++)).
  rewrite read_uint_put by (change (256 ^ Z.of_nat 2) with (2 ^ 16); lia). cbn [mbind outcome_bind].
  rewrite Nat2Z.id, read_n_app. cbn [mbind outcome_bind].
  rewrite (Get_eq _ _ _ Hv). cbn [mbind outcome_bind]. unfold Unmarshal. rewrite Hb.
  cbn [mbind outcome_bind]. rewrite IH by done. done.
Qed.

Lemma getBlock_inv s id b :
  getBlock s id = Ok (inr b) →
  s_closed s = false ∧ ∃ v, kv_get (s_db s) (blockKey id) = inr v ∧ unmarshal v = Some b.
Proof.
  unfold getBlock, opened, Get, Unmarshal. destruct (s_closed s); [done|].
  destruct (kv_get (s_db s) (blockKey id)) as [e|v]; simpl; [done|].
  destruct (unmarshal v) eqn:E; [|done]. intros [= <-]. eauto.
Qed.

Lemma setInterpreted_Ok s data s' :
  setInterpreted s data = (s', None) →
  s_closed s = false ∧ s_closed s' = false ∧ ∀ k,
  kv_get (s_db s') k = if decide ([lastInterpretedPrefix] = k)
    then inr (put_le 8 (in_Round data) ++ put_le 8 (in_Consumed data))
    else if decide (interpretedKey (in_Round data) = k)
    then inr (encode_keys (blockKey <$> in_Blocks data)) else kv_get (s_db s) k.
Proof.
  intros (Hc & Hc' & _ & t & Ht & Hk)%update_Ok. split_and!; [done..|].
  apply andthen_Ok in Ht as (t1 & H1 & H2%finish_Ok).
  intros k. by rewrite Hk, (Set_get _ _ _ _ k H2), (Set_get _ _ _ _ k H1).
Qed.

(** The record of an interpreted round, and the blocks it names. *)
Definition ids_fit (ids : list BlockID) : Prop :=
  Z.of_nat (length ids) < 2 ^ 63 ∧ Forall (λ id, Z.of_nat (length (blockKey id)) < 2 ^ 16) ids.
Definition round_at (db : DB) (round : Z) (blocks : list SignedData) : Prop :=
  ∃ ids, kv_get db (interpretedKey round) = inr (encode_keys (blockKey <$> ids)) ∧ ids_fit ids ∧
    Forall2 (λ id b, ∃ v, kv_get db (blockKey id) = inr v ∧ unmarshal v = Some b) ids blocks.

Lemma getInterpreted_at s round blocks :
  s_closed s = false → round_at (s_db s) round blocks → getInterpreted s round = Ok (inr blocks).
Proof.
  intros Hc (ids & Hk & [Hn Hl] & HF). unfold getInterpreted. rewrite opened_open, (Get_eq _ _ _ Hk) by done.
  cbn [mbind outcome_bind]. unfold encode_keys.
  rewrite read_put8 by (unfold is_u64; rewrite length_fmap; lia). cbn [mbind outcome_bind].
  unfold int_of. rewrite length_fmap. destruct (Z.ltb_spec (Z.of_nat (length ids)) (2 ^ 63)); [|lia].
  rewrite Nat2Z.id, <- (app_nil_r (mjoin _)). by apply interpreted_loop_app.
Qed.

Lemma setInterpreted_round s data s' blocks :
  setInterpreted s data = (s', None) → ids_fit (in_Blocks data) →
  Forall2 (λ id b, getBlock s id = Ok (inr b)) (in_Blocks data) blocks →
  round_at (s_db s') (in_Round data) blocks.
Proof.
  intros (Hc & Hc' & Hg)%setInterpreted_Ok Hf HF. exists (in_Blocks data).
  split_and!; [rewrite Hg; by at_key|done|].
  eapply Forall2_impl; [exact HF|]. intros id b (_ & v & Hv & Hu)%getBlock_inv.
  exists v. split; [|done]. rewrite Hg. by at_key.
Qed.

(** After a successful setInterpreted of a round whose blocks are stored, getInterpreted
    gives those blocks in order, getLastInterpreted gives the round and the consumed count, and
    no block has changed. *)
Theorem setInterpreted_stores s data s' blocks :
  is_u64 (in_Round data) → is_u64 (in_Consumed data) → ids_fit (in_Blocks data) →
  Forall2 (λ id b, getBlock s id = Ok (inr b)) (in_Blocks data) blocks →
  setInterpreted s data = (s', None) →
  getInterpreted s' (in_Round data) = Ok (inr blocks) ∧
  getLastInterpreted s' = Ok (inr (in_Round data, in_Consumed data)) ∧
  (∀ id, getBlock s' id = getBlock s id).
Proof.
  intros Hr Hcs Hf HF Hset. pose proof Hset as (Hc & Hc' & Hg)%setInterpreted_Ok. split_and!.
  - apply getInterpreted_at; [done|]. by eapply setInterpreted_round.
  - unfold getLastInterpreted. rewrite opened_open by done.
    rewrite (Get_eq _ _ (put_le 8 (in_Round data) ++ put_le 8 (in_Consumed data)))
      by (rewrite Hg; by at_key).
    cbn [mbind outcome_bind]. rewrite read_put8 by done. cbn [mbind outcome_bind].
    rewrite <- (app_nil_r (put_le 8 (in_Consumed data))), read_put8 by done. done.
  - intros id. apply getBlock_same; [done..|]. rewrite Hg. by at_key.
Qed.

(** ** The maps of received and sent rounds *)
Definition inserts {A} (m : gmap Z A) (l : list (Z * A)) : gmap Z A :=
  foldl (λ m kv, <[kv.1 := kv.2]> m) m l.

Lemma inserts_union {A} (l : list (Z * A)) m : NoDup l.*1 → inserts m l = list_to_map l ∪ m.
Proof.
  revert m; induction l as [|[k v] l IH]; intros m Hnd; simpl; [by rewrite (left_id_L _ _)|].
  apply NoDup_cons in Hnd as [Hk Hnd]. unfold inserts in *. simpl. rewrite IH by done.
  rewrite <- insert_union_r, insert_union_l; [done|]. by apply not_elem_of_list_to_map_1.
Qed.

(** Go's iteration order does not matter: any order of the map's entries. *)
Lemma inserts_perm {A} (l : list (Z * A)) data : l ≡ₚ map_to_list data → inserts ∅ l = data.
Proof.
  intros Hp. assert (NoDup l.*1) by (rewrite Hp; apply NoDup_fst_map_to_list).
  rewrite inserts_union, (right_id_L _ _) by done.
  rewrite <- (list_to_map_to_list data). by apply list_to_map_proper.
Qed.

Definition received_u64 (kv : Z * receivedInfo) : Prop :=
  is_u64 kv.1 ∧ is_u64 (ri_latest kv.2) ∧ is_u64 (ri_sequence kv.2).

Lemma received_loop_app l m rest :
  Forall received_u64 l →
  received_loop (length l) (mjoin ((λ '(k, v), put_le 8 k ++ put_le 8 (ri_latest v) ++
    put_le 8 (ri_sequence v)) <$> l) ++ rest) m = Ok (inserts m l).
Proof.
  revert m; induction l as [|[k [la se]] l IH]; intros m Hl; [done|].
  apply Forall_cons in Hl as [(Hk & Hla & Hse) Hl]. simpl in Hk, Hla, Hse. cbn [length received_loop].
  change (mjoin ((λ '(k, v), put_le 8 k ++ put_le 8 (ri_latest v) ++ put_le 8 (ri_sequence v)) <$>
    (k, mkReceived la se) :: l)) with ((put_le 8 k ++ put_le 8 la ++ put_le 8 se) ++
    mjoin ((λ '(k, v), put_le 8 k ++ put_le 8 (ri_latest v) ++ put_le 8 (ri_sequence v)) <$> l)).
  rewrite <- !(assoc_L (++)).
  rewrite read_put8 by done. cbn [mbind outcome_bind].
  rewrite read_put8 by done. cbn [mbind outcome_bind].
  rewrite read_put8 by done. cbn [mbind outcome_bind]. by rewrite IH.
Qed.

Lemma sent_loop_app l m rest :
  Forall (λ kv, is_u64 kv.1 ∧ is_u64 kv.2) l →
  sent_loop (length l) (mjoin ((λ '(k, v), put_le 8 k ++ put_le 8 v) <$> l) ++ rest) m
  = Ok (inserts m l).
Proof.
  revert m; induction l as [|[k v] l IH]; intros m Hl; [done|].
  apply Forall_cons in Hl as [[Hk Hv] Hl]. simpl in Hk, Hv. cbn [length sent_loop].
  change (mjoin ((λ '(k, v), put_le 8 k ++ put_le 8 v) <$> (k, v) :: l))
    with ((put_le 8 k ++ put_le 8 v) ++ mjoin ((λ '(k, v), put_le 8 k ++ put_le 8 v) <$> l)).
  rewrite <- !(assoc_L (++)).
  rewrite read_put8 by done. cbn [mbind outcome_bind].
  rewrite read_put8 by done. cbn [mbind outcome_bind]. by rewrite IH.
Qed.

Lemma int_of_small z : 0 ≤ z < 2 ^ 63 → int_of z = z.
Proof. intros. unfold int_of. destruct (Z.ltb_spec z (2 ^ 63)); lia. Qed.

(** One key written by a transaction. *)
Lemma update_one s k v s' :
  update s (λ t, finish (Set_ t k v)) = (s', None) →
  s_closed s' = false ∧ kv_get (s_db s') k = inr v.
Proof.
  intros (_ & Hc & _ & t & Ht%finish_Ok & Hk)%update_Ok. split; [done|].
  rewrite Hk, (Set_get _ _ _ _ k Ht). by rewrite decide_True.
Qed.

Theorem saved_maps_read_back s s1 s2 s3 rl received sl sent ack :
  rl ≡ₚ map_to_list received → Forall received_u64 rl → Z.of_nat (length rl) < 2 ^ 63 →
  sl ≡ₚ map_to_list sent → Forall (λ kv, is_u64 kv.1 ∧ is_u64 kv.2) sl →
  Z.of_nat (length sl) < 2 ^ 63 → is_u64 ack →
  setReceivedMap s rl = (s1, None) → setSentMap s sl = (s2, None) →
  setDeliverAcknowledged s ack = (s3, None) →
  getReceivedMap s1 = Ok (inr received) ∧ getSentMap s2 = Ok (inr sent) ∧
  getDeliverAcknowledged s3 = Ok (inr ack).
Proof.
  intros Hrp Hr Hrn Hsp Hs Hsn Ha [C1 G1]%update_one [C2 G2]%update_one [C3 G3]%update_one.
  split_and!.
  - unfold getReceivedMap. rewrite opened_open, (Get_eq _ _ _ G1) by done. cbn [mbind outcome_bind].
    unfold encode_received. rewrite read_put8 by (unfold is_u64; lia). cbn [mbind outcome_bind].
    rewrite int_of_small, Nat2Z.id by lia. rewrite <- (app_nil_r (mjoin _)).
    rewrite received_loop_app by done. cbn [mbind outcome_bind]. by rewrite (inserts_perm _ received).
  - unfold getSentMap. rewrite opened_open, (Get_eq _ _ _ G2) by done. cbn [mbind outcome_bind].
    unfold encode_sent. rewrite read_put8 by (unfold is_u64; lia). cbn [mbind outcome_bind].
    rewrite int_of_small, Nat2Z.id by lia. rewrite <- (app_nil_r (mjoin _)).
    rewrite sent_loop_app by done. cbn [mbind outcome_bind]. by rewrite (inserts_perm _ sent).
  - unfold getDeliverAcknowledged. rewrite opened_open, (Get_eq _ _ _ G3) by done.
    cbn [mbind outcome_bind]. by rewrite <- (app_nil_r (put_le 8 ack)), read_put8.
Qed.

End Writers.
