(* ===== verification/StoreScan.v ===== *)
(** * Scans of the store

    A scan that starts inside a prefix visits exactly the stored keys with that
    prefix, in order.  So [getBlockGraphs] replays a node's blocks by round,
    [getNotIncluded] finds every block that was received and not referenced yet,
    and [getMissing] finds the gaps between the received rounds. *)

From S2P Require Import Prelude Messages Block Lexinum Codec Kv Cache Store StoreProps.
Import Codec Store.

#[local] Set Default Proof Using "Type*".

(** ** Prefixes *)

(** Keys between two keys with a prefix have the prefix. *)
Lemma between_prefix p a k b : bytes_le (p ++ a) k → bytes_le k (p ++ b) → p `prefix_of` k.
Proof.
  revert k; induction p as [|x p IH]; intros k Hl Hu; [by exists k|].
  destruct k as [|y k]; [done|]. simpl app in *.
  apply bytes_le_cons in Hl as [?|[-> Hl]]; apply bytes_le_cons in Hu as [?|[? Hu]]; try lia.
  destruct (IH k Hl Hu) as [z ->]. by exists z.
Qed.

Section Scan.
Context {DB : Type} `{KVLaws DB}.
Implicit Types (db : DB).

Lemma valid_for_filter p a l :
  StronglySorted key_le l → Forall (λ kv, bytes_le (p ++ a) kv.1) l →
  valid_for p l = filter (λ kv, p `prefix_of` kv.1) l.
Proof.
  induction 1 as [|kv l Hs IH Hh]; intros Hl; [done|].
  apply Forall_cons in Hl as [Hk Hl]. rewrite filter_cons. cbn [valid_for].
  case_bool_decide as Hp; [rewrite decide_True by done; f_equal; auto|].
  rewrite decide_False by done. symmetry. apply filter_none.
  intros kv' Hin [b Hb]. apply Hp.
  eapply Forall_forall in Hh; [|done]. unfold key_le in Hh. rewrite Hb in Hh.
  by eapply between_prefix.
Qed.

(** The items a scan visits. *)
Definition scan db (p a : bytes) : list (bytes * bytes) := valid_for p (kv_seek db (p ++ a)).

Lemma scan_elem db p a k v :
  (k, v) ∈ scan db p a ↔ p `prefix_of` k ∧ bytes_le (p ++ a) k ∧ kv_get db k = inr v.
Proof.
  unfold scan. rewrite (valid_for_filter p a).
  - rewrite list_elem_of_filter, kv_seek_elem. naive_solver.
  - apply kv_seek_sorted.
  - apply Forall_forall. intros [k' v'] Hin%kv_seek_elem. apply Hin.
Qed.

Lemma scan_sorted db p a : StronglySorted key_le (scan db p a).
Proof.
  unfold scan. rewrite (valid_for_filter p a).
  - apply StronglySorted_filter, kv_seek_sorted.
  - apply kv_seek_sorted.
  - apply Forall_forall. intros [k' v'] Hin%kv_seek_elem. apply Hin.
Qed.

Lemma scan_nodup db p a : NoDup (scan db p a).*1.
Proof.
  unfold scan. rewrite (valid_for_filter p a).
  - eapply sublist_NoDup; [apply kv_seek_nodup|]. apply fmap_sublist, sublist_filter.
  - apply kv_seek_sorted.
  - apply Forall_forall. intros [k' v'] Hin%kv_seek_elem. apply Hin.
Qed.

(** A scan gives what the keys under the prefix hold. *)
Lemma scan_ext db db' p a :
  (∀ k, p `prefix_of` k → kv_get db' k = kv_get db k) → scan db' p a = scan db p a.
Proof.
  intros E. apply (StronglySorted_unique_strong key_le); [|apply scan_sorted..|].
  - intros [k v] [k' v'] (Hp & _ & H1)%scan_elem (_ & _ & H2)%scan_elem L1 L2.
    assert (k = k') as <- by (by apply bytes_le_antisym). rewrite E in H1 by done. congruence.
  - apply NoDup_Permutation; [eapply NoDup_fmap_1, scan_nodup..|]. intros [k v].
    rewrite !scan_elem. split; intros (Hp & Hl & Hg); (split_and!; [done..|]); [by rewrite <- E|by rewrite E].
Qed.
End Scan.

(** ** Keys of blocks in order *)
Lemma sorted_ids p (P : bytes * bytes → BlockID → Prop) l ids :
  (∀ kv id, P kv id → id_ok id ∧ kv.1 = p :: encodeBlockID id) →
  StronglySorted key_le l → NoDup l.*1 → Forall2 P l ids → StronglySorted id_lt ids.
Proof.
  intros HP Hs Hnd HF. revert Hs Hnd. induction HF as [|kv id l ids Hp HF IH]; intros Hs Hnd;
    [constructor|].
  apply StronglySorted_inv in Hs as [Hs Hh]. apply NoDup_cons in Hnd as [Hn Hnd].
  constructor; [auto|]. apply Forall_forall.
  intros id' (kv' & Hin & Hp')%(Forall2_elem_r _ _ _ _ HF).
  destruct (HP _ _ Hp) as [Hok Hk], (HP _ _ Hp') as [Hok' Hk'].
  apply encodeBlockID_lt_inv; [done..|]. eapply Forall_forall in Hh; [|done].
  unfold key_le in Hh. apply bytes_lt_iff. split.
  - rewrite Hk, Hk' in Hh. apply bytes_le_cons in Hh as [?|[_ ?]]; [lia|done].
  - intros E. apply Hn. rewrite Hk, E, <- Hk'. by apply list_elem_of_fmap_2.
Qed.

Section Graphs.
Context {DB : Type} `{KVLaws DB}.
Implicit Types (s : store DB) (db : DB).

(** Everything stored under the graph prefix is the graph of a block. *)
Definition graphs_ok db : Prop :=
  ∀ k v, kv_get db (blockGraphPrefix :: k) = inr v →
    ∃ bg, graph_fits bg ∧ k = encodeBlockID (bg_Block bg) ∧ v = encodeBlockGraph bg.

Definition stored_graph db (bg : BlockGraph) : Prop :=
  graph_fits bg ∧ kv_get db (blockGraphKey (bg_Block bg)) = inr (encodeBlockGraph bg).

Lemma graphs_loop_app limit items bgs acc :
  Forall2 (λ kv bg, kv = (blockGraphKey (bg_Block bg), encodeBlockGraph bg) ∧ graph_fits bg) items bgs →
  Z.of_nat (length acc) < limit ∨ limit ≤ 0 →
  graphs_loop limit items acc = Ok (inr (
    if 0 <? limit then take (Z.to_nat limit) (acc ++ (clean_graph <$> bgs))
    else acc ++ (clean_graph <$> bgs))).
Proof.
  intros HF. revert acc. induction HF as [|kv bg items bgs [-> Hfit] HF IH]; intros acc Hl.
  - simpl. rewrite app_nil_r. destruct (Z.ltb_spec 0 limit); [|done]. rewrite take_ge; [done|lia].
  - cbn [graphs_loop]. unfold lex. rewrite decode_encode_graph by done. cbn [mbind outcome_bind].
    rewrite length_app. cbn [length].
    replace (acc ++ (clean_graph <$> bg :: bgs))
      with ((acc ++ [clean_graph bg]) ++ (clean_graph <$> bgs))
      by (rewrite <- (assoc_L (++)); done).
    destruct (Z.eqb_spec (Z.of_nat (length acc + 1)) limit) as [E|Hne].
    + destruct (Z.ltb_spec 0 limit); [|lia]. rewrite take_app_le by (rewrite length_app; simpl; lia).
      rewrite take_ge; [done|rewrite length_app; simpl; lia].
    + apply IH. rewrite length_app. simpl. lia.
Qed.

Lemma clean_graph_unique bg bg' :
  graph_fits bg → graph_fits bg' → bg_Block bg = bg_Block bg' →
  encodeBlockGraph bg = encodeBlockGraph bg' → clean_graph bg = clean_graph bg'.
Proof.
  intros H1%decode_encode_graph H2%decode_encode_graph EB EV. rewrite EB, EV in H1. congruence.
Qed.

(** The graphs of a node from a round on, in order. *)
Lemma scan_graphs db node from :
  graphs_ok db → is_u64 node → is_u64 from →
  ∃ bgs, Forall2 (λ kv bg, kv = (blockGraphKey (bg_Block bg), encodeBlockGraph bg) ∧ graph_fits bg)
           (scan db (node_prefix blockGraphPrefix node) (Lexinum.Encode from)) bgs ∧
    StronglySorted id_lt (bg_Block <$> bgs) ∧
    (∀ bg, stored_graph db bg → Node (bg_Block bg) = node → from ≤ Round (bg_Block bg) →
       clean_graph bg ∈ clean_graph <$> bgs) ∧
    (∀ bg, bg ∈ bgs → stored_graph db bg ∧ Node (bg_Block bg) = node ∧ from ≤ Round (bg_Block bg)).
Proof.
  intros Hok Hn Hf. set (items := scan _ _ _).
  destruct (Forall_choose (λ kv bg, kv = (blockGraphKey (bg_Block bg), encodeBlockGraph bg) ∧
    graph_fits bg) items) as [bgs HF].
  { apply Forall_forall. intros [k v] ([z Ez] & _ & Hg)%scan_elem.
    unfold node_prefix in Ez. simpl in Ez. rewrite Ez in Hg.
    destruct (Hok _ _ Hg) as (bg & Hfit & E & ->). exists bg. split; [|done].
    by rewrite Ez, E, blockGraphKey_cons. }
  exists bgs. split; [done|]. split_and!.
  - eapply (sorted_ids blockGraphPrefix (λ kv id, id_ok id ∧ kv.1 = blockGraphPrefix :: encodeBlockID id));
      [done|apply scan_sorted|apply scan_nodup|].
    apply Forall2_fmap_r. eapply Forall2_impl; [exact HF|]. intros kv bg [-> []]. by split.
  - intros bg [Hfit Hg] Hnode Hr. pose proof Hfit as [Hid _ _ _].
    destruct (Forall2_elem_l _ _ _ (blockGraphKey (bg_Block bg), encodeBlockGraph bg) HF)
      as (bg' & Hin & [E Hfit']).
    { apply scan_elem. split_and!; [by apply node_prefix_key|by apply node_prefix_from|done]. }
    apply pair_equal_spec in E as [E1 E2]. apply list_elem_of_fmap. exists bg'. split; [|done].
    apply clean_graph_unique; try done. apply (key_inj blockGraphPrefix); [done|apply Hfit'|].
    exact E1.
  - intros bg ([k v] & Hin & [E Hfit])%(Forall2_elem_r _ _ _ _ HF).
    apply scan_elem in Hin as (Hp & Hle & Hg). apply pair_equal_spec in E as [-> ->].
    pose proof Hfit as [Hid _ _ _].
    assert (Node (bg_Block bg) = node) as Hnode by (by apply (node_prefix_key blockGraphPrefix)).
    split_and!; [done..|]. by apply (node_prefix_from blockGraphPrefix node).
Qed.

Lemma getBlockGraphs_scan s node from limit :
  s_closed s = false → graphs_ok (s_db s) → is_u64 node → is_u64 from →
  ∃ gs, getBlockGraphs s node from limit
          = Ok (inr (if 0 <? limit then take (Z.to_nat limit) gs else gs)) ∧
    StronglySorted id_lt (bg_Block <$> gs) ∧
    (∀ g, g ∈ gs ↔ ∃ bg, stored_graph (s_db s) bg ∧ Node (bg_Block bg) = node ∧
                         from ≤ Round (bg_Block bg) ∧ g = clean_graph bg).
Proof.
  intros Hc Hok Hn Hf. destruct (scan_graphs (s_db s) node from Hok Hn Hf)
    as (bgs & HF & Hs & Hall & Hin). exists (clean_graph <$> bgs). split_and!.
  - unfold getBlockGraphs. rewrite opened_open by done.
    apply (graphs_loop_app limit _ bgs [] HF). simpl; lia.
  - rewrite <- list_fmap_compose. done.
  - intros g. rewrite list_elem_of_fmap. split.
    + intros (bg & -> & Hbg). apply Hin in Hbg as (? & ? & ?). by exists bg.
    + intros (bg & Hst & Hnode & Hr & ->). specialize (Hall bg Hst Hnode Hr).
      apply list_elem_of_fmap in Hall as (bg' & ? & ?). by exists bg'.
Qed.
(** getBlockGraphs gives the stored block graphs of the node from the given round on,
    sorted by round, cut at a positive limit. *)
Theorem getBlockGraphs_in_order s node from limit :
  s_closed s = false → graphs_ok (s_db s) → is_u64 node → is_u64 from →
  ∃ gs, getBlockGraphs s node from limit
          = Ok (inr (if 0 <? limit then take (Z.to_nat limit) gs else gs)) ∧
    StronglySorted id_lt (bg_Block <$> gs) ∧
    (∀ g, g ∈ gs ↔ ∃ bg, stored_graph (s_db s) bg ∧ Node (bg_Block bg) = node ∧
                         from ≤ Round (bg_Block bg) ∧ g = clean_graph bg).
Proof. apply getBlockGraphs_scan. Qed.
End Graphs.
