(* ===== verification/StoreInv.v ===== *)
(** * The invariant of the store

    Whatever sequence of writes the broadcast service makes, the keys of the
    store stay consistent: a block waits for inclusion exactly when its
    inclusion flag is zero, and a waiting block is stored.  The flags are tied to
    the [history] of the writes: a block's flag is one when the graph of an own
    block that was written names it, and zero when the block was written and no
    such graph names it.  Hence [getNotIncluded] finds the blocks to hand to the
    dependency graph after a restart. *)

From S2P Require Import Prelude Messages Block Lexinum Codec Kv Cache Store StoreProps StoreScan.
Import Codec Store.

#[local] Set Default Proof Using "Type*".

Section Invariant.
Context {DB : Type} `{KVLaws DB}.
Context `{PS : Proto SignedData} `{!ProtoLaws SignedData}.
Implicit Types (s : store DB) (db : DB).

Record store_inv db : Prop := {
  si_graphs : graphs_ok db;
  si_blocks : ∀ k v, kv_get db (blockPrefix :: k) = inr v →
    ∃ id b, id_ok id ∧ k = encodeBlockID id ∧ unmarshal v = Some b;
  si_waiting : ∀ k v, kv_get db (notIncludedPrefix :: k) = inr v →
    ∃ id, id_ok id ∧ k = encodeBlockID id ∧ kv_get db (includedKey id) = inr [0] ∧
      ∃ bv, kv_get db (blockKey id) = inr bv;
  si_flag : ∀ id, id_ok id → kv_get db (includedKey id) = inr [0] →
    ∃ v, kv_get db (notIncludedKey id) = inr v }.

(** The writes of the service: block IDs hold 64-bit numbers, graphs fit their
    encoding. *)
Definition deps_ok (g : BlockGraph) : Prop := Forall (λ d, id_ok (dep_Block d)) (bg_Deps g).

Inductive write_op :=
  | SetBlock (id : BlockID) (block : SignedData)
  | SetOwnBlock (block blockRef : SignedData) (graph : BlockGraph)
  | SetAcknowledged (round : Z)
  | SetInterpreted (data : Interpreted)
  | SetReceived (m : list (Z * receivedInfo))
  | SetSent (m : list (Z * Z)).

Definition perform s (op : write_op) : store DB * option serr :=
  match op with
  | SetBlock id block => setBlock s id block
  | SetOwnBlock block blockRef graph => setOwnBlock s block blockRef graph
  | SetAcknowledged round => setDeliverAcknowledged s round
  | SetInterpreted data => setInterpreted s data
  | SetReceived m => setReceivedMap s m
  | SetSent m => setSentMap s m
  end.
Definition op_ok (op : write_op) : Prop :=
  match op with SetBlock id _ => id_ok id | SetOwnBlock _ _ graph => graph_fits graph | _ => True end.

(** The writes that succeeded, in order, from the store [s0] on; the ones that failed are not
    part of the history. *)
Inductive history (s0 : store DB) : list write_op → store DB → Prop :=
  | history_nil : history s0 [] s0
  | history_ok h s op s' : history s0 h s → op_ok op → perform s op = (s', None) → history s0 (h ++ [op]) s'
  | history_failed h s op s' e : history s0 h s → op_ok op → perform s op = (s', Some e) → history s0 h s'.

(** What a history says of a block: it was received; an own block references it. *)
Definition receives (id : BlockID) (op : write_op) : bool :=
  match op with SetBlock id' _ => bool_decide (id' = id) | _ => false end.
Definition references (id : BlockID) (op : write_op) : bool :=
  match op with SetOwnBlock _ _ graph => bool_decide (id ∈ dep_Block <$> bg_Deps graph) | _ => false end.
Definition flag_of (h : list write_op) (id : BlockID) : dberr + bytes :=
  if existsb (references id) h then inr [1]
  else if existsb (receives id) h then inr [0] else inl KeyNotFound.

Lemma graph_fits_deps g : graph_fits g → deps_ok g.
Proof.
  intros [_ _ Hd _]. unfold deps_ok. eapply Forall_impl; [exact Hd|]. by intros d [[] _ _ _].
Qed.

(** Writes under other prefixes keep the invariant. *)
Lemma store_inv_frame db db' :
  (∀ p k, p ∈ [blockPrefix; blockGraphPrefix; includedPrefix; notIncludedPrefix] →
     kv_get db' (p :: k) = kv_get db (p :: k)) →
  store_inv db → store_inv db'.
Proof.
  intros Hf [G B W F].
  assert (∀ id, kv_get db' (includedKey id) = kv_get db (includedKey id)) as EI
    by (intros; apply Hf; set_solver).
  assert (∀ id, kv_get db' (blockKey id) = kv_get db (blockKey id)) as EB
    by (intros; apply Hf; set_solver).
  assert (∀ id, kv_get db' (notIncludedKey id) = kv_get db (notIncludedKey id)) as EN
    by (intros; apply Hf; set_solver).
  split.
  - intros k v. rewrite Hf by set_solver. apply G.
  - intros k v. rewrite Hf by set_solver. apply B.
  - intros k v. rewrite Hf by set_solver. intros (id & Hid & -> & HI & bv & HB)%W.
    exists id. rewrite EI, EB. eauto.
  - intros id Hid. rewrite EI, EN. by apply F.
Qed.

Definition tracked (p : Z) : Prop :=
  p ∈ [blockPrefix; blockGraphPrefix; includedPrefix; notIncludedPrefix].

Lemma update_other s fn s' :
  (∀ t t', fn t = inr t' → ∀ p k, tracked p → kv_get t' (p :: k) = kv_get t (p :: k)) →
  update s fn = (s', None) → ∀ p k, tracked p → kv_get (s_db s') (p :: k) = kv_get (s_db s) (p :: k).
Proof.
  intros Hfn (_ & _ & _ & t & Ht & Hk)%update_Ok p k Hp. rewrite Hk. by eapply Hfn.
Qed.

Lemma Set_other (t t' : DB) q j v p k :
  Set_ t (q :: j) v = inr t' → tracked p → ¬ tracked q → kv_get t' (p :: k) = kv_get t (p :: k).
Proof.
  intros Hs Hp Hq. rewrite (Set_get _ _ _ _ (p :: k) Hs). rewrite decide_False; [done|].
  intros [= -> _]. done.
Qed.

Lemma untracked q : q ∉ [blockPrefix; blockGraphPrefix; includedPrefix; notIncludedPrefix] → ¬ tracked q.
Proof. done. Qed.

Lemma store_inv_setBlock s id block s' :
  id_ok id → setBlock s id block = (s', None) → store_inv (s_db s) → store_inv (s_db s').
Proof.
  intros Hid E Hi. apply setBlock_Ok in E as (_ & _ & [(_ & Hk)|(Hn & val & Hm & Hk)]).
  { eapply store_inv_frame; [|exact Hi]. intros; apply Hk. }
  pose proof Hi as [G B W F].
  assert (∀ id', id_ok id' → id' ≠ id →
    kv_get (s_db s') (includedKey id') = kv_get (s_db s) (includedKey id') ∧
    kv_get (s_db s') (notIncludedKey id') = kv_get (s_db s) (notIncludedKey id')) as Hne.
  { intros id' Hid' Hne. rewrite !Hk. split; at_key.
    all: rewrite decide_False; [by at_key|]; intros E%key_inj; [|done..]; by apply Hne. }
  assert (kv_get (s_db s') (includedKey id) = inr [0] ∧
    kv_get (s_db s') (notIncludedKey id) = inr [] ∧ kv_get (s_db s') (blockKey id) = inr val)
    as (HI & HN & HB) by (rewrite !Hk; split_and!; by at_key).
  split.
  - intros k v. rewrite Hk. at_key. apply G.
  - intros k v. rewrite Hk. at_key. case_decide as E; [|apply B].
    intros [= <-]. injection E as <-. exists id, block. by rewrite (unmarshal_marshal _ _ Hm).
  - intros k v. rewrite Hk. at_key. case_decide as E.
    + intros _. injection E as <-. exists id. eauto.
    + intros (id' & Hid' & -> & Hf & bv & Hb)%W. exists id'.
      destruct (decide (id' = id)) as [->|Hd]; [eauto|]. destruct (Hne id' Hid' Hd) as [-> _].
      split_and!; [done..|]. rewrite Hk. at_key. case_decide; eauto.
  - intros id' Hid' Hf. destruct (decide (id' = id)) as [->|Hd]; [eauto|].
    destruct (Hne id' Hid' Hd) as [E1 E2]. rewrite E1 in Hf. rewrite E2. by apply F.
Qed.

Lemma in_del_keys g id :
  deps_ok g → id_ok id → notIncludedKey id ∈ del_keys g ↔ id ∈ dep_Block <$> bg_Deps g.
Proof.
  intros Hd Hid. unfold del_keys. rewrite !list_elem_of_fmap. split; intros (d & E & Hin); exists d.
  - split; [|done]. apply (key_inj notIncludedPrefix); [done| |done]. by eapply Forall_forall in Hd.
  - split; [by rewrite E|done].
Qed.

Lemma store_inv_setOwnBlock s b r g s' :
  graph_fits g → setOwnBlock s b r g = (s', None) → store_inv (s_db s) → store_inv (s_db s').
Proof.
  intros Hg E Hi. pose proof (graph_fits_deps g Hg) as Hd. pose proof Hg as [Hid _ _ _].
  apply setOwnBlock_Ok in E as (_ & _ & val & rval & Hv & Hr & Hk). pose proof Hi as [G B W F].
  assert (∀ id, id_ok id → id ∈ dep_Block <$> bg_Deps g →
    kv_get (s_db s') (notIncludedKey id) = inl KeyNotFound ∧
    kv_get (s_db s') (includedKey id) = inr [1]) as Hin.
  { intros id Hok Hdep. rewrite !Hk. rewrite <- (in_del_keys g id) in Hdep by done. split.
    - at_key. done.
    - rewrite in_del_keys, <- included_in_own in Hdep by done. at_key. done. }
  assert (∀ id, id_ok id → id ∉ dep_Block <$> bg_Deps g →
    kv_get (s_db s') (notIncludedKey id) = kv_get (s_db s) (notIncludedKey id) ∧
    kv_get (s_db s') (includedKey id) = kv_get (s_db s) (includedKey id)) as Hout.
  { intros id Hok Hdep. rewrite !Hk. split.
    - rewrite <- (in_del_keys g id) in Hdep by done. at_key. by rewrite decide_False.
    - rewrite <- (included_in_own g id) in Hdep by done. at_key. by rewrite decide_False. }
  assert (∀ id v, kv_get (s_db s) (blockKey id) = inr v →
    ∃ v', kv_get (s_db s') (blockKey id) = inr v') as Hblk.
  { intros id v Hb. rewrite Hk. at_key. case_decide; eauto. }
  split.
  - intros k v. rewrite Hk. at_key. case_decide as E; [|apply G].
    intros [= <-]. injection E as <-. by exists g.
  - intros k v. rewrite Hk. at_key. case_decide as E; [|apply B].
    intros [= <-]. injection E as <-. exists (bg_Block g), b. by rewrite (unmarshal_marshal _ _ Hv).
  - intros k v Hg'. assert (notIncludedPrefix :: k ∉ del_keys g) as Hnd.
    { intros Hdel. revert Hg'. rewrite Hk. at_key. done. }
    pose proof Hg' as Hold. rewrite Hk in Hold. revert Hold. at_key.
    rewrite decide_False by done. intros (id & Hok & -> & Hf & bv & Hb)%W.
    rewrite <- notIncludedKey_cons, in_del_keys in Hnd by done. exists id.
    destruct (Hout id Hok Hnd) as [_ ->]. eauto.
  - intros id Hok Hf. destruct (decide (id ∈ dep_Block <$> bg_Deps g)) as [Hd'|Hd'].
    + destruct (Hin id Hok Hd') as [_ E]. congruence.
    + destruct (Hout id Hok Hd') as [E1 E2]. rewrite E2 in Hf. rewrite E1. by apply F.
Qed.

(** The other writes leave blocks, graphs and flags alone, and so do all that fail. *)
Lemma perform_other s op s' :
  (∀ id b, op ≠ SetBlock id b) → (∀ b r g, op ≠ SetOwnBlock b r g) → perform s op = (s', None) →
  ∀ p k, tracked p → kv_get (s_db s') (p :: k) = kv_get (s_db s) (p :: k).
Proof.
  intros N1 N2. destruct op; cbn [perform]; try (by exfalso; naive_solver); apply update_other.
  all: intros t t'; try (intros Ht%finish_Ok p k Hp; eapply Set_other; [done..|]; apply untracked; set_solver).
  intros (t1 & H1 & H2%finish_Ok)%andthen_Ok p k Hp.
  transitivity (kv_get t1 (p :: k)); (eapply Set_other; [done..|]); apply untracked; set_solver.
Qed.

Lemma perform_failed s op s' e :
  perform s op = (s', Some e) → ∀ k, kv_get (s_db s') k = kv_get (s_db s) k.
Proof.
  intros E. assert (s' = s ∨ ∃ fn, update s fn = (s', Some e)) as [->|[fn Hu]]; [|done|by eapply update_err].
  destruct op; cbn [perform] in E; unfold setBlock, setOwnBlock in E; repeat case_match; simplify_eq; eauto.
Qed.

Lemma store_inv_op s op s' :
  op_ok op → perform s op = (s', None) → store_inv (s_db s) → store_inv (s_db s').
Proof.
  intros Hok E Hi. pose proof (λ N1 N2, perform_other _ _ _ N1 N2 E) as F.
  destruct op; try (eapply store_inv_frame; [|exact Hi]; by apply F).
  - by eapply store_inv_setBlock.
  - by eapply store_inv_setOwnBlock.
Qed.

Lemma history_inv s0 h s : history s0 h s → store_inv (s_db s0) → store_inv (s_db s).
Proof.
  intros Hh Hi. induction Hh as [|h s op s' _ IH Hok E|h s op s' e _ IH Hok E]; [done|by eapply store_inv_op|].
  eapply store_inv_frame; [|exact IH]. intros p k _. by eapply perform_failed.
Qed.

(** ** The flags and the history *)
Definition next_flag (id : BlockID) (op : write_op) (f : dberr + bytes) : dberr + bytes :=
  if references id op then inr [1]
  else match f with
       | inl KeyNotFound => if receives id op then inr [0] else inl KeyNotFound
       | f => f
       end.
Lemma flag_of_snoc h op id :
  flag_of (h ++ [op]) id = next_flag id op (flag_of h id).
Proof.
  unfold flag_of, next_flag. rewrite !existsb_app. simpl. rewrite !orb_false_r.
  by destruct (existsb (references id) h), (references id op), (existsb (receives id) h), (receives id op).
Qed.

Lemma flag_op s op s' id f :
  op_ok op → id_ok id → perform s op = (s', None) → kv_get (s_db s) (includedKey id) = f →
  kv_get (s_db s') (includedKey id) = next_flag id op f.
Proof.
  intros Hok Hid E <-. unfold next_flag.
  destruct (match op with SetBlock _ _ | SetOwnBlock _ _ _ => false | _ => true end) eqn:Eo.
  { assert (references id op = false ∧ receives id op = false) as [-> ->] by (by destruct op).
    rewrite includedKey_cons, (perform_other s op s') by (done || set_solver || by destruct op).
    by destruct (kv_get _ _) as [[]|]. }
  destruct op as [id' b|b r g| | | |]; try done; cbn [perform references receives op_ok] in *.
  - apply setBlock_Ok in E as (_ & _ & [([v Hv] & Hk)|(Hn & val & _ & Hk)]); rewrite Hk.
    + case_bool_decide as En; [subst; by rewrite Hv|]. by destruct (kv_get _ (includedKey id)) as [[]|].
    + at_key. case_bool_decide as En; [subst; rewrite decide_True, Hn by done; done|].
      rewrite decide_False by (intros E'%(key_inj includedPrefix); done). rewrite <- ?includedKey_cons.
      by destruct (kv_get _ (includedKey id)) as [[]|].
  - apply setOwnBlock_Ok in E as (_ & _ & val & rval & _ & _ & Hk). rewrite Hk.
    pose proof (included_in_own g id (graph_fits_deps g Hok) Hid) as Hin. at_key. case_bool_decide as Ed.
    + by rewrite decide_True by (by apply Hin).
    + rewrite decide_False by (by rewrite Hin). rewrite <- ?includedKey_cons.
      by destruct (kv_get _ (includedKey id)) as [[]|].
Qed.

Lemma history_flags s0 h s id :
  history s0 h s → (∀ k, kv_get (s_db s0) k = inl KeyNotFound) → id_ok id →
  kv_get (s_db s) (includedKey id) = flag_of h id.
Proof.
  intros Hh H0' Hid. induction Hh as [|h s op s' _ IH Hok E|h s op s' e _ IH Hok E].
  - apply H0'.
  - rewrite flag_of_snoc. by eapply flag_op.
  - by rewrite (perform_failed _ _ _ _ E).
Qed.
End Invariant.

(** ** Blocks waiting for inclusion *)
Section Waiting.
Context {DB : Type} `{KVLaws DB}.
Context `{PS : Proto SignedData} `{!ProtoLaws SignedData}.
Implicit Types (s : store DB) (db : DB).

(** The flag of a block that waits for an own block that references it. *)
Definition waiting db (id : BlockID) : Prop := id_ok id ∧ kv_get db (includedKey id) = inr [0].

Lemma notIncluded_loop_app db keys ids blocks :
  Forall2 (λ k id, k = notIncludedKey id) keys ids →
  Forall2 (λ id b, ∃ v, kv_get db (blockKey id) = inr v ∧ unmarshal v = Some b) ids blocks →
  notIncluded_loop db keys = Ok (inr blocks).
Proof.
  intros HF. revert blocks. induction HF as [|k id keys ids -> _ IH]; intros blocks HB.
  - by apply Forall2_nil_inv_l in HB as ->.
  - apply Forall2_cons_inv_l in HB as (b & bs & (v & Hv & Hb) & HB & ->). cbn [notIncluded_loop].
    rewrite notIncludedKey_cons.
    pose proof (sub_app [notIncludedPrefix] (encodeBlockID id) []) as E. rewrite app_nil_r in E.
    simpl app in E. change (length [notIncludedPrefix] + length (encodeBlockID id))%nat
      with (length (notIncludedPrefix :: encodeBlockID id)) in E.
    change (length [notIncludedPrefix]) with 1%nat in E. rewrite E. cbn [mbind outcome_bind].
    change ([blockPrefix] ++ encodeBlockID id) with (blockKey id).
    rewrite (Get_eq _ _ _ Hv). cbn [mbind outcome_bind]. unfold Unmarshal. rewrite Hb.
    cbn [mbind outcome_bind]. rewrite (IH bs) by done. done.
Qed.

Lemma scan_waiting db :
  store_inv db →
  ∃ ids, Forall2 (λ k id, k = notIncludedKey id) (scan db [notIncludedPrefix] []).*1 ids ∧
    StronglySorted id_lt ids ∧ (∀ id, id ∈ ids ↔ waiting db id) ∧
    Forall (λ id, ∃ bv, kv_get db (blockKey id) = inr bv) ids.
Proof.
  intros [G B W F]. set (items := scan db [notIncludedPrefix] []).
  destruct (Forall_choose (λ kv id, id_ok id ∧ kv.1 = notIncludedPrefix :: encodeBlockID id ∧
    kv_get db (includedKey id) = inr [0] ∧ ∃ bv, kv_get db (blockKey id) = inr bv) items)
    as [ids HF].
  { apply Forall_forall. intros [k v] ([z Ez] & _ & Hg)%scan_elem. simpl in Ez. subst k.
    destruct (W _ _ Hg) as (id & Hid & -> & HI & HB). by exists id. }
  exists ids. split_and!.
  - apply Forall2_fmap_l. eapply Forall2_impl; [exact HF|]. intros kv id (_ & E & _). exact E.
  - eapply (sorted_ids notIncludedPrefix (λ kv id, id_ok id ∧ kv.1 = notIncludedPrefix :: encodeBlockID id));
      [done|apply scan_sorted|apply scan_nodup|].
    eapply Forall2_impl; [exact HF|]. by intros kv id (? & ? & _).
  - intros id. split.
    + intros (kv & _ & ? & _ & ? & _)%(Forall2_elem_r _ _ _ _ HF). done.
    + intros [Hid Hf]. destruct (F id Hid Hf) as [v Hv].
      destruct (Forall2_elem_l _ _ _ (notIncludedKey id, v) HF) as (id' & Hin & Hid' & E & _).
      { apply scan_elem. split_and!; [by exists (encodeBlockID id)|done|done]. }
      simpl in E. enough (id = id') as -> by done. by apply (key_inj notIncludedPrefix).
  - apply Forall_forall. intros id (kv & _ & _ & _ & _ & ?)%(Forall2_elem_r _ _ _ _ HF). done.
Qed.
End Waiting.

Section Theorems.
Context {DB : Type} `{KVLaws DB}.
Context `{PS : Proto SignedData} `{!ProtoLaws SignedData}.
Context `{PB : Proto Block} `{PR : Proto BlockReference} `{HH : Hasher}.
Implicit Types (s : store DB).

(** The stores the service can reach from an empty database, with the history of their writes. *)
Definition made_by (h : list write_op) s : Prop :=
  ∃ s0, (∀ k, kv_get (s_db s0) k = inl KeyNotFound) ∧ history s0 h s.
Definition written s : Prop := ∃ h, made_by h s.

Lemma store_inv_empty (db : DB) : (∀ k, kv_get db k = inl KeyNotFound) → store_inv db.
Proof.
  intros He. split.
  - intros k v. by rewrite He.
  - intros k v. by rewrite He.
  - intros k v. by rewrite He.
  - intros id _. by rewrite He.
Qed.

Lemma written_inv s : written s → store_inv (s_db s).
Proof. intros (h & s0 & He & Hh). eapply history_inv; [exact Hh|]. by apply store_inv_empty. Qed.

(** A block waits when it was received and no own block references it. *)
Lemma waiting_history h s id :
  made_by h s → waiting (s_db s) id ↔ id_ok id ∧ existsb (receives id) h ∧ ¬ existsb (references id) h.
Proof.
  intros (s0 & He & Hh). unfold waiting. split; intros [Hid Hw]; (split; [done|]).
  all: rewrite (history_flags s0 h s id) in * by done; unfold flag_of in *.
  all: destruct (existsb (references id) h), (existsb (receives id) h); naive_solver.
Qed.

(** C34: After any sequence of writes, successful or not, getNotIncluded gives exactly the
    blocks for which a setBlock succeeded and which no block graph of a successful setOwnBlock
    references, in the order of their identifiers and as they are stored. *)
Theorem getNotIncluded_complete h s :
  s_closed s = false → made_by h s →
  ∃ ids blocks, StronglySorted id_lt ids ∧
    (∀ id, id ∈ ids ↔ id_ok id ∧ existsb (receives id) h ∧ ¬ existsb (references id) h) ∧
    Forall2 (λ id b, getBlock s id = Ok (inr b)) ids blocks ∧
    getNotIncluded s = (ds ← all_data blocks; Ok (inr ds)).
Proof.
  intros Hc Hm. assert (store_inv (s_db s)) as Hi by (apply written_inv; by exists h).
  destruct (scan_waiting _ Hi) as (ids & HF & Hs & Hw & HB).
  destruct (Forall_choose (λ id (b : SignedData), ∃ v, kv_get (s_db s) (blockKey id) = inr v ∧ unmarshal v = Some b)
    ids) as [blocks Hblocks].
  { eapply Forall_impl; [exact HB|]. intros id [bv Hbv].
    destruct (si_blocks _ Hi _ _ Hbv) as (_ & b & _ & _ & Hu). by exists b, bv. }
  exists ids, blocks. split_and!; [done| | |].
  - intros id. by rewrite Hw, waiting_history.
  - eapply Forall2_impl; [exact Hblocks|]. intros id b (v & Hv & Hu). by eapply getBlock_at.
  - unfold getNotIncluded. rewrite opened_open by done.
    assert (notIncluded_loop (s_db s) (scan (s_db s) [notIncludedPrefix] []).*1 = Ok (inr blocks)) as E
      by (by eapply notIncluded_loop_app).
    unfold scan in E. simpl app in E. rewrite E. done.
Qed.

Theorem stored_flags_consistent s id :
  written s → id_ok id →
  (kv_get (s_db s) (includedKey id) = inr [0] ↔ ∃ v, kv_get (s_db s) (notIncludedKey id) = inr v) ∧
  (kv_get (s_db s) (includedKey id) = inr [0] → s_closed s = false → ∃ b, getBlock s id = Ok (inr b)).
Proof.
  intros Hi%written_inv Hid. split; [split|].
  - by apply si_flag.
  - intros [v Hv]. destruct (si_waiting _ Hi _ _ Hv) as (id' & Hid' & E & HI & _).
    apply encodeBlockID_inj in E as ->; done.
  - intros Hf Hc. destruct (si_flag _ Hi id Hid Hf) as [v Hv].
    destruct (si_waiting _ Hi _ _ Hv) as (id' & Hid' & E & _ & bv & Hb).
    apply encodeBlockID_inj in E as ->; [|done..].
    destruct (si_blocks _ Hi _ _ Hb) as (_ & b & _ & _ & Hu). exists b. by eapply getBlock_at.
Qed.
End Theorems.
