(* ===== verification/Missing.v ===== *)
(** * The rounds a peer has not sent ([getMissing])

    [getMissing] walks over the stored blocks of a node and collects the rounds
    in between.  It finds exactly the gaps, up to one more than the limit. *)

From S2P Require Import Prelude Messages Block Lexinum Codec Kv Cache Store StoreProps StoreScan StoreInv.
Import Codec Store.

#[local] Set Default Proof Using "Type*".

(** ** The loops *)
Lemma gap_loop_spec n i limit rounds latest added :
  0 ≤ limit - added →
  gap_loop n i limit (rounds, latest, added) =
  if bool_decide (Z.of_nat n ≤ limit - added)
  then (false, (rounds ++ seqZ i (Z.of_nat n),
                if bool_decide (n = 0%nat) then latest else i + Z.of_nat n - 1, added + Z.of_nat n))
  else (true, (rounds ++ seqZ i (limit - added + 1), i + (limit - added), limit)).
Proof.
  revert i rounds latest added; induction n as [|n IH]; intros i rounds latest added Hl.
  - rewrite bool_decide_eq_true_2 by lia. simpl. by rewrite app_nil_r, Z.add_0_r.
  - cbn [gap_loop]. destruct (Z.eqb_spec added limit) as [->|Hne].
    + rewrite bool_decide_eq_false_2 by lia. rewrite Z.sub_diag, Z.add_0_r. done.
    + rewrite IH by lia. rewrite <- !(assoc_L (++)).
      destruct (decide (Z.of_nat (S n) ≤ limit - added)).
      * rewrite (bool_decide_eq_true_2 (Z.of_nat n ≤ _)), (bool_decide_eq_true_2 (Z.of_nat (S n) ≤ _)) by lia.
        rewrite (bool_decide_eq_false_2 (S n = 0%nat)) by done.
        rewrite (seqZ_cons i (Z.of_nat (S n))) by lia.
        replace (Z.succ i) with (i + 1) by lia. replace (Z.pred (Z.of_nat (S n))) with (Z.of_nat n) by lia.
        replace (if bool_decide (n = 0%nat) then i else i + 1 + Z.of_nat n - 1)
          with (i + Z.of_nat (S n) - 1) by (case_bool_decide; subst; lia).
        by replace (added + 1 + Z.of_nat n) with (added + Z.of_nat (S n)) by lia.
      * rewrite (bool_decide_eq_false_2 (Z.of_nat n ≤ _)), (bool_decide_eq_false_2 (Z.of_nat (S n) ≤ _)) by lia.
        rewrite (seqZ_cons i (limit - added + 1)) by lia.
        replace (Z.succ i) with (i + 1) by lia.
        replace (Z.pred (limit - added + 1)) with (limit - (added + 1) + 1) by lia.
        by replace (i + 1 + (limit - (added + 1))) with (i + (limit - added)) by lia.
Qed.

(** What the result says of the stored rounds [P]. *)
Record missing_ok (P : Z → Prop) (since limit : Z) (rounds : list Z) (latest : Z) : Prop := {
  ms_sorted : StronglySorted Z.lt rounds;
  ms_since : since ≤ latest;
  ms_gaps : ∀ k, k ∈ rounds → since < k ≤ latest ∧ ¬ P k;
  ms_all : ∀ k, since < k ≤ latest → k ∈ rounds ∨ P k;
  ms_length : Z.of_nat (length rounds) ≤ limit + 1;
  ms_end : Z.of_nat (length rounds) ≤ limit → ∀ k, P k → since < k → k ≤ latest }.

Lemma sorted_app_lt l1 l2 :
  StronglySorted Z.lt l1 → StronglySorted Z.lt l2 → (∀ x y, x ∈ l1 → y ∈ l2 → x < y) →
  StronglySorted Z.lt (l1 ++ l2).
Proof. intros. apply StronglySorted_app; done. Qed.

(** Adding the gap after [latest] up to [m]. *)
Lemma missing_ok_gap (P : Z → Prop) since rounds latest m :
  StronglySorted Z.lt rounds → since ≤ latest →
  (∀ k, k ∈ rounds → since < k ≤ latest ∧ ¬ P k) →
  (∀ k, since < k ≤ latest → k ∈ rounds ∨ P k) →
  (∀ k, latest < k ≤ latest + m → ¬ P k) →
  let rounds' := rounds ++ seqZ (latest + 1) m in
  StronglySorted Z.lt rounds' ∧
  (∀ k, k ∈ rounds' → since < k ≤ latest + Z.max m 0 ∧ ¬ P k) ∧
  (∀ k, since < k ≤ latest + m → k ∈ rounds' ∨ P k).
Proof.
  intros Hs Hl Hin Hall Hgap rounds'. split_and!.
  - apply sorted_app_lt; [done|apply seqZ_sorted|]. intros x y Hx%Hin Hy%elem_of_seqZ. lia.
  - intros k [Hk|Hk]%elem_of_app; [apply Hin in Hk as [? ?]; split; [lia|done]|].
    apply elem_of_seqZ in Hk. split; [lia|]. apply Hgap. lia.
  - intros k Hk. destruct (decide (k ≤ latest)) as [Hle|Hgt].
    + destruct (Hall k) as [?|?]; [lia|left; apply elem_of_app; by left|by right].
    + left. apply elem_of_app. right. apply elem_of_seqZ. lia.
Qed.

Lemma missing_loop_spec (P : Z → Prop) since limit keys rs rounds latest :
  Forall2 (λ key r, decodeBlockRound key = Ok (inr r) ∧ 0 ≤ r < 2 ^ 64 - 1) keys rs →
  StronglySorted Z.le rs → Forall P rs → Forall (λ r, latest ≤ r) rs → 0 ≤ since →
  (∀ k, P k → since < k → k ≤ latest ∨ k ∈ rs) → 0 ≤ latest < 2 ^ 64 - 1 →
  Z.of_nat (length rounds) ≤ limit →
  StronglySorted Z.lt rounds → since ≤ latest →
  (∀ k, k ∈ rounds → since < k ≤ latest ∧ ¬ P k) →
  (∀ k, since < k ≤ latest → k ∈ rounds ∨ P k) →
  ∃ rounds' latest', missing_loop limit keys (rounds, latest, Z.of_nat (length rounds))
    = Ok (inr (rounds', latest')) ∧ missing_ok P since limit rounds' latest'.
Proof.
  intros HF. revert rounds latest.
  induction HF as [|key r keys rs [Hr Hru] HF IH];
    intros rounds latest Hsort HP Hge H0 Hcov Hl0 Hlen Hs Hl Hin Hall.
  { exists rounds, latest. split; [done|]. split; try done; [lia|].
    intros _ k Hk Hsk. destruct (Hcov k Hk Hsk) as [|[]%elem_of_nil]; done. }
  cbn [missing_loop]. unfold lex. rewrite Hr. cbn [mbind outcome_bind].
  apply StronglySorted_inv in Hsort as [Hsort Hle]. apply Forall_cons in HP as [Pr HP].
  apply Forall_cons in Hge as [Hlr Hge].
  rewrite u64_small by (unfold is_u64; lia).
  rewrite gap_loop_spec by lia.
  assert (∀ k, latest < k < r → ¬ P k) as Hgap.
  { intros k Hk Pk. destruct (Hcov k Pk) as [|Hkr]; [lia..|].
    apply elem_of_cons in Hkr as [->|Hkr]; [lia|]. eapply Forall_forall in Hle; [|done]. lia. }
  case_bool_decide as Hn.
  - destruct (missing_ok_gap P since rounds latest (Z.of_nat (Z.to_nat (r - (latest + 1)))))
      as (S' & I' & A'); try done; [intros k Hk; apply Hgap; lia|].
    set (rounds' := rounds ++ _) in *.
    assert (Z.of_nat (length rounds) + Z.of_nat (Z.to_nat (r - (latest + 1))) =
      Z.of_nat (length rounds')) as -> by (unfold rounds'; rewrite length_app, length_seqZ; lia).
    apply IH; try done; try (unfold rounds'; rewrite length_app, length_seqZ; lia); try lia.
    + intros k Pk Hk. destruct (Hcov k Pk Hk) as [|Hkr]; [left; lia|].
      apply elem_of_cons in Hkr as [->|?]; [left; lia|by right].
    + intros k Hk%I'. split; [lia|apply Hk].
    + intros k Hk. destruct (decide (k = r)) as [->|]; [by right|]. apply A'. lia.
  - destruct (missing_ok_gap P since rounds latest (limit - Z.of_nat (length rounds) + 1))
      as (S' & I' & A'); try done; [intros k Hk; apply Hgap; lia|].
    eexists _, _. split; [done|]. split.
    + done.
    + lia.
    + intros k Hk%I'. split; [lia|apply Hk].
    + intros k Hk. apply A'. lia.
    + rewrite length_app, length_seqZ. lia.
    + rewrite length_app, length_seqZ. lia.
Qed.

(** ** The theorem *)
Section Missing.
Context {DB : Type} `{KVLaws DB}.
Context `{PS : Proto SignedData} `{!ProtoLaws SignedData}.
Implicit Types (s : store DB) (db : DB).

(** A block of the node is stored for the round. *)
Definition stored_round db (node k : Z) : Prop :=
  ∃ id, id_ok id ∧ Node id = node ∧ Round id = k ∧ ∃ v, kv_get db (blockKey id) = inr v.

Lemma sorted_rounds node ids :
  StronglySorted id_lt ids → Forall (λ id, Node id = node) ids → StronglySorted Z.le (Round <$> ids).
Proof.
  induction 1 as [|id ids Hs IH Hh]; intros Hn; [constructor|].
  apply Forall_cons in Hn as [Hid Hn]. rewrite fmap_cons. constructor; [auto|].
  apply Forall_fmap, Forall_forall. intros id' Hin. simpl.
  eapply Forall_forall in Hh; [|done]. eapply Forall_forall in Hn; [|done].
  destruct Hh as [?|[_ [?|[-> _]]]]; simpl in *; lia.
Qed.

Lemma scan_rounds db node from :
  store_inv db → is_u64 node → is_u64 from →
  ∃ ids, Forall2 (λ key id, key = blockKey id ∧ id_ok id)
           (scan db (node_prefix blockPrefix node) (Lexinum.Encode from)).*1 ids ∧
    StronglySorted id_lt ids ∧
    (∀ id, id ∈ ids ↔ id_ok id ∧ Node id = node ∧ from ≤ Round id ∧
                      ∃ v, kv_get db (blockKey id) = inr v).
Proof.
  intros [_ B _ _] Hn Hf. set (items := scan _ _ _).
  destruct (Forall_choose (λ kv id, kv.1 = blockKey id ∧ id_ok id) items) as [ids HF].
  { apply Forall_forall. intros [k v] ([z Ez] & _ & Hg)%scan_elem.
    unfold node_prefix in Ez. simpl in Ez. rewrite Ez in Hg.
    destruct (B _ _ Hg) as (id & b & Hid & E & _). exists id. split; [|done].
    simpl. by rewrite Ez, E, blockKey_cons. }
  exists ids. split_and!.
  - apply Forall2_fmap_l. exact HF.
  - eapply (sorted_ids blockPrefix (λ kv id, id_ok id ∧ kv.1 = blockPrefix :: encodeBlockID id));
      [done|apply scan_sorted|apply scan_nodup|].
    eapply Forall2_impl; [exact HF|]. intros kv id [E ?]. by split.
  - intros id. split.
    + intros ([k v] & Hin & [E Hid])%(Forall2_elem_r _ _ _ _ HF). simpl in E. subst k.
      apply scan_elem in Hin as (Hp & Hle & Hg).
      assert (Node id = node) as Hnode by (by apply (node_prefix_key blockPrefix)).
      split_and!; [done..| |by exists v]. by apply (node_prefix_from blockPrefix node).
    + intros (Hid & Hnode & Hr & v & Hv).
      destruct (Forall2_elem_l _ _ _ (blockKey id, v) HF) as (id' & Hin & [E Hid']).
      { apply scan_elem. split_and!; [by apply node_prefix_key|by apply node_prefix_from|done]. }
      simpl in E. enough (id = id') as -> by done. by apply (key_inj blockPrefix).
Qed.

(** C35: getMissing gives, in ascending order, exactly the rounds of the node after [since] and
    up to the returned latest round for which no block is stored, at most limit+1 of them, and
    it stops before the last stored round only when it found more than limit. *)
Theorem getMissing_finds_gaps s node since limit :
  s_closed s = false → written s → is_u64 node → 0 ≤ since < 2 ^ 64 - 1 → 0 ≤ limit →
  (∀ k, stored_round (s_db s) node k → k < 2 ^ 64 - 1) →
  ∃ rounds latest, getMissing s node since limit = Ok (inr (rounds, latest)) ∧
    missing_ok (stored_round (s_db s) node) since limit rounds latest.
Proof.
  intros Hc Hi%written_inv Hn Hs Hlim Hmax.
  destruct (scan_rounds (s_db s) node (since + 1) Hi Hn) as (ids & HF & Hsort & Hin);
    [unfold is_u64; lia|].
  assert (∀ id, id ∈ ids → stored_round (s_db s) node (Round id)) as HP.
  { intros id (? & ? & _ & ?)%Hin. by exists id. }
  unfold getMissing. rewrite opened_open, u64_small by (done || unfold is_u64; lia).
  destruct (missing_loop_spec (stored_round (s_db s) node) since limit
    (scan (s_db s) (node_prefix blockPrefix node) (Lexinum.Encode (since + 1))).*1
    (Round <$> ids) [] since) as (rounds & latest & E & Hok).
  - apply Forall2_fmap_r. eapply Forall2_impl; [|intros k id HR; exact HR].
    assert (Forall (λ id, id_ok id ∧ Round id < 2 ^ 64 - 1) ids) as Hb.
    { apply Forall_forall. intros id Hid. split; [by apply Hin in Hid as [? _]|by apply Hmax, HP]. }
    clear -HF Hb. induction HF as [|k id ks ids' [-> Hid] HF IH]; constructor.
    + apply Forall_cons in Hb as [[_ Hb] _]. rewrite blockKey_cons. split; [by apply decode_block_round|].
      destruct Hid as [_ Hr]. unfold is_u64 in Hr. lia.
    + apply IH. by apply Forall_cons in Hb as [_ ?].
  - eapply sorted_rounds; [done|]. apply Forall_forall. by intros id (_ & ? & _)%Hin.
  - apply Forall_fmap, Forall_forall. exact HP.
  - apply Forall_fmap, Forall_forall. intros id (_ & _ & ? & _)%Hin. simpl. lia.
  - lia.
  - intros k (id & Hid & Hnode & <- & Hv) Hk. right. apply list_elem_of_fmap. exists id.
    split; [done|]. apply Hin. split_and!; try done. lia.
  - lia.
  - simpl. lia.
  - constructor.
  - lia.
  - by intros k ?%elem_of_nil.
  - lia.
  - exists rounds, latest. split; [exact E|done].
Qed.
End Missing.
