(* ===== verification/Ext.v ===== *)
(** * Transactions: the buffer of the next block and its iterator

    The transaction part of src/broadcast/ext.go ([TransactionList], [TxIterator],
    [Digest], the sizes) and of src/broadcast/broadcast.go ([AddTransaction] and the
    reset of the buffer in [genBlocks]).  A transaction is stored as its fee (eight
    bytes), its length (four bytes) and its data. *)

From S2P Require Import Prelude Codec Kv.

Record TransactionData := mkTx { td_Data : bytes; td_Fee : Z }.
#[export] Instance TransactionData_eq_dec : EqDecision TransactionData.
Proof. solve_decision. Defined.

Record TxIterator := mkIter {
  it_cur : Z; it_data : bytes; it_idx : nat; it_total : Z; it_TxData : bytes; it_TxFee : Z }.

(** The fields of [Service] that [txmu] protects, and the two limits. *)
Record txbuf := mkBuf {
  t_Count : Z; t_Data : bytes; t_Idx : nat; t_CountLimit : Z; t_SizeLimit : Z }.

Module Ext.
(** ** The iterator *)
Definition Next (t : TxIterator) : outcome TxIterator :=
  fee ← sub (it_data t) (it_idx t) (it_idx t + 8);
  let idx := (it_idx t + 8)%nat in
  sz ← sub (it_data t) idx (idx + 4);
  let size := Z.to_nat (get_le sz) in
  let idx := (idx + 4)%nat in
  data ← sub (it_data t) idx (idx + size);
  Ok (mkIter (u64 (it_cur t + 1)) (it_data t) (idx + size) (it_total t) data (get_le fee)).

Definition Valid (t : TxIterator) : bool := it_cur t <? it_total t.

(** A block without transactions is a nil pointer. *)
Definition Iter (b : Block) : outcome TxIterator :=
  txs ← or_panic (b_Transactions b);
  Ok (mkIter 0 (tx_Data txs) 0 (tx_Count txs) [] 0).

(** [for it.Valid() { it.Next(); ... }]: what the loop sees, for at most [fuel] turns. *)
Fixpoint collect (fuel : nat) (t : TxIterator) : outcome (list TransactionData) :=
  if Valid t then
    match fuel with
    | O => Halt Diverge
    | S fuel =>
        t ← Next t;
        rest ← collect fuel t;
        Ok (mkTx (it_TxData t) (it_TxFee t) :: rest)
    end
  else Ok [].
Definition transactions (b : Block) : outcome (list TransactionData) :=
  t ← Iter b; collect (Z.to_nat (it_total t)) t.

(** ** Sizes and digests *)
Definition BlockReference_Size (b : BlockReference) : Z := Z.of_nat (length (br_Hash b)) + 100.
Definition SignedData_Size (s : SignedData) : Z :=
  Z.of_nat (length (sd_Data s)) + Z.of_nat (length (sd_Signature s)) + 100.
Definition SignedData_Block `{Proto Block} (s : SignedData) : option Block := unmarshal (sd_Data s).
Definition Digest `{Hasher} (s : SignedData) : bytes := sha512_256 (sd_Data s).

(** ** Sorting *)
Section Sort.
Context `{Hasher}.

(** The comparison of [Sort]: higher fees first, then greater hashes. *)
Definition less (a b : TransactionData) : bool :=
  if td_Fee a =? td_Fee b then bytes_lt (sha512_256 (td_Data b)) (sha512_256 (td_Data a))
  else td_Fee b <? td_Fee a.

(** [a] may stand before [b]. *)
Definition may_precede (a b : TransactionData) : Prop := less b a = false.
#[export] Instance may_precede_dec : RelDecision may_precede := λ a b, decide (less b a = false).

Lemma may_precede_iff a b :
  may_precede a b ↔ td_Fee b < td_Fee a ∨
    (td_Fee a = td_Fee b ∧ bytes_le (sha512_256 (td_Data b)) (sha512_256 (td_Data a))).
Proof.
  unfold may_precede, less. destruct (Z.eqb_spec (td_Fee b) (td_Fee a)).
  - unfold bytes_lt. rewrite negb_false_iff. unfold Is_true. destruct (bytes_le _ _); naive_solver lia.
  - rewrite Z.ltb_ge. lia.
Qed.

#[export] Instance may_precede_total : Total may_precede.
Proof.
  intros a b. rewrite !may_precede_iff.
  destruct (Z.lt_trichotomy (td_Fee a) (td_Fee b)) as [?|[?|?]]; [tauto| |tauto].
  destruct (bytes_le_total (sha512_256 (td_Data a)) (sha512_256 (td_Data b))); auto.
Qed.
#[export] Instance may_precede_trans : Transitive may_precede.
Proof.
  intros a b c. rewrite !may_precede_iff. intros [?|[? Hab]] [?|[? Hbc]]; [lia..|].
  right. split; [lia|]. by eapply bytes_le_trans.
Qed.

(** [Sort]; [sort.Slice] promises a permutation in the order of [less]. *)
Definition Sort (t : list TransactionData) : list TransactionData := merge_sort may_precede t.

(** Lists sorted by the same comparison agree where it tells elements apart. *)
Lemma sorted_unique (l l' : list TransactionData) :
  (∀ a b, a ∈ l → b ∈ l → may_precede a b → may_precede b a → a = b) →
  StronglySorted may_precede l → StronglySorted may_precede l' → l ≡ₚ l' → l = l'.
Proof.
  revert l'; induction l as [|a l IH]; intros l' Hanti Hs Hs' Hp.
  { by apply Permutation_nil in Hp. }
  destruct l' as [|b l']; [by apply symmetry, Permutation_nil in Hp|].
  apply StronglySorted_inv in Hs as [Hs Ha], Hs' as [Hs' Hb].
  rewrite Forall_forall in Ha, Hb.
  assert (a = b) as ->.
  { assert (a ∈ b :: l') as Ha' by (rewrite <- Hp; left). assert (b ∈ a :: l) as Hb' by (rewrite Hp; left).
    apply elem_of_cons in Ha' as [|Ha']; [done|]. pose proof Hb' as [?|Hb'']%elem_of_cons; [done|].
    apply Hanti; [left|done|by apply Ha|by apply Hb]. }
  f_equal. apply IH; [|done..|by apply Permutation_cons_inv in Hp].
  intros x y Hx Hy. apply Hanti; by right.
Qed.
End Sort.

(** ** The buffer *)

(** The result of one turn of the loop of [AddTransaction]: the error, a wait for the
    signal of the next block, or the new buffer. *)
Inductive added := TooLarge | Wait | Added (b : txbuf).

Definition AddTransaction_turn (b : txbuf) (txdata : bytes) (fee : Z) : outcome added :=
  let size := Z.of_nat (length txdata) in
  if (2 ^ 32 <=? size) || (t_SizeLimit b <? size) then Ok TooLarge
  else if t_Count b =? t_CountLimit b then Ok Wait
  else if t_SizeLimit b <? Z.of_nat (t_Idx b) + size + 100 then Ok Wait
  else
    d ← put_at (t_Data b) (t_Idx b) (put_le 8 fee);
    d ← put_at d (t_Idx b + 8) (put_le 4 (u32 size));
    d ← copy_at d (t_Idx b + 12) txdata;
    Ok (Added (mkBuf (t_Count b + 1) d (t_Idx b + 12 + length txdata) (t_CountLimit b) (t_SizeLimit b))).

(** What [genBlocks] takes into the block, and the buffer afterwards. *)
Definition take_transactions (b : txbuf) : outcome (Transactions * txbuf) :=
  data ← sub (t_Data b) 0 (t_Idx b);
  Ok (mkTxs (u64 (t_Count b)) data, mkBuf 0 (t_Data b) 0 (t_CountLimit b) (t_SizeLimit b)).

(** The requests of one round: each that is accepted at once is in the buffer, the
    others fail or wait for a later round. *)
Fixpoint add_requests (b : txbuf) (reqs : list TransactionData) : outcome (list TransactionData * txbuf) :=
  match reqs with
  | [] => Ok ([], b)
  | r :: reqs =>
      a ← AddTransaction_turn b (td_Data r) (td_Fee r);
      match a with
      | Added b => '(rs, b) ← add_requests b reqs; Ok (r :: rs, b)
      | _ => add_requests b reqs
      end
  end.

(** ** Reading a buffer back *)
Definition put_tx (t : TransactionData) : bytes :=
  put_le 8 (td_Fee t) ++ put_le 4 (Z.of_nat (length (td_Data t))) ++ td_Data t.
Definition tx_ok (t : TransactionData) : Prop :=
  is_u64 (td_Fee t) ∧ Z.of_nat (length (td_Data t)) < 2 ^ 32.

Lemma length_put_tx t : length (put_tx t) = (12 + length (td_Data t))%nat.
Proof. unfold put_tx. rewrite !length_app, !length_put_le. lia. Qed.

Lemma put_txs_cons t txs : mjoin (put_tx <$> t :: txs) = put_tx t ++ mjoin (put_tx <$> txs).
Proof. done. Qed.
Lemma length_put_txs txs : (12 * length txs ≤ length (mjoin (put_tx <$> txs)))%nat.
Proof.
  induction txs as [|t txs IH]; [done|]. rewrite put_txs_cons, length_app, length_put_tx. simpl. lia.
Qed.

Lemma Next_put_tx pre t rest cur total td tf :
  tx_ok t → Next (mkIter cur (pre ++ put_tx t ++ rest) (length pre) total td tf)
  = Ok (mkIter (u64 (cur + 1)) ((pre ++ put_tx t) ++ rest) (length (pre ++ put_tx t)) total
          (td_Data t) (td_Fee t)).
Proof.
  intros [Hf Hl]. unfold Next. cbn [it_data it_idx it_cur it_total].
  set (f := put_le 8 (td_Fee t)). set (z := put_le 4 (Z.of_nat (length (td_Data t)))).
  assert (length f = 8%nat) as Lf by apply length_put_le.
  assert (length z = 4%nat) as Lz by apply length_put_le.
  assert (pre ++ put_tx t ++ rest = pre ++ f ++ z ++ td_Data t ++ rest) as E
    by (unfold put_tx; fold f z; by rewrite <- !(assoc_L (++))).
  rewrite E. pose proof (sub_app pre f (z ++ td_Data t ++ rest)) as E1. rewrite Lf in E1.
  rewrite E1. cbn [mbind outcome_bind].
  pose proof (sub_app (pre ++ f) z (td_Data t ++ rest)) as E2.
  rewrite length_app, Lf, Lz, <- (assoc_L (++)) in E2. rewrite E2. cbn [mbind outcome_bind].
  assert (get_le z = Z.of_nat (length (td_Data t))) as -> by (apply get_put_le_small; simpl; lia).
  assert (get_le f = td_Fee t) as -> by (apply get_put_le_small; unfold is_u64 in Hf; simpl; lia).
  rewrite Nat2Z.id.
  pose proof (sub_app (pre ++ f ++ z) (td_Data t) rest) as E3.
  rewrite !length_app, Lf, Lz, <- !(assoc_L (++)) in E3.
  replace (length pre + 8 + 4)%nat with (length pre + (8 + 4))%nat by lia. rewrite E3.
  cbn [mbind outcome_bind]. rewrite length_app, length_put_tx. f_equal. f_equal; [by rewrite <- (assoc_L (++)), E|lia].
Qed.

Lemma collect_put_txs fuel : ∀ txs pre rest cur total td tf,
  Forall tx_ok txs → total = cur + Z.of_nat (length txs) → 0 ≤ cur → total < 2 ^ 64 →
  (length txs ≤ fuel)%nat →
  collect fuel (mkIter cur (pre ++ mjoin (put_tx <$> txs) ++ rest) (length pre) total td tf) = Ok txs.
Proof.
  induction fuel as [|fuel IH]; intros [|t txs] pre rest cur total td tf Ht Hn H0 Hm Hf;
    simpl in Hn, Hf; try lia; unfold collect; fold collect; unfold Valid; cbn [it_cur it_total].
  1,2: by destruct (Z.ltb_spec cur total); [lia|].
  destruct (Z.ltb_spec cur total); [|lia]. apply Forall_cons in Ht as [Ht Hts].
  rewrite put_txs_cons, <- (assoc_L (++) (put_tx t)), Next_put_tx by done. cbn [mbind outcome_bind].
  rewrite u64_small by (unfold is_u64; lia).
  rewrite IH by (done || lia). by destruct t.
Qed.

(** ** The buffer holds the accepted transactions *)
Record holds (b : txbuf) (txs : list TransactionData) : Prop := {
  ho_data : take (t_Idx b) (t_Data b) = mjoin (put_tx <$> txs);
  ho_idx : t_Idx b = length (mjoin (put_tx <$> txs));
  ho_count : t_Count b = Z.of_nat (length txs);
  ho_size : Z.of_nat (length (t_Data b)) = t_SizeLimit b;
  ho_fits : (t_Idx b ≤ length (t_Data b))%nat;
  ho_txs : Forall tx_ok txs }.

Lemma AddTransaction_holds b txs t :
  holds b txs → is_u64 (td_Fee t) →
  ∃ a, AddTransaction_turn b (td_Data t) (td_Fee t) = Ok a ∧
    match a with
    | TooLarge => 2 ^ 32 ≤ Z.of_nat (length (td_Data t)) ∨ t_SizeLimit b < Z.of_nat (length (td_Data t))
    | Wait => t_Count b = t_CountLimit b ∨
        t_SizeLimit b < Z.of_nat (t_Idx b) + Z.of_nat (length (td_Data t)) + 100
    | Added b' => holds b' (txs ++ [t]) ∧ t_SizeLimit b' = t_SizeLimit b
    end.
Proof.
  intros [D I C Sz F T] Hf. unfold AddTransaction_turn.
  destruct (Z.leb_spec (2 ^ 32) (Z.of_nat (length (td_Data t)))) as [|Hs]; simpl orb; [eexists; split; [done|simpl; lia]|].
  destruct (Z.ltb_spec (t_SizeLimit b) (Z.of_nat (length (td_Data t)))); [eexists; split; [done|simpl; lia]|].
  destruct (Z.eqb_spec (t_Count b) (t_CountLimit b)); [eexists; split; [done|simpl; lia]|].
  destruct (Z.ltb_spec (t_SizeLimit b) (Z.of_nat (t_Idx b) + Z.of_nat (length (td_Data t)) + 100));
    [eexists; split; [done|simpl; lia]|].
  destruct (put_at_Ok (t_Data b) (t_Idx b) (put_le 8 (td_Fee t))) as (d1 & -> & L1 & T1);
    [rewrite length_put_le; lia|]. cbn [mbind outcome_bind]. rewrite length_put_le in T1.
  destruct (put_at_Ok d1 (t_Idx b + 8) (put_le 4 (u32 (Z.of_nat (length (td_Data t)))))) as (d2 & -> & L2 & T2);
    [rewrite length_put_le; lia|]. cbn [mbind outcome_bind]. rewrite length_put_le in T2.
  rewrite copy_at_put by lia.
  destruct (put_at_Ok d2 (t_Idx b + 12) (td_Data t)) as (d3 & -> & L3 & T3); [lia|].
  cbn [mbind outcome_bind]. eexists. split; [done|]. simpl. split; [|done].
  rewrite <- Nat.add_assoc in T2. change (8 + 4)%nat with 12%nat in T2.
  assert (u32 (Z.of_nat (length (td_Data t))) = Z.of_nat (length (td_Data t))) as Eu
    by (unfold u32; apply Z.mod_small; lia).
  assert (mjoin (put_tx <$> txs ++ [t]) = mjoin (put_tx <$> txs) ++ put_tx t) as Ej
    by (rewrite fmap_app, join_app; simpl; by rewrite app_nil_r).
  split; simpl; rewrite ?Ej.
  - rewrite T3, T2, T1, D, Eu. unfold put_tx. by rewrite <- !(assoc_L (++)).
  - rewrite length_app, length_put_tx, <- I. lia.
  - rewrite length_app. simpl. lia.
  - lia.
  - lia.
  - apply Forall_app. split; [done|]. apply Forall_singleton. done.
Qed.

Lemma add_requests_holds reqs : ∀ b txs,
  holds b txs → Forall (λ t, is_u64 (td_Fee t)) reqs →
  ∃ taken b', add_requests b reqs = Ok (taken, b') ∧ taken `sublist_of` reqs ∧
    holds b' (txs ++ taken) ∧ t_SizeLimit b' = t_SizeLimit b.
Proof.
  induction reqs as [|t reqs IH]; intros b txs Hb Hf.
  { exists [], b. rewrite app_nil_r. by split_and!. }
  apply Forall_cons in Hf as [Hf Hfs]. cbn [add_requests].
  destruct (AddTransaction_holds b txs t Hb Hf) as (a & -> & Ha). cbn [mbind outcome_bind].
  destruct a as [| |b1].
  1,2: destruct (IH b txs Hb Hfs) as (taken & b' & -> & Hs & Hh & El); exists taken, b';
    split_and!; [done|by apply sublist_cons|done|done].
  destruct Ha as [H1 E1]. destruct (IH b1 _ H1 Hfs) as (taken & b' & -> & Hs & Hh & El).
  cbn [mbind outcome_bind]. exists (t :: taken), b'. rewrite <- (assoc_L (++)) in Hh.
  split_and!; [done|by apply sublist_skip|done|congruence].
Qed.

Lemma take_holds b txs :
  holds b txs → t_SizeLimit b < 2 ^ 63 →
  ∃ ts b', take_transactions b = Ok (ts, b') ∧ holds b' [] ∧ t_SizeLimit b' = t_SizeLimit b ∧
    tx_Data ts = mjoin (put_tx <$> txs) ∧
    ∀ node prev refs round, transactions (mkBlock node prev refs round (Some ts)) = Ok txs.
Proof.
  intros [D I C Sz F T] Hm. unfold take_transactions, sub. rewrite bool_decide_eq_true_2 by lia.
  cbn [mbind outcome_bind]. rewrite Nat.sub_0_r, drop_0, D. eexists _, _. split; [done|].
  split; [split; simpl; (done || lia || by constructor)|]. split; [done|]. split; [done|].
  intros node prev refs round. pose proof (length_put_txs txs).
  unfold transactions, Iter. simpl. rewrite u64_small, C, Nat2Z.id by (unfold is_u64; lia).
  pose proof (collect_put_txs (length txs) txs [] [] 0 (Z.of_nat (length txs)) [] 0 T) as Hc.
  simpl in Hc. rewrite app_nil_r in Hc. apply Hc; lia.
Qed.

(** C38: The transactions accepted by AddTransaction, written into the fixed buffer, are exactly
    those the iterator reads from the block, in order; the data never exceeds the size limit and
    the buffer is empty afterwards. *)
Theorem transactions_round_trip limit count_limit reqs node round prev refs :
  0 ≤ limit < 2 ^ 63 → Forall (λ t, is_u64 (td_Fee t)) reqs →
  let b0 := mkBuf 0 (replicate (Z.to_nat limit) 0) 0 count_limit limit in
  ∃ taken b ts b',
    add_requests b0 reqs = Ok (taken, b) ∧ taken `sublist_of` reqs ∧
    take_transactions b = Ok (ts, b') ∧ Z.of_nat (length (tx_Data ts)) ≤ limit ∧
    transactions (mkBlock node prev refs round (Some ts)) = Ok taken ∧
    t_Count b' = 0 ∧ t_Idx b' = 0%nat.
Proof.
  intros Hl Hf b0. assert (holds b0 []) as H0.
  { split; simpl; try done; [rewrite length_replicate; lia|lia]. }
  destruct (add_requests_holds reqs b0 [] H0 Hf) as (taken & b & E & Hs & Hh & El).
  change ([] ++ taken) with taken in Hh.
  destruct (take_holds b taken Hh) as (ts & b' & Et & Hb' & _ & Ed & Htx); [rewrite El; simpl; lia|].
  exists taken, b, ts, b'. split_and!; [done..| |apply Htx|apply Hb'|apply Hb'].
  rewrite Ed, <- (ho_idx _ _ Hh). pose proof (ho_fits _ _ Hh). pose proof (ho_size _ _ Hh) as Hz.
  rewrite El in Hz. simpl in Hz. lia.
Qed.

Theorem large_transactions_wait b txdata fee :
  t_SizeLimit b - 100 < Z.of_nat (length txdata) ≤ t_SizeLimit b → Z.of_nat (length txdata) < 2 ^ 32 →
  AddTransaction_turn b txdata fee = Ok Wait.
Proof.
  intros Hs Hm. unfold AddTransaction_turn.
  destruct (Z.leb_spec (2 ^ 32) (Z.of_nat (length txdata))); [lia|].
  destruct (Z.ltb_spec (t_SizeLimit b) (Z.of_nat (length txdata))); [lia|]. simpl orb.
  destruct (_ =? _); [done|].
  by destruct (Z.ltb_spec (t_SizeLimit b) (Z.of_nat (t_Idx b) + Z.of_nat (length txdata) + 100)); [|lia].
Qed.

(** Sort permutes the transactions into descending order of fee and, for equal fees, of the
    hash of the data; when different data have different hashes it is the only list that a sort
    by that comparison can give. *)
Theorem Sort_sorts `{Hasher} l :
  Sort l ≡ₚ l ∧
  StronglySorted (λ a b, td_Fee b < td_Fee a ∨
    (td_Fee a = td_Fee b ∧ bytes_le (sha512_256 (td_Data b)) (sha512_256 (td_Data a)))) (Sort l) ∧
  ((∀ a b, a ∈ l → b ∈ l → sha512_256 (td_Data a) = sha512_256 (td_Data b) → td_Data a = td_Data b) →
   ∀ l', l' ≡ₚ l → StronglySorted (λ a b, less b a = false) l' → l' = Sort l).
Proof.
  unfold Sort. pose proof (merge_sort_Permutation may_precede l) as Hp.
  pose proof (StronglySorted_merge_sort may_precede l) as Hs. split_and!; [done| |].
  - eapply (StronglySorted_Forall2 _ _ eq); [|intros x x' y y' <- <-; apply may_precede_iff|exact Hs].
    by apply Forall_Forall2_diag, Forall_true.
  - intros Hinj l' Hp' Hs'. apply sorted_unique; [|done|done|by rewrite Hp, Hp'].
    intros a b Ha Hb. rewrite Hp' in Ha, Hb. rewrite !may_precede_iff.
    intros [?|[Ef H1]] [?|[? H2]]; [lia..|]. pose proof (bytes_le_antisym _ _ H1 H2) as E.
    apply Hinj in E; [|done..]. destruct a, b; simpl in *; congruence.
Qed.
End Ext.
