(* ===== verification/Depgraph.v ===== *)
(** * The dependency graph of received blocks (src/broadcast/depgraph.go)

    A received block is queued for inclusion in one of the node's own blocks
    once its predecessor and the blocks it references are included; until then
    it is pending and waits for the missing ones.  [stored] is the inclusion flag
    of the store ([Store.isIncluded]); an error of the store ends the process. *)

From S2P Require Import Prelude Messages Block Codec Kv Cache Store Ext.

Record depgraph := mkDepgraph {
  d_await : gmap BlockID (list BlockID);
  d_blocks : list blockData;
  d_icache : gmap BlockID bool;
  d_in : list blockData;
  d_pending : gmap BlockID blockData;
  d_self : Z;
  d_tcache : gmap BlockID bool }.

Module Depgraph.
Definition set_await (d : depgraph) x := mkDepgraph x (d_blocks d) (d_icache d) (d_in d) (d_pending d) (d_self d) (d_tcache d).
Definition set_blocks (d : depgraph) x := mkDepgraph (d_await d) x (d_icache d) (d_in d) (d_pending d) (d_self d) (d_tcache d).
Definition set_icache (d : depgraph) x := mkDepgraph (d_await d) (d_blocks d) x (d_in d) (d_pending d) (d_self d) (d_tcache d).
Definition set_in (d : depgraph) x := mkDepgraph (d_await d) (d_blocks d) (d_icache d) x (d_pending d) (d_self d) (d_tcache d).
Definition set_pending (d : depgraph) x := mkDepgraph (d_await d) (d_blocks d) (d_icache d) (d_in d) x (d_self d) (d_tcache d).
Definition set_tcache (d : depgraph) x := mkDepgraph (d_await d) (d_blocks d) (d_icache d) (d_in d) (d_pending d) (d_self d) x.

(** [depgraph{await: .., icache: .., pending: .., tcache: ..}] in [loadState] *)
Definition new (self : Z) : depgraph := mkDepgraph ∅ [] ∅ [] ∅ self ∅.

Definition actuallyIncluded (d : depgraph) (id : BlockID) : depgraph :=
  set_tcache d (delete id (d_tcache d)).

Definition add (d : depgraph) (info : blockData) : depgraph := set_in d (d_in d ++ [info]).

(** [d.await[dep]] with the block's ID appended unless it is there. *)
Definition await_for (id : BlockID) (m : gmap BlockID (list BlockID)) (dep : BlockID)
    : gmap BlockID (list BlockID) :=
  match m !! dep with
  | Some ids => if bool_decide (id ∈ ids) then m else <[dep := ids ++ [id]]> m
  | None => <[dep := [id]]> m
  end.
Definition addPending (d : depgraph) (block : blockData) (deps : list BlockID) : depgraph :=
  let d := set_pending d (<[bd_id block := block]> (d_pending d)) in
  set_await d (foldl (await_for (bd_id block)) (d_await d) deps).

(** How many blocks fit into the limit. *)
Fixpoint fitting (limit total : Z) (blocks : list blockData) : nat :=
  match blocks with
  | [] => 0
  | block :: blocks =>
      let total := total + Ext.SignedData_Size (bd_ref block) in
      if limit <? total then 0 else S (fitting limit total blocks)
  end.
Definition getBlocks (d : depgraph) (limit : Z) : list blockData * depgraph :=
  let idx := fitting limit 0 (d_blocks d) in
  (take idx (d_blocks d), set_blocks d (drop idx (d_blocks d))).

Definition markIncluded (d : depgraph) (id : BlockID) : depgraph :=
  set_tcache (set_icache d (<[id := true]> (d_icache d))) (<[id := true]> (d_tcache d)).

(** The pruning of the cache: at most a thousand entries are kept. *)
Definition prune_icache (d : depgraph) : depgraph :=
  if 1000 <? Z.of_nat (size (d_icache d))
  then set_icache d (list_to_map (take 1000 (map_to_list (d_icache d)))) else d.

Section Process.
Context (stored : BlockID → outcome (serr + bool)).

Definition isIncluded (d : depgraph) (id : BlockID) : outcome (bool * depgraph) :=
  match d_tcache d !! id with
  | Some inc => Ok (inc, d)
  | None =>
      match d_icache d !! id with
      | Some inc => Ok (inc, d)
      | None =>
          r ← stored id;
          match r with
          | inl _ => Halt Fatal
          | inr inc => Ok (inc, set_icache d (<[id := inc]> (d_icache d)))
          end
      end
  end.

(** One check of a block that the block [id] references: the arguments of the debug message are
    made at every log level, so both are formatted when the referenced one is missing. *)
Definition check_dep (id : BlockID) (a : list BlockID * depgraph) (dep : BlockID)
    : outcome (list BlockID * depgraph) :=
  let '(deps, d) := a in
  '(inc, d) ← isIncluded d dep;
  if inc : bool then Ok (deps, d)
  else _ ← BlockID_String id; _ ← BlockID_String dep; Ok (deps ++ [dep], d).

Definition processBlock (d : depgraph) (block : blockData) : outcome (bool * depgraph) :=
  '(inc, d) ← isIncluded d (bd_id block);
  if inc : bool then Ok (true, d)
  else
  a ← (if Valid (bd_prev block) then check_dep (bd_id block) ([], d) (bd_prev block) else Ok ([], d));
  '(deps, d) ← range (λ a dep, if Node dep =? d_self (a.2) then Ok a else check_dep (bd_id block) a dep)
                 a (bd_deps block);
  match deps with
  | _ :: _ => Ok (false, addPending d block deps)
  | [] =>
      let d := markIncluded d (bd_id block) in
      Ok (true, set_blocks d (d_blocks d ++ [block]))
  end.

(** The loop over the blocks that wait for [next]; a block that is not pending is
    a nil pointer. *)
Fixpoint wake (revdeps : list BlockID) (d : depgraph) (processed : list BlockID)
    (seen : gset BlockID) : outcome (depgraph * list BlockID * gset BlockID) :=
  match revdeps with
  | [] => Ok (d, processed, seen)
  | revdep :: revdeps =>
      if bool_decide (revdep ∈ seen) then wake revdeps d processed seen
      else
        block ← or_panic (d_pending d !! revdep);
        '(ok, d) ← processBlock d block;
        if ok : bool then wake revdeps d (processed ++ [revdep]) ∅
        else wake revdeps d processed ({[revdep]} ∪ seen)
  end.

(** The loop over the blocks that were included. *)
Fixpoint drain (fuel : nat) (first : bool) (d : depgraph) (processed : list BlockID)
    (seen : gset BlockID) : outcome depgraph :=
  match processed with
  | [] => Ok d
  | next :: processed =>
      match fuel with
      | O => Halt Diverge
      | S fuel =>
          '(d, processed, seen) ← wake (default [] (d_await d !! next)) d processed seen;
          let d := set_await d (delete next (d_await d)) in
          let d := if first then d else set_pending d (delete next (d_pending d)) in
          drain fuel false d processed seen
      end
  end.

(** Every block that is woken up leaves a list of waiting blocks. *)
Definition waiting (d : depgraph) : nat := map_fold (λ _ ids n, (length ids + n)%nat) 0%nat (d_await d).

(** One iteration of [process] on the next block of [in]; [i] counts them. *)
Definition process_step (i : Z) (d : depgraph) : outcome (option (Z * depgraph)) :=
  let i := i + 1 in
  let d := if i mod 100 =? 0 then prune_icache d else d in
  match d_in d with
  | [] => Ok None
  | info :: rest =>
      '(ok, d) ← processBlock (set_in d rest) info;
      if ok : bool then
        d ← drain (S (waiting d)) true d [bd_id info] {[bd_id info]}; Ok (Some (i, d))
      else Ok (Some (i, d))
  end.
End Process.
End Depgraph.
