(* ===== verification/DepgraphProps.v ===== *)
(** * The dependency graph: causal order, progress and termination

    [Inc] is the set of included blocks; the two caches and the store's flags
    together decide it ([cache_ok]).  [wf Inc q] is the invariant of the graph
    while the included blocks of [q] still have to wake up the blocks that wait
    for them; at rest [q] is empty. *)

From S2P Require Import Prelude Messages Block Codec Kv Cache Store Depgraph.
Import Depgraph.

(** The references a block waits for: a valid predecessor and the referenced
    blocks of other nodes. *)
Definition needs (self : Z) (b : blockData) : list BlockID :=
  (if Valid (bd_prev b) then [bd_prev b] else []) ++ filter (λ dep, Node dep ≠ self) (bd_deps b).

(** [BlockID.String] can format the ID. *)
Definition printable (id : BlockID) : Prop := Hash id = [] ∨ (12 ≤ length (Hash id))%nat.

Lemma shows_printable id : Msg.shows (Hash id) = true ↔ printable id.
Proof. unfold Msg.shows, printable. by rewrite orb_true_iff, !bool_decide_eq_true. Qed.
Lemma printable_String id : printable id → ∃ s, BlockID_String id = Ok s.
Proof.
  intros Hp. unfold BlockID_String. case_bool_decide as E; [eauto|].
  destruct Hp as [?|Hl]; [done|].
  pose proof (hash_digits_Ok (Hash id) 6 6 Hl) as H. destruct (hash_digits (Hash id) 6 6); [|done].
  simpl. eauto.
Qed.

Definition ids (l : list blockData) : gset BlockID := list_to_set (bd_id <$> l).

(** A sequence of blocks in causal order: each is new, and what it needs came before. *)
Definition causal (self : Z) (Inc : gset BlockID) (l : list blockData) : Prop :=
  ∀ l1 b l2, l = l1 ++ b :: l2 →
    bd_id b ∉ Inc ∪ ids l1 ∧ ∀ dep, dep ∈ needs self b → dep ∈ Inc ∪ ids l1.

Lemma ids_app l1 l2 : ids (l1 ++ l2) = ids l1 ∪ ids l2.
Proof. unfold ids. by rewrite fmap_app, list_to_set_app_L. Qed.

Lemma ids_nil_union (Inc : gset BlockID) : ids [] ∪ Inc = Inc.
Proof. change (ids []) with (∅ : gset BlockID). set_solver. Qed.
Lemma ids_one_union b (Inc : gset BlockID) : ids [b] ∪ Inc = {[bd_id b]} ∪ Inc.
Proof. unfold ids; simpl. set_solver. Qed.
Lemma ids_app_union l1 l2 (Inc : gset BlockID) : ids (l1 ++ l2) ∪ Inc = ids l2 ∪ (ids l1 ∪ Inc).
Proof. rewrite ids_app. set_solver. Qed.

Lemma causal_nil self Inc : causal self Inc [].
Proof. intros l1 b l2 E. by destruct l1. Qed.

Lemma causal_app self Inc l l' :
  causal self Inc l → causal self (ids l ∪ Inc) l' → causal self Inc (l ++ l').
Proof.
  intros H1 H2 l1 b l2 E. apply app_eq_inv in E as [(k & -> & E)|(k & -> & E)].
  - destruct k as [|b' k]; simpl in E.
    + subst l'. rewrite app_nil_r in *. destruct (H2 [] b l2 eq_refl) as [Hn Hd].
      change (ids []) with (∅ : gset BlockID) in *. set_solver.
    + injection E as <- ->. eauto.
  - destruct (H2 k b l2 E) as [Hn Hd]. rewrite ids_app. set_solver.
Qed.

Lemma causal_one self Inc b :
  bd_id b ∉ Inc → (∀ dep, dep ∈ needs self b → dep ∈ Inc) → causal self Inc [b].
Proof.
  intros Hn Hd l1 b' l2 E. destruct l1 as [|x l1]; simplify_eq/=.
  - change (ids []) with (∅ : gset BlockID). set_solver.
  - by destruct l1.
Qed.

(** ** The caches *)
Section Depgraph.
Context (flag : gset BlockID).
Definition stored_flag (id : BlockID) : outcome (serr + bool) := Ok (inr (bool_decide (id ∈ flag))).

Record cache_ok (Inc : gset BlockID) (d : depgraph) : Prop := {
  co_tcache : ∀ id b, d_tcache d !! id = Some b → b = true ∧ id ∈ Inc;
  co_icache : ∀ id b, d_icache d !! id = Some b → b = bool_decide (id ∈ Inc);
  co_flag : flag ⊆ Inc;
  co_all : ∀ id, id ∈ Inc → id ∈ flag ∨ d_tcache d !! id = Some true }.

(** Everything but the cache of flags is the same. *)
Record same_rest (d d' : depgraph) : Prop := {
  sr_await : d_await d' = d_await d;
  sr_blocks : d_blocks d' = d_blocks d;
  sr_in : d_in d' = d_in d;
  sr_pending : d_pending d' = d_pending d;
  sr_self : d_self d' = d_self d;
  sr_tcache : d_tcache d' = d_tcache d }.

#[export] Instance same_rest_preorder : PreOrder same_rest.
Proof. split; [by split|]. intros ??? [] []. split; congruence. Qed.

Lemma isIncluded_spec Inc d id :
  cache_ok Inc d →
  ∃ d', isIncluded stored_flag d id = Ok (bool_decide (id ∈ Inc), d') ∧ cache_ok Inc d' ∧ same_rest d d'.
Proof.
  intros [T I F A]. unfold isIncluded. destruct (d_tcache d !! id) as [b|] eqn:ET.
  { apply T in ET as [-> Hin]. exists d. rewrite bool_decide_eq_true_2 by done. by split_and!. }
  destruct (d_icache d !! id) as [b|] eqn:EI.
  { apply I in EI as ->. exists d. by split_and!. }
  assert (bool_decide (id ∈ flag) = bool_decide (id ∈ Inc)) as E.
  { apply bool_decide_ext. split; [apply F|]. intros Hin. destruct (A id Hin); congruence. }
  exists (set_icache d (<[id := bool_decide (id ∈ Inc)]> (d_icache d))). simpl. rewrite E.
  split_and!; [done| |by split]. split; simpl; try done.
  intros id' b. rewrite lookup_insert_Some. intros [[<- <-]|[_ ?]]; [done|by apply I].
Qed.

Lemma check_dep_spec Inc id d deps dep :
  cache_ok Inc d → printable dep →
  ∃ d', check_dep stored_flag id (deps, d) dep
          = (if bool_decide (dep ∈ Inc) || Msg.shows (Hash id)
             then Ok (deps ++ filter (.∉ Inc) [dep], d') else Halt Panic) ∧ cache_ok Inc d' ∧ same_rest d d'.
Proof.
  intros Hc Hp. unfold check_dep. destruct (isIncluded_spec Inc d dep Hc) as (d' & -> & Hc' & Hs).
  cbn [mbind outcome_bind]. exists d'. rewrite filter_cons. case_bool_decide as Hin.
  - rewrite decide_False by tauto. by rewrite app_nil_r.
  - rewrite decide_True by done. pose proof (BlockID_String_cases id) as Hs'.
    destruct (Msg.shows (Hash id)); [|by rewrite Hs']. destruct (BlockID_String id); [|done].
    by destruct (printable_String dep Hp) as [s' ->].
Qed.

Lemma check_deps_spec Inc id l : ∀ d deps,
  cache_ok Inc d → Forall printable (filter (λ dep, Node dep ≠ d_self d) l) →
  let new := filter (.∉ Inc) (filter (λ dep, Node dep ≠ d_self d) l) in
  ∃ d', range (λ a dep, if Node dep =? d_self (a.2) then Ok a else check_dep stored_flag id a dep)
          (deps, d) l
        = (if bool_decide (new = []) || Msg.shows (Hash id) then Ok (deps ++ new, d') else Halt Panic) ∧
    cache_ok Inc d' ∧ same_rest d d'.
Proof.
  induction l as [|dep l IH]; intros d deps Hc Hp.
  { exists d. simpl. by rewrite app_nil_r. }
  rewrite filter_cons in Hp |- *. cbn [range snd].
  destruct (Z.eqb_spec (Node dep) (d_self d)) as [E|E].
  - rewrite decide_False in Hp |- * by (intros F; by apply F). cbn [mbind outcome_bind].
    destruct (IH d deps Hc Hp) as (d' & Hd' & ?). exists d'. by rewrite Hd'.
  - rewrite decide_True in Hp |- * by done. apply Forall_cons in Hp as [Hp Hps].
    destruct (check_dep_spec Inc id d deps dep Hc Hp) as (d1 & -> & Hc1 & S1).
    pose proof S1 as [_ _ _ _ Es _]. rewrite <- Es in Hps.
    destruct (IH d1 (deps ++ filter (.∉ Inc) [dep]) Hc1 Hps) as (d' & Hd' & Hc' & S').
    exists d'. rewrite Es in Hd'. cbv zeta in *. split_and!; [|done|by etrans].
    destruct (decide (dep ∈ Inc)) as [Hin|Hin].
    + rewrite (bool_decide_eq_true_2 (dep ∈ Inc)) by done. cbn [orb]. rewrite !filter_cons_False in Hd' |- * by tauto.
      cbn [mbind outcome_bind]. rewrite filter_nil, !app_nil_r in *. by rewrite Hd', filter_cons_False by tauto.
    + rewrite (bool_decide_eq_false_2 (dep ∈ Inc)) by done. cbn [orb].
      rewrite !filter_cons_True in Hd' |- * by done. rewrite ?filter_cons_True by done. rewrite (bool_decide_eq_false_2 (dep :: _ = [])) by done. cbn [orb].
      destruct (Msg.shows (Hash id)); [|done]. cbn [mbind outcome_bind]. rewrite Hd', orb_true_r.
      by rewrite <- (assoc_L (++)).
Qed.

(** ** One block *)
Definition missing (Inc : gset BlockID) (self : Z) (b : blockData) : list BlockID :=
  filter (.∉ Inc) (needs self b).

Lemma cache_ok_mark Inc d id : cache_ok Inc d → cache_ok ({[id]} ∪ Inc) (markIncluded d id).
Proof.
  intros [T I F A]. split; simpl.
  - intros id' b. rewrite lookup_insert_Some. intros [[<- <-]|[_ [-> ?]%T]]; set_solver.
  - intros id' b. rewrite lookup_insert_Some. intros [[<- <-]|[Hne ->%I]].
    + symmetry. apply bool_decide_eq_true_2. set_solver.
    + apply bool_decide_ext. set_solver.
  - set_solver.
  - intros id' [->%elem_of_singleton|Hin]%elem_of_union; [right; apply lookup_insert_eq|].
    destruct (decide (id = id')) as [->|]; [right; apply lookup_insert_eq|].
    rewrite lookup_insert_ne by done. by apply A.
Qed.

Lemma processBlock_spec Inc d b :
  cache_ok Inc d → Forall printable (needs (d_self d) b) →
  ∃ d', cache_ok Inc d' ∧ same_rest d d' ∧
    processBlock stored_flag d b =
    (if bool_decide (bd_id b ∈ Inc) then Ok (true, d')
     else match missing Inc (d_self d) b with
          | [] => Ok (true, set_blocks (markIncluded d' (bd_id b)) (d_blocks d ++ [b]))
          | deps => if Msg.shows (Hash (bd_id b)) then Ok (false, addPending d' b deps) else Halt Panic
          end).
Proof.
  intros Hc Hp. unfold processBlock.
  destruct (isIncluded_spec Inc d (bd_id b) Hc) as (d1 & -> & Hc1 & S1). cbn [mbind outcome_bind].
  case_bool_decide as Hin; [by exists d1|]. unfold needs in Hp. apply Forall_app in Hp as [Hpp Hpd].
  pose proof (sr_self _ _ S1) as Es. unfold missing, needs. rewrite list.filter_app.
  set (first := filter (.∉ Inc) (if Valid (bd_prev b) then [bd_prev b] else [])).
  assert (∃ d2, (if Valid (bd_prev b) then check_dep stored_flag (bd_id b) ([], d1) (bd_prev b) else Ok ([], d1))
    = (if bool_decide (first = []) || Msg.shows (Hash (bd_id b)) then Ok (first, d2) else Halt Panic) ∧
    cache_ok Inc d2 ∧ same_rest d1 d2) as (d2 & -> & Hc2 & S2).
  { unfold first. destruct (Valid (bd_prev b)); [|by exists d1]. apply Forall_cons in Hpp as [Hpp _].
    destruct (check_dep_spec Inc (bd_id b) d1 [] _ Hc1 Hpp) as (d2 & E & ?). exists d2. rewrite E.
    split; [|done]. rewrite filter_cons. case_bool_decide.
    - by rewrite decide_False by tauto.
    - rewrite decide_True by done. by rewrite bool_decide_eq_false_2. }
  pose proof (sr_self _ _ S2) as Es2.
  destruct (check_deps_spec Inc (bd_id b) (bd_deps b) d2 first Hc2) as (d3 & E3 & Hc3 & S3); [by rewrite Es2, Es|].
  rewrite Es2, Es in E3. set (new := filter _ (filter _ (bd_deps b))) in *.
  assert (same_rest d d3) as S by (by repeat (etrans; [done|])).
  exists d3. split_and!; [done..|].
  destruct (Msg.shows (Hash (bd_id b))).
  - rewrite orb_true_r in *. cbn [mbind outcome_bind]. rewrite E3. cbn [mbind outcome_bind].
    destruct (first ++ new); [|done]. by rewrite <- (sr_blocks _ _ S).
  - rewrite orb_false_r in *. destruct first as [|x first]; [|done]. cbn [bool_decide mbind outcome_bind].
    rewrite (bool_decide_eq_true_2 ([] = [])) by done. cbn [mbind outcome_bind]. rewrite E3.
    destruct new; [|done]. rewrite (bool_decide_eq_true_2 ([] = [])) by done. cbn [mbind outcome_bind app].
    by rewrite <- (sr_blocks _ _ S).
Qed.

(** ** Waiting *)
Definition reg (m : gmap BlockID (list BlockID)) (dep id : BlockID) : Prop :=
  ∃ l, m !! dep = Some l ∧ id ∈ l.

Lemma reg_insert m dep l dep' x :
  reg (<[dep := l]> m) dep' x ↔ (dep' = dep ∧ x ∈ l) ∨ (dep' ≠ dep ∧ reg m dep' x).
Proof.
  unfold reg. destruct (decide (dep' = dep)) as [->|].
  - rewrite lookup_insert_eq. naive_solver.
  - rewrite lookup_insert_ne by done. naive_solver.
Qed.
Lemma reg_delete m next dep id : reg (delete next m) dep id ↔ dep ≠ next ∧ reg m dep id.
Proof.
  unfold reg. destruct (decide (dep = next)) as [->|].
  - rewrite lookup_delete_eq. naive_solver.
  - rewrite lookup_delete_ne by done. naive_solver.
Qed.

Lemma delete_is_Some {A} (m : gmap BlockID A) i j : is_Some (delete i m !! j) ↔ j ≠ i ∧ is_Some (m !! j).
Proof. unfold is_Some. setoid_rewrite lookup_delete_Some. naive_solver. Qed.
Lemma await_for_reg id m dep dep' x :
  reg (await_for id m dep) dep' x ↔ reg m dep' x ∨ (x = id ∧ dep' = dep).
Proof.
  unfold await_for. destruct (m !! dep) as [l|] eqn:E; [case_bool_decide|].
  - split; [by left|]. intros [?|[-> ->]]; [done|by exists l].
  - rewrite reg_insert, elem_of_app, list_elem_of_singleton. unfold reg.
    destruct (decide (dep' = dep)) as [->|]; [rewrite E|]; naive_solver.
  - rewrite reg_insert, list_elem_of_singleton. unfold reg.
    destruct (decide (dep' = dep)) as [->|]; [rewrite E|]; naive_solver.
Qed.
Lemma await_for_key id m dep dep' :
  is_Some (await_for id m dep !! dep') → is_Some (m !! dep') ∨ dep' = dep.
Proof.
  unfold await_for. destruct (m !! dep) as [l|] eqn:E; [case_bool_decide; [by left|]|].
  all: rewrite lookup_insert_is_Some; naive_solver.
Qed.
Lemma await_for_id id m dep : reg m dep id → await_for id m dep = m.
Proof. intros (l & E & Hin). unfold await_for. rewrite E. by rewrite bool_decide_eq_true_2. Qed.

Lemma await_all_reg id deps m dep x :
  reg (foldl (await_for id) m deps) dep x ↔ reg m dep x ∨ (x = id ∧ dep ∈ deps).
Proof.
  revert m; induction deps as [|d deps IH]; intros m; simpl; [set_solver|].
  rewrite IH, await_for_reg. set_solver.
Qed.
Lemma await_all_key id deps m dep :
  is_Some (foldl (await_for id) m deps !! dep) → is_Some (m !! dep) ∨ dep ∈ deps.
Proof.
  revert m; induction deps as [|d deps IH]; intros m; simpl; [by left|].
  intros [H|?]%IH; [apply await_for_key in H|]; set_solver.
Qed.
Lemma await_all_id id deps m : (∀ dep, dep ∈ deps → reg m dep id) → foldl (await_for id) m deps = m.
Proof.
  induction deps as [|d deps IH]; intros H; simpl; [done|].
  rewrite await_for_id by set_solver. apply IH. set_solver.
Qed.

(** The first occurrence of [dep] in the queue comes before every one of [id]. *)
Definition precedes (q : list BlockID) (dep id : BlockID) : Prop :=
  ∃ q1 q2, q = q1 ++ dep :: q2 ∧ id ∉ q1 ∧ id ≠ dep.

Lemma precedes_app q q' dep id : precedes q dep id → precedes (q ++ q') dep id.
Proof. intros (q1 & q2 & -> & ?). exists q1, (q2 ++ q'). by rewrite <- (assoc_L (++)). Qed.
Lemma precedes_tail next q dep id : precedes (next :: q) dep id → dep ≠ next → precedes q dep id ∧ id ≠ next.
Proof.
  intros (q1 & q2 & E & Hn & Hne) Hd. destruct q1 as [|x q1]; simplify_eq/=.
  split; [exists q1, q2|]; set_solver.
Qed.
Lemma precedes_last q dep id : dep ∈ q → id ∉ q → precedes (q ++ [id]) dep id.
Proof.
  intros (q1 & q2 & ->)%list_elem_of_split Hn. exists q1, (q2 ++ [id]).
  rewrite <- (assoc_L (++)). set_solver.
Qed.

Context (needs_of : BlockID → list BlockID) (P : blockData → Prop).

(** The ID of a block determines what the block needs; [P] is what else is known of
    the blocks that are received. *)
Definition good (self : Z) (b : blockData) : Prop :=
  needs self b = needs_of (bd_id b) ∧ Forall printable (needs self b) ∧ P b.

Record wf (Inc : gset BlockID) (q : list BlockID) (d : depgraph) : Prop := {
  wf_in : Forall (good (d_self d)) (d_in d);
  wf_pending : ∀ id b, d_pending d !! id = Some b → bd_id b = id ∧ good (d_self d) b ∧ printable id;
  wf_await : ∀ dep id, reg (d_await d) dep id → is_Some (d_pending d !! id) ∧ dep ∈ needs_of id;
  wf_key : ∀ dep, is_Some (d_await d !! dep) → dep ∈ Inc → dep ∈ q;
  wf_wait : ∀ id dep, is_Some (d_pending d !! id) → id ∉ Inc → dep ∈ needs_of id → dep ∉ Inc →
    reg (d_await d) dep id;
  wf_live : ∀ id, is_Some (d_pending d !! id) → id ∉ Inc → ∃ dep, reg (d_await d) dep id;
  wf_done : ∀ id, is_Some (d_pending d !! id) → id ∈ Inc → id ∈ q;
  wf_order : ∀ dep id, reg (d_await d) dep id → id ∈ Inc → precedes q dep id;
  wf_q : ∀ id, id ∈ q → id ∈ Inc }.

(** The parts of the state the invariant is about. *)
Lemma wf_same Inc q d d' :
  wf Inc q d → d_await d' = d_await d → d_pending d' = d_pending d → d_in d' = d_in d →
  d_self d' = d_self d → wf Inc q d'.
Proof. intros [] Ea Ep Ei Es. split; rewrite ?Ea, ?Ep, ?Ei, ?Es; done. Qed.

(** A block that waits does so for a block that is missing. *)
Lemma wf_stuck Inc d id :
  wf Inc [] d → is_Some (d_pending d !! id) → id ∉ Inc ∧ ∃ dep, dep ∈ needs_of id ∧ dep ∉ Inc.
Proof.
  intros W Hp. assert (id ∉ Inc) as Hn by (intros ?; by apply (wf_done _ _ _ W) in Hp; [set_solver|]).
  split; [done|]. destruct (wf_live _ _ _ W id Hp Hn) as [dep Hr]. exists dep.
  split; [by apply (wf_await _ _ _ W)|]. intros Hin.
  destruct Hr as (l & El & _). pose proof (wf_key _ _ _ W dep ltac:(eauto) Hin). set_solver.
Qed.

(** A block is included. *)
Lemma wf_include Inc q d id :
  wf Inc q d → id ∉ Inc → (∀ dep, dep ∈ needs_of id → dep ∈ Inc) → wf ({[id]} ∪ Inc) (q ++ [id]) d.
Proof.
  intros W Hn Hd. split; try apply W.
  - intros dep Hk [->%elem_of_singleton|?]%elem_of_union; [set_solver|].
    pose proof (wf_key _ _ _ W dep Hk). set_solver.
  - intros id' dep ????. apply (wf_wait _ _ _ W); set_solver.
  - intros id' ??. apply (wf_live _ _ _ W); set_solver.
  - intros id' Hp [->%elem_of_singleton|?]%elem_of_union; [set_solver|].
    pose proof (wf_done _ _ _ W id' Hp). set_solver.
  - intros dep id' Hr [->%elem_of_singleton|?]%elem_of_union.
    + apply precedes_last; [|intros ?; by apply Hn, (wf_q _ _ _ W)].
      pose proof (wf_await _ _ _ W dep id Hr) as [_ Hin]. destruct Hr as (l & El & _).
      apply (wf_key _ _ _ W); [by eexists|by apply Hd].
    + by apply precedes_app, (wf_order _ _ _ W).
  - intros id' Hin. pose proof (wf_q _ _ _ W id'). set_solver.
Qed.
Lemma wf_again Inc q d id : wf Inc q d → id ∈ Inc → wf Inc (q ++ [id]) d.
Proof.
  intros W Hin. split; try apply W.
  - intros dep Hk ?. pose proof (wf_key _ _ _ W dep Hk). set_solver.
  - intros id' Hp ?. pose proof (wf_done _ _ _ W id' Hp). set_solver.
  - intros dep id' ??. by apply precedes_app, (wf_order _ _ _ W).
  - intros id' ?. pose proof (wf_q _ _ _ W id'). set_solver.
Qed.

(** ** Waking up the blocks that wait *)

(** What a run of the loops changes: blocks are appended in causal order. *)
Record grown (Inc : gset BlockID) (d d' : depgraph) (news : list blockData) : Prop := {
  gr_blocks : d_blocks d' = d_blocks d ++ news;
  gr_causal : causal (d_self d) Inc news;
  gr_cache : cache_ok (ids news ∪ Inc) d';
  gr_good : Forall P news;
  gr_in : d_in d' = d_in d;
  gr_self : d_self d' = d_self d }.

Lemma grown_refl Inc d : cache_ok Inc d → grown Inc d d [].
Proof.
  intros Hc. split; [by rewrite app_nil_r|apply causal_nil| |by constructor|done|done].
  by rewrite ids_nil_union.
Qed.
Lemma grown_trans Inc d1 d2 d3 n1 n2 :
  grown Inc d1 d2 n1 → grown (ids n1 ∪ Inc) d2 d3 n2 → grown Inc d1 d3 (n1 ++ n2).
Proof.
  intros [B1 C1 _ G1 I1 S1] [B2 C2 K2 G2 I2 S2]. split; try congruence.
  - by rewrite B2, B1, (assoc_L (++)).
  - apply causal_app; [done|by rewrite <- S1].
  - by rewrite ids_app_union.
  - by apply Forall_app.
Qed.

(** One block: it is included now, was included before, or is registered as pending. *)
Lemma processBlock_cases Inc d b :
  cache_ok Inc d → good (d_self d) b →
  (processBlock stored_flag d b = Halt Panic ∧ ¬ printable (bd_id b)) ∨
  ∃ ok d' news, processBlock stored_flag d b = Ok (ok, d') ∧ grown Inc d d' news ∧
    (if ok : bool
     then d_await d' = d_await d ∧ d_pending d' = d_pending d ∧
          ((bd_id b ∈ Inc ∧ news = []) ∨
           (bd_id b ∉ Inc ∧ news = [b] ∧ ∀ dep, dep ∈ needs_of (bd_id b) → dep ∈ Inc))
     else news = [] ∧ bd_id b ∉ Inc ∧ printable (bd_id b) ∧ missing Inc (d_self d) b ≠ [] ∧
          d_pending d' = <[bd_id b := b]> (d_pending d) ∧
          d_await d' = foldl (await_for (bd_id b)) (d_await d) (missing Inc (d_self d) b)).
Proof.
  intros Hc (Hg & Hp & HP). destruct (processBlock_spec Inc d b Hc Hp) as (d' & Hc' & [Sa Sb Si Sp Ss St] & ->).
  assert (grown Inc d d' []) as G0.
  { split; [by rewrite Sb, app_nil_r|apply causal_nil| |by constructor|done|done].
    by rewrite ids_nil_union. }
  case_bool_decide as Hin; [right; exists true, d', []; by split_and!; eauto|].
  destruct (missing Inc (d_self d) b) as [|m ms] eqn:Em.
  - right. assert (∀ dep, dep ∈ needs (d_self d) b → dep ∈ Inc) as Hall.
    { intros dep Hd. destruct (decide (dep ∈ Inc)) as [|Hn]; [done|].
      assert (dep ∈ missing Inc (d_self d) b) as H by (by apply list_elem_of_filter). rewrite Em in H.
      set_solver. }
    eexists true, _, [b]. split; [done|]. split.
    + split; simpl; [done|by apply causal_one| |by apply Forall_singleton|done|done].
      rewrite ids_one_union.
      by destruct (cache_ok_mark Inc d' (bd_id b) Hc').
    + simpl. split_and!; [done|done|right]. split_and!; [done..|by rewrite <- Hg].
  - pose proof (shows_printable (bd_id b)) as Hs. destruct (Msg.shows (Hash (bd_id b))); [right|left; naive_solver].
    eexists false, _, []. split; [done|]. split.
    + destruct G0 as [? ? [] ? ? ?]. split; simpl; [done..| |done|done|done]. by split.
    + simpl. rewrite Sp, Sa. split_and!; try done. by apply Hs.
Qed.

Definition seen_ok (Inc seen : gset BlockID) : Prop :=
  ∀ id, id ∈ seen → id ∈ Inc ∨ ∃ dep, dep ∈ needs_of id ∧ dep ∉ Inc.

(** A pending block that fails again is registered already. *)
Lemma pending_again Inc q d b :
  wf Inc q d → d_pending d !! bd_id b = Some b → bd_id b ∉ Inc →
  <[bd_id b := b]> (d_pending d) = d_pending d ∧
  foldl (await_for (bd_id b)) (d_await d) (missing Inc (d_self d) b) = d_await d.
Proof.
  intros W Hb Hn. split; [by apply insert_id|]. apply await_all_id.
  intros dep [Hd Hin]%list_elem_of_filter. pose proof (wf_pending _ _ _ W _ _ Hb) as (_ & (E & _ & _) & _).
  apply (wf_wait _ _ _ W); [by eexists|done|by rewrite <- E|done].
Qed.

(** A pending block that is tried again: it is included, or it still misses something. *)
Lemma wake_one Inc next q d id b :
  cache_ok Inc d → wf Inc (next :: q) d → d_pending d !! id = Some b →
  ∃ ok d1 n1, processBlock stored_flag d b = Ok (ok, d1) ∧ grown Inc d d1 n1 ∧
    d_await d1 = d_await d ∧ d_pending d1 = d_pending d ∧
    (if ok : bool then id ∈ ids n1 ∪ Inc ∧ wf (ids n1 ∪ Inc) (next :: q ++ [id]) d1
     else n1 = [] ∧ id ∉ Inc ∧ (∃ dep, dep ∈ needs_of id ∧ dep ∉ Inc) ∧ wf Inc (next :: q) d1).
Proof.
  intros Hc W Hb. destruct (wf_pending _ _ _ W id b Hb) as (Eb & Hgb & Hpr).
  assert (is_Some (d_pending d !! id)) as Hpend by by eexists.
  destruct (processBlock_cases Inc d b Hc Hgb) as [[_ []]|(ok & d1 & n1 & E & G1 & Hcase)]; [by rewrite Eb|].
  pose proof (gr_in _ _ _ _ G1) as Ei. pose proof (gr_self _ _ _ _ G1) as Es.
  exists ok, d1, n1. rewrite Eb in Hcase. destruct ok.
  - destruct Hcase as (Ea & Ep & [[Hin ->]|(Hn & -> & Hd)]); split_and!; try done;
      rewrite ?ids_nil_union, ?ids_one_union, ?Eb; try set_solver.
    + apply (wf_same _ _ d); [|done..]. by apply (wf_again _ (next :: q)).
    + apply (wf_same _ _ d); [|done..]. by apply (wf_include _ (next :: q)).
  - destruct Hcase as (-> & Hn & _ & Hm & Ep & Ea). rewrite <- Eb in Hb, Hn, Ep, Ea.
    destruct (pending_again _ _ _ _ W Hb Hn) as [Ep1 Ea1]. rewrite Ep1 in Ep. rewrite Ea1 in Ea. rewrite Eb in Hn.
    split_and!; try done; [|by apply (wf_same _ _ d)].
    destruct (missing Inc (d_self d) b) as [|m ms] eqn:Em; [done|].
    assert (m ∈ missing Inc (d_self d) b) as [? ?]%list_elem_of_filter by (rewrite Em; set_solver).
    exists m. by rewrite <- Eb, <- (proj1 Hgb).
Qed.

Lemma wake_spec revdeps : ∀ Inc next q d seen,
  cache_ok Inc d → wf Inc (next :: q) d → seen_ok Inc seen →
  (∀ id, id ∈ revdeps → reg (d_await d) next id) →
  ∃ d' q' seen' news, wake stored_flag revdeps d q seen = Ok (d', q ++ q', seen') ∧
    (length q' ≤ length revdeps)%nat ∧ grown Inc d d' news ∧
    wf (ids news ∪ Inc) (next :: q ++ q') d' ∧ seen_ok (ids news ∪ Inc) seen' ∧
    d_await d' = d_await d ∧ d_pending d' = d_pending d ∧
    (∀ id, id ∈ revdeps → id ∈ ids news ∪ Inc ∨ ∃ dep, dep ≠ next ∧ reg (d_await d) dep id).
Proof.
  induction revdeps as [|id revdeps IH]; intros Inc next q d seen Hc W Hs Hr; simpl.
  { exists d, [], seen, []. rewrite app_nil_r.
    rewrite ids_nil_union.
    split_and!; [done|done|by apply grown_refl|done..|set_solver]. }
  assert (next ∈ Inc) as Hnext by (apply (wf_q _ _ _ W); set_solver).
  assert (is_Some (d_pending d !! id)) as Hpend by (apply (wf_await _ _ _ W next), Hr; set_solver).
  assert (id ∉ Inc → (∃ dep, dep ∈ needs_of id ∧ dep ∉ Inc) → ∃ dep, dep ≠ next ∧ reg (d_await d) dep id) as Hmiss.
  { intros Hn (dep & Hd & Hdn). exists dep. split; [by intros ->|]. by apply (wf_wait _ _ _ W). }
  case_bool_decide as Hseen.
  { destruct (IH Inc next q d seen Hc W Hs) as (d' & q' & seen' & news & E & Hl & G & W' & S' & Ea & Ep & Hall);
      [set_solver|].
    exists d', q', seen', news. split_and!; try done; [simpl; lia|].
    intros x [->|Hx]%elem_of_cons; [|by apply Hall].
    destruct (decide (id ∈ Inc)); [set_solver|]. right. destruct (Hs id Hseen); [done|by apply Hmiss]. }
  destruct Hpend as [b Hb]. rewrite Hb. cbn [or_panic mbind outcome_bind].
  destruct (wake_one Inc next q d id b Hc W Hb) as (ok & d1 & n1 & -> & G1 & Ea & Ep & Hcase).
  cbn [mbind outcome_bind]. pose proof (gr_cache _ _ _ _ G1) as Hc1. destruct ok.
  - destruct Hcase as [Hid W1]. destruct (IH (ids n1 ∪ Inc) next (q ++ [id]) d1 ∅ Hc1 W1)
      as (d' & q' & seen' & news & E & Hl & G & W' & S' & Ea' & Ep' & Hall).
    { intros ?; set_solver. } { rewrite Ea. set_solver. }
    exists d', (id :: q'), seen', (n1 ++ news). rewrite ids_app_union.
    rewrite <- (assoc_L (++)) in E, W'. split_and!; try done; try congruence; [simpl; lia|by eapply grown_trans|].
    intros x [->|Hx]%elem_of_cons; [set_solver|]. rewrite <- Ea. by apply Hall.
  - destruct Hcase as (-> & Hn & Hex & W1). rewrite ids_nil_union in Hc1.
    destruct (IH Inc next q d1 ({[id]} ∪ seen) Hc1 W1)
      as (d' & q' & seen' & news & E & Hl & G & W' & S' & Ea' & Ep' & Hall).
    { intros x [->%elem_of_singleton|?]%elem_of_union; [by right|by apply Hs]. }
    { rewrite Ea. set_solver. }
    exists d', q', seen', news. split_and!; try done; try congruence; [simpl; lia| |].
    + change news with ([] ++ news). eapply grown_trans; [done|]. by rewrite ids_nil_union.
    + intros x [->|Hx]%elem_of_cons; [right; by apply Hmiss|]. rewrite <- Ea. by apply Hall.
Qed.

(** ** The loop over the included blocks *)
(** The head of the queue has woken up its blocks: they are included or wait elsewhere. *)
Lemma wf_pop Inc next q d (first : bool) :
  wf Inc (next :: q) d → (first = true → d_pending d !! next = None) →
  (∀ id, reg (d_await d) next id → id ∈ Inc ∨ ∃ dep, dep ≠ next ∧ reg (d_await d) dep id) →
  let d' := set_await d (delete next (d_await d)) in
  wf Inc q (if first then d' else set_pending d' (delete next (d_pending d'))).
Proof.
  intros W Hf Hall d'. assert (next ∈ Inc) as Hnext by (apply (wf_q _ _ _ W); set_solver).
  assert ((if first then d' else set_pending d' (delete next (d_pending d')))
    = set_pending d' (delete next (d_pending d))) as ->.
  { destruct first; [|done]. unfold set_pending. simpl. by rewrite (delete_id (d_pending d)) by auto. }
  split; simpl.
  - apply W.
  - intros id b [_ Hb]%lookup_delete_Some. by apply (wf_pending _ _ _ W).
  - intros dep id [Hd Hr]%reg_delete. destruct (wf_await _ _ _ W dep id Hr) as [Hp Hin].
    split; [|done]. apply delete_is_Some. split; [|done]. intros ->.
    pose proof (wf_order _ _ _ W dep next Hr Hnext) as Ho. by apply precedes_tail in Ho as [_ ?].
  - intros dep [Hd Hk]%delete_is_Some Hin. pose proof (wf_key _ _ _ W dep Hk Hin). set_solver.
  - intros id dep [Hi Hp]%delete_is_Some Hn Hd Hdn. apply reg_delete.
    split; [by intros ->|]. by apply (wf_wait _ _ _ W).
  - intros id [Hi Hp]%delete_is_Some Hn. destruct (wf_live _ _ _ W id Hp Hn) as [dep Hr].
    setoid_rewrite reg_delete. destruct (decide (dep = next)) as [->|]; [|eauto].
    destruct (Hall id Hr) as [|?]; [done|eauto].
  - intros id [Hi Hp]%delete_is_Some Hin. pose proof (wf_done _ _ _ W id Hp Hin). set_solver.
  - intros dep id [Hd Hr]%reg_delete Hin. by eapply precedes_tail, Hd; apply (wf_order _ _ _ W).
  - intros id Hin. apply (wf_q _ _ _ W). set_solver.
Qed.

Lemma waiting_delete (d : depgraph) next :
  waiting d = (length (default [] (d_await d !! next)) + waiting (set_await d (delete next (d_await d))))%nat.
Proof.
  unfold waiting; simpl. generalize (d_await d); intros m. destruct (m !! next) as [l|] eqn:E; simpl; [|by rewrite delete_id].
  rewrite <- (insert_delete_id m next l) at 1 by done.
  rewrite map_fold_insert_L; [done|intros; lia|apply lookup_delete_eq].
Qed.

Lemma waiting_same d d' : d_await d' = d_await d → waiting d' = waiting d.
Proof. unfold waiting. by intros ->. Qed.

Lemma drain_spec fuel : ∀ Inc q d seen first,
  cache_ok Inc d → wf Inc q d → seen_ok Inc seen → (length q + waiting d ≤ fuel)%nat →
  (first = true → ∃ id, q = [id] ∧ d_pending d !! id = None) →
  ∃ d' news, drain stored_flag fuel first d q seen = Ok d' ∧ grown Inc d d' news ∧
    wf (ids news ∪ Inc) [] d'.
Proof.
  induction fuel as [|fuel IH]; intros Inc q d seen first Hc W Hs Hf Hfirst; destruct q as [|next q].
  1,3: exists d, []; rewrite ids_nil_union; split_and!; [done|by apply grown_refl|done].
  { simpl in Hf; lia. }
  cbn [drain].
  destruct (wake_spec (default [] (d_await d !! next)) Inc next q d seen Hc W Hs)
    as (d1 & q' & seen' & n1 & -> & Hl & G & W1 & S1 & Ea & Ep & Hall).
  { intros id Hin. destruct (d_await d !! next) as [l|] eqn:E; [by exists l|set_solver]. }
  cbn [mbind outcome_bind].
  assert (first = true → d_pending d1 !! next = None) as Hf1.
  { intros Ef. destruct (Hfirst Ef) as (id & [= -> ->] & ?). by rewrite Ep. }
  pose proof (wf_pop _ _ _ _ first W1 Hf1) as Wp. cbn zeta in Wp.
  set (d2 := if first then _ else _) in Wp |- *.
  assert (grown Inc d d2 n1) as G2 by (destruct G as [? ? [] ? ? ?], first; split; try done; by split).
  destruct (IH (ids n1 ∪ Inc) (q ++ q') d2 seen' false) as (d' & n2 & -> & G' & W'); [apply G2| |done| |done|].
  { apply Wp. intros id (l & E & Hin). rewrite Ea in E. rewrite Ea. apply Hall. by rewrite E. }
  { pose proof (waiting_delete d next) as Hw. rewrite length_app. simpl in Hf.
    rewrite (waiting_same (set_await d (delete next (d_await d))) d2)
      by (unfold d2; destruct first; simpl; by rewrite Ea).
    lia. }
  exists d', (n1 ++ n2). rewrite ids_app_union. split_and!; [done|by eapply grown_trans|done].
Qed.

(** ** One iteration *)
Lemma cache_ok_prune Inc d : cache_ok Inc d → cache_ok Inc (prune_icache d).
Proof.
  intros [T I F A]. unfold prune_icache. destruct (_ <? _); [|by split]. split; simpl; try done.
  intros id b Hb. apply I. apply elem_of_list_to_map_2 in Hb. apply elem_of_map_to_list.
  by apply subseteq_take in Hb.
Qed.

Lemma prune_rest d :
  d_await (prune_icache d) = d_await d ∧ d_blocks (prune_icache d) = d_blocks d ∧
  d_in (prune_icache d) = d_in d ∧ d_pending (prune_icache d) = d_pending d ∧
  d_self (prune_icache d) = d_self d ∧ d_tcache (prune_icache d) = d_tcache d.
Proof. unfold prune_icache. by destruct (_ <? _). Qed.

(** A new block is registered for the blocks it misses. *)
Lemma wf_add_pending Inc d d' b :
  wf Inc [] d → good (d_self d) b → printable (bd_id b) → bd_id b ∉ Inc → missing Inc (d_self d) b ≠ [] →
  d_pending d' = <[bd_id b := b]> (d_pending d) →
  d_await d' = foldl (await_for (bd_id b)) (d_await d) (missing Inc (d_self d) b) →
  d_in d' = d_in d → d_self d' = d_self d → wf Inc [] d'.
Proof.
  intros W Hg Hpr Hn Hm Ep Ea Ei Es.
  assert (∀ dep, dep ∈ missing Inc (d_self d) b ↔ dep ∉ Inc ∧ dep ∈ needs_of (bd_id b)) as Hmiss.
  { intros dep. unfold missing. by rewrite list_elem_of_filter, (proj1 Hg). }
  split; rewrite ?Ei, ?Es; try apply W.
  - intros id c. rewrite Ep, lookup_insert_Some. intros [[<- <-]|[_ ?]]; [done|by apply (wf_pending _ _ _ W)].
  - intros dep id. rewrite Ea, await_all_reg, Hmiss, Ep, lookup_insert_is_Some'.
    intros [Hr|[-> ?]]; [apply (wf_await _ _ _ W) in Hr|]; tauto.
  - intros dep. rewrite Ea. intros [Hk|Hd%Hmiss]%await_all_key Hin; [|tauto]. by apply (wf_key _ _ _ W).
  - intros id dep. rewrite Ea, await_all_reg, Hmiss, Ep, lookup_insert_is_Some'.
    intros [<-|Hp] ???; [by right|left; by apply (wf_wait _ _ _ W)].
  - intros id. rewrite Ep, lookup_insert_is_Some'. setoid_rewrite Ea. setoid_rewrite await_all_reg.
    intros [<-|Hp] Hi; [|destruct (wf_live _ _ _ W id Hp Hi); eauto].
    destruct (missing Inc (d_self d) b) as [|dep l]; [done|]. exists dep. right. set_solver.
  - intros id. rewrite Ep, lookup_insert_is_Some'. intros [<-|Hp] Hi; [done|by apply (wf_done _ _ _ W)].
  - intros dep id. rewrite Ea, await_all_reg. intros [Hr|[-> _]] Hi; [by apply (wf_order _ _ _ W)|done].
Qed.

Definition step_ok (Inc : gset BlockID) (d d' : depgraph) (info : blockData) (news : list blockData) : Prop :=
  d_blocks d' = d_blocks d ++ news ∧ causal (d_self d) Inc news ∧ Forall P news ∧ d_self d' = d_self d ∧
  cache_ok (ids news ∪ Inc) d' ∧ wf (ids news ∪ Inc) [] d' ∧
  (bd_id info ∈ ids news ∪ Inc ∨ is_Some (d_pending d' !! bd_id info)).

Definition process_rest (d : depgraph) (info : blockData) (rest : list blockData) (i : Z) : outcome (option (Z * depgraph)) :=
  '(ok, d) ← processBlock stored_flag (set_in d rest) info;
  if ok : bool then
    d ← drain stored_flag (S (waiting d)) true d [bd_id info] {[bd_id info]}; Ok (Some (i, d))
  else Ok (Some (i, d)).

Lemma process_info Inc d info rest (i : Z) :
  cache_ok Inc d → wf Inc [] d → d_in d = info :: rest → printable (bd_id info) ∨ process_rest d info rest i ≠ Halt Panic →
  ∃ d' news, process_rest d info rest i = Ok (Some (i, d')) ∧ d_in d' = rest ∧ step_ok Inc d d' info news.
Proof.
  intros Hc W Ei Hpr. unfold process_rest in *. pose proof (wf_in _ _ _ W) as Hin. rewrite Ei in Hin.
  apply Forall_cons in Hin as [Hg Hrest].
  assert (cache_ok Inc (set_in d rest)) as Hc0 by (by destruct Hc).
  assert (wf Inc [] (set_in d rest)) as W0 by (destruct W; by split).
  destruct (processBlock_cases Inc (set_in d rest) info Hc0 Hg) as [[E Hn]|(ok & d1 & n1 & E & G & Hcase)];
    rewrite E in *; [by destruct Hpr as [|[]]|].
  cbn [mbind outcome_bind]. pose proof G as [Gb Gc Gk Gg Gi Gs]. destruct ok.
  2: { destruct Hcase as (-> & Hn & Hpi & Hm & Ep & Ea). exists d1, []. rewrite ids_nil_union in Gk.
       unfold step_ok. rewrite ids_nil_union. split_and!; try done.
       - by eapply wf_add_pending.
       - right. rewrite Ep, lookup_insert_eq. by eexists. }
  destruct Hcase as (Ea & Ep & Hcase).
  assert (bd_id info ∈ ids n1 ∪ Inc ∧ wf (ids n1 ∪ Inc) [bd_id info] d1 ∧ d_pending d1 !! bd_id info = None)
    as (Hid & W1 & Hp).
  { assert (∀ x, x ∈ Inc → d_pending d1 !! x = None) as Hnone.
    { intros x Hx. rewrite Ep. apply eq_None_not_Some. intros ?.
      pose proof (wf_done _ _ _ W0 x ltac:(done) Hx). set_solver. }
    destruct Hcase as [[Hx ->]|(Hn & -> & Hd)].
    - rewrite ids_nil_union. split_and!; [done| |by apply Hnone].
      apply (wf_same _ _ (set_in d rest)); [|done..]. by apply (wf_again _ []).
    - rewrite ids_one_union. split_and!; [set_solver| |].
      + apply (wf_same _ _ (set_in d rest)); [|done..]. by apply (wf_include _ []).
      + rewrite Ep. apply eq_None_not_Some. intros Hs.
        destruct (wf_stuck _ _ _ W0 Hs) as (_ & dep & Hdep & Hdn). by apply Hdn, Hd. }
  destruct (drain_spec (S (waiting d1)) (ids n1 ∪ Inc) [bd_id info] d1 {[bd_id info]} true Gk W1)
    as (d2 & n2 & -> & G2 & W2).
  { intros x ->%elem_of_singleton. by left. } { simpl; lia. } { eauto. }
  exists d2, (n1 ++ n2). pose proof (grown_trans _ _ _ _ _ _ G G2) as [Hb Hcz Hk Hgood Hi Hself].
  unfold step_ok. rewrite ids_app_union in *. split_and!; try done. set_solver.
Qed.

Lemma process_step_spec Inc d i :
  cache_ok Inc d → wf Inc [] d →
  match d_in d with
  | [] => process_step stored_flag i d = Ok None
  | info :: rest =>
      printable (bd_id info) ∨ process_step stored_flag i d ≠ Halt Panic →
      ∃ d' news, process_step stored_flag i d = Ok (Some (i + 1, d')) ∧ d_in d' = rest ∧
        step_ok Inc d d' info news
  end.
Proof.
  intros Hc W. unfold process_step.
  set (d0 := if (i + 1) mod 100 =? 0 then prune_icache d else d).
  assert (cache_ok Inc d0 ∧ wf Inc [] d0 ∧ d_in d0 = d_in d ∧ d_blocks d0 = d_blocks d ∧ d_self d0 = d_self d)
    as (Hc0 & W0 & Ei & Eb & Es).
  { destruct (prune_rest d) as (Ea & Eb & Ei & Ep & Es & Et). unfold d0. destruct (_ =? _); [|done].
    split_and!; try done; [by apply cache_ok_prune|by apply (wf_same _ _ d)]. }
  cbv zeta. rewrite <- Ei. destruct (d_in d0) as [|info rest] eqn:E; [done|].
  intros Hpr. destruct (process_info Inc d0 info rest (i + 1) Hc0 W0 E Hpr) as (d' & news & Hp & Hi & Hs).
  exists d', news. split_and!; [exact Hp|done|]. unfold step_ok in *. by rewrite <- Eb, <- Es.
Qed.
End Depgraph.

Lemma cache_ok_le flag flag' Inc d :
  cache_ok flag Inc d → flag ⊆ flag' → flag' ⊆ Inc → cache_ok flag' Inc d.
Proof. intros [T I F A] H1 H2. split; try done. intros id Hin. destruct (A id Hin); [left; set_solver|by right]. Qed.

Lemma cache_ok_clear flag Inc d id : cache_ok flag Inc d → id ∈ flag → cache_ok flag Inc (actuallyIncluded d id).
Proof.
  intros [T I F A] Hid. split; simpl; try done.
  - intros id' b [_ ?]%lookup_delete_Some. by apply T.
  - intros id' Hin. destruct (decide (id = id')) as [->|]; [by left|].
    rewrite lookup_delete_ne by done. by apply A.
Qed.

(** ** The graph and the two loops that use it

    [process] runs beside [genBlocks], which takes blocks off the queue, stores
    them as included by one of its own blocks, and then clears them one by one.
    [y_taken] is the history of the blocks taken. *)
Record sys := mkSys { y_flag : gset BlockID; y_taken : list blockData; y_dep : depgraph; y_i : Z }.

Inductive sys_step (needs_of : BlockID → list BlockID) (P : blockData → Prop) : sys → sys → Prop :=
| sys_add y b :
    good needs_of P (d_self (y_dep y)) b →
    sys_step needs_of P y (mkSys (y_flag y) (y_taken y) (add (y_dep y) b) (y_i y))
| sys_process y i d :
    process_step (stored_flag (y_flag y)) (y_i y) (y_dep y) = Ok (Some (i, d)) →
    sys_step needs_of P y (mkSys (y_flag y) (y_taken y) d i)
| sys_take y limit blocks d :
    getBlocks (y_dep y) limit = (blocks, d) →
    sys_step needs_of P y (mkSys (y_flag y) (y_taken y ++ blocks) d (y_i y))
| sys_store y blocks :
    blocks ⊆ y_taken y →
    sys_step needs_of P y (mkSys (ids blocks ∪ y_flag y) (y_taken y) (y_dep y) (y_i y))
| sys_clear y id :
    id ∈ y_flag y →
    sys_step needs_of P y (mkSys (y_flag y) (y_taken y) (actuallyIncluded (y_dep y) id) (y_i y)).

Section Sys.
Context (needs_of : BlockID → list BlockID) (P : blockData → Prop) (self : Z) (flag : gset BlockID).

(** The graph as [loadState] starts it over the blocks included so far. *)
Definition sys_init : sys := mkSys flag [] (new self) 0.

(** Everything queued so far: the blocks taken and the ones that wait to be taken. *)
Definition queued (y : sys) : list blockData := y_taken y ++ d_blocks (y_dep y).

Record sys_inv (y : sys) : Prop := {
  si_self : d_self (y_dep y) = self;
  si_flag : flag ⊆ y_flag y;
  si_causal : causal self flag (queued y);
  si_good : Forall P (queued y);
  si_cache : cache_ok (y_flag y) (ids (queued y) ∪ flag) (y_dep y);
  si_wf : wf needs_of P (ids (queued y) ∪ flag) [] (y_dep y) }.

Lemma sys_inv_init : sys_inv sys_init.
Proof.
  unfold sys_init. split; simpl; unfold queued; simpl; try done.
  - apply causal_nil.
  - rewrite ids_nil_union. split; simpl; set_solver.
  - rewrite ids_nil_union. split; simpl; try done; intros *; try by intros [? ?].
    all: try (intros (l & H & _)); try (intros H; set_solver); by rewrite lookup_empty in *.
Qed.

Lemma sys_inv_step y y' : sys_inv y → sys_step needs_of P y y' → sys_inv y'.
Proof.
  intros [Es Ef Hc Hg Hk W]. inversion 1 as [? b Hgb|? i d Hp|? limit bl d Hb|? bl Hb|? id Hid]; subst.
  - split; simpl; try done; unfold queued in *; simpl.
    + by destruct Hk.
    + destruct W. split; simpl; try done. apply Forall_app. split; [done|by apply Forall_singleton].
  - pose proof (process_step_spec _ needs_of P _ _ (y_i y) Hk W) as Hs.
    destruct (d_in (y_dep y)) as [|info rest]; [congruence|].
    destruct Hs as (d' & news & Hp' & _ & Hb & Hn & Hgn & Es' & Hk' & W' & _); [right; by rewrite Hp|].
    rewrite Hp in Hp'. injection Hp' as -> ->. rewrite Es in *.
    assert (queued (mkSys (y_flag y) (y_taken y) d' (y_i y + 1)) = queued y ++ news) as Eq
      by (unfold queued; simpl; by rewrite Hb, (assoc_L (++))).
    split; simpl; try done; rewrite Eq; rewrite ?ids_app_union; try done; [by apply causal_app|by apply Forall_app].
  - unfold getBlocks in Hb. injection Hb as <- <-. set (idx := fitting _ _ _).
    assert (∀ d, d_blocks d = drop idx (d_blocks (y_dep y)) →
      queued (mkSys (y_flag y) (y_taken y ++ take idx (d_blocks (y_dep y))) d (y_i y)) = queued y) as Eq.
    { intros d E. unfold queued. simpl. by rewrite E, <- (assoc_L (++)), take_drop. }
    split; simpl; try done; rewrite Eq by done; try done; [by destruct Hk|by destruct W].
  - split; simpl; try done; [set_solver|]. apply (cache_ok_le (y_flag y)); [done|set_solver|].
    assert (ids bl ⊆ ids (queued y)).
    { unfold queued. rewrite ids_app. unfold ids. intros x. rewrite elem_of_union, !elem_of_list_to_set.
      intros (b & -> & Hin)%list_elem_of_fmap. left. apply list_elem_of_fmap. eauto. }
    pose proof (co_flag _ _ _ Hk). set_solver.
  - split; simpl; try done; unfold queued in *; simpl; [by apply cache_ok_clear|by destruct W].
Qed.

Lemma sys_inv_reachable y : rtc (sys_step needs_of P) sys_init y → sys_inv y.
Proof.
  apply (rtc_ind_r (λ y, sys_inv y)); [apply sys_inv_init|].
  intros y1 y2 _ Hstep Hi. by eapply sys_inv_step.
Qed.

(** C16: Whatever the order in which blocks arrive and in which the processing loop and the
    block generator take their steps, the dependency graph queues every block at most once and
    only after its predecessor and the blocks of other nodes it references. *)
Theorem queued_in_causal_order y :
  rtc (sys_step needs_of P) sys_init y → causal self flag (queued y) ∧ Forall P (queued y).
Proof. intros [_ _ Hc Hg _ _]%sys_inv_reachable. done. Qed.

(** C17: As long as the database answers, each iteration of the processing loop on a block whose
    own identifier and whose references can be formatted for the log (hashes of no or at least
    12 bytes) terminates without a panic, the block it takes is queued or pending afterwards,
    and only blocks that miss a dependency stay pending: the arrival of the last missing block
    releases all that waited for it. *)
Theorem process_makes_progress y :
  rtc (sys_step needs_of P) sys_init y →
  let d := y_dep y in
  match d_in d with
  | [] => process_step (stored_flag (y_flag y)) (y_i y) d = Ok None
  | info :: rest =>
      printable (bd_id info) →
      ∃ d' news, process_step (stored_flag (y_flag y)) (y_i y) d = Ok (Some (y_i y + 1, d')) ∧
        d_in d' = rest ∧ d_blocks d' = d_blocks d ++ news ∧
        let Inc' := ids (queued y ++ news) ∪ flag in
        (bd_id info ∈ Inc' ∨ is_Some (d_pending d' !! bd_id info)) ∧
        ∀ id, is_Some (d_pending d' !! id) → id ∉ Inc' ∧ ∃ dep, dep ∈ needs_of id ∧ dep ∉ Inc'
  end.
Proof.
  intros [Es Ef Hc Hg Hk W]%sys_inv_reachable d.
  pose proof (process_step_spec _ needs_of P _ _ (y_i y) Hk W) as Hs. fold d in Hs.
  destruct (d_in d) as [|info rest]; [done|]. intros Hpr.
  destruct Hs as (d' & news & Hp & Hi & Hb & Hn & Hgn & Es' & Hk' & W' & Hinfo); [by left|].
  exists d', news. cbv zeta. rewrite ids_app_union. split_and!; try done. intros id Hid. by eapply wf_stuck.
Qed.
End Sys.

(** A reference to a block of another node whose hash has between one and eleven bytes
    makes the processing loop panic, as the debug message formats the first and last six bytes
    of the hash. *)
Theorem short_reference_panics self id dep sd :
  Node dep ≠ self → (0 < length (Hash dep) < 12)%nat → id ≠ dep →
  process_step (stored_flag ∅) 0 (add (new self) (mkBlockData [dep] id zeroID sd)) = Halt Panic.
Proof.
  intros Hn Hl Hne. unfold process_step, processBlock, isIncluded at 1. simpl.
  rewrite !lookup_empty. simpl. rewrite (bool_decide_eq_false_2 (id ∈ ∅)) by set_solver. simpl.
  destruct (Z.eqb_spec (Node dep) self) as [|_]; [done|].
  unfold isIncluded. simpl. rewrite lookup_empty, lookup_insert_ne, lookup_empty by done. simpl.
  rewrite (bool_decide_eq_false_2 (dep ∈ ∅)) by set_solver.
  assert (BlockID_String dep = Halt Panic) as ->.
  { unfold BlockID_String.
    rewrite (bool_decide_eq_false_2 (Hash dep = [])) by (intros E; rewrite E in Hl; simpl in Hl; lia).
    by rewrite hash_digits_panics by lia. }
  pose proof (BlockID_String_cases id) as Hs. destruct (Msg.shows (Hash id)); [|by rewrite Hs].
  by destruct (BlockID_String id).
Qed.
