(* ===== verification/Broadcast.v ===== *)
(** * The broadcast service (src/broadcast/broadcast.go): definitions

    [service] holds the fields of [Service] that its methods read and write.  The
    database, protocol buffers and the hash are the classes of Kv.v; signatures are
    [Signatures].  Calls of the registered callback and of [graph.Add] are recorded in
    the order they are made ([v_calls], [v_added]).  A method that returns an error
    gives the service afterwards and the error; a fatal log entry ends the process. *)

From S2P Require Import Prelude Messages Block Graph Codec Kv Conn Cache Store Ext Depgraph.

(** The public keys of the nodes and the node's own key pair. *)
Class Signatures := {
  PublicKey : Type;
  Verify : PublicKey → bytes → bytes → bool;     (* key.Verify(data, sig) *)
  Sign : bytes → bytes                            (* s.key.Sign(data) *)
}.

(** ** Messages of types.proto *)
Record ListBlocks := mkList { lb_Blocks : list (option SignedData) }.
Record GetBlocks := mkGetBlocks { gb_Blocks : list BlockReference }.
Record GetRounds := mkGetRounds { gr_Rounds : list Z }.
Record AckBroadcast := mkAck { ack_Last : Z }.

(** The fields of [Service] that are set once. *)
Record sconf `{Signatures} := mkConf {
  c_keys : gmap Z PublicKey; c_maxBlocks : Z; c_maxPayload : Z; c_nodeID : Z; c_peers : list Z;
  c_refSizeLimit : Z }.

Record service (DB : Type) `{Signatures} := mkService {
  v_conf : sconf;
  v_cb : bool;  (* a callback is registered *)
  v_calls : list (Z * list SignedData);  (* its calls *)
  v_depgraph : depgraph;
  v_added : list BlockGraph;  (* the calls of graph.Add *)
  v_interpreted : Z;
  v_ownBlocks : ownBlocks;
  v_prevhash : bytes;
  v_prevref : option SignedData;
  v_received : receivedMap;
  v_round : Z;
  v_sent : gmap Z Z;
  v_store : store DB;
  v_tx : txbuf }.
Arguments mkService {DB H}.
Arguments v_conf {DB H} s.
Arguments v_cb {DB H} s.
Arguments v_calls {DB H} s.
Arguments v_depgraph {DB H} s.
Arguments v_added {DB H} s.
Arguments v_interpreted {DB H} s.
Arguments v_ownBlocks {DB H} s.
Arguments v_prevhash {DB H} s.
Arguments v_prevref {DB H} s.
Arguments v_received {DB H} s.
Arguments v_round {DB H} s.
Arguments v_sent {DB H} s.
Arguments v_store {DB H} s.
Arguments v_tx {DB H} s.

Module Broadcast.
(** ** Field updates *)
Section Fields.
Context {DB : Type} `{Signatures}.
Implicit Types (s : service DB).
Definition set_cb s x : service DB := mkService (v_conf s) x (v_calls s) (v_depgraph s) (v_added s) (v_interpreted s) (v_ownBlocks s) (v_prevhash s) (v_prevref s) (v_received s) (v_round s) (v_sent s) (v_store s) (v_tx s).
Definition set_calls s x : service DB := mkService (v_conf s) (v_cb s) x (v_depgraph s) (v_added s) (v_interpreted s) (v_ownBlocks s) (v_prevhash s) (v_prevref s) (v_received s) (v_round s) (v_sent s) (v_store s) (v_tx s).
Definition set_depgraph s x : service DB := mkService (v_conf s) (v_cb s) (v_calls s) x (v_added s) (v_interpreted s) (v_ownBlocks s) (v_prevhash s) (v_prevref s) (v_received s) (v_round s) (v_sent s) (v_store s) (v_tx s).
Definition set_added s x : service DB := mkService (v_conf s) (v_cb s) (v_calls s) (v_depgraph s) x (v_interpreted s) (v_ownBlocks s) (v_prevhash s) (v_prevref s) (v_received s) (v_round s) (v_sent s) (v_store s) (v_tx s).
Definition set_interpreted s x : service DB := mkService (v_conf s) (v_cb s) (v_calls s) (v_depgraph s) (v_added s) x (v_ownBlocks s) (v_prevhash s) (v_prevref s) (v_received s) (v_round s) (v_sent s) (v_store s) (v_tx s).
Definition set_ownBlocks s x : service DB := mkService (v_conf s) (v_cb s) (v_calls s) (v_depgraph s) (v_added s) (v_interpreted s) x (v_prevhash s) (v_prevref s) (v_received s) (v_round s) (v_sent s) (v_store s) (v_tx s).
Definition set_prevhash s x : service DB := mkService (v_conf s) (v_cb s) (v_calls s) (v_depgraph s) (v_added s) (v_interpreted s) (v_ownBlocks s) x (v_prevref s) (v_received s) (v_round s) (v_sent s) (v_store s) (v_tx s).
Definition set_prevref s x : service DB := mkService (v_conf s) (v_cb s) (v_calls s) (v_depgraph s) (v_added s) (v_interpreted s) (v_ownBlocks s) (v_prevhash s) x (v_received s) (v_round s) (v_sent s) (v_store s) (v_tx s).
Definition set_received s x : service DB := mkService (v_conf s) (v_cb s) (v_calls s) (v_depgraph s) (v_added s) (v_interpreted s) (v_ownBlocks s) (v_prevhash s) (v_prevref s) x (v_round s) (v_sent s) (v_store s) (v_tx s).
Definition set_round s x : service DB := mkService (v_conf s) (v_cb s) (v_calls s) (v_depgraph s) (v_added s) (v_interpreted s) (v_ownBlocks s) (v_prevhash s) (v_prevref s) (v_received s) x (v_sent s) (v_store s) (v_tx s).
Definition set_sent s x : service DB := mkService (v_conf s) (v_cb s) (v_calls s) (v_depgraph s) (v_added s) (v_interpreted s) (v_ownBlocks s) (v_prevhash s) (v_prevref s) (v_received s) (v_round s) x (v_store s) (v_tx s).
Definition set_store s x : service DB := mkService (v_conf s) (v_cb s) (v_calls s) (v_depgraph s) (v_added s) (v_interpreted s) (v_ownBlocks s) (v_prevhash s) (v_prevref s) (v_received s) (v_round s) (v_sent s) x (v_tx s).
Definition set_tx s x : service DB := mkService (v_conf s) (v_cb s) (v_calls s) (v_depgraph s) (v_added s) (v_interpreted s) (v_ownBlocks s) (v_prevhash s) (v_prevref s) (v_received s) (v_round s) (v_sent s) (v_store s) x.
End Fields.

(** ** Errors *)
Inductive perr :=
  | ErrDecode | ErrNoKey | ErrEncode | ErrSignature
  | ErrNilPrevious | ErrPreviousSignature | ErrPreviousDecode | ErrPreviousNode | ErrPreviousRound
  | ErrRefDecode | ErrRefNoKey | ErrRefSignature | ErrRefSameNode
  | ErrTooMany | ErrOpcode.

Definition OP_ACK_BROADCAST : Z := 1.
Definition OP_BROADCAST : Z := 2.
Definition OP_GET_BLOCKS : Z := 3.
Definition OP_GET_ROUNDS : Z := 4.
Definition OP_LIST_BLOCKS : Z := 5.

Section Ops.
Context {DB : Type} `{KV DB} `{Signatures} `{Hasher}.
Context `{PS : Proto SignedData} `{PB : Proto Block} `{PR : Proto BlockReference}.
Context `{PL : Proto ListBlocks} `{PG : Proto GetBlocks} `{PN : Proto GetRounds} `{PA : Proto AckBroadcast}.
Implicit Types (s : service DB).

(** [if err != nil { log.Fatal(...) }] *)
Definition or_fatal {E A} (m : outcome (E + A)) : outcome A :=
  r ← m; match r with inl _ => Halt Fatal | inr a => Ok a end.

(** ** Received blocks *)

(** The loop of [processBlock] over the references. *)
Fixpoint check_refs (keys : gmap Z PublicKey) (node : Z) (refs : list SignedData) : perr + list BlockID :=
  match refs with
  | [] => inr []
  | sref :: refs =>
      match unmarshal (sd_Data sref) with
      | None => inl ErrRefDecode
      | Some ref =>
          match keys !! br_Node ref with
          | None => inl ErrRefNoKey
          | Some key =>
              if negb (Verify key (sd_Data sref) (sd_Signature sref)) then inl ErrRefSignature
              else if br_Node ref =? node then inl ErrRefSameNode
              else match check_refs keys node refs with
              | inl e => inl e
              | inr deps => inr (mkBlockID (br_Hash ref) (br_Node ref) (br_Round ref) :: deps)
              end
          end
      end
  end.

(** The checks on the previous block of a block that is not the first. *)
Definition check_prev (key : PublicKey) (block : Block) : perr + BlockID :=
  if negb (b_Round block =? 1) then
    match b_Previous block with
    | None => inl ErrNilPrevious
    | Some previous =>
        if negb (Verify key (sd_Data previous) (sd_Signature previous)) then inl ErrPreviousSignature
        else match unmarshal (sd_Data previous) with
        | None => inl ErrPreviousDecode
        | Some prev =>
            if negb (br_Node prev =? b_Node block) then inl ErrPreviousNode
            else if negb (u64 (br_Round prev + 1) =? b_Round block) then inl ErrPreviousRound
            else inr (mkBlockID (br_Hash prev) (br_Node prev) (br_Round prev))
        end
    end
  else inr zeroID.

(** All the checks of [processBlock]: the data of the block, or the error. *)
Definition check_block (keys : gmap Z PublicKey) (signed : SignedData) : perr + blockData :=
  match unmarshal (sd_Data signed) with
  | None => inl ErrDecode
  | Some block =>
      match keys !! b_Node block with
      | None => inl ErrNoKey
      | Some key =>
          let hash := sha512_256 (sd_Data signed) in
          match marshal (mkRef hash (b_Node block) (b_Round block)) with
          | None => inl ErrEncode
          | Some enc =>
              if negb (Verify key enc (sd_Signature signed)) then inl ErrSignature
              else match check_prev key block with
              | inl e => inl e
              | inr prevID =>
                  match check_refs keys (b_Node block) (b_References block) with
                  | inl e => inl e
                  | inr deps =>
                      inr (mkBlockData deps (mkBlockID hash (b_Node block) (b_Round block)) prevID
                             (mkSigned enc (sd_Signature signed)))
                  end
              end
          end
      end
  end.

Definition setBlock s (id : BlockID) (block : SignedData) : service DB * option serr :=
  let '(st, e) := Store.setBlock (v_store s) id block in (set_store s st, e).

Definition processBlock s (signed : SignedData) : outcome (service DB * (perr + Z)) :=
  match check_block (c_keys (v_conf s)) signed with
  | inl e => Ok (s, inl e)
  | inr info =>
      let id := bd_id info in
      let '(s, e) := setBlock s id signed in
      match e with
      | Some _ => Halt Fatal
      | None =>
          let s := set_depgraph s (Depgraph.add (v_depgraph s) info) in
          let s := set_received s (Received.set (v_received s) (Node id) (Round id)) in
          Ok (s, inr (Round id))
      end
  end.

(** ** Own blocks *)
Definition setOwnBlock s (block blockRef : SignedData) (graph : BlockGraph) : service DB * option serr :=
  let s := set_ownBlocks s (OwnBlocks.set (v_ownBlocks s) (Round (bg_Block graph)) block) in
  let '(st, e) := Store.setOwnBlock (v_store s) block blockRef graph in
  (set_store s st, e).

Definition getOwnBlock s (round : Z) : outcome (service DB * (serr + SignedData)) :=
  match OwnBlocks.get (v_ownBlocks s) round with
  | Some block => Ok (s, inr block)
  | None =>
      r ← Store.getOwnBlock (v_store s) round;
      match r with
      | inl e => Ok (s, inl e)
      | inr block => Ok (set_ownBlocks s (OwnBlocks.set (v_ownBlocks s) round block), inr block)
      end
  end.

(** A block that is not found is logged and left out. *)
Definition getBlock s (nodeID round : Z) (hash : bytes) : outcome (option SignedData) :=
  r ← Store.getBlock (v_store s) (mkBlockID hash nodeID round);
  match r with inl _ => Ok None | inr block => Ok (Some block) end.

Definition getBlocks s (ids : list BlockID) : outcome (list SignedData) :=
  or_fatal (Store.getBlocks (v_store s) ids).

(** The loop [for i := last; i <= cur; i++] of [getUnsent], for the [n] rounds from [i]. *)
Fixpoint unsent_loop (n : nat) s (first : bool) (i total : Z) (blocks : list SignedData)
    : outcome (service DB * list SignedData) :=
  match n with
  | O => Ok (s, blocks)
  | S n =>
      '(s, r) ← getOwnBlock s i;
      match r with
      | inl _ => Halt Fatal
      | inr block =>
          let total := total + Ext.SignedData_Size block in
          if c_maxPayload (v_conf s) <? total then
            if first : bool then Halt Fatal else Ok (s, blocks)
          else unsent_loop n s false (i + 1) total (blocks ++ [block])
      end
  end.

(** One turn of [getUnsent]; [None] waits for the signal of the next block. *)
Definition getUnsent s (peerID : Z) : outcome (service DB * option (list SignedData)) :=
  let cur := v_round s in
  let last := u64 (default 0 (v_sent s !! peerID) + 1) in
  if last <=? cur then
    '(s, blocks) ← unsent_loop (Z.to_nat (cur - last + 1)) s true last 0 [];
    Ok (s, Some blocks)
  else Ok (s, None).

Definition markSent s (peerID round : Z) : service DB := set_sent s (<[peerID := round]> (v_sent s)).

(** ** Requests of peers *)

(** The loop of [handleBroadcastList]; a nil block is a nil pointer. *)
Fixpoint process_list s (last : Z) (blocks : list (option SignedData)) : outcome (service DB * (perr + Z)) :=
  match blocks with
  | [] => Ok (s, inr last)
  | block :: blocks =>
      block ← or_panic block;
      '(s, r) ← processBlock s block;
      match r with
      | inl e => Ok (s, inl e)
      | inr round => process_list s round blocks
      end
  end.

(** [data, err := proto.Marshal(resp); if err != nil { return nil, err }] *)
Definition reply {A} `{Proto A} s (opcode : Z) (resp : A) : outcome (service DB * (perr + SMessage)) :=
  Ok (s, match marshal resp with None => inl ErrEncode | Some data => inr (mkMessage 0 [] opcode data) end).

Definition handleBroadcastList s (peerID : Z) (msg : SMessage) : outcome (service DB * (perr + SMessage)) :=
  match unmarshal (m_Payload msg) with
  | None => Ok (s, inl ErrDecode)
  | Some list =>
      '(s, r) ← process_list s 0 (lb_Blocks list);
      match r with
      | inl e => Ok (s, inl e)
      | inr last => reply s OP_ACK_BROADCAST (mkAck last)
      end
  end.

Fixpoint find_blocks s (refs : list BlockReference) : outcome (list (option SignedData)) :=
  match refs with
  | [] => Ok []
  | ref :: refs =>
      block ← getBlock s (br_Node ref) (br_Round ref) (br_Hash ref);
      rest ← find_blocks s refs;
      Ok (block :: rest)
  end.

Definition handleGetBlocks s (peerID : Z) (msg : SMessage) : outcome (service DB * (perr + SMessage)) :=
  match unmarshal (m_Payload msg) with
  | None => Ok (s, inl ErrDecode)
  | Some req =>
      if c_maxBlocks (v_conf s) <? Z.of_nat (length (gb_Blocks req)) then Ok (s, inl ErrTooMany)
      else
        blocks ← find_blocks s (gb_Blocks req);
        reply s OP_LIST_BLOCKS (mkList blocks)
  end.

(** Rounds without a block are logged and left out. *)
Fixpoint find_rounds s (rounds : list Z) : outcome (service DB * list (option SignedData)) :=
  match rounds with
  | [] => Ok (s, [])
  | round :: rounds =>
      '(s, r) ← getOwnBlock s round;
      '(s, rest) ← find_rounds s rounds;
      Ok (s, match r with inl _ => rest | inr block => Some block :: rest end)
  end.

Definition handleGetRounds s (peerID : Z) (msg : SMessage) : outcome (service DB * (perr + SMessage)) :=
  match unmarshal (m_Payload msg) with
  | None => Ok (s, inl ErrDecode)
  | Some req =>
      if c_maxBlocks (v_conf s) <? Z.of_nat (length (gr_Rounds req)) then Ok (s, inl ErrTooMany)
      else
        '(s, blocks) ← find_rounds s (gr_Rounds req);
        reply s OP_LIST_BLOCKS (mkList blocks)
  end.

Definition Handle s (peerID : Z) (msg : SMessage) : outcome (service DB * (perr + SMessage)) :=
  if m_Opcode msg =? OP_BROADCAST then handleBroadcastList s peerID msg
  else if m_Opcode msg =? OP_GET_BLOCKS then handleGetBlocks s peerID msg
  else if m_Opcode msg =? OP_GET_ROUNDS then handleGetRounds s peerID msg
  else Ok (s, inl ErrOpcode).

(** ** Interpreted rounds *)

(** The strings of the blocks, which are formatted when the log level is info. *)
Definition format_blocks (at_info : bool) (blocks : list BlockID) : outcome unit :=
  if at_info then range (λ _ b, _ ← BlockID_String b; Ok tt) tt blocks else Ok tt.

Definition call_cb s (round : Z) (blocks : list SignedData) : service DB :=
  set_calls s (v_calls s ++ [(round, blocks)]).

(** An error of [setInterpreted] is not looked at. *)
Definition blockmaniaCallback (at_info : bool) s (data : Interpreted) : outcome (service DB) :=
  _ ← format_blocks at_info (in_Blocks data);
  let s := set_store s (Store.setInterpreted (v_store s) data).1 in
  if v_cb s then
    blocks ← getBlocks s (in_Blocks data);
    Ok (call_cb s (in_Round data) blocks)
  else Ok (set_interpreted s (in_Round data)).

(** The loop [for i := ack + 1; i <= latest; i++] of [Register], for [n] rounds from [i]. *)
Fixpoint replay_calls (n : nat) s (i : Z) : outcome (service DB) :=
  match n with
  | O => Ok s
  | S n =>
      blocks ← or_fatal (Store.getInterpreted (v_store s) i);
      replay_calls n (call_cb s i blocks) (i + 1)
  end.

Definition Register s : outcome (service DB) :=
  if v_cb s then Halt Fatal
  else
    let s := set_cb s true in
    r ← Store.getDeliverAcknowledged (v_store s);
    ack ← (match r with
           | inr ack => Ok ack
           | inl (DBErr KeyNotFound) => Ok 0
           | inl _ => Halt Fatal
           end);
    let i := u64 (ack + 1) in
    replay_calls (Z.to_nat (v_interpreted s - i + 1)) s i.

Definition Acknowledge s (round : Z) : service DB :=
  set_store s (Store.setDeliverAcknowledged (v_store s) round).1.

(** One tick of [writeReceivedMap] and of [writeSentMap]. *)
Definition writeReceivedMap s : service DB :=
  set_store s (Store.setReceivedMap (v_store s) (map_to_list (v_received s))).1.
Definition writeSentMap s : service DB :=
  set_store s (Store.setSentMap (v_store s) (map_to_list (v_sent s))).1.

(** One turn of the loop of [AddTransaction]; [s.signal] is closed by the next block. *)
Definition AddTransaction s (txdata : bytes) (fee : Z) : outcome (service DB * Ext.added) :=
  a ← Ext.AddTransaction_turn (v_tx s) txdata fee;
  Ok (match a with Ext.Added b => set_tx s b | _ => s end, a).

(** ** Starting up *)

(** The loop over the batches of block graphs; at most [fuel] of them. *)
Fixpoint replay_loop (fuel : nat) (st : store DB) (node from batch : Z) (added : list BlockGraph)
    : outcome (serr + list BlockGraph) :=
  match fuel with
  | O => Halt Diverge
  | S fuel =>
      blocks ←? Store.getBlockGraphs st node from batch;
      let added := added ++ blocks in
      if Z.of_nat (length blocks) <? batch then Ok (inr added)
      else replay_loop fuel st node (u64 (from + u64 batch)) batch added
  end.

Definition replayGraphChanges (fuel : nat) s (from : Z) : outcome (service DB) :=
  blocks ← or_fatal (Store.getNotIncluded (v_store s));
  let s := set_depgraph s (foldl Depgraph.add (v_depgraph s) blocks) in
  added ← or_fatal (replay_loop fuel (v_store s) (c_nodeID (v_conf s)) from 100 []);
  Ok (set_added s (v_added s ++ added)).

(** [Replay] of replay.go on an open database: the graphs it adds; [start] is not used. *)
Definition Replay (fuel : nat) (db : DB) (nodeID : Z) (start batch : Z) : outcome (serr + list BlockGraph) :=
  replay_loop fuel (mkStore false db 0) nodeID 0 batch [].

(** A value that is not stored yet has a default; other errors are fatal. *)
Definition or_default {A} (d : A) (m : outcome (serr + A)) : outcome A :=
  r ← m; match r with inr a => Ok a | inl (DBErr KeyNotFound) => Ok d | inl _ => Halt Fatal end.

Definition graph_config (c : sconf) (interpreted totalNodes : Z) (atDebug : bool) : Graph.Config :=
  mkConfig interpreted (merge_sort Z.le (c_nodeID c :: c_peers c)) (c_nodeID c) totalNodes atDebug.

(** [loadState]: the service and the configuration of its graph. *)
Definition loadState (fuel : nat) (c : sconf) (totalNodes : Z) (atDebug : bool) (own : ownBlocks) (tx : txbuf) (st : store DB)
    : outcome (service DB * Graph.Config) :=
  '(round, prevhash, prevref) ←
    (r ← Store.getLastRoundData st;
     match r with
     | inr (round, hash, ref) => Ok (round, hash, Some ref)
     | inl (DBErr KeyNotFound) => Ok (0, [], None)
     | inl _ => Halt Fatal
     end);
  '(interpreted, consumed) ← or_default (0, 0) (Store.getLastInterpreted st);
  rmap ← or_default (list_to_map ((λ p, (p, mkReceived 0 0)) <$> c_peers c)) (Store.getReceivedMap st);
  sent ← or_default (list_to_map ((λ p, (p, 0)) <$> c_peers c)) (Store.getSentMap st);
  let s := mkService c false [] (Depgraph.new (c_nodeID c)) [] interpreted own prevhash prevref
             rmap round sent st tx in
  s ← replayGraphChanges fuel s consumed;
  Ok (s, graph_config c interpreted totalNodes atDebug).

(** ** Creating blocks *)

(** The rate limit of [genBlocks]: [late] says that the work started later than the
    tolerated drift, [decrease] is the multiplication by [RateDecrease]. *)
Record rates := mkRates { r_initial : Z; r_increase : Z; r_decrease : Z → Z }.
Definition next_rate (rs : rates) (late : bool) (rate : Z) : Z :=
  if late then
    let rate := r_decrease rs rate in
    if rate <? r_initial rs then r_initial rs else rate
  else rate + r_increase rs.

Definition set_txCountLimit s (limit : Z) : service DB :=
  let b := v_tx s in set_tx s (mkBuf (t_Count b) (t_Data b) (t_Idx b) limit (t_SizeLimit b)).

(** The block graph of the new block. *)
Definition block_graph (nodeID round : Z) (hash prevhash : bytes) (refs : list blockData) : BlockGraph :=
  mkBlockGraph (mkBlockID hash nodeID round)
    ((λ ref, mkDep (bd_id ref) (bd_deps ref) (bd_prev ref)) <$> refs)
    (if negb (round =? 1) then mkBlockID prevhash nodeID (u64 (round - 1)) else zeroID).

(** One turn of the loop of [genBlocks]: the new rate, the signed block and the service. *)
Definition genBlocks (rs : rates) (late : bool) (rate : Z) s : outcome (Z * SignedData * service DB) :=
  let rate := next_rate rs late rate in
  let s := set_txCountLimit s rate in
  let node := c_nodeID (v_conf s) in
  let round := u64 (v_round s + 1) in
  let '(refs, d) := Depgraph.getBlocks (v_depgraph s) (c_refSizeLimit (v_conf s)) in
  let s := set_depgraph s d in
  '(txs, b) ← Ext.take_transactions (v_tx s);
  let block := mkBlock node (v_prevref s) (bd_ref <$> refs) round (Some txs) in
  match marshal block with
  | None => Halt Fatal
  | Some data =>
      let s := set_tx s b in
      let hash := sha512_256 data in
      match marshal (mkRef hash node round) with
      | None => Halt Fatal
      | Some refData =>
          let signed := mkSigned data (Sign refData) in
          let blockRef := mkSigned refData (Sign refData) in
          let graph := block_graph node round hash (v_prevhash s) refs in
          let '(s, e) := setOwnBlock s signed blockRef graph in
          match e with
          | Some _ => Halt Fatal
          | None =>
              let s := set_depgraph s
                         (foldl (λ d ref, Depgraph.actuallyIncluded d (bd_id ref)) (v_depgraph s) refs) in
              let s := set_added s (v_added s ++ [graph]) in
              let s := set_prevref (set_prevhash s hash) (Some blockRef) in
              let s := set_round s round in
              let s := if round mod 50 =? 0 then set_ownBlocks s (OwnBlocks.prune (v_ownBlocks s) 50) else s in
              Ok (rate, signed, s)
          end
      end
  end.

(** ** Loops with a peer *)

(** [backoff *= 2; if backoff > maxBackoff { backoff = maxBackoff }] *)
Definition next_backoff (maxBackoff backoff : Z) : Z :=
  let backoff := i64 (backoff * 2) in if maxBackoff <? backoff then maxBackoff else backoff.

(** What [fillMissingBlocks] does next: sleep, look again, or ask for rounds. *)
Inductive fill := FillSleep | FillAgain | FillAsk (rounds : list Z) (latest : Z).

(** The head of its inner loop; [rounds] is nil when nothing is asked for ([None]). *)
Definition fill_request s (peerID : Z) (rounds : option (list Z)) (latest : Z) : outcome (service DB * fill) :=
  match rounds with
  | Some rounds => Ok (s, FillAsk rounds latest)
  | None =>
      let info := Received.get (v_received s) peerID in
      if ri_latest info =? ri_sequence info then Ok (s, FillSleep)
      else
        '(rounds, latest) ← or_fatal (Store.getMissing (v_store s) peerID (ri_sequence info)
                                        (c_maxBlocks (v_conf s)));
        match rounds with
        | [] =>
            let s := if negb (latest =? ri_sequence info) && negb (latest =? 0)
                     then set_received s (Received.setSequence (v_received s) peerID latest) else s in
            Ok (s, FillAgain)
        | _ => Ok (s, FillAsk rounds latest)
        end
  end.

(** The rounds of the blocks of the response that are processed without an error. *)
Fixpoint fill_blocks s (seen : gset Z) (blocks : list (option SignedData)) : outcome (service DB * gset Z) :=
  match blocks with
  | [] => Ok (s, seen)
  | block :: blocks =>
      block ← or_panic block;
      '(s, r) ← processBlock s block;
      match r with
      | inl _ => fill_blocks s seen blocks
      | inr round => fill_blocks s ({[round]} ∪ seen) blocks
      end
  end.

(** The loop over the rounds that were asked for. *)
Definition split_seen (seen : gset Z) (rounds : list Z) : Z * list Z :=
  foldl (λ '(latestSeen, missing) round,
           if bool_decide (round ∈ seen) then (round, missing) else (latestSeen, missing ++ [round]))
    (0, []) rounds.

(** A response with blocks: the service, and the rounds to ask for next. *)
Definition fill_response s (peerID : Z) (rounds : list Z) (latest : Z) (blocks : list (option SignedData))
    : outcome (service DB * option (list Z)) :=
  '(s, seen) ← fill_blocks s ∅ blocks;
  let '(latestSeen, missing) := split_seen seen rounds in
  let s := if negb (latestSeen =? 0) then
             match missing with
             | _ :: _ => set_received s (Received.setSequence (v_received s) peerID latest)
             | [] => set_received s (Received.setSequence (v_received s) peerID latestSeen)
             end
           else s in
  Ok (s, match missing with [] => None | _ => Some missing end).

(** What [maintainBroadcast] sends to a peer that is behind, and the acknowledgement. *)
Definition broadcast_request s (peerID : Z) : outcome (service DB * option SMessage) :=
  '(s, blocks) ← getUnsent s peerID;
  match blocks with
  | None | Some [] => Ok (s, None)
  | Some blocks =>
      match marshal (mkList (Some <$> blocks)) with
      | None => Halt Fatal
      | Some data => Ok (s, Some (mkMessage 0 [] OP_BROADCAST data))
      end
  end.
(** A response that cannot be decoded makes the loop reconnect. *)
Definition broadcast_response s (peerID : Z) (resp : SMessage) : service DB * bool :=
  match unmarshal (m_Payload resp) with
  | None => (s, false)
  | Some ack => (markSent s peerID (ack_Last ack), true)
  end.

(** ** [New] on an open database, without the goroutines it starts *)
Definition New (fuel : nat) (keys : gmap Z PublicKey) (maxPayload nodeID : Z) (peers : list Z)
    (refSizeLimit txSizeLimit initialRate totalNodes : Z) (atDebug : bool) (db : DB) : outcome (service DB * Graph.Config) :=
  if refSizeLimit + txSizeLimit + 100 =? 0 then Halt Panic
  else
    let c := mkConf _ keys (Z.quot maxPayload (refSizeLimit + txSizeLimit + 100)) maxPayload nodeID peers
               refSizeLimit in
    loadState fuel c totalNodes atDebug (mkOwn ∅ 0)
      (mkBuf 0 (replicate (Z.to_nat txSizeLimit) 0) 0 initialRate txSizeLimit)
      (mkStore false db (Z.of_nat (length peers) + 1)).
End Ops.
End Broadcast.
