(* ===== verification/Node.v ===== *)
(** * The node: peers, hello messages and connections (src/node/node.go, src/network/network.go,
    src/service/service.go)

    Times are nanoseconds; [time.Now()] and the random nonce are arguments. *)

From stdpp Require Import strings.
From S2P Require Import Prelude Messages Config Block Graph Codec Kv Conn Cache Store Ext Depgraph Broadcast.

(** ** The network *)

(** The part of [Topology] that is not a certificate. *)
Record topology `{Signatures} := mkTopology {
  tp_contacts : gmap Z bytes; tp_nodes : gmap Z PublicKey; tp_nodeCount : Z }.

(** [%v] of an int. *)
Definition int_text (z : Z) : bytes := if z <? 0 then lit "-" ++ dec (- z) else dec z.

Module Topology.
Section Topology.
Context `{Signatures}.
Definition contacts_get (c : gmap Z bytes) (nodeID : Z) : bytes := default [] (c !! nodeID).
Definition contacts_set (c : gmap Z bytes) (nodeID : Z) (address : bytes) : gmap Z bytes := <[nodeID := address]> c.

Definition BootstrapStatic (t : topology) (addresses : list (Z * bytes)) : topology :=
  mkTopology _ (foldl (λ c '(id, addr), <[id := addr]> c) (tp_contacts t) addresses) (tp_nodes t) (tp_nodeCount t).
Definition Lookup (t : topology) (nodeID : Z) : bytes := contacts_get (tp_contacts t) nodeID.
Definition SeedPublicKeys (t : topology) : gmap Z PublicKey := tp_nodes t.
Definition TotalNodes (t : topology) : Z := tp_nodeCount t.

(** An address that is found is written only when it differs from the known one. *)
Definition found (t : topology) (nodeID : Z) (addr : bytes) : topology :=
  if bool_decide (contacts_get (tp_contacts t) nodeID = addr) then t
  else mkTopology _ (contacts_set (tp_contacts t) nodeID addr) (tp_nodes t) (tp_nodeCount t).

(** One entry of [bootstrapMDNS]: instance, IPv4 addresses as text and port. *)
Definition mdns_entry (t : topology) (instance_ : bytes) (addrs : list bytes) (port : Z) : topology :=
  match instance_ with
  | 95 :: digits =>
      match ParseUint digits with
      | None => t
      | Some nodeID =>
          match addrs with
          | addr :: _ => if 0 <? port then found t nodeID (addr ++ lit ":" ++ dec port) else t
          | [] => t
          end
      end
  | _ => t
  end.

(** The contacts in the answer of a registry: address, node and port. *)
Definition registry_answer (t : topology) (res : list (bytes * Z * Z)) : topology :=
  foldl (λ t '(addr, nodeID, port), found t nodeID (addr ++ lit ":" ++ int_text port)) t res.

(** [for i < t.nodeCount { out = append(out, i+1); i += 1 }], for the next [n] values of [i]. *)
Fixpoint nodes_loop (n : nat) (i : Z) : list Z :=
  match n with O => [] | S n => u64 (i + 1) :: nodes_loop n (u64 (i + 1)) end.
Definition Nodes (t : topology) : list Z := nodes_loop (Z.to_nat (tp_nodeCount t)) 0.

(** The checks of [Dial] before it connects: the address. *)
Inductive dial_error := NoConfig | NoAddress.
Definition Dial_address (t : topology) (nodeID : Z) : dial_error + bytes :=
  match tp_nodes t !! nodeID with
  | None => inl NoConfig
  | Some _ => let addr := Lookup t nodeID in
              if bool_decide (addr = []) then inl NoAddress else inr addr
  end.
End Topology.
End Topology.

(** The loop of [Run] that fills [peers := make([]uint64, len(nodes)-1)]. *)
Fixpoint fill_peers (self : Z) (nodes : list Z) (idx : nat) (peers : list Z) : outcome (list Z) :=
  match nodes with
  | [] => Ok peers
  | peer :: nodes =>
      if negb (peer =? self) then
        if bool_decide (idx < length peers)%nat then fill_peers self nodes (S idx) (<[idx := peer]> peers)
        else Halt Panic
      else fill_peers self nodes idx peers
  end.
(** [None]: there are no nodes. *)
Definition peers_of (self : Z) (nodes : list Z) : outcome (option (list Z)) :=
  match nodes with
  | [] => Ok None
  | _ => peers ← fill_peers self nodes 0 (replicate (length nodes - 1) 0); Ok (Some peers)
  end.

(** ** Hello messages *)
Record HelloInfo := mkHelloInfo { hi_Client : Z; hi_Nonce : bytes; hi_Server : Z; hi_Timestamp : Z }.
Definition CONNECTION_BROADCAST : Z := 1.

(** The fields of [Server] that connections use. *)
Record server `{Signatures} := mkServer {
  sv_id : Z; sv_keys : gmap Z PublicKey; sv_maxPayload : Z; sv_nonceExpiration : Z;
  sv_nonceMap : gmap Z (list (bytes * Z)) }.

Inductive verr := HelloDecode | WrongServer | NoClientKey | HelloSignature | ClockSkew | DuplicateNonce.

Module Node.
(** An encoding error panics. *)
Definition EncodeMessage {A} `{Proto A} (opcode : Z) (pb : A) : outcome SMessage :=
  match marshal pb with None => Halt Panic | Some payload => Ok (mkMessage 0 [] opcode payload) end.

(** [t.Sub(u)]: the difference of two times, cut to the range of a duration. *)
Definition Sub (t u : Z) : Z := Z.max (- 2 ^ 63) (Z.min (2 ^ 63 - 1) (t - u)).
(** [if diff < 0 { diff = -diff }] on 64 bits. *)
Definition abs64 (d : Z) : Z := if d <? 0 then i64 (- d) else d.

Section Hello.
Context `{Signatures} `{PH : Proto HelloInfo}.

(** [key.Sign] is the client's own key; [now] and [nonce] are what the system gives. *)
Definition SignHello (clientID serverID : Z) (c : Z) (nonce : bytes) (now : Z) : option Hello :=
  match marshal (mkHelloInfo clientID nonce serverID now) with
  | None => None
  | Some payload => Some (mkHello (lit "go/0.0.1") payload (Sign payload) c)
  end.

Definition verifyPeerID (s : server) (now : Z) (hello : Hello) : verr + Z :=
  match h_Payload hello with
  | [] => inr 0
  | payload =>
      match unmarshal payload with
      | None => inl HelloDecode
      | Some info =>
          if negb (hi_Server info =? sv_id s) then inl WrongServer
          else match sv_keys s !! hi_Client info with
          | None => inl NoClientKey
          | Some key =>
              if negb (Verify key payload (h_Signature hello)) then inl HelloSignature
              else if sv_nonceExpiration s <? abs64 (Sub now (hi_Timestamp info)) then inl ClockSkew
              else if bool_decide (hi_Nonce info ∈ (default [] (sv_nonceMap s !! hi_Client info)).*1)
              then inl DuplicateNonce
              else inr (hi_Client info)
          end
      end
  end.

(** One tick of [pruneNonceMap]. *)
Definition pruneNonceMap (s : server) (now : Z) : server :=
  let keep := λ nonces : list (bytes * Z), filter (λ used, abs64 (Sub now used.2) < sv_nonceExpiration s) nonces in
  mkServer _ (sv_id s) (sv_keys s) (sv_maxPayload s) (sv_nonceExpiration s)
    (omap (λ nonces, match keep nonces with [] => None | xs => Some xs end) (sv_nonceMap s)).
End Hello.

(** ** Serving a connection *)
Section Serve.
Context {DB : Type} `{KV DB} `{Signatures} `{Hasher}.
Context `{PS : Proto SignedData} `{PB : Proto Block} `{PR : Proto BlockReference}.
Context `{PL : Proto ListBlocks} `{PG : Proto GetBlocks} `{PN : Proto GetRounds} `{PA : Proto AckBroadcast}.
Context `{PM : Proto SMessage} `{PO : Proto Hello} `{PH : Proto HelloInfo}.

(** The loop of [handleConnection]; at most [fuel] messages. *)
Fixpoint serve (fuel : nat) (limit : Z) (s : service DB) (c : conn) (peerID : Z) : outcome (service DB * conn) :=
  match fuel with
  | O => Halt Diverge
  | S fuel =>
      '(c, r) ← Conn.ReadMessage c limit;
      match r with
      | inl _ => Ok (s, c)
      | inr msg =>
          '(s, r) ← Broadcast.Handle s peerID msg;
          match r with
          | inl _ => Ok (s, Conn.Close c)
          | inr resp =>
              '(c, e) ← Conn.WritePayload c resp limit;
              match e with Some _ => Ok (s, c) | None => serve fuel limit s c peerID end
          end
      end
  end.

(** The bytes that arrive; every message takes some of them. *)
Definition in_size (ins : list rresult) : nat :=
  sum_list_with (λ r, match r with Got d => length d | ReadErr _ => 0%nat end) ins.

Definition handleConnection (srv : server) (now : Z) (s : service DB) (nc : netconn)
    : outcome (service DB * conn) :=
  let c := Conn.NewConn nc in
  '(c, r) ← Conn.ReadHello c (sv_maxPayload srv);
  '(s, c) ←
    match r with
    | inl _ => Ok (s, c)
    | inr hello =>
        if h_Type hello =? CONNECTION_BROADCAST then
          match verifyPeerID srv now hello with
          | inl _ => Ok (s, c)
          | inr peerID => serve (S (in_size (n_in (c_conn c)))) (sv_maxPayload srv) s c peerID
          end
        else Ok (s, c)
    end;
  Ok (s, Conn.Close c).
End Serve.
End Node.
