(* ===== verification/NodeProps.v ===== *)
(** * The node: agreement on the peers, authentication and the order of requests *)

From S2P Require Import Prelude Messages Block Graph Determinism Codec Kv Conn ConnProps Cache Store Ext Depgraph Broadcast Node.
Import Conn Node.

#[local] Set Default Proof Using "Type*".

(** ** The peers *)
Lemma nodes_loop_seq n : ∀ i, 0 ≤ i → i + Z.of_nat n < 2 ^ 64 →
  Topology.nodes_loop n i = seqZ (i + 1) (Z.of_nat n).
Proof.
  induction n as [|n IH]; intros i Hi Hn; [done|]. rewrite (seqZ_cons (i + 1)) by lia.
  cbn [Topology.nodes_loop]. rewrite u64_small by (unfold is_u64; lia).
  rewrite IH by lia. f_equal. f_equal; lia.
Qed.

Lemma fill_peers_ok self nodes : ∀ idx peers,
  (idx + length (filter (λ p, p ≠ self) nodes) ≤ length peers)%nat →
  fill_peers self nodes idx peers
  = Ok (take idx peers ++ filter (λ p, p ≠ self) nodes ++ drop (idx + length (filter (λ p, p ≠ self) nodes)) peers).
Proof.
  induction nodes as [|p nodes IH]; intros idx peers Hl; cbn [fill_peers].
  { rewrite filter_nil. cbn [length app]. by rewrite Nat.add_0_r, take_drop. }
  rewrite filter_cons in *. destruct (Z.eqb_spec p self) as [->|Hne]; cbn [negb].
  { rewrite decide_False in * by tauto. by apply IH. }
  rewrite decide_True in * by done. cbn [length] in Hl. rewrite bool_decide_eq_true_2 by lia.
  rewrite IH by (rewrite length_insert; lia). f_equal.
  rewrite (take_S_r _ _ p) by (apply list_lookup_insert_eq; lia).
  rewrite take_insert_ge, drop_insert_lt by lia. rewrite <- (assoc_L (++)). cbn [app length].
  by rewrite Nat.add_succ_r.
Qed.

Lemma fill_peers_panics self nodes : ∀ idx peers,
  (idx ≤ length peers)%nat → (length peers < idx + length (filter (λ p, p ≠ self) nodes))%nat →
  fill_peers self nodes idx peers = Halt Panic.
Proof.
  induction nodes as [|p nodes IH]; intros idx peers Hi Hl; cbn [fill_peers].
  { rewrite filter_nil in Hl. simpl in Hl. lia. }
  rewrite filter_cons in Hl. destruct (Z.eqb_spec p self) as [->|Hne]; cbn [negb].
  { rewrite decide_False in Hl by tauto. by apply IH. }
  rewrite decide_True in Hl by done. case_bool_decide; [|done]. cbn [length] in Hl.
  apply IH; rewrite length_insert; lia.
Qed.

Lemma filter_ne_perm (x : Z) l : NoDup l → x ∈ l → x :: filter (λ p, p ≠ x) l ≡ₚ l.
Proof.
  intros Hd Hx. apply NoDup_Permutation; [|done|].
  - constructor; [by rewrite list_elem_of_filter; intros [? _]|by apply NoDup_filter].
  - intros y. rewrite elem_of_cons, list_elem_of_filter.
    destruct (decide (y = x)) as [->|]; naive_solver.
Qed.

(** The peers of a node with a number from 1 to n. *)
Lemma peers_of_others `{Signatures} (t : topology) self :
  1 ≤ self ≤ tp_nodeCount t → tp_nodeCount t < 2 ^ 64 →
  peers_of self (Topology.Nodes t) = Ok (Some (filter (λ p, p ≠ self) (seqZ 1 (tp_nodeCount t)))).
Proof.
  intros Hn Hm. unfold peers_of, Topology.Nodes. rewrite nodes_loop_seq by lia. rewrite Z2Nat.id by lia. change (0 + 1) with 1.
  set (nodes := seqZ 1 (tp_nodeCount t)).
  assert (length nodes = Z.to_nat (tp_nodeCount t)) as Ln by (unfold nodes; by rewrite length_seqZ).
  destruct nodes as [|x nodes'] eqn:En; [simpl in Ln; lia|]. rewrite <- En in *. clear x nodes' En.
  assert (self ∈ nodes) as Hs by (apply elem_of_seqZ; lia).
  pose proof (Permutation_length (filter_ne_perm self nodes (NoDup_seqZ _ _) Hs)) as Lp. cbn [length] in Lp.
  rewrite fill_peers_ok by (rewrite length_replicate; lia). cbn [mbind outcome_bind].
  by rewrite take_0, drop_ge, app_nil_r by (rewrite length_replicate; lia).
Qed.

(** C26: Every node numbered 1 to n computes as its peers the other nodes, and configures its
    consensus graph with the same list 1, ..., n; a node with another number panics when it
    fills the list. *)
Theorem nodes_agree_on_peers `{Signatures} (t : topology) (c : sconf) interpreted total atDebug :
  let n := tp_nodeCount t in
  1 ≤ n < 2 ^ 64 →
  if bool_decide (1 ≤ c_nodeID c ≤ n)
  then ∃ peers, peers_of (c_nodeID c) (Topology.Nodes t) = Ok (Some peers) ∧
    peers = filter (λ p, p ≠ c_nodeID c) (seqZ 1 n) ∧
    (c_peers c = peers → cfg_Peers (Broadcast.graph_config c interpreted total atDebug) = seqZ 1 n)
  else peers_of (c_nodeID c) (Topology.Nodes t) = Halt Panic.
Proof.
  intros n Hn. set (self := c_nodeID c). case_bool_decide as Hin.
  - eexists. split; [by apply peers_of_others; [|lia]|]. split; [done|].
    intros Hc. unfold Broadcast.graph_config. cbn [cfg_Peers]. rewrite Hc. fold self n.
    rewrite (merge_sort_perm (self :: _) (seqZ 1 n)) by (apply filter_ne_perm; [apply NoDup_seqZ|apply elem_of_seqZ; lia]).
    apply (StronglySorted_unique Z.le); [apply (StronglySorted_merge_sort Z.le)| |apply merge_sort_Permutation].
    eapply StronglySorted_weaken; [|apply seqZ_sorted]. intros; lia.
  - unfold peers_of, Topology.Nodes. fold n. rewrite nodes_loop_seq by lia. rewrite Z2Nat.id by lia. change (0 + 1) with 1.
    set (nodes := seqZ 1 n). assert (length nodes = Z.to_nat n) as Ln by (unfold nodes; by rewrite length_seqZ).
    destruct nodes as [|x nodes'] eqn:En; [simpl in Ln; lia|]. rewrite <- En in *. clear x nodes' En.
    rewrite fill_peers_panics; [done|lia|].
    rewrite length_replicate, filter_every; [lia|]. intros p Hp ->. apply elem_of_seqZ in Hp. lia.
Qed.

(** ** Addresses *)
Lemma found_Lookup `{Signatures} (t : topology) id id' addr :
  Topology.Lookup (Topology.found t id addr) id' = if decide (id = id') then addr else Topology.Lookup t id'.
Proof.
  unfold Topology.found, Topology.Lookup, Topology.contacts_get. case_bool_decide as E.
  - case_decide; [by subst|done].
  - simpl. unfold Topology.contacts_set. rewrite lookup_insert. by case_decide.
Qed.

(** ** Hello messages *)

(** The clock of the client is within the allowed skew, or so far ahead that the
    difference overflows. *)
Definition in_window (exp now ts : Z) : Prop := Z.abs (now - ts) ≤ exp ∨ 2 ^ 63 ≤ ts - now.

Lemma window_spec exp now ts :
  0 ≤ exp < 2 ^ 63 - 1 → abs64 (Sub now ts) ≤ exp ↔ in_window exp now ts.
Proof.
  intros He. unfold abs64, Sub, in_window.
  destruct (Z.le_gt_cases (2 ^ 63) (ts - now)).
  { replace (Z.max _ _) with (- 2 ^ 63) by lia. split; [by right|]. intros _. vm_compute Z.ltb. cbv iota.
    change (i64 (- - 2 ^ 63)) with (- 2 ^ 63). lia. }
  destruct (Z.ltb_spec (Z.max (- 2 ^ 63) (Z.min (2 ^ 63 - 1) (now - ts))) 0).
  - rewrite i64_small by lia. lia.
  - lia.
Qed.

Section Hello.
Context `{Signatures} `{PH : Proto HelloInfo}.

(** What [verifyPeerID] has checked of a hello message with a payload. *)
Record authentic (s : server) (now : Z) (hello : Hello) (info : HelloInfo) : Prop := {
  au_payload : h_Payload hello ≠ [];
  au_info : unmarshal (h_Payload hello) = Some info;
  au_server : hi_Server info = sv_id s;
  au_sig : ∃ key, sv_keys s !! hi_Client info = Some key ∧ Verify key (h_Payload hello) (h_Signature hello) = true;
  au_time : in_window (sv_nonceExpiration s) now (hi_Timestamp info);
  au_nonce : hi_Nonce info ∉ (default [] (sv_nonceMap s !! hi_Client info)).*1 }.

Lemma verifyPeerID_iff (s : server) now hello id :
  0 ≤ sv_nonceExpiration s < 2 ^ 63 - 1 →
  verifyPeerID s now hello = inr id ↔
  (h_Payload hello = [] ∧ id = 0) ∨ ∃ info, authentic s now hello info ∧ id = hi_Client info.
Proof.
  intros He. unfold verifyPeerID. destruct (h_Payload hello) as [|b payload] eqn:Ep.
  { split; [intros [= <-]; by left|]. intros [[_ ->]|(info & [] & _)]; done. }
  split.
  - destruct (unmarshal _) as [info|] eqn:Eu; [|done].
    destruct (Z.eqb_spec (hi_Server info) (sv_id s)); [|done]. simpl.
    destruct (sv_keys s !! _) as [key|] eqn:Ek; [|done]. destruct (Verify _ _ _) eqn:Ev; [|done]. simpl.
    destruct (Z.ltb_spec (sv_nonceExpiration s) (abs64 (Sub now (hi_Timestamp info)))) as [|Hw]; [done|].
    case_bool_decide; [done|]. intros [= <-]. right. exists info. split; [|done].
    rewrite <- Ep in *. split; try done; [congruence|by exists key|by apply window_spec].
  - intros [[? _]|(info & [_ Eu Es (key & Ek & Ev) Ht Hn] & ->)]; [done|]. rewrite Ep in *. rewrite Eu.
    rewrite Es, Z.eqb_refl. simpl. rewrite Ek, Ev. simpl. apply window_spec in Ht; [|done].
    destruct (Z.ltb_spec (sv_nonceExpiration s) (abs64 (Sub now (hi_Timestamp info)))); [lia|].
    by rewrite bool_decide_eq_false_2.
Qed.

(** C23: verifyPeerID accepts exactly the hello messages without a payload, as peer 0, and those
    whose payload is signed with the key of the client it names, for this server, with an unused
    nonce and a timestamp within the allowed skew or so far in the future that the difference
    overflows. *)
Theorem verifyPeerID_authenticates (s : server) now hello id :
  0 ≤ sv_nonceExpiration s < 2 ^ 63 - 1 →
  verifyPeerID s now hello = inr id ↔
  (h_Payload hello = [] ∧ id = 0) ∨ ∃ info, authentic s now hello info ∧ id = hi_Client info.
Proof. apply verifyPeerID_iff. Qed.

(** A hello message signed for the server is accepted while it is new. *)
Lemma SignHello_accepted `{!ProtoLaws HelloInfo} (s : server) client c nonce ts now key hello :
  0 ≤ sv_nonceExpiration s < 2 ^ 63 - 1 → sv_nonceMap s = ∅ →
  sv_keys s !! client = Some key → (∀ d, Verify key d (Sign d) = true) →
  in_window (sv_nonceExpiration s) now ts → SignHello client (sv_id s) c nonce ts = Some hello →
  h_Payload hello ≠ [] → h_Type hello = c ∧ verifyPeerID s now hello = inr client.
Proof.
  intros He Hm Hk Hv Hw. unfold SignHello. destruct (marshal _) as [payload|] eqn:Em; [|done].
  intros [= <-] Hp. split; [done|]. apply verifyPeerID_iff; [done|]. right. eexists. split.
  - split; simpl; try done; [by eapply unmarshal_marshal|done|by exists key|done|].
    rewrite Hm, lookup_empty. by apply not_elem_of_nil.
  - done.
Qed.

Theorem hello_can_be_replayed (s : server) now now' now'' hello info :
  0 ≤ sv_nonceExpiration s < 2 ^ 63 - 1 → sv_nonceMap s = ∅ →
  authentic s now hello info → in_window (sv_nonceExpiration s) now'' (hi_Timestamp info) →
  let s' := pruneNonceMap s now' in
  sv_nonceMap s' = ∅ ∧ verifyPeerID s' now'' hello = inr (hi_Client info).
Proof.
  intros He Hm [Hp Eu Es Hk _ _] Hw s'.
  assert (sv_nonceMap s' = ∅) as Hm' by (unfold s', pruneNonceMap; simpl; by rewrite Hm, omap_empty).
  split; [done|]. apply verifyPeerID_iff; [done|]. right. exists info. split; [|done].
  split; try done. rewrite Hm', lookup_empty. by apply not_elem_of_nil.
Qed.
End Hello.

(** ** Serving requests *)
Lemma in_size_chunks chunks : in_size (Got <$> chunks) = length (mjoin chunks).
Proof.
  induction chunks as [|d chunks IH]; [done|].
  change (mjoin (M:=list) (d :: chunks)) with (d ++ mjoin chunks). rewrite length_app, <- IH. done.
Qed.

Section Serve.
Context {DB : Type} `{KV DB} `{Signatures} `{Hasher}.
Context `{PS : Proto SignedData} `{PB : Proto Block} `{PR : Proto BlockReference}.
Context `{PL : Proto ListBlocks} `{PG : Proto GetBlocks} `{PN : Proto GetRounds} `{PA : Proto AckBroadcast}.
Context `{PM : Proto SMessage} `{!ProtoLaws SMessage} `{PO : Proto Hello} `{!ProtoLaws Hello}.
Context `{PH : Proto HelloInfo} `{!ProtoLaws HelloInfo}.
Implicit Types (s : service DB).

(** The requests in order, up to the first one that fails: the service and the responses. *)
Fixpoint handle_all s (peerID : Z) (msgs : list SMessage) : outcome (service DB * list SMessage) :=
  match msgs with
  | [] => Ok (s, [])
  | msg :: msgs =>
      '(s, r) ← Broadcast.Handle s peerID msg;
      match r with
      | inl _ => Ok (s, [])
      | inr resp => '(s, resps) ← handle_all s peerID msgs; Ok (s, resp :: resps)
      end
  end.

Lemma serve_requests limit msgs : ∀ fuel s c peer ps chunks s' resps rps,
  readable c chunks → writable c → mjoin chunks = mjoin (frame <$> ps) → limit < 2 ^ 31 →
  Forall2 (fits limit) msgs ps → handle_all s peer msgs = Ok (s', resps) → Forall2 (fits limit) resps rps →
  (length (mjoin chunks) < fuel)%nat →
  ∃ c', serve fuel limit s c peer = Ok (s', c') ∧
    n_out (c_conn c') = n_out (c_conn c) ++ mjoin (frame <$> rps).
Proof using All.
  induction msgs as [|msg msgs IH]; intros fuel s c peer ps chunks s' resps rps Hr Hw Hj Hl HF Hh HR Hf;
    (destruct fuel as [|fuel]; [lia|]); inversion HF as [|? p ? ps' [Hm Hp] HF']; subst; cbn [serve].
  { injection Hh as <- <-. inversion HR; subst. unfold ReadMessage, read_as.
    destruct (readPayload_starved c limit chunks Hr Hj) as (c' & -> & Ho). cbn [mbind outcome_bind].
    exists c'. simpl. by rewrite app_nil_r. }
  destruct (readPayload_frame c limit chunks p (mjoin (frame <$> ps')))
    as (c1 & ch1 & E1 & Hr1 & Hj1 & [Hw1 Ho1]); [done|done|done|lia|].
  unfold ReadMessage, read_as. rewrite E1. cbn [mbind outcome_bind]. rewrite (unmarshal_marshal _ _ Hm).
  cbn [handle_all] in Hh. destruct (Broadcast.Handle s peer msg) as [[s1 [e|resp]]|]; cbn [mbind outcome_bind] in *;
    [| |done].
  { injection Hh as <- <-. inversion HR; subst. eexists. split; [done|]. simpl. by rewrite app_nil_r, Ho1. }
  destruct (handle_all s1 peer msgs) as [[s2 resps']|] eqn:Eh; [|done]. simpl in Hh. injection Hh as <- <-.
  inversion HR as [|? rp ? rps' [Hrm Hrp] HR']; subst.
  destruct (WritePayload_frame c1 resp limit rp) as (c2 & E2 & Hw2 & Ho2 & Hi2); [|done|done|lia|].
  { destruct Hw. destruct Hr1 as [[_ Hc1] Hb1]. split; [done|by rewrite Hw1|done]. }
  rewrite E2. cbn [mbind outcome_bind].
  destruct (IH fuel s1 c2 peer ps' ch1 s2 resps' rps') as (c' & E' & Ho'); try done.
  { destruct Hr1 as [[Hin1 _] _]. destruct Hw2. split; [split; [by rewrite Hi2|done]|done]. }
  { rewrite Hj1. rewrite Hj in Hf. change (mjoin (M:=list) (frame <$> p :: ps')) with (frame p ++ mjoin (frame <$> ps')) in Hf.
    unfold frame in Hf at 1. rewrite !length_app, length_put_le in Hf. lia. }
  exists c'. split; [done|]. rewrite Ho', Ho2, Ho1, <- (assoc_L (++)). done.
Qed.

(** A connection from its hello message to the end of the input. *)
Lemma connection_requests (srv : server) now s nc client key nonce ts hello hp msgs ps chunks s' resps rps :
  0 ≤ sv_nonceExpiration srv < 2 ^ 63 - 1 → sv_nonceMap srv = ∅ → sv_maxPayload srv < 2 ^ 31 →
  sv_keys srv !! client = Some key → (∀ d, Verify key d (Sign d) = true) →
  in_window (sv_nonceExpiration srv) now ts →
  SignHello client (sv_id srv) CONNECTION_BROADCAST nonce ts = Some hello → h_Payload hello ≠ [] →
  arrives nc chunks → mjoin chunks = frame hp ++ mjoin (frame <$> ps) →
  Forall (λ w, ∃ n, w = Took n) (n_wr nc) →
  fits (sv_maxPayload srv) hello hp → Forall2 (fits (sv_maxPayload srv)) msgs ps →
  handle_all s client msgs = Ok (s', resps) → Forall2 (fits (sv_maxPayload srv)) resps rps →
  ∃ c', handleConnection srv now s nc = Ok (s', c') ∧ n_closed (c_conn c') = true ∧
    n_out (c_conn c') = n_out nc ++ mjoin (frame <$> rps).
Proof using All.
  intros He Hm Hl Hk Hv Hw Hs Hne Ha Hj Ht [Hhm Hhp] HF Hh HR.
  destruct (SignHello_accepted srv client _ nonce ts now key hello He Hm Hk Hv Hw Hs Hne) as [Hty Hver].
  destruct (readPayload_frame (NewConn nc) (sv_maxPayload srv) chunks hp (mjoin (frame <$> ps)))
    as (c1 & ch1 & E1 & Hr1 & Hj1 & [Hw1 Ho1]); [split; [done|by apply Nat.leb_le]|done|done|lia|].
  unfold handleConnection, ReadHello, read_as. rewrite E1. cbn [mbind outcome_bind].
  rewrite (unmarshal_marshal _ _ Hhm), Hty, Z.eqb_refl, Hver.
  assert (n_in (c_conn c1) = Got <$> ch1) as Hin by apply Hr1. rewrite Hin, in_size_chunks.
  destruct (serve_requests (sv_maxPayload srv) msgs (S (length (mjoin ch1))) s c1 client ps ch1 s' resps rps)
    as (c' & E' & Ho'); try done; [|lia|].
  { destruct Hr1 as [[_ Hc1] Hb1]. split; [done|by rewrite Hw1|done]. }
  rewrite E'. cbn [mbind outcome_bind]. eexists. split_and!; [done|done|]. simpl. by rewrite Ho', Ho1.
Qed.

(** C21: A connection that starts with a hello message the client signed within the allowed
    clock skew is served: the requests that follow are handled in order, up to the first that
    fails, for the authenticated client, their responses are written back as frames in the same
    order, and the connection is closed at the end of the input; the bytes may arrive in pieces
    of any size. *)
Theorem connection_serves_requests (srv : server) now s nc client key nonce ts hello hp msgs ps chunks s' resps rps :
  0 ≤ sv_nonceExpiration srv < 2 ^ 63 - 1 → sv_nonceMap srv = ∅ → sv_maxPayload srv < 2 ^ 31 →
  sv_keys srv !! client = Some key → (∀ d, Verify key d (Sign d) = true) →
  in_window (sv_nonceExpiration srv) now ts →
  SignHello client (sv_id srv) CONNECTION_BROADCAST nonce ts = Some hello → h_Payload hello ≠ [] →
  arrives nc chunks → mjoin chunks = frame hp ++ mjoin (frame <$> ps) →
  Forall (λ w, ∃ n, w = Took n) (n_wr nc) →
  fits (sv_maxPayload srv) hello hp → Forall2 (fits (sv_maxPayload srv)) msgs ps →
  handle_all s client msgs = Ok (s', resps) → Forall2 (fits (sv_maxPayload srv)) resps rps →
  ∃ c', handleConnection srv now s nc = Ok (s', c') ∧ n_closed (c_conn c') = true ∧
    n_out (c_conn c') = n_out nc ++ mjoin (frame <$> rps).
Proof using All. apply connection_requests. Qed.
End Serve.
