(* ===== verification/Wire.v ===== *)
(** * The wire format of the messages

    The messages of src/broadcast/types.pb.go and src/service/types.pb.go in the protocol buffer
    format: a message is a sequence of fields with a number and a value, a varint or bytes; numbers and
    kinds are those of the struct tags.  The library that encodes and decodes is outside of the
    repository, and everywhere else it is the parameter [Proto]; what is defined here, after the
    documentation of the format, is an instance of it for each message, with the round trip law. *)

From S2P Require Import Prelude Codec Kv Conn Ext Broadcast Node.

(** ** Varints: seven bits per byte, the lowest first, the top bit set on all but the last *)
Fixpoint put_varint (fuel : nat) (z : Z) : bytes :=
  match fuel with
  | O => []
  | S fuel => if z <? 128 then [z] else (z mod 128 + 128) :: put_varint fuel (z / 128)
  end.
Fixpoint get_varint (fuel : nat) (s : bytes) : option (Z * bytes) :=
  match fuel, s with
  | S fuel, c :: s => if c <? 128 then Some (c, s) else '(z, s) ← get_varint fuel s; Some (c - 128 + 128 * z, s)
  | _, _ => None
  end.

Lemma put_varint_S fuel z :
  put_varint (S fuel) z = if z <? 128 then [z] else (z mod 128 + 128) :: put_varint fuel (z / 128).
Proof. done. Qed.
Lemma get_varint_S fuel c s :
  get_varint (S fuel) (c :: s) = if c <? 128 then Some (c, s) else '(z, s) ← get_varint fuel s; Some (c - 128 + 128 * z, s).
Proof. done. Qed.

Lemma get_put_varint fuel : ∀ z s,
  0 ≤ z < 128 ^ Z.of_nat (S fuel) → get_varint (S fuel) (put_varint (S fuel) z ++ s) = Some (z, s).
Proof.
  induction fuel as [|fuel IH]; intros z s Hz; rewrite put_varint_S.
  { change (128 ^ Z.of_nat 1) with 128 in Hz. rewrite (proj2 (Z.ltb_lt z 128)) by lia. simpl.
    by rewrite (proj2 (Z.ltb_lt z 128)) by lia. }
  rewrite Nat2Z.inj_succ, Z.pow_succ_r in Hz by lia.
  pose proof (Z.mod_pos_bound z 128 ltac:(lia)). pose proof (Z.div_mod z 128 ltac:(lia)).
  destruct (Z.ltb_spec z 128) as [Hl|Hl].
  - simpl. by rewrite (proj2 (Z.ltb_lt _ _) Hl).
  - rewrite <- app_comm_cons, get_varint_S, (proj2 (Z.ltb_ge _ _)) by lia. rewrite IH.
    + simpl. do 2 f_equal. lia.
    + split; [apply Z.div_pos; lia|]. apply Z.div_lt_upper_bound; lia.
Qed.
(** Ten bytes are enough for sixty-four bits. *)
Lemma get_put_varint10 z s : is_u64 z → get_varint 10 (put_varint 10 z ++ s) = Some (z, s).
Proof. intros Hz. apply get_put_varint. unfold is_u64 in Hz. change (128 ^ Z.of_nat 10) with (2 ^ 70). lia. Qed.
Lemma put_varint_nonempty z : put_varint 10 z ≠ [].
Proof. cbn [put_varint]. by destruct (_ <? _). Qed.

(** ** Fields *)
Inductive wval := WVarint (z : Z) | WBytes (b : bytes).
Abbreviation wfield := (Z * wval)%type.

Definition put_field (f : wfield) : bytes :=
  match f with
  | (k, WVarint z) => put_varint 10 (8 * k) ++ put_varint 10 z
  | (k, WBytes b) => put_varint 10 (8 * k + 2) ++ put_varint 10 (Z.of_nat (length b)) ++ b
  end.
Definition put_fields (fs : list wfield) : bytes := mjoin (put_field <$> fs).

(** The first [n] bytes, when there are as many. *)
Definition cut (n : Z) (s : bytes) : option (bytes * bytes) :=
  if Z.of_nat (length s) <? n then None else Some (take (Z.to_nat n) s, drop (Z.to_nat n) s).

(** Fixed-width fields, which no message has, are skipped; groups are refused. *)
Fixpoint get_fields (fuel : nat) (s : bytes) : option (list wfield) :=
  match s with
  | [] => Some []
  | _ =>
      match fuel with
      | O => None
      | S fuel =>
          '(key, s) ← get_varint 10 s;
          let '(k, kind) := (key / 8, key mod 8) in
          if k =? 0 then None
          else if kind =? 0 then '(z, s) ← get_varint 10 s; fs ← get_fields fuel s; Some ((k, WVarint (u64 z)) :: fs)
          else if kind =? 1 then '(_, s) ← cut 8 s; get_fields fuel s
          else if kind =? 2 then
            '(n, s) ← get_varint 10 s; '(b, s) ← cut (u64 n) s; fs ← get_fields fuel s; Some ((k, WBytes b) :: fs)
          else if kind =? 5 then '(_, s) ← cut 4 s; get_fields fuel s
          else None
      end
  end.
Definition parse (s : bytes) : option (list wfield) := get_fields (length s) s.

Definition field_ok (f : wfield) : Prop :=
  1 ≤ f.1 < 2 ^ 29 ∧ match f.2 with WVarint z => is_u64 z | WBytes b => is_u64 (Z.of_nat (length b)) end.
#[export] Instance field_ok_dec f : Decision (field_ok f).
Proof. unfold field_ok, is_u64. destruct f as [k []]; apply _. Defined.

Lemma put_field_nonempty f : (1 ≤ length (put_field f))%nat.
Proof.
  destruct f as [k []]; unfold put_field; rewrite ?length_app;
    match goal with |- context [length (put_varint 10 ?z)] => pose proof (put_varint_nonempty z); destruct (put_varint 10 z); simpl in *; [done|lia] end.
Qed.

Lemma cut_app b s : cut (Z.of_nat (length b)) (b ++ s) = Some (b, s).
Proof.
  unfold cut. rewrite length_app, (proj2 (Z.ltb_ge _ _)), Nat2Z.id by lia.
  by rewrite take_app_length, drop_app_length.
Qed.

Lemma key_digits k kind : 0 ≤ kind < 8 → (8 * k + kind) / 8 = k ∧ (8 * k + kind) mod 8 = kind.
Proof.
  intros H. replace (8 * k + kind) with (kind + k * 8) by lia. rewrite Z.div_add, Z.mod_add, Z.div_small, Z.mod_small by lia. lia.
Qed.

Lemma get_field f s fuel :
  field_ok f → get_fields (S fuel) (put_field f ++ s) = (fs ← get_fields fuel s; Some (f :: fs)).
Proof.
  intros [Hk Hv]. pose proof (put_field_nonempty f) as Hne. destruct (put_field f ++ s) as [|c t] eqn:E.
  { apply (f_equal length) in E. rewrite length_app in E. simpl in E. lia. }
  unfold get_fields; fold get_fields. rewrite <- E. destruct f as [k [z|b]]; simpl in Hk, Hv; unfold put_field; rewrite <- !(assoc_L (++)).
  - rewrite get_put_varint10 by (unfold is_u64; lia). cbn [mbind option_bind].
    destruct (key_digits k 0 ltac:(lia)) as [E1 E2]. rewrite Z.add_0_r in E1, E2. rewrite E1, E2.
    rewrite (proj2 (Z.eqb_neq k 0)) by lia. cbn [Z.eqb]. rewrite get_put_varint10 by done. cbn [mbind option_bind].
    by rewrite u64_small.
  - rewrite get_put_varint10 by (unfold is_u64; lia). cbn [mbind option_bind].
    destruct (key_digits k 2 ltac:(lia)) as [-> ->].
    rewrite (proj2 (Z.eqb_neq k 0)) by lia. cbn [Z.eqb Pos.eqb]. rewrite get_put_varint10 by done. cbn [mbind option_bind].
    rewrite u64_small, cut_app by done. done.
Qed.

Lemma get_put_fields fs : Forall field_ok fs → ∀ fuel, (length (put_fields fs) ≤ fuel)%nat → get_fields fuel (put_fields fs) = Some fs.
Proof.
  induction 1 as [|f fs Hf _ IH]; intros fuel Hl; [by destruct fuel|].
  change (put_fields (f :: fs)) with (put_field f ++ put_fields fs) in *. pose proof (put_field_nonempty f).
  rewrite length_app in Hl. destruct fuel as [|fuel]; [lia|]. rewrite get_field by done. rewrite IH by lia. done.
Qed.
Lemma parse_put fs : Forall field_ok fs → parse (put_fields fs) = Some fs.
Proof. intros H. by apply get_put_fields. Qed.

(** ** The fields with one number *)
Definition varints (k : Z) (fs : list wfield) : list Z :=
  omap (λ f : wfield, match f with (j, WVarint z) => if j =? k then Some z else None | _ => None end) fs.
Definition chunks (k : Z) (fs : list wfield) : list bytes :=
  omap (λ f : wfield, match f with (j, WBytes b) => if j =? k then Some b else None | _ => None end) fs.

(** A field that is not repeated has the last value given, and the zero value when there is none;
    a value of the wrong kind is ignored. *)
Definition uint (k : Z) (fs : list wfield) : Z := default 0 (last (varints k fs)).
Definition blob (k : Z) (fs : list wfield) : bytes := default [] (last (chunks k fs)).

(** Zero values are left out. *)
Definition put_uint (k z : Z) : list wfield := if z =? 0 then [] else [(k, WVarint z)].
Definition put_blob (k : Z) (b : bytes) : list wfield := match b with [] => [] | _ => [(k, WBytes b)] end.
Definition put_chunks (k : Z) (l : list bytes) : list wfield := (λ b, (k, WBytes b)) <$> l.

Lemma varints_app k fs fs' : varints k (fs ++ fs') = varints k fs ++ varints k fs'.
Proof. apply omap_app. Qed.
Lemma chunks_app k fs fs' : chunks k (fs ++ fs') = chunks k fs ++ chunks k fs'.
Proof. apply omap_app. Qed.
Lemma varints_uint k j z : varints k (put_uint j z) = if (j =? k) && negb (z =? 0) then [z] else [].
Proof. unfold put_uint. destruct (z =? 0), (j =? k) eqn:E; simpl; by rewrite ?E. Qed.
Lemma varints_blob k j b : varints k (put_blob j b) = [].
Proof. by destruct b. Qed.
Lemma varints_chunks k j l : varints k (put_chunks j l) = [].
Proof. by induction l. Qed.
Lemma chunks_uint k j z : chunks k (put_uint j z) = [].
Proof. unfold put_uint. by destruct (z =? 0). Qed.
Lemma chunks_blob k j b : chunks k (put_blob j b) = if (j =? k) && negb (bool_decide (b = [])) then [b] else [].
Proof. destruct b; simpl; [by rewrite andb_false_r|]. rewrite andb_true_r. by destruct (j =? k). Qed.
Lemma chunks_chunks k j l : chunks k (put_chunks j l) = if j =? k then l else [].
Proof.
  destruct (j =? k) eqn:E; induction l as [|b l IH]; simpl; rewrite ?E; [done| |done|exact IH]. f_equal. exact IH.
Qed.
Lemma last_uint z : default 0 (last (if negb (z =? 0) then [z] else [])) = z.
Proof. destruct (Z.eqb_spec z 0) as [->|]; done. Qed.
Lemma last_blob b : default [] (last (if negb (bool_decide (b = [])) then [b] else [] : list bytes)) = b.
Proof. by destruct b. Qed.

Create HintDb wire.
#[export] Hint Rewrite varints_app chunks_app varints_uint varints_blob varints_chunks chunks_uint chunks_blob
  chunks_chunks last_uint last_blob app_nil_r @app_nil_l : wire.

(** ** Messages *)

(** [None] for what the library cannot encode: a value out of the range of its type, or a nil message in
    a list. *)
Class Message (A : Type) := { to_fields : A → option (list wfield); of_fields : list wfield → option A }.
Class MessageLaws (A : Type) `{Message A} :=
  of_to_fields a fs : to_fields a = Some fs → Forall field_ok fs → of_fields fs = Some a.

Definition encode_msg `{Message A} (a : A) : option bytes :=
  fs ← to_fields a; if bool_decide (Forall field_ok fs) then Some (put_fields fs) else None.
Definition decode_msg `{Message A} (b : bytes) : option A := fs ← parse b; of_fields fs.
#[export] Instance wire_Proto `{Message A} : Proto A := {| marshal := encode_msg; unmarshal := decode_msg |}.

Lemma encode_inv `{MessageLaws A} a b :
  encode_msg a = Some b → ∃ fs, b = put_fields fs ∧ parse b = Some fs ∧ of_fields fs = Some a.
Proof.
  unfold encode_msg. intros (fs & Ht & Hb)%bind_Some. case_bool_decide as HF; [|done]. injection Hb as <-.
  exists fs. split_and!; [done|by apply parse_put|by apply of_to_fields].
Qed.
Lemma decode_encoded `{MessageLaws A} a b : encode_msg a = Some b → decode_msg b = Some a.
Proof. intros (fs & _ & Hp & Ho)%encode_inv. unfold decode_msg. by rewrite Hp. Qed.
#[export] Instance wire_laws `{MessageLaws A} : ProtoLaws A.
Proof. intros a b. apply decode_encoded. Qed.

(** An embedded message: what its occurrences give together. *)
Definition embedded `{Message A} (k : Z) (fs : list wfield) : option (option A) :=
  match chunks k fs with
  | [] => Some None
  | bs => fss ← mapM parse bs; a ← of_fields (mjoin fss); Some (Some a)
  end.
Definition put_embedded `{Message A} (k : Z) (o : option A) : option (list wfield) :=
  match o with None => Some [] | Some a => b ← encode_msg a; Some (put_chunks k [b]) end.
(** A repeated message. *)
Definition repeated `{Message A} (k : Z) (fs : list wfield) : option (list A) := mapM decode_msg (chunks k fs).
Definition put_repeated `{Message A} (k : Z) (l : list A) : option (list wfield) :=
  bs ← mapM encode_msg l; Some (put_chunks k bs).

Lemma put_embedded_chunks `{Message A} k (o : option A) fs : put_embedded k o = Some fs → ∃ l, fs = put_chunks k l.
Proof.
  unfold put_embedded. destruct o as [a|]; [intros (b & _ & [= <-])%bind_Some; by exists [b]|intros [= <-]; by exists []].
Qed.
Lemma embedded_put `{MessageLaws A} k (o : option A) fs fs' :
  put_embedded k o = Some fs → chunks k fs' = chunks k fs → embedded k fs' = Some o.
Proof.
  unfold put_embedded, embedded. intros Hp ->. destruct o as [a|]; [|by simplify_eq].
  apply bind_Some in Hp as (b & Hb & Hp). assert (fs = put_chunks k [b]) as -> by congruence. rewrite chunks_chunks, Z.eqb_refl.
  apply encode_inv in Hb as (fs & -> & Hf & Ho). simpl. rewrite Hf. simpl. by rewrite app_nil_r, Ho.
Qed.
Lemma repeated_put `{MessageLaws A} k (l : list A) fs fs' :
  put_repeated k l = Some fs → chunks k fs' = chunks k fs → repeated k fs' = Some l.
Proof.
  unfold put_repeated, repeated. intros (bs & Hb & [= <-])%bind_Some ->. rewrite chunks_chunks, Z.eqb_refl.
  apply mapM_Some in Hb. apply mapM_Some. apply Forall2_flip. eapply Forall2_impl; [exact Hb|]. intros a b. apply decode_encoded.
Qed.

(** Signed numbers of 32 and 64 bits are sent as 64-bit numbers. *)
Definition put_int32 (k z : Z) : option (list wfield) :=
  if bool_decide (- 2 ^ 31 ≤ z < 2 ^ 31) then Some (put_uint k (u64 z)) else None.
Definition put_int64 (k z : Z) : option (list wfield) :=
  if bool_decide (- 2 ^ 63 ≤ z < 2 ^ 63) then Some (put_uint k (u64 z)) else None.
Definition int32 (k : Z) (fs : list wfield) : Z := i32 (uint k fs).
Definition int64 (k : Z) (fs : list wfield) : Z := i64 (uint k fs).

Lemma put_int32_Some k z fs : put_int32 k z = Some fs → fs = put_uint k (u64 z) ∧ i32 (u64 z) = z.
Proof.
  unfold put_int32. case_bool_decide as Hz; [|done]. intros [= <-]. split; [done|]. unfold i32, u64.
  rewrite <- (i32_small z Hz) at 2. unfold i32. f_equal. rewrite <- (Z.mod_mod_divide (z mod 2 ^ 64 + 2 ^ 31) (2 ^ 64)) by (exists (2 ^ 32); done).
  rewrite Zplus_mod_idemp_l. apply Z.mod_mod_divide. by exists (2 ^ 32).
Qed.
Lemma put_int64_Some k z fs : put_int64 k z = Some fs → fs = put_uint k (u64 z) ∧ i64 (u64 z) = z.
Proof.
  unfold put_int64. case_bool_decide as Hz; [|done]. intros [= <-]. split; [done|]. unfold i64, u64.
  rewrite Zplus_mod_idemp_l. by apply i64_small.
Qed.

(** Reads fields off the ones that were put. *)
Ltac wire := unfold int32, int64, uint, blob; repeat (autorewrite with wire; cbn [Z.eqb Pos.eqb andb]).

(** ** The messages of src/broadcast/types.proto *)
#[export] Instance SignedData_msg : Message SignedData := {|
  to_fields s := Some (put_blob 1 (sd_Data s) ++ put_blob 2 (sd_Signature s));
  of_fields fs := Some (mkSigned (blob 1 fs) (blob 2 fs)) |}.
#[export] Instance BlockReference_msg : Message BlockReference := {|
  to_fields b := Some (put_blob 1 (br_Hash b) ++ put_uint 2 (br_Node b) ++ put_uint 3 (br_Round b));
  of_fields fs := Some (mkRef (blob 1 fs) (uint 2 fs) (uint 3 fs)) |}.
#[export] Instance Transactions_msg : Message Transactions := {|
  to_fields t := Some (put_uint 1 (tx_Count t) ++ put_blob 2 (tx_Data t));
  of_fields fs := Some (mkTxs (uint 1 fs) (blob 2 fs)) |}.
#[export] Instance Block_msg : Message Block := {|
  to_fields b :=
    p ← put_embedded 2 (b_Previous b);
    rs ← put_repeated 3 (b_References b);
    t ← put_embedded 5 (b_Transactions b);
    Some (put_uint 1 (b_Node b) ++ p ++ rs ++ put_uint 4 (b_Round b) ++ t);
  of_fields fs :=
    p ← embedded 2 fs; rs ← repeated 3 fs; t ← embedded 5 fs;
    Some (mkBlock (uint 1 fs) p rs (uint 4 fs) t) |}.
#[export] Instance AckBroadcast_msg : Message AckBroadcast := {|
  to_fields a := Some (put_uint 1 (ack_Last a));
  of_fields fs := Some (mkAck (uint 1 fs)) |}.
#[export] Instance GetBlocks_msg : Message GetBlocks := {|
  to_fields g := put_repeated 1 (gb_Blocks g);
  of_fields fs := l ← repeated 1 fs; Some (mkGetBlocks l) |}.
#[export] Instance ListBlocks_msg : Message ListBlocks := {|
  to_fields l := bs ← mapM id (lb_Blocks l); put_repeated 1 bs;
  of_fields fs := l ← repeated 1 fs; Some (mkList (Some <$> l)) |}.

(** Rounds are packed into one field; the decoder also takes them one by one. *)
Fixpoint unpack (fuel : nat) (s : bytes) : option (list Z) :=
  match s with
  | [] => Some []
  | _ => match fuel with O => None | S fuel => '(z, s) ← get_varint 10 s; l ← unpack fuel s; Some (u64 z :: l) end
  end.
Definition pack (l : list Z) : bytes := mjoin (put_varint 10 <$> l).
Definition packed (k : Z) (fs : list wfield) : option (list Z) :=
  ls ← mapM (λ f : wfield, if f.1 =? k then match f.2 with WVarint z => Some [z] | WBytes b => unpack (length b) b end else Some []) fs;
  Some (mjoin ls).
#[export] Instance GetRounds_msg : Message GetRounds := {|
  to_fields g := if bool_decide (Forall is_u64 (gr_Rounds g)) then Some (put_blob 1 (pack (gr_Rounds g))) else None;
  of_fields fs := l ← packed 1 fs; Some (mkGetRounds l) |}.

Lemma unpack_pack l : Forall is_u64 l → ∀ fuel, (length (pack l) ≤ fuel)%nat → unpack fuel (pack l) = Some l.
Proof.
  induction 1 as [|z l Hz _ IH]; intros fuel Hl; [by destruct fuel|].
  change (pack (z :: l)) with (put_varint 10 z ++ pack l) in *. pose proof (put_varint_nonempty z) as Hn.
  rewrite length_app in Hl. destruct (put_varint 10 z ++ pack l) as [|c t] eqn:E.
  { apply app_eq_nil in E as [E _]. done. }
  assert (1 ≤ length (put_varint 10 z))%nat by (destruct (put_varint 10 z); [done|simpl; lia]).
  destruct fuel as [|fuel]; [lia|]. unfold unpack; fold unpack. rewrite <- E, get_put_varint10 by done. cbn [mbind option_bind].
  rewrite IH by lia. cbn [mbind option_bind]. by rewrite u64_small.
Qed.

#[export] Instance SignedData_laws : MessageLaws SignedData.
Proof. intros [d g] fs [= <-] _. simpl. by wire. Qed.
#[export] Instance BlockReference_laws : MessageLaws BlockReference.
Proof. intros [h n r] fs [= <-] _. simpl. by wire. Qed.
#[export] Instance Transactions_laws : MessageLaws Transactions.
Proof. intros [c d] fs [= <-] _. simpl. by wire. Qed.
#[export] Instance AckBroadcast_laws : MessageLaws AckBroadcast.
Proof. intros [l] fs [= <-] _. simpl. by wire. Qed.
#[export] Instance Block_laws : MessageLaws Block.
Proof.
  intros [n p rs r t] fs H _. unfold to_fields, Block_msg in H. cbn [b_Previous b_References b_Transactions b_Node b_Round] in H.
  apply bind_Some in H as (fp & Hp & H). apply bind_Some in H as (fr & Hr & H). apply bind_Some in H as (ft & Ht & H).
  assert (fs = put_uint 1 n ++ fp ++ fr ++ put_uint 4 r ++ ft) as -> by congruence. clear H.
  destruct (put_embedded_chunks _ _ _ Hp) as [lp ->]. destruct (put_embedded_chunks _ _ _ Ht) as [lt ->].
  assert (∃ lr, fr = put_chunks 3 lr) as [lr ->] by (apply bind_Some in Hr as (lr & _ & [= <-]); by exists lr).
  unfold of_fields, Block_msg. rewrite (embedded_put 2 p _ _ Hp), (repeated_put 3 rs _ _ Hr), (embedded_put 5 t _ _ Ht) by (by wire).
  cbn [mbind option_bind]. by wire.
Qed.
#[export] Instance GetBlocks_laws : MessageLaws GetBlocks.
Proof. intros [l] fs H _. simpl in *. by rewrite (repeated_put 1 l fs fs H). Qed.
#[export] Instance ListBlocks_laws : MessageLaws ListBlocks.
Proof.
  intros [l] fs H _. simpl in *. apply bind_Some in H as (bs & Hb & H). rewrite (repeated_put 1 bs fs fs H eq_refl).
  assert (Some <$> bs = l) as <-; [|done]. apply mapM_Some in Hb. clear H.
  induction Hb as [|o b l bs Ho _ IH]; [done|]. unfold id in Ho. subst o. by rewrite <- IH.
Qed.
#[export] Instance GetRounds_laws : MessageLaws GetRounds.
Proof.
  intros [l] fs H _. unfold to_fields, GetRounds_msg in H. simpl gr_Rounds in H. case_bool_decide as HF; [|done].
  injection H as <-. pose proof (unpack_pack l HF (length (pack l)) ltac:(done)) as E.
  unfold of_fields, GetRounds_msg, packed. destruct (pack l) as [|c t] eqn:Ep.
  - simpl in E. by injection E as <-.
  - cbn [put_blob]. cbn -[unpack length]. rewrite E. simpl. by rewrite app_nil_r.
Qed.

(** ** The messages of src/service/types.proto *)
#[export] Instance SMessage_msg : Message SMessage := {|
  to_fields m :=
    op ← put_int32 3 (m_Opcode m);
    Some (put_uint 1 (m_ID m) ++ put_blob 2 (m_Error m) ++ op ++ put_blob 4 (m_Payload m));
  of_fields fs := Some (mkMessage (uint 1 fs) (blob 2 fs) (int32 3 fs) (blob 4 fs)) |}.
#[export] Instance Hello_msg : Message Hello := {|
  to_fields h :=
    ty ← put_int32 4 (h_Type h);
    Some (put_blob 1 (h_Agent h) ++ put_blob 2 (h_Payload h) ++ put_blob 3 (h_Signature h) ++ ty);
  of_fields fs := Some (mkHello (blob 1 fs) (blob 2 fs) (blob 3 fs) (int32 4 fs)) |}.

(** A time in nanoseconds since 1970 is sent in seconds and nanoseconds, from the year 1 to 9999. *)
Record Timestamp := mkTimestamp { ts_Seconds : Z; ts_Nanos : Z }.
Definition timestamp_ok (t : Timestamp) : Prop :=
  -62135596800 ≤ ts_Seconds t < 253402300800 ∧ 0 ≤ ts_Nanos t < 10 ^ 9.
#[export] Instance timestamp_ok_dec t : Decision (timestamp_ok t).
Proof. apply _. Defined.
#[export] Instance Timestamp_msg : Message Timestamp := {|
  to_fields t := if bool_decide (timestamp_ok t)
                 then s ← put_int64 1 (ts_Seconds t); n ← put_int32 2 (ts_Nanos t); Some (s ++ n) else None;
  of_fields fs := let t := mkTimestamp (int64 1 fs) (int32 2 fs) in if bool_decide (timestamp_ok t) then Some t else None |}.
Definition zero_time : Z := -62135596800 * 10 ^ 9.
#[export] Instance HelloInfo_msg : Message HelloInfo := {|
  to_fields h :=
    t ← put_embedded 4 (Some (mkTimestamp (hi_Timestamp h / 10 ^ 9) (hi_Timestamp h mod 10 ^ 9)));
    Some (put_uint 1 (hi_Client h) ++ put_blob 2 (hi_Nonce h) ++ put_uint 3 (hi_Server h) ++ t);
  of_fields fs :=
    t ← embedded 4 fs;
    Some (mkHelloInfo (uint 1 fs) (blob 2 fs) (uint 3 fs)
            (match t with Some t => ts_Seconds t * 10 ^ 9 + ts_Nanos t | None => zero_time end)) |}.

#[export] Instance SMessage_laws : MessageLaws SMessage.
Proof.
  intros [i e o p] fs H _. unfold to_fields, SMessage_msg in H. cbn [m_ID m_Error m_Opcode m_Payload] in H. apply bind_Some in H as (fo & [-> Ho]%put_int32_Some & H).
  assert (fs = put_uint 1 i ++ put_blob 2 e ++ put_uint 3 (u64 o) ++ put_blob 4 p) as -> by congruence.
  simpl. wire. by rewrite Ho.
Qed.
#[export] Instance Hello_laws : MessageLaws Hello.
Proof.
  intros [a p s t] fs H _. unfold to_fields, Hello_msg in H. cbn [h_Agent h_Payload h_Signature h_Type] in H. apply bind_Some in H as (ft & [-> Ht]%put_int32_Some & H).
  assert (fs = put_blob 1 a ++ put_blob 2 p ++ put_blob 3 s ++ put_uint 4 (u64 t)) as -> by congruence.
  simpl. wire. by rewrite Ht.
Qed.
#[export] Instance Timestamp_laws : MessageLaws Timestamp.
Proof.
  intros [s n] fs H _. unfold to_fields, Timestamp_msg in H. case_bool_decide as Hok; [|done]. cbn [ts_Seconds ts_Nanos] in H.
  apply bind_Some in H as (f1 & [-> E1]%put_int64_Some & H). apply bind_Some in H as (f2 & [-> E2]%put_int32_Some & H).
  assert (fs = put_uint 1 (u64 s) ++ put_uint 2 (u64 n)) as -> by congruence. unfold of_fields, Timestamp_msg. wire.
  rewrite E1, E2. cbv zeta. by rewrite bool_decide_eq_true_2.
Qed.
#[export] Instance HelloInfo_laws : MessageLaws HelloInfo.
Proof.
  intros [c n s t] fs H _. unfold to_fields, HelloInfo_msg in H. cbn [hi_Client hi_Nonce hi_Server hi_Timestamp] in H.
  apply bind_Some in H as (ft & Ht & H).
  assert (fs = put_uint 1 c ++ put_blob 2 n ++ put_uint 3 s ++ ft) as -> by congruence. clear H.
  destruct (put_embedded_chunks _ _ _ Ht) as [lt ->]. unfold of_fields, HelloInfo_msg.
  rewrite (embedded_put 4 _ _ _ Ht) by (by wire). cbn [mbind option_bind ts_Seconds ts_Nanos].
  pose proof (Z.div_mod t (10 ^ 9) ltac:(lia)) as Ed. rewrite (Z.mul_comm (10 ^ 9)) in Ed. rewrite <- Ed. by wire.
Qed.
