(* ===== verification/Types.v ===== *)
(** * The generated accessors of the messages

    Of src/broadcast/types.pb.go and src/service/types.pb.go: the names of the operations and of the
    kinds of connection, the empty messages that [Reset] leaves, and the accessors, which read an
    empty message from a nil pointer. *)

From stdpp Require Import strings.
From S2P Require Import Prelude Messages GoText Codec Kv Conn Ext Broadcast Node Wire.

(** ** Enumerations *)
Definition names (l : list (Z * string)) : gmap Z bytes := list_to_map (prod_map id lit <$> l).
Definition values (l : list (string * Z)) : gmap bytes Z := list_to_map (prod_map lit id <$> l).

Definition OP_UNKNOWN : Z := 0.
Definition OP_name : gmap Z bytes := names
  [(0, "UNKNOWN"); (1, "ACK_BROADCAST"); (2, "BROADCAST"); (3, "GET_BLOCKS"); (4, "GET_ROUNDS"); (5, "LIST_BLOCKS")].
Definition OP_value : gmap bytes Z := values
  [("UNKNOWN", 0); ("ACK_BROADCAST", 1); ("BROADCAST", 2); ("GET_BLOCKS", 3); ("GET_ROUNDS", 4); ("LIST_BLOCKS", 5)].

Definition CONNECTION_UNKNOWN : Z := 0.
Definition CONNECTION_SBAC : Z := 2.
Definition CONNECTION_KV : Z := 3.
Definition CONNECTION_CHECKER : Z := 4.
Definition CONNECTION_name : gmap Z bytes := names
  [(0, "UNKNOWN"); (1, "BROADCAST"); (2, "SBAC"); (3, "KV"); (4, "CHECKER")].
Definition CONNECTION_value : gmap bytes Z := values
  [("UNKNOWN", 0); ("BROADCAST", 1); ("SBAC", 2); ("KV", 3); ("CHECKER", 4)].

(** [proto.EnumName]: the name, or the number of a value that has none. *)
Definition EnumName (m : gmap Z bytes) (v : Z) : bytes := match m !! v with Some s => s | None => sdec v end.
Definition OP_String (x : Z) : bytes := EnumName OP_name x.
Definition CONNECTION_String (x : Z) : bytes := EnumName CONNECTION_name x.

(** Names and values are inverse to each other. *)
Definition inverse_b (m : gmap Z bytes) (m' : gmap bytes Z) : bool :=
  bool_decide (map_Forall (λ v s, m' !! s = Some v) m) && bool_decide (map_Forall (λ s v, m !! v = Some s) m').
Lemma inverse_b_sound m m' : inverse_b m m' = true → ∀ v s, m !! v = Some s ↔ m' !! s = Some v.
Proof.
  unfold inverse_b. rewrite andb_true_iff, !bool_decide_eq_true. intros [H H'] v s. split; [apply H|apply H'].
Qed.
Theorem enum_names_inverse v s :
  (OP_name !! v = Some s ↔ OP_value !! s = Some v) ∧ (CONNECTION_name !! v = Some s ↔ CONNECTION_value !! s = Some v).
Proof. split; apply inverse_b_sound; vm_compute; reflexivity. Qed.

(** ** Empty messages *)
Definition AckBroadcast_Reset : AckBroadcast := mkAck 0.
Definition Block_Reset : Block := mkBlock 0 None [] 0 None.
Definition BlockReference_Reset : BlockReference := mkRef [] 0 0.
Definition GetBlocks_Reset : GetBlocks := mkGetBlocks [].
Definition GetRounds_Reset : GetRounds := mkGetRounds [].
Definition ListBlocks_Reset : ListBlocks := mkList [].
Definition SignedData_Reset : SignedData := mkSigned [] [].
Definition Transactions_Reset : Transactions := mkTxs 0 [].
Definition Hello_Reset : Hello := mkHello [] [] [] 0.
Definition HelloInfo_Reset : HelloInfo := mkHelloInfo 0 [] 0 zero_time.
Definition SMessage_Reset : SMessage := mkMessage 0 [] 0 [].

(** ** Accessors: [m] is a pointer *)
Definition AckBroadcast_GetLast (m : option AckBroadcast) : Z := match m with Some m => ack_Last m | None => 0 end.
Definition Block_GetNode (m : option Block) : Z := match m with Some m => b_Node m | None => 0 end.
Definition Block_GetPrevious (m : option Block) : option SignedData := match m with Some m => b_Previous m | None => None end.
Definition Block_GetReferences (m : option Block) : list SignedData := match m with Some m => b_References m | None => [] end.
Definition Block_GetRound (m : option Block) : Z := match m with Some m => b_Round m | None => 0 end.
Definition Block_GetTransactions (m : option Block) : option Transactions := match m with Some m => b_Transactions m | None => None end.
Definition BlockReference_GetHash (m : option BlockReference) : bytes := match m with Some m => br_Hash m | None => [] end.
Definition BlockReference_GetNode (m : option BlockReference) : Z := match m with Some m => br_Node m | None => 0 end.
Definition BlockReference_GetRound (m : option BlockReference) : Z := match m with Some m => br_Round m | None => 0 end.
Definition GetBlocks_GetBlocks (m : option GetBlocks) : list BlockReference := match m with Some m => gb_Blocks m | None => [] end.
Definition GetRounds_GetRounds (m : option GetRounds) : list Z := match m with Some m => gr_Rounds m | None => [] end.
Definition ListBlocks_GetBlocks (m : option ListBlocks) : list (option SignedData) := match m with Some m => lb_Blocks m | None => [] end.
Definition SignedData_GetData (m : option SignedData) : bytes := match m with Some m => sd_Data m | None => [] end.
Definition SignedData_GetSignature (m : option SignedData) : bytes := match m with Some m => sd_Signature m | None => [] end.
Definition Transactions_GetCount (m : option Transactions) : Z := match m with Some m => tx_Count m | None => 0 end.
Definition Transactions_GetData (m : option Transactions) : bytes := match m with Some m => tx_Data m | None => [] end.
Definition Hello_GetAgent (m : option Hello) : bytes := match m with Some m => h_Agent m | None => [] end.
Definition Hello_GetPayload (m : option Hello) : bytes := match m with Some m => h_Payload m | None => [] end.
Definition Hello_GetSignature (m : option Hello) : bytes := match m with Some m => h_Signature m | None => [] end.
Definition Hello_GetType (m : option Hello) : Z := match m with Some m => h_Type m | None => CONNECTION_UNKNOWN end.
Definition HelloInfo_GetClient (m : option HelloInfo) : Z := match m with Some m => hi_Client m | None => 0 end.
Definition HelloInfo_GetNonce (m : option HelloInfo) : bytes := match m with Some m => hi_Nonce m | None => [] end.
Definition HelloInfo_GetServer (m : option HelloInfo) : Z := match m with Some m => hi_Server m | None => 0 end.
Definition HelloInfo_GetTimestamp (m : option HelloInfo) : Z := match m with Some m => hi_Timestamp m | None => zero_time end.
Definition SMessage_GetID (m : option SMessage) : Z := match m with Some m => m_ID m | None => 0 end.
Definition SMessage_GetError (m : option SMessage) : bytes := match m with Some m => m_Error m | None => [] end.
Definition SMessage_GetOpcode (m : option SMessage) : Z := match m with Some m => m_Opcode m | None => 0 end.
Definition SMessage_GetPayload (m : option SMessage) : bytes := match m with Some m => m_Payload m | None => [] end.

(** A nil message reads as an empty one, and an empty one is encoded as nothing. *)
Theorem nil_reads_empty :
  AckBroadcast_GetLast None = AckBroadcast_GetLast (Some AckBroadcast_Reset) ∧
  Block_GetNode None = Block_GetNode (Some Block_Reset) ∧
  Block_GetPrevious None = Block_GetPrevious (Some Block_Reset) ∧
  Block_GetReferences None = Block_GetReferences (Some Block_Reset) ∧
  Block_GetRound None = Block_GetRound (Some Block_Reset) ∧
  Block_GetTransactions None = Block_GetTransactions (Some Block_Reset) ∧
  BlockReference_GetHash None = BlockReference_GetHash (Some BlockReference_Reset) ∧
  BlockReference_GetNode None = BlockReference_GetNode (Some BlockReference_Reset) ∧
  BlockReference_GetRound None = BlockReference_GetRound (Some BlockReference_Reset) ∧
  GetBlocks_GetBlocks None = GetBlocks_GetBlocks (Some GetBlocks_Reset) ∧
  GetRounds_GetRounds None = GetRounds_GetRounds (Some GetRounds_Reset) ∧
  ListBlocks_GetBlocks None = ListBlocks_GetBlocks (Some ListBlocks_Reset) ∧
  SignedData_GetData None = SignedData_GetData (Some SignedData_Reset) ∧
  SignedData_GetSignature None = SignedData_GetSignature (Some SignedData_Reset) ∧
  Transactions_GetCount None = Transactions_GetCount (Some Transactions_Reset) ∧
  Transactions_GetData None = Transactions_GetData (Some Transactions_Reset) ∧
  Hello_GetAgent None = Hello_GetAgent (Some Hello_Reset) ∧
  Hello_GetPayload None = Hello_GetPayload (Some Hello_Reset) ∧
  Hello_GetSignature None = Hello_GetSignature (Some Hello_Reset) ∧
  Hello_GetType None = Hello_GetType (Some Hello_Reset) ∧
  HelloInfo_GetClient None = HelloInfo_GetClient (Some HelloInfo_Reset) ∧
  HelloInfo_GetNonce None = HelloInfo_GetNonce (Some HelloInfo_Reset) ∧
  HelloInfo_GetServer None = HelloInfo_GetServer (Some HelloInfo_Reset) ∧
  HelloInfo_GetTimestamp None = HelloInfo_GetTimestamp (Some HelloInfo_Reset) ∧
  SMessage_GetID None = SMessage_GetID (Some SMessage_Reset) ∧
  SMessage_GetError None = SMessage_GetError (Some SMessage_Reset) ∧
  SMessage_GetOpcode None = SMessage_GetOpcode (Some SMessage_Reset) ∧
  SMessage_GetPayload None = SMessage_GetPayload (Some SMessage_Reset).
Proof. by repeat split. Qed.
Theorem empty_encodes_empty :
  marshal AckBroadcast_Reset = Some [] ∧
  marshal Block_Reset = Some [] ∧
  marshal BlockReference_Reset = Some [] ∧
  marshal GetBlocks_Reset = Some [] ∧
  marshal GetRounds_Reset = Some [] ∧
  marshal ListBlocks_Reset = Some [] ∧
  marshal SignedData_Reset = Some [] ∧
  marshal Transactions_Reset = Some [] ∧
  marshal Hello_Reset = Some [] ∧
  marshal SMessage_Reset = Some [] ∧
  unmarshal [] = Some AckBroadcast_Reset ∧
  unmarshal [] = Some Block_Reset ∧
  unmarshal [] = Some BlockReference_Reset ∧
  unmarshal [] = Some GetBlocks_Reset ∧
  unmarshal [] = Some GetRounds_Reset ∧
  unmarshal [] = Some ListBlocks_Reset ∧
  unmarshal [] = Some SignedData_Reset ∧
  unmarshal [] = Some Transactions_Reset ∧
  unmarshal [] = Some Hello_Reset ∧
  unmarshal [] = Some HelloInfo_Reset ∧
  unmarshal [] = Some SMessage_Reset.
Proof. repeat split; vm_compute; reflexivity. Qed.
