(* ===== verification/Keys.v ===== *)
(** * Keys and certificates (src/internal/crypto/signature/signature.go, edd25519.go,
    src/internal/crypto/transport/transport.go)

    Ed25519 and X.509 are libraries: [Ed25519] and [X509] are what the code uses of them, with
    what they promise in [Ed25519Laws] and [X509Laws].  The bytes of the random source are an
    argument. *)

From stdpp Require Import strings.
From S2P Require Import Prelude Messages Broadcast.

(** ** The libraries *)
Class Ed25519 := {
  ed_GenerateKey : bytes → option (bytes * bytes);     (* random bytes: public and private key *)
  ed_Sign : bytes → bytes → bytes;                     (* private key, data *)
  ed_Verify : bytes → bytes → bytes → bool             (* public key, data, signature *)
}.
Class Ed25519Laws `{Ed25519} := {
  ed_sizes rnd pub priv : ed_GenerateKey rnd = Some (pub, priv) →
    is_bytes pub ∧ length pub = 32%nat ∧ is_bytes priv ∧ length priv = 64%nat;
  ed_verify_sign rnd pub priv data : ed_GenerateKey rnd = Some (pub, priv) →
    ed_Verify pub data (ed_Sign priv data) = true
}.

(** The template of a certificate; times are nanoseconds. *)
Record template := mkTemplate {
  tm_BasicConstraintsValid : bool; tm_ExtKeyUsage : list Z; tm_IsCA : bool; tm_KeyUsage : Z; tm_NotAfter : Z;
  tm_NotBefore : Z; tm_SerialNumber : Z; tm_SignatureAlgorithm : Z; tm_CommonName : bytes }.

Class X509 := {
  ECKey : Type;
  CertPool : Type;
  Certificate : Type;
  ecdsa_GenerateKey : bytes → option ECKey;            (* random bytes: a key on the curve P-256 *)
  MarshalECPrivateKey : ECKey → option bytes;
  CreateCertificate : bytes → template → ECKey → option bytes;   (* random bytes: signed by the key itself *)
  pem_Encode : bytes → bytes → option bytes;           (* type and contents of a block *)
  AppendCertsFromPEM : bytes → option CertPool;        (* a new pool with the certificates of a text *)
  X509KeyPair : bytes → bytes → option Certificate     (* public and private PEM text *)
}.
(** The PEM texts of a certificate and of the key that signed it are accepted. *)
Class X509Laws `{X509} :=
  x509_loads rnd key der srnd tmpl cert priv pub :
    ecdsa_GenerateKey rnd = Some key → MarshalECPrivateKey key = Some der → CreateCertificate srnd tmpl key = Some cert →
    pem_Encode (lit "EC PRIVATE KEY") der = Some priv → pem_Encode (lit "CERTIFICATE") cert = Some pub →
    is_Some (AppendCertsFromPEM pub) ∧ is_Some (X509KeyPair pub priv).

(** ** Signing keys *)
Module Signature.
(** [Algorithm] is a uint8. *)
Definition Ed25519_ : Z := 1.
Definition String (s : Z) : bytes := if s =? Ed25519_ then lit "ed25519" else [].
Definition AlgorithmFromString (s : bytes) : option Z :=
  if bool_decide (s = String Ed25519_) then Some Ed25519_ else None.

Inductive error := RandError | BadLength (n : nat) | UnknownAlgorithm.

(** [ed25519KeyPair]; keys of their own are byte slices. *)
Record keypair := mkPair { kp_pub : bytes; kp_priv : bytes }.

Section Keys.
Context `{Ed25519}.

Definition Algorithm (k : keypair) : Z := Ed25519_.
Definition PublicKey (k : keypair) : bytes := kp_pub k.
Definition PrivateKey (k : keypair) : bytes := kp_priv k.
Definition Sign (k : keypair) (data : bytes) : bytes := ed_Sign (kp_priv k) data.
Definition Verify (k : keypair) (data sig : bytes) : bool := ed_Verify (kp_pub k) data sig.
(** [copy] into 96 zero bytes: what does not fit is left out. *)
Definition copy (dst : bytes) (at_ : nat) (src : bytes) : bytes :=
  let n := Nat.min (length src) (length dst - at_) in
  take at_ dst ++ take n src ++ drop (at_ + n) dst.
Definition Value (k : keypair) : bytes :=
  let v := replicate 96 0 in
  let v := copy v 0 (kp_pub k) in
  copy v 32 (kp_priv k).

Definition GenKeyPair (rnd : bytes) (s : Z) : error + keypair :=
  if s =? Ed25519_ then
    match ed_GenerateKey rnd with
    | None => inl RandError
    | Some (pub, priv) => inr (mkPair pub priv)
    end
  else inl UnknownAlgorithm.

Definition LoadKeyPair (s : Z) (value : bytes) : error + keypair :=
  if s =? Ed25519_ then
    if negb (bool_decide (length value = 96%nat)) then inl (BadLength (length value))
    else inr (mkPair (take 32 value) (drop 32 value))
  else inl UnknownAlgorithm.

Definition LoadPrivateKey (s : Z) (value : bytes) : error + bytes :=
  if s =? Ed25519_ then
    if negb (bool_decide (length value = 64%nat)) then inl (BadLength (length value)) else inr value
  else inl UnknownAlgorithm.

Definition LoadPublicKey (s : Z) (value : bytes) : error + bytes :=
  if s =? Ed25519_ then
    if negb (bool_decide (length value = 32%nat)) then inl (BadLength (length value)) else inr value
  else inl UnknownAlgorithm.

(** The keys of a node are what the broadcast service and connections use. *)
Definition node_signatures (k : keypair) : Signatures :=
  {| Broadcast.PublicKey := bytes; Broadcast.Verify := ed_Verify; Broadcast.Sign := Sign k |}.

Context `{!Ed25519Laws}.

(** A generated key pair and its parts are loaded again from their values. *)
Lemma generated_keys_load rnd k :
  GenKeyPair rnd Ed25519_ = inr k →
  LoadKeyPair Ed25519_ (PublicKey k ++ PrivateKey k) = inr k ∧ LoadKeyPair Ed25519_ (Value k) = inr k ∧
  LoadPublicKey Ed25519_ (PublicKey k) = inr (PublicKey k) ∧
  LoadPrivateKey Ed25519_ (PrivateKey k) = inr (PrivateKey k) ∧
  is_bytes (PublicKey k) ∧ is_bytes (PrivateKey k).
Proof using All.
  unfold GenKeyPair. rewrite Z.eqb_refl. destruct (ed_GenerateKey rnd) as [[pub priv]|] eqn:E; [|done].
  intros [= <-]. destruct (ed_sizes _ _ _ E) as (B1 & L1 & B2 & L2).
  assert (Value (mkPair pub priv) = pub ++ priv) as ->.
  { unfold Value, copy. cbn [kp_pub kp_priv]. rewrite length_replicate, L1, take_0, app_nil_l.
    change (Nat.min 32 (96 - 0)) with 32%nat. rewrite (firstn_all2 pub) by lia.
    rewrite !length_app, length_drop, length_replicate, L1, L2.
    change (Nat.min 64 (32 + (96 - (0 + 32)) - 32)) with 64%nat.
    rewrite take_app_length', (firstn_all2 priv) by lia. rewrite drop_ge, app_nil_r; [done|].
    rewrite length_app, length_drop, length_replicate, L1. lia. }
  unfold LoadKeyPair, LoadPublicKey, LoadPrivateKey, PublicKey, PrivateKey. cbn [kp_pub kp_priv].
  rewrite !Z.eqb_refl, length_app, L1, L2. cbn -[take drop].
  rewrite take_app_length', drop_app_length' by done. done.
Qed.
End Keys.
End Signature.

(** ** Transport certificates *)
Module Transport.
Definition ECDSA : Z := 1.
Record Cert := mkCert { ct_Private : bytes; ct_Public : bytes; ct_Type : Z }.
Definition String (c : Z) : bytes := if c =? ECDSA then lit "ecdsa" else [].
Inductive error := CertError | UnknownCert.

(** [fmt.Sprintf("node-%d.net-%s.chainspace", nodeID, networkID)] *)
Definition server_name (nodeID : Z) (networkID : bytes) : bytes :=
  lit "node-" ++ dec nodeID ++ lit ".net-" ++ networkID ++ lit ".chainspace".

(** What a certificate is made from: the random bytes of the key and of the signature, and the time. *)
Record source := mkSource { so_key : bytes; so_sign : bytes; so_now : Z }.

(** The constants of crypto/x509. *)
Definition ExtKeyUsageServerAuth : Z := 1.
Definition ExtKeyUsageClientAuth : Z := 2.
Definition KeyUsageDigitalSignature : Z := 1.
Definition KeyUsageKeyEncipherment : Z := 4.
Definition KeyUsageCertSign : Z := 32.
Definition ECDSAWithSHA512 : Z := 12.
Definition Hour : Z := 3600000000000.

Definition cert_template (now : Z) (networkID : bytes) (nodeID : Z) : template :=
  mkTemplate true [ExtKeyUsageClientAuth; ExtKeyUsageServerAuth] true
    (Z.lor (Z.lor KeyUsageCertSign KeyUsageDigitalSignature) KeyUsageKeyEncipherment)
    (now + Hour * 24 * 365 * 100) now 1 ECDSAWithSHA512 (server_name nodeID networkID).

Definition GenCert `{X509} (src : source) (t : Z) (networkID : bytes) (nodeID : Z) : error + Cert :=
  if t =? ECDSA then
    match ecdsa_GenerateKey (so_key src) with
    | None => inl CertError
    | Some key =>
    match MarshalECPrivateKey key with
    | None => inl CertError
    | Some der =>
    match CreateCertificate (so_sign src) (cert_template (so_now src) networkID nodeID) key with
    | None => inl CertError
    | Some cert =>
    match pem_Encode (lit "EC PRIVATE KEY") der with
    | None => inl CertError
    | Some priv =>
    match pem_Encode (lit "CERTIFICATE") cert with
    | None => inl CertError
    | Some pub => inr (mkCert priv pub ECDSA)
    end end end end end
  else inl UnknownCert.

(** A generated certificate and its key are loaded again. *)
Lemma generated_cert_loads `{X509Laws} src networkID nodeID cert :
  GenCert src ECDSA networkID nodeID = inr cert →
  ct_Type cert = ECDSA ∧ is_Some (AppendCertsFromPEM (ct_Public cert)) ∧
  is_Some (X509KeyPair (ct_Public cert) (ct_Private cert)).
Proof.
  unfold GenCert. rewrite Z.eqb_refl. destruct (ecdsa_GenerateKey _) as [key|] eqn:E1; [|done].
  destruct (MarshalECPrivateKey key) as [der|] eqn:E2; [|done].
  destruct (CreateCertificate _ _ key) as [c|] eqn:E3; [|done].
  destruct (pem_Encode _ der) as [priv|] eqn:E4; [|done]. destruct (pem_Encode _ c) as [pub|] eqn:E5; [|done].
  intros [= <-]. destruct (x509_loads _ _ _ _ _ _ _ _ E1 E2 E3 E4 E5). done.
Qed.
End Transport.
