(* ===== verification/Files.v ===== *)
(** * Files and YAML (src/internal/fsutil/fsutil.go and what the code uses of os and yaml)

    A path is the list of its components, and [filepath.Join] appends to it: the names the code
    joins are taken to be single components.  [OS] is what the code uses of the file system,
    with its promises in [OSLaws]; [Yaml] is the encoding of one configuration type. *)

From stdpp Require Import strings.
From S2P Require Import Prelude Messages.

Notation path := (list (list Z)) (only parsing).

Inductive oserr := NotExist | OSFailure (code : Z).

Class OS (FS : Type) := {
  os_Stat : FS → path → oserr + unit;
  os_Mkdir : FS → path → oserr + FS;
  os_MkdirAll : FS → path → oserr + FS;
  os_Create : FS → path → oserr + FS;                  (* an empty file *)
  os_Write : FS → path → bytes → oserr + FS;           (* f.Write on the file just created *)
  os_ReadFile : FS → path → oserr + bytes;
  os_Abs : FS → path → oserr + path                    (* filepath.Abs *)
}.

(** What is there stays there, and what was written is read. *)
Class OSLaws (FS : Type) `{OS FS} := {
  os_read_write fs p data fs1 fs2 : os_Create fs p = inr fs1 → os_Write fs1 p data = inr fs2 →
    os_ReadFile fs2 p = inr data;
  os_create_other fs p fs' p' : os_Create fs p = inr fs' → p ≠ p' →
    os_ReadFile fs' p' = os_ReadFile fs p';
  os_write_other fs p data fs' p' : os_Write fs p data = inr fs' → p ≠ p' →
    os_ReadFile fs' p' = os_ReadFile fs p';
  os_mkdir_read fs p fs' p' data : os_Mkdir fs p = inr fs' → os_ReadFile fs p' = inr data →
    os_ReadFile fs' p' = inr data;
  os_mkdir_stat fs p fs' : os_Mkdir fs p = inr fs' → os_Stat fs' p = inr tt;
  os_stat_mkdir fs p fs' p' : os_Mkdir fs p = inr fs' → os_Stat fs p' = inr tt → os_Stat fs' p' = inr tt;
  os_stat_create fs p fs' p' : os_Create fs p = inr fs' → os_Stat fs p' = inr tt → os_Stat fs' p' = inr tt;
  os_stat_write fs p data fs' p' : os_Write fs p data = inr fs' → os_Stat fs p' = inr tt → os_Stat fs' p' = inr tt
}.

Class Yaml (A : Type) := {
  yaml_Marshal : A → option bytes;
  yaml_Unmarshal : bytes → option A
}.
Class YamlLaws (A : Type) `{Yaml A} :=
  yaml_round a data : yaml_Marshal a = Some data → yaml_Unmarshal data = Some a.

(** ** fsutil *)
Module Fsutil.
Section Fsutil.
Context {FS : Type} `{OS FS}.

Inductive error := StatFailed (e : oserr) | NotFound (p : path) | AlreadyExists | MkdirFailed (e : oserr).

Definition EnsureDir (fs : FS) (p : path) : FS * option oserr :=
  match os_Stat fs p with
  | inl NotExist => match os_Mkdir fs p with inl e => (fs, Some e) | inr fs => (fs, None) end
  | inl e => (fs, Some e)
  | inr _ => (fs, None)
  end.

Definition Exists (fs : FS) (p : path) : bool * option error :=
  match os_Stat fs p with
  | inr _ => (true, None)
  | inl NotExist => (false, Some (NotFound p))
  | inl e => (false, Some (StatFailed e))
  end.

Definition CreateUnlessExists (fs : FS) (p : path) : FS * option error :=
  let '(exists_, _) := Exists fs p in
  if exists_ then (fs, Some AlreadyExists)
  else match os_Mkdir fs p with inl e => (fs, Some (MkdirFailed e)) | inr fs => (fs, None) end.
End Fsutil.
End Fsutil.
