(* ===== verification/Setup.v ===== *)
(** * Configuration: files, generated networks and the topology (src/config/config.go,
    src/config/generate/generate.go, src/network/network.go)

    Durations are nanoseconds, a float64 is its bits, pointers that may be nil are options, maps
    and slices that are nil are empty.  Log entries and the progress printed are left out; a
    fatal log entry ends the process. *)

From stdpp Require Import strings.
From S2P Require Import Prelude Messages Config Base32 Kv Broadcast Node Keys Files.

(** ** config.go *)
Record Announce := mkAnnounce { an_MDNS : bool; an_Registry : bool }.
Record Bootstrap := mkBootstrap {
  bs_File : bytes; bs_MDNS : bool; bs_Registry : bool; bs_Static : gmap Z (list Z) }.
Record BroadcastConf := mkBroadcastConf { bc_InitialBackoff : Z; bc_MaxBackoff : Z }.
Record Connections := mkConnections { cn_ReadTimeout : Z; cn_WriteTimeout : Z }.
Record Key := mkKey { k_Type : bytes; k_Public : bytes; k_Private : bytes }.
Record KeysConf := mkKeys { ks_SigningKey : option Key; ks_TransportCert : option Key }.
Record Logging := mkLogging {
  lg_ConsoleLevel : Z; lg_FileLevel : Z; lg_FilePath : list (list Z); lg_ServerHost : bytes; lg_ServerLevel : Z;
  lg_ServerToken : bytes }.
Record NetConsensus := mkNetConsensus {
  nc_BlockReferencesSizeLimit : Z; nc_BlockTransactionsSizeLimit : Z; nc_NonceExpiration : Z;
  nc_RoundInterval : Z; nc_ViewTimeout : Z }.
Record PeerKey := mkPeerKey { pk_Type : bytes; pk_Value : bytes }.
Record Peer := mkPeer { pe_SigningKey : option PeerKey; pe_TransportCert : option PeerKey }.
Record Network := mkNetwork {
  nw_ID : bytes; nw_Consensus : option NetConsensus; nw_MaxPayload : Z; nw_SeedNodes : gmap Z (option Peer) }.
Record ServiceEnable := mkEnable { se_Enabled : bool; se_Port : Z }.
Record RateLimit := mkRateLimit { rl_InitialRate : Z; rl_RateDecrease : Z; rl_RateIncrease : Z }.
Record NodeConsensus := mkNodeConsensus {
  no_DriftTolerance : Z; no_InitialWorkDuration : Z; no_RateLimit : option RateLimit }.
Record Registry := mkRegistry { rg_Host : bytes; rg_Token : bytes }.
Record Storage := mkStorage { st_Type : bytes }.
Record NodeConf := mkNodeConf {
  nd_Announce : option Announce; nd_Bootstrap : option Bootstrap; nd_Broadcast : option BroadcastConf;
  nd_Connections : option Connections; nd_Consensus : option NodeConsensus; nd_HTTP : ServiceEnable;
  nd_Logging : option Logging; nd_Pubsub : ServiceEnable; nd_Registries : list Registry; nd_Storage : option Storage }.

Module ConfigFiles.
(** [Registry.URL] *)
Definition has_prefix (s prefix : bytes) : bool := bool_decide (take (length prefix) s = prefix).
Definition URL (r : Registry) : bytes :=
  if has_prefix (rg_Host r) (lit "localhost:") || bool_decide (rg_Host r = lit "localhost")
  then lit "http://" ++ rg_Host r ++ lit "/"
  else lit "https://" ++ rg_Host r ++ lit "/".

(** [Network.Hash]: of the seed nodes alone. *)
Definition Hash `{Yaml Network} `{Hasher} (n : Network) : option bytes :=
  data ← yaml_Marshal (mkNetwork [] None 0 (nw_SeedNodes n)); Some (sha512_256 data).

Section Load.
Context {FS : Type} `{OS FS} `{YK : Yaml KeysConf} `{YW : Yaml Network} `{YN : Yaml NodeConf}.

Inductive error := ReadError (e : oserr) | YamlError.

Definition load {A} `{Yaml A} (fs : FS) (p : path) : error + A :=
  match os_ReadFile fs p with
  | inl e => inl (ReadError e)
  | inr data => match yaml_Unmarshal data with None => inl YamlError | Some cfg => inr cfg end
  end.
Definition LoadKeys (fs : FS) (p : path) : error + KeysConf := load fs p.
Definition LoadNetwork (fs : FS) (p : path) : error + Network := load fs p.
(** Without a storage type, it is kept in memory. *)
Definition set_storage (cfg : NodeConf) (s : Storage) : NodeConf :=
  mkNodeConf (nd_Announce cfg) (nd_Bootstrap cfg) (nd_Broadcast cfg) (nd_Connections cfg) (nd_Consensus cfg)
    (nd_HTTP cfg) (nd_Logging cfg) (nd_Pubsub cfg) (nd_Registries cfg) (Some s).
Definition no_storage (cfg : NodeConf) : bool :=
  match nd_Storage cfg with None => true | Some s => bool_decide (st_Type s = []) end.
Definition LoadNode (fs : FS) (p : path) : error + NodeConf :=
  match load fs p with
  | inl e => inl e
  | inr cfg => inr (if no_storage cfg then set_storage cfg (mkStorage (lit "memstore")) else cfg)
  end.
End Load.
End ConfigFiles.

(** ** The topology (network.go) *)
Record tnode `{X509} := mkTnode { tn_key : bytes; tn_roots : CertPool; tn_ServerName : bytes }.
Record net_topology `{X509} := mkNetTopology {
  nt_contacts : gmap Z (list Z); nt_id : bytes; nt_name : bytes; nt_nodes : gmap Z tnode; nt_rawID : bytes;
  nt_nodeCount : Z }.

Module NetworkNew.
Section New.
Context `{X509} `{Yaml Network} `{Hasher}.

Inductive error :=
  | ZeroID | CertParse (id : Z) | CertType (id : Z) | KeyDecode (id : Z) | KeyLoad (id : Z) | KeyType (id : Z)
  | IDDecode | HashFailed | WrongID.

(** One seed node; a missing peer or key is a nil pointer. *)
Definition seed (name : bytes) (id : Z) (node : option Peer) : outcome (error + tnode) :=
  if id =? 0 then Ok (inl ZeroID)
  else
  node ← or_panic node;
  cert ← or_panic (pe_TransportCert node);
  if negb (bool_decide (pk_Type cert = lit "ecdsa")) then Ok (inl (CertType id))
  else
  match AppendCertsFromPEM (pk_Value cert) with
  | None => Ok (inl (CertParse id))
  | Some pool =>
      key ← or_panic (pe_SigningKey node);
      if negb (bool_decide (pk_Type key = lit "ed25519")) then Ok (inl (KeyType id))
      else
      match Base32.DecodeString (pk_Value key) with
      | None => Ok (inl (KeyDecode id))
      | Some pubkey =>
          match Signature.LoadPublicKey Signature.Ed25519_ pubkey with
          | inl _ => Ok (inl (KeyLoad id))
          | inr key => Ok (inr (mkTnode _ key pool (Transport.server_name id name)))
          end
      end
  end.

(** The loop over the seed nodes, in the order of the iteration. *)
Fixpoint seeds (name : bytes) (l : list (Z * option Peer)) (nodes : gmap Z tnode) : outcome (error + gmap Z tnode) :=
  match l with
  | [] => Ok (inr nodes)
  | (id, node) :: l =>
      n ←? seed name id node;
      seeds name l (<[id := n]> nodes)
  end.

(** [order] is the order in which Go iterates over the seed nodes. *)
Definition New (order : list (Z * option Peer)) (name : bytes) (cfg : Network) : outcome (error + net_topology) :=
  nodes ←? seeds name order ∅;
  match Base32.DecodeString (nw_ID cfg) with
  | None => Ok (inl IDDecode)
  | Some rawID =>
      match ConfigFiles.Hash cfg with
      | None => Ok (inl HashFailed)
      | Some expectedID =>
          if bool_decide (expectedID = rawID) then
            Ok (inr (mkNetTopology _ ∅ (nw_ID cfg) name nodes rawID (Z.of_nat (size (nw_SeedNodes cfg)))))
          else Ok (inl WrongID)
      end
  end.

(** The topology as Node.v uses it, with the keys [k] of the node. *)
Definition view `{Ed25519} (k : Signature.keypair) (t : net_topology) : @topology (Signature.node_signatures k) :=
  @mkTopology (Signature.node_signatures k) (nt_contacts t) (tn_key <$> nt_nodes t) (nt_nodeCount t).
End New.
End NetworkNew.

(** ** Generating a network (generate.go) *)
Module Generate.
Record GConfig := mkGConfig {
  g_NetworkName : bytes; g_ConfigRoot : list (list Z); g_Registry : bytes; g_RoundInterval : Z; g_HTTPPort : Z;
  g_PubSubPort : Z; g_NodeCount : Z; g_FixedPort : bool; g_DisableHTTP : bool; g_DisablePubSub : bool }.

Inductive verror := ErrRoundIntervalZero | ErrInvalidHTTPOrPubsubPort | ErrInvalidRegistryURL | ErrInvalidNodeCount.

(** [url_ok] is whether [url.Parse] gives no error. *)
Definition Validate (url_ok : bytes → bool) (c : GConfig) : option verror :=
  if g_RoundInterval c =? 0 then Some ErrRoundIntervalZero
  else if ((g_PubSubPort c =? 0) && negb (g_DisablePubSub c)) || ((g_HTTPPort c =? 0) && negb (g_DisableHTTP c)) ||
          (g_HTTPPort c =? g_PubSubPort c) then Some ErrInvalidHTTPOrPubsubPort
  else if negb (url_ok (g_Registry c)) then Some ErrInvalidRegistryURL
  else if g_NodeCount c <? 4 then Some ErrInvalidNodeCount
  else None.

Inductive error :=
  | RootError (e : oserr) | DirError (e : Fsutil.error) | TokenError | SigningError (e : Signature.error)
  | TransportError (e : Transport.error) | FileError (e : oserr) | EncodeError.

Definition Second : Z := 1000000000.
Definition Millisecond : Z := 1000000.

Section Generate.
Context {FS : Type} `{OS FS} `{Ed25519} `{X509} `{Hasher}.
Context `{YK : Yaml KeysConf} `{YW : Yaml Network} `{YN : Yaml NodeConf}.

(** The file system afterwards, and the error.  The file is created before the value is encoded. *)
Definition writeYAML {A} `{Yaml A} (fs : FS) (p : path) (v : A) : FS * option error :=
  match os_Create fs p with
  | inl e => (fs, Some (FileError e))
  | inr fs =>
      match yaml_Marshal v with
      | None => (fs, Some EncodeError)
      | Some data => match os_Write fs p data with inl e => (fs, Some (FileError e)) | inr fs => (fs, None) end
      end
  end.

(** [rnd] are the random bytes of the signing key, [crnd] what the certificate is made from. *)
Definition genKeys (rnd : bytes) (crnd : Transport.source) (fs : FS) (p : path) (networkID : bytes) (nodeID : Z)
    : FS * (error + Signature.keypair * Transport.Cert) :=
  match Signature.GenKeyPair rnd Signature.Ed25519_ with
  | inl e => (fs, inl (SigningError e))
  | inr signingKey =>
      match Transport.GenCert crnd Transport.ECDSA networkID nodeID with
      | inl e => (fs, inl (TransportError e))
      | inr cert =>
          let cfg := mkKeys
            (Some (mkKey (Signature.String (Signature.Algorithm signingKey))
                         (Base32.EncodeToString (Signature.PublicKey signingKey))
                         (Base32.EncodeToString (Signature.PrivateKey signingKey))))
            (Some (mkKey (Transport.String (Transport.ct_Type cert)) (Transport.ct_Public cert) (Transport.ct_Private cert))) in
          let '(fs, e) := writeYAML fs p cfg in
          (fs, match e with Some e => inl e | None => inr (signingKey, cert) end)
      end
  end.

(** What the nodes of the network share. *)
Record shared_conf := mkShared {
  sh_announce : Announce; sh_bootstrap : Bootstrap; sh_registries : list Registry }.

(** [hex.EncodeToString] *)
Definition hex_digit (d : Z) : Z := if d <? 10 then 48 + d else 87 + d.
Definition hex (s : bytes) : bytes := s ≫= λ b, [hex_digit (b / 16); hex_digit (b mod 16)].

(** [token] is what [rand.Read] gives. *)
Definition shared_of (cfg : GConfig) (token : option bytes) : error + shared_conf :=
  match g_Registry cfg with
  | [] => inr (mkShared (mkAnnounce true false) (mkBootstrap [] true false ∅) [])
  | _ =>
      match token with
      | None => inl TokenError
      | Some token => inr (mkShared (mkAnnounce false true) (mkBootstrap [] false true ∅)
                             [mkRegistry (g_Registry cfg) (hex token)])
      end
  end.

Definition node_conf (sh : shared_conf) (http pubsub : ServiceEnable) : NodeConf :=
  mkNodeConf (Some (sh_announce sh)) (Some (sh_bootstrap sh))
    (Some (mkBroadcastConf (1 * Second) (2 * Second)))
    (Some (mkConnections (10 * Second) (10 * Second)))
    (Some (mkNodeConsensus (10 * Millisecond) (100 * Millisecond)
             (Some (mkRateLimit 10000 4605380978949069210 1000))))
    http
    (Some (mkLogging Level.DebugLevel Level.ErrorLevel [lit "log"; lit "blockmania.log"] [] 0 []))
    pubsub (sh_registries sh) (Some (mkStorage (lit "badger"))).

Definition node_dir (i : Z) : bytes := lit "node-" ++ dec i.

Definition peer_of (signingKey : Signature.keypair) (cert : Transport.Cert) : Peer :=
  mkPeer (Some (mkPeerKey (Signature.String (Signature.Algorithm signingKey))
                          (Base32.EncodeToString (Signature.PublicKey signingKey))))
         (Some (mkPeerKey (Transport.String (Transport.ct_Type cert)) (Transport.ct_Public cert))).

(** One node: its directory, its files and its entry among the peers. *)
Definition gen_node (cfg : GConfig) (sh : shared_conf) (rnds : Z → bytes * Transport.source) (networkDir : path)
    (i httpPort pubsubPort : Z) (fs : FS) : outcome (FS * (error + Peer)) :=
  let nodeDir := networkDir ++ [node_dir i] in
  let '(fs, e) := Fsutil.CreateUnlessExists fs nodeDir in
  match e with
  | Some e => Ok (fs, inl (DirError e))
  | None =>
      let '(fs, r) := genKeys (rnds i).1 (rnds i).2 fs (nodeDir ++ [lit "keys.yaml"]) (g_NetworkName cfg) i in
      match r with
      | inl e => Ok (fs, inl e)
      | inr (signingKey, cert) =>
          let '(fs, e) := writeYAML fs (nodeDir ++ [lit "node.yaml"])
            (node_conf sh (mkEnable (negb (g_DisableHTTP cfg)) httpPort)
                          (mkEnable (negb (g_DisablePubSub cfg)) pubsubPort)) in
          match e with
          | Some _ => Halt Fatal
          | None => Ok (fs, inr (peer_of signingKey cert))
          end
      end
  end.

(** [for i := 1; i <= int(cfg.NodeCount); i++], for the next [n] values of [i]. *)
Fixpoint gen_nodes (n : nat) (cfg : GConfig) (sh : shared_conf) (rnds : Z → bytes * Transport.source) (networkDir : path)
    (i httpPort pubsubPort : Z) (peers : gmap Z (option Peer)) (fs : FS)
    : outcome (FS * (error + gmap Z (option Peer))) :=
  match n with
  | O => Ok (fs, inr peers)
  | S n =>
      let httpPort := if negb (g_FixedPort cfg) && negb (g_DisableHTTP cfg) then u64 (httpPort + 1) else httpPort in
      let pubsubPort := if negb (g_FixedPort cfg) && negb (g_DisablePubSub cfg) then u64 (pubsubPort + 1) else pubsubPort in
      '(fs, r) ← gen_node cfg sh rnds networkDir i httpPort pubsubPort fs;
      match r with
      | inl e => Ok (fs, inl e)
      | inr peer => gen_nodes n cfg sh rnds networkDir (i + 1) httpPort pubsubPort (<[i := Some peer]> peers) fs
      end
  end.

Definition net_conf (cfg : GConfig) (id : bytes) (peers : gmap Z (option Peer)) : Network :=
  mkNetwork id
    (Some (mkNetConsensus (10 * ByteSize.MB) (100 * ByteSize.MB) (30 * Second) (g_RoundInterval cfg) 15))
    (128 * ByteSize.MB) peers.

Definition Generate (cfg : GConfig) (token : option bytes) (rnds : Z → bytes * Transport.source) (fs : FS)
    : outcome (FS * option error) :=
  let '(fs, e) := Fsutil.EnsureDir fs (g_ConfigRoot cfg) in
  match e with
  | Some e => Ok (fs, Some (RootError e))
  | None =>
  let networkDir := g_ConfigRoot cfg ++ [g_NetworkName cfg] in
  let '(fs, e) := Fsutil.CreateUnlessExists fs networkDir in
  match e with
  | Some e => Ok (fs, Some (DirError e))
  | None =>
  match shared_of cfg token with
  | inl e => Ok (fs, Some e)
  | inr sh =>
  '(fs, r) ← gen_nodes (Z.to_nat (i64 (g_NodeCount cfg))) cfg sh rnds networkDir 1 (g_HTTPPort cfg) (g_PubSubPort cfg) ∅ fs;
  match r with
  | inl e => Ok (fs, Some e)
  | inr peers =>
  match ConfigFiles.Hash (net_conf cfg [] peers) with
  | None => Halt Fatal
  | Some networkID =>
      let '(fs, e) := writeYAML fs (networkDir ++ [lit "network.yaml"])
                        (net_conf cfg (Base32.EncodeToString networkID) peers) in
      match e with Some _ => Halt Fatal | None => Ok (fs, None) end
  end end end end end.
End Generate.
End Generate.
