(* ===== verification/Startup.v ===== *)
(** * Starting a node (src/node/load_configuration.go, src/node/node.go, src/node/announce.go,
    src/cmd/blockmania/run.go)

    What [run] does before the goroutines of the node start: it reads the files, builds the
    topology, the keys, the peers and the configuration of the broadcast service, and announces
    the node.  The goroutines themselves are in Node.v and Peers.v. *)

From stdpp Require Import strings.
From S2P Require Import Prelude Messages Config Base32 Kv Broadcast Node Keys Files Setup.

(** ** Reading the configuration *)
Record Config := mkNodeConfig {
  cf_Directory : list (list Z); cf_Keys : KeysConf; cf_Network : Network; cf_NetworkName : bytes; cf_NodeID : Z;
  cf_Node : NodeConf }.

(** ** Free ports (src/internal/freeport/freeport.go) *)
Module Freeport.
Section Freeport.
Context (resolve : bytes → option bytes) (listen : bytes → option Z).
(** The port of a listener on any port of the host, which is closed again. *)
Definition TCP (host : bytes) : option Z := addr ← resolve (host ++ lit ":0"); listen addr.
Definition UDP (host : bytes) : option Z := addr ← resolve (host ++ lit ":0"); listen addr.
End Freeport.
End Freeport.

Module Startup.
Section Load.
Context {FS : Type} `{OS FS} `{YK : Yaml KeysConf} `{YW : Yaml Network} `{YN : Yaml NodeConf}.

Inductive lerror :=
  | NoRoot | RootInaccessible (e : oserr) | NetworkFile (e : ConfigFiles.error) | NodeFile (e : ConfigFiles.error)
  | KeysFile (e : ConfigFiles.error).

(** [runtimeRoot] is already expanded; [None] when it is the empty string. *)
Definition LoadConfiguration (fs : FS) (networkName : bytes) (configRoot : path) (runtimeRoot : option path) (nodeID : Z)
    : lerror + Config :=
  match os_Stat fs configRoot with
  | inl NotExist => inl NoRoot
  | inl e => inl (RootInaccessible e)
  | inr _ =>
      let netPath := configRoot ++ [networkName] in
      match ConfigFiles.LoadNetwork fs (netPath ++ [lit "network.yaml"]) with
      | inl e => inl (NetworkFile e)
      | inr netCfg =>
          let nodeDir := lit "node-" ++ dec nodeID in
          let nodePath := netPath ++ [nodeDir] in
          match ConfigFiles.LoadNode fs (nodePath ++ [lit "node.yaml"]) with
          | inl e => inl (NodeFile e)
          | inr nodeCfg =>
              match ConfigFiles.LoadKeys fs (nodePath ++ [lit "keys.yaml"]) with
              | inl e => inl (KeysFile e)
              | inr keys =>
                  let root := default configRoot runtimeRoot in
                  inr (mkNodeConfig (root ++ [networkName; nodeDir]) keys netCfg networkName nodeID nodeCfg)
              end
          end
      end
  end.

(** ** The runtime directory *)
Definition createDir (fs : FS) (p : path) : FS * option oserr :=
  match os_Stat fs p with
  | inl NotExist => match os_MkdirAll fs p with inl e => (fs, Some e) | inr fs => (fs, None) end
  | inl e => (fs, Some e)
  | inr _ => (fs, None)
  end.

Inductive derror := DirectoryMissing | DirFailed (e : oserr).

(** The directory, and the log file that is opened with its level; [opens] is whether it can be. *)
Definition EnsureRuntimeDirs (opens : bool) (fs : FS) (cfg : Config) : outcome (FS * (derror + path * option (path * Z))) :=
  match cf_Directory cfg with
  | [] => Ok (fs, inl DirectoryMissing)
  | _ =>
      match os_Abs fs (cf_Directory cfg) with
      | inl e => Ok (fs, inl (DirFailed e))
      | inr dir =>
          let '(fs, e) := createDir fs dir in
          match e with
          | Some e => Ok (fs, inl (DirFailed e))
          | None =>
              logging ← or_panic (nd_Logging (cf_Node cfg));
              if (Level.DebugLevel <=? lg_FileLevel logging) && negb (bool_decide (lg_FilePath logging = [])) then
                let logfile := dir ++ lg_FilePath logging in
                let '(fs, e) := createDir fs (take (length logfile - 1) logfile) in
                match e with
                | Some e => Ok (fs, inl (DirFailed e))
                | None => if opens then Ok (fs, inr (dir, Some (logfile, lg_FileLevel logging))) else Halt Fatal
                end
              else Ok (fs, inr (dir, None))
          end
      end
  end.
End Load.

(** The levels of the command line; [None]: an unknown one.  [warn] and [stacktrace] cannot be asked for. *)
Definition flag_level (flag : bytes) : option Z :=
  if bool_decide (flag = lit "debug") then Some Level.DebugLevel
  else if bool_decide (flag = lit "error") then Some Level.ErrorLevel
  else if bool_decide (flag = lit "fatal") then Some Level.FatalLevel
  else if bool_decide (flag = lit "info") then Some Level.InfoLevel
  else None.

(** ** Run: from the configuration to the node *)

(** What [Run] passes to the broadcast service and keeps in the server. *)
Record setup := mkSetup {
  su_key : Signature.keypair; su_keys : gmap Z (list Z); su_maxPayload : Z; su_peers : list Z; su_nodeCount : Z;
  su_contacts : gmap Z (list Z); su_refSizeLimit : Z; su_txSizeLimit : Z; su_initialRate : Z; su_nonceExpiration : Z;
  su_readTimeout : Z; su_writeTimeout : Z; su_bootstrap : Bootstrap; su_port : Z }.

Inductive rerror :=
  | TopologyError (e : NetworkNew.error) | CertLoad | PublicDecode | PrivateDecode | KeyLoadError (e : Signature.error)
  | KeyTypeError | NoPort | NoPeers | PayloadOverflow | LimitOverflow | NoStore | NoListener | AnnounceFailed.

Section Run.
Context `{Ed25519} `{X509} `{Hasher} `{YW : Yaml Network}.

(** [static] are the addresses of [Bootstrap.Static] in the order of the iteration, [port] is the free
    port and [created] whether the database of the broadcast service could be opened. *)
Definition run_setup (order : list (Z * option Peer)) (static : list (Z * bytes)) (port : option Z) (created : bool)
    (cfg : Config) : outcome (rerror + setup) :=
  r ← NetworkNew.New order (cf_NetworkName cfg) (cf_Network cfg);
  match r with
  | inl e => Ok (inl (TopologyError e))
  | inr top =>
  bootstrap ← or_panic (nd_Bootstrap (cf_Node cfg));
  let contacts := foldl (λ c '(id, addr), <[id := addr]> c) (nt_contacts top) static in
  match port with
  | None => Ok (inl NoPort)
  | Some port =>
  cert ← or_panic (ks_TransportCert (cf_Keys cfg));
  match X509KeyPair (k_Public cert) (k_Private cert) with
  | None => Ok (inl CertLoad)
  | Some _ =>
  signing ← or_panic (ks_SigningKey (cf_Keys cfg));
  if negb (bool_decide (k_Type signing = lit "ed25519")) then Ok (inl KeyTypeError)
  else
  match Base32.DecodeString (k_Public signing) with
  | None => Ok (inl PublicDecode)
  | Some pubkey =>
  match Base32.DecodeString (k_Private signing) with
  | None => Ok (inl PrivateDecode)
  | Some privkey =>
  match Signature.LoadKeyPair Signature.Ed25519_ (pubkey ++ privkey) with
  | inl e => Ok (inl (KeyLoadError e))
  | inr key =>
  let t := NetworkNew.view key top in
  ps ← peers_of (cf_NodeID cfg) (Topology.Nodes t);
  match ps with
  | None => Ok (inl NoPeers)
  | Some peers =>
  match ByteSize.Int (nw_MaxPayload (cf_Network cfg)) with
  | None => Ok (inl PayloadOverflow)
  | Some maxPayload =>
  if negb created then Ok (inl NoStore)
  else
  consensus ← or_panic (nw_Consensus (cf_Network cfg));
  match ByteSize.Int (nc_BlockReferencesSizeLimit consensus), ByteSize.Int (nc_BlockTransactionsSizeLimit consensus) with
  | Some refs, Some txs =>
  nodeConsensus ← or_panic (nd_Consensus (cf_Node cfg));
  connections ← or_panic (nd_Connections (cf_Node cfg));
  rates ← or_panic (no_RateLimit nodeConsensus);
  Ok (inr (mkSetup key (Topology.SeedPublicKeys t) maxPayload peers (Topology.TotalNodes t) contacts refs txs
             (rl_InitialRate rates) (nc_NonceExpiration consensus) (cn_ReadTimeout connections)
             (cn_WriteTimeout connections) bootstrap port))
  | _, _ => Ok (inl LimitOverflow)
  end end end end end end end end end.
End Run.

(** ** Announcing the node *)
(** The instance and the service registered by [announceMDNS]. *)
Definition mdns_instance (nodeID : Z) : bytes := lit "_" ++ dec nodeID.
Definition mdns_service (networkID : bytes) : bytes := lit "_" ++ ToLower networkID ++ lit "._chainspace".

(** The requests to a registry, of [BootstrapRegistries] and of [announceRegistry]: where to, and the body. *)
Definition quoted (s : bytes) : bytes := [34] ++ s ++ [34].
Definition auth_text (r : Registry) (networkID : bytes) : bytes :=
  quoted (lit "auth") ++ lit ": {" ++ quoted (lit "networkId") ++ lit ": " ++ quoted networkID ++ lit ", " ++
  quoted (lit "token") ++ lit ": " ++ quoted (rg_Token r) ++ lit "}".
Definition contacts_request (r : Registry) (networkID : bytes) : bytes * bytes :=
  (ConfigFiles.URL r ++ lit "contacts.list", lit "{" ++ auth_text r networkID ++ lit "}").
Definition announce_request (r : Registry) (networkID : bytes) (nodeID port : Z) : bytes * bytes :=
  (ConfigFiles.URL r ++ lit "contacts.set",
   lit "{" ++ auth_text r networkID ++ lit ", " ++ quoted (lit "config") ++ lit ": {" ++
   quoted (lit "nodeId") ++ lit ": " ++ dec nodeID ++ lit ", " ++ quoted (lit "port") ++ lit ": " ++ int_text port ++ lit "}}").

(** What comes of a request: the endpoint is not an URL and there is no request to send, whose
    context is set all the same; no answer; or an answer with its status. *)
Inductive answered := BadEndpoint | NoAnswer | Status (status : Z).

(** The registries in turn, up to the first that fails.  The requests made, and the error. *)
Inductive aerror := CallFailed | BadStatus (status : Z).
Fixpoint announceRegistry (answer : bytes * bytes → answered) (registries : list Registry) (networkID : bytes)
    (nodeID port : Z) : outcome (list (bytes * bytes) * option aerror) :=
  match registries with
  | [] => Ok ([], None)
  | v :: registries =>
      let req := announce_request v networkID nodeID port in
      match answer req with
      | BadEndpoint => Halt Panic
      | NoAnswer => Ok ([req], Some CallFailed)
      | Status status =>
          if negb (status =? 204) then Ok ([req], Some (BadStatus status))
          else '(reqs, e) ← announceRegistry answer registries networkID nodeID port; Ok (req :: reqs, e)
      end
  end.

(** [zeroconf.Register]: the instance, the service and the port, or an error. *)
Definition announceMDNS (registers : bool) (networkID : bytes) (nodeID port : Z) : option (bytes * bytes * Z) :=
  if registers then Some (mdns_instance nodeID, mdns_service networkID, port) else None.

(** ** The whole of [Run] *)

(** What the system answers: the address of a text, the port when one listens on an address with port 0,
    whether the database could be opened, whether the node can listen on the port, whether mDNS
    takes the registration, and the status of a request to a registry. *)
Record system := mkSystem {
  sy_resolve : bytes → option bytes; sy_listen : bytes → option Z; sy_created : bool; sy_listens : bool;
  sy_registers : bool; sy_answer : bytes * bytes → answered }.

(** The port that [node.Run] asks for. *)
Definition sy_port (sys : system) : option Z := Freeport.TCP (sy_resolve sys) (sy_listen sys) [].

(** A node that runs: its setup, the service it is registered as, and the requests to the registries. *)
Record node_up := mkUp {
  up_setup : setup; up_mdns : option (bytes * bytes * Z); up_requests : list (bytes * bytes) }.

Section Run2.
Context `{Ed25519} `{X509} `{Hasher} `{YW : Yaml Network}.

Definition Run (order : list (Z * option Peer)) (static : list (Z * bytes)) (sys : system) (cfg : Config)
    : outcome (rerror + node_up) :=
  su ←? run_setup order static (sy_port sys) (sy_created sys) cfg;
  if negb (sy_listens sys) then Ok (inl NoListener)
  else
  announce ← or_panic (nd_Announce (cf_Node cfg));
  let id := nw_ID (cf_Network cfg) in
  let mdns := if an_MDNS announce then announceMDNS (sy_registers sys) id (cf_NodeID cfg) (su_port su) else None in
  if an_MDNS announce && bool_decide (mdns = None) then Ok (inl AnnounceFailed)
  else
  if an_Registry announce then
    '(reqs, e) ← announceRegistry (sy_answer sys) (nd_Registries (cf_Node cfg)) id (cf_NodeID cfg) (su_port su);
    match e with Some _ => Ok (inl AnnounceFailed) | None => Ok (inr (mkUp su mdns reqs)) end
  else Ok (inr (mkUp su mdns [])).
End Run2.
End Startup.
