(* ===== verification/SetupProps.v ===== *)
(** * A generated network can be started

    [Generate] writes the files of a network; every node of it reads them, accepts the network's
    identifier and the keys of all nodes, and gets the others as its peers.  Addresses
    that are announced are found. *)

From stdpp Require Import strings.
From S2P Require Import Prelude Messages Config Base32 Block Graph Kv Broadcast Node NodeProps Keys Files Setup Startup.
Import Generate.

#[local] Set Default Proof Using "Type*".

(** ** Files *)
Section FilesProps.
Context {FS : Type} `{OSLaws FS}.

(** From [fs] to [fs'], files outside of [P] keep their contents, and what exists stays. *)
Record kept (P : path → Prop) (fs fs' : FS) : Prop := {
  kp_read : ∀ p data, ¬ P p → os_ReadFile fs p = inr data → os_ReadFile fs' p = inr data;
  kp_stat : ∀ p, os_Stat fs p = inr tt → os_Stat fs' p = inr tt }.

Lemma kept_trans (P Q R : path → Prop) fs1 fs2 fs3 :
  kept P fs1 fs2 → kept Q fs2 fs3 → (∀ p, P p ∨ Q p → R p) → kept R fs1 fs3.
Proof. intros [R1 S1] [R2 S2] HR. split; [|auto]. intros p data Hp Hd. apply R2; [|apply R1]; auto. Qed.
Lemma kept_refl P fs : kept P fs fs.
Proof. by split. Qed.

Lemma mkdir_kept P fs p fs' : os_Mkdir fs p = inr fs' → kept P fs fs'.
Proof. intros Hm. split; [|by eauto using os_stat_mkdir]. intros p' data _. by apply (os_mkdir_read _ p). Qed.

Lemma EnsureDir_kept P fs p fs' :
  Fsutil.EnsureDir fs p = (fs', None) → kept P fs fs' ∧ os_Stat fs' p = inr tt.
Proof.
  unfold Fsutil.EnsureDir. destruct (os_Stat fs p) as [[]|[]] eqn:E; try done.
  - destruct (os_Mkdir fs p) as [|fs1] eqn:Em; [done|]. intros [= <-].
    split; [by eapply mkdir_kept|by eapply os_mkdir_stat].
  - intros [= <-]. by split; [apply kept_refl|].
Qed.

Lemma CreateUnlessExists_kept P fs p fs' :
  Fsutil.CreateUnlessExists fs p = (fs', None) → kept P fs fs'.
Proof.
  unfold Fsutil.CreateUnlessExists. destruct (Fsutil.Exists fs p) as [[] e]; [done|].
  destruct (os_Mkdir fs p) as [|fs1] eqn:Em; [done|]. intros [= <-]. by eapply mkdir_kept.
Qed.

Lemma writeYAML_loads {A} `{YamlLaws A} fs p (v : A) fs' :
  writeYAML fs p v = (fs', None) → kept (λ p', p' = p) fs fs' ∧ ConfigFiles.load fs' p = inr v.
Proof.
  unfold writeYAML. destruct (os_Create fs p) as [|fs1] eqn:Ec; [done|].
  destruct (yaml_Marshal v) as [data|] eqn:Ey; [|done]. destruct (os_Write fs1 p data) as [|fs2] eqn:Ew; [done|].
  intros [= <-]. split.
  - split; [|by eauto using os_stat_create, os_stat_write]. intros p' d Hp Hd.
    rewrite (os_write_other _ _ _ _ _ Ew), (os_create_other _ _ _ _ Ec); auto.
  - unfold ConfigFiles.load. by rewrite (os_read_write _ _ _ _ _ Ec Ew), (yaml_round _ _ Ey).
Qed.

Lemma load_kept {A} `{Yaml A} P fs fs' p (v : A) :
  kept P fs fs' → ¬ P p → ConfigFiles.load fs p = inr v → ConfigFiles.load fs' p = inr v.
Proof.
  intros [R _] Hp. unfold ConfigFiles.load. destruct (os_ReadFile fs p) as [|data] eqn:E; [done|].
  by rewrite (R p data Hp E).
Qed.
End FilesProps.

(** ** The generated files *)
Lemma node_dir_inj i j : is_u64 i → is_u64 j → node_dir i = node_dir j → i = j.
Proof.
  unfold node_dir. intros Hi Hj E. apply app_inv_head in E. apply (f_equal ParseUint) in E.
  rewrite !ParseUint_dec in E by done. by injection E.
Qed.

Section GenerateProps.
Context {FS : Type} `{OSLaws FS} `{Ed25519Laws} `{X509Laws} `{Hasher}.
Context `{YK : Yaml KeysConf} `{!YamlLaws KeysConf} `{YW : Yaml Network} `{!YamlLaws Network}.
Context `{YN : Yaml NodeConf} `{!YamlLaws NodeConf}.

(** The keys of a node, as [genKeys] writes them. *)
Definition keys_conf (k : Signature.keypair) (cert : Transport.Cert) : KeysConf :=
  mkKeys (Some (mkKey (lit "ed25519") (Base32.EncodeToString (Signature.PublicKey k))
                      (Base32.EncodeToString (Signature.PrivateKey k))))
         (Some (mkKey (Transport.String (Transport.ct_Type cert)) (Transport.ct_Public cert) (Transport.ct_Private cert))).

(** What is on disk for node [i] of a network. *)
Record node_files (cfg : GConfig) (sh : shared_conf) (networkDir : path) (fs : FS) (i : Z)
    (k : Signature.keypair) (cert : Transport.Cert) : Prop := {
  nf_key : ∃ rnd, Signature.GenKeyPair rnd Signature.Ed25519_ = inr k;
  nf_cert : ∃ rnd, Transport.GenCert rnd Transport.ECDSA (g_NetworkName cfg) i = inr cert;
  nf_keys : ConfigFiles.load fs (networkDir ++ [node_dir i; lit "keys.yaml"]) = inr (keys_conf k cert);
  nf_node : ∃ http pubsub, ConfigFiles.load fs (networkDir ++ [node_dir i; lit "node.yaml"]) = inr (node_conf sh http pubsub) }.

(** The files of node [i]. *)
Definition own_file (networkDir : path) (i : Z) (p : path) : Prop :=
  p = networkDir ++ [node_dir i; lit "keys.yaml"] ∨ p = networkDir ++ [node_dir i; lit "node.yaml"].

Lemma gen_node_files cfg sh rnds networkDir i http pubsub fs fs' peer :
  gen_node cfg sh rnds networkDir i http pubsub fs = Ok (fs', inr peer) →
  kept (own_file networkDir i) fs fs' ∧
  ∃ k cert, peer = peer_of k cert ∧ node_files cfg sh networkDir fs' i k cert.
Proof.
  unfold gen_node. destruct (Fsutil.CreateUnlessExists _ _) as [fs1 [e|]] eqn:E1; [done|].
  apply (CreateUnlessExists_kept (own_file networkDir i)) in E1.
  unfold genKeys. destruct (Signature.GenKeyPair _ _) as [|k] eqn:Ek; [done|].
  destruct (Transport.GenCert _ _ _ _) as [|cert] eqn:Ec; [done|].
  destruct (writeYAML fs1 _ _) as [fs2 [e|]] eqn:E2; [done|].
  destruct (writeYAML fs2 _ _) as [fs3 [e|]] eqn:E3; [done|]. intros [= <- <-].
  rewrite <- app_assoc in E2, E3. cbn [app] in E2, E3.
  apply writeYAML_loads in E2 as [K2 L2], E3 as [K3 L3]. split.
  - eapply kept_trans; [exact E1|eapply kept_trans; [exact K2|exact K3|by intros p Hp; exact Hp]|].
    unfold own_file. tauto.
  - exists k, cert. split; [done|]. split; [eauto..| |eauto]. eapply load_kept; [exact K3| |exact L2].
    intros E. apply app_inv_head in E. done.
Qed.

Lemma own_file_inj networkDir i j p :
  is_u64 i → is_u64 j → own_file networkDir i p → own_file networkDir j p → i = j.
Proof.
  intros Hi Hj [->| ->] [E|E]; apply app_inv_head in E;
    apply (node_dir_inj i j Hi Hj); exact (f_equal (default []) (f_equal head E)).
Qed.

Lemma node_files_kept cfg sh networkDir P fs fs' i k cert :
  kept P fs fs' → (∀ p, own_file networkDir i p → ¬ P p) →
  node_files cfg sh networkDir fs i k cert → node_files cfg sh networkDir fs' i k cert.
Proof.
  intros HK HP [K C L (http & pubsub & N)]. split; [done..| |].
  - eapply load_kept; [exact HK| |exact L]. apply HP. by left.
  - exists http, pubsub. eapply load_kept; [exact HK| |exact N]. apply HP. by right.
Qed.

Lemma gen_nodes_files cfg sh rnds networkDir n : ∀ i http pubsub peers fs fs' peers',
  0 ≤ i → i + Z.of_nat n < 2 ^ 64 →
  gen_nodes n cfg sh rnds networkDir i http pubsub peers fs = Ok (fs', inr peers') →
  kept (λ p, ∃ j, i ≤ j < i + Z.of_nat n ∧ own_file networkDir j p) fs fs' ∧
  (∀ j, ¬ i ≤ j < i + Z.of_nat n → peers' !! j = peers !! j) ∧
  (∀ j, i ≤ j < i + Z.of_nat n → ∃ k cert,
     peers' !! j = Some (Some (peer_of k cert)) ∧ node_files cfg sh networkDir fs' j k cert).
Proof.
  induction n as [|n IH]; intros i http pubsub peers fs fs' peers' Hi Hn Hg; cbn [gen_nodes] in Hg.
  { simplify_eq. split_and!; [apply kept_refl|done|lia]. }
  cbv zeta in Hg. apply bind_Ok in Hg as ([fs1 [e|peer]] & Hg1 & Hg); [done|].
  apply gen_node_files in Hg1 as (K1 & k & cert & -> & NF). apply IH in Hg as (K2 & HO & HI); [|lia..].
  split_and!.
  - eapply kept_trans; [exact K1|exact K2|]. intros p [Hp|(j & Hj & Hp)]; [exists i|exists j]; split; (done || lia).
  - intros j Hj. rewrite HO, lookup_insert_ne by lia. done.
  - intros j Hj. destruct (decide (j = i)) as [->|Hne]; [|apply HI; lia]. exists k, cert. split.
    + rewrite HO by lia. apply lookup_insert_eq.
    + eapply node_files_kept; [exact K2| |exact NF]. intros p Hp (j' & Hj' & Hp').
      assert (i = j'); [|lia]. eapply own_file_inj; [..|exact Hp|exact Hp']; unfold is_u64; lia.
Qed.

(** The whole network. *)
Lemma Generate_files cfg token rnds fs fs' :
  0 ≤ g_NodeCount cfg < 2 ^ 63 → Generate cfg token rnds fs = Ok (fs', None) →
  let networkDir := g_ConfigRoot cfg ++ [g_NetworkName cfg] in
  os_Stat fs' (g_ConfigRoot cfg) = inr tt ∧
  ∃ sh peers id, shared_of cfg token = inr sh ∧ ConfigFiles.Hash (net_conf cfg [] peers) = Some id ∧
    ConfigFiles.load fs' (networkDir ++ [lit "network.yaml"]) = inr (net_conf cfg (Base32.EncodeToString id) peers) ∧
    ∀ j, if decide (1 ≤ j ≤ g_NodeCount cfg)
         then ∃ k cert, peers !! j = Some (Some (peer_of k cert)) ∧ node_files cfg sh networkDir fs' j k cert
         else peers !! j = None.
Proof.
  intros Hn Hg networkDir. unfold Generate in Hg.
  destruct (Fsutil.EnsureDir _ _) as [fs1 [e|]] eqn:E1; [done|]. fold networkDir in Hg.
  destruct (Fsutil.CreateUnlessExists _ _) as [fs2 [e|]] eqn:E2; [done|].
  destruct (shared_of cfg token) as [|sh]; [done|].
  apply bind_Ok in Hg as ([fs3 [e|peers]] & Hg3 & Hg); [done|].
  destruct (ConfigFiles.Hash _) as [id|] eqn:Eid; [|done].
  destruct (writeYAML _ _ _) as [fs4 [e|]] eqn:E4; [done|]. injection Hg as <-.
  apply (EnsureDir_kept (λ _, False)) in E1 as [_ S1]. apply (CreateUnlessExists_kept (λ _, False)) in E2 as [_ S2].
  assert (i64 (g_NodeCount cfg) = g_NodeCount cfg) as En by (apply i64_small; lia).
  rewrite En in Hg3. apply gen_nodes_files in Hg3 as ([_ S3] & HO & HI); [|lia..]. rewrite Z2Nat.id in HO, HI by lia.
  apply writeYAML_loads in E4 as [K4 L4]. split; [by apply K4, S3, S2|].
  exists sh, peers, id. split_and!; [done..|]. intros j. case_decide as Hj.
  - destruct (HI j) as (k & cert & Hp & NF); [lia|]. exists k, cert. split; [done|].
    eapply node_files_kept; [exact K4| |exact NF]. intros p [->| ->] E; apply app_inv_head in E; done.
  - rewrite HO by lia. apply lookup_empty.
Qed.

(** ** The topology *)
Lemma seed_generated name id k cert networkName :
  id ≠ 0 → (∃ rnd, Signature.GenKeyPair rnd Signature.Ed25519_ = inr k) →
  (∃ rnd, Transport.GenCert rnd Transport.ECDSA networkName id = inr cert) →
  ∃ n, NetworkNew.seed name id (Some (peer_of k cert)) = Ok (inr n) ∧ tn_key n = Signature.PublicKey k.
Proof.
  intros Hid [rnd Hk] [crnd Hc]. apply Signature.generated_keys_load in Hk as (_ & _ & Hl & _ & Hb & _).
  apply Transport.generated_cert_loads in Hc as (Ht & [pool Hp] & _).
  unfold NetworkNew.seed. rewrite (proj2 (Z.eqb_neq _ _) Hid). simpl. rewrite Ht. simpl. rewrite Hp. simpl.
  rewrite Base32.DecodeString_EncodeToString, Hl by done. eauto.
Qed.

Lemma seeds_all name (K : Z → bytes) l : ∀ nodes,
  (∀ id node, (id, node) ∈ l → ∃ n, NetworkNew.seed name id node = Ok (inr n) ∧ tn_key n = K id) →
  ∃ nodes', NetworkNew.seeds name l nodes = Ok (inr nodes') ∧
    ∀ j, tn_key <$> nodes' !! j = if decide (j ∈ l.*1) then Some (K j) else tn_key <$> nodes !! j.
Proof.
  induction l as [|[id node] l IH]; intros nodes Hl; cbn [NetworkNew.seeds].
  { exists nodes. split; [done|]. intros j. by rewrite decide_False by (by apply not_elem_of_nil). }
  destruct (Hl id node) as (n & Hs & Hk); [left|]. rewrite Hs. cbn [mbind outcome_bind].
  destruct (IH (<[id := n]> nodes)) as (nodes' & Hn & HK); [intros; apply Hl; by right|].
  exists nodes'. split; [done|]. intros j. rewrite HK. cbn [fmap list_fmap fst].
  destruct (decide (j = id)) as [->|Hne].
  - rewrite (decide_True (P := id ∈ id :: l.*1)) by left. case_decide; [done|]. by rewrite lookup_insert_eq, <- Hk.
  - rewrite lookup_insert_ne by done. apply decide_ext. rewrite elem_of_cons. naive_solver.
Qed.

(** The keys of the nodes, as one function. *)
Lemma chosen_keys cfg sh networkDir fs (peers : gmap Z (option Peer)) :
  (∀ j, if decide (1 ≤ j ≤ g_NodeCount cfg)
        then ∃ k cert, peers !! j = Some (Some (peer_of k cert)) ∧ node_files cfg sh networkDir fs j k cert
        else peers !! j = None) →
  ∃ (keys : Z → Signature.keypair * Transport.Cert), ∀ j, 1 ≤ j ≤ g_NodeCount cfg →
    peers !! j = Some (Some (peer_of (keys j).1 (keys j).2)) ∧ node_files cfg sh networkDir fs j (keys j).1 (keys j).2.
Proof.
  intros HP. pose (inh := populate (Signature.mkPair [] [], Transport.mkCert [] [] 0) : Inhabited (Signature.keypair * Transport.Cert)).
  destruct (list_choice (λ j (kc : Signature.keypair * Transport.Cert),
    peers !! j = Some (Some (peer_of kc.1 kc.2)) ∧ node_files cfg sh networkDir fs j kc.1 kc.2) (seqZ 1 (g_NodeCount cfg))) as [f Hf].
  - intros j Hj%elem_of_seqZ. specialize (HP j). rewrite decide_True in HP by lia.
    destruct HP as (k & cert & HP). by exists (k, cert).
  - exists f. intros j Hj. apply Hf, elem_of_seqZ. lia.
Qed.

Lemma peers_size n (peers : gmap Z (option Peer)) :
  0 ≤ n → (∀ j, is_Some (peers !! j) ↔ 1 ≤ j ≤ n) → Z.of_nat (size peers) = n.
Proof.
  intros Hn HP. assert (dom peers = list_to_set (seqZ 1 n)) as E.
  { apply set_eq. intros j. rewrite elem_of_dom, elem_of_list_to_set, elem_of_seqZ, HP. lia. }
  rewrite <- size_dom, E, size_list_to_set by apply NoDup_seqZ. rewrite length_seqZ. lia.
Qed.

Lemma New_generated order cfg id peers (keys : Z → Signature.keypair * Transport.Cert) sh networkDir fs :
  is_bytes id → 0 ≤ g_NodeCount cfg → ConfigFiles.Hash (net_conf cfg [] peers) = Some id →
  (∀ j, ¬ 1 ≤ j ≤ g_NodeCount cfg → peers !! j = None) →
  (∀ j, 1 ≤ j ≤ g_NodeCount cfg → peers !! j = Some (Some (peer_of (keys j).1 (keys j).2)) ∧
        node_files cfg sh networkDir fs j (keys j).1 (keys j).2) →
  order ≡ₚ map_to_list peers →
  ∃ top, NetworkNew.New order (g_NetworkName cfg) (net_conf cfg (Base32.EncodeToString id) peers) = Ok (inr top) ∧
    nt_nodeCount top = g_NodeCount cfg ∧ nt_contacts top = ∅ ∧
    ∀ j, tn_key <$> nt_nodes top !! j =
         if decide (1 ≤ j ≤ g_NodeCount cfg) then Some (Signature.PublicKey (keys j).1) else None.
Proof.
  intros Hb Hn Hh HN HP Ho.
  assert (∀ j, is_Some (peers !! j) ↔ 1 ≤ j ≤ g_NodeCount cfg) as HS.
  { intros j. destruct (decide (1 ≤ j ≤ g_NodeCount cfg)) as [Hj|Hj]; [destruct (HP j Hj) as [-> _]; naive_solver|].
    rewrite HN by done. split; [by intros []|done]. }
  destruct (seeds_all (g_NetworkName cfg) (λ j, Signature.PublicKey (keys j).1) order ∅) as (nodes & Hs & HK).
  { intros j node Hin. rewrite Ho in Hin. apply elem_of_map_to_list in Hin.
    assert (1 ≤ j ≤ g_NodeCount cfg) as Hj by (apply HS; eauto).
    destruct (HP j Hj) as [Hj' [K C _ _]]. simplify_eq. eapply seed_generated; [lia|done..]. }
  unfold NetworkNew.New. rewrite Hs. cbn [mbind outcome_bind nw_ID net_conf].
  rewrite Base32.DecodeString_EncodeToString by done.
  change (ConfigFiles.Hash (net_conf cfg (Base32.EncodeToString id) peers)) with (ConfigFiles.Hash (net_conf cfg [] peers)).
  rewrite Hh, bool_decide_eq_true_2 by done. eexists. split; [done|]. cbn [nt_nodeCount nt_contacts nt_nodes nw_SeedNodes net_conf].
  split_and!; [by apply peers_size|done|]. intros j. rewrite HK, lookup_empty. apply decide_ext.
  rewrite Ho, <- HS. rewrite list_elem_of_fmap. split.
  - intros ([j' node] & -> & Hin%elem_of_map_to_list). eauto.
  - intros [node Hj]. exists (j, node). split; [done|]. by apply elem_of_map_to_list.
Qed.

(** ** Starting a node *)
Lemma run_setup_generated order cfg id peers (keys : Z → Signature.keypair * Transport.Cert) sh networkDir fs i c http pubsub port :
  is_bytes id → 1 ≤ i ≤ g_NodeCount cfg → g_NodeCount cfg < 2 ^ 64 →
  ConfigFiles.Hash (net_conf cfg [] peers) = Some id →
  (∀ j, ¬ 1 ≤ j ≤ g_NodeCount cfg → peers !! j = None) →
  (∀ j, 1 ≤ j ≤ g_NodeCount cfg → peers !! j = Some (Some (peer_of (keys j).1 (keys j).2)) ∧
        node_files cfg sh networkDir fs j (keys j).1 (keys j).2) →
  order ≡ₚ map_to_list peers →
  cf_NetworkName c = g_NetworkName cfg → cf_Network c = net_conf cfg (Base32.EncodeToString id) peers →
  cf_NodeID c = i → cf_Keys c = keys_conf (keys i).1 (keys i).2 → cf_Node c = node_conf sh http pubsub →
  ∃ su, Startup.run_setup order [] (Some port) true c = Ok (inr su) ∧ Startup.su_key su = (keys i).1 ∧
    Startup.su_port su = port ∧
    Startup.su_peers su = filter (λ p, p ≠ i) (seqZ 1 (g_NodeCount cfg)) ∧ Startup.su_nodeCount su = g_NodeCount cfg ∧
    ∀ j, Startup.su_keys su !! j =
         if decide (1 ≤ j ≤ g_NodeCount cfg) then Some (Signature.PublicKey (keys j).1) else None.
Proof.
  intros Hb Hi Hn Hh HN HP Ho C1 C2 C3 C4 C5.
  destruct (New_generated order cfg id peers keys sh networkDir fs) as (top & HT & TC & _ & TK); try done; [lia|].
  destruct (HP i Hi) as [_ [[rnd K] [crnd C] _ _]].
  pose proof (Signature.generated_keys_load _ _ K) as (L1 & _ & _ & _ & B1 & B2).
  apply Transport.generated_cert_loads in C as (_ & _ & [tc Htc]).
  unfold Startup.run_setup. rewrite C1, C2, C3, C4, C5, HT. unfold keys_conf, node_conf, net_conf.
  cbn [mbind outcome_bind or_panic nd_Bootstrap ks_TransportCert k_Public k_Private ks_SigningKey Transport.ct_Public Transport.ct_Private k_Type].
  rewrite Htc, bool_decide_eq_true_2 by done. cbn [negb].
  rewrite !Base32.DecodeString_EncodeToString, L1 by done.
  assert (tp_nodeCount (NetworkNew.view (keys i).1 top) = g_NodeCount cfg) as TN by done.
  rewrite peers_of_others by (rewrite TN; lia). rewrite TN. cbn [mbind outcome_bind nw_MaxPayload nw_Consensus or_panic].
  eexists. split; [reflexivity|]. cbn [Startup.su_key Startup.su_port Startup.su_peers Startup.su_nodeCount Startup.su_keys].
  split_and!; [done..|]. intros j. unfold Topology.SeedPublicKeys. cbn [NetworkNew.view tp_nodes]. by rewrite lookup_fmap, TK.
Qed.

(** A registry that answers as it should gets one request for each node. *)
Lemma announceRegistry_ok answer l id i port :
  (∀ req, answer req = Startup.Status 204) →
  Startup.announceRegistry answer l id i port = Ok ((λ r, Startup.announce_request r id i port) <$> l, None).
Proof. intros Ha. induction l as [|r l IH]; [done|]. cbn [Startup.announceRegistry]. by rewrite Ha, IH. Qed.

(** The system gives what is asked of it. *)
Record helpful (sys : Startup.system) (port : Z) : Prop := {
  hs_port : Startup.sy_port sys = Some port; hs_created : Startup.sy_created sys = true;
  hs_listens : Startup.sy_listens sys = true; hs_registers : Startup.sy_registers sys = true;
  hs_answer : ∀ req, Startup.sy_answer sys req = Startup.Status 204 }.

Lemma Run_generated order sys port cfg token sh c su http pubsub :
  helpful sys port → shared_of cfg token = inr sh → cf_Node c = node_conf sh http pubsub →
  Startup.run_setup order [] (Some port) true c = Ok (inr su) → Startup.su_port su = port →
  ∃ up, Startup.Run order [] sys c = Ok (inr up) ∧ Startup.up_setup up = su ∧
    if bool_decide (g_Registry cfg = [])
    then Startup.up_mdns up = Some (Startup.mdns_instance (cf_NodeID c), Startup.mdns_service (nw_ID (cf_Network c)), port)
    else ∃ t, token = Some t ∧
      Startup.up_requests up = [Startup.announce_request (mkRegistry (g_Registry cfg) (hex t)) (nw_ID (cf_Network c)) (cf_NodeID c) port].
Proof.
  intros [S1 S2 S3 S4 S5] Hsh Hn Hs Hp. unfold Startup.Run. rewrite S1, S2, S3, S4, Hs, Hn.
  cbn [mbind outcome_bind negb or_panic nd_Announce nd_Registries node_conf]. rewrite (announceRegistry_ok _ _ _ _ _ S5).
  unfold shared_of in Hsh. destruct (g_Registry cfg) as [|x reg]; [|destruct token as [t|]; [|done]];
    injection Hsh as <-; cbn; eexists; (split; [reflexivity|]); (split; [reflexivity|]); cbn; [by rewrite Hp|].
  exists t. by rewrite Hp.
Qed.

(** C27: If a valid configuration of n nodes is generated without an error, each of the nodes 1
    to n reads its files and starts on a system that gives it what it asks for: it accepts the
    network identifier, has the other nodes as its peers, knows the public keys of all nodes,
    its own signatures are valid under the key the others have for it, and it announces the port
    it listens on under the identifier all nodes share, over mDNS or at the registry with the
    shared token. *)
Theorem generated_network_starts url_ok cfg token rnds fs fs' :
  (∀ s, is_bytes (sha512_256 s)) →
  Validate url_ok cfg = None → g_NodeCount cfg < 2 ^ 63 → Generate cfg token rnds fs = Ok (fs', None) →
  let n := g_NodeCount cfg in
  ∃ (keys : Z → Signature.keypair) (id : bytes), ∀ i, 1 ≤ i ≤ n →
  ∃ c, Startup.LoadConfiguration fs' (g_NetworkName cfg) (g_ConfigRoot cfg) None i = inr c ∧
    ∀ order sys port, order ≡ₚ map_to_list (nw_SeedNodes (cf_Network c)) → helpful sys port →
    ∃ up, Startup.Run order [] sys c = Ok (inr up) ∧
      let su := Startup.up_setup up in
      Startup.su_key su = keys i ∧ Startup.su_nodeCount su = n ∧
      Startup.su_peers su = filter (λ p, p ≠ i) (seqZ 1 n) ∧
      (∀ j, Startup.su_keys su !! j = if decide (1 ≤ j ≤ n) then Some (Signature.PublicKey (keys j)) else None) ∧
      (∀ data, ed_Verify (Signature.PublicKey (keys i)) data (Signature.Sign (Startup.su_key su) data) = true) ∧
      if bool_decide (g_Registry cfg = [])
      then Startup.up_mdns up = Some (Startup.mdns_instance i, Startup.mdns_service id, port)
      else ∃ t, token = Some t ∧
        Startup.up_requests up = [Startup.announce_request (mkRegistry (g_Registry cfg) (hex t)) id i port].
Proof.
  intros HH HV Hmax HG n.
  assert (4 ≤ n) as Hmin.
  { unfold Validate in HV. repeat (case_match; try done). apply Z.ltb_ge. done. }
  apply Generate_files in HG as (S0 & sh & peers & id & Hsh & Hh & Hnet & HP); [|lia].
  assert (is_bytes id) as Hb.
  { unfold ConfigFiles.Hash in Hh. destruct (yaml_Marshal _); simpl in Hh; [|done]. injection Hh as <-. apply HH. }
  destruct (chosen_keys _ _ _ _ _ HP) as [keys HK]. exists (λ j, (keys j).1), (Base32.EncodeToString id). intros i Hi.
  destruct (HK i Hi) as [_ [K _ L (http & pubsub & N)]].
  unfold Startup.LoadConfiguration. rewrite S0. unfold ConfigFiles.LoadNetwork, ConfigFiles.LoadNode, ConfigFiles.LoadKeys.
  rewrite Hnet. fold (node_dir i). rewrite <- !app_assoc in *. cbn [app] in *. rewrite N, L.
  eexists. split; [reflexivity|]. cbn [cf_Network nw_SeedNodes net_conf]. intros order sys port Ho Hsys.
  match goal with |- context [Startup.Run _ _ _ ?c] =>
    destruct (run_setup_generated order cfg id peers keys sh (g_ConfigRoot cfg ++ [g_NetworkName cfg]) fs' i c http pubsub port)
      as (su & Hs & Hk & Hpt & Hp & Hc & Hj); try done; [lia| |
    destruct (Run_generated order sys port cfg token sh c su http pubsub) as (up & Hu & <- & Ha); try done] end.
  { intros j Hj. specialize (HP j). by rewrite decide_False in HP. }
  exists up. split; [done|]. cbn zeta. split_and!; try done. intros data. destruct K as [rnd K]. rewrite Hk.
  unfold Signature.GenKeyPair in K. rewrite Z.eqb_refl in K.
  destruct (ed_GenerateKey rnd) as [[pub priv]|] eqn:Eg; [|done]. injection K as <-. by apply (ed_verify_sign rnd).
Qed.
End GenerateProps.

(** ** What a topology has checked *)
Section NewProps.
Context `{X509} `{Yaml Network} `{Hasher}.

Lemma seed_checked name id node n :
  NetworkNew.seed name id node = Ok (inr n) →
  id ≠ 0 ∧ length (tn_key n) = 32%nat ∧ tn_ServerName n = Transport.server_name id name ∧
  ∃ peer key, node = Some peer ∧ pe_SigningKey peer = Some key ∧ Base32.DecodeString (pk_Value key) = Some (tn_key n).
Proof.
  unfold NetworkNew.seed. destruct (Z.eqb_spec id 0) as [|Hid]; [done|]. intros Hs.
  apply bind_Ok in Hs as (peer & ->%or_panic_Ok & Hs). apply bind_Ok in Hs as (cert & Hc & Hs).
  destruct (negb _); [done|]. destruct (AppendCertsFromPEM _) as [pool|]; [|done].
  apply bind_Ok in Hs as (key & Hk%or_panic_Ok & Hs). destruct (negb _); [done|].
  destruct (Base32.DecodeString _) as [pubkey|] eqn:Ed; [|done].
  unfold Signature.LoadPublicKey in Hs. rewrite Z.eqb_refl in Hs. case_bool_decide as Hl; [|done]. simpl in Hs.
  injection Hs as <-. simpl. split_and!; try done. by exists peer, key.
Qed.

Lemma seeds_checked name l : ∀ nodes nodes',
  NetworkNew.seeds name l nodes = Ok (inr nodes') →
  Forall (λ x, ∃ n, NetworkNew.seed name x.1 x.2 = Ok (inr n)) l ∧
  ∀ id n, nodes' !! id = Some n → nodes !! id = Some n ∨ ∃ node, (id, node) ∈ l ∧ NetworkNew.seed name id node = Ok (inr n).
Proof.
  induction l as [|[id node] l IH]; intros nodes nodes'; cbn [NetworkNew.seeds]; [intros [= <-]; auto|].
  intros Hs. apply bind_Ok in Hs as ([e|n] & Hn1 & Hs); [done|]. apply IH in Hs as [HF HI]. split.
  - constructor; [by exists n|done].
  - intros id' n' Hn. apply HI in Hn as [Hn|(node' & Hin & Hs)].
    + rewrite lookup_insert in Hn. case_decide; simplify_eq; [right; exists node; by split; [left|]|by left].
    + right. exists node'. by split; [right|].
Qed.

End NewProps.

(** ** Finding announced nodes *)

(** A node that is announced over mDNS is found under its number, at the address it answers from. *)
Lemma announced_node_found `{Signatures} (t : topology) i addr addrs port j :
  is_u64 i → 0 < port →
  Topology.Lookup (Topology.mdns_entry t (Startup.mdns_instance i) (addr :: addrs) port) j =
  if decide (i = j) then addr ++ lit ":" ++ dec port else Topology.Lookup t j.
Proof.
  intros Hi Hp. unfold Topology.mdns_entry, Startup.mdns_instance. change (lit "_" ++ dec i) with (95 :: dec i).
  cbn iota beta. rewrite ParseUint_dec by done.
  destruct (Z.ltb_spec 0 port); [|lia]. apply found_Lookup.
Qed.
