(* ===== verification/Discovery.v ===== *)
(** * Finding and dialling nodes (src/network/network.go)

    The addresses of nodes come from the configuration, from mDNS and from registries, in rounds that
    goroutines repeat for as long as the node runs; [Dial] connects to the address that is known.
    What the network answers is an argument: the mDNS entries of a service, responses to HTTP
    requests and TLS connections. *)

From stdpp Require Import strings.
From S2P Require Import Prelude Messages Config Base32 Kv Conn Broadcast Node NodeProps Keys Files Setup Startup SetupProps.

(** An entry of an mDNS service, with the IPv4 addresses as text. *)
Record ServiceEntry := mkEntry { en_Instance : bytes; en_AddrIPv4 : list bytes; en_Port : Z }.
(** What the goroutine of [bootstrapMDNS] receives. *)
Inductive mdns_event := Entry (e : ServiceEntry) | EntriesClosed | Expired.
Inductive mdns_error := NoResolver | BrowseFailed.

(** A response to a request: none, one whose body cannot be read, or a body. *)
Inductive response := BadURL | NoResponse | BrokenBody | Body (b : bytes).
Inductive registry_error := RegistryCall | RegistryRead | RegistryJSON.

(** [json.Unmarshal] of a list of addresses, node IDs and ports. *)
Class ContactsJSON := contacts_json : bytes → option (list (bytes * Z * Z)).

Module Discovery.
Section Discovery.
Context `{Signatures} `{ContactsJSON}.
Implicit Types t : topology.

(** ** mDNS *)
Fixpoint entries t (events : list mdns_event) : topology :=
  match events with
  | Entry e :: events => entries (Topology.mdns_entry t (en_Instance e) (en_AddrIPv4 e) (en_Port e)) events
  | _ => t
  end.

(** The service that is looked for. *)
Definition browse_service (networkID : bytes) : bytes := lit "_" ++ ToLower networkID ++ lit "._chainspace".

(** [browse service] is what the resolver sends for a service.  The topology, the service that
    is looked for, and the error. *)
Definition bootstrapMDNS (resolves browses : bool) t (networkID : bytes) (browse : bytes → list mdns_event)
    : topology * option bytes * option mdns_error :=
  if negb resolves then (t, None, Some NoResolver)
  else
    let service := browse_service networkID in
    (entries t (browse service), Some service, if browses then None else Some BrowseFailed).

(** One round a second; an error is logged. *)
Definition BootstrapMDNS t (networkID : bytes) (rounds : list (bool * bool * (bytes → list mdns_event))) : topology :=
  foldl (λ t '(resolves, browses, browse), (bootstrapMDNS resolves browses t networkID browse).1.1) t rounds.

(** ** Registries *)

(** The error of [http.NewRequest] is not looked at: without a request, setting its context panics. *)
Definition bootstrapRegistries (call : bytes * bytes → response) t (endpoint payload : bytes)
    : outcome (topology * option registry_error) :=
  match call (endpoint, payload) with
  | BadURL => Halt Panic
  | NoResponse => Ok (t, Some RegistryCall)
  | BrokenBody => Ok (t, Some RegistryRead)
  | Body b =>
      match contacts_json b with
      | None => Ok (t, Some RegistryJSON)
      | Some res => Ok (Topology.registry_answer t res, None)
      end
  end.

(** Each registry is asked again and again by its own goroutine: [rounds] are their calls in
    the order in which they happen. *)
Definition BootstrapRegistries t (networkID : bytes) (rounds : list (Registry * (bytes * bytes → response))) : outcome topology :=
  range (λ t '(r, call), let '(endpoint, auth) := Startup.contacts_request r networkID in
                         '(t, _) ← bootstrapRegistries call t endpoint auth; Ok t) t rounds.

(** ** Dialling *)
Inductive dial_error := Unknown (e : Topology.dial_error) | NotConnected.
(** [connect] is the TLS connection to a node at an address, under the certificate of the node. *)
Definition Dial (connect : Z → bytes → option netconn) t (nodeID : Z) : dial_error + conn :=
  match Topology.Dial_address t nodeID with
  | inl e => inl (Unknown e)
  | inr addr =>
      match connect nodeID addr with
      | None => inl NotConnected
      | Some nc => inr (Conn.NewConn nc)
      end
  end.

(** ** What discovery may change *)
Inductive step : topology → topology → Prop :=
  | st_static t addresses : Forall (λ x, x.2 ≠ []) addresses → step t (Topology.BootstrapStatic t addresses)
  | st_mdns t resolves browses networkID browse : step t (bootstrapMDNS resolves browses t networkID browse).1.1
  | st_registry t call endpoint payload t' e : bootstrapRegistries call t endpoint payload = Ok (t', e) → step t t'.

(** Only the addresses, and a node that has one keeps having one. *)
Record kept t t' : Prop := {
  kp_nodes : tp_nodes t' = tp_nodes t;
  kp_count : tp_nodeCount t' = tp_nodeCount t;
  kp_known : ∀ n, Topology.Lookup t n ≠ [] → Topology.Lookup t' n ≠ [] }.
#[export] Instance kept_preorder : PreOrder kept.
Proof. split; [by split|]. intros t1 t2 t3 [N1 C1 K1] [N2 C2 K2]. split; [congruence..|auto]. Qed.

Lemma found_kept t i addr : addr ≠ [] → kept t (Topology.found t i addr).
Proof.
  intros Ha. split; [unfold Topology.found; by case_bool_decide..|].
  intros n Hn. rewrite found_Lookup. by case_decide.
Qed.
Lemma address_nonempty (addr s : bytes) : addr ++ lit ":" ++ s ≠ [].
Proof. by destruct addr. Qed.

Lemma mdns_entry_kept t inst addrs port : kept t (Topology.mdns_entry t inst addrs port).
Proof.
  unfold Topology.mdns_entry. repeat (case_match; try reflexivity). apply found_kept, address_nonempty.
Qed.
Lemma entries_kept t events : kept t (entries t events).
Proof.
  revert t. induction events as [|[e| |] events IH]; intros t; try reflexivity. simpl.
  etrans; [apply mdns_entry_kept|apply IH].
Qed.
Lemma registry_answer_kept t res : kept t (Topology.registry_answer t res).
Proof.
  revert t. induction res as [|[[addr i] port] res IH]; intros t; [reflexivity|].
  etrans; [apply (found_kept t i), address_nonempty|apply IH].
Qed.
Lemma BootstrapStatic_kept t addresses :
  Forall (λ x, x.2 ≠ []) addresses → kept t (Topology.BootstrapStatic t addresses).
Proof.
  intros HF. split; [done..|]. unfold Topology.Lookup, Topology.contacts_get, Topology.BootstrapStatic. simpl.
  generalize (tp_contacts t). induction HF as [|[i addr] l Ha _ IH]; intros c n Hn; [done|]. simpl. apply IH.
  rewrite lookup_insert. by case_decide.
Qed.

Lemma step_kept t t' : step t t' → kept t t'.
Proof.
  destruct 1 as [t l HF|t resolves browses id events|t call ep pl t' e Hr].
  - by apply BootstrapStatic_kept.
  - unfold bootstrapMDNS. destruct resolves; [apply entries_kept|reflexivity].
  - unfold bootstrapRegistries in Hr. repeat (case_match; simplify_eq; try reflexivity). apply registry_answer_kept.
Qed.
Lemma steps_kept t t' : rtc step t t' → kept t t'.
Proof. induction 1 as [|x y z Hxy _ IH]; [reflexivity|]. etrans; [by apply step_kept|done]. Qed.

(** Dialling after any discovery: only nodes of the network, at a known address. *)
Theorem dial_after_discovery connect t t' n c :
  rtc step t t' → Dial connect t' n = inr c →
  Topology.SeedPublicKeys t' = Topology.SeedPublicKeys t ∧ is_Some (tp_nodes t !! n) ∧
  Topology.Lookup t' n ≠ [] ∧ ∃ nc, connect n (Topology.Lookup t' n) = Some nc ∧ c = Conn.NewConn nc.
Proof.
  intros [N _ _]%steps_kept HD. unfold Dial, Topology.Dial_address in HD. rewrite N in HD.
  destruct (tp_nodes t !! n) eqn:En; [|done]. case_bool_decide as Ha; [done|].
  destruct (connect n (Topology.Lookup t' n)) as [nc|] eqn:Ec; [|done]. injection HD as <-.
  split_and!; [done|by eexists|done|by exists nc].
Qed.

(** ** A node that announces itself *)

(** No later entry names the node. *)
Definition silent_about (i : Z) (ev : mdns_event) : Prop :=
  match ev with Entry e => ∀ s, en_Instance e = lit "_" ++ s → ParseUint s ≠ Some i | _ => True end.

Lemma mdns_entry_other t e i : silent_about i (Entry e) →
  Topology.Lookup (Topology.mdns_entry t (en_Instance e) (en_AddrIPv4 e) (en_Port e)) i = Topology.Lookup t i.
Proof.
  intros Hs. unfold Topology.mdns_entry. destruct (en_Instance e) as [|c s] eqn:Ei; [done|].
  destruct (decide (c = 95)) as [->|Hc].
  - specialize (Hs s Ei). destruct (ParseUint s) as [j|] eqn:Ep; [|done]. destruct (en_AddrIPv4 e); [done|].
    destruct (0 <? en_Port e); [|done]. rewrite found_Lookup, decide_False; [done|]. congruence.
  - by repeat case_match; simplify_eq.
Qed.
Lemma entries_other t i events : Forall (silent_about i) events → Topology.Lookup (entries t events) i = Topology.Lookup t i.
Proof.
  intros HF. revert t. induction HF as [|ev events Hs _ IH]; intros t; [done|]. destruct ev as [e| |]; [|done..].
  simpl. rewrite IH. by apply mdns_entry_other.
Qed.
Lemma entries_app t l events : entries t ((Entry <$> l) ++ events) = entries (entries t (Entry <$> l)) events.
Proof. revert t. induction l as [|e l IH]; intros t; [done|]. apply IH. Qed.

(** C28: Nodes find each other: another node of the network looks for exactly the service under
    which a node announces itself over mDNS, so that when the resolver gives the entries of that
    service, the announcement among them and no later entry that names the same node, it dials
    the node at the address and the port it announced. *)
Theorem announced_node_is_dialled connect t networkID i port inst service p addr addrs browse before_ after_ t' :
  is_u64 i → 0 < port → is_Some (tp_nodes t !! i) →
  Startup.announceMDNS true networkID i port = Some (inst, service, p) →
  browse service = (Entry <$> before_) ++ Entry (mkEntry inst (addr :: addrs) p) :: after_ →
  Forall (silent_about i) after_ →
  t' = (bootstrapMDNS true true t networkID browse).1.1 →
  (bootstrapMDNS true true t networkID browse).1.2 = Some service ∧
  Topology.Lookup t' i = addr ++ lit ":" ++ dec port ∧
  Dial connect t' i = match connect i (addr ++ lit ":" ++ dec port) with
                      | Some nc => inr (Conn.NewConn nc) | None => inl NotConnected end.
Proof.
  intros Hi Hp Hn [= <- <- <-] Hb HF ->. unfold bootstrapMDNS. cbn [negb fst snd].
  change (browse_service networkID) with (Startup.mdns_service networkID). rewrite Hb. split; [done|].
  assert (Topology.Lookup (entries t ((Entry <$> before_) ++ Entry (mkEntry (Startup.mdns_instance i) (addr :: addrs) port) :: after_)) i
    = addr ++ lit ":" ++ dec port) as EL.
  { rewrite entries_app. cbn [entries en_Instance en_AddrIPv4 en_Port]. rewrite entries_other by done.
    rewrite announced_node_found by done. by rewrite decide_True. }
  split; [exact EL|]. unfold Dial, Topology.Dial_address. rewrite EL, (kp_nodes _ _ (entries_kept t _)).
  destruct Hn as [k ->]. rewrite bool_decide_eq_false_2 by apply address_nonempty. done.
Qed.
End Discovery.
End Discovery.
