(* ===== verification/Peers.v ===== *)
(** * The loops with a peer (src/broadcast/broadcast.go: [maintainBroadcast], [fillMissingBlocks])

    One turn of each loop on a connection, and the exchange of blocks between two services. *)

From S2P Require Import Prelude Messages Block Graph Codec Kv Conn Cache Store Ext Depgraph Broadcast.
Import Broadcast.

(** What a loop does next: another turn, sleep, or reconnect. *)
Inductive turn := Again | Sleep | Retry.

Module Peers.
Section Peers.
Context {DB : Type} `{KV DB} `{Signatures} `{Hasher}.
Context `{PS : Proto SignedData} `{PB : Proto Block} `{PR : Proto BlockReference}.
Context `{PL : Proto ListBlocks} `{PG : Proto GetBlocks} `{PN : Proto GetRounds} `{PA : Proto AckBroadcast}.
Context `{PM : Proto SMessage} `{PO : Proto Hello}.
Implicit Types (s : service DB).

(** The head of the outer loop: the backoff, dialling and the hello message; [None] for the
    connection means [retry]. *)
Definition connect (initialBackoff maxBackoff limit : Z) (retry : bool) (backoff : Z)
    (dial : option netconn) (hello : option Hello) : outcome (Z * option conn) :=
  let backoff := if retry then next_backoff maxBackoff backoff else backoff in
  match dial with
  | None => Ok (backoff, None)
  | Some nc =>
      let backoff := initialBackoff in
      match hello with
      | None => Ok (backoff, None)
      | Some hello =>
          '(c, e) ← Conn.WritePayload (Conn.NewConn nc) hello limit;
          Ok (backoff, match e with Some _ => None | None => Some c end)
      end
  end.

(** One turn of the inner loop of [maintainBroadcast]. *)
Definition maintain_turn s (c : conn) (peerID : Z) : outcome (service DB * conn * turn) :=
  let limit := c_maxPayload (v_conf s) in
  '(s, m) ← broadcast_request s peerID;
  match m with
  | None => Ok (s, c, Sleep)
  | Some msg =>
      '(c, e) ← Conn.WritePayload c msg limit;
      match e with
      | Some _ => Ok (s, c, Retry)
      | None =>
          '(c, r) ← Conn.ReadMessage c limit;
          match r with
          | inl _ => Ok (s, c, Retry)
          | inr resp =>
              let '(s, ok) := broadcast_response s peerID resp in
              Ok (s, c, if ok : bool then Again else Retry)
          end
      end
  end.

(** One turn of the inner loop of [fillMissingBlocks]; the rounds it asks for are kept
    from one turn to the next. *)
Definition fill_turn s (c : conn) (peerID : Z) (rounds : option (list Z)) (latest : Z)
    : outcome (service DB * conn * option (list Z) * Z * turn) :=
  let limit := c_maxPayload (v_conf s) in
  '(s, f) ← fill_request s peerID rounds latest;
  match f with
  | FillSleep => Ok (s, c, None, latest, Sleep)
  | FillAgain => Ok (s, c, None, latest, Again)
  | FillAsk rounds latest =>
      match marshal (mkGetRounds rounds) with
      | None => Halt Fatal
      | Some data =>
          '(c, e) ← Conn.WritePayload c (mkMessage 0 [] OP_GET_ROUNDS data) limit;
          match e with
          | Some _ => Ok (s, c, Some rounds, latest, Retry)
          | None =>
              '(c, r) ← Conn.ReadMessage c limit;
              match r with
              | inl _ => Ok (s, c, Some rounds, latest, Retry)
              | inr resp =>
                  match unmarshal (m_Payload resp) with
                  | None | Some (mkList []) => Ok (s, c, Some rounds, latest, Retry)
                  | Some list =>
                      '(s, rounds) ← fill_response s peerID rounds latest (lb_Blocks list);
                      Ok (s, c, rounds, latest, Again)
                  end
              end
          end
      end
  end.

(** A turn of [maintainBroadcast] at node [a] for its peer [b], with [Handle] at the peer, without the connection between them. *)
Definition exchange (a b : Z) (p : service DB * service DB) : outcome (service DB * service DB) :=
  let '(sa, sb) := p in
  '(sa, m) ← broadcast_request sa b;
  match m with
  | None => Ok (sa, sb)
  | Some msg =>
      '(sb, r) ← Handle sb a msg;
      Ok (match r with inl _ => sa | inr resp => (broadcast_response sa b resp).1 end, sb)
  end.
Fixpoint exchanges (n : nat) (a b : Z) (p : service DB * service DB) : outcome (service DB * service DB) :=
  match n with
  | O => Ok p
  | S n => p ← exchange a b p; exchanges n a b p
  end.

(** The exchanges in which a request is made and answered, with the messages. *)
Inductive talks (a b : Z) : service DB → service DB → list (SMessage * SMessage) → service DB → service DB → Prop :=
  | talks_nil sa sb : talks a b sa sb [] sa sb
  | talks_cons sa sb sa1 msg sb1 resp ack l sa' sb' :
      broadcast_request sa b = Ok (sa1, Some msg) → Handle sb a msg = Ok (sb1, inr resp) →
      unmarshal (m_Payload resp) = Some ack →
      talks a b (markSent sa1 b (ack_Last ack)) sb1 l sa' sb' →
      talks a b sa sb ((msg, resp) :: l) sa' sb'.
End Peers.
End Peers.
