(* ===== verification/BroadcastProps.v ===== *)
(** * The broadcast service: received and created blocks *)

From S2P Require Import Prelude Messages Block Graph Codec Kv Cache Store StoreProps Ext Depgraph Broadcast.
Import Broadcast.

#[local] Set Default Proof Using "Type*".

(** ** What [processBlock] checks *)
Section Checks.
Context `{Signatures} `{Hasher}.
Context `{PS : Proto SignedData} `{PB : Proto Block} `{PR : Proto BlockReference}.
Implicit Types (keys : gmap Z PublicKey).

(** A reference signed by the node it names, for a block of another node. *)
Definition ref_ok keys (node : Z) (sref : SignedData) (id : BlockID) : Prop :=
  ∃ key, unmarshal (sd_Data sref) = Some (mkRef (Hash id) (Node id) (Round id)) ∧
    keys !! Node id = Some key ∧ Verify key (sd_Data sref) (sd_Signature sref) = true ∧ Node id ≠ node.

Lemma check_refs_iff keys node refs deps :
  check_refs keys node refs = inr deps ↔ Forall2 (ref_ok keys node) refs deps.
Proof.
  split.
  - revert deps; induction refs as [|sref refs IH]; intros deps; simpl; [intros [= <-]; constructor|].
    destruct (unmarshal (sd_Data sref)) as [[h n r]|] eqn:Eu; [|done]. simpl.
    destruct (keys !! n) as [key|] eqn:Ek; [|done].
    destruct (Verify key _ _) eqn:Ev; [|done]. simpl. destruct (Z.eqb_spec n node); [done|].
    destruct (check_refs keys node refs) as [|deps']; [done|]. intros [= <-].
    constructor; [by exists key|by apply IH].
  - induction 1 as [|sref id refs deps (key & Eu & Ek & Ev & Hn) _ IH]; simpl; [done|].
    rewrite Eu. simpl. rewrite Ek, Ev. simpl. destruct (Z.eqb_spec (Node id) node); [done|].
    rewrite IH. by destruct id.
Qed.

(** The predecessor of a block. *)
Definition prev_ok keys (block : Block) (prevID : BlockID) : Prop :=
  if b_Round block =? 1 then prevID = zeroID
  else ∃ key previous, keys !! b_Node block = Some key ∧ b_Previous block = Some previous ∧
    Verify key (sd_Data previous) (sd_Signature previous) = true ∧
    unmarshal (sd_Data previous) = Some (mkRef (Hash prevID) (Node prevID) (Round prevID)) ∧
    Node prevID = b_Node block ∧ u64 (Round prevID + 1) = b_Round block.

Lemma check_prev_iff keys key block prevID :
  keys !! b_Node block = Some key →
  check_prev key block = inr prevID ↔ prev_ok keys block prevID.
Proof.
  intros Hk. unfold check_prev, prev_ok. destruct (b_Round block =? 1); simpl.
  { split; [by intros [= <-]|by intros ->]. }
  destruct (b_Previous block) as [previous|]; [|split; [done|by intros (? & ? & _ & ? & _)]].
  split.
  - destruct (Verify key _ _) eqn:Ev; [|done]. simpl.
    destruct (unmarshal (sd_Data previous)) as [[h n r]|] eqn:Eu; [|done]. simpl.
    destruct (Z.eqb_spec n (b_Node block)); [|done]. simpl.
    destruct (Z.eqb_spec (u64 (r + 1)) (b_Round block)); [|done]. simpl. intros [= <-].
    exists key, previous. by split_and!.
  - intros (key' & previous' & Hk' & [= ->] & Ev & Eu & En & Er). rewrite Hk in Hk'. injection Hk' as <-.
    rewrite Ev. simpl. rewrite Eu. simpl. rewrite En, Er, !Z.eqb_refl. simpl. by destruct prevID; simpl in *; subst.
Qed.

(** A block that passes: its hash is signed with its node's key, its predecessor is the
    node's block of the round before, and it references signed blocks of other nodes. *)
Record block_ok keys (signed : SignedData) (info : blockData) (block : Block) (enc : bytes) : Prop := {
  bo_block : unmarshal (sd_Data signed) = Some block;
  bo_id : bd_id info = mkBlockID (sha512_256 (sd_Data signed)) (b_Node block) (b_Round block);
  bo_enc : marshal (mkRef (sha512_256 (sd_Data signed)) (b_Node block) (b_Round block)) = Some enc;
  bo_ref : bd_ref info = mkSigned enc (sd_Signature signed);
  bo_sig : ∃ key, keys !! b_Node block = Some key ∧ Verify key enc (sd_Signature signed) = true;
  bo_prev : prev_ok keys block (bd_prev info);
  bo_deps : Forall2 (ref_ok keys (b_Node block)) (b_References block) (bd_deps info) }.

Lemma check_block_iff keys signed info :
  check_block keys signed = inr info ↔ ∃ block enc, block_ok keys signed info block enc.
Proof.
  unfold check_block. split.
  - destruct (unmarshal (sd_Data signed)) as [block|] eqn:Eu; [|done].
    destruct (keys !! b_Node block) as [key|] eqn:Ek; [|done].
    destruct (marshal _) as [enc|] eqn:Em; [|done]. destruct (Verify _ _ _) eqn:Ev; [|done]. simpl.
    destruct (check_prev key block) as [|prevID] eqn:Ep; [done|].
    destruct (check_refs _ _ _) as [|deps] eqn:Er; [done|]. intros [= <-].
    exists block, enc. split; simpl; try done; [by exists key|by eapply check_prev_iff|by apply check_refs_iff].
  - intros (block & enc & [Eu Ei Em Er (key & Ek & Ev) Hp Hd]). rewrite Eu, Ek, Em, Ev. simpl.
    apply (check_prev_iff keys key) in Hp; [|done]. apply check_refs_iff in Hd. rewrite Hp, Hd.
    destruct info; simpl in *. by subst.
Qed.

(** The data of an accepted block is what the store gives for it after a restart. *)
Lemma ref_ids_ok keys node refs deps : Forall2 (ref_ok keys node) refs deps → Store.ref_ids refs = Ok deps.
Proof.
  induction 1 as [|sref id refs deps (key & Eu & _) _ IH]; simpl; [done|].
  rewrite Eu. simpl. rewrite IH. simpl. by destruct id.
Qed.

Lemma block_data_ok keys signed info block enc :
  block_ok keys signed info block enc → Store.block_data signed = Ok info.
Proof.
  intros [Eu Ei Em Er _ Hp Hd]. unfold Store.block_data. rewrite Eu, Em.
  apply ref_ids_ok in Hd. rewrite Hd. unfold prev_ok in Hp.
  destruct (b_Round block =? 1); simpl.
  - destruct info; simpl in *. by subst.
  - destruct Hp as (key & previous & _ & -> & _ & Eu' & _). simpl. rewrite Eu'. simpl.
    destruct info as [? ? [] ?]; simpl in *. by subst.
Qed.
End Checks.

(** ** Received blocks *)
Section Received.
Context {DB : Type} `{KVLaws DB} `{Signatures} `{Hasher}.
Context `{PS : Proto SignedData} `{!ProtoLaws SignedData} `{PB : Proto Block} `{PR : Proto BlockReference}.
Implicit Types (s : service DB).

(** C18: processBlock accepts exactly the blocks whose own signature, predecessor and references
    are valid; an accepted block is queued for the dependency graph with the data the store
    derives from it on a restart, counted as received and stored; a rejected block changes
    nothing; a failed write is fatal. *)
Theorem processBlock_records s signed :
  (∀ info, check_block (c_keys (v_conf s)) signed = inr info → Codec.id_ok (bd_id info)) →
  (processBlock s signed = Halt Fatal ∧ ∃ info, check_block (c_keys (v_conf s)) signed = inr info ∧
     (Store.setBlock (v_store s) (bd_id info) signed).2 ≠ None) ∨
  ∃ s' r, processBlock s signed = Ok (s', r) ∧
    match r with
    | inl _ => s' = s ∧ ¬ ∃ info block enc, block_ok (c_keys (v_conf s)) signed info block enc
    | inr round =>
        ∃ info block enc, block_ok (c_keys (v_conf s)) signed info block enc ∧ round = b_Round block ∧
          Store.block_data signed = Ok info ∧
          v_depgraph s' = Depgraph.add (v_depgraph s) info ∧
          v_received s' = Received.set (v_received s) (b_Node block) round ∧
          (kv_get (s_db (v_store s)) (Codec.includedKey (bd_id info)) = inl KeyNotFound →
             Store.getBlock (v_store s') (bd_id info) = Ok (inr signed))
    end.
Proof.
  intros Hids. unfold processBlock.
  destruct (check_block (c_keys (v_conf s)) signed) as [e|info] eqn:E.
  { right. exists s, (inl e). split; [done|]. split; [done|]. intros (info & block & enc & Hb).
    assert (check_block (c_keys (v_conf s)) signed = inr info) as E' by (apply check_block_iff; eauto). congruence. }
  specialize (Hids info eq_refl). apply check_block_iff in E as (block & enc & Hb).
  pose proof (bo_id _ _ _ _ _ Hb) as Ei. unfold setBlock.
  destruct (Store.setBlock (v_store s) (bd_id info) signed) as [st [e|]] eqn:Es.
  { left. split; [done|]. exists info. split; [done|]. by rewrite Es. }
  right. eexists _, _. split; [done|]. exists info, block, enc. simpl. rewrite Ei. simpl.
  split_and!; try done; [by eapply block_data_ok|]. rewrite <- Ei. intros Hn.
  apply setBlock_Ok in Es as (Hc & Hc' & [([v Hv] & _)|(_ & val & Hm & Hk)]); [congruence|].
  eapply getBlock_at; [done| |by eapply unmarshal_marshal]. rewrite Hk. by at_key.
Qed.
End Received.

(** ** Created blocks *)
Section Created.
Context {DB : Type} `{KVLaws DB} `{Signatures} `{Hasher}.
Context `{PS : Proto SignedData} `{PB : Proto Block} `{!ProtoLaws Block}.
Context `{PR : Proto BlockReference} `{!ProtoLaws BlockReference}.
Implicit Types (s : service DB).

(** The reference to the last own block is signed by the node. *)
Definition chain_ok s : Prop :=
  0 ≤ v_round s ∧
  (v_round s ≠ 0 → ∃ refData, marshal (mkRef (v_prevhash s) (c_nodeID (v_conf s)) (v_round s)) = Some refData ∧
     v_prevref s = Some (mkSigned refData (Sign refData))).

(** The blocks that wait to be referenced are signed blocks of other nodes. *)
Definition refs_ok s : Prop :=
  Forall (λ b, ref_ok (c_keys (v_conf s)) (c_nodeID (v_conf s)) (bd_ref b) (bd_id b)) (d_blocks (v_depgraph s)).

(** A block and the graph of it that the node adds to its own consensus graph. *)
Definition same_block (info : blockData) (bg : BlockGraph) : Prop :=
  bd_id info = bg_Block bg ∧ bd_prev info = bg_Prev bg ∧ bd_deps info = dep_Block <$> bg_Deps bg.

Lemma actuallyIncluded_blocks refs d :
  d_blocks (foldl (λ d ref, Depgraph.actuallyIncluded d (bd_id ref)) d refs) = d_blocks d.
Proof. revert d; induction refs as [|r refs IH]; intros d; simpl; [done|]. by rewrite IH. Qed.

Lemma genBlocks_block_ok s key refs (ts : Transactions) data refData :
  let node := c_nodeID (v_conf s) in let round := v_round s + 1 in
  let hash := sha512_256 data in
  c_keys (v_conf s) !! node = Some key → (∀ d, Verify key d (Sign d) = true) → chain_ok s →
  round < 2 ^ 64 → Forall (λ b, ref_ok (c_keys (v_conf s)) node (bd_ref b) (bd_id b)) refs →
  let block := mkBlock node (v_prevref s) (bd_ref <$> refs) round (Some ts) in
  marshal block = Some data → marshal (mkRef hash node round) = Some refData →
  let bg := block_graph node round hash (v_prevhash s) refs in
  ∃ info, block_ok (c_keys (v_conf s)) (mkSigned data (Sign refData)) info block refData ∧ same_block info bg.
Proof.
  intros node round hash Hkey Hver [Hr Hprev] Hu Hrefs block Hm Hmr bg.
  exists (mkBlockData (bd_id <$> refs) (mkBlockID hash node round) (bg_Prev bg) (mkSigned refData (Sign refData))).
  split.
  - split; simpl; try done.
    + by eapply unmarshal_marshal.
    + exists key. by rewrite Hver.
    + unfold prev_ok. simpl. destruct (Z.eqb_spec round 1) as [E|E]; [done|]. simpl.
      destruct Hprev as (pd & Hpd & Epr); [unfold round in E; lia|].
      eexists key, _. split_and!; [done|exact Epr|by rewrite Hver| |done|].
      * simpl. rewrite (unmarshal_marshal _ _ Hpd). f_equal. f_equal. rewrite u64_small; unfold is_u64, round; lia.
      * unfold round. rewrite (u64_small (v_round s + 1 - 1)), u64_small; unfold is_u64; lia.
    + apply Forall2_fmap, Forall_Forall2_diag. done.
  - split_and!; [done..|]. simpl. rewrite <- list_fmap_compose. done.
Qed.

(** C19: When the blocks queued for inclusion are of other nodes (see the finding on own blocks
    that are sent back), a block that genBlocks creates passes every check of processBlock,
    holds exactly the transactions added since the last block, and carries the same identity,
    predecessor and references as the block graph given to consensus; the round advances by one
    and the buffer is emptied, so that this holds again for the next block. *)
Theorem created_blocks_are_accepted rs late rate s key txs :
  c_keys (v_conf s) !! c_nodeID (v_conf s) = Some key → (∀ d, Verify key d (Sign d) = true) →
  chain_ok s → refs_ok s → v_round s + 1 < 2 ^ 64 → Ext.holds (v_tx s) txs → t_SizeLimit (v_tx s) < 2 ^ 63 →
  genBlocks rs late rate s = Halt Fatal ∨
  ∃ rate' signed s' info bg, genBlocks rs late rate s = Ok (rate', signed, s') ∧
    check_block (c_keys (v_conf s)) signed = inr info ∧ same_block info bg ∧
    Node (bg_Block bg) = c_nodeID (v_conf s) ∧ Round (bg_Block bg) = v_round s + 1 ∧
    (∃ block, unmarshal (sd_Data signed) = Some block ∧ Ext.transactions block = Ok txs) ∧
    v_added s' = v_added s ++ [bg] ∧ v_round s' = v_round s + 1 ∧
    Ext.holds (v_tx s') [] ∧ chain_ok s' ∧ refs_ok s'.
Proof.
  intros Hkey Hver Hchain Hrefs Hu Htx Hlim. unfold genBlocks. cbv zeta.
  set (s0 := set_txCountLimit s (next_rate rs late rate)).
  destruct (Ext.take_holds (v_tx s0) txs) as (ts & b & Et & Hb & _ & _ & Hts).
  { by destruct Htx. } { done. }
  unfold Depgraph.getBlocks. set (idx := Depgraph.fitting _ _ _).
  change (v_tx (set_depgraph s0 _)) with (v_tx s0). rewrite Et.
  cbn [mbind outcome_bind]. simpl. rewrite u64_small by (unfold is_u64; destruct Hchain; lia).
  set (refs := take idx (d_blocks (v_depgraph s))).
  destruct (marshal _) as [data|] eqn:Hm; [|by left].
  destruct (marshal (mkRef (sha512_256 data) _ _)) as [refData|] eqn:Hmr; [|by left].
  destruct (setOwnBlock _ _ _ _) as [s1 [e|]] eqn:Es; [by left|]. right.
  assert (Forall (λ b, ref_ok (c_keys (v_conf s)) (c_nodeID (v_conf s)) (bd_ref b) (bd_id b)) refs) as Hr
    by (by apply Forall_take).
  destruct (genBlocks_block_ok s key refs ts data refData Hkey Hver Hchain Hu Hr Hm Hmr) as (info & Hok & Hsame).
  eexists _, _, _, info, _. split; [done|].
  split; [apply check_block_iff; eauto|]. split; [exact Hsame|].
  unfold setOwnBlock in Es. simpl in Es. destruct (Store.setOwnBlock _ _ _ _) as [st e']. simplify_eq/=.
  split; [done|]. split; [done|].
  split; [eexists; split; [by eapply unmarshal_marshal|apply Hts]|].
  unfold chain_ok, refs_ok.
  destruct (_ mod 50 =? 0); simpl; rewrite actuallyIncluded_blocks; simpl;
    (split_and!; [done..|destruct Hchain; lia|by eauto|by apply Forall_drop]).
Qed.
End Created.

(** ** Sending blocks to a peer *)
Section Sending.
Context {DB : Type} `{KV DB} `{Signatures} `{PS : Proto SignedData}.
Implicit Types (s : service DB).

(** [own] gives the node's block of every round up to the current one; the cache and the
    store agree with it. *)
Record own_ok s (own : Z → SignedData) : Prop := {
  ow_cache : ∀ r b, OwnBlocks.get (v_ownBlocks s) r = Some b → b = own r;
  ow_store : ∀ r, 1 ≤ r ≤ v_round s → Store.getOwnBlock (v_store s) r = Ok (inr (own r)) }.

(** Reading a block only fills the cache. *)
Definition cached s s' : Prop := s' = set_ownBlocks s (v_ownBlocks s').

Lemma getOwnBlock_ok s own r :
  own_ok s own → 1 ≤ r ≤ v_round s →
  ∃ s', getOwnBlock s r = Ok (s', inr (own r)) ∧ own_ok s' own ∧ cached s s'.
Proof.
  intros [Hc Hs] Hr. unfold getOwnBlock. destruct (OwnBlocks.get (v_ownBlocks s) r) as [b|] eqn:E.
  { apply Hc in E as ->. exists s. split_and!; [done|done|by destruct s]. }
  rewrite Hs by done. simpl. eexists. split; [done|]. split; [|done]. split; simpl; [|done].
  intros r' b. rewrite Own.get_set. case_decide; [subst; by intros [= <-]|apply Hc].
Qed.

Definition total_size (blocks : list SignedData) : Z := foldr (λ b z, Ext.SignedData_Size b + z) 0 blocks.
Lemma total_size_snoc l b : total_size (l ++ [b]) = total_size l + Ext.SignedData_Size b.
Proof. induction l as [|x l IH]; simpl in *; [lia|]. rewrite IH. lia. Qed.

(** The own blocks of [n] rounds from [r]. *)
Definition own_blocks (own : Z → SignedData) (r : Z) (n : nat) : list SignedData := own <$> seqZ r (Z.of_nat n).
Lemma own_blocks_S own r n : own_blocks own r (S n) = own_blocks own r n ++ [own (r + Z.of_nat n)].
Proof. unfold own_blocks. rewrite seqZ_S, fmap_app. done. Qed.

Lemma unsent_loop_ok n : ∀ s own last k,
  own_ok s own → 1 ≤ last → last + Z.of_nat k + Z.of_nat n = v_round s + 1 →
  total_size (own_blocks own last k) ≤ c_maxPayload (v_conf s) →
  (k = 0%nat ∧ unsent_loop n s true last 0 [] = Halt Fatal ∧ c_maxPayload (v_conf s) < Ext.SignedData_Size (own last)) ∨
  ∃ s' m, unsent_loop n s (bool_decide (k = 0%nat)) (last + Z.of_nat k) (total_size (own_blocks own last k))
            (own_blocks own last k) = Ok (s', own_blocks own last m) ∧ cached s s' ∧ own_ok s' own ∧
    (k ≤ m)%nat ∧ (0 < n → 0 < m)%nat ∧ last + Z.of_nat m ≤ v_round s + 1 ∧
    total_size (own_blocks own last m) ≤ c_maxPayload (v_conf s) ∧
    (last + Z.of_nat m = v_round s + 1 ∨ c_maxPayload (v_conf s) < total_size (own_blocks own last (S m))).
Proof.
  induction n as [|n IH]; intros s own last k Ho Hl Hn Ht; cbn [unsent_loop].
  { right. exists s, k. split_and!; try done; try lia; [by destruct s]. }
  destruct (getOwnBlock_ok s own (last + Z.of_nat k) Ho) as (s1 & E1 & Ho1 & Hc1); [lia|].
  assert (c_maxPayload (v_conf s1) = c_maxPayload (v_conf s) ∧ v_round s1 = v_round s) as [Em Er]
    by (by rewrite Hc1).
  destruct (Z.ltb_spec (c_maxPayload (v_conf s)) (total_size (own_blocks own last (S k)))) as [Hlt|Hle];
    pose proof (own_blocks_S own last k) as ES; rewrite ES, total_size_snoc in *.
  - destruct (decide (k = 0%nat)) as [->|Hk].
    + left. rewrite Z.add_0_r in *. split_and!; [done| |change (total_size _) with 0 in Hlt; lia].
      rewrite E1. cbn [mbind outcome_bind]. rewrite Em, Z.add_0_l. change (total_size _) with 0 in Hlt.
      by destruct (Z.ltb_spec (c_maxPayload (v_conf s)) (Ext.SignedData_Size (own last))); [|lia].
    + right. exists s1, k. rewrite E1. cbn [mbind outcome_bind]. rewrite Em, bool_decide_eq_false_2 by done.
      destruct (Z.ltb_spec (c_maxPayload (v_conf s)) (total_size (own_blocks own last k) + Ext.SignedData_Size (own (last + Z.of_nat k)))); [|lia].
      split_and!; try done; try lia. right. rewrite ES, total_size_snoc. lia.
  - destruct (IH s1 own last (S k) Ho1 Hl) as [[? _]|(s' & m & E & Hc & Ho' & Hm)];
      [rewrite Er; lia|rewrite Em, ES, total_size_snoc; lia|done|].
    right. exists s', m. rewrite E1. cbn [mbind outcome_bind].
    destruct (Z.ltb_spec (c_maxPayload (v_conf s1)) (total_size (own_blocks own last k) + Ext.SignedData_Size (own (last + Z.of_nat k)))); [lia|].
    rewrite bool_decide_eq_false_2, ES, total_size_snoc in E by done.
    replace (last + Z.of_nat (S k)) with (last + Z.of_nat k + 1) in E by lia. rewrite E, Em, Er in *.
    split_and!; try done; try tauto; try lia.
    unfold cached in *. rewrite Hc, Hc1. done.
Qed.

(** getUnsent gives the node's own blocks of the rounds that follow the last acknowledged
    one, in order and without a gap, as many as fit into the payload limit and at least one; it
    waits when the peer is up to date, and the only failure is a single block over the limit. *)
Theorem getUnsent_sends_next_rounds s own peer :
  own_ok s own → let sent := default 0 (v_sent s !! peer) in
  0 ≤ sent < 2 ^ 64 - 1 → 0 ≤ c_maxPayload (v_conf s) →
  if v_round s <=? sent then getUnsent s peer = Ok (s, None)
  else
    (getUnsent s peer = Halt Fatal ∧ c_maxPayload (v_conf s) < Ext.SignedData_Size (own (sent + 1))) ∨
    ∃ s' n, getUnsent s peer = Ok (s', Some (own_blocks own (sent + 1) n)) ∧ cached s s' ∧ (0 < n)%nat ∧
      sent + Z.of_nat n ≤ v_round s ∧ total_size (own_blocks own (sent + 1) n) ≤ c_maxPayload (v_conf s) ∧
      (sent + Z.of_nat n = v_round s ∨
       c_maxPayload (v_conf s) < total_size (own_blocks own (sent + 1) (S n))).
Proof.
  intros Ho sent Hs Hm. unfold getUnsent. fold sent. rewrite u64_small by (unfold is_u64; lia).
  destruct (Z.leb_spec (v_round s) sent); destruct (Z.leb_spec (sent + 1) (v_round s)); try lia; [done|].
  destruct (unsent_loop_ok (Z.to_nat (v_round s - (sent + 1) + 1)) s own (sent + 1) 0 Ho)
    as [(_ & -> & Hsz)|(s' & m & E & Hc & Ho' & Hk & Hpos & Hle & Hsz & Hmax)]; try lia.
  { simpl. lia. } { by left. }
  right. exists s', m. change (own_blocks own (sent + 1) 0) with (@nil SignedData) in E.
  rewrite Z.add_0_r in E. simpl in E. rewrite E. simpl. split_and!; try done; lia.
Qed.
End Sending.

(** ** Filling the gaps of a peer *)
Lemma split_seen_spec (seen : gset Z) rounds :
  split_seen seen rounds =
  (default 0 (last (filter (.∈ seen) rounds)), filter (.∉ seen) rounds).
Proof.
  unfold split_seen. induction rounds as [|r rounds IH] using rev_ind; [done|].
  rewrite foldl_snoc, IH, !list.filter_app, !filter_cons, !filter_nil. case_bool_decide as Hin.
  - rewrite decide_True, decide_False, app_nil_r, last_snoc by tauto. done.
  - rewrite decide_False, decide_True, app_nil_r by tauto. done.
Qed.

Section Filling.
Context {DB : Type} `{KV DB} `{Signatures} `{Hasher}.
Context `{PS : Proto SignedData} `{PB : Proto Block} `{PR : Proto BlockReference}.
Implicit Types (s : service DB).

(** After a response in fillMissingBlocks exactly the rounds that did not arrive are asked
    for again; the sequence becomes the last round that arrived when none is missing, and the
    latest round of the scan when some are. *)
Theorem fill_response_asks_again s peer rounds latest blocks s1 seen :
  Forall (λ r, r ≠ 0) rounds → fill_blocks s ∅ blocks = Ok (s1, seen) →
  ∃ s', fill_response s peer rounds latest blocks
        = Ok (s', match filter (.∉ seen) rounds with [] => None | l => Some l end) ∧
    ri_sequence (Received.get (v_received s') peer) =
      match last (filter (.∈ seen) rounds), filter (.∉ seen) rounds with
      | None, _ => ri_sequence (Received.get (v_received s1) peer)
      | Some r, [] => r
      | Some _, _ :: _ => latest
      end.
Proof.
  intros Hr E. unfold fill_response. rewrite E. cbn [mbind outcome_bind]. rewrite split_seen_spec.
  set (m := filter (.∉ seen) rounds).
  eexists. split; [apply f_equal, f_equal2; [reflexivity|by destruct m]|].
  destruct (last (filter (.∈ seen) rounds)) as [r|] eqn:El; simpl; [|done].
  assert (r ≠ 0) as Hr0.
  { apply last_Some in El as [l' El].
    assert (r ∈ filter (.∈ seen) rounds) as [_ Hin]%list_elem_of_filter by (rewrite El; set_solver).
    by eapply Forall_forall in Hr. }
  destruct (Z.eqb_spec r 0); [done|]. simpl.
  destruct m; simpl; unfold Received.setSequence; unfold Received.get at 1;
    by rewrite lookup_insert_eq.
Qed.
End Filling.
