(* ===== verification/Replay.v ===== *)
(** * Replaying the stored block graphs (src/broadcast/broadcast.go, replay.go)

    On start-up [replayGraphChanges] hands the node's stored block graphs to the consensus
    graph in batches; [Replay] does the same for a database. *)

From S2P Require Import Prelude Messages Block Graph Codec Kv Cache Store StoreProps StoreScan Ext Depgraph Broadcast.
Import Codec Broadcast.

#[local] Set Default Proof Using "Type*".

Section Replay.
Context {DB : Type} `{KVLaws DB}.

(** The node's stored block graphs are [gr 1], ..., [gr n], one per round. *)
Record own_graphs (db : DB) (node n : Z) (gr : Z → BlockGraph) : Prop := {
  og_ok : graphs_ok db;
  og_round : ∀ k, 1 ≤ k ≤ n → Round (bg_Block (gr k)) = k;
  og_some : ∀ k, 1 ≤ k ≤ n → ∃ bg, stored_graph db bg ∧ Node (bg_Block bg) = node ∧
              Round (bg_Block bg) = k ∧ gr k = clean_graph bg;
  og_only : ∀ bg, stored_graph db bg → Node (bg_Block bg) = node →
              1 ≤ Round (bg_Block bg) ≤ n ∧ clean_graph bg = gr (Round (bg_Block bg)) }.

Lemma graphs_from (st : store DB) node n gr from batch :
  own_graphs (s_db st) node n gr → s_closed st = false → is_u64 node → is_u64 from → 0 < batch →
  Store.getBlockGraphs st node from batch
  = Ok (inr (take (Z.to_nat batch) (gr <$> seqZ (Z.max 1 from) (n + 1 - Z.max 1 from)))).
Proof.
  intros [Hok Hround Hsome Honly] Hc Hn Hf Hb.
  destruct (getBlockGraphs_scan st node from batch Hc Hok Hn Hf) as (gs & -> & Hs & Hin).
  destruct (Z.ltb_spec 0 batch); [|lia]. f_equal. f_equal. f_equal.
  assert (∀ g, g ∈ gs → ∃ k, Z.max 1 from ≤ k < n + 1 ∧ g = gr k ∧ Node (bg_Block g) = node) as Hg.
  { intros g (bg & Hst & Hnode & Hr & ->)%Hin. destruct (Honly bg Hst Hnode) as [? E].
    exists (Round (bg_Block bg)). split; [lia|]. done. }
  assert (gs = gr <$> ((λ g, Round (bg_Block g)) <$> gs)) as ->.
  { rewrite <- list_fmap_compose. symmetry. rewrite <- (list_fmap_id gs) at 2. apply list_fmap_ext.
    intros i g Hi. apply list_elem_of_lookup_2, Hg in Hi as (k & Hk & -> & _). simpl. by rewrite Hround by lia. }
  f_equal. apply sorted_is_seqZ.
  - clear Hin. induction gs as [|g gs IH]; [constructor|]. cbn [fmap list_fmap] in *.
    apply StronglySorted_inv in Hs as [Hs Hx]. constructor; [apply IH; [done|intros; apply Hg; by right]|].
    apply Forall_forall. intros r (g' & -> & Hg')%list_elem_of_fmap.
    rewrite Forall_forall in Hx. specialize (Hx (bg_Block g') ltac:(by apply list_elem_of_fmap_2)).
    destruct (Hg g) as (k & Hk & E & En); [left|]. destruct (Hg g') as (k' & Hk' & E' & En'); [by right|].
    destruct Hx as [Hx|[_ [Hx|[Hx Hh]]]]; [lia|done|]. exfalso.
    rewrite E, E', !Hround in Hx by lia. subst. by apply bytes_lt_iff in Hh as [_ ?].
  - intros k. rewrite list_elem_of_fmap. split.
    + intros (g & -> & (j & Hj & -> & _)%Hg). rewrite Hround by lia. lia.
    + intros Hk. exists (gr k). rewrite Hround by lia. split; [done|]. apply Hin.
      destruct (Hsome k) as (bg & Hst & Hnode & Hr & E); [lia|]. exists bg. split_and!; [done..|lia|done].
Qed.

(** The batches from a round on: every graph once, in order. *)
Lemma replay_from (st : store DB) node n gr batch : ∀ fuel from added,
  own_graphs (s_db st) node n gr → s_closed st = false → is_u64 node → 0 < batch → 0 ≤ n →
  n + batch < 2 ^ 64 → 1 ≤ from → from < 2 ^ 64 → (Z.to_nat (n + 1 - from) < fuel)%nat →
  replay_loop fuel st node from batch added = Ok (inr (added ++ (gr <$> seqZ from (n + 1 - from)))).
Proof.
  induction fuel as [|fuel IH]; intros from added Hg Hc Hn Hb Hp Hw Hfrom Hu Hf; [lia|].
  cbn [replay_loop]. rewrite (graphs_from st node n gr) by (done || unfold is_u64; lia).
  cbn [mbind outcome_bind]. replace (Z.max 1 from) with from by lia.
  rewrite length_take, length_fmap, length_seqZ.
  destruct (Z.ltb_spec (Z.of_nat (Z.to_nat batch `min` Z.to_nat (n + 1 - from))) batch).
  { rewrite take_ge; [done|]. rewrite length_fmap, length_seqZ. lia. }
  rewrite (u64_small batch), u64_small by (unfold is_u64; lia).
  rewrite IH by (done || lia). f_equal. f_equal. rewrite <- (assoc_L (++)). f_equal.
  replace (n + 1 - from) with (batch + (n + 1 - (from + batch))) at 1 2 by lia.
  rewrite seqZ_app, fmap_app by lia. f_equal.
  rewrite take_app_length'; [done|]. rewrite length_fmap, length_seqZ. lia.
Qed.

(** From any round the batches come to an end. *)
Lemma replay_ends (st : store DB) node n gr from batch fuel :
  own_graphs (s_db st) node n gr → s_closed st = false → is_u64 node → 0 < batch → 0 ≤ n →
  n + batch < 2 ^ 64 → is_u64 from → (Z.to_nat n + 2 < fuel)%nat →
  ∃ gs, replay_loop fuel st node from batch [] = Ok (inr gs).
Proof.
  intros Hg Hc Hn Hb Hp Hw [H0' Hu] Hf. destruct (decide (from = 0)) as [->|Hne].
  - destruct fuel as [|fuel]; [lia|]. cbn [replay_loop].
    rewrite (graphs_from st node n gr) by (done || unfold is_u64; lia). cbn [mbind outcome_bind].
    destruct (_ <? _); [eauto|]. rewrite (u64_small batch), u64_small by (unfold is_u64; lia).
    rewrite (replay_from st node n gr) by (done || lia). eauto.
  - rewrite (replay_from st node n gr) by (done || lia). eauto.
Qed.

(** C33: Replaying the stored block graphs in batches, from a round of at least one, terminates
    and adds every stored graph from that round on exactly once and in the order of rounds. *)
Theorem replay_adds_each_graph_once (st : store DB) node n gr from batch fuel :
  own_graphs (s_db st) node n gr → s_closed st = false → is_u64 node → 0 < batch → 0 ≤ n →
  n + batch < 2 ^ 64 → 1 ≤ from < 2 ^ 64 → (Z.to_nat (n + 1 - from) < fuel)%nat →
  replay_loop fuel st node from batch [] = Ok (inr (gr <$> seqZ from (n + 1 - from))).
Proof. intros ?????? [? ?] ?. by apply (replay_from st node n gr batch fuel from []). Qed.

Theorem replay_from_zero_repeats (st : store DB) node n gr batch fuel :
  own_graphs (s_db st) node n gr → s_closed st = false → is_u64 node → 0 < batch ≤ n →
  n + batch < 2 ^ 64 → (Z.to_nat (n + 1) < fuel)%nat →
  replay_loop fuel st node 0 batch []
  = Ok (inr ((gr <$> seqZ 1 batch) ++ gr batch :: (gr <$> seqZ (batch + 1) (n - batch)))).
Proof.
  intros Hg Hc Hn Hb Hw Hf. destruct fuel as [|fuel]; [lia|].
  cbn [replay_loop]. rewrite (graphs_from st node n gr) by (done || unfold is_u64; lia).
  cbn [mbind outcome_bind]. change (Z.max 1 0) with 1.
  rewrite length_take, length_fmap, length_seqZ.
  destruct (Z.ltb_spec (Z.of_nat (Z.to_nat batch `min` Z.to_nat (n + 1 - 1))) batch); [lia|].
  rewrite (u64_small batch), u64_small by (unfold is_u64; lia).
  rewrite (replay_from st node n gr) by (done || lia). f_equal. f_equal. rewrite app_nil_l. f_equal.
  - replace (n + 1 - 1) with (batch + (n - batch)) by lia. rewrite seqZ_app, fmap_app by lia.
    rewrite take_app_length'; [done|]. rewrite length_fmap, length_seqZ. lia.
  - rewrite seqZ_cons by lia. cbn [fmap list_fmap].
    replace (Z.pred (n + 1 - (0 + batch))) with (n - batch) by lia. done.
Qed.
End Replay.
