(* ===== verification/Callbacks.v ===== *)
(** * Delivery to the registered callback (src/broadcast/broadcast.go)

    The consensus graph reports rounds in order ([blockmaniaCallback]); before a callback is
    registered they are only stored, and [Register] replays the ones that were not
    acknowledged. *)

From S2P Require Import Prelude Messages Block Graph Lexinum Codec Kv Cache Store StoreProps Ext Depgraph Broadcast.
Import Codec Broadcast.

#[local] Set Default Proof Using "Type*".

Section Callbacks.
Context {DB : Type} `{KVLaws DB} `{Signatures} `{PS : Proto SignedData} `{!ProtoLaws SignedData}.
Implicit Types (s : service DB).

(** A round the graph reports: its blocks are stored and can be formatted. *)
Record reported (st : store DB) (B : Z → list SignedData) (data : Interpreted) : Prop := {
  rp_round : is_u64 (in_Round data);
  rp_fit : ids_fit (in_Blocks data);
  rp_blocks : Forall2 (λ id b, Store.getBlock st id = Ok (inr b)) (in_Blocks data) (B (in_Round data));
  rp_string : ∀ at_info, format_blocks at_info (in_Blocks data) = Ok tt }.

Lemma getBlocks_all s ids blocks :
  s_closed (v_store s) = false → Forall2 (λ id b, Store.getBlock (v_store s) id = Ok (inr b)) ids blocks →
  getBlocks s ids = Ok blocks.
Proof.
  intros Hc HF. unfold getBlocks, Store.getBlocks. rewrite opened_open by done.
  assert (Store.blocks_loop (s_db (v_store s)) (blockKey <$> ids) = Ok (inr blocks)) as ->; [|done].
  induction HF as [|id b ids blocks Hb _ IH]; [done|].
  apply getBlock_inv in Hb as (_ & v & Hv & Hu). cbn [fmap list_fmap Store.blocks_loop].
  rewrite (Get_eq _ _ _ Hv). cbn [mbind outcome_bind]. unfold Store.Unmarshal. rewrite Hu.
  cbn [mbind outcome_bind]. change (list_fmap BlockID (list Z) blockKey ids) with (blockKey <$> ids).
  by rewrite IH.
Qed.

(** Rounds [a+1 .. r] are stored, and the acknowledgement is [a]. *)
Record stored_rounds (st : store DB) (B : Z → list SignedData) (a r : Z) : Prop := {
  sr_open : s_closed st = false;
  sr_rounds : ∀ k, a < k ≤ r → round_at (s_db st) k (B k);
  sr_ack : Store.getDeliverAcknowledged st = Ok (inr a) ∨
           (a = 0 ∧ Store.getDeliverAcknowledged st = Ok (inl (DBErr KeyNotFound))) }.

Lemma setInterpreted_next st B a r data st' :
  Store.setInterpreted st data = (st', None) → stored_rounds st B a r → reported st B data →
  0 ≤ a → in_Round data = r + 1 →
  stored_rounds st' B a (r + 1) ∧ ∀ id, Store.getBlock st' id = Store.getBlock st id.
Proof.
  intros Hset [Ho Hr Ha] [Hu Hf HF _] H0' Er. pose proof Hset as (_ & Hc' & Hg)%setInterpreted_Ok.
  split; [split; [done| |]|intros id; apply getBlock_same; [done..|]; rewrite Hg; by at_key].
  - intros k Hk. destruct (decide (k = r + 1)) as [->|].
    + rewrite <- Er. by eapply setInterpreted_round.
    + destruct (Hr k) as (ids & Hkey & Hfit & HF'); [lia|]. exists ids. split_and!; [|done|].
      * rewrite Hg. at_key. rewrite decide_False; [done|]. intros [= E].
        apply Lexinum.Encode_inj in E; unfold is_u64 in *; lia.
      * eapply Forall2_impl; [exact HF'|]. intros id b (v & Hv & ?). exists v.
        split; [|done]. rewrite Hg. by at_key.
  - unfold Store.getDeliverAcknowledged, Store.Get in *. rewrite opened_open in * by done.
    rewrite Hg. by at_key.
Qed.

(** The rounds [r+1 .. r+n] in the order the graph reports them. *)
Fixpoint consecutive (r : Z) (datas : list Interpreted) : Prop :=
  match datas with
  | [] => True
  | data :: datas => in_Round data = r + 1 ∧ consecutive (r + 1) datas
  end.

Definition report (at_info : bool) s (datas : list Interpreted) : outcome (service DB) :=
  range (blockmaniaCallback at_info) s datas.

Section Writes.
(** The database accepts the writes of interpreted rounds. *)
Context (writes : ∀ (st : store DB) data, s_closed st = false → (Store.setInterpreted st data).2 = None).
Context (B : Z → list SignedData) (a : Z) (at_info : bool).

Lemma report_one s r data :
  0 ≤ a → stored_rounds (v_store s) B a r → reported (v_store s) B data → in_Round data = r + 1 →
  ∃ s', blockmaniaCallback at_info s data = Ok s' ∧ stored_rounds (v_store s') B a (r + 1) ∧
    (∀ id, Store.getBlock (v_store s') id = Store.getBlock (v_store s) id) ∧ v_cb s' = v_cb s ∧
    v_interpreted s' = (if v_cb s then v_interpreted s else r + 1) ∧
    v_calls s' = v_calls s ++ (if v_cb s then [(r + 1, B (r + 1))] else []).
Proof using All.
  intros Ha Hs Hd Er. unfold blockmaniaCallback. rewrite (rp_string _ _ _ Hd). cbn [mbind outcome_bind].
  pose proof (writes (v_store s) data (sr_open _ _ _ _ Hs)) as Hw.
  destruct (Store.setInterpreted (v_store s) data) as [st' e] eqn:E. simpl in Hw. subst e.
  destruct (setInterpreted_next _ _ _ _ _ _ E Hs Hd Ha Er) as [Hs' Hb].
  change (v_cb (set_store s (st', None).1)) with (v_cb s). destruct (v_cb s) eqn:Ecb.
  - rewrite (getBlocks_all (set_store s st') _ (B (in_Round data))); [|apply Hs'|].
    2: { eapply Forall2_impl; [apply (rp_blocks _ _ _ Hd)|]. intros id b. simpl. by rewrite Hb. }
    cbn [mbind outcome_bind]. eexists. split; [done|]. simpl. rewrite Er. by split_and!.
  - eexists. split; [done|]. simpl. rewrite Er, app_nil_r. by split_and!.
Qed.

Lemma report_all datas : ∀ s r,
  0 ≤ a → stored_rounds (v_store s) B a r → Forall (reported (v_store s) B) datas → consecutive r datas →
  let r' := r + Z.of_nat (length datas) in
  ∃ s', report at_info s datas = Ok s' ∧ stored_rounds (v_store s') B a r' ∧
    (∀ id, Store.getBlock (v_store s') id = Store.getBlock (v_store s) id) ∧ v_cb s' = v_cb s ∧
    (v_cb s = false → v_interpreted s = r → v_interpreted s' = r') ∧
    v_calls s' = v_calls s ++ (if v_cb s then (λ k, (k, B k)) <$> seqZ (r + 1) (Z.of_nat (length datas)) else []).
Proof using All.
  induction datas as [|data datas IH]; intros s r Ha Hs Hd Hc; unfold report; cbn [range length].
  { exists s. rewrite Z.add_0_r. split_and!; try done. destruct (v_cb s); simpl; by rewrite app_nil_r. }
  apply Forall_cons in Hd as [Hd Hds]. destruct Hc as [Er Hc].
  destruct (report_one s r data Ha Hs Hd Er) as (s1 & -> & Hs1 & Hb1 & Ecb & Ei & Ecalls).
  cbn [mbind outcome_bind].
  destruct (IH s1 (r + 1) Ha Hs1) as (s' & E' & Hs' & Hb' & Ecb' & Ei' & Ecalls'); [|done|].
  { eapply Forall_impl; [exact Hds|]. intros d [? ? HF ?]. split; try done.
    eapply Forall2_impl; [exact HF|]. intros id b. simpl. by rewrite Hb1. }
  exists s'. unfold report in E'. rewrite E', Nat2Z.inj_succ, Z.add_succ_r, <- Z.add_succ_l.
  change (Z.succ r) with (r + 1). split_and!; [done|done| |congruence| |].
  - intros id. by rewrite Hb', Hb1.
  - intros Hcb Hi. apply Ei'; [congruence|]. by rewrite Ei, Hcb.
  - rewrite Ecalls', Ecalls, Ecb, <- (assoc_L (++)). f_equal. destruct (v_cb s); [|done].
    rewrite (seqZ_cons _ (Z.succ _)) by lia. cbn [fmap list_fmap app]. f_equal.
    replace (Z.pred (Z.succ (Z.of_nat (length datas)))) with (Z.of_nat (length datas)) by lia. done.
Qed.

Lemma replay_calls_all n : ∀ s i,
  s_closed (v_store s) = false → (∀ k, i ≤ k < i + Z.of_nat n → round_at (s_db (v_store s)) k (B k)) →
  replay_calls n s i = Ok (set_calls s (v_calls s ++ ((λ k, (k, B k)) <$> seqZ i (Z.of_nat n)))).
Proof using All.
  induction n as [|n IH]; intros s i Ho Hr; cbn [replay_calls].
  { simpl. rewrite app_nil_r. by destruct s. }
  rewrite (getInterpreted_at _ i (B i)) by (done || apply Hr; lia). cbn [or_fatal mbind outcome_bind].
  rewrite IH; [|done|intros; apply Hr; lia]. unfold call_cb. f_equal.
  rewrite (seqZ_cons i) by lia. cbn [fmap list_fmap].
  replace (Z.pred (Z.of_nat (S n))) with (Z.of_nat n) by lia. simpl. unfold set_calls. simpl.
  by rewrite <- (assoc_L (++)).
Qed.

Lemma Register_all s r :
  0 ≤ a < 2 ^ 64 - 1 → stored_rounds (v_store s) B a r → v_cb s = false → v_interpreted s = r → a ≤ r →
  Register s = Ok (set_calls (set_cb s true) (v_calls s ++ ((λ k, (k, B k)) <$> seqZ (a + 1) (r - a)))).
Proof using All.
  intros Ha [Ho Hr Hack] Hcb Hi Har. unfold Register. rewrite Hcb. simpl.
  assert (∃ x, Store.getDeliverAcknowledged (v_store s) = Ok x ∧
    (x = inr a ∨ a = 0 ∧ x = inl (DBErr KeyNotFound))) as (x & -> & Hx) by (destruct Hack as [E|[? E]]; eauto).
  cbn [mbind outcome_bind].
  assert ((match x with inr ack => Ok ack | inl (DBErr KeyNotFound) => Ok 0 | inl _ => Halt Fatal end) = Ok a) as ->
    by (destruct Hx as [->|[-> ->]]; done).
  cbn [mbind outcome_bind]. rewrite u64_small by (unfold is_u64; lia).
  rewrite replay_calls_all; [|done|intros; apply Hr; simpl in *; lia]. simpl. rewrite Hi.
  by rewrite Z2Nat.id, (Z.sub_add_distr r a 1), Z.sub_add by lia.
Qed.

(** C30: If rounds are reported consecutively and a callback is registered at some point between
    them, the callback is called once for every round after the last acknowledged one, in order
    and with the blocks of the round. *)
Theorem callback_sees_every_round_once s r before_ after_ :
  0 ≤ a ≤ r → a < 2 ^ 64 - 1 → v_cb s = false → v_calls s = [] → v_interpreted s = r →
  stored_rounds (v_store s) B a r →
  Forall (reported (v_store s) B) (before_ ++ after_) → consecutive r (before_ ++ after_) →
  ∃ s', (s1 ← report at_info s before_; s2 ← Register s1; report at_info s2 after_) = Ok s' ∧
    v_calls s' = (λ k, (k, B k)) <$> seqZ (a + 1) (r + Z.of_nat (length (before_ ++ after_)) - a).
Proof using All.
  intros Ha Hm Hcb Hcalls Hi Hs [Hd1 Hd2]%Forall_app Hc.
  assert (consecutive r before_ ∧ consecutive (r + Z.of_nat (length before_)) after_) as [Hc1 Hc2].
  { clear -Hc. revert r Hc. induction before_ as [|d l IH]; intros r Hc; [by rewrite Z.add_0_r|].
    destruct Hc as [? Hc]. apply IH in Hc as [? ?]. cbn [length consecutive].
    rewrite Nat2Z.inj_succ. replace (r + Z.succ (Z.of_nat (length l))) with (r + 1 + Z.of_nat (length l)) by lia. done. }
  destruct (report_all before_ s r) as (s1 & -> & Hs1 & Hb1 & Ecb1 & Ei1 & Ecalls1); [lia|done..|].
  rewrite Hcb in Ecalls1. rewrite Hcalls in Ecalls1. cbn [mbind outcome_bind].
  rewrite (Register_all s1 (r + Z.of_nat (length before_))); [|lia|done|congruence|by apply Ei1|lia].
  cbn [mbind outcome_bind]. rewrite Ecalls1. simpl app.
  destruct (report_all after_ (set_calls (set_cb s1 true)
    ((λ k, (k, B k)) <$> seqZ (a + 1) (r + Z.of_nat (length before_) - a))) (r + Z.of_nat (length before_)))
    as (s' & -> & _ & _ & _ & _ & Ecalls'); [lia|done| |done|].
  { eapply Forall_impl; [exact Hd2|]. intros d [? ? HF ?]. split; try done.
    eapply Forall2_impl; [exact HF|]. intros id b. simpl. by rewrite Hb1. }
  exists s'. split; [done|]. rewrite Ecalls'. simpl. rewrite <- fmap_app. f_equal.
  rewrite length_app, Nat2Z.inj_add.
  replace (r + (Z.of_nat (length before_) + Z.of_nat (length after_)) - a)
    with ((r + Z.of_nat (length before_) - a) + Z.of_nat (length after_)) by lia.
  rewrite (seqZ_app (a + 1)) by lia. f_equal. f_equal. lia.
Qed.
End Writes.
End Callbacks.
