(* ===== verification/PeersProps.v ===== *)
(** * Broadcasting to a peer: every own block arrives, in order and once *)

From S2P Require Import Prelude Messages Block Graph Codec Kv Conn Cache Store StoreProps Ext Depgraph Broadcast BroadcastProps Peers.
Import Broadcast Peers.

#[local] Set Default Proof Using "Type*".

(** ** The backoff *)
Lemma next_backoff_bounds maxB b : 0 ≤ b → 0 ≤ maxB < 2 ^ 62 → b ≤ maxB →
  b ≤ next_backoff maxB b ≤ maxB ∧ (b = 0 ∨ b < next_backoff maxB b ∨ next_backoff maxB b = maxB).
Proof.
  intros Hb Hm Hle. unfold next_backoff. rewrite i64_small by lia. destruct (Z.ltb_spec maxB (b * 2)); lia.
Qed.

Section Exchange.
Context {DB : Type} `{KVLaws DB} `{Signatures} `{Hasher}.
Context `{PS : Proto SignedData} `{!ProtoLaws SignedData} `{PB : Proto Block} `{PR : Proto BlockReference}.
Context `{PL : Proto ListBlocks} `{!ProtoLaws ListBlocks} `{PG : Proto GetBlocks} `{PN : Proto GetRounds}.
Context `{PA : Proto AckBroadcast} `{!ProtoLaws AckBroadcast}.
Implicit Types (s : service DB).

(** The blocks of node [a], which pass the checks of the receiver. *)
Context (a b : Z) (keys : gmap Z PublicKey) (own : Z → SignedData) (info : Z → blockData) (last : Z).
Context (valid : ∀ r, 1 ≤ r ≤ last → check_block keys (own r) = inr (info r) ∧
                      Node (bd_id (info r)) = a ∧ Round (bd_id (info r)) = r).
(** The receiver's database takes them, and they and the acknowledgements can be encoded. *)
Context (writes : ∀ (st : store DB) r, 1 ≤ r ≤ last → s_closed st = false →
                    (Store.setBlock st (bd_id (info r)) (own r)).2 = None).
Context (list_enc : ∀ r n, 1 ≤ r → r + Z.of_nat n - 1 ≤ last → is_Some (marshal (mkList (Some <$> own_blocks own r n)))).
Context (ack_enc : ∀ r, is_u64 r → is_Some (marshal (mkAck r))).

(** The receiver has queued the rounds [from .. from + n - 1] of the sender. *)
Record got (s s' : service DB) (from n : Z) : Prop := {
  gt_conf : v_conf s' = v_conf s;
  gt_open : s_closed (v_store s') = false;
  gt_in : d_in (v_depgraph s') = d_in (v_depgraph s) ++ (info <$> seqZ from n);
  gt_latest : 0 < n → from + n - 1 ≤ ri_latest (Received.get (v_received s') a) }.

Lemma processBlock_valid s r :
  c_keys (v_conf s) = keys → s_closed (v_store s) = false → 1 ≤ r ≤ last →
  ∃ s', processBlock s (own r) = Ok (s', inr r) ∧ got s s' r 1.
Proof using All.
  intros Hk Hc Hr. destruct (valid r Hr) as (Ev & En & Er). unfold processBlock. rewrite Hk, Ev.
  unfold setBlock. pose proof (writes (v_store s) r Hr Hc) as Hw.
  destruct (Store.setBlock (v_store s) (bd_id (info r)) (own r)) as [st e] eqn:E. simpl in Hw. subst e.
  apply setBlock_Ok in E as (_ & Hc' & _). eexists. split; [simpl; rewrite Er; reflexivity|].
  split; simpl; [done|done|done|]. rewrite En, get_set_eq. simpl. lia.
Qed.

Lemma process_list_valid n : ∀ s r lst,
  c_keys (v_conf s) = keys → s_closed (v_store s) = false → 1 ≤ r → r + Z.of_nat n - 1 ≤ last →
  ∃ s', process_list s lst (Some <$> own_blocks own r n)
        = Ok (s', inr (if bool_decide (n = 0%nat) then lst else r + Z.of_nat n - 1)) ∧
    got s s' r (Z.of_nat n).
Proof using All.
  induction n as [|n IH]; intros s r lst Hk Hc Hr Hn.
  { exists s. split; [done|]. split; try done. simpl. by rewrite app_nil_r. }
  unfold own_blocks. rewrite (seqZ_cons r) by lia. replace (Z.pred (Z.of_nat (S n))) with (Z.of_nat n) by lia.
  cbn [fmap list_fmap process_list or_panic mbind outcome_bind].
  destruct (processBlock_valid s r Hk Hc) as (s1 & -> & [Ec1 Ho1 Ei1 El1]); [lia|]. cbn [mbind outcome_bind].
  destruct (IH s1 (Z.succ r) r) as (s' & E & [Ec Ho Ei El]); [congruence|done|lia|lia|].
  unfold own_blocks in E. change (list_fmap SignedData (option SignedData) Some (list_fmap Z SignedData own (seqZ (Z.succ r) (Z.of_nat n))))
    with (Some <$> (own <$> seqZ (Z.succ r) (Z.of_nat n))). rewrite E. exists s'.
  split; [do 3 f_equal; case_bool_decide; subst; simpl; lia|]. split; [congruence|done| |].
  - rewrite Ei, Ei1, <- (assoc_L (++)). f_equal. rewrite (seqZ_cons r (Z.of_nat (S n))) by lia.
    replace (Z.pred (Z.of_nat (S n))) with (Z.of_nat n) by lia. done.
  - intros _. destruct n as [|n]; [|lia].
    assert (v_received s' = v_received s1) as -> by (simpl in E; congruence). specialize (El1 ltac:(lia)). lia.
Qed.

(** The sender has acknowledged rounds up to [sent]. *)
Record sends (s : service DB) (sent : Z) : Prop := {
  sd_own : own_ok s own;
  sd_round : v_round s = last;
  sd_sent : default 0 (v_sent s !! b) = sent;
  sd_fits : ∀ r, 1 ≤ r ≤ last → Ext.SignedData_Size (own r) ≤ c_maxPayload (v_conf s) }.

Lemma getUnsent_next s sent :
  sends s sent → 0 ≤ sent < last → last < 2 ^ 64 - 1 →
  ∃ s' n, getUnsent s b = Ok (s', Some (own_blocks own (sent + 1) n)) ∧ cached s s' ∧ own_ok s' own ∧
    (0 < n)%nat ∧ sent + Z.of_nat n ≤ last.
Proof using All.
  intros [Ho Hr Hs Hf] Hlt Hmax. unfold getUnsent. rewrite Hs, u64_small by (unfold is_u64; lia).
  destruct (Z.leb_spec (sent + 1) (v_round s)); [|lia].
  assert (0 ≤ c_maxPayload (v_conf s)) as Hp.
  { specialize (Hf 1 ltac:(lia)). unfold Ext.SignedData_Size in Hf. lia. }
  destruct (unsent_loop_ok (Z.to_nat (v_round s - (sent + 1) + 1)) s own (sent + 1) 0 Ho)
    as [(_ & _ & Hsz)|(s' & n & E & Hc & Ho' & _ & Hpos & Hle & _)]; try lia.
  { simpl. lia. }
  { specialize (Hf (sent + 1) ltac:(lia)). lia. }
  exists s', n. change (own_blocks own (sent + 1) 0) with (@nil SignedData) in E.
  rewrite Z.add_0_r in E. simpl in E. rewrite E. simpl. split_and!; try done; lia.
Qed.

Lemma talk_progress sa sb sent :
  sends sa sent → 0 ≤ sent < last → last < 2 ^ 64 - 1 →
  c_keys (v_conf sb) = keys → s_closed (v_store sb) = false →
  ∃ sa1 sb' msg resp ack n, broadcast_request sa b = Ok (sa1, Some msg) ∧ Handle sb a msg = Ok (sb', inr resp) ∧
    unmarshal (m_Payload resp) = Some ack ∧ 0 < n ∧ sent + n ≤ last ∧
    sends (markSent sa1 b (ack_Last ack)) (sent + n) ∧ got sb sb' (sent + 1) n.
Proof using All.
  intros Hsa Hlt Hmax Hk Hc. destruct (getUnsent_next sa sent Hsa Hlt Hmax) as (s1 & n & Eu & Hca & Ho & Hn & Hle).
  unfold broadcast_request. rewrite Eu. cbn [mbind outcome_bind].
  destruct (own_blocks own (sent + 1) n) as [|x l] eqn:El.
  { apply (f_equal length) in El. unfold own_blocks in El. rewrite length_fmap, length_seqZ in El. simpl in El. lia. }
  rewrite <- El. destruct (list_enc (sent + 1) n) as [data Ed]; [lia|lia|]. rewrite Ed.
  destruct (process_list_valid n sb (sent + 1) 0 Hk Hc) as (sb' & Ep & Hg); [lia|lia|].
  rewrite bool_decide_eq_false_2 in Ep by lia.
  destruct (ack_enc (sent + 1 + Z.of_nat n - 1)) as [ack Ea]; [unfold is_u64; lia|].
  eexists s1, sb', _, (mkMessage 0 [] OP_ACK_BROADCAST ack), (mkAck (sent + 1 + Z.of_nat n - 1)), (Z.of_nat n). split; [done|].
  split_and!; [|by apply unmarshal_marshal|lia|lia| |done].
  - unfold Handle, handleBroadcastList. cbn [m_Opcode m_Payload].
    rewrite Z.eqb_refl, (unmarshal_marshal _ _ Ed). cbn [lb_Blocks]. rewrite Ep. cbn [mbind outcome_bind]. unfold reply. by rewrite Ea.
  - destruct Hsa as [_ Hr _ Hf], Ho as [Ho1 Ho2]. split; [by split|by rewrite Hca| |by rewrite Hca].
    simpl. rewrite lookup_insert_eq. simpl. lia.
Qed.

Lemma got_app s1 s2 s3 from n m : got s1 s2 from n → got s2 s3 (from + n) m → 0 ≤ n → 0 < m → got s1 s3 from (n + m).
Proof using All.
  intros [C1 O1 I1 L1] [C2 O2 I2 L2] Hn Hm. split; [congruence|done| |].
  - by rewrite I2, I1, <- (assoc_L (++)), <- fmap_app, seqZ_app by lia.
  - intros _. specialize (L2 Hm). lia.
Qed.

(** The node and its peer talk until the peer is up to date, at most once a round. *)
Lemma catch_up_talks k : ∀ sa sb sent,
  sends sa sent → 0 ≤ sent ≤ last → last < 2 ^ 64 - 1 → last - sent ≤ Z.of_nat k →
  c_keys (v_conf sb) = keys → s_closed (v_store sb) = false →
  ∃ l sa' sb', talks a b sa sb l sa' sb' ∧ (length l ≤ k)%nat ∧ sends sa' last ∧ got sb sb' (sent + 1) (last - sent).
Proof using All.
  induction k as [|k IH]; intros sa sb sent Hsa Hle Hmax Hk Hkeys Hc;
    (destruct (decide (sent = last)) as [->|Hne];
      [exists [], sa, sb; rewrite Z.sub_diag; split_and!; [constructor|simpl; lia|done|split; try done; by rewrite app_nil_r]|]); [lia|].
  destruct (talk_progress sa sb sent Hsa) as (sa1 & sb1 & msg & resp & ack & n & E1 & E2 & E3 & Hn & Hn' & Hsa1 & G1); [lia|lia|done|done|].
  destruct (IH (markSent sa1 b (ack_Last ack)) sb1 (sent + n) Hsa1) as (l & sa' & sb' & T & HL & Hsa' & G);
    [lia|lia|lia|by rewrite (gt_conf _ _ _ _ G1)|apply G1|].
  exists ((msg, resp) :: l), sa', sb'. split_and!; [by econstructor|simpl; lia|done|].
  destruct (decide (sent + n = last)) as [Heq|].
  - rewrite Heq, Z.sub_diag in G. destruct G as [C2 O2 I2 _]. destruct G1 as [C1 O1 I1 L1]. replace (last - sent) with n by lia.
    split; [congruence|done|by rewrite I2, I1, app_nil_r|]. intros _.
    assert (l = [] ∨ l ≠ []) as [->|Hl] by (destruct l; auto); [by inversion T; subst; apply L1|].
    exfalso. destruct T as [|? ? ? ? ? ? ? ? ? ? Q]; [done|]. unfold broadcast_request, getUnsent in Q.
    rewrite (sd_sent _ _ Hsa1), (sd_round _ _ Hsa1), Heq, u64_small in Q by (unfold is_u64; lia).
    by destruct (Z.leb_spec (last + 1) last); [lia|].
  - replace (last - sent) with (n + (last - (sent + n))) by lia. eapply got_app; [done| |lia|lia].
    by replace (sent + 1 + n) with (sent + n + 1) by lia.
Qed.

Lemma talks_exchanges k sa sb l sa' sb' : talks a b sa sb l sa' sb' →
  exchanges (length l + k) a b (sa, sb) = exchanges k a b (sa', sb').
Proof using All.
  induction 1 as [|sa sb sa1 msg sb1 resp ack l sa' sb' E1 E2 E3 _ IH]; [done|]. cbn [length Nat.add exchanges].
  unfold exchange. rewrite E1. cbn [mbind outcome_bind]. rewrite E2. cbn [mbind outcome_bind]. unfold broadcast_response. by rewrite E3.
Qed.

Lemma exchange_idle sa sb : sends sa last → 0 ≤ last < 2 ^ 64 - 1 → exchange a b (sa, sb) = Ok (sa, sb).
Proof using All.
  intros [_ Hr Hs _] Hmax. unfold exchange, broadcast_request, getUnsent.
  rewrite Hs, u64_small, Hr by (unfold is_u64; lia). by destruct (Z.leb_spec (last + 1) last); [lia|].
Qed.

Lemma exchanges_idle k sa sb :
  sends sa last → 0 ≤ last < 2 ^ 64 - 1 → exchanges k a b (sa, sb) = Ok (sa, sb).
Proof using All.
  intros Hs Hmax. induction k as [|k IH]; [done|]. cbn [exchanges]. by rewrite exchange_idle.
Qed.

End Exchange.
