(* ===== verification/Loops.v ===== *)
(** * The goroutines of the peers (src/broadcast/broadcast.go: [maintainBroadcast], [fillMissingBlocks])

    Both loops as machines that dial a peer, with a growing pause after failures, exchange messages
    on the connection until it fails, and end when the node is cancelled. *)

From S2P Require Import Prelude Messages Block Graph Codec Kv Conn ConnProps Cache Store Ext Depgraph Broadcast Peers.
Import Broadcast.

(** Where a loop is: at the head of the outer loop with its variables [retry] and [backoff], or on a connection. *)
Inductive place := Dialling (retry : bool) (backoff : Z) | Exchanging (c : conn) (backoff : Z).
Definition backoff_of (pl : place) : Z := match pl with Dialling _ b | Exchanging _ b => b end.

(** What a step of a loop finds: whether the node is cancelled, the result of dialling and of signing the hello message. *)
Record outside := mkOutside { os_done : bool; os_dial : option netconn; os_hello : option Hello }.

Module Loops.
Section Loops.
Context {DB : Type} `{KV DB} `{Signatures} `{Hasher}.
Context `{PS : Proto SignedData} `{PB : Proto Block} `{PR : Proto BlockReference}.
Context `{PL : Proto ListBlocks} `{PG : Proto GetBlocks} `{PN : Proto GetRounds} `{PA : Proto AckBroadcast}.
Context `{PM : Proto SMessage} `{PO : Proto Hello}.
Context (initialBackoff maxBackoff : Z).
Implicit Types (s : service DB).

(** The place after a turn on a connection. *)
Definition after_turn (t : turn) (c : conn) (backoff : Z) : place :=
  match t with Retry => Dialling true backoff | Again | Sleep => Exchanging c backoff end.
(** The place after the head of the outer loop. *)
Definition after_connect (backoff : Z) (c : option conn) : place :=
  match c with None => Dialling true backoff | Some c => Exchanging c backoff end.

Definition start : place := Dialling false initialBackoff.

(** A step of [maintainBroadcast]; [None]: it has returned. *)
Definition maintainBroadcast (peerID : Z) (o : outside) s (pl : place) : outcome (service DB * option place) :=
  if os_done o then Ok (s, None)
  else
  match pl with
  | Dialling retry backoff =>
      '(backoff, c) ← Peers.connect initialBackoff maxBackoff (c_maxPayload (v_conf s)) retry backoff (os_dial o) (os_hello o);
      Ok (s, Some (after_connect backoff c))
  | Exchanging c backoff =>
      '(s, c, t) ← Peers.maintain_turn s c peerID;
      Ok (s, Some (after_turn t c backoff))
  end.

(** A step of [fillMissingBlocks] with its variables [rounds] and [latest]. *)
Definition fillMissingBlocks (peerID : Z) (o : outside) s (rounds : option (list Z)) (latest : Z) (pl : place)
    : outcome (service DB * option (list Z) * Z * option place) :=
  if os_done o then Ok (s, rounds, latest, None)
  else
  match pl with
  | Dialling retry backoff =>
      '(backoff, c) ← Peers.connect initialBackoff maxBackoff (c_maxPayload (v_conf s)) retry backoff (os_dial o) (os_hello o);
      Ok (s, rounds, latest, Some (after_connect backoff c))
  | Exchanging c backoff =>
      '(s, c, rounds, latest, t) ← Peers.fill_turn s c peerID rounds latest;
      Ok (s, rounds, latest, Some (after_turn t c backoff))
  end.

(** Several steps. *)
Fixpoint maintain_run (peerID : Z) (os : list outside) s (pl : place) : outcome (service DB * option place) :=
  match os with
  | [] => Ok (s, Some pl)
  | o :: os =>
      '(s, pl) ← maintainBroadcast peerID o s pl;
      match pl with None => Ok (s, None) | Some pl => maintain_run peerID os s pl end
  end.

Lemma maintain_run_app peerID os os' : ∀ s pl,
  maintain_run peerID (os ++ os') s pl =
    ('(s, pl) ← maintain_run peerID os s pl; match pl with None => Ok (s, None) | Some pl => maintain_run peerID os' s pl end).
Proof.
  induction os as [|o os IH]; intros s pl; [done|]. cbn [maintain_run app].
  destruct (maintainBroadcast peerID o s pl) as [[s1 [pl1|]]|]; [|done|done]. apply IH.
Qed.

(** ** The pause between attempts *)
Context (positive : 0 < initialBackoff) (bounded : initialBackoff ≤ maxBackoff) (no_overflow : maxBackoff < 2 ^ 62).

Definition in_bounds (pl : place) : Prop := initialBackoff ≤ backoff_of pl ≤ maxBackoff.

Lemma next_backoff_min b : 0 ≤ b ≤ maxBackoff → next_backoff maxBackoff b = Z.min maxBackoff (2 * b).
Proof using no_overflow.
  intros Hb. unfold next_backoff. rewrite i64_small by lia. destruct (Z.ltb_spec maxBackoff (b * 2)); lia.
Qed.

Lemma connect_bounds limit retry backoff dial hello b c :
  initialBackoff ≤ backoff ≤ maxBackoff →
  Peers.connect initialBackoff maxBackoff limit retry backoff dial hello = Ok (b, c) → initialBackoff ≤ b ≤ maxBackoff.
Proof using positive bounded no_overflow.
  intros Hb. assert (initialBackoff ≤ (if retry then next_backoff maxBackoff backoff else backoff) ≤ maxBackoff) as Hn.
  { destruct retry; [rewrite next_backoff_min by lia|]; lia. }
  unfold Peers.connect. destruct dial; [|by intros [= <- _]]. destruct hello; [|intros [= <- _]; lia].
  destruct (Conn.WritePayload _ _ _) as [[c' e]|]; [|done]. intros [= <- _]. lia.
Qed.

Lemma maintain_bounds peerID o s pl s' pl' :
  in_bounds pl → maintainBroadcast peerID o s pl = Ok (s', Some pl') → in_bounds pl'.
Proof using positive bounded no_overflow.
  unfold in_bounds, maintainBroadcast. intros Hb. destruct (os_done o); [done|]. destruct pl as [retry b|c b]; simpl in Hb.
  - destruct (Peers.connect _ _ _ _ _ _ _) as [[b' c']|] eqn:E; [|done]. intros [= _ <-].
    apply connect_bounds in E; [|done]. by destruct c'.
  - destruct (Peers.maintain_turn s c peerID) as [[[s1 c1] t]|]; [|done]. intros [= _ <-]. by destruct t.
Qed.

Lemma fill_bounds peerID o s rounds latest pl s' rounds' latest' pl' :
  in_bounds pl → fillMissingBlocks peerID o s rounds latest pl = Ok (s', rounds', latest', Some pl') → in_bounds pl'.
Proof using positive bounded no_overflow.
  unfold in_bounds, fillMissingBlocks. intros Hb. destruct (os_done o); [done|]. destruct pl as [retry b|c b]; simpl in Hb.
  - destruct (Peers.connect _ _ _ _ _ _ _) as [[b' c']|] eqn:E; [|done]. intros [= _ _ _ <-].
    apply connect_bounds in E; [|done]. by destruct c'.
  - destruct (Peers.fill_turn s c peerID rounds latest) as [[[[[s1 c1] r1] l1] t]|]; [|done]. intros [= _ _ _ <-]. by destruct t.
Qed.

(** A peer that cannot be reached: nothing but the pause changes, which doubles up to its limit. *)
Definition unreachable (o : outside) : Prop := os_done o = false ∧ os_dial o = None.

Lemma unreachable_run peerID os s b : Forall unreachable os → 0 ≤ b ≤ maxBackoff →
  maintain_run peerID os s (Dialling true b) = Ok (s, Some (Dialling true (Z.min maxBackoff (2 ^ Z.of_nat (length os) * b)))).
Proof using positive bounded no_overflow.
  intros HF. revert b. induction HF as [|o os [Hd Ho] HF IH]; intros b Hb.
  { cbn [length maintain_run]. change (2 ^ Z.of_nat 0) with 1. by rewrite Z.mul_1_l, Z.min_r by lia. }
  cbn [maintain_run]. unfold maintainBroadcast, Peers.connect. rewrite Hd, Ho. cbn [mbind outcome_bind after_connect].
  rewrite next_backoff_min, IH by lia. do 4 f_equal. cbn [length]. rewrite Nat2Z.inj_succ, Z.pow_succ_r by lia.
  assert (1 ≤ 2 ^ Z.of_nat (length os)) by (apply (Z.pow_le_mono_r 2 0); lia).
  destruct (Z.le_gt_cases (2 * b) maxBackoff); [rewrite (Z.min_r maxBackoff (2 * b)) by lia; f_equal; lia|].
  rewrite (Z.min_l maxBackoff (2 * b)) by lia. rewrite !Z.min_l; [done| |]; nia.
Qed.

(** After [n] failed attempts the pause is [2 ^ (n - 1)] times the initial one, at most the maximal one, and the service
    is as it was; as soon as the peer answers, the loop goes on with the exchange and the initial pause; and
    a cancelled loop ends with its next step. *)
Theorem backoff_doubles peerID o os s nc hello hp :
  Forall unreachable (o :: os) →
  maintain_run peerID (o :: os) s start = Ok (s, Some (Dialling true (Z.min maxBackoff (2 ^ Z.of_nat (length os) * initialBackoff)))) ∧
  (marshal hello = Some hp → Z.of_nat (length hp) ≤ c_maxPayload (v_conf s) → Z.of_nat (length hp) < 2 ^ 32 →
   writable (Conn.NewConn nc) →
   ∃ c, maintain_run peerID (o :: os ++ [mkOutside false (Some nc) (Some hello)]) s start = Ok (s, Some (Exchanging c initialBackoff)) ∧
     n_out (c_conn c) = n_out nc ++ frame hp) ∧
  ∀ pl, maintainBroadcast peerID (mkOutside true None None) s pl = Ok (s, None).
Proof using All.
  intros [[Hd Ho] HF]%Forall_cons.
  assert (maintain_run peerID (o :: os) s start =
    Ok (s, Some (Dialling true (Z.min maxBackoff (2 ^ Z.of_nat (length os) * initialBackoff))))) as E1.
  { cbn [maintain_run start]. unfold maintainBroadcast, Peers.connect. rewrite Hd, Ho. cbn [mbind outcome_bind after_connect].
    apply unreachable_run; [done|lia]. }
  split_and!; [exact E1| |done]. intros Hm Hl1 Hl2 Hw.
  change (o :: os ++ [mkOutside false (Some nc) (Some hello)]) with ((o :: os) ++ [mkOutside false (Some nc) (Some hello)]).
  rewrite maintain_run_app, E1. cbn [mbind outcome_bind maintain_run].
  unfold maintainBroadcast, Peers.connect. cbn [os_done os_dial os_hello].
  destruct (WritePayload_frame (Conn.NewConn nc) hello (c_maxPayload (v_conf s)) hp Hw Hm Hl1 Hl2) as (c & -> & _ & Hout & _).
  exists c. done.
Qed.
End Loops.
End Loops.
