(* ===== verification/Network.v ===== *)
(** * Two nodes on a connection

    [maintainBroadcast] at one end (src/broadcast/broadcast.go), [handleConnection] at the other
    (src/node/node.go): the node dials its peer, says hello and sends its blocks, and the peer
    checks the hello message, handles the blocks and acknowledges them.  What one end reads is
    what the other has written, cut into pieces of any size. *)

From S2P Require Import Prelude Messages Block Graph Codec Kv Conn ConnProps Cache Store Ext Depgraph Broadcast BroadcastProps Node NodeProps Peers PeersProps Loops.
Import Broadcast Peers.

#[local] Set Default Proof Using "Type*".

Section Ends.
Context {DB : Type} `{KVLaws DB} `{Signatures} `{Hasher}.
Context `{PS : Proto SignedData} `{!ProtoLaws SignedData} `{PB : Proto Block} `{PR : Proto BlockReference}.
Context `{PL : Proto ListBlocks} `{!ProtoLaws ListBlocks} `{PG : Proto GetBlocks} `{PN : Proto GetRounds}.
Context `{PA : Proto AckBroadcast} `{!ProtoLaws AckBroadcast}.
Context `{PM : Proto SMessage} `{!ProtoLaws SMessage} `{PO : Proto Hello} `{!ProtoLaws Hello}.
Context `{PH : Proto HelloInfo} `{!ProtoLaws HelloInfo}.
Implicit Types (s : service DB).

(** ** The end that handles the requests *)
Lemma talks_handled a b sa sb l sa' sb' :
  talks a b sa sb l sa' sb' → handle_all sb a l.*1 = Ok (sb', l.*2).
Proof.
  induction 1 as [|sa sb sa1 msg sb1 resp ack l sa' sb' _ E _ _ IH]; [done|].
  cbn [fmap list_fmap handle_all fst snd]. rewrite E. cbn [mbind outcome_bind].
  change (list_fmap _ _ fst l) with l.*1. by rewrite IH.
Qed.

(** ** The end that makes the requests *)
Lemma unsent_conf n : ∀ s first i total blocks s' blocks',
  unsent_loop n s first i total blocks = Ok (s', blocks') → v_conf s' = v_conf s.
Proof.
  induction n as [|n IH]; intros s first i total blocks s' blocks' E; cbn [unsent_loop] in E; [by injection E as <-|].
  unfold getOwnBlock in E. destruct (OwnBlocks.get _ _); cbn [mbind outcome_bind] in E.
  - repeat case_match; simplify_eq; eauto.
  - destruct (Store.getOwnBlock _ _) as [[e|b]|]; cbn [mbind outcome_bind] in E; [done| |done].
    repeat case_match; simplify_eq; try done. by apply IH in E.
Qed.
Lemma request_conf s b s' m : broadcast_request s b = Ok (s', m) → v_conf s' = v_conf s.
Proof.
  unfold broadcast_request, getUnsent. cbv zeta. destruct (_ <=? _); [|by intros [= <- _]].
  destruct (unsent_loop _ _ _ _ _ _) as [[s1 blocks]|] eqn:E; [|done]. apply unsent_conf in E.
  cbn [mbind outcome_bind]. repeat case_match; intros; by simplify_eq.
Qed.

(** A step of the loop while the node is not cancelled. *)
Definition online : outside := mkOutside false None None.

Lemma talk_turn initialBackoff maxBackoff a b sa sb sa1 msg sb1 resp ack c chunks p rp rest backoff :
  broadcast_request sa b = Ok (sa1, Some msg) → Handle sb a msg = Ok (sb1, inr resp) →
  unmarshal (m_Payload resp) = Some ack →
  let limit := c_maxPayload (v_conf sa) in
  limit < 2 ^ 31 → readable c chunks → writable c → mjoin chunks = frame rp ++ rest →
  fits limit msg p → fits limit resp rp →
  ∃ c' chunks', Loops.maintainBroadcast initialBackoff maxBackoff b online sa (Exchanging c backoff)
      = Ok (markSent sa1 b (ack_Last ack), Some (Exchanging c' backoff)) ∧
    readable c' chunks' ∧ writable c' ∧ mjoin chunks' = rest ∧ n_out (c_conn c') = n_out (c_conn c) ++ frame p.
Proof.
  intros E1 _ E3 limit Hl Hr Hw Hj [Hm Hp] [Hrm Hrp]. unfold Loops.maintainBroadcast, maintain_turn. cbn [online os_done].
  rewrite E1. cbn [mbind outcome_bind].
  destruct (WritePayload_frame c msg limit p) as (c1 & Ew & Hw1 & Ho1 & Hi1); [done|done|done|lia|].
  fold limit. rewrite Ew. cbn [mbind outcome_bind].
  destruct (readPayload_frame c1 limit chunks rp rest) as (c2 & ch & Er & Hr2 & Hj2 & [Hwr2 Ho2]); [|done|done|lia|].
  { destruct Hr as [[Hin Hc] _], Hw1 as [Hc1 _ Hb1]. split; [split; [by rewrite Hi1|done]|done]. }
  unfold Conn.ReadMessage, Conn.read_as. rewrite Er. cbn [mbind outcome_bind]. rewrite (unmarshal_marshal _ _ Hrm).
  unfold broadcast_response. rewrite E3. exists c2, ch. split_and!; [done|done| |done|by rewrite Ho2, Ho1].
  destruct Hr2 as [[_ Hc2] Hb2], Hw1. split; [done|by rewrite Hwr2|done].
Qed.

Lemma talks_turns initialBackoff maxBackoff a b backoff sa sb l sa' sb' :
  talks a b sa sb l sa' sb' → ∀ c chunks ps rps,
  let limit := c_maxPayload (v_conf sa) in
  limit < 2 ^ 31 → readable c chunks → writable c → mjoin chunks = mjoin (frame <$> rps) →
  Forall2 (fits limit) l.*1 ps → Forall2 (fits limit) l.*2 rps →
  ∃ c', Loops.maintain_run initialBackoff maxBackoff b (replicate (length l) online) sa (Exchanging c backoff)
      = Ok (sa', Some (Exchanging c' backoff)) ∧ n_out (c_conn c') = n_out (c_conn c) ++ mjoin (frame <$> ps).
Proof.
  induction 1 as [|sa sb sa1 msg sb1 resp ack l sa' sb' E1 E2 E3 _ IH]; intros c chunks ps rps limit Hl Hr Hw Hj HF HR.
  { inversion HF; subst. exists c. split; [done|]. simpl. by rewrite app_nil_r. }
  inversion HF as [|? p ? ps' Hp HF']; subst. inversion HR as [|? rp ? rps' Hrp HR']; subst.
  destruct (talk_turn initialBackoff maxBackoff a b sa sb sa1 msg sb1 resp ack c chunks p rp (mjoin (frame <$> rps')) backoff)
    as (c1 & ch & Et & Hr1 & Hw1 & Hj1 & Ho1); [done..|].
  destruct (IH c1 ch ps' rps') as (c' & Er & Ho).
  1-6: cbn [v_conf markSent set_sent]; rewrite ?(request_conf _ _ _ _ E1); done.
  exists c'. cbn [length replicate Loops.maintain_run]. rewrite Et. cbn [mbind outcome_bind]. split; [exact Er|].
  rewrite Ho, Ho1, <- (assoc_L (++)). done.
Qed.

(** ** Both ends *)

(** The blocks of node [a], which pass the checks of the receiver [b]. *)
Context (a b : Z) (keys : gmap Z PublicKey) (own : Z → SignedData) (info : Z → blockData) (last : Z).
Context (valid : ∀ r, 1 ≤ r ≤ last → check_block keys (own r) = inr (info r) ∧
                      Node (bd_id (info r)) = a ∧ Round (bd_id (info r)) = r).
Context (writes : ∀ (st : store DB) r, 1 ≤ r ≤ last → s_closed st = false →
                    (Store.setBlock st (bd_id (info r)) (own r)).2 = None).
Context (list_enc : ∀ r n, 1 ≤ r → r + Z.of_nat n - 1 ≤ last → is_Some (marshal (mkList (Some <$> own_blocks own r n)))).
Context (ack_enc : ∀ r, is_u64 r → is_Some (marshal (mkAck r))).

(** The hello message [hello], encoded as [hp], is one the server accepts from node [a] now. *)
Record welcome (srv : server) (now limit : Z) (hello : Hello) (hp : bytes) : Prop := {
  wl_expiration : 0 ≤ sv_nonceExpiration srv < 2 ^ 63 - 1;
  wl_nonces : sv_nonceMap srv = ∅;
  wl_limit : sv_maxPayload srv = limit ∧ limit < 2 ^ 31;
  wl_key : ∃ key, sv_keys srv !! a = Some key ∧ ∀ d, Verify key d (Sign d) = true;
  wl_signed : ∃ nonce ts, in_window (sv_nonceExpiration srv) now ts ∧
    Node.SignHello a (sv_id srv) CONNECTION_BROADCAST nonce ts = Some hello;
  wl_payload : h_Payload hello ≠ [];
  wl_fits : fits limit hello hp }.

(** A connection that takes all that is written and gives the pieces [chunks]. *)
Record carries (nc : netconn) (chunks : list bytes) : Prop := {
  cr_in : arrives nc chunks;
  cr_took : Forall (λ w, ∃ n, w = Took n) (n_wr nc);
  cr_out : n_out nc = [] }.

End Ends.
