(* ===== verification/Pubsub.v ===== *)
(** * Publishing delivered transactions (src/pubsub, src/txlistener/txlistener.go)

    The listener publishes the transactions of every delivered block: to the notifiers of the
    process and, as JSON frames, to the subscribers' connections.  encoding/json is used
    through [Proto Payload]. *)

From S2P Require Import Prelude Messages Block Graph Codec Kv Conn Cache Store Ext Depgraph Broadcast.

(** ** Subscriber connections (src/pubsub/internal/internal.go) *)
Record Payload := mkPayload { pl_NodeID : Z; pl_Tx : bytes }.
Record pconn := mkPConn { pc_buf : bytes; pc_conn : netconn }.

Module PConn.
Definition NewConn (c : netconn) : pconn := mkPConn (replicate 1024 0) c.
Definition Close (c : pconn) : pconn := mkPConn (pc_buf c) (Net.Close (pc_conn c)).

(** [(ok && e.Timeout()) || err == io.EOF] *)
Definition quiet (e : neterr) : bool := match e with NetFailure _ => false | _ => true end.

(** How a loop ends: it is done, it leaves without an error, or it closes the connection. *)
Inductive ending := Done | Quiet | Failed (e : neterr).

Fixpoint read_loop (fuel : nat) (nc : netconn) (buf : bytes) (hi need : nat) : outcome (netconn * bytes * ending) :=
  match need with
  | O => Ok (nc, buf, Done)
  | S _ =>
      match fuel with
      | O => Halt Diverge
      | S fuel =>
          let '(nc, r) := Net.Read nc need in
          match r with
          | inl e => if quiet e then Ok (nc, buf, Quiet) else Ok (Net.Close nc, buf, Failed e)
          | inr d => buf ← put_at buf (hi - need) d; read_loop fuel nc buf hi (need - length d)
          end
      end
  end.

(** The result of [Read]: nothing, an error of the connection or of the decoder, or a payload. *)
Inductive received := Nothing | ConnFailed (e : neterr) | BadPayload | Received (p : Payload).

(** [buf[:size]] of a negative size panics. *)
Definition Read `{Proto Payload} (c : pconn) : outcome (pconn * received) :=
  '(nc, buf, e) ← read_loop (Conn.read_fuel (pc_conn c)) (pc_conn c) (pc_buf c) 4 4;
  let c := mkPConn buf nc in
  match e with
  | Quiet => Ok (c, Nothing)
  | Failed e => Ok (c, ConnFailed e)
  | Done =>
      head ← sub buf 0 4;
      let size := i32 (get_le head) in
      let buf := if Z.of_nat (length buf) <? size then replicate (Z.to_nat size) 0 else buf in
      if size <? 0 then Halt Panic
      else
        let size := Z.to_nat size in
        '(nc, buf, e) ← read_loop (Conn.read_fuel nc) nc buf size size;
        let c := mkPConn buf nc in
        match e with
        | Quiet => Ok (c, Nothing)
        | Failed e => Ok (c, ConnFailed e)
        | Done =>
            data ← sub buf 0 size;
            Ok (c, match unmarshal data with None => BadPayload | Some p => Received p end)
        end
  end.

Fixpoint write_loop (fuel : nat) (nc : netconn) (buf : bytes) (need : nat) : outcome (netconn * ending) :=
  match need with
  | O => Ok (nc, Done)
  | S _ =>
      match fuel with
      | O => Halt Diverge
      | S fuel =>
          let '(nc, r) := Net.Write nc buf in
          match r with
          | inl e => if quiet e then Ok (nc, Quiet) else Ok (Net.Close nc, Failed e)
          | inr n => write_loop fuel nc (drop n buf) (need - n)
          end
      end
  end.

Definition Write (c : pconn) (payload : bytes) : outcome (pconn * option neterr) :=
  let buf := put_le 4 (u32 (Z.of_nat (length payload))) ++ payload in
  '(nc, e) ← write_loop (Conn.write_fuel (pc_conn c)) (pc_conn c) buf (length buf);
  Ok (mkPConn (pc_buf c) nc, match e with Failed e => Some e | _ => None end).
End PConn.

(** ** The server (src/pubsub/pubsub.go) *)
Record pserver := mkPServer {
  ps_nodeID : Z;
  ps_conns : gmap (list Z) pconn;
  ps_notifiers : nat;
  ps_notified : list (nat * (Z * bytes)) (* the calls of the notifiers *) }.

Module Pubsub.
Section Pubsub.
Context `{PP : Proto Payload}.
Definition RegisterNotifier (s : pserver) : pserver :=
  mkPServer (ps_nodeID s) (ps_conns s) (S (ps_notifiers s)) (ps_notified s).
Definition handleConnection (s : pserver) (addr : bytes) (nc : netconn) : pserver :=
  mkPServer (ps_nodeID s) (<[addr := PConn.NewConn nc]> (ps_conns s)) (ps_notifiers s) (ps_notified s).
Definition Close (s : pserver) : pserver :=
  mkPServer (ps_nodeID s) (PConn.Close <$> ps_conns s) (ps_notifiers s) (ps_notified s).

(** The loop over the connections: the ones that failed are closed and removed. *)
Fixpoint send_all (b : bytes) (conns : list (list Z * pconn)) : outcome (list (list Z * pconn)) :=
  match conns with
  | [] => Ok []
  | (addr, c) :: conns =>
      '(c, e) ← PConn.Write c b;
      rest ← send_all b conns;
      Ok (match e with Some _ => rest | None => (addr, c) :: rest end)
  end.

Definition Publish (s : pserver) (tx : bytes) : outcome pserver :=
  let calls := (λ i, (i, (ps_nodeID s, tx))) <$> seq 0 (ps_notifiers s) in
  let b := default [] (marshal (mkPayload (ps_nodeID s) tx)) in
  conns ← send_all b (map_to_list (ps_conns s));
  Ok (mkPServer (ps_nodeID s) (list_to_map conns) (ps_notifiers s) (ps_notified s ++ calls)).
End Pubsub.
End Pubsub.

(** ** The listener (src/txlistener/txlistener.go) *)
Module Listener.
Section Listener.
Context {DB : Type} `{KV DB} `{Signatures} `{PB : Proto Block} `{PP : Proto Payload}.

(** [for it.Valid() { it.Next(); l.pubsub.Publish(it.TxData) }] *)
Fixpoint publish_txs (fuel : nat) (p : pserver) (it : TxIterator) : outcome pserver :=
  if Ext.Valid it then
    match fuel with
    | O => Halt Diverge
    | S fuel => it ← Ext.Next it; p ← Pubsub.Publish p (it_TxData it); publish_txs fuel p it
    end
  else Ok p.

(** A block that cannot be decoded is logged, and the nil pointer is used. *)
Definition publish_block (p : pserver) (signed : SignedData) : outcome pserver :=
  block ← or_panic (Ext.SignedData_Block signed);
  it ← Ext.Iter block;
  publish_txs (Z.to_nat (it_total it)) p it.

Definition handleDeliver (p : pserver) (s : service DB) (round : Z) (blocks : list SignedData)
    : outcome (pserver * service DB) :=
  p ← range publish_block p blocks;
  Ok (p, Broadcast.Acknowledge s round).

Context `{PS : Proto SignedData}.

(** [Register] with [handleDeliver] as the callback: each replayed round is published and
    acknowledged before the next one is loaded. *)
Fixpoint replay (n : nat) (p : pserver) (s : service DB) (i : Z) : outcome (pserver * service DB) :=
  match n with
  | O => Ok (p, s)
  | S n =>
      blocks ← Broadcast.or_fatal (Store.getInterpreted (v_store s) i);
      '(p, s) ← handleDeliver p (Broadcast.call_cb s i blocks) i blocks;
      replay n p s (i + 1)
  end.

Definition New (p : pserver) (s : service DB) : outcome (pserver * service DB) :=
  if v_cb s then Halt Fatal
  else
    let s := Broadcast.set_cb s true in
    r ← Store.getDeliverAcknowledged (v_store s);
    ack ← (match r with
           | inr ack => Ok ack
           | inl (DBErr KeyNotFound) => Ok 0
           | inl _ => Halt Fatal
           end);
    let i := u64 (ack + 1) in
    replay (Z.to_nat (v_interpreted s - i + 1)) p s i.

(** A round that the consensus graph reports, with [handleDeliver] as the callback once there is one. *)
Definition interpreted (at_info : bool) (a : pserver * service DB) (data : Interpreted)
    : outcome (pserver * service DB) :=
  let '(p, s) := a in
  s' ← Broadcast.blockmaniaCallback at_info s data;
  if v_cb s then
    '(round, blocks) ← or_panic (last (v_calls s'));
    handleDeliver p s' round blocks
  else Ok (p, s').
End Listener.
End Listener.

(** ** A subscriber (src/pubsub/client/client.go): one turn of its loop *)
Definition client_turn `{Proto Payload} (c : pconn) (calls : list (Z * bytes)) : outcome (pconn * list (Z * bytes)) :=
  '(c, r) ← PConn.Read c;
  Ok (c, match r with PConn.Received p => calls ++ [(pl_NodeID p, pl_Tx p)] | _ => calls end).

(** ** The HTTP side: adding transactions (src/rest/service/service.go) and websockets
    (src/rest/service/wsservice.go) *)
Module Rest.
Inductive result := AllAdded | AddFailed | Blocked (rest : list bytes).

(** Fees are zero; a transaction that does not fit waits for the next block. *)
Fixpoint AddTransactions {DB} `{Signatures} (s : service DB) (txs : list bytes) : outcome (service DB * result) :=
  match txs with
  | [] => Ok (s, AllAdded)
  | tx :: rest =>
      '(s, a) ← Broadcast.AddTransaction s tx 0;
      match a with
      | Ext.TooLarge => Ok (s, AddFailed)
      | Ext.Wait => Ok (s, Blocked txs)
      | Ext.Added _ => AddTransactions s rest
      end
  end.

(** A client's channel of a hundred payloads, and whether it was closed. *)
Record chanCloser := mkChan { ch_C : list (Z * bytes); ch_close : bool }.
Definition addChan (chans : gmap (list Z) chanCloser) (cltID : bytes) : gmap (list Z) chanCloser :=
  <[cltID := mkChan [] false]> chans.
Definition Close (chans : gmap (list Z) chanCloser) (cltID : bytes) : gmap (list Z) chanCloser :=
  alter (λ c, mkChan (ch_C c) true) cltID chans.

(** The goroutine of [Callback]: closed channels are removed, the payload is put into the
    others; [None] when one is full. *)
Definition Callback (chans : gmap (list Z) chanCloser) (nodeID : Z) (tx : bytes) : option (gmap (list Z) chanCloser) :=
  let opened := filter (λ kv, ch_close kv.2 = false) chans in
  if bool_decide (map_Forall (λ _ c, (length (ch_C c) < 100)%nat) opened)
  then Some ((λ c, mkChan (ch_C c ++ [(nodeID, tx)]) false) <$> opened)
  else None.
(** [NewWS] registers [Callback] with the pubsub server. *)
Definition NewWS (ps : pserver) : pserver := Pubsub.RegisterNotifier ps.
(** The loop of [Websocket] takes the next payload. *)
Definition take_payload (c : chanCloser) : option ((Z * bytes) * chanCloser) :=
  match ch_C c with [] => None | p :: rest => Some (p, mkChan rest (ch_close c)) end.
End Rest.
