(* ===== verification/PubsubProps.v ===== *)
(** * Publishing: every transaction of a delivered block reaches every subscriber, in order *)

From S2P Require Import Prelude Messages Block Graph Codec Kv Conn ConnProps Cache Store Ext Depgraph Broadcast Pubsub.

#[local] Set Default Proof Using "Type*".

(** ** Frames *)
Lemma write_loop_took fuel : ∀ nc data need,
  Forall (λ w, ∃ n, w = Took n) (n_wr nc) → n_closed nc = false →
  PConn.write_loop fuel nc data need = ('(nc, _) ← Conn.write_loop fuel nc data need; Ok (nc, PConn.Done)).
Proof.
  induction fuel as [|fuel IH]; intros nc data [|k] Hw Hc; try done. cbn [PConn.write_loop Conn.write_loop].
  unfold Net.Write. rewrite Hc. destruct (n_wr nc) as [|w ws]; [by apply IH|].
  apply Forall_cons in Hw as [[n ->] Hws]. by apply IH.
Qed.

(** [c] is open and no write of the network fails. *)
Record subscribed (c : pconn) : Prop := {
  su_open : n_closed (pc_conn c) = false;
  su_took : Forall (λ w, ∃ n, w = Took n) (n_wr (pc_conn c)) }.

Lemma Write_frame c p :
  subscribed c → Z.of_nat (length p) < 2 ^ 32 →
  ∃ c', PConn.Write c p = Ok (c', None) ∧ subscribed c' ∧ n_out (pc_conn c') = n_out (pc_conn c) ++ frame p.
Proof.
  intros [Hc Hw] Hp. unfold PConn.Write. rewrite u32_small by (unfold is_u32; lia).
  rewrite write_loop_took by done.
  destruct (write_loop_all (Conn.write_fuel (pc_conn c)) (pc_conn c) (frame p))
    as (nc & E & Ho & _ & Hc' & Hw'); [done|done|unfold Conn.write_fuel; lia|].
  unfold frame in E. rewrite E. simpl. eexists. split; [done|]. by repeat split.
Qed.

Lemma read_loop_got fuel : ∀ nc buf hi need chunks,
  arrives nc chunks → (need ≤ length (mjoin chunks))%nat →
  PConn.read_loop fuel nc buf hi need
  = ('(nc, buf, _) ← Conn.read_loop fuel nc buf hi need; Ok (nc, buf, PConn.Done)).
Proof.
  induction fuel as [|fuel IH]; intros nc buf hi [|k] chunks [Hin Hc] Hl; try done.
  cbn [PConn.read_loop Conn.read_loop]. unfold Net.Read. rewrite Hc, Hin.
  destruct chunks as [|d chunks]; [simpl in Hl; lia|]. cbn [fmap list_fmap].
  change (mjoin (M:=list) (d :: chunks)) with (d ++ mjoin chunks) in Hl. rewrite length_app in Hl.
  case_bool_decide as Hd.
  - destruct (put_at buf (hi - S k) d) as [b|]; [|done]. cbn [mbind outcome_bind].
    apply (IH _ _ _ _ chunks); [done|lia].
  - destruct (put_at buf (hi - S k) (take (S k) d)) as [b|]; [|done]. cbn [mbind outcome_bind].
    apply (IH _ _ _ _ (drop (S k) d :: chunks)); [done|]. rewrite length_take_le by lia. lia.
Qed.

Section Pubsub.
Context `{PP : Proto Payload}.

Lemma subscriber_reads_frames `{!ProtoLaws Payload} c pl p chunks rest :
  arrives (pc_conn c) chunks → (4 ≤ length (pc_buf c))%nat →
  mjoin chunks = frame p ++ rest → marshal pl = Some p → Z.of_nat (length p) < 2 ^ 31 →
  ∃ c' chunks', PConn.Read c = Ok (c', PConn.Received pl) ∧ arrives (pc_conn c') chunks' ∧
    mjoin chunks' = rest ∧ (4 ≤ length (pc_buf c'))%nat.
Proof.
  intros Hin Hb Hj Hm Hp. unfold PConn.Read, frame in *. rewrite <- (assoc_L (++)) in Hj.
  assert (4 ≤ length (mjoin chunks))%nat as L4 by (rewrite Hj, length_app, length_put_le; lia).
  rewrite (read_loop_got _ _ _ _ _ chunks) by done.
  destruct (read_exact (pc_conn c) (pc_buf c) chunks 4) as (nc & buf & ch & -> & Ha & _ & Hj1 & L & S1); [done..|].
  cbn [mbind outcome_bind]. rewrite S1. cbn [mbind outcome_bind].
  rewrite Hj, drop_app_length' in Hj1 by (by rewrite length_put_le).
  rewrite Hj, take_app_length', frame_header by (done || by rewrite length_put_le).
  destruct (Z.ltb_spec (Z.of_nat (length p)) 0); [lia|]. rewrite Nat2Z.id.
  set (buf1 := if _ <? _ then _ else _).
  assert (length p ≤ length buf1 ∧ 4 ≤ length buf1)%nat as [Lb Lb'].
  { unfold buf1. destruct (Z.ltb_spec (Z.of_nat (length buf)) (Z.of_nat (length p))); rewrite ?length_replicate; lia. }
  assert (length p ≤ length (mjoin ch))%nat as Lp by (rewrite Hj1, length_app; lia).
  rewrite (read_loop_got _ _ _ _ _ ch) by done.
  destruct (read_exact nc buf1 ch (length p)) as (nc' & buf' & ch' & -> & Ha' & _ & Hj2 & L' & S2); [done..|].
  cbn [mbind outcome_bind]. rewrite S2, Hj1, take_app_length. cbn [mbind outcome_bind].
  rewrite (unmarshal_marshal _ _ Hm). eexists _, ch'.
  split_and!; [done|done|by rewrite Hj2, Hj1, drop_app_length|simpl; lia].
Qed.

(** A frame that claims two gigabytes or more crashes the subscriber. *)
Theorem negative_size_panics c chunks u rest :
  arrives (pc_conn c) chunks → (4 ≤ length (pc_buf c))%nat →
  mjoin chunks = put_le 4 u ++ rest → 2 ^ 31 ≤ u < 2 ^ 32 → PConn.Read c = Halt Panic.
Proof.
  intros Hin Hb Hj Hu. unfold PConn.Read.
  assert (4 ≤ length (mjoin chunks))%nat as L4 by (rewrite Hj, length_app, length_put_le; lia).
  rewrite (read_loop_got _ _ _ _ _ chunks) by done.
  destruct (read_exact (pc_conn c) (pc_buf c) chunks 4) as (nc & buf & ch & -> & _ & _ & _ & _ & S1); [done..|].
  cbn [mbind outcome_bind]. rewrite S1, Hj, take_app_length' by (by rewrite length_put_le).
  cbn [mbind outcome_bind]. rewrite get_put_le_small by lia.
  assert (i32 u < 0) as Hneg.
  { unfold i32. replace (u + 2 ^ 31) with ((u - 2 ^ 31) + 1 * 2 ^ 32) by lia. rewrite Z.mod_add, Z.mod_small; lia. }
  by destruct (Z.ltb_spec (i32 u) 0); [|lia].
Qed.

(** ** Publishing *)

(** The bytes that are written for one transaction. *)
Definition tx_frame (node : Z) (tx : bytes) : bytes := frame (default [] (marshal (mkPayload node tx))).
Definition tx_fits (node : Z) (tx : bytes) : Prop :=
  Z.of_nat (length (default [] (marshal (mkPayload node tx)))) < 2 ^ 32.

(** A connection after [out] was written to it. *)
Definition sent_to (out : bytes) (c c' : pconn) : Prop :=
  subscribed c' ∧ n_out (pc_conn c') = n_out (pc_conn c) ++ out.

Definition all_subscribed (p : pserver) : Prop := ∀ addr c, ps_conns p !! addr = Some c → subscribed c.

(** [p'] is [p] after the transactions [txs] were published. *)
Record published (p p' : pserver) (txs : list bytes) : Prop := {
  pb_node : ps_nodeID p' = ps_nodeID p;
  pb_notifiers : ps_notifiers p' = ps_notifiers p;
  pb_calls : ps_notified p' = ps_notified p ++
    (txs ≫= λ tx, (λ i, (i, (ps_nodeID p, tx))) <$> seq 0 (ps_notifiers p));
  pb_conns : ∀ addr, option_Forall2 (sent_to (txs ≫= tx_frame (ps_nodeID p)))
               (ps_conns p !! addr) (ps_conns p' !! addr) }.

Lemma published_subscribed p p' txs : published p p' txs → all_subscribed p'.
Proof.
  intros [_ _ _ Hc] addr c' E. specialize (Hc addr). rewrite E in Hc. by inversion Hc as [c1 c2 [] H1 H2|]; subst.
Qed.

Lemma published_nil p : all_subscribed p → published p p [].
Proof.
  intros Hs. split; simpl; [done|done|by rewrite app_nil_r|]. intros addr.
  destruct (ps_conns p !! addr) as [c|] eqn:E; constructor. split; [by eapply Hs|by rewrite app_nil_r].
Qed.

Lemma published_app p1 p2 p3 l1 l2 : published p1 p2 l1 → published p2 p3 l2 → published p1 p3 (l1 ++ l2).
Proof.
  intros [N1 M1 C1 O1] [N2 M2 C2 O2]. split; [congruence|congruence| |].
  - by rewrite C2, C1, bind_app, N1, M1, (assoc_L (++)).
  - intros addr. specialize (O1 addr). specialize (O2 addr). rewrite bind_app.
    inversion O1 as [c1 c2 [S1 E1] H1 H2|H1 H2]; rewrite <- H2 in O2.
    + inversion O2 as [c2' c3 [S2 E2] H2' H3|]; subst. constructor. split; [done|].
      by rewrite E2, E1, N1, (assoc_L (++)).
    + inversion O2; constructor.
Qed.

Lemma send_all_ok b conns :
  Forall (λ x, subscribed x.2) conns → Z.of_nat (length b) < 2 ^ 32 →
  ∃ conns', Pubsub.send_all b conns = Ok conns' ∧
    Forall2 (λ x y, x.1 = y.1 ∧ sent_to (frame b) x.2 y.2) conns conns'.
Proof.
  intros HF Hb. induction HF as [|[addr c] conns Hc _ (conns' & E & HF')]; [by exists []|].
  destruct (Write_frame c b Hc Hb) as (c' & Ew & Hs & Ho). exists ((addr, c') :: conns').
  cbn [Pubsub.send_all]. rewrite Ew. cbn [mbind outcome_bind]. rewrite E. split; [done|constructor; [split; [done|by split]|done]].
Qed.

Lemma list_to_map_Forall2 {A} (R : A → A → Prop) (l l' : list (list Z * A)) addr :
  Forall2 (λ x y, x.1 = y.1 ∧ R x.2 y.2) l l' →
  option_Forall2 R ((list_to_map l : gmap _ A) !! addr) ((list_to_map l' : gmap _ A) !! addr).
Proof.
  induction 1 as [|[k x] [k' y] l l' [E HR] _ IH]; simpl in *; [constructor|]. subst k'.
  rewrite !lookup_insert. case_decide; [by constructor|done].
Qed.

Lemma Publish_ok p tx :
  all_subscribed p → tx_fits (ps_nodeID p) tx → ∃ p', Pubsub.Publish p tx = Ok p' ∧ published p p' [tx].
Proof.
  intros Hs Hf. unfold Pubsub.Publish.
  destruct (send_all_ok (default [] (marshal (mkPayload (ps_nodeID p) tx))) (map_to_list (ps_conns p)))
    as (conns' & -> & HF); [|done|].
  { apply Forall_forall. intros [addr c] Hin%elem_of_map_to_list. by eapply Hs. }
  cbn [mbind outcome_bind]. eexists. split; [done|]. split; simpl; [done|done|by rewrite app_nil_r|].
  intros addr. rewrite app_nil_r. rewrite <- (list_to_map_to_list (ps_conns p)) at 1.
  by apply list_to_map_Forall2.
Qed.

(** ** The listener *)
Lemma publish_txs_ok fuel : ∀ p it txs,
  all_subscribed p → Ext.collect fuel it = Ok txs → Forall (λ t, tx_fits (ps_nodeID p) (td_Data t)) txs →
  ∃ p', Listener.publish_txs fuel p it = Ok p' ∧ published p p' (td_Data <$> txs).
Proof.
  induction fuel as [|fuel IH]; intros p it txs Hs; cbn [Ext.collect Listener.publish_txs];
    (destruct (Ext.Valid it); [|intros [= <-] _; exists p; split; [done|by apply published_nil]]); [done|].
  destruct (Ext.Next it) as [it'|]; [|done]. cbn [mbind outcome_bind].
  destruct (Ext.collect fuel it') as [txs'|] eqn:E; [|done]. simpl. intros [= <-] [Hf Hfs]%Forall_cons.
  destruct (Publish_ok p (it_TxData it') Hs Hf) as (p1 & -> & Hp1). cbn [mbind outcome_bind].
  destruct (IH p1 it' txs') as (p' & -> & Hp'); [by eapply published_subscribed|done|by rewrite (pb_node _ _ _ Hp1)|].
  exists p'. split; [done|]. by apply (published_app _ p1 _ [_]).
Qed.

Context {DB : Type} `{KV DB} `{Signatures} `{PB : Proto Block}.

(** The transactions of a signed block. *)
Definition holds_txs (signed : SignedData) (txs : list TransactionData) : Prop :=
  ∃ block, unmarshal (sd_Data signed) = Some block ∧ Ext.transactions block = Ok txs.

Lemma handleDeliver_publishes (p : pserver) (s : service DB) round blocks txss :
  all_subscribed p → Forall2 holds_txs blocks txss →
  Forall (λ t, tx_fits (ps_nodeID p) (td_Data t)) (mjoin txss) →
  ∃ p', Listener.handleDeliver p s round blocks = Ok (p', Broadcast.Acknowledge s round) ∧
    published p p' (td_Data <$> mjoin txss).
Proof.
  intros Hs HF Hf. unfold Listener.handleDeliver.
  assert (∃ p', range Listener.publish_block p blocks = Ok p' ∧ published p p' (td_Data <$> mjoin txss)) as (p' & -> & Hp);
    [|by exists p'].
  revert p Hs Hf. induction HF as [|signed txs blocks txss (block & Eu & Et) _ IH]; intros p Hs Hf.
  { exists p. split; [done|by apply published_nil]. }
  change (mjoin (M:=list) (txs :: txss)) with (txs ++ mjoin txss) in *. apply Forall_app in Hf as [Hf1 Hf2].
  cbn [range]. unfold Listener.publish_block, Ext.SignedData_Block. rewrite Eu. cbn [or_panic mbind outcome_bind].
  unfold Ext.transactions in Et. destruct (Ext.Iter block) as [it|]; [|done]. cbn [mbind outcome_bind] in *.
  destruct (publish_txs_ok _ p it txs Hs Et Hf1) as (p1 & -> & Hp1). cbn [mbind outcome_bind].
  destruct (IH p1) as (p' & E' & Hp'); [by eapply published_subscribed|by rewrite (pb_node _ _ _ Hp1)|].
  exists p'. split; [done|]. rewrite fmap_app. by eapply published_app.
Qed.

(** [n] turns of a subscriber. *)
Fixpoint client_turns (n : nat) (c : pconn) (calls : list (Z * bytes)) : outcome (pconn * list (Z * bytes)) :=
  match n with
  | O => Ok (c, calls)
  | S n => '(c, calls) ← client_turn c calls; client_turns n c calls
  end.

Lemma client_turns_calls `{!ProtoLaws Payload} node txs : ∀ c calls chunks,
  arrives (pc_conn c) chunks → (4 ≤ length (pc_buf c))%nat → mjoin chunks = (txs ≫= tx_frame node) →
  Forall (λ tx, ∃ e, marshal (mkPayload node tx) = Some e ∧ Z.of_nat (length e) < 2 ^ 31) txs →
  ∃ c', client_turns (length txs) c calls = Ok (c', calls ++ (pair node <$> txs)).
Proof.
  induction txs as [|tx txs IH]; intros c calls chunks Ha Hb Hj HF.
  { exists c. simpl. by rewrite app_nil_r. }
  apply Forall_cons in HF as [(e & Em & He) HF]. cbn [mbind list_bind] in Hj. unfold tx_frame at 1 in Hj.
  rewrite Em in Hj. simpl in Hj.
  destruct (subscriber_reads_frames c (mkPayload node tx) e chunks (txs ≫= tx_frame node))
    as (c1 & ch1 & E1 & Ha1 & Hj1 & Hb1); [done..|].
  cbn [client_turns length]. unfold client_turn. rewrite E1. cbn [mbind outcome_bind].
  destruct (IH c1 (calls ++ [(node, tx)]) ch1) as (c' & E'); [done..|].
  exists c'. simpl. rewrite E', <- (assoc_L (++)). done.
Qed.

(** C32: When a round is delivered whose blocks all decode and hold well formed transactions,
    and no write to a subscriber fails or times out, every transaction is given to every
    notifier and written to every subscriber's connection, in order and once, and the round is
    acknowledged; a subscriber that receives these bytes, cut into pieces of any size, calls
    back with exactly those transactions in that order. *)
Theorem delivered_transactions_reach_subscribers `{!ProtoLaws Payload} (p : pserver) (s : service DB)
    round blocks txss addr c client chunks :
  all_subscribed p → Forall2 holds_txs blocks txss →
  Forall (λ t, ∃ e, marshal (mkPayload (ps_nodeID p) (td_Data t)) = Some e ∧ Z.of_nat (length e) < 2 ^ 31) (mjoin txss) →
  ps_conns p !! addr = Some c → arrives (pc_conn client) chunks → (4 ≤ length (pc_buf client))%nat →
  ∃ p' c', Listener.handleDeliver p s round blocks = Ok (p', Broadcast.Acknowledge s round) ∧
    published p p' (td_Data <$> mjoin txss) ∧ ps_conns p' !! addr = Some c' ∧
    (n_out (pc_conn c') = n_out (pc_conn c) ++ mjoin chunks →
     ∃ client', client_turns (length (mjoin txss)) client []
                = Ok (client', (λ t, (ps_nodeID p, td_Data t)) <$> mjoin txss)).
Proof.
  intros Hs HF Hf Hc Ha Hb.
  destruct (handleDeliver_publishes p s round blocks txss Hs HF) as (p' & E & Hp).
  { eapply Forall_impl; [exact Hf|]. intros t (e & Em & He). unfold tx_fits. rewrite Em. simpl. lia. }
  pose proof (pb_conns _ _ _ Hp addr) as Hco. rewrite Hc in Hco. inversion Hco as [c1 c' [Hsub Ho] E1 E2|]; subst.
  exists p', c'. split_and!; [done|done|done|]. intros Hch. rewrite Ho in Hch. apply app_inv_head in Hch.
  destruct (client_turns_calls (ps_nodeID p) (td_Data <$> mjoin txss) client [] chunks) as (client' & E'); [done..| |].
  { apply Forall_fmap. exact Hf. }
  exists client'. rewrite length_fmap in E'. rewrite E'. by rewrite app_nil_l, <- list_fmap_compose.
Qed.

(** A delivered block without a transactions field makes the listener panic; the witness is
    such a block that passes all the checks of processBlock. *)
Theorem block_without_transactions_panics (p : pserver) (s : service DB) round signed block blocks :
  unmarshal (sd_Data signed) = Some block → b_Transactions block = None →
  Listener.handleDeliver p s round (signed :: blocks) = Halt Panic.
Proof.
  intros Eu En. unfold Listener.handleDeliver. cbn [range]. unfold Listener.publish_block, Ext.SignedData_Block.
  rewrite Eu. cbn [or_panic mbind outcome_bind]. unfold Ext.Iter. by rewrite En.
Qed.
End Pubsub.

(** ** Adding transactions over HTTP *)
Lemma AddTransactions_holds {DB} `{Signatures} txs : ∀ (s : service DB) old s',
  Ext.holds (v_tx s) old → Rest.AddTransactions s txs = Ok (s', Rest.AllAdded) →
  Ext.holds (v_tx s') (old ++ ((λ tx, mkTx tx 0) <$> txs)).
Proof.
  induction txs as [|tx txs IH]; intros s old s' Hh; cbn [Rest.AddTransactions].
  { intros [= <-]. by rewrite app_nil_r. }
  unfold Broadcast.AddTransaction.
  destruct (Ext.AddTransaction_holds (v_tx s) old (mkTx tx 0) Hh) as (a & E & Ha); [by vm_compute|].
  simpl in E. rewrite E. cbn [mbind outcome_bind]. destruct a as [| |b]; [done..|]. destruct Ha as [Ha _].
  intros Hr. specialize (IH (Broadcast.set_tx s b) _ _ Ha Hr). by rewrite <- (assoc_L (++)) in IH.
Qed.
