(* ===== verification/Restart.v ===== *)
(** * Transactions across restarts

    The listener (src/txlistener/txlistener.go) registers with the broadcast service, which
    replays the rounds that were stored but not acknowledged, and publishes the rounds that are
    reported from then on; every round is acknowledged when its transactions have been
    published.  A node is started by [Broadcast.New] on its database, which [loadState] reads;
    [lives] runs one start after the other.  The transactions of every round are published once,
    in order, when the node is stopped between two rounds; a stop between publishing a round and
    acknowledging it leaves that round to be published again. *)

From S2P Require Import Prelude Messages Block Graph Lexinum Codec Kv Conn ConnProps Cache Store StoreProps StoreScan Ext Depgraph Broadcast Replay Callbacks Pubsub PubsubProps.
Import Codec Broadcast.

#[local] Set Default Proof Using "Type*".

(** ** What a start reads of the database *)
Section Load.
Context {DB : Type} `{KVLaws DB} `{Signatures} `{PS : Proto SignedData} `{PB : Proto Block}
  `{PR : Proto BlockReference} `{PL : Proto ListBlocks} `{PG : Proto GetBlocks} `{PN : Proto GetRounds}
  `{PA : Proto AckBroadcast} `{HA : Hasher}.
Implicit Types (st : store DB).

Definition readable {A} (m : outcome (serr + A)) : Prop :=
  m = Ok (inl (DBErr KeyNotFound)) ∨ ∃ a, m = Ok (inr a).

Lemma readable_default {A} (d : A) m : readable m → ∃ a, or_default d m = Ok a.
Proof. intros [->|[a ->]]; eexists; reflexivity. Qed.

(** Everything [loadState] reads besides the interpreted rounds can be read; the node's own
    graphs are [gr 1], ..., [gr n]. *)
Record loadable st (node n : Z) (gr : Z → BlockGraph) : Prop := {
  ld_last : readable (Store.getLastRoundData st);
  ld_received : readable (Store.getReceivedMap st);
  ld_sent : readable (Store.getSentMap st);
  ld_waiting : ∃ ds, Store.getNotIncluded st = Ok (inr ds);
  ld_graphs : own_graphs (s_db st) node n gr }.

(** The last interpreted round is [r]. *)
Definition last_stored st (r : Z) : Prop :=
  ∃ consumed, is_u64 consumed ∧ or_default (0, 0) (Store.getLastInterpreted st) = Ok (r, consumed).

(** Only interpreted rounds and the acknowledgement changed. *)
Definition only_rounds st st' : Prop :=
  ∀ p k, p ∉ [interpretedPrefix; lastInterpretedPrefix; roundAcknowledgedPrefix] →
    kv_get (s_db st') (p :: k) = kv_get (s_db st) (p :: k).

#[export] Instance only_rounds_preorder : PreOrder only_rounds.
Proof. split; [by intros st p k|]. intros x y z Hxy Hyz p k Hp. by rewrite Hyz, Hxy. Qed.

Lemma loadable_same st st' node n gr :
  only_rounds st st' → s_closed st = false → s_closed st' = false →
  loadable st node n gr → loadable st' node n gr.
Proof.
  intros E Hc Hc' [L R T W G].
  assert (∀ p k, p ∉ [interpretedPrefix; lastInterpretedPrefix; roundAcknowledgedPrefix] →
    Store.Get (s_db st') (p :: k) = Store.Get (s_db st) (p :: k)) as EG
    by (intros p k Hp; unfold Store.Get; by rewrite E).
  split.
  - unfold Store.getLastRoundData in *. rewrite opened_open in * by done. by rewrite !EG by set_solver.
  - unfold Store.getReceivedMap in *. rewrite opened_open in * by done. by rewrite !EG by set_solver.
  - unfold Store.getSentMap in *. rewrite opened_open in * by done. by rewrite !EG by set_solver.
  - destruct W as [ds W]. exists ds. rewrite <- W. unfold Store.getNotIncluded. rewrite !opened_open by done.
    assert (scan (s_db st') [notIncludedPrefix] [] = scan (s_db st) [notIncludedPrefix] []) as ES.
    { apply scan_ext. intros k [k' ->]. apply E. set_solver. }
    unfold scan in ES. simpl app in ES. cbv zeta. rewrite ES. f_equal.
    induction (Store.valid_for _ _).*1 as [|key keys IH]; [done|]. cbn [Store.notIncluded_loop].
    destruct (sub key 1 (length key)); [|done]. cbn [mbind outcome_bind app]. by rewrite EG, IH by set_solver.
  - assert (∀ bg, stored_graph (s_db st') bg ↔ stored_graph (s_db st) bg) as ESG
      by (intros bg; unfold stored_graph; by rewrite blockGraphKey_cons, E by set_solver).
    destruct G as [Hok Hr Hs Ho]. split; [|done| |].
    + intros k v. rewrite E by set_solver. apply Hok.
    + intros k (bg & Hb & ?)%Hs. exists bg. by rewrite ESG.
    + intros bg. rewrite ESG. apply Ho.
Qed.

(** A node that is started has the stored rounds, and no callback yet. *)
Lemma New_loads fuel keys maxPayload node peers refSize txSize rate total dbg (db : DB) n gr r :
  let st := mkStore false db (Z.of_nat (length peers) + 1) in
  loadable st node n gr → last_stored st r → refSize + txSize + 100 ≠ 0 → is_u64 node → 0 ≤ n →
  n + 100 < 2 ^ 64 → (Z.to_nat n + 2 < fuel)%nat →
  ∃ s cfg, New fuel keys maxPayload node peers refSize txSize rate total dbg db = Ok (s, cfg) ∧
    v_cb s = false ∧ v_store s = st ∧ v_interpreted s = r.
Proof.
  intros st [L R T [ds W] G] (consumed & Hcu & E) Hz Hn Hp Hw Hf. unfold New.
  rewrite (proj2 (Z.eqb_neq _ _) Hz). cbv zeta. fold st. unfold loadState.
  assert (∃ x, (r0 ← Store.getLastRoundData st;
    match r0 with inr (round, hash, ref) => Ok (round, hash, Some ref) | inl (DBErr KeyNotFound) => Ok (0, [], None)
    | inl _ => Halt Fatal end) = Ok x) as [[[rd hash] ref] ->]
    by (destruct L as [->|[[[? ?] ?] ->]]; eexists; reflexivity).
  cbn [mbind outcome_bind]. rewrite E. cbn [mbind outcome_bind].
  destruct (readable_default (list_to_map ((λ p, (p, mkReceived 0 0)) <$> peers)) _ R) as [rmap Er].
  destruct (readable_default (list_to_map ((λ p, (p, 0)) <$> peers)) _ T) as [sent Es].
  cbn [c_peers]. rewrite Er. cbn [mbind outcome_bind]. rewrite Es. cbn [mbind outcome_bind].
  unfold replayGraphChanges. cbn [v_store v_conf c_nodeID]. rewrite W. cbn [or_fatal mbind outcome_bind].
  change (v_store (set_depgraph _ _)) with st. change (c_nodeID (v_conf (set_depgraph _ _))) with node.
  destruct (replay_ends st node n gr consumed 100 fuel) as [gs ->]; [done..|lia|done|done|done|done|].
  cbn [or_fatal mbind outcome_bind]. eexists _, _. split; [reflexivity|]. done.
Qed.
End Load.

Section Restart.
Context {DB : Type} `{KVLaws DB} `{Signatures} `{PS : Proto SignedData} `{!ProtoLaws SignedData}
  `{PB : Proto Block} `{PR : Proto BlockReference} `{PL : Proto ListBlocks} `{PG : Proto GetBlocks}
  `{PN : Proto GetRounds} `{PA : Proto AckBroadcast} `{HA : Hasher} `{PP : Proto Payload}.
Implicit Types (s : service DB) (p : pserver).

(** The database accepts the writes of rounds and of acknowledgements. *)
Context (writes : ∀ (st : store DB) data, s_closed st = false → (Store.setInterpreted st data).2 = None).
Context (ack_writes : ∀ (st : store DB) round, s_closed st = false → (Store.setDeliverAcknowledged st round).2 = None).
(** The blocks of the rounds, their transactions, and the node they are published by. *)
Context (B : Z → list SignedData) (T : Z → list (list TransactionData)) (node : Z) (at_info : bool).
Context (T_blocks : ∀ k, Forall2 holds_txs (B k) (T k)).
Context (T_fit : ∀ k, Forall (λ t, tx_fits node (td_Data t)) (mjoin (T k))).

(** The transactions of the rounds from [i] on. *)
Definition txs_of (i n : Z) : list bytes := seqZ i n ≫= λ k, td_Data <$> mjoin (T k).

Lemma setAcknowledged_Ok (st : store DB) k :
  s_closed st = false →
  let st' := (Store.setDeliverAcknowledged st k).1 in
  s_closed st' = false ∧
  ∀ key, kv_get (s_db st') key = if decide ([roundAcknowledgedPrefix] = key) then inr (put_le 8 k) else kv_get (s_db st) key.
Proof using All.
  intros Hc st'. pose proof (ack_writes st k Hc) as Hw. unfold st'. clear st'.
  destruct (Store.setDeliverAcknowledged st k) as [st' e] eqn:E. simpl in *. subst e.
  apply update_Ok in E as (_ & Hc' & _ & t & Ht%finish_Ok & Hk). split; [done|].
  intros key. by rewrite Hk, (Set_get _ _ _ _ key Ht).
Qed.

(** The rounds up to [r] are stored, and the last one is known to a node that is started. *)
Record rounds_kept (st : store DB) (a r : Z) : Prop := {
  rk_rounds : stored_rounds st B a r;
  rk_last : last_stored st r }.

Lemma rounds_kept_db st st' a r :
  s_db st' = s_db st → s_closed st' = false → rounds_kept st a r → rounds_kept st' a r.
Proof using All.
  intros Ed Hc [[Ho Hr Ha] Hl]. split; [split; [done|by rewrite Ed|]|].
  - unfold Store.getDeliverAcknowledged in *. rewrite opened_open in * by done. by rewrite Ed.
  - unfold last_stored, Store.getLastInterpreted in *. rewrite opened_open in * by done. by rewrite Ed.
Qed.

(** Acknowledging a round leaves the stored rounds alone. *)
Lemma acknowledged st a k r :
  rounds_kept st a r → is_u64 k → a ≤ k ≤ r →
  let st' := (Store.setDeliverAcknowledged st k).1 in
  rounds_kept st' k r ∧ only_rounds st st' ∧ ∀ id, Store.getBlock st' id = Store.getBlock st id.
Proof using All.
  intros [[Ho Hr Ha] Hl] Hu Hk st'. destruct (setAcknowledged_Ok st k Ho) as [Hc Hg]. fold st' in Hc, Hg.
  split; [split; [split|]|split]; [done| | | | |].
  - intros j Hj. destruct (Hr j) as (ids & Hkey & Hfit & HF'); [lia|]. exists ids. split_and!; [|done|].
    + rewrite Hg. by at_key.
    + eapply Forall2_impl; [exact HF'|]. intros id b (v & Hv & ?). exists v. split; [|done]. rewrite Hg. by at_key.
  - left. unfold Store.getDeliverAcknowledged. rewrite opened_open, (Get_eq _ _ (put_le 8 k)) by (done || rewrite Hg; by at_key).
    cbn [mbind outcome_bind]. by rewrite <- (app_nil_r (put_le 8 k)), read_put8.
  - unfold last_stored, Store.getLastInterpreted, Store.Get in *. rewrite opened_open in * by done.
    rewrite Hg. by at_key.
  - intros p j Hp. rewrite Hg. rewrite decide_False; [done|]. intros [= <- _]. set_solver.
  - intros id. apply getBlock_same; [done..|]. rewrite Hg. by at_key.
Qed.

(** Storing the next round. *)
Lemma interpreted_next s s' r data :
  rounds_kept (v_store s) r r → reported (v_store s) B data → 0 ≤ r → in_Round data = r + 1 →
  is_u64 (in_Consumed data) → blockmaniaCallback at_info s data = Ok s' →
  stored_rounds (v_store s') B r (r + 1) → last_stored (v_store s') (r + 1) ∧ only_rounds (v_store s) (v_store s').
Proof using All.
  intros [Hs _] Hd H0' Er Hcu E Hs'. pose proof (writes (v_store s) data (sr_open _ _ _ _ Hs)) as Hw.
  destruct (Store.setInterpreted (v_store s) data) as [st e] eqn:Es. simpl in Hw. subst e.
  assert (v_store s' = st) as ->.
  { unfold blockmaniaCallback in E. rewrite Es in E. destruct (format_blocks _ _); [|done].
    cbn [mbind outcome_bind fst] in E. destruct (v_cb _); [|by injection E as <-].
    destruct (getBlocks _ _); [|done]. by injection E as <-. }
  pose proof Es as (_ & Hc & Hg)%setInterpreted_Ok. split.
  - exists (in_Consumed data). split; [done|].
    destruct (setInterpreted_stores _ _ _ _ (rp_round _ _ _ Hd) Hcu (rp_fit _ _ _ Hd) (rp_blocks _ _ _ Hd) Es)
      as (_ & -> & _). unfold or_default. cbn [mbind outcome_bind]. by rewrite Er.
  - intros p k Hp. rewrite Hg, !decide_False; [done|rewrite interpretedKey_cons|]; intros [= <- _]; set_solver.
Qed.

(** What the listener and the service have after rounds more were published. *)
Record served p s a r p' s' (txs : list bytes) : Prop := {
  sd_published : published p p' txs;
  sd_rounds : rounds_kept (v_store s') a r;
  sd_blocks : ∀ id, Store.getBlock (v_store s') id = Store.getBlock (v_store s) id;
  sd_other : only_rounds (v_store s) (v_store s');
  sd_cb : v_cb s' = v_cb s }.

Lemma served_trans p1 s1 p2 s2 p3 s3 a a' r r' t1 t2 :
  served p1 s1 a r p2 s2 t1 → served p2 s2 a' r' p3 s3 t2 → served p1 s1 a' r' p3 s3 (t1 ++ t2).
Proof using All.
  intros [P1 _ B1 O1 C1] [P2 R2 B2 O2 C2]. split; [by eapply published_app|done| |by etrans|congruence].
  intros id. by rewrite B2, B1.
Qed.

Lemma deliver_round p s a r k :
  all_subscribed p → ps_nodeID p = node → rounds_kept (v_store s) a r → is_u64 k → a ≤ k ≤ r →
  ∃ p' s', Listener.handleDeliver p s k (B k) = Ok (p', s') ∧ served p s k r p' s' (td_Data <$> mjoin (T k)) ∧
           v_interpreted s' = v_interpreted s.
Proof using All.
  intros Hs En Hst Hu Hk.
  destruct (handleDeliver_publishes p s k (B k) (T k) Hs (T_blocks k)) as (p' & E & Hp); [rewrite En; apply T_fit|].
  destruct (acknowledged _ _ _ _ Hst Hu Hk) as (Hst' & Ho & Hb).
  exists p', (Acknowledge s k). split; [done|]. split; [|done]. by split.
Qed.

Lemma published_same p p' txs : published p p' txs → ps_nodeID p = node → all_subscribed p' ∧ ps_nodeID p' = node.
Proof using All. intros Hp En. split; [by eapply published_subscribed|]. by rewrite (pb_node _ _ _ Hp). Qed.

Lemma replay_all n : ∀ p s i r,
  all_subscribed p → ps_nodeID p = node → rounds_kept (v_store s) (i - 1) r → 0 < i → r < 2 ^ 64 →
  i + Z.of_nat n - 1 = r →
  ∃ p' s', Listener.replay n p s i = Ok (p', s') ∧ served p s r r p' s' (txs_of i (Z.of_nat n)) ∧
           v_interpreted s' = v_interpreted s.
Proof using All.
  induction n as [|n IH]; intros p s i r Hs En Hst Hi0 Hr Hn; cbn [Listener.replay].
  { exists p, s. split; [done|]. split; [|done]. replace (i - 1) with r in Hst by lia.
    split; [by apply published_nil|done..]. }
  rewrite (getInterpreted_at _ i (B i)) by (apply (rk_rounds _ _ _ Hst); lia). cbn [or_fatal mbind outcome_bind].
  destruct (deliver_round p (call_cb s i (B i)) (i - 1) r i) as (p1 & s1 & -> & S1 & I1);
    [done|done|done|unfold is_u64; lia|lia|]. cbn [mbind outcome_bind].
  destruct (published_same _ _ _ (sd_published _ _ _ _ _ _ _ S1) En) as [Hs1 En1].
  destruct (IH p1 s1 (i + 1) r) as (p' & s' & E & S2 & I2); [done|done| |lia|done|lia|].
  { replace (i + 1 - 1) with i by lia. apply S1. }
  exists p', s'. split; [done|]. split; [|by rewrite I2, I1].
  unfold txs_of. rewrite (seqZ_cons i) by lia. cbn [mbind list_bind]. unfold Z.succ.
  replace (Z.pred (Z.of_nat (S n))) with (Z.of_nat n) by lia.
  apply (served_trans p s p1 s1 p' s' i r r r); [|done].
  destruct S1 as [P R Bl O C]. by split.
Qed.

(** A listener that is created publishes what was not acknowledged. *)
Lemma New_all p s a r :
  all_subscribed p → ps_nodeID p = node → v_cb s = false → rounds_kept (v_store s) a r → v_interpreted s = r →
  0 ≤ a ≤ r → r < 2 ^ 64 - 1 →
  ∃ p' s', Listener.New p s = Ok (p', s') ∧ served p (set_cb s true) r r p' s' (txs_of (a + 1) (r - a)).
Proof using All.
  intros Hs En Hcb Hst Hi Ha Hr. unfold Listener.New. rewrite Hcb. cbv zeta.
  assert (∃ x, Store.getDeliverAcknowledged (v_store (set_cb s true)) = Ok x ∧
    (x = inr a ∨ a = 0 ∧ x = inl (DBErr KeyNotFound))) as (x & -> & Hx).
  { pose proof (sr_ack _ _ _ _ (rk_rounds _ _ _ Hst)) as Hack. simpl. destruct Hack as [E|[? E]]; eauto. }
  cbn [mbind outcome_bind].
  assert ((match x with inr ack => Ok ack | inl (DBErr KeyNotFound) => Ok 0 | inl _ => Halt Fatal end) = Ok a) as ->
    by (destruct Hx as [->|[-> ->]]; done).
  cbn [mbind outcome_bind]. rewrite u64_small by (unfold is_u64; lia).
  change (v_interpreted (set_cb s true)) with (v_interpreted s). rewrite Hi.
  destruct (replay_all (Z.to_nat (r - (a + 1) + 1)) p (set_cb s true) (a + 1) r) as (p' & s' & E & S & _);
    [done|done|by replace (a + 1 - 1) with a by lia|lia|lia|lia|].
  exists p', s'. split; [done|]. rewrite Z2Nat.id in S by lia. by replace (r - (a + 1) + 1) with (r - a) in S by lia.
Qed.

(** The rounds a node gets while it runs: they are consecutive, and their blocks are stored. *)
Record reports (st : store DB) (r : Z) (datas : list Interpreted) : Prop := {
  rf_reported : Forall (reported st B) datas;
  rf_consumed : Forall (λ d, is_u64 (in_Consumed d)) datas;
  rf_next : consecutive r datas }.

Lemma reports_same st st' r datas :
  (∀ id, Store.getBlock st' id = Store.getBlock st id) → reports st r datas → reports st' r datas.
Proof using All.
  intros E [HF Hu Hc]. split; [|done..]. eapply Forall_impl; [exact HF|]. intros d [? ? HF2 ?]. split; try done.
  eapply Forall2_impl; [exact HF2|]. intros id b. simpl. by rewrite E.
Qed.
Lemma reports_app st r l1 l2 :
  reports st r (l1 ++ l2) → reports st r l1 ∧ reports st (r + Z.of_nat (length l1)) l2.
Proof using All.
  intros [[F1 F2]%Forall_app [U1 U2]%Forall_app Hc].
  enough (consecutive r l1 ∧ consecutive (r + Z.of_nat (length l1)) l2) as [? ?] by done.
  clear -Hc. revert r Hc. induction l1 as [|d l IH]; intros r Hc; [by rewrite Z.add_0_r|].
  destruct Hc as [? Hc]. apply IH in Hc as [? ?]. cbn [length consecutive].
  rewrite Nat2Z.inj_succ. replace (r + Z.succ (Z.of_nat (length l))) with (r + 1 + Z.of_nat (length l)) by lia. done.
Qed.

(** Rounds reported to a registered listener. *)
Lemma interpreted_all datas : ∀ p s r,
  all_subscribed p → ps_nodeID p = node → v_cb s = true → rounds_kept (v_store s) r r → 0 ≤ r →
  r + Z.of_nat (length datas) < 2 ^ 64 → reports (v_store s) r datas →
  let r' := r + Z.of_nat (length datas) in
  ∃ p' s', range (Listener.interpreted at_info) (p, s) datas = Ok (p', s') ∧
    served p s r' r' p' s' (txs_of (r + 1) (Z.of_nat (length datas))).
Proof using All.
  induction datas as [|data datas IH]; intros p s r Hs En Hcb Hst H0' Hr HR; cbn [range length] in *.
  { exists p, s. split; [done|]. rewrite Z.add_0_r. split; [by apply published_nil|done..]. }
  pose proof HR as [[Hd _]%Forall_cons [Hu _]%Forall_cons [Er _]].
  destruct (reports_app _ _ [data] datas HR) as [_ HR']. rewrite Nat2Z.inj_succ in *.
  destruct (report_one writes B r at_info s r data H0' (rk_rounds _ _ _ Hst) Hd Er)
    as (s1 & E1 & Hst1 & Hb1 & Ecb1 & _ & Ecalls).
  destruct (interpreted_next s s1 r data Hst Hd H0' Er Hu E1 Hst1) as [Hl1 Ho1].
  destruct (deliver_round p s1 r (r + 1) (r + 1)) as (p2 & s2 & E2 & S2 & _); [done|done|done|unfold is_u64; lia|lia|].
  assert (Listener.interpreted at_info (p, s) data = Ok (p2, s2)) as ->.
  { unfold Listener.interpreted. rewrite E1. cbn [mbind outcome_bind]. rewrite Hcb in *. by rewrite Ecalls, last_snoc. }
  cbn [mbind outcome_bind]. destruct (published_same _ _ _ (sd_published _ _ _ _ _ _ _ S2) En) as [Hs2 En2].
  assert (served p s (r + 1) (r + 1) p2 s2 (td_Data <$> mjoin (T (r + 1)))) as S02.
  { destruct S2 as [P R Bl O C]. split; [done|done| |by etrans|congruence]. intros id. by rewrite Bl, Hb1. }
  destruct (IH p2 s2 (r + 1)) as (p' & s' & E & S3);
    [done|done|by rewrite (sd_cb _ _ _ _ _ _ _ S02)|apply S2|lia|lia| |].
  { eapply reports_same; [|exact HR']. apply S02. }
  exists p', s'. split; [done|]. replace (r + Z.succ (Z.of_nat (length datas))) with (r + 1 + Z.of_nat (length datas)) by lia.
  unfold txs_of. rewrite (seqZ_cons (r + 1)) by lia. cbn [mbind list_bind].
  replace (Z.pred (Z.succ (Z.of_nat (length datas)))) with (Z.of_nat (length datas)) by lia.
  by eapply served_trans.
Qed.

(** ** One start after the other *)
Context (fuel : nat) (keys : gmap Z PublicKey) (peers : list Z) (maxPayload refSize txSize rate total : Z) (dbg : bool).
Context (n : Z) (gr : Z → BlockGraph).

(** The node is started on its database, gets rounds, and is stopped; the subscribers are those
    of the server [p].  The results are the servers with what was written to the subscribers. *)
Fixpoint lives (db : DB) (runs : list (pserver * list Interpreted)) : outcome (list pserver * DB) :=
  match runs with
  | [] => Ok ([], db)
  | (p, datas) :: runs =>
      '(s, _) ← Broadcast.New fuel keys maxPayload node peers refSize txSize rate total dbg db;
      x ← Listener.New p s;
      '(p', s') ← range (Listener.interpreted at_info) x datas;
      '(ps, db') ← lives (s_db (v_store s')) runs;
      Ok (p' :: ps, db')
  end.

(** The database as the store of a node that is started on it. *)
Definition opened_db (db : DB) : store DB := mkStore false db (Z.of_nat (length peers) + 1).

Context (node_u64 : is_u64 node) (limits : refSize + txSize + 100 ≠ 0) (graphs : 0 ≤ n ∧ n + 100 < 2 ^ 64)
  (enough : (Z.to_nat n + 2 < fuel)%nat).

Lemma one_life p db a r datas :
  all_subscribed p → ps_nodeID p = node → rounds_kept (opened_db db) a r → loadable (opened_db db) node n gr →
  0 ≤ a ≤ r → r + Z.of_nat (length datas) < 2 ^ 64 - 1 → reports (opened_db db) r datas →
  let r' := r + Z.of_nat (length datas) in
  ∃ s cfg x p' s', Broadcast.New fuel keys maxPayload node peers refSize txSize rate total dbg db = Ok (s, cfg) ∧
    Listener.New p s = Ok x ∧ range (Listener.interpreted at_info) x datas = Ok (p', s') ∧
    published p p' (txs_of (a + 1) (r' - a)) ∧ rounds_kept (opened_db (s_db (v_store s'))) r' r' ∧
    loadable (opened_db (s_db (v_store s'))) node n gr ∧
    ∀ id, Store.getBlock (opened_db (s_db (v_store s'))) id = Store.getBlock (opened_db db) id.
Proof using All.
  intros Hs En Hst Hld Ha Hr HR r'.
  destruct (New_loads fuel keys maxPayload node peers refSize txSize rate total dbg db n gr r)
    as (s & cfg & E & Hcb & Est & Ei); [done|apply Hst|done|done|lia|lia|done|]. fold (opened_db db) in Est.
  destruct (New_all p s a r) as (p1 & s1 & E1 & S1); [done|done|done|by rewrite Est|done|done|lia|].
  destruct (published_same _ _ _ (sd_published _ _ _ _ _ _ _ S1) En) as [Hs1 En1].
  destruct (interpreted_all datas p1 s1 r) as (p' & s' & E2 & S2); [done|done|apply S1|apply S1|lia|lia| |].
  { eapply reports_same; [|exact HR]. intros id. rewrite (sd_blocks _ _ _ _ _ _ _ S1). simpl. by rewrite Est. }
  destruct (served_trans _ _ _ _ _ _ _ _ _ _ _ _ S1 S2) as [P R Bl O C]. simpl in Bl, O. rewrite Est in Bl, O.
  exists s, cfg, (p1, s1), p', s'. split_and!; [done|done|done| |by apply (rounds_kept_db (v_store s'))| |].
  - replace (r' - a) with ((r - a) + Z.of_nat (length datas)) by lia. unfold txs_of in *. rewrite seqZ_app by lia.
    rewrite bind_app. by replace (a + 1 + (r - a)) with (r + 1) by lia.
  - by apply (loadable_same (opened_db db)).
  - intros id. rewrite <- Bl. unfold Store.getBlock. pose proof (sr_open _ _ _ _ (rk_rounds _ _ _ R)).
    by rewrite !opened_open by done.
Qed.

(** With everything acknowledged, each further round is published once over the runs. *)
Lemma lives_from runs : ∀ db r,
  Forall (λ x, all_subscribed x.1 ∧ ps_nodeID x.1 = node) runs →
  rounds_kept (opened_db db) r r → loadable (opened_db db) node n gr → 0 ≤ r →
  r + Z.of_nat (length (mjoin runs.*2)) < 2 ^ 64 - 1 → reports (opened_db db) r (mjoin runs.*2) →
  let r' := r + Z.of_nat (length (mjoin runs.*2)) in
  ∃ ps db' parts, lives db runs = Ok (ps, db') ∧ Forall3 published runs.*1 ps parts ∧
    mjoin parts = txs_of (r + 1) (r' - r) ∧ rounds_kept (opened_db db') r' r'.
Proof using All.
  induction runs as [|[p datas] runs IH]; intros db r HF Hst Hld H0' Hr HR; cbn [lives].
  { exists [], db, []. simpl. rewrite Z.add_0_r, Z.sub_diag. split_and!; [done|constructor|done|done]. }
  apply Forall_cons in HF as [[Hs En] HF]. cbn [fst snd] in *.
  change (mjoin ((p, datas) :: runs).*2) with (datas ++ mjoin runs.*2) in *. rewrite length_app, Nat2Z.inj_add in *.
  apply reports_app in HR as [HR1 HR2].
  destruct (one_life p db r r datas) as (s & cfg & x & p' & s' & E1 & E2 & E3 & P & R & Ld & Bl);
    [done|done|done|done|lia|lia|done|].
  destruct (IH (s_db (v_store s')) (r + Z.of_nat (length datas))) as (ps & db' & parts & E4 & HF3 & Et & Rk);
    [done|done|done|lia|lia|by eapply reports_same|].
  exists (p' :: ps), db', (txs_of (r + 1) (r + Z.of_nat (length datas) - r) :: parts).
  rewrite E1. cbn [mbind outcome_bind]. rewrite E2. cbn [mbind outcome_bind]. rewrite E3. cbn [mbind outcome_bind].
  rewrite E4. split_and!; [done|by constructor| |by rewrite Z.add_assoc].
  change (mjoin (?x :: parts)) with (x ++ mjoin parts). rewrite Et. unfold txs_of. rewrite <- bind_app.
  replace (r + Z.of_nat (length datas) + 1) with (r + 1 + (r + Z.of_nat (length datas) - r)) by lia.
  rewrite <- seqZ_app by lia. f_equal. f_equal. lia.
Qed.

End Restart.
