(* ===== verification/Serving.v ===== *)
(** * Accepting and dialling connections (src/pubsub/pubsub.go, src/pubsub/client/client.go,
    src/node/node.go, src/internal/log/server.go)

    What the loops that accept connections do with each one, and the connections of a
    subscriber.  The results of [Accept] and of [net.Dial] are arguments. *)

From S2P Require Import Prelude Messages Kv Conn LogNet Broadcast Node Pubsub.

(** One result of [Accept]: a connection with the address of its other end, or an error. *)
Inductive accepted := Accepted (addr : bytes) (nc : netconn) | AcceptError.

(** ** The pubsub server *)
Module PubsubServer.
(** [None]: the port could not be opened. *)
Definition New (listens : bool) (nodeID : Z) : option pserver :=
  if listens then Some (mkPServer nodeID ∅ 0 []) else None.

(** After an error the loop goes on with the nil connection, whose address is asked for. *)
Definition listen_turn (s : pserver) (a : accepted) : outcome pserver :=
  match a with
  | Accepted addr nc => Ok (Pubsub.handleConnection s addr nc)
  | AcceptError => Halt Panic
  end.
Definition listen (s : pserver) (l : list accepted) : outcome pserver := range listen_turn s l.

Definition failed (a : accepted) : bool := match a with AcceptError => true | _ => false end.
(** The last connection from an address. *)
Definition latest (l : list accepted) : gmap (list Z) netconn :=
  foldl (λ m a, match a with Accepted addr nc => <[addr := nc]> m | AcceptError => m end) ∅ l.

(** The subscribers are the accepted connections, for each address the last one; one failed
    [Accept] ends the process. *)
Lemma listen_subscribes s l :
  if existsb failed l then listen s l = Halt Panic
  else listen s l = Ok (mkPServer (ps_nodeID s) ((PConn.NewConn <$> latest l) ∪ ps_conns s) (ps_notifiers s) (ps_notified s)).
Proof.
  induction l as [|a l IH] using rev_ind.
  - unfold latest. simpl. rewrite fmap_empty, (left_id_L ∅ (∪)). by destruct s.
  - unfold listen, latest in *. rewrite range_app, foldl_app, existsb_app. destruct (existsb failed l); simpl; rewrite IH; [done|].
    destruct a as [addr nc|]; [|done]. simpl. unfold Pubsub.handleConnection. simpl. by rewrite fmap_insert, insert_union_l.
Qed.
End PubsubServer.

(** ** The node *)

(** The connections that are given to [handleConnection]; an error is fatal. *)
Fixpoint node_listen (l : list accepted) : list netconn * outcome unit :=
  match l with
  | [] => ([], Ok tt)
  | AcceptError :: _ => ([], Halt Fatal)
  | Accepted _ nc :: l => let '(served, r) := node_listen l in (nc :: served, r)
  end.

(** ** The log server *)
Module LogServer.
(** How [Run] ends: it cannot listen, accepting fails, or it waits for the next connection. *)
Inductive ending := NotListening | NotAccepting | Waiting.

(** One connection after the other is served; with what is printed for them. *)
Fixpoint serve (l : list accepted) (printed : list (bytes * bytes)) : outcome (list (bytes * bytes) * ending) :=
  match l with
  | [] => Ok (printed, Waiting)
  | AcceptError :: _ => Ok (printed, NotAccepting)
  | Accepted _ nc :: l =>
      '(_, more) ← LogNet.handle nc;
      serve l (printed ++ more)
  end.
Definition Run (listens : bool) (l : list accepted) : outcome (list (bytes * bytes) * ending) :=
  if listens then serve l [] else Ok ([], NotListening).

(** What is printed for a connection does not depend on the ones before it. *)
Lemma serve_in_order (conns : list (bytes * netconn)) prints rest : ∀ printed,
  Forall2 (λ c p, ∃ nc', LogNet.handle c.2 = Ok (nc', p)) conns prints →
  serve ((λ c, Accepted c.1 c.2) <$> conns) printed = Ok (printed ++ mjoin prints, Waiting) ∧
  serve (((λ c, Accepted c.1 c.2) <$> conns) ++ AcceptError :: rest) printed = Ok (printed ++ mjoin prints, NotAccepting).
Proof.
  intros printed HF. revert printed. induction HF as [|[addr nc] p conns prints [nc' E] HF IH]; intros printed; simpl.
  { by rewrite app_nil_r. }
  simpl in E. rewrite E. cbn [mbind outcome_bind]. rewrite !(assoc_L (++)). apply IH.
Qed.
End LogServer.

(** ** A subscriber *)
Record client := mkClient { cl_nodes : gmap Z (list Z); cl_conns : gmap Z pconn }.

Module Client.
Section Client.
Context (dial : bytes → option netconn).

(** The client, and whether the node could be reached. *)
Definition run (c : client) (nodeID : Z) (addr : bytes) : client * bool :=
  match dial addr with
  | None => (c, false)
  | Some nc => (mkClient (cl_nodes c) (<[nodeID := PConn.NewConn nc]> (cl_conns c)), true)
  end.

(** A known address is left alone. *)
Definition cb (c : client) (nodeID : Z) (addr : bytes) : client :=
  if bool_decide (cl_nodes c !! nodeID = Some addr) then c
  else (run (mkClient (<[nodeID := addr]> (cl_nodes c)) (cl_conns c)) nodeID addr).1.

(** [order] is the order of the iteration over the addresses. *)
Definition New (order : list (Z * bytes)) (nodes : gmap Z (list Z)) : client :=
  foldl (λ c x, (run c x.1 x.2).1) (mkClient nodes ∅) order.

Lemma run_conns c i addr j :
  cl_nodes (run c i addr).1 = cl_nodes c ∧
  cl_conns (run c i addr).1 !! j =
    if decide (i = j) then match dial addr with Some nc => Some (PConn.NewConn nc) | None => cl_conns c !! j end
    else cl_conns c !! j.
Proof.
  unfold run. destruct (dial addr) as [nc|]; simpl; [|by case_decide]. split; [done|]. rewrite lookup_insert. by case_decide.
Qed.

(** Whatever the order, the client is connected to exactly the nodes that can be reached. *)
Lemma New_connects order nodes j :
  order ≡ₚ map_to_list nodes →
  cl_nodes (New order nodes) = nodes ∧
  cl_conns (New order nodes) !! j = PConn.NewConn <$> (nodes !! j ≫= dial).
Proof.
  intros Ho. assert (NoDup order.*1) as HN by (rewrite Ho; apply NoDup_fst_map_to_list).
  assert (∀ c, cl_conns c = ∅ → cl_nodes (foldl (λ c x, (run c x.1 x.2).1) c order) = cl_nodes c ∧
    cl_conns (foldl (λ c x, (run c x.1 x.2).1) c order) !! j = PConn.NewConn <$> ((list_to_map order : gmap Z (list Z)) !! j ≫= dial)) as H.
  { intros c Hc. clear Ho. induction order as [|[i addr] l IH] using rev_ind; [simpl; by rewrite Hc, !lookup_empty|].
    rewrite fmap_app, NoDup_app in HN. destruct HN as (HN & HD & _). destruct (IH HN) as [IH1 IH2]. rewrite foldl_app. cbn [foldl fst snd].
    destruct (run_conns (foldl (λ c x, (run c x.1 x.2).1) c l) i addr j) as [-> ->]. split; [done|].
    rewrite IH2, list_to_map_app. case_decide as E; [subst j|].
    - assert ((list_to_map l : gmap Z (list Z)) !! i = None) as EN.
      { apply not_elem_of_list_to_map. intros Hin. apply (HD i Hin). left. }
      rewrite lookup_union_r by done. simpl. rewrite lookup_insert_eq, EN. simpl. by destruct (dial addr).
    - rewrite lookup_union_l; [done|]. simpl. by rewrite lookup_insert_ne. }
  destruct (H (mkClient nodes ∅) eq_refl) as [H1 H2]. split; [exact H1|]. etrans; [exact H2|].
  by rewrite (list_to_map_proper order (map_to_list nodes) HN Ho), list_to_map_to_list.
Qed.
End Client.
End Client.
