(* ===== verification/Listening.v ===== *)
(** * The program that prints transactions (src/cmd/pubsublistener/main.go)

    It reads the addresses of nodes from a flag, subscribes to them and prints every transaction in
    base64.  The standard library's [strings.Split], [strings.TrimSpace], [strconv.Atoi] and
    [base64.StdEncoding] are written out for what it uses of them. *)

From stdpp Require Import strings.
From S2P Require Import Prelude Messages Config GoText Kv Conn Broadcast Node NodeProps Pubsub Serving.

(** ** Text *)

(** [strings.Split(s, sep)] for a separator of one byte: never empty. *)
Fixpoint Split (sep : Z) (s : bytes) : list bytes :=
  match s with
  | [] => [[]]
  | c :: s => if c =? sep then [] :: Split sep s
              else match Split sep s with part :: parts => (c :: part) :: parts | [] => [[c]] end
  end.

(** [strconv.Atoi]: a sign, and digits that fit into 63 bits. *)
Definition Atoi (s : bytes) : option Z :=
  let '(neg, digits) := match s with 45 :: s => (true, s) | 43 :: s => (false, s) | _ => (false, s) end in
  n ← ParseUint digits;
  if neg : bool then if 2 ^ 63 <? n then None else Some (- n)
  else if 2 ^ 63 <=? n then None else Some n.

(** The UTF-8 text of the white space of Unicode. *)
Definition spaces : list bytes :=
  ((λ c, [c]) <$> [9; 10; 11; 12; 13; 32]) ++ [[194; 133]; [194; 160]; [225; 154; 128]] ++
  ((λ c, [226; 128; c]) <$> [128; 129; 130; 131; 132; 133; 134; 135; 136; 137; 138; 168; 169; 175]) ++
  [[226; 129; 159]; [227; 128; 128]].
Definition starts_with (p s : bytes) : bool := bool_decide (take (length p) s = p).
Fixpoint trim_left (fuel : nat) (s : bytes) : bytes :=
  match fuel, list_find (λ p, starts_with p s = true) spaces with
  | S fuel, Some (_, p) => trim_left fuel (drop (length p) s)
  | _, _ => s
  end.
Definition ends_with (p s : bytes) : bool := bool_decide (drop (length s - length p) s = p).
Fixpoint trim_right (fuel : nat) (s : bytes) : bytes :=
  match fuel, list_find (λ p, ends_with p s = true) spaces with
  | S fuel, Some (_, p) => trim_right fuel (take (length s - length p) s)
  | _, _ => s
  end.
Definition TrimSpace (s : bytes) : bytes := let s := trim_left (length s) s in trim_right (length s) s.

Module Base64.
Definition alphabet : bytes := lit "ABCDEFGHIJKLMNOPQRSTUVWXYZabcdefghijklmnopqrstuvwxyz0123456789+/".
Definition letter (d : Z) : Z := default 0 (alphabet !! Z.to_nat d).
Definition pad : Z := 61.
(** The four digits of three bytes. *)
Definition digit0 (a : Z) : Z := letter (a / 4).
Definition digit1 (a b : Z) : Z := letter (a mod 4 * 16 + b / 16).
Definition digit2 (b c : Z) : Z := letter (b mod 16 * 4 + c / 64).
Definition digit3 (c : Z) : Z := letter (c mod 64).
Fixpoint EncodeToString (s : bytes) : bytes :=
  match s with
  | [] => []
  | [a] => [digit0 a; digit1 a 0; pad; pad]
  | [a; b] => [digit0 a; digit1 a b; digit2 b 0; pad]
  | a :: b :: c :: s => digit0 a :: digit1 a b :: digit2 b c :: digit3 c :: EncodeToString s
  end.
End Base64.

(** ** The program *)
Module PubsubListener.

(** [None]: the program has exited with status 1. An entry without an address is out of the bounds of
    its parts. *)
Fixpoint split_entries (entries : list bytes) (out : gmap Z (list Z)) : outcome (option (gmap Z (list Z))) :=
  match entries with
  | [] => Ok (Some out)
  | v :: entries =>
      let sp := Split 61 v in
      id ← or_panic (head sp);
      match Atoi id with
      | None => Ok None
      | Some i =>
          addr ← or_panic (sp !! 1%nat);
          split_entries entries (<[u64 i := TrimSpace addr]> out)
      end
  end.
Definition splitAddresses (s : bytes) : outcome (option (gmap Z (list Z))) := split_entries (Split 44 s) ∅.

(** The line that is printed for a transaction. *)
Definition pubsubCallback (nodeID : Z) (tx : bytes) : bytes :=
  lit "node-" ++ dec nodeID ++ lit " => tx=" ++ Base64.EncodeToString tx ++ [10].

(** The client of the nodes in the flag, or exit status 1; [order] is the order of the
    iteration over the addresses. *)
Definition main (dial : bytes → option netconn) (order : gmap Z (list Z) → list (Z * bytes)) (addrs : bytes)
    : outcome (option client) :=
  match addrs with
  | [] => Ok None
  | _ =>
      o ← (splitAddresses addrs : outcome (option (gmap Z (list Z))));
      Ok (match o with Some nodes => Some (Client.New dial (order nodes) nodes) | None => None end)
  end.
End PubsubListener.

(** ** Printing *)
Module Base64Props.
Import Base64.
Definition is_byte (c : Z) : Prop := 0 ≤ c < 256.
Lemma alphabet_once : NoDup (pad :: alphabet) ∧ length alphabet = 64%nat.
Proof. split; [apply (bool_decide_unpack _)|]; vm_compute; done. Qed.
Lemma letter_inj d e : 0 ≤ d < 64 → 0 ≤ e < 64 → letter d = letter e → d = e.
Proof.
  intros Hd He. destruct alphabet_once as [[_ HN]%NoDup_cons HL]. unfold letter.
  destruct (lookup_lt_is_Some_2 alphabet (Z.to_nat d)) as [x Ex]; [lia|].
  destruct (lookup_lt_is_Some_2 alphabet (Z.to_nat e)) as [y Ey]; [lia|].
  rewrite Ex, Ey. simpl. intros ->. pose proof (NoDup_lookup _ _ _ _ HN Ex Ey). lia.
Qed.
Lemma letter_pad d : 0 ≤ d < 64 → letter d ≠ pad.
Proof.
  intros Hd. destruct alphabet_once as [[HP _]%NoDup_cons HL]. unfold letter.
  destruct (lookup_lt_is_Some_2 alphabet (Z.to_nat d)) as [x Ex]; [lia|]. rewrite Ex. simpl. intros ->.
  apply HP. by eapply list_elem_of_lookup_2.
Qed.

(** The digits are below 64. *)
Lemma digit_bounds a b c : is_byte a → is_byte b → is_byte c →
  0 ≤ a / 4 < 64 ∧ 0 ≤ a mod 4 * 16 + b / 16 < 64 ∧ 0 ≤ b mod 16 * 4 + c / 64 < 64 ∧ 0 ≤ c mod 64 < 64.
Proof. unfold is_byte. intros. Z.div_mod_to_equations. lia. Qed.
Lemma zero_byte : is_byte 0.
Proof. unfold is_byte. lia. Qed.
Lemma digits_inj a b c a' b' c' :
  is_byte a → is_byte b → is_byte c → is_byte a' → is_byte b' → is_byte c' →
  digit0 a = digit0 a' → digit1 a b = digit1 a' b' → digit2 b c = digit2 b' c' →
  a = a' ∧ b = b' ∧ (digit3 c = digit3 c' → c = c').
Proof.
  intros Ha Hb Hc Ha' Hb' Hc'. destruct (digit_bounds a b c) as (B0 & B1 & B2 & B3); [done..|].
  destruct (digit_bounds a' b' c') as (B0' & B1' & B2' & B3'); [done..|].
  intros E0%letter_inj E1%letter_inj E2%letter_inj; [|done..]. unfold is_byte in *.
  assert (a = a' ∧ b = b') as [-> ->] by (Z.div_mod_to_equations; lia).
  split_and!; [done|done|]. intros E3%letter_inj; [|done..]. Z.div_mod_to_equations; lia.
Qed.
(** A digit of the text is not the padding. *)
Lemma digit23_pad b c : is_byte b → is_byte c → digit2 b c ≠ pad ∧ digit3 c ≠ pad.
Proof. intros Hb Hc. destruct (digit_bounds 0 b c zero_byte Hb Hc) as (_ & _ & B2 & B3). split; by apply letter_pad. Qed.

(** Different transactions are printed differently. *)
Theorem EncodeToString_inj s t : Forall is_byte s → Forall is_byte t → EncodeToString s = EncodeToString t → s = t.
Proof.
  remember (length s) as n eqn:En. revert s t En. induction n as [n IH] using lt_wf_ind. intros s t En Hs Ht.
  pose proof zero_byte as H0.
  destruct s as [|a [|b [|c s]]], t as [|a' [|b' [|c' t]]]; try done; rewrite !Forall_cons in *; destruct_and?; cbn [EncodeToString];
    intros [=]; repeat match goal with H : pad = _ |- _ => symmetry in H end;
    try (exfalso; match goal with
      | H : digit2 _ _ = pad |- _ => by eapply (proj1 (digit23_pad _ _ _ _)) in H
      | H : digit3 _ = pad |- _ => by eapply (proj2 (digit23_pad 0 _ _ _)) in H end).
  - destruct (digits_inj a 0 0 a' 0 0) as (-> & _ & _); done.
  - destruct (digits_inj a b 0 a' b' 0) as (-> & -> & _); done.
  - destruct (digits_inj a b c a' b' c') as (-> & -> & Hc); [done..|]. rewrite Hc by done. do 3 f_equal.
    eapply IH; [|reflexivity|done|done|done]. simpl in En. lia.
Unshelve. all: done.
Qed.
End Base64Props.

(** ** Splitting *)
Lemma Split_nonempty sep s : Split sep s ≠ [].
Proof. destruct s as [|c s]; simpl; [done|]. destruct (_ =? _); [done|]. by destruct (Split sep s). Qed.
Lemma Split_none sep s : sep ∉ s → Split sep s = [s].
Proof.
  induction s as [|c s IH]; [done|]. rewrite not_elem_of_cons. intros [Hc Hs]. simpl.
  rewrite (proj2 (Z.eqb_neq c sep)) by done. by rewrite IH.
Qed.
Lemma Split_app sep s rest : sep ∉ s → Split sep (s ++ sep :: rest) = s :: Split sep rest.
Proof.
  induction s as [|c s IH]; simpl; [by rewrite Z.eqb_refl|]. rewrite not_elem_of_cons. intros [Hc Hs].
  rewrite (proj2 (Z.eqb_neq c sep)) by done. by rewrite IH.
Qed.

Lemma Atoi_dec z : 0 ≤ z < 2 ^ 63 → Atoi (dec z) = Some z.
Proof.
  intros Hz. unfold Atoi. pose proof (dec_digits z) as HF.
  assert ((match dec z with 45 :: s => (true, s) | 43 :: s => (false, s) | _ => (false, dec z) end) = (false, dec z)) as ->.
  { destruct (dec z) as [|c s]; [done|]. apply Forall_cons in HF as [Hc _].
    repeat (case_match; try done; try lia). }
  rewrite ParseUint_dec by (unfold is_u64; lia). cbn [mbind option_bind].
  destruct (Z.leb_spec (2 ^ 63) z); [lia|done].
Qed.

(** An address as it is given: without separators and without spaces around it. *)
Record plain (addr : bytes) : Prop := {
  pl_comma : 44 ∉ addr; pl_equals : 61 ∉ addr; pl_trim : TrimSpace addr = addr }.

(** The flag that names the addresses [l]. *)
Definition entry_text (x : Z * bytes) : bytes := dec x.1 ++ 61 :: x.2.
Fixpoint addrs_text (l : list (Z * bytes)) : bytes :=
  match l with [] => [] | [x] => entry_text x | x :: l => entry_text x ++ 44 :: addrs_text l end.

Lemma not_digit c z : c ∉ dec z ∨ 48 ≤ c ≤ 57.
Proof.
  destruct (decide (c ∈ dec z)) as [Hin|]; [right|by left]. pose proof (dec_digits z) as HF.
  by apply (proj1 (Forall_forall _ _) HF) in Hin.
Qed.
Lemma entry_text_comma x : plain x.2 → 44 ∉ entry_text x.
Proof.
  intros [H1 _ _]. unfold entry_text. rewrite not_elem_of_app, not_elem_of_cons.
  split_and!; [by destruct (not_digit 44 x.1) as [?|?]; [|lia]|done|done].
Qed.
Lemma entry_text_parts x : plain x.2 → Split 61 (entry_text x) = [dec x.1; x.2].
Proof.
  intros [_ H2 _]. unfold entry_text. rewrite Split_app by (by destruct (not_digit 61 x.1) as [?|?]; [|lia]).
  by rewrite Split_none.
Qed.
Lemma addrs_text_entries l : l ≠ [] → Forall (λ x, plain x.2) l → Split 44 (addrs_text l) = entry_text <$> l.
Proof.
  intros Hne HF. induction HF as [|x l Hx HF IH]; [done|]. destruct l as [|y l].
  - simpl. by apply Split_none, entry_text_comma.
  - change (addrs_text (x :: y :: l)) with (entry_text x ++ 44 :: addrs_text (y :: l)). rewrite Split_app by (by apply entry_text_comma). by rewrite IH.
Qed.

Lemma split_entries_text l : ∀ out,
  Forall (λ x, 0 ≤ x.1 < 2 ^ 63 ∧ plain x.2) l →
  PubsubListener.split_entries (entry_text <$> l) out = Ok (Some (foldl (λ m x, <[x.1 := x.2]> m) out l)).
Proof.
  induction l as [|x l IH]; intros out HF; [done|]. apply Forall_cons in HF as [[Hi Hp] HF].
  cbn [fmap list_fmap PubsubListener.split_entries]. rewrite entry_text_parts by done. cbn [head or_panic mbind outcome_bind].
  rewrite Atoi_dec by done. simpl. rewrite (pl_trim _ Hp), u64_small by (unfold is_u64; lia). by apply IH.
Qed.

Lemma insert_all_map (m : gmap Z (list Z)) l : NoDup l.*1 → foldl (λ m x, <[x.1 := x.2]> m) m l = list_to_map l ∪ m.
Proof.
  revert m. induction l as [|[i a] l IH]; intros m HN; simpl; [by rewrite (left_id_L ∅ (∪))|].
  apply NoDup_cons in HN as [Hi HN]. rewrite IH by done. simpl.
  rewrite <- insert_union_l, <- insert_union_r; [done|]. by apply not_elem_of_list_to_map.
Qed.

(** The program subscribes to the nodes that its flag names and that can be reached, and to no
    others. *)
Theorem listener_subscribes dial order (nodes : gmap Z (list Z)) l :
  l ≡ₚ map_to_list nodes → l ≠ [] → Forall (λ x, 0 ≤ x.1 < 2 ^ 63 ∧ plain x.2) l → (∀ m, order m ≡ₚ map_to_list m) →
  ∃ c, PubsubListener.main dial order (addrs_text l) = Ok (Some c) ∧
    ∀ j, cl_conns c !! j = PConn.NewConn <$> (nodes !! j ≫= dial).
Proof.
  intros Hl Hne HF Ho. assert (NoDup l.*1) as HN by (rewrite Hl; apply NoDup_fst_map_to_list).
  assert (foldl (λ m x, <[x.1 := x.2]> m) ∅ l = nodes) as Em.
  { rewrite insert_all_map by done. rewrite (right_id_L ∅ (∪)).
    by rewrite (list_to_map_proper l (map_to_list nodes) HN Hl), list_to_map_to_list. }
  exists (Client.New dial (order nodes) nodes). split; [|intros j; by apply Client.New_connects].
  unfold PubsubListener.main, PubsubListener.splitAddresses. destruct (addrs_text l) as [|c s] eqn:E.
  { destruct l as [|x [|y l]]; [done| |]; simpl in E; unfold entry_text in E; by apply (f_equal length) in E; rewrite ?length_app in E; simpl in E; lia. }
  rewrite <- E, addrs_text_entries; [|done|by eapply Forall_impl; [exact HF|intros x []]].
  rewrite split_entries_text by done. cbn [mbind outcome_bind]. by rewrite Em.
Qed.
