(* ===== verification/Commands.v ===== *)
(** * The commands and the HTTP interface (src/cmd/blockmania, src/internal/exitutil,
    src/rest/api/api.go, src/rest/service/wsservice.go)

    Flags, JSON bodies and the answers of the system are arguments; a command gives its exit
    status. *)

From stdpp Require Import strings.
From S2P Require Import Prelude Messages Config Base32 Log Kv Ext Broadcast Node Keys Files Setup Startup Pubsub.

(** ** Leaving the process (exitutil.go) *)
Module Exitutil.
(** The functions to call, the last registered first; [Exit] calls them in this order. *)
Definition AtExit {F} (funcs : list F) (f : F) : list F := f :: funcs.
Definition Exit {F S} (call : F → S → S) (funcs : list F) (s : S) : S := foldl (λ s f, call f s) s funcs.
End Exitutil.

(** ** main, init and run *)
Module Cmd.
Inductive action := PrintHelp | InitCommand (args : list (list Z)) | RunCommand (args : list (list Z)).

(** What [main] does and, when it prints the help, the exit status. *)
Definition main (args : list (list Z)) : action * Z :=
  match args with
  | [] => (PrintHelp, 1)
  | cmd :: args =>
      if bool_decide (cmd = lit "help") then (PrintHelp, 0)
      else if bool_decide (cmd = lit "init") then (InitCommand args, 0)
      else if bool_decide (cmd = lit "run") then (RunCommand args, 0)
      else (PrintHelp, 1)
  end.

(** The flags of [init] with their defaults; the flag -f is read and not used. *)
Record init_flags := mkInitFlags {
  if_networkName : bytes; if_configRoot : list (list Z); if_registry : bytes; if_roundInterval : Z; if_httpPort : Z;
  if_pubsubPort : Z; if_nodeCount : Z; if_fixedPort : bool; if_force : bool }.
Definition default_init (root : list (list Z)) : init_flags :=
  mkInitFlags (lit "default") root [] (1 * Generate.Second) 8000 7000 4 false false.

Section Init.
Context {FS : Type} `{OS FS} `{Ed25519} `{X509} `{Hasher}.
Context `{YK : Yaml KeysConf} `{YW : Yaml Network} `{YN : Yaml NodeConf}.

(** [None]: the flags could not be parsed. *)
Definition initCommand (url_ok : bytes → bool) (flags : option init_flags) (token : option bytes)
    (rnds : Z → bytes * Transport.source) (fs : FS) : outcome (FS * Z) :=
  match flags with
  | None => Ok (fs, 1)
  | Some f =>
      let cfg := Generate.mkGConfig (if_networkName f) (if_configRoot f) (if_registry f) (if_roundInterval f)
                   (if_httpPort f) (if_pubsubPort f) (if_nodeCount f) (if_fixedPort f) false false in
      match Generate.Validate url_ok cfg with
      | Some _ => Ok (fs, 1)
      | None =>
          '(fs, e) ← Generate.Generate cfg token rnds fs;
          Ok (fs, match e with Some _ => 1 | None => 0 end)
      end
  end.

Record run_flags := mkRunFlags {
  rf_networkName : bytes; rf_nodeID : Z; rf_configRoot : list (list Z); rf_runtimeRoot : option (list (list Z));
  rf_consoleLog : bytes; rf_fileLog : bytes }.

(** [cfg.Node.Logging.FileLevel = level] *)
Definition set_file_level (c : Config) (level : Z) : outcome Config :=
  let n := cf_Node c in
  l ← or_panic (nd_Logging n);
  let l := mkLogging (lg_ConsoleLevel l) level (lg_FilePath l) (lg_ServerHost l) (lg_ServerLevel l) (lg_ServerToken l) in
  Ok (mkNodeConfig (cf_Directory c) (cf_Keys c) (cf_Network c) (cf_NetworkName c) (cf_NodeID c)
        (mkNodeConf (nd_Announce n) (nd_Bootstrap n) (nd_Broadcast n) (nd_Connections n) (nd_Consensus n) (nd_HTTP n)
           (Some l) (nd_Pubsub n) (nd_Registries n) (nd_Storage n))).

(** What is running when [run] waits for a signal. *)
Record running := mkRunning {
  ru_config : Config; ru_consoleLevel : Z; ru_dir : list (list Z); ru_logFile : option (list (list Z) * Z);
  ru_node : Startup.node_up; ru_pubsubPort : Z; ru_httpPort : Z }.

(** [opens] is whether the log file can be opened, [locked] what [TryLock] gives, [None] an error;
    [listens] is whether the pubsub port could be opened.  [inl]: the exit status. *)
Definition runCommand (flags : option run_flags) (opens : bool) (locked : option bool) (listens : bool)
    (sys : Startup.system) (order : list (Z * option Peer)) (fs : FS) : outcome (FS * (Z + running)) :=
  match flags with
  | None => Ok (fs, inl 1)
  | Some f =>
  if rf_nodeID f =? 0 then Ok (fs, inl 1)
  else
  match Startup.LoadConfiguration fs (rf_networkName f) (rf_configRoot f) (rf_runtimeRoot f) (rf_nodeID f) with
  | inl _ => Ok (fs, inl 1)
  | inr cfg =>
  console ← (if bool_decide (rf_consoleLog f = [])
             then l ← or_panic (nd_Logging (cf_Node cfg)); Ok (Some (lg_ConsoleLevel l))
             else Ok (Startup.flag_level (rf_consoleLog f)));
  match console with
  | None => Ok (fs, inl 1)
  | Some console =>
  cfg' ← (if bool_decide (rf_fileLog f = []) then Ok (Some cfg)
          else match Startup.flag_level (rf_fileLog f) with
               | None => Ok None
               | Some level => c ← set_file_level cfg level; Ok (Some c)
               end);
  match cfg' with
  | None => Ok (fs, inl 1)
  | Some cfg =>
  '(fs, r) ← Startup.EnsureRuntimeDirs opens fs cfg;
  match r with
  | inl _ => Ok (fs, inl 1)
  | inr (rdir, logfile) =>
  match locked with
  | Some true =>
  if negb listens then Ok (fs, inl 1)
  else
  let static := match nd_Bootstrap (cf_Node cfg) with Some b => map_to_list (bs_Static b) | None => [] end in
  r ← Startup.Run order static sys cfg;
  match r with
  | inl _ => Ok (fs, inl 1)
  | inr up => Ok (fs, inr (mkRunning cfg console rdir logfile up (se_Port (nd_Pubsub (cf_Node cfg))) (se_Port (nd_HTTP (cf_Node cfg)))))
  end
  | _ => Ok (fs, inl 1)
  end end end end end end.
End Init.
End Cmd.

(** ** The HTTP interface (api.go) *)
Module Api.
Definition StatusOK : Z := 200.
Definition StatusNoContent : Z := 204.
Definition StatusBadRequest : Z := 400.
Definition StatusInternalServerError : Z := 500.

(** The status and whether the answer has an error text; a transaction that does not fit keeps the request open. *)
Inductive reply := Reply (status : Z) (error : bool) | Open (rest : list bytes).

Section Transactions.
Context {DB : Type} `{Signatures}.
Implicit Types (s : service DB).

(** [req]: the transactions of the body; [None] when it cannot be decoded. *)
Definition addTransactions s (req : option (list bytes)) : outcome (service DB * reply) :=
  match req with
  | None => Ok (s, Reply StatusBadRequest true)
  | Some txs =>
      '(s, r) ← Rest.AddTransactions s txs;
      Ok (s, match r with
             | Rest.AllAdded => Reply StatusOK false
             | Rest.AddFailed => Reply StatusInternalServerError true
             | Rest.Blocked rest => Open rest
             end)
  end.
Definition addTransaction s (req : option bytes) : outcome (service DB * reply) :=
  addTransactions s ((λ tx, [tx]) <$> req).
End Transactions.

(** The loop of [Websocket]: what the client's connection and the context do in turn.  The
    payloads written, whether the channel was marked as closed, and the status when it returns. *)
Inductive event := NextPayload (written : bool) | CtxDone (closed : bool).
Fixpoint websocket_loop (events : list event) (c : Rest.chanCloser) (written : list (Z * bytes))
    : list (Z * bytes) * Rest.chanCloser * option Z :=
  match events with
  | [] => (written, c, None)
  | CtxDone closed :: _ =>
      (written, Rest.mkChan (Rest.ch_C c) true, Some (if closed then StatusOK else StatusInternalServerError))
  | NextPayload ok :: events =>
      match Rest.take_payload c with
      | None => websocket_loop events c written
      | Some (p, c) =>
          if ok then websocket_loop events c (written ++ [p])
          else (written, Rest.mkChan (Rest.ch_C c) true, Some StatusInternalServerError)
      end
  end.
(** [websocket]: the status of the answer; [None] while the client is served.  [Websocket] returns an
    error in every case, so that the answer without content is never given. *)
Definition websocket (upgraded : bool) (events : list event) (c : Rest.chanCloser) : list (Z * bytes) * option Z :=
  if upgraded then
    let '(written, _, r) := websocket_loop events c [] in (written, r)
  else ([], Some StatusInternalServerError).

(** The client gets the payloads of its channel in order, and loses at most the one that
    could not be written; no payload is taken after the channel is marked as closed. *)
Lemma websocket_in_order events : ∀ c written written' c' r,
  websocket_loop events c written = (written', c', r) →
  ∃ sent lost, written' = written ++ sent ∧ Rest.ch_C c = sent ++ lost ++ Rest.ch_C c' ∧ (length lost ≤ 1)%nat ∧
    (lost ≠ [] → r = Some StatusInternalServerError) ∧ (is_Some r → Rest.ch_close c' = true).
Proof.
  induction events as [|[ok|closed] events IH]; intros c written written' c' r; cbn [websocket_loop].
  - intros [= <- <- <-]. exists [], []. rewrite app_nil_r. split_and!; [done|done|simpl; lia|done|by intros []].
  - unfold Rest.take_payload. destruct (Rest.ch_C c) as [|p rest] eqn:Ec.
    { intros H. apply IH in H as (sent & lost & -> & E & H). rewrite Ec in E. by exists sent, lost. }
    destruct ok.
    + intros H. apply IH in H as (sent & lost & -> & E & H). exists (p :: sent), lost.
      rewrite <- app_assoc. simpl in E. rewrite E. done.
    + intros [= <- <- <-]. exists [], [p]. rewrite app_nil_r. simpl. split_and!; done || lia.
  - intros [= <- <- <-]. exists [], []. rewrite app_nil_r. simpl. split_and!; done || lia.
Qed.
End Api.
