(* ===== verification/Web.v ===== *)
(** * The HTTP server (src/rest/rest.go, src/rest/api/api.go, src/rest/service/wsservice.go) and the
    end of the process (src/cmd/blockmania/run.go)

    The life of the server with its goroutines as steps, the routes of the interface, the way
    of a published transaction to the clients of the websocket, and the cleaning up when the
    process ends.  The HTTP framework that matches requests with routes is a class with laws. *)

From stdpp Require Import strings.
From S2P Require Import Prelude Messages Config Kv Conn Ext Broadcast Node Pubsub PubsubProps Commands.

(** ** The life of the server (rest.go) *)
Module RestServer.
(** A goroutine of [Start]: it has not yet begun to listen, it serves, or it has returned. *)
Inductive thread := Spawned | Serving | Returned.
#[export] Instance thread_eq_dec : EqDecision thread.
Proof. solve_decision. Defined.

(** The port, whether [http.Server.Shutdown] was called, the requests that are being handled, the
    ones whose handler waits in [AddTransaction] until a block takes the transaction, the
    goroutines and the counter of the wait group. *)
Record server := mkServer {
  sv_port : Z; sv_inShutdown : bool; sv_requests : nat; sv_waiting : nat; sv_threads : list thread; sv_wg : nat }.

(** [New] also registers the notifier of the websocket service with the pubsub server. *)
Definition New (port : Z) (ps : pserver) : server * pserver :=
  (mkServer port false 0 0 [] 0, Rest.NewWS ps).

Definition set_requests (s : server) (requests waiting : nat) : server :=
  mkServer (sv_port s) (sv_inShutdown s) requests waiting (sv_threads s) (sv_wg s).
Definition set_threads (s : server) (threads : list thread) (wg : nat) : server :=
  mkServer (sv_port s) (sv_inShutdown s) (sv_requests s) (sv_waiting s) threads wg.

(** [s.wg.Add(1)] and a new goroutine. *)
Definition Start (s : server) : server := set_threads s (sv_threads s ++ [Spawned]) (S (sv_wg s)).

(** [ListenAndServe] of goroutine [i] begins to serve, unless the server was shut down. *)
Definition listen (i : nat) (s : server) : option server :=
  match sv_threads s !! i, sv_inShutdown s with
  | Some Spawned, false => Some (set_threads s (<[i := Serving]> (sv_threads s)) (sv_wg s))
  | _, _ => None
  end.
(** [ListenAndServe] returns: when the port cannot be opened, or after [Shutdown]; then [wg.Done()]. *)
Definition return_ (i : nat) (s : server) : option server :=
  let done := Some (set_threads s (<[i := Returned]> (sv_threads s)) (pred (sv_wg s))) in
  match sv_threads s !! i with
  | Some Spawned => done
  | Some Serving => if sv_inShutdown s then done else None
  | _ => None
  end.
(** A request is accepted, and answered. *)
Definition request (s : server) : option server :=
  if bool_decide (Serving ∈ sv_threads s) && negb (sv_inShutdown s)
  then Some (set_requests s (S (sv_requests s)) (sv_waiting s)) else None.
Definition answer (s : server) : option server :=
  match sv_requests s with S n => Some (set_requests s n (sv_waiting s)) | O => None end.
(** Its handler waits for room in the next block; the service has put the transaction into a block. *)
Definition await_block (s : server) : option server :=
  match sv_requests s with S n => Some (set_requests s n (S (sv_waiting s))) | O => None end.
Definition taken (s : server) : option server :=
  match sv_waiting s with S n => Some (set_requests s (S (sv_requests s)) n) | O => None end.
(** [Shutdown]: no request is accepted any more; it returns when all are answered and the wait
    group is at zero. *)
Definition Shutdown (s : server) : server :=
  mkServer (sv_port s) true (sv_requests s) (sv_waiting s) (sv_threads s) (sv_wg s).
Definition shutdown_returns (s : server) : bool :=
  sv_inShutdown s && bool_decide (sv_requests s = 0%nat) && bool_decide (sv_waiting s = 0%nat) && bool_decide (sv_wg s = 0%nat).

(** The steps of the server itself: its goroutines go on, requests are answered or wait. *)
Inductive progress : server → server → Prop :=
  | listen_progress i s s' : listen i s = Some s' → progress s s'
  | return_progress i s s' : return_ i s = Some s' → progress s s'
  | answer_progress s s' : answer s = Some s' → progress s s'
  | await_progress s s' : await_block s = Some s' → progress s s'.
Inductive step : server → server → Prop :=
  | start_step s : step s (Start s)
  | progress_step s s' : progress s s' → step s s'
  | request_step s s' : request s = Some s' → step s s'
  | taken_step s s' : taken s = Some s' → step s s'
  | shutdown_step s : step s (Shutdown s).
End RestServer.

(** ** The routes (api.go) *)
Module Router.
Inductive endpoint := Docs | AddTransaction | AddTransactions | Websocket | Healthcheck.
Record route := mkRoute { rt_method : bytes; rt_path : bytes; rt_endpoint : endpoint }.
Definition GET : bytes := lit "GET".
Definition POST : bytes := lit "POST".
Definition routes : list route := [
  mkRoute GET (lit "/swagger/*any") Docs;
  mkRoute POST (lit "api/transaction") AddTransaction;
  mkRoute POST (lit "api/transactions") AddTransactions;
  mkRoute GET (lit "/api/pubsub/ws") Websocket;
  mkRoute GET (lit "/healthcheck") Healthcheck ].

(** The path of a route in the group of "/". *)
Definition absolute (p : bytes) : bytes := match p with 47 :: _ => p | _ => 47 :: p end.
(** The text before a parameter that takes the rest of the path, and whether there is one. *)
Fixpoint before_star (p : bytes) : bytes * bool :=
  match p with
  | [] => ([], false)
  | c :: p => if c =? 42 then ([], true) else let '(q, star) := before_star p in (c :: q, star)
  end.
Definition path_matches (pattern p : bytes) : bool :=
  let '(q, star) := before_star (absolute pattern) in
  if star : bool then bool_decide (take (length q) p = q) else bool_decide (p = q).
Definition matches (method path : bytes) (r : route) : bool :=
  bool_decide (rt_method r = method) && path_matches (rt_path r) path.

(** The framework: the route of a request with a method and a path. *)
Class Engine := { find_route : list route → bytes → bytes → option route }.
Class EngineLaws `{Engine} := {
  find_unique (l : list route) method path r :
    r ∈ l → matches method path r = true → (∀ r', r' ∈ l → matches method path r' = true → r' = r) →
    find_route l method path = Some r;
  find_sound (l : list route) method path r :
    find_route l method path = Some r → r ∈ l ∧ matches method path r = true }.

Record request := mkRequest { rq_method : bytes; rq_path : bytes; rq_body : bytes }.
(** What the handler of a request does: an answer, a client of the websocket, or the framework's
    own answer. *)
Inductive response := Answered (r : Api.reply) | Upgrading | Documentation | NotRouted.

Section Serve.
Context {DB : Type} `{Signatures} `{Engine}.
(** [BindJSON] of the two kinds of requests. *)
Context (BindTx : bytes → option bytes) (BindTxs : bytes → option (list bytes)).
Implicit Types (s : service DB).

Definition handler (e : endpoint) s (body : bytes) : outcome (service DB * response) :=
  match e with
  | Docs => Ok (s, Documentation)
  | AddTransaction => '(s, r) ← Api.addTransaction s (BindTx body); Ok (s, Answered r)
  | AddTransactions => '(s, r) ← Api.addTransactions s (BindTxs body); Ok (s, Answered r)
  | Websocket => Ok (s, Upgrading)
  | Healthcheck => Ok (s, Answered (Api.Reply Api.StatusOK false))
  end.
Definition serve s (q : request) : outcome (service DB * response) :=
  match find_route routes (rq_method q) (rq_path q) with
  | None => Ok (s, NotRouted)
  | Some r => handler (rt_endpoint r) s (rq_body q)
  end.
End Serve.
End Router.

(** ** The end of the process (run.go, main.go) *)
Module Process.
(** What [runCommand] has started, and whether it holds the lock file. *)
Record process := mkProcess {
  pr_pubsub : pserver; pr_rest : RestServer.server; pr_cancelled : bool; pr_locked : bool }.

(** Steps of the server until [Shutdown] returns. *)
Definition rest_shutdown (drain : RestServer.server → RestServer.server) (s : RestServer.server) : RestServer.server :=
  drain (RestServer.Shutdown s).
Definition cleanup (drain : RestServer.server → RestServer.server) (p : process) : process :=
  mkProcess (Pubsub.Close (pr_pubsub p)) (rest_shutdown drain (pr_rest p)) true false.
(** After a signal [runCommand] returns, which runs the deferred [cleanup], and [main] calls [Exit] with the
    registered one. [log.Fatal] only calls [Exit]. *)
Definition on_signal (drain : RestServer.server → RestServer.server) (p : process) : process :=
  Exitutil.Exit (λ f, f) (Exitutil.AtExit [] (cleanup drain)) (cleanup drain p).
Definition on_fatal (drain : RestServer.server → RestServer.server) (p : process) : process :=
  Exitutil.Exit (λ f, f) (Exitutil.AtExit [] (cleanup drain)) p.
End Process.

(** ** The server stops *)
Module RestProps.
Import RestServer.

Definition running (t : thread) : bool := match t with Returned => false | _ => true end.
Definition alive (s : server) : nat := length (filter (λ t, running t = true) (sv_threads s)).
(** The wait group counts the goroutines that have not returned. *)
Definition counted (s : server) : Prop := sv_wg s = alive s.

Lemma count_insert (l : list thread) : ∀ i t t', l !! i = Some t → running t = true →
  length (filter (λ t, running t = true) (<[i := t']> l)) =
  (length (filter (λ t, running t = true) l) - (if running t' then 0 else 1))%nat ∧
  (0 < length (filter (λ t, running t = true) l))%nat.
Proof.
  induction l as [|x l IH]; intros [|i] t t' Hi Ht; try done.
  - injection Hi as ->. cbn [insert list_insert]. rewrite !filter_cons, (decide_True (P := running t = true)) by done.
    destruct (running t') eqn:E; case_decide; simpl in *; congruence || lia.
  - change (<[S i := t']> (x :: l)) with (x :: <[i := t']> l). rewrite !filter_cons. destruct (IH i t t' Hi Ht) as [E P].
    case_decide; cbn [length]; rewrite E; destruct (running t'); simpl; lia.
Qed.

Lemma progress_counted s s' : progress s s' → counted s → counted s'.
Proof.
  unfold counted, alive. destruct 1 as [i s s' E|i s s' E|s s' E|s s' E]; intros Hc.
  - unfold listen in E. destruct (sv_threads s !! i) as [[]|] eqn:Ei, (sv_inShutdown s); simplify_eq. simpl.
    destruct (count_insert _ i Spawned Serving Ei eq_refl) as [-> _]. simpl. lia.
  - unfold return_ in E. destruct (sv_threads s !! i) as [[]|] eqn:Ei; [| |done|done].
    + simplify_eq. simpl. destruct (count_insert _ i Spawned Returned Ei eq_refl) as [-> ?]. simpl. lia.
    + destruct (sv_inShutdown s); simplify_eq. simpl.
      destruct (count_insert _ i Serving Returned Ei eq_refl) as [-> ?]. simpl. lia.
  - unfold answer in E. case_match; by simplify_eq.
  - unfold await_block in E. case_match; by simplify_eq.
Qed.
Lemma step_counted s s' : step s s' → counted s → counted s'.
Proof.
  destruct 1 as [s|s s' Hp|s s' E|s s' E|s]; [|by apply progress_counted|..]; unfold counted, alive; intros Hc.
  - simpl. rewrite filter_app, length_app. simpl. lia.
  - unfold request in E. case_match; by simplify_eq.
  - unfold taken in E. case_match; by simplify_eq.
  - done.
Qed.
Lemma reachable_counted port ps s : rtc step (New port ps).1 s → counted s.
Proof. intros H. assert (counted (New port ps).1) as H0 by done. induction H; [done|eauto using step_counted]. Qed.

(** What the server itself has to do before [Shutdown] returns. *)
Definition pending (s : server) : nat := (sv_requests s + alive s)%nat.

Lemma progress_shutdown s s' : progress s s' → sv_inShutdown s = true → sv_inShutdown s' = true ∧ pending s = S (pending s').
Proof.
  unfold pending, alive. destruct 1 as [i s s' E|i s s' E|s s' E|s s' E]; intros Hs.
  - unfold listen in E. rewrite Hs in E. by repeat case_match.
  - unfold return_ in E. rewrite Hs in E. destruct (sv_threads s !! i) as [t|] eqn:Ei; [|done].
    assert (running t = true) as Ht by (by destruct t). destruct (count_insert _ i t Returned Ei Ht) as [E1 ?].
    destruct t; simplify_eq; simpl; rewrite E1; simpl; split; done || lia.
  - unfold answer in E. destruct (sv_requests s); simplify_eq. split; [done|]. simpl. lia.
  - unfold await_block in E. destruct (sv_requests s); simplify_eq. split; [done|]. simpl. lia.
Qed.

Lemma shutdown_goes_on s :
  counted s → sv_inShutdown s = true → pending s ≠ 0%nat →
  ∃ s', progress s s' ∧ sv_waiting s' = sv_waiting s.
Proof.
  intros Hc Hs Hr. unfold pending in Hr. destruct (sv_requests s) as [|n] eqn:Er.
  2: { eexists. split; [apply answer_progress; unfold answer; by rewrite Er|done]. }
  unfold alive in Hr. destruct (filter (λ t, running t = true) (sv_threads s)) as [|t l] eqn:Ef; [done|].
  assert (t ∈ filter (λ t, running t = true) (sv_threads s)) as Ht by (rewrite Ef; left).
  apply list_elem_of_filter in Ht as [Ht [i Hi]%list_elem_of_lookup_1].
  eexists. split; [apply (return_progress i); unfold return_; rewrite Hi, Hs|]; by destruct t.
Qed.

(** Once Shutdown of the HTTP server is called, no goroutine of Start can hold it up, but a
    request that waits for a block can: in any order the server makes as many steps as there are
    handled requests and running goroutines, and Shutdown returns after the last of them if no
    request waits then. *)
Theorem shutdown_stops port ps s :
  rtc step (New port ps).1 s → sv_inShutdown s = true →
  (∀ n s', nsteps progress n s s' → (n ≤ pending s)%nat ∧
     (shutdown_returns s' = true ↔ n = pending s ∧ sv_waiting s' = 0%nat)) ∧
  ∃ s', nsteps progress (pending s) s s' ∧ sv_waiting s' = sv_waiting s.
Proof.
  intros Hreach%reachable_counted Hs.
  assert (∀ s, counted s → sv_inShutdown s = true →
    shutdown_returns s = true ↔ pending s = 0%nat ∧ sv_waiting s = 0%nat) as HL.
  { clear. intros s Hc Hs. unfold shutdown_returns, pending. rewrite Hs, <- Hc, !andb_true_iff, !bool_decide_eq_true. lia. }
  split.
  - intros n s' Hn. induction Hn as [s|n s s1 s' H1 _ IH]; [split; [lia|]; rewrite (HL s Hreach Hs); lia|].
    destruct (progress_shutdown _ _ H1 Hs) as [Hs1 ->]. specialize (IH (progress_counted _ _ H1 Hreach) Hs1).
    split; [lia|]. rewrite (proj2 IH). lia.
  - remember (pending s) as k eqn:Ek. revert s Hreach Hs Ek. induction k as [|k IH]; intros s Hc Hs Ek.
    { exists s. split; [constructor|done]. }
    destruct (shutdown_goes_on s Hc Hs) as (s1 & H1 & W1); [lia|].
    destruct (progress_shutdown _ _ H1 Hs) as [Hs1 E1].
    destruct (IH s1 (progress_counted _ _ H1 Hc) Hs1) as (s' & Hn & Hw); [lia|].
    exists s'. split; [by econstructor|congruence].
Qed.
End RestProps.

(** ** The process ends with everything closed *)
Module ProcessProps.
Import Process.

Definition drained (drain : RestServer.server → RestServer.server) (s : RestServer.server) : Prop :=
  rtc RestServer.progress s (drain s) ∧ RestServer.shutdown_returns (drain s) = true.

Record closed (p : process) : Prop := {
  cl_subscribers : map_Forall (λ _ c, n_closed (pc_conn c) = true) (ps_conns (pr_pubsub p));
  cl_http : RestServer.shutdown_returns (pr_rest p) = true;
  cl_cancelled : pr_cancelled p = true;
  cl_unlocked : pr_locked p = false }.

Lemma cleanup_closed drain p : drained drain (RestServer.Shutdown (pr_rest p)) → closed (cleanup drain p).
Proof.
  intros [_ Hd]. split; simpl; try done. by intros addr c (c0 & <- & _)%lookup_fmap_Some.
Qed.

Lemma progress_returned s s' : RestServer.shutdown_returns s = true → RestServer.progress s s' → RestProps.counted s → False.
Proof.
  unfold RestServer.shutdown_returns. rewrite !andb_true_iff, !bool_decide_eq_true. intros [[[Hs Hr] _] Hw] Hp Hc.
  apply RestProps.progress_shutdown in Hp as [_ E]; [|done]. unfold RestProps.pending in E. rewrite Hr in E. rewrite Hc in Hw. lia.
Qed.

(** The process ends in the same way after a signal, where [cleanup] runs twice, as after a fatal
    error: the connections of the subscribers are closed, the HTTP server has stopped, the node is cancelled
    and the lock is released.  [drain] is how the server goes on until [Shutdown] returns, which it does
    when no request waits for a block for ever. *)
Theorem process_closes port ps s p drain :
  rtc RestServer.step (RestServer.New port ps).1 s → pr_rest p = s →
  drained drain (RestServer.Shutdown s) → drained drain (drain (RestServer.Shutdown s)) →
  closed (on_fatal drain p) ∧ on_signal drain p = on_fatal drain p.
Proof.
  intros Hreach Ep Hd Hd'. apply RestProps.reachable_counted in Hreach. rewrite <- Ep in *. split; [by apply cleanup_closed|].
  unfold on_signal, on_fatal, Exitutil.Exit, Exitutil.AtExit. cbn [foldl]. unfold cleanup. cbn [pr_pubsub pr_rest].
  destruct Hd as [Hp Hr]. f_equal.
  - unfold Pubsub.Close. simpl. f_equal. rewrite <- map_fmap_compose. apply map_fmap_ext. by intros.
  - unfold rest_shutdown. set (d := drain (RestServer.Shutdown (pr_rest p))) in *.
    assert (RestServer.Shutdown d = d) as ->.
    { unfold RestServer.shutdown_returns in Hr. rewrite !andb_true_iff in Hr. destruct Hr as [[[Hr _] _] _]. destruct d; simpl in *; by subst. }
    assert (RestProps.counted d) as Hc.
    { clear -Hp Hreach. assert (RestProps.counted (RestServer.Shutdown (pr_rest p))) as H0 by exact Hreach. induction Hp; eauto using RestProps.progress_counted. }
    destruct Hd' as [Hp' _].
    inversion Hp' as [|s1 s2 s3 H1]; [done|]. subst. by destruct (progress_returned _ _ Hr H1 Hc).
Qed.
End ProcessProps.

(** ** Transactions reach the clients of the websocket *)
Module Websockets.
(** The goroutines of the calls of the notifier, in the order in which they take the lock. *)
Definition callbacks (chans : gmap (list Z) Rest.chanCloser) (calls : list (Z * bytes)) : option (gmap (list Z) Rest.chanCloser) :=
  foldl (λ o call, o ≫= λ chans, Rest.Callback chans call.1 call.2) (Some chans) calls.

(** The calls of notifier [i]. *)
Definition calls_of (i : nat) (l : list (nat * (Z * bytes))) : list (Z * bytes) :=
  snd <$> filter (λ c, c.1 = i) l.

Definition room (k : nat) (c : Rest.chanCloser) : Prop := Rest.ch_close c = false → (length (Rest.ch_C c) + k ≤ 100)%nat.

Lemma Callback_puts chans nodeID tx k :
  map_Forall (λ _, room (S k)) chans →
  ∃ chans', Rest.Callback chans nodeID tx = Some chans' ∧ map_Forall (λ _, room k) chans' ∧
    ∀ id, chans' !! id = c ← chans !! id; if Rest.ch_close c then None else Some (Rest.mkChan (Rest.ch_C c ++ [(nodeID, tx)]) false).
Proof.
  intros Hr. unfold Rest.Callback. rewrite bool_decide_true.
  2:{ intros id c [E Ho]%map_lookup_filter_Some. specialize (Hr id c E Ho). lia. }
  eexists. split; [done|]. assert (∀ id, ((λ c, Rest.mkChan (Rest.ch_C c ++ [(nodeID, tx)]) false) <$>
    filter (λ kv : list Z * Rest.chanCloser, Rest.ch_close kv.2 = false) chans) !! id =
    c ← chans !! id; if Rest.ch_close c then None else Some (Rest.mkChan (Rest.ch_C c ++ [(nodeID, tx)]) false)) as HL.
  { intros id. rewrite lookup_fmap, map_lookup_filter. destruct (chans !! id) as [c|] eqn:E; [|done]. simpl.
    destruct (Rest.ch_close c) eqn:Ec; [rewrite option_guard_False|rewrite option_guard_True]; simpl; try done; by rewrite Ec. }
  split; [|done]. intros id c'. rewrite HL. destruct (chans !! id) as [c|] eqn:E; [|done]. simpl.
  destruct (Rest.ch_close c) eqn:Ec; [done|]. intros [= <-] _. specialize (Hr id c E Ec). simpl. rewrite length_app. simpl. lia.
Qed.

Lemma callbacks_put calls : ∀ chans,
  map_Forall (λ _, room (length calls)) chans →
  ∃ chans', callbacks chans calls = Some chans' ∧
    ∀ id c, chans !! id = Some c → Rest.ch_close c = false → chans' !! id = Some (Rest.mkChan (Rest.ch_C c ++ calls) false).
Proof.
  induction calls as [|[n tx] calls IH]; intros chans Hr.
  { exists chans. split; [done|]. intros id c E Ec. rewrite app_nil_r. rewrite E. destruct c; simpl in *; by subst. }
  destruct (Callback_puts chans n tx (length calls) Hr) as (ch1 & E1 & R1 & L1).
  destruct (IH ch1 R1) as (ch2 & E2 & L2). exists ch2. unfold callbacks in *. simpl. rewrite E1. split; [done|].
  intros id c E Ec. rewrite (L2 id (Rest.mkChan (Rest.ch_C c ++ [(n, tx)]) false)); [|by rewrite L1, E; simpl; rewrite Ec|done].
  simpl. by rewrite <- (assoc_L (++)).
Qed.

Lemma calls_of_app i l l' : calls_of i (l ++ l') = calls_of i l ++ calls_of i l'.
Proof. unfold calls_of. by rewrite filter_app, fmap_app. Qed.
Lemma calls_of_notified i n (x : Z * bytes) : (i < n)%nat → calls_of i ((λ i, (i, x)) <$> seq 0 n) = [x].
Proof.
  intros Hi. rewrite <- (firstn_skipn i (seq 0 n)).
  assert (∀ l, i ∉ l → calls_of i ((λ i, (i, x)) <$> l) = []) as Hnone.
  { induction l as [|j l IH]; [done|]. rewrite not_elem_of_cons. intros [Hj Hl]. unfold calls_of. cbn [fmap list_fmap].
    rewrite filter_cons_False by (simpl; congruence). by apply IH. }
  assert (drop i (seq 0 n) = i :: drop (S i) (seq 0 n)) as E.
  { apply drop_S. apply lookup_seq. lia. }
  rewrite fmap_app, calls_of_app, E. pose proof (NoDup_seq 0 n) as HN.
  rewrite <- (firstn_skipn i (seq 0 n)), E in HN. apply NoDup_app in HN as (_ & HD & [Hi' _]%NoDup_cons).
  rewrite Hnone by (intros Hin; apply (HD i Hin); left). cbn [fmap list_fmap]. unfold calls_of at 1. rewrite filter_cons_True by done.
  change ([(i, x).2] ++ calls_of i ((λ i, (i, x)) <$> drop (S i) (seq 0 n)) = [x]). by rewrite Hnone.
Qed.

(** Every client of the websocket whose channel has room gets each of the published transactions once, in
    the order in which the goroutines of the callback run. *)
Theorem published_reach_websockets `{Proto Payload} p p' txs i chans order :
  published p p' txs → (i < ps_notifiers p)%nat → order ≡ₚ pair (ps_nodeID p) <$> txs →
  map_Forall (λ _, room (length txs)) chans →
  calls_of i (ps_notified p') = calls_of i (ps_notified p) ++ (pair (ps_nodeID p) <$> txs) ∧
  ∃ chans', callbacks chans order = Some chans' ∧
    ∀ id c, chans !! id = Some c → Rest.ch_close c = false → chans' !! id = Some (Rest.mkChan (Rest.ch_C c ++ order) false).
Proof.
  intros Hp Hi Ho Hr. split.
  - rewrite (pb_calls _ _ _ Hp), calls_of_app. f_equal. clear -Hi. induction txs as [|tx txs IH]; [done|].
    cbn [mbind list_bind]. rewrite calls_of_app, calls_of_notified by done. by rewrite IH.
  - apply callbacks_put. assert (length order = length txs) as -> by (by rewrite Ho, length_fmap). done.
Qed.
End Websockets.

(** ** Requests *)
Module RouterProps.
Import Router.
Section Requests.
#[local] Set Default Proof Using "Type*".
Context {DB : Type} `{Signatures} `{EN : Engine} {EL : EngineLaws} (BindTx : bytes → option bytes) (BindTxs : bytes → option (list bytes)).
Implicit Types (s : service DB).

Lemma serve_route s (q : request) r :
  r ∈ routes → matches (rq_method q) (rq_path q) r = true →
  (∀ r', r' ∈ routes → matches (rq_method q) (rq_path q) r' = true → r' = r) →
  serve BindTx BindTxs s q = handler BindTx BindTxs (rt_endpoint r) s (rq_body q).
Proof. intros Hr Hm Hu. unfold serve. by rewrite (find_unique _ _ _ r Hr Hm Hu). Qed.

(** The requests that can change the node. *)
Definition adds (q : request) : option (option (list bytes)) :=
  if bool_decide (rq_method q = POST) then
    if bool_decide (rq_path q = lit "/api/transaction") then Some ((λ tx, [tx]) <$> BindTx (rq_body q))
    else if bool_decide (rq_path q = lit "/api/transactions") then Some (BindTxs (rq_body q))
    else None
  else None.

Lemma matches_POST path r : r ∈ routes → matches POST path r = true →
  path = lit "/api/transaction" ∧ rt_endpoint r = AddTransaction ∨ path = lit "/api/transactions" ∧ rt_endpoint r = AddTransactions.
Proof.
  unfold routes. rewrite !elem_of_cons, elem_of_nil. intros Hr Hm.
  destruct Hr as [->|[->|[->|[->|[->|[]]]]]]; try done; apply bool_decide_eq_true in Hm; auto.
Qed.

(** A request to one of the two addresses for transactions gives them to the node and is
    answered accordingly; no other request changes the node. *)
Theorem requests_add_transactions s (q : request) s' r :
  serve BindTx BindTxs s q = Ok (s', r) →
  match adds q with
  | Some txs => ∃ reply, r = Answered reply ∧ Api.addTransactions s txs = Ok (s', reply)
  | None => s' = s
  end.
Proof.
  unfold adds. destruct (bool_decide_reflect (rq_method q = POST)) as [Em|Em].
  - assert (∀ e, (∃ r, r ∈ routes ∧ matches POST (rq_path q) r = true ∧ rt_endpoint r = e ∧
      ∀ r', r' ∈ routes → matches POST (rq_path q) r' = true → r' = r) →
      serve BindTx BindTxs s q = handler BindTx BindTxs e s (rq_body q)) as HS.
    { intros e (r0 & H1 & H2 & <- & H4). rewrite <- Em in *. by apply serve_route. }
    case_bool_decide as E1; [|case_bool_decide as E2].
    + rewrite (HS AddTransaction).
      * simpl. unfold Api.addTransaction. destruct (Api.addTransactions _ _) as [[s1 r1]|]; [|done]. intros [= <- <-]. by exists r1.
      * exists (mkRoute POST (lit "api/transaction") AddTransaction). rewrite E1. split_and!; [vm_compute; set_solver|done|done|].
        unfold routes. intros r'. rewrite !elem_of_cons, elem_of_nil. intros [->|[->|[->|[->|[->|[]]]]]]; by try (intros ?%bool_decide_eq_true).
    + rewrite (HS AddTransactions).
      * simpl. destruct (Api.addTransactions _ _) as [[s1 r1]|]; [|done]. intros [= <- <-]. by exists r1.
      * exists (mkRoute POST (lit "api/transactions") AddTransactions). rewrite E2. split_and!; [vm_compute; set_solver|done|done|].
        unfold routes. intros r'. rewrite !elem_of_cons, elem_of_nil. intros [->|[->|[->|[->|[->|[]]]]]]; by try (intros ?%bool_decide_eq_true).
    + unfold serve. destruct (find_route _ _ _) as [r0|] eqn:Ef; [|by intros [= <- _]].
      apply find_sound in Ef as [H1 H2]. rewrite Em in H2. destruct (matches_POST _ _ H1 H2) as [[? _]|[? _]]; done.
  - unfold serve. destruct (find_route _ _ _) as [r0|] eqn:Ef; [|by intros [= <- _]].
    apply find_sound in Ef as [H1 H2]. apply andb_prop in H2 as [H2%bool_decide_eq_true _].
    assert (rt_endpoint r0 ≠ AddTransaction ∧ rt_endpoint r0 ≠ AddTransactions) as [N1 N2].
    { unfold routes in H1. rewrite !elem_of_cons, elem_of_nil in H1. destruct H1 as [->|[->|[->|[->|[->|[]]]]]]; done. }
    destruct (rt_endpoint r0); try done; simpl; congruence.
Qed.
End Requests.
End RouterProps.
