(* ===== verification/GraphWitnesses.v ===== *)
(** * The consensus graph on concrete inputs

    Networks of one node, of four nodes, and of four nodes with one that is silent, in which
    every block references the other nodes' blocks of the round before, run for a few rounds;
    and the theorems about the graph at these runs. *)

From S2P Require Import Prelude Bitset Messages Block State Graph Determinism Deliver Updates Ordering Termination Protocol Typing Chain Safety.
Import State Graph.

(** Node 1's block graph of round [r] when the nodes [ps] take part. *)
Definition bid (n r : Z) : BlockID := if r <=? 0 then zeroID else mkBlockID [n; r] n r.
Definition others (ps : list Z) (n : Z) : list Z := filter (λ m, m ≠ n) ps.
Definition deps_of ps (n r : Z) : list BlockID := if r <=? 1 then [] else (λ m, bid m (r - 1)) <$> others ps n.
Definition bg_of ps (r : Z) : BlockGraph :=
  mkBlockGraph (bid 1 r)
    (if r <=? 1 then [] else
       (λ m, mkDep (bid m (r - 1)) (deps_of ps m (r - 1)) (bid m (r - 2))) <$> others ps 1)
    (bid 1 (r - 1)).
Definition spare1 (_ : nat) : nat := 1%nat.

Fixpoint drive (g : graph) (bgs : list BlockGraph) : outcome graph :=
  match bgs with
  | [] => Ok g
  | bg :: bgs =>
      a ← Add g bg;
      g ← or_panic a;
      r ← run_step spare1 g;
      g ← or_panic r;
      drive g bgs
  end.

Lemma drive_steps accepted bgs : ∀ g g',
  drive g bgs = Ok g' → Forall accepted bgs → rtc (step spare1 accepted) g g'.
Proof.
  induction bgs as [|bg bgs IH]; intros g g'; simpl.
  { intros [= <-] _. constructor. }
  intros (a & H1 & (g1 & ->%or_panic_Ok & H)%bind_Ok)%bind_Ok [Ha Hs]%Forall_cons.
  apply bind_Ok in H as (r & H2 & (g2 & ->%or_panic_Ok & H)%bind_Ok).
  eapply rtc_l; [by eapply step_add|]. eapply rtc_l; [by eapply step_run|]. by apply IH.
Qed.

(** ** Runs *)
Record run := mkRun { rn_cfg : Config; rn_bgs : list BlockGraph }.
Definition alone : run := mkRun (mkConfig 0 [1] 1 1 false) (bg_of [1] <$> [1; 2; 3]).
Definition four : run := mkRun (mkConfig 0 [1; 2; 3; 4] 1 4 false) (bg_of [1; 2; 3; 4] <$> [1; 2; 3; 4]).
Definition silent : run := mkRun (mkConfig 0 [1; 2; 3; 4] 1 4 false) (bg_of [1; 2; 3] <$> [1; 2; 3; 4]).

(** The graph at the end of a run, and a test of it. *)
Definition sim (r : run) : graph :=
  match drive (New (rn_cfg r)) (rn_bgs r) with Ok g => g | Halt _ => New (rn_cfg r) end.
Definition given (r : run) (bg : BlockGraph) : Prop := bg ∈ rn_bgs r.
Definition holds_at (r : run) (test : graph → bool) : bool :=
  match drive (New (rn_cfg r)) (rn_bgs r) with Ok g => test g | Halt _ => false end.

Lemma sim_holds r test : holds_at r test = true → reachable spare1 (given r) (rn_cfg r) (sim r) ∧ test (sim r) = true.
Proof.
  unfold holds_at, sim, reachable. destruct (drive (New (rn_cfg r)) (rn_bgs r)) as [g|] eqn:E; [|done].
  intros Ht. split; [|done]. apply (drive_steps (given r) (rn_bgs r)); [done|]. by apply Forall_forall.
Qed.

(** The state of a block in the graph. *)
Definition st (g : graph) (n r : Z) : state := default fresh_state (g_statess g !! bid n r).
Lemma st_Some g n r : bool_decide (is_Some (g_statess g !! bid n r)) = true → g_statess g !! bid n r = Some (st g n r).
Proof. intros H%bool_decide_eq_true. unfold st. by destruct H as [s ->]. Qed.

(** What is tested of the three runs. *)
Definition test_alone (g : graph) : bool :=
  bool_decide (is_Some (g_statess g !! bid 1 2)) && bool_decide (is_Some (g_statess g !! bid 1 3)) &&
  bool_decide (get (final (st g 1 2)) (mkNodeRound 1 1) = Some [1; 1]) &&
  bool_decide (get (final (st g 1 3)) (mkNodeRound 1 1) = Some [1; 1]) &&
  bool_decide (0 ≤ g_round g < 2 ^ 64) && is_ok (process spare1 (register g (bg_of [1] 4)) (self_entry (bg_of [1] 4))) &&
  bool_decide (length (g_delivered g) = 3%nat) &&
  bool_decide (g_delivered g !! 1%nat = Some (mkInterpreted [bid 1 2] 2 2)).
Definition test_four (g : graph) : bool :=
  bool_decide (length (g_delivered g) = 1%nat) && bool_decide (is_Some (g_statess g !! bid 1 4)).
Definition test_silent (g : graph) : bool :=
  bool_decide ((λ m : gmap Z bytes, size m) <$> (g_resolved g !! g_round g) = Some 3%nat).

Lemma alone_run : reachable spare1 (given alone) (rn_cfg alone) (sim alone) ∧ test_alone (sim alone) = true.
Proof. apply sim_holds. vm_compute. reflexivity. Qed.
Lemma four_run : reachable spare1 (given four) (rn_cfg four) (sim four) ∧ test_four (sim four) = true.
Proof. apply sim_holds. vm_compute. reflexivity. Qed.
Lemma silent_run : reachable spare1 (given silent) (rn_cfg silent) (sim silent) ∧ test_silent (sim silent) = true.
Proof. apply sim_holds. vm_compute. reflexivity. Qed.

#[local] Opaque sim.

Ltac facts H :=
  unfold test_alone, test_four, test_silent in H;
  repeat match type of H with
         | _ && _ = true => let H' := fresh "F" in apply andb_prop in H as [H H']
         end.

(** ** Delivery *)
Lemma rounds_in_order_witness :
  length (g_delivered (sim four)) = 1%nat ∧
  in_Round <$> g_delivered (sim four) = rounds_from (u64 (0 + 1)) (length (g_delivered (sim four))) ∧
  g_round (sim four) = u64 (0 + 1 + Z.of_nat (length (g_delivered (sim four)))).
Proof.
  destruct four_run as [Hr F]. facts F. split; [by apply bool_decide_eq_true in F|].
  exact (rounds_in_order spare1 (given four) (rn_cfg four) (sim four) Hr).
Defined.

Lemma delivered_rounds_ok_witness :
  interpreted_ok (Z.of_nat (length [1])) (mkInterpreted [bid 1 2] 2 2).
Proof.
  destruct alone_run as [Hr F]. facts F.
  apply (delivered_rounds_ok spare1 (given alone) (rn_cfg alone) (sim alone) _ Hr).
  apply list_elem_of_lookup. exists 1%nat.
  match goal with H : bool_decide (g_delivered _ !! _ = _) = true |- _ => by apply bool_decide_eq_true in H end.
Defined.

(** Without the blocks of one node, the round stays open. *)
Lemma complete_round_delivered_witness : ∃ hs : gmap Z bytes,
  g_resolved (sim silent) !! g_round (sim silent) = Some hs ∧ size hs = 3%nat ∧ Z.of_nat (size hs) ≠ 4.
Proof.
  destruct silent_run as [Hr F]. facts F. apply bool_decide_eq_true in F.
  destruct (g_resolved (sim silent) !! g_round (sim silent)) as [hs|] eqn:E; [|done].
  exists hs. split; [reflexivity|]. split; [by injection F|].
  exact (complete_round_delivered spare1 (given silent) (rn_cfg silent) (sim silent) hs Hr E).
Defined.

Lemma decisions_stable_witness :
  decided (sim alone) 2 1 [1; 2] ∧ (∀ h, decided (sim alone) 2 1 h → [1; 2] = h).
Proof.
  destruct alone_run as [Hr F]. facts F. match goal with H : bool_decide (g_delivered _ !! _ = _) = true |- _ => apply bool_decide_eq_true in H as D2 end.
  match goal with H : bool_decide (length _ = _) = true |- _ => apply bool_decide_eq_true in H as D3 end.
  assert (decided (sim alone) 2 1 [1; 2]) as Hd.
  { split; [done|]. right. eexists. split; [apply list_elem_of_lookup; by exists 1%nat|]. split; [done|by left]. }
  split; [done|]. intros h Hh.
  apply (decisions_stable spare1 (given alone) (rn_cfg alone) (sim alone) (sim alone) 2 1 [1; 2] h Hr);
    [reflexivity|rewrite D3; simpl; lia|simpl; lia|done|done].
Defined.

(** ** Chains of blocks *)
Lemma decisions_have_quorums_witness : certified 3 (st (sim four) 1 4).
Proof.
  destruct four_run as [Hr F]. facts F.
  exact (decisions_have_quorums spare1 (given four) (rn_cfg four) (sim four) (bid 1 4) _ Hr (st_Some _ _ _ F0)).
Defined.

Lemma alone_voters bg : given alone bg → from_voters (list_to_set [1]) bg.
Proof.
  intros Hbg. unfold given in Hbg. vm_compute in Hbg. unfold from_voters.
  repeat (apply elem_of_cons in Hbg as [->|Hbg]); [..|by apply elem_of_nil in Hbg];
    (split; [apply elem_of_list_to_set; left|constructor]).
Qed.

Lemma conflicting_decisions_share_voters_witness :
  ∃ v v', let common := commit_votes (st (sim alone) 1 2) (mkPrePrepare [1; 1] 1 1 v) ∩
                        commit_votes (st (sim alone) 1 3) (mkPrePrepare [1; 1] 1 1 v') in
    common ⊆ list_to_set [1] ∧ 1 ≤ Z.of_nat (size common).
Proof.
  destruct alone_run as [Hr F]. facts F.
  repeat match goal with H : bool_decide (get _ _ = _) = true |- _ => apply bool_decide_eq_true in H end.
  apply (conflicting_decisions_share_voters spare1 (given alone) (rn_cfg alone) 0 (sim alone) (bid 1 2) (bid 1 3)
    (st (sim alone) 1 2) (st (sim alone) 1 3) (mkNodeRound 1 1) [1; 1] [1; 1]).
  - reflexivity.
  - apply (bool_decide_unpack _). vm_compute. done.
  - apply (bool_decide_unpack _). vm_compute. done.
  - exact alone_voters.
  - exact Hr.
  - by apply st_Some.
  - by apply st_Some.
  - done.
  - done.
Defined.


(** ** Panics and types *)
Lemma alone_well_formed bg : given alone bg → well_formed (rn_cfg alone) bg.
Proof.
  intros Hbg. unfold given in Hbg. vm_compute in Hbg. unfold well_formed, node_ok.
  repeat (apply elem_of_cons in Hbg as [->|Hbg]); [..|by apply elem_of_nil in Hbg];
    (simpl; split_and!; try split; simpl; try lia; try done; constructor).
Qed.

(** At debug level, the first block has been added and is about to be processed. *)
Definition loud : Config := mkConfig 0 [1] 1 1 true.
Definition first_bg (h : bytes) : BlockGraph := mkBlockGraph (mkBlockID h 1 1) [] zeroID.
Definition hash32 : bytes := replicate 32 7.
Definition started (h : bytes) : graph := set_entries (New loud) [first_bg h].
Lemma started_reachable : reachable spare1 (.= first_bg hash32) loud (started hash32).
Proof. apply rtc_once. by apply (step_add _ _ _ (first_bg hash32)). Qed.
Lemma first_well_formed bg : bg = first_bg hash32 → well_formed loud bg.
Proof. intros ->. simpl. split_and!; try split; simpl; try lia; try done; constructor. Qed.

Lemma run_step_never_panics_witness :
  g_entries (started hash32) = [first_bg hash32] ∧
  (run_step spare1 (started hash32) = Halt Fatal ∨ ∃ o, run_step spare1 (started hash32) = Ok o).
Proof.
  split; [done|]. apply (run_step_never_panics spare1 (.= first_bg hash32) loud (started hash32)).
  - split; [by vm_compute|vm_compute; reflexivity].
  - vm_compute. discriminate.
  - exact first_well_formed.
  - exact started_reachable.
Defined.
(** The same block with a hash of two bytes stops the node when it is logged. *)
Example short_hash_panics : run_step spare1 (started [1; 1]) = Halt Panic.
Proof. vm_compute. reflexivity. Qed.


(** ** Messages *)

(** The results of interpreting a message: the response and the two states. *)
Definition result (o : outcome (option Message * state * graph)) : option Message * state * graph :=
  match o with Ok x => x | Halt _ => (None, fresh_state, New (mkConfig 0 [] 0 0 false)) end.
Lemma result_Ok o r : is_ok o = true → (result o).1.1 = r → o = Ok (r, (result o).1.2, (result o).2).
Proof. destruct o as [[[r' s] g]|]; [|done]. simpl. by intros _ ->. Qed.

Definition g0 : graph := New (mkConfig 0 [1; 2; 3; 4] 1 4 false).
Definition pp0 : PrePrepare := mkPrePrepare [2; 1] 2 1 0.
Definition prepare0 (sender : Z) : Prepare := mkPrepare [2; 1] 2 1 sender 0.
Definition commit0 (sender : Z) : Commit := mkCommit [2; 1] 2 1 sender 0.
Definition interpret (a : option Message * state * graph) (sender : Z) (m : Message) :=
  processMessage spare1 a.2 a.1.2 sender 1 (bid 1 1) m.

(** Node 1 sees node 2's proposal, two prepares and two commits. *)
Definition a0 := (@None Message, fresh_state, g0).
Definition a1 := result (interpret a0 2 (MPrePrepare pp0)).
Definition a2 := result (interpret a1 3 (MPrepare (prepare0 3))).
Definition a3 := result (interpret a2 4 (MCommit (commit0 4))).
Definition a4 := result (interpret a3 3 (MCommit (commit0 3))).

Lemma prepare_once_witness :
  a1.1.1 = Some (MPrepare (prepare0 1)) ∧
  ∃ m, MPrePrepare pp0 = MPrePrepare m ∧ m = Msg.Prepare_Pre (prepare0 1) ∧ p_sender (prepare0 1) = 1 ∧
    pp_view m = view_of fresh_state (pp_node m) (pp_round m) ∧
    get (data fresh_state) (PrePrepared (pp_node m) (pp_round m) (pp_view m)) = None ∧
    get (data a1.1.2) (PrePrepared (pp_node m) (pp_round m) (pp_view m)) = Some (VMsg m).
Proof.
  split; [vm_compute; reflexivity|].
  apply (prepare_once spare1 g0 fresh_state 2 1 (bid 1 1) (MPrePrepare pp0) (prepare0 1) a1.1.2 a1.2).
  apply (result_Ok (interpret a0 2 (MPrePrepare pp0))); vm_compute; reflexivity.
Defined.

Lemma commit_quorum_witness :
  Z.of_nat (size (prepare_votes a2.1.2 pp0)) = 3 ∧ c_sender (commit0 1) = 1 ∧
  1 ∈ commit_votes a2.1.2 pp0 ∧ 1 ∉ commit_votes a1.1.2 pp0 ∧
  ∃ p, MPrepare (prepare0 3) = MPrepare p ∧ Msg.Prepare_Pre p = pp0 ∧
    p_view p = view_of a1.1.2 (p_node p) (p_round p) ∧
    is_Some (get (data a2.1.2) (Prepared (p_node p) (p_round p) (p_view p))).
Proof.
  apply (commit_quorum spare1 a1.2 a1.1.2 3 1 (bid 1 1) (MPrepare (prepare0 3)) (commit0 1) a2.1.2 a2.2).
  - lia.
  - intros x [= <-]. simpl. lia.
  - apply (result_Ok (interpret a1 3 (MPrepare (prepare0 3)))); vm_compute; reflexivity.
Defined.

Lemma decision_quorum_witness :
  ∃ c, MCommit (commit0 3) = MCommit c ∧ mkNodeRound 2 1 = mkNodeRound (c_node c) (c_round c) ∧
    [2; 1] = c_hash c ∧ Z.of_nat (size (commit_votes a4.1.2 (Msg.Commit_Pre c))) = 3 ∧
    c_sender c ∈ commit_votes a4.1.2 (Msg.Commit_Pre c) ∧
    c_view c ≤ view_of a3.1.2 (c_node c) (c_round c) ∧ deliver a3.2 (c_node c) (c_round c) [2; 1] = Ok a4.2.
Proof.
  apply (decision_quorum spare1 a3.2 a3.1.2 3 1 (bid 1 1) (MCommit (commit0 3)) None a4.1.2 a4.2).
  - intros x [= <-]. simpl. lia.
  - apply (result_Ok (interpret a3 3 (MCommit (commit0 3)))); vm_compute; reflexivity.
  - vm_compute. reflexivity.
  - vm_compute. reflexivity.
Defined.

Lemma votes_sound_witness :
  (3 ∈ prepare_votes a2.1.2 pp0 → 3 ∈ prepare_votes a1.1.2 pp0 ∨
     (MPrepare (prepare0 3) = MPrePrepare pp0 ∧ (3 = 3 ∨ 3 = 1)) ∨
     (∃ p, MPrepare (prepare0 3) = MPrepare p ∧ Msg.Prepare_Pre p = pp0 ∧ 3 = p_sender p)) ∧
  (3 ∈ commit_votes a2.1.2 pp0 → 3 ∈ commit_votes a1.1.2 pp0 ∨
     (∃ c, Some (MCommit (commit0 1)) = Some (MCommit c) ∧ Msg.Commit_Pre c = pp0 ∧ 3 = 1) ∨
     (∃ c, MPrepare (prepare0 3) = MCommit c ∧ Msg.Commit_Pre c = pp0 ∧ 3 = c_sender c)).
Proof.
  apply (votes_sound spare1 a1.2 a1.1.2 3 1 (bid 1 1) (MPrepare (prepare0 3)) (Some (MCommit (commit0 1))) a2.1.2 a2.2).
  - lia.
  - lia.
  - intros x [= <-]. simpl. lia.
  - apply (result_Ok (interpret a1 3 (MPrepare (prepare0 3)))); vm_compute; reflexivity.
Defined.

Lemma processMessage_view_witness : view_of a1.1.2 2 1 ≤ view_of a2.1.2 2 1.
Proof.
  apply (processMessage_view spare1 a1.2 a1.1.2 3 1 (bid 1 1) (MPrepare (prepare0 3)) (Some (MCommit (commit0 1))) a2.1.2 a2.2).
  apply (result_Ok (interpret a1 3 (MPrepare (prepare0 3)))); vm_compute; reflexivity.
Defined.

Lemma processMessage_only_witness : only 2 1 a1.1.2 a2.1.2.
Proof.
  apply (processMessage_only spare1 a1.2 a1.1.2 3 1 (bid 1 1) (MPrepare (prepare0 3)) (Some (MCommit (commit0 1))) a2.1.2 a2.2).
  apply (result_Ok (interpret a1 3 (MPrepare (prepare0 3)))); vm_compute; reflexivity.
Defined.

(** Node 1's next block after the run is registered and processed. *)
Definition reg4 (g : graph) : graph := register g (bg_of [1] 4).
Definition next_graph (g : graph) : graph :=
  match process spare1 (reg4 g) (self_entry (bg_of [1] 4)) with Ok g' => g' | Halt _ => g end.
Lemma next_Ok g : is_ok (process spare1 (reg4 g) (self_entry (bg_of [1] 4))) = true →
  process spare1 (reg4 g) (self_entry (bg_of [1] 4)) = Ok (next_graph g).
Proof. unfold next_graph. by destruct (process _ _ _). Qed.
Lemma reg4_same g : g_round (reg4 g) = g_round g ∧ g_statess (reg4 g) = g_statess g.
Proof. unfold reg4, register. by destruct (scan_deps _ _ _ _). Qed.

Lemma chain_keeps_decisions_witness :
  ∃ s', g_statess (next_graph (sim alone)) !! bid 1 4 = Some s' ∧
    (∀ nr h, g_round (reg4 (sim alone)) ≤ nr_round nr →
       get (final (st (sim alone) 1 3)) nr = Some h → get (final s') nr = Some h) ∧
    (∀ k v, is_View k = false → g_round (reg4 (sim alone)) ≤ Sd.GetRound k →
       get (data (st (sim alone) 1 3)) k = Some v → get (data s') k = Some v) ∧
    (∀ pp, g_round (reg4 (sim alone)) ≤ pp_round pp →
       prepare_votes (st (sim alone) 1 3) pp ⊆ prepare_votes s' pp ∧
       commit_votes (st (sim alone) 1 3) pp ⊆ commit_votes s' pp).
Proof.
  destruct alone_run as [Hr F]. facts F. destruct (reg4_same (sim alone)) as [Er Es].
  apply (chain_keeps_decisions spare1 (reg4 (sim alone)) (self_entry (bg_of [1] 4)) (next_graph (sim alone))).
  - rewrite Er.
    match goal with H : bool_decide (0 ≤ g_round _ < _) = true |- _ => by apply bool_decide_eq_true in H end.
  - apply next_Ok. match goal with H : is_ok (process _ _ _) = true |- _ => exact H end.
  - vm_compute. exact I.
  - rewrite Es. apply st_Some.
    match goal with H : bool_decide (is_Some (_ !! bid 1 3)) = true |- _ => exact H end.
Defined.

(** ** Maps *)
Lemma map_order_irrelevant_witness :
  timeout_of (mk_params (mkConfig 0 [1; 2; 3; 4] 1 4 false)) [30; 10; 20; 40]
    = timeout_of (mk_params (mkConfig 0 [1; 2; 3; 4] 1 4 false)) [10; 20; 30; 40] ∧
  pick_hash [] [[]; [7]; []] = pick_hash [] [[7]; []; []].
Proof.
  apply (map_order_irrelevant (mk_params (mkConfig 0 [1; 2; 3; 4] 1 4 false)) [30; 10; 20; 40] [10; 20; 30; 40]
    [[]; [7]; []] [[7]; []; []] []).
  - etrans; [apply (Permutation_middle [10; 20] [40] 30)|]. reflexivity.
  - apply Permutation_swap.
Defined.

Lemma delivered_order_irrelevant_witness :
  sort_blocks (round_blocks 1 [(2, [9]); (1, [8])]) =
    sort_blocks (round_blocks 1 (map_to_list (list_to_map [(1, [8]); (2, [9])] : gmap Z bytes))) ∧
  StronglySorted (λ a b, bytes_lt (Hash a) (Hash b)) (sort_blocks (round_blocks 1 [(2, [9]); (1, [8])])).
Proof.
  apply (delivered_order_irrelevant 1 (list_to_map [(1, [8]); (2, [9])]) [(2, [9]); (1, [8])]).
  - rewrite map_to_list_to_map; [apply Permutation_swap|]. apply (bool_decide_unpack _). vm_compute. exact I.
  - apply (bool_decide_unpack _). vm_compute. exact I.
Defined.
