(* ===== verification/RefineWitnesses.v ===== *)
(** * The meaning of block graphs on concrete inputs

    Two nodes of a network of four, one of which is silent, interpret the same blocks in different
    orders; and an execution in which the owner of a block and another node, which get
    different entries for its first block, compute different timeouts. *)

From S2P Require Import Prelude Bitset Messages Block State Graph Meaning Refine RefineExec GraphWitnesses.
Import State Graph.

(** ** Checking executions *)
Definition timely_b (r : Z) (st : pstep) : bool :=
  let '(g, e, g') := (ps_before st, ps_entry st, ps_after st) in
  let held g b := bool_decide (is_Some (g_statess g !! b)) in
  (g_round g <=? r) && (g_round g <=? Round (e_block e)) && Valid (e_block e) &&
  implb (Valid (e_prev e)) (held g (e_prev e) && (Round (e_prev e) <=? Round (e_block e))) &&
  forallb (λ dep, implb (Valid dep) (held g dep && held g' dep)) (e_deps e).

Lemma timely_b_sound r st : timely_b r st = true → timely r st.
Proof.
  destruct st as [g e g']. unfold timely_b. cbn [ps_before ps_entry ps_after].
  rewrite !andb_true_iff, !Z.leb_le, forallb_forall. intros ((((H1 & H2) & H3) & H4) & H5). split; simpl; auto.
  - intros Hv. rewrite Hv in H4. simpl in H4. rewrite andb_true_iff, bool_decide_eq_true, Z.leb_le in H4. done.
  - intros dep Hd Hv. specialize (H5 dep (proj1 (list_elem_of_In _ _) Hd)). rewrite Hv in H5. simpl in H5.
    by rewrite andb_true_iff, !bool_decide_eq_true in H5.
Qed.

#[export] Instance entry_eq_dec : EqDecision entry.
Proof. solve_decision. Defined.

Definition linear_b (es : list entry) : bool :=
  bool_decide (NoDup (e_block <$> es)) && bool_decide (NoDup (filter (λ b, Valid b = true) (e_prev <$> es))).
Lemma linear_b_sound es : linear_b es = true → linear es.
Proof. unfold linear_b. rewrite andb_true_iff, !bool_decide_eq_true. by intros []. Qed.

Definition consistent_b (D : list entry) : bool :=
  forallb (λ e, forallb (λ e', implb (bool_decide (e_block e = e_block e')) (bool_decide (e = e'))) D) D.
Lemma consistent_b_sound D : consistent_b D = true → consistent D.
Proof.
  unfold consistent_b. rewrite forallb_forall. intros H e e' He He' Hb.
  apply list_elem_of_In in He, He'. specialize (H e He). rewrite forallb_forall in H. specialize (H e' He').
  rewrite bool_decide_eq_true_2 in H by done. by apply bool_decide_eq_true in H.
Qed.

(** The calls of [process] for a list of entries. *)
Fixpoint interpret (spare : nat → nat) (g : graph) (es : list entry) : outcome (list pstep * graph) :=
  match es with
  | [] => Ok ([], g)
  | e :: es =>
      g1 ← process spare g e;
      '(l, g2) ← interpret spare g1 es;
      Ok (mkStep g e g1 :: l, g2)
  end.

Lemma interpret_entries spare es : ∀ g0 l g, interpret spare g0 es = Ok (l, g) → ps_entry <$> l = es.
Proof.
  induction es as [|e es IH]; intros g0 l g H; cbn [interpret] in H; [by simplify_eq|].
  apply bind_Ok in H as (g1 & H1 & H). apply bind_Ok in H as ([l2 g2] & H2 & H). simplify_eq.
  cbn [fmap list_fmap ps_entry]. by rewrite (IH _ _ _ H2).
Qed.
Lemma interpret_trace spare cfg es : ∀ l0 g0 l g,
  trace spare cfg l0 g0 → interpret spare g0 es = Ok (l, g) → trace spare cfg (l0 ++ l) g.
Proof.
  induction es as [|e es IH]; intros l0 g0 l g Ht H; cbn [interpret] in H.
  - simplify_eq. by rewrite app_nil_r.
  - apply bind_Ok in H as (g1 & H1 & H). apply bind_Ok in H as ([l2 g2] & H2 & H). simplify_eq.
    eapply tr_process in Ht; [|exact H1]. apply (IH _ _ _ _ Ht) in H2. by rewrite <- app_assoc in H2.
Qed.

(** ** Two nodes *)
Record view_run := mkViewRun { vr_spare : nat → nat; vr_cfg : Config; vr_entries : list entry }.
Definition vr_out (x : view_run) : list pstep * graph :=
  match interpret (vr_spare x) (New (vr_cfg x)) (vr_entries x) with Ok a => a | Halt _ => ([], New (vr_cfg x)) end.
(** The state that the run keeps for a block. *)
Definition vr_state (x : view_run) (b : BlockID) : state := default fresh_state (g_statess (vr_out x).2 !! b).
(** The run is as the theorems ask, and the state of [b] satisfies [P]. *)
Definition vr_check (r : Z) (x : view_run) (b : BlockID) (P : state → bool) : bool :=
  linear_b (vr_entries x) &&
  match interpret (vr_spare x) (New (vr_cfg x)) (vr_entries x) with
  | Ok (l, g) => forallb (timely_b r) l && match g_statess g !! b with Some s => P s | None => false end
  | Halt _ => false
  end.

Lemma vr_check_sound r x b P :
  vr_check r x b P = true →
  trace (vr_spare x) (vr_cfg x) (vr_out x).1 (vr_out x).2 ∧ Forall (timely r) (vr_out x).1 ∧
  linear (ps_entry <$> (vr_out x).1) ∧ g_statess (vr_out x).2 !! b = Some (vr_state x b) ∧
  P (vr_state x b) = true ∧ ps_entry <$> (vr_out x).1 = vr_entries x.
Proof.
  unfold vr_check, vr_state, vr_out. destruct (interpret _ _ _) as [[l g]|] eqn:E; [|by rewrite andb_false_r]. cbn [fst snd].
  destruct (g_statess g !! b) as [s|]; [|by rewrite !andb_false_r]. rewrite !andb_true_iff. intros (H3 & H2 & HP).
  pose proof (interpret_entries _ _ _ _ _ E) as EE. rewrite EE.
  split_and!; [|by apply Forall_forall; intros; apply timely_b_sound; rewrite forallb_forall in H2; apply H2, list_elem_of_In
               |by apply linear_b_sound|done..].
  apply (interpret_trace _ (vr_cfg x) _ [] _ _ _ (tr_start _ _) E).
Qed.

(** The entry of node [n]'s block of round [r] when the nodes 1, 2 and 3 take part. *)
Definition entry_of (n r : Z) : entry :=
  mkEntry (bid n r) (if r <=? 1 then [] else bid n (r - 1) :: deps_of [1; 2; 3] n r) (bid n (r - 1)).
Definition first_node : view_run :=
  mkViewRun (λ _, 0%nat) (mkConfig 0 [1; 2; 3; 4] 1 4 false) (r ← [1; 2; 3; 4]; (λ n, entry_of n r) <$> [1; 2; 3]).
Definition second_node : view_run :=
  mkViewRun (λ _, 3%nat) (mkConfig 0 [1; 2; 3; 4] 2 4 false) (r ← [1; 2; 3; 4]; (λ n, entry_of n r) <$> [3; 1; 2]).

(** The state decides block [h] of node [n] and round [r]. *)
Definition decides_b (n r : Z) (h : bytes) (s : state) : bool := bool_decide (get (final s) (mkNodeRound n r) = Some h).
Definition decided (x : view_run) (b : BlockID) (n r : Z) : option bytes := get (final (vr_state x b)) (mkNodeRound n r).

Lemma first_node_checked : vr_check 1 first_node (bid 1 4) (decides_b 2 1 [2; 1]) = true.
Proof. vm_compute. reflexivity. Qed.
Lemma second_node_checked : vr_check 1 second_node (bid 1 4) (λ _, true) = true.
Proof. vm_compute. reflexivity. Qed.
Lemma both_consistent : consistent_b (vr_entries first_node ++ vr_entries second_node) = true.
Proof. vm_compute. reflexivity. Qed.

Lemma interpreter_refines_meaning_witness :
  ∃ v, meaning (shared (mk_params (vr_cfg first_node))) 1 (ps_entry <$> (vr_out first_node).1) (bid 1 4) v
         (filter (about 1) (out (vr_state first_node (bid 1 4)))) ∧
       v_final v !! mkNodeRound 2 1 = Some [2; 1].
Proof.
  destruct (vr_check_sound _ _ _ _ first_node_checked) as (T & HT & HL & Hs & HD%bool_decide_eq_true & _).
  destruct (interpreter_refines_meaning _ _ _ _ 1 _ _ T HT HL Hs) as (v & M & F & _). exists v. split; [done|].
  by rewrite <- F.
Defined.

Lemma nodes_interpret_blocks_alike_witness : decided second_node (bid 1 4) 2 1 = Some [2; 1].
Proof.
  destruct (vr_check_sound _ _ _ _ first_node_checked) as (T & HT & HL & Hs & HD%bool_decide_eq_true & E).
  destruct (vr_check_sound _ _ _ _ second_node_checked) as (T' & HT' & HL' & Hs' & _ & E').
  pose proof (consistent_b_sound _ both_consistent) as HC. rewrite <- E, <- E' in HC.
  destruct (nodes_interpret_blocks_alike _ _ (vr_cfg first_node) (vr_cfg second_node) _ _ _ _ 1 _ _ _ eq_refl T HT HL T' HT' HL' HC Hs Hs') as (_ & F & _).
  unfold decided. by rewrite <- F.
Defined.

(** ** The entry of a node's own first block *)

(** [run] builds the entry of the node's own block and of other nodes' blocks in the same way, *)
Lemma own_entry_same bg :
  Round (bg_Block bg) ≠ 1 → self_entry bg = dep_entry (mkDep (bg_Block bg) (dep_Block <$> bg_Deps bg) (bg_Prev bg)).
Proof. intros H. unfold self_entry, dep_entry. simpl. by rewrite (proj2 (Z.eqb_neq _ _) H). Qed.

(** except that the first one of the node itself depends on the block it does not have. *)
Lemma own_first_entry_differs bg :
  Round (bg_Block bg) = 1 →
  e_deps (self_entry bg) = bg_Prev bg :: e_deps (dep_entry (mkDep (bg_Block bg) (dep_Block <$> bg_Deps bg) (bg_Prev bg))).
Proof. intros H. unfold self_entry, dep_entry. simpl. by rewrite H. Qed.

(** So node 1 and node 2 give the block of round 4 of node 1 the timeouts 20 and 30. *)
Definition dep (n r : Z) (deps : list BlockID) : Dep := mkDep (bid n r) deps (bid n (r - 1)).
Definition last_deps : list BlockID := [bid 2 1; bid 3 1; bid 4 2].
Definition owner_run : run := mkRun (mkConfig 0 [1; 2; 3; 4] 1 4 false)
  [mkBlockGraph (bid 1 1) [] zeroID; mkBlockGraph (bid 1 2) [] (bid 1 1); mkBlockGraph (bid 1 3) [dep 4 1 []] (bid 1 2);
   mkBlockGraph (bid 1 4) [dep 2 1 []; dep 3 1 []; dep 4 2 []] (bid 1 3)].
Definition other_run : run := mkRun (mkConfig 0 [1; 2; 3; 4] 2 4 false)
  [mkBlockGraph (bid 2 1) [] zeroID;
   mkBlockGraph (bid 2 2) [dep 3 1 []; dep 4 1 []; dep 4 2 []; dep 1 1 []; dep 1 2 []; dep 1 3 [bid 4 1];
                           dep 1 4 last_deps] (bid 2 1)].

Lemma own_blocks_get_other_timeouts :
  e_deps (self_entry (mkBlockGraph (bid 1 4) [dep 2 1 []; dep 3 1 []; dep 4 2 []] (bid 1 3))) =
    e_deps (dep_entry (dep 1 4 last_deps)) ∧
  holds_at owner_run (λ g, timeout_ (st g 1 4) =? 20) = true ∧
  holds_at other_run (λ g, timeout_ (st g 1 4) =? 30) = true.
Proof. vm_compute. done. Qed.
