(* ===== verification/AgreementWitnesses.v ===== *)
(** * Agreement on concrete inputs

    Two nodes of a network of four see different first blocks of the fourth node and decide the
    same block of the second one; two nodes that deliver the same round; and a state that counts a
    vote of a later view for a node that did not cast it. *)

From S2P Require Import Prelude Bitset Messages Block State Graph Deliver Ordering Protocol Meaning Refine RefineExec Votes Accept Agreement TotalOrder GraphWitnesses RefineWitnesses.
Import State Graph.

(** ** Checking the hypotheses *)
Fixpoint before_b (fuel : nat) (D : list entry) (b b' : BlockID) : bool :=
  if bool_decide (b = b') then true
  else match fuel with
  | O => false
  | S fuel => existsb (λ e, if bool_decide (e_block e = b') then
                              if Valid (e_prev e) then before_b fuel D b (e_prev e) else false
                            else false) D
  end.
Lemma before_b_sound fuel D b : ∀ b', before_b fuel D b b' = true → before D b b'.
Proof.
  induction fuel as [|fuel IH]; intros b'; cbn [before_b]; case_bool_decide as E; subst; [by intros; apply rtc_refl|done|by intros; apply rtc_refl|].
  rewrite existsb_exists. intros (e & He%list_elem_of_In & H). case_bool_decide as Eb; [|done].
  destruct (Valid (e_prev e)) eqn:Ev; [|done]. eapply rtc_r; [by apply IH|by exists e].
Qed.

Definition honest_b (D : list entry) (x : Z) : bool :=
  let own := filter (λ e, Node (e_block e) = x) D in
  forallb (λ e, forallb (λ e',
    (if before_b (length D) D (e_block e) (e_block e') then true else before_b (length D) D (e_block e') (e_block e)) &&
    implb (Round (e_block e) =? Round (e_block e')) (bool_decide (e_block e = e_block e'))) own) own.
Lemma honest_b_sound D x : honest_b D x = true → honest D x.
Proof.
  unfold honest_b. cbv zeta. rewrite forallb_forall. intros H.
  assert (∀ e e', e ∈ D → e' ∈ D → Node (e_block e) = x → Node (e_block e') = x →
    (before D (e_block e) (e_block e') ∨ before D (e_block e') (e_block e)) ∧ (Round (e_block e) = Round (e_block e') → e_block e = e_block e')) as HB.
  { intros e e' He He' Hx Hx'. assert (e ∈ filter (λ e, Node (e_block e) = x) D) as Hin%list_elem_of_In by (by apply list_elem_of_filter).
    specialize (H e Hin). rewrite forallb_forall in H.
    assert (e' ∈ filter (λ e, Node (e_block e) = x) D) as Hin'%list_elem_of_In by (by apply list_elem_of_filter).
    specialize (H e' Hin'). rewrite andb_true_iff in H. destruct H as [H1 H2]. split.
    - destruct (before_b _ _ (e_block e) _) eqn:E; [left|right]; by eapply before_b_sound.
    - intros E%Z.eqb_eq. rewrite E in H2. by apply bool_decide_eq_true in H2. }
  split; intros e e' He He' Hx Hx'; by apply HB.
Qed.

Definition similar_b (D : list entry) : bool :=
  forallb (λ e, forallb (λ e', implb (bool_decide (e_block e = e_block e')) (bool_decide (e_prev e = e_prev e' ∧ shown e = shown e'))) D) D.
Lemma similar_b_sound D : similar_b D = true → similar D.
Proof.
  unfold similar_b. rewrite forallb_forall. intros H e e' He He' Hb.
  apply list_elem_of_In in He, He'. specialize (H e He). rewrite forallb_forall in H. specialize (H e' He').
  rewrite bool_decide_eq_true_2 in H by done. by apply bool_decide_eq_true in H.
Qed.

Definition first_view_b (s : state) (n r : Z) : bool :=
  forallb (λ x : PrePrepare * bitset,
    implb (bool_decide (pp_node x.1 = n ∧ pp_round x.1 = r ∧ pp_view x.1 ≠ 0)) (bool_decide (Bitset.votes (commits x.2) = ∅)))
    (map_to_list (default ∅ (bitsets s))).
Lemma first_view_b_sound s n r : first_view_b s n r = true → first_view_only s n r.
Proof.
  unfold first_view_b. rewrite forallb_forall. intros H h w Hw. unfold commit_votes, get.
  destruct (bitsets s) as [m|]; [|done]. simpl in *. destruct (m !! _) as [b|] eqn:E; [|done].
  specialize (H (_, b) (proj1 (list_elem_of_In _ _) (proj2 (elem_of_map_to_list m _ b) E))).
  rewrite bool_decide_eq_true_2 in H by done. by apply bool_decide_eq_true in H.
Qed.

(** ** Two nodes and a forked block *)
Definition forked (h : bytes) (x : view_run) : view_run :=
  mkViewRun (vr_spare x) (vr_cfg x) (mkEntry (mkBlockID h 4 1) [] zeroID :: vr_entries x).
Definition left_node : view_run := forked [4; 1] first_node.
Definition right_node : view_run := forked [9; 9] second_node.
Definition all_entries : list entry := vr_entries left_node ++ vr_entries right_node.
Definition left_state : state := vr_state left_node (bid 1 4).
Definition right_state : state := vr_state right_node (bid 2 4).

Definition known_b (es : list entry) : bool := forallb (λ e, bool_decide (Node (e_block e) ∈ [1; 2; 3; 4])) es.
Lemma known_b_sound es : known_b es = true → Forall (λ e, Node (e_block e) ∈ [1; 2; 3; 4]) es.
Proof.
  unfold known_b. rewrite forallb_forall. intros H. apply Forall_forall. intros e He.
  apply list_elem_of_In in He. apply (bool_decide_unpack _). by rewrite (H e He).
Qed.
Lemma honest_all D x : known_b D = true → forallb (honest_b D) [1; 2; 3] = true → x ∉ ({[4]} : gset Z) → honest D x.
Proof.
  intros HK%known_b_sound HO Hx. rewrite forallb_forall in HO. rewrite Forall_forall in HK.
  destruct (decide (x ∈ [1; 2; 3])) as [Hin|Hout].
  - apply honest_b_sound, HO. by apply list_elem_of_In.
  - assert (∀ e, e ∈ D → Node (e_block e) ≠ x) as HN by (intros e He%HK <-; set_solver).
    split; intros e e' He _ E; by apply HN in E.
Qed.

(** A block of node 2 and round 1 is decided, in the first view. *)
Definition view_decided_b (P : option bytes → bool) (s : state) : bool :=
  P (get (final s) (mkNodeRound 2 1)) && first_view_b s 2 1.
Lemma left_checked : vr_check 1 left_node (bid 1 4) (view_decided_b (λ o, bool_decide (o = Some [2; 1]))) = true.
Proof. vm_compute. reflexivity. Qed.
Lemma right_checked : vr_check 1 right_node (bid 2 4) (view_decided_b (λ o, bool_decide (is_Some o))) = true.
Proof. vm_compute. reflexivity. Qed.
Lemma forks_checked :
  similar_b all_entries = true ∧ forallb (honest_b all_entries) [1; 2; 3] = true ∧ known_b all_entries = true ∧
  length all_entries = 26%nat.
Proof. vm_compute. repeat split. Qed.

Lemma four_peers : NoDup [1; 2; 3; 4].
Proof. by apply (bool_decide_unpack _). Qed.

Lemma first_view_agreement_witness :
  get (final left_state) (mkNodeRound 2 1) = Some [2; 1] ∧ get (final right_state) (mkNodeRound 2 1) = Some [2; 1].
Proof.
  destruct (vr_check_sound _ _ _ _ left_checked) as (T & HT & Li & Hs & [HD%bool_decide_eq_true HF]%andb_prop & E).
  destruct (vr_check_sound _ _ _ _ right_checked) as (T' & HT' & Li' & Hs' & [[h' HD']%bool_decide_eq_true HF']%andb_prop & E').
  destruct forks_checked as (HC & HO & HK & HL). apply similar_b_sound in HC. apply first_view_b_sound in HF, HF'.
  split; [exact HD|]. unfold right_state. rewrite HD'. apply (f_equal Some). symmetry.
  apply (first_view_agreement _ _ (vr_cfg left_node) (vr_cfg right_node) 1 {[4]} _ _ _ _ 1 (bid 1 4) (bid 2 4) left_state right_state 2
    [2; 1] h' eq_refl eq_refl four_peers ltac:(repeat constructor; lia) T HT Li T' HT' Li'); rewrite ?E, ?E';
    change (vr_entries left_node ++ vr_entries right_node) with all_entries.
  - exact HC.
  - rewrite HL. lia.
  - apply known_b_sound. exact HK.
  - done.
  - intros x Hx. exact (honest_all all_entries x HK HO Hx).
  - exact Hs.
  - exact Hs'.
  - exact HD.
  - exact HF.
  - exact HD'.
  - exact HF'.
Defined.

(** ** Two nodes that deliver

    Nodes 1 and 2 of a network in which every block references the blocks of the round before run
    from the start, each with its own block graphs; the fourth node gives them different blocks for the
    third round. *)
Definition last_block (h : bytes) (n r : Z) : BlockID := if (n =? 4) && (r =? 3) then mkBlockID h 4 3 else bid n r.
Definition graph_by (h : bytes) (x r : Z) : BlockGraph :=
  mkBlockGraph (bid x r)
    (if r <=? 1 then [] else
       (λ m, mkDep (last_block h m (r - 1)) (deps_of [1; 2; 3; 4] m (r - 1)) (bid m (r - 2))) <$> others [1; 2; 3; 4] x)
    (bid x (r - 1)).

(** The calls of [process] for a list of block graphs. *)
Fixpoint interpret_graphs (spare : nat → nat) (g : graph) (bgs : list BlockGraph) : outcome (list pstep * graph) :=
  match bgs with
  | [] => Ok ([], g)
  | bg :: bgs =>
      '(l1, g1) ← interpret spare (register g bg) (graph_entries bg);
      '(l2, g2) ← interpret_graphs spare g1 bgs;
      Ok (l1 ++ l2, g2)
  end.
Lemma interpret_graphs_trace spare cfg bgs : ∀ l0 g0 l g,
  trace spare cfg l0 g0 → interpret_graphs spare g0 bgs = Ok (l, g) → trace spare cfg (l0 ++ l) g.
Proof.
  induction bgs as [|bg bgs IH]; intros l0 g0 l g Ht H; cbn [interpret_graphs] in H.
  - simplify_eq. by rewrite app_nil_r.
  - apply bind_Ok in H as ([l1 g1] & H1 & H). apply bind_Ok in H as ([l2 g2] & H2 & H). simplify_eq.
    assert (set_entries g0 (g_entries g0) = g0) as E by (by destruct g0).
    pose proof (quiet_register g0 bg (g_entries g0)) as Q. rewrite E in Q.
    eapply tr_quiet in Ht; [|exact Q]. apply (interpret_trace _ _ _ _ _ _ _ Ht) in H1.
    apply (IH _ _ _ _ H1) in H2. by rewrite <- app_assoc in H2.
Qed.

Lemma interpret_graphs_entries spare bgs : ∀ g0 l g,
  interpret_graphs spare g0 bgs = Ok (l, g) → ps_entry <$> l = bgs ≫= graph_entries.
Proof.
  induction bgs as [|bg bgs IH]; intros g0 l g H; cbn [interpret_graphs] in H; [by simplify_eq|].
  apply bind_Ok in H as ([l1 g1] & H1 & H). apply bind_Ok in H as ([l2 g2] & H2 & H). simplify_eq.
  rewrite fmap_app, (IH _ _ _ H2). by rewrite (interpret_entries _ _ _ _ _ H1).
Qed.

Definition steady_b (st : pstep) : bool := timely_b (g_round (ps_before st)) st.
Definition first_view_step_b (st : pstep) : bool :=
  forallb (λ x : PrePrepare * bitset, (pp_view x.1 =? 0) || bool_decide (Bitset.votes (commits x.2) = ∅))
    (map_to_list (default ∅ (bitsets (default fresh_state (g_statess (ps_after st) !! e_block (ps_entry st)))))).
Lemma first_view_step_b_sound st : first_view_step_b st = true → first_view st.
Proof.
  unfold first_view_step_b. rewrite forallb_forall. intros H s n r Hs h w Hw. rewrite Hs in H. simpl in H.
  unfold commit_votes, get. destruct (bitsets s) as [m|]; [|done]. simpl in *. destruct (m !! _) as [b|] eqn:E; [|done].
  specialize (H (_, b) (proj1 (list_elem_of_In _ _) (proj2 (elem_of_map_to_list m _ b) E))). simpl in H.
  apply orb_true_iff in H as [H%Z.eqb_eq|H%bool_decide_eq_true]; [by apply Hw in H|done].
Qed.

Record deliver_run := mkDeliverRun { dr_spare : nat → nat; dr_cfg : Config; dr_graphs : list BlockGraph }.
Definition dr_out (x : deliver_run) : list pstep * graph :=
  match interpret_graphs (dr_spare x) (New (dr_cfg x)) (dr_graphs x) with Ok a => a | Halt _ => ([], New (dr_cfg x)) end.
Definition dr_entries (x : deliver_run) : list entry := dr_graphs x ≫= graph_entries.
(** The run is as the theorem asks, and delivers [blocks]. *)
Definition dr_check (x : deliver_run) (blocks : list (list BlockID)) : bool :=
  linear_b (dr_entries x) && (first_round (dr_cfg x) + Z.of_nat (length blocks) <? 2 ^ 64) &&
  match interpret_graphs (dr_spare x) (New (dr_cfg x)) (dr_graphs x) with
  | Ok (l, g) => forallb steady_b l && forallb first_view_step_b l && bool_decide (in_Blocks <$> g_delivered g = blocks)
  | Halt _ => false
  end.
Lemma dr_check_sound x blocks : dr_check x blocks = true →
  orderly (dr_spare x) (dr_cfg x) (dr_out x).1 (dr_out x).2 ∧ ps_entry <$> (dr_out x).1 = dr_entries x ∧
  in_Blocks <$> g_delivered (dr_out x).2 = blocks.
Proof.
  unfold dr_check, dr_out. destruct (interpret_graphs _ _ _) as [[l g]|] eqn:E; [|by rewrite !andb_false_r]. cbn [fst snd].
  rewrite !andb_true_iff, bool_decide_eq_true. intros ((H3 & H4) & (H1 & H2) & H5). rewrite forallb_forall in H1, H2.
  pose proof (interpret_graphs_entries _ _ _ _ _ E) as EE. split_and!; [split|done|done].
  - apply (interpret_graphs_trace _ (dr_cfg x) _ [] _ _ _ (tr_start _ _) E).
  - apply Forall_forall. intros st Hst%list_elem_of_In. by apply timely_b_sound, H1.
  - apply Forall_forall. intros st Hst%list_elem_of_In. by apply first_view_step_b_sound, H2.
  - rewrite EE. by apply linear_b_sound.
  - rewrite <- H5, length_fmap in H4. by apply Z.ltb_lt in H4.
Qed.

Definition node_one : deliver_run :=
  mkDeliverRun (λ _, 0%nat) (mkConfig 0 [1; 2; 3; 4] 1 4 false) (graph_by [4; 4] 1 <$> [1; 2; 3; 4]).
Definition node_two : deliver_run :=
  mkDeliverRun (λ _, 3%nat) (mkConfig 0 [1; 2; 3; 4] 2 4 false) (graph_by [9; 9] 2 <$> [1; 2; 3; 4]).
Definition two_entries : list entry := dr_entries node_one ++ dr_entries node_two.
Definition first_blocks : list (list BlockID) := [(λ n, bid n 1) <$> [1; 2; 3; 4]].

Lemma node_one_checked : dr_check node_one first_blocks = true.
Proof. vm_compute. reflexivity. Qed.
Lemma node_two_checked : dr_check node_two first_blocks = true.
Proof. vm_compute. reflexivity. Qed.
Lemma entries_checked :
  similar_b two_entries = true ∧ forallb (honest_b two_entries) [1; 2; 3] = true ∧ honest_b two_entries 4 = false ∧
  known_b two_entries = true ∧ length two_entries = 26%nat.
Proof. vm_compute. repeat split. Qed.

Lemma same_length_prefix {A} (l l' : list A) : length l = length l' → l `prefix_of` l' ∨ l' `prefix_of` l → l = l'.
Proof.
  intros E [[k H]|[k H]]; apply (f_equal length) in H as HL; rewrite length_app in HL;
    (assert (length k = 0%nat) as ->%nil_length_inv by lia); by rewrite app_nil_r in H.
Qed.


(** ** Votes that were not cast

    Node 1 gets the view changes of the nodes 2, 3 and 4 for the block of node 4.  The third one
    makes it start view 1 with a proposal of its own, which it handles as if it came from node 4, so that
    a prepare vote of node 4 is counted although node 4 has only asked for the view change. *)
Definition asks (x : Z) : Message := MViewChange (mkViewChange [] 4 1 x 1).
Definition after_views : outcome state :=
  let step (a : outcome (state * graph)) x := '(s, g) ← a; '(s, _, g, _) ← processMessages spare1 g s ∅ x 1 (bid 1 20) [asks x]; Ok (s, g) in
  '(s, _) ← foldl step (Ok (fresh_state, New (mkConfig 0 [1; 2; 3; 4] 1 4 false))) [2; 3; 4]; Ok s.
Lemma unsent_prepare_counted :
  (s ← after_views; Ok (elements (prepare_votes s (mkPrePrepare [] 4 1 1)))) = Ok [4; 1].
Proof. vm_compute. done. Qed.
