(* ===== verification/Instances.v ===== *)
(** * Concrete instances of the external services

    The messages of protocol buffers in their wire format (Wire.v); what subscribers get as the
    binary digits of its code number, a checksum in the place of the hash, and signatures that name the
    signer: instances of the classes of Kv.v and Broadcast.v for which their laws hold, so
    that the theorems can be applied. *)

From S2P Require Import Prelude Codec Kv Conn Ext Broadcast Node Wire Pubsub.

#[export] Instance Payload_eq_dec : EqDecision Payload.
Proof. solve_decision. Defined.
#[export] Instance Payload_countable : Countable Payload.
Proof. refine (inj_countable' (λ p, (pl_NodeID p, pl_Tx p)) (λ '(n, t), mkPayload n t) _). by intros []. Defined.

(** The binary digits of a number, the lowest first. *)
Fixpoint digits (p : positive) : bytes :=
  match p with xH => [] | xO p => 0 :: digits p | xI p => 1 :: digits p end.
Fixpoint of_digits (s : bytes) : positive :=
  match s with [] => xH | d :: s => if d =? 0 then xO (of_digits s) else xI (of_digits s) end.
Lemma of_digits_digits p : of_digits (digits p) = p.
Proof. induction p; simpl; by f_equal. Qed.

Definition digits_Proto {A} `{Countable A} : Proto A :=
  {| marshal a := Some (digits (encode a)); unmarshal s := decode (of_digits s) |}.
Lemma digits_laws {A} `{Countable A} : @ProtoLaws A digits_Proto.
Proof. intros a b [= <-]. simpl. by rewrite of_digits_digits, decode_encode. Qed.

#[export] Instance Payload_digits : Proto Payload := digits_Proto.
#[export] Instance Payload_digits_laws : ProtoLaws Payload := digits_laws.

(** Thirty-two bytes: a checksum of the data, repeated. *)
#[export] Instance checksum : Hasher :=
  λ s, replicate 32 (foldl (λ h b, (31 * h + b + 7) mod 256) 17 s).

(** Node 1 signs; a signature is the signer followed by the data. *)
#[export] Instance named : Signatures :=
  {| PublicKey := Z; Verify key data sig := bool_decide (sig = key :: data); Sign data := 1 :: data |}.

(** An empty database. *)
Definition empty_db : MapDB := ∅.
