(* ===== verification/StoreWitnesses.v ===== *)
(** * The store on concrete inputs

    A database that has received a block of node 2 and then stored an own block that
    references it; and the theorems about the formats and the store at it. *)

From S2P Require Import Prelude Bitset Messages Block Lexinum Codec Kv Cache Store StoreProps StoreScan StoreInv Missing Graph Ext Depgraph Broadcast Replay Wire Instances.
Import Codec Store.

(** ** Formats *)
Lemma Decode_Encode_witness : is_u64 300 ∧ Lexinum.Decode (Lexinum.Encode 300) = Ok (inr 300).
Proof. split; [by vm_compute|]. apply (Lexinum.Decode_Encode 300). by vm_compute. Defined.

Lemma Encode_order_witness : 8000 < 9000 ↔ bytes_lt (Lexinum.Encode 8000) (Lexinum.Encode 9000).
Proof. apply (Lexinum.Encode_order 8000 9000); by vm_compute. Defined.

Definition id2 : BlockID := mkBlockID [9; 8; 7] 2 3.
Definition id1 : BlockID := mkBlockID [5; 4] 1 1.
Lemma id2_ok : id_ok id2. Proof. split; by vm_compute. Qed.
Lemma id1_ok : id_ok id1. Proof. split; by vm_compute. Qed.
Definition graph1 : BlockGraph := mkBlockGraph id1 [mkDep id2 [] zeroID] zeroID.
Lemma graph1_fits : graph_fits graph1.
Proof.
  split; [apply id1_ok|done| |done]. apply Forall_singleton. split; [|done|constructor|done].
  split; [apply id2_ok|by vm_compute].
Qed.

Lemma block_graph_round_trip_witness :
  decodeBlockGraph (blockGraphKey id1) (encodeBlockGraph graph1) = Ok (inr (clean_graph graph1)).
Proof. apply (block_graph_round_trip graph1). exact graph1_fits. Defined.

Lemma keys_follow_rounds_witness :
  bytes_lt (blockKey id1) (blockKey id2) ↔
  Node id1 < Node id2 ∨ Node id1 = Node id2 ∧
    (Round id1 < Round id2 ∨ Round id1 = Round id2 ∧ bytes_lt (Hash id1) (Hash id2)).
Proof. apply (keys_follow_rounds id1 id2); [exact id1_ok|exact id2_ok]. Defined.

(** ** Writing *)
Definition received2 : SignedData := mkSigned [1; 2] [3].
Definition own1 : SignedData := mkSigned [4] [5].
Definition ownref1 : SignedData := mkSigned [6] [7].
Definition st0 : store MapDB := mkStore false empty_db 4.
Definition st1 : store MapDB := (setBlock st0 id2 received2).1.
Definition st2 : store MapDB := (setOwnBlock st1 own1 ownref1 graph1).1.

Lemma st0_empty k : kv_get (s_db st0) k = inl KeyNotFound.
Proof. simpl. unfold empty_db. by rewrite lookup_empty. Qed.
Lemma st1_eq : setBlock st0 id2 received2 = (st1, None).
Proof. vm_compute. reflexivity. Qed.
Lemma st2_eq : setOwnBlock st1 own1 ownref1 graph1 = (st2, None).
Proof. vm_compute. reflexivity. Qed.
Lemma st1_history : history st0 [SetBlock id2 received2] st1.
Proof. apply (history_ok st0 [] st0); [constructor|apply id2_ok|exact st1_eq]. Qed.
Lemma st2_history : history st0 [SetBlock id2 received2; SetOwnBlock own1 ownref1 graph1] st2.
Proof. apply (history_ok st0 [SetBlock id2 received2] st1); [exact st1_history|apply graph1_fits|exact st2_eq]. Qed.
Lemma st1_written : written st1.
Proof. eexists _, st0. split; [apply st0_empty|exact st1_history]. Qed.
Lemma st2_written : written st2.
Proof. eexists _, st0. split; [apply st0_empty|exact st2_history]. Qed.

(** A block of round 4 is received when the one of round 3 is referenced already. *)
Definition id3 : BlockID := mkBlockID [9; 9; 9] 2 4.
Definition st_got : store MapDB := (setBlock st2 id3 received2).1.
Definition writes3 : list write_op :=
  [SetBlock id2 received2; SetOwnBlock own1 ownref1 graph1; SetBlock id3 received2].
Lemma id3_ok : id_ok id3.
Proof. by split; vm_compute. Qed.
Lemma st_got_eq : setBlock st2 id3 received2 = (st_got, None).
Proof. vm_compute. reflexivity. Qed.
Lemma st_got_made : made_by writes3 st_got.
Proof.
  exists st0. split; [apply st0_empty|].
  apply (history_ok st0 [SetBlock id2 received2; SetOwnBlock own1 ownref1 graph1] st2);
    [exact st2_history|exact id3_ok|exact st_got_eq].
Qed.
Lemma writes3_waiting :
  existsb (references id2) writes3 = true ∧ existsb (receives id3) writes3 = true ∧ existsb (references id3) writes3 = false.
Proof. by vm_compute. Qed.

Lemma setBlock_stores_witness :
  (kv_get (s_db st0) (includedKey id2) = inl KeyNotFound →
     getBlock st1 id2 = Ok (inr received2) ∧ isIncluded st1 id2 = Ok (inr false)) ∧
  ((∃ v, kv_get (s_db st0) (includedKey id2) = inr v) → getBlock st1 id2 = getBlock st0 id2) ∧
  (∀ id', id_ok id' → id' ≠ id2 →
     getBlock st1 id' = getBlock st0 id' ∧ isIncluded st1 id' = isIncluded st0 id').
Proof. apply (setBlock_stores st0 id2 received2 st1); [exact id2_ok|exact st1_eq]. Defined.

Lemma setOwnBlock_stores_witness :
  getOwnBlock st2 1 = Ok (inr own1) ∧ getBlock st2 id1 = Ok (inr own1) ∧
  getLastRoundData st2 = Ok (inr (1, [5; 4], ownref1)) ∧
  (∀ id', id_ok id' → isIncluded st2 id' =
     if decide (id' ∈ dep_Block <$> bg_Deps graph1) then Ok (inr true) else isIncluded st1 id') ∧
  (∀ id', id' ∈ dep_Block <$> bg_Deps graph1 → kv_get (s_db st2) (notIncludedKey id') = inl KeyNotFound).
Proof.
  apply (setOwnBlock_stores st1 own1 ownref1 graph1 st2); [exact id1_ok| |exact st2_eq].
  apply Forall_singleton. exact id2_ok.
Defined.

Definition interpreted1 : Interpreted := mkInterpreted [id2] 1 1.
Definition st3 : store MapDB := (setInterpreted st2 interpreted1).1.
Lemma setInterpreted_stores_witness :
  getInterpreted st3 1 = Ok (inr [received2]) ∧ getLastInterpreted st3 = Ok (inr (1, 1)) ∧
  (∀ id, getBlock st3 id = getBlock st2 id).
Proof.
  apply (setInterpreted_stores st2 interpreted1 st3 [received2]).
  - by vm_compute.
  - by vm_compute.
  - split; [by vm_compute|]. apply Forall_singleton. by vm_compute.
  - constructor; [vm_compute; reflexivity|constructor].
  - vm_compute. reflexivity.
Defined.

Definition rmap : receivedMap := {[ 2 := mkReceived 3 0 ]}.
Lemma saved_maps_read_back_witness :
  getReceivedMap (setReceivedMap st0 [(2, mkReceived 3 0)]).1 = Ok (inr rmap) ∧
  getSentMap (setSentMap st0 [(2, 5)]).1 = Ok (inr {[ 2 := 5 ]}) ∧
  getDeliverAcknowledged (setDeliverAcknowledged st0 7).1 = Ok (inr 7).
Proof.
  apply (saved_maps_read_back st0 (setReceivedMap st0 [(2, mkReceived 3 0)]).1 (setSentMap st0 [(2, 5)]).1
    (setDeliverAcknowledged st0 7).1 [(2, mkReceived 3 0)] rmap [(2, 5)] {[ 2 := 5 ]} 7).
  - unfold rmap. by rewrite map_to_list_singleton.
  - apply Forall_singleton. split_and!; by vm_compute.
  - by vm_compute.
  - by rewrite map_to_list_singleton.
  - apply Forall_singleton. split; by vm_compute.
  - by vm_compute.
  - by vm_compute.
  - vm_compute. reflexivity.
  - vm_compute. reflexivity.
  - vm_compute. reflexivity.
Defined.

(** ** Scanning *)
Lemma getNotIncluded_complete_witness :
  ∃ ids blocks, StronglySorted id_lt ids ∧
    (∀ id, id ∈ ids ↔ id_ok id ∧ existsb (receives id) writes3 ∧ ¬ existsb (references id) writes3) ∧
    Forall2 (λ id b, getBlock st_got id = Ok (inr b)) ids blocks ∧
    getNotIncluded st_got = (ds ← all_data blocks; Ok (inr ds)).
Proof. apply (getNotIncluded_complete writes3 st_got); [vm_compute; reflexivity|exact st_got_made]. Defined.

Lemma stored_flags_consistent_witness :
  (kv_get (s_db st1) (includedKey id2) = inr [0] ↔ ∃ v, kv_get (s_db st1) (notIncludedKey id2) = inr v) ∧
  (kv_get (s_db st1) (includedKey id2) = inr [0] → s_closed st1 = false → ∃ b, getBlock st1 id2 = Ok (inr b)).
Proof. apply (stored_flags_consistent st1 id2); [exact st1_written|exact id2_ok]. Defined.

Lemma getBlockGraphs_in_order_witness :
  ∃ gs, getBlockGraphs st2 1 1 10 = Ok (inr (if 0 <? 10 then take (Z.to_nat 10) gs else gs)) ∧
    StronglySorted id_lt (bg_Block <$> gs) ∧
    (∀ g, g ∈ gs ↔ ∃ bg, stored_graph (s_db st2) bg ∧ Node (bg_Block bg) = 1 ∧
                         1 ≤ Round (bg_Block bg) ∧ g = clean_graph bg).
Proof.
  apply (getBlockGraphs_in_order st2 1 1 10).
  - vm_compute. reflexivity.
  - apply si_graphs, written_inv, st2_written.
  - by vm_compute.
  - by vm_compute.
Defined.

Lemma st1_rounds k : stored_round (s_db st1) 2 k → k = 3.
Proof.
  intros (id & Hid & _ & <- & v & Hv).
  destruct (setBlock_Ok st0 id2 received2 st1 st1_eq) as (_ & _ & [([w Hw] & _)|(_ & val & _ & Hk)]).
  { by rewrite st0_empty in Hw. }
  rewrite Hk in Hv. destruct (decide (blockKey id2 = blockKey id)) as [E|].
  - apply (key_inj blockPrefix) in E; [by subst|apply id2_ok|done].
  - key_norm. rewrite !decide_key_ne, <- blockKey_cons, st0_empty in Hv by done. done.
Qed.

Lemma getMissing_finds_gaps_witness :
  ∃ rounds latest, getMissing st1 2 0 5 = Ok (inr (rounds, latest)) ∧
    missing_ok (stored_round (s_db st1) 2) 0 5 rounds latest.
Proof.
  apply (getMissing_finds_gaps st1 2 0 5).
  - vm_compute. reflexivity.
  - exact st1_written.
  - by vm_compute.
  - by vm_compute.
  - by vm_compute.
  - intros k ->%st1_rounds. by vm_compute.
Defined.

(** ** Replaying *)
Lemma st2_graphs bg : stored_graph (s_db st2) bg → bg_Block bg = id1 ∧ encodeBlockGraph bg = encodeBlockGraph graph1.
Proof.
  intros [Hf Hv].
  destruct (setOwnBlock_Ok st1 own1 ownref1 graph1 st2 st2_eq) as (_ & _ & val & rval & _ & _ & Hk).
  rewrite Hk in Hv. key_norm.
  rewrite !decide_key_ne, decide_own_ne, decide_del_ne in Hv by done.
  destruct (decide (blockGraphPrefix :: encodeBlockID (bg_Block graph1) = blockGraphPrefix :: encodeBlockID (bg_Block bg))) as [E|].
  - apply (key_inj blockGraphPrefix) in E; [|apply id1_ok|by destruct Hf]. simpl in E. split; [done|]. congruence.
  - rewrite <- blockGraphKey_cons in Hv.
    destruct (setBlock_Ok st0 id2 received2 st1 st1_eq) as (_ & _ & [([w Hw] & _)|(_ & val' & _ & Hk')]).
    { by rewrite st0_empty in Hw. }
    rewrite Hk' in Hv. key_norm. rewrite !decide_key_ne, st0_empty in Hv by done. done.
Qed.

Lemma st2_own_graphs : own_graphs (s_db st2) 1 1 (λ _, clean_graph graph1).
Proof.
  assert (stored_graph (s_db st2) graph1) as Hst by (split; [apply graph1_fits|by vm_compute]).
  split.
  - apply si_graphs, written_inv, st2_written.
  - intros k Hk. simpl. lia.
  - intros k Hk. exists graph1. split_and!; [done|done|simpl; lia|done].
  - intros bg Hbg Hn. destruct (st2_graphs bg Hbg) as [Eb Ee]. rewrite Eb. simpl. split; [lia|].
    apply clean_graph_unique; [apply Hbg|apply graph1_fits|done|done].
Qed.

Lemma replay_adds_each_graph_once_witness :
  Broadcast.replay_loop 3 st2 1 1 1 [] = Ok (inr ((λ _, clean_graph graph1) <$> seqZ 1 (1 + 1 - 1))).
Proof.
  apply (replay_adds_each_graph_once st2 1 1 (λ _, clean_graph graph1) 1 1 3).
  - exact st2_own_graphs.
  - vm_compute. reflexivity.
  - by vm_compute.
  - lia.
  - lia.
  - lia.
  - lia.
  - simpl. lia.
Defined.

Lemma replay_from_zero_repeats_witness :
  Broadcast.replay_loop 4 st2 1 0 1 []
  = Ok (inr (((λ _, clean_graph graph1) <$> seqZ 1 1) ++ clean_graph graph1 ::
             ((λ _, clean_graph graph1) <$> seqZ (1 + 1) (1 - 1)))).
Proof.
  apply (replay_from_zero_repeats st2 1 1 (λ _, clean_graph graph1) 1 4).
  - exact st2_own_graphs.
  - vm_compute. reflexivity.
  - by vm_compute.
  - lia.
  - lia.
  - simpl. lia.
Defined.

(** ** Caches and votes *)
Lemma received_tracks_rounds_witness :
  let i := Received.get (receive_all 2 [1; 2; 4]) 2 in
  0 ≤ ri_sequence i ≤ ri_latest i ∧
  (∀ k, 1 ≤ k ≤ ri_sequence i → k ∈ [1; 2; 4]) ∧ (∀ k, k ∈ [1; 2; 4] → k ≤ ri_latest i).
Proof. apply (received_tracks_rounds 2 [1; 2; 4]). repeat constructor; lia. Defined.

Lemma bitset_refines_sets_witness :
  ∃ b, range Bitset.vote (Bitset.newBitset 4) [(true, 1); (false, 4)] = Ok b ∧
    Bitset.commitCount b = Z.of_nat (size (Bitset.voters true [(true, 1); (false, 4)])) ∧
    Bitset.prepareCount b = Z.of_nat (size (Bitset.voters false [(true, 1); (false, 4)])) ∧
    ∀ v, Bitset.in_range (Z.to_nat ((4 + 63) / 64)) v →
      Bitset.hasCommit b v = Ok (bool_decide (v ∈ Bitset.voters true [(true, 1); (false, 4)])) ∧
      Bitset.hasPrepare b v = Ok (bool_decide (v ∈ Bitset.voters false [(true, 1); (false, 4)])).
Proof.
  apply (Bitset.bitset_refines_sets 4 [(true, 1); (false, 4)]); [lia|].
  repeat constructor; by vm_compute.
Defined.

Lemma newBitset_misses_last_node_witness :
  (64 mod 64 = 0 → Bitset.setCommit (Bitset.newBitset 64) 64 = Halt Panic ∧
                   Bitset.setPrepare (Bitset.newBitset 64) 64 = Halt Panic) ∧
  (64 mod 64 ≠ 0 → ∀ v, 0 ≤ v ≤ 64 →
     is_ok (Bitset.setCommit (Bitset.newBitset 64) v) ∧ is_ok (Bitset.setPrepare (Bitset.newBitset 64) v)).
Proof. apply (Bitset.newBitset_misses_last_node 64). lia. Defined.

(** ** Transactions *)
Definition tx1 : TransactionData := mkTx [1; 2; 3] 10.
Definition tx2 : TransactionData := mkTx [4] 20.
Lemma transactions_round_trip_witness :
  let b0 := mkBuf 0 (replicate (Z.to_nat 200) 0) 0 5 200 in
  ∃ taken b ts b',
    Ext.add_requests b0 [tx1; tx2] = Ok (taken, b) ∧ taken `sublist_of` [tx1; tx2] ∧
    Ext.take_transactions b = Ok (ts, b') ∧ Z.of_nat (length (tx_Data ts)) ≤ 200 ∧
    Ext.transactions (mkBlock 1 None [] 1 (Some ts)) = Ok taken ∧ t_Count b' = 0 ∧ t_Idx b' = 0%nat.
Proof.
  apply (Ext.transactions_round_trip 200 5 [tx1; tx2] 1 1 None []); [lia|].
  repeat constructor; by vm_compute.
Defined.

Lemma large_transactions_wait_witness :
  Ext.AddTransaction_turn (mkBuf 0 (replicate 8 0) 0 5 8) [1; 2] 3 = Ok Ext.Wait.
Proof. apply (Ext.large_transactions_wait (mkBuf 0 (replicate 8 0) 0 5 8) [1; 2] 3); simpl; lia. Defined.
