(* ===== verification/ServiceWitnesses.v ===== *)
(** * The broadcast service on concrete inputs

    Node 1 of two nodes receives the first block of node 2, creates its own first block and
    sends it; and the theorems about the service and its dependency graph at it. *)

From S2P Require Import Prelude Messages Block Graph Codec Kv Cache Store StoreProps Ext Depgraph DepgraphProps Broadcast BroadcastProps Callbacks Wire Instances.
Import Broadcast.

(** ** A node of two *)
Definition conf1 : sconf := mkConf _ {[1 := 1; 2 := 2]} 10 100000 1 [2] 10000.
Definition buf1 : txbuf := mkBuf 0 (replicate 200 0) 0 5 200.
Definition svc0 : service MapDB :=
  mkService conf1 false [] (Depgraph.new 1) [] 0 (mkOwn ∅ 0) [] None ∅ 0 ∅ (mkStore false empty_db 2) buf1.

(** The first block of node 2, signed by it. *)
Definition block2 : Block := mkBlock 2 None [] 1 None.
Definition data2 : bytes := default [] (marshal block2).
Definition ref2 : bytes := default [] (marshal (mkRef (sha512_256 data2) 2 1)).
Definition signed2 : SignedData := mkSigned data2 (2 :: ref2).
Definition id_2 : BlockID := mkBlockID (sha512_256 data2) 2 1.
Definition info2 : blockData := mkBlockData [] id_2 zeroID (mkSigned ref2 (2 :: ref2)).

Lemma check_signed2 : check_block (c_keys conf1) signed2 = inr info2.
Proof. vm_compute. reflexivity. Qed.

Lemma processBlock_records_witness :
  (processBlock svc0 signed2 = Halt Fatal ∧ ∃ info, check_block (c_keys conf1) signed2 = inr info ∧
     (Store.setBlock (v_store svc0) (bd_id info) signed2).2 ≠ None) ∨
  ∃ s' r, processBlock svc0 signed2 = Ok (s', r) ∧
    match r with
    | inl _ => s' = svc0 ∧ ¬ ∃ info block enc, block_ok (c_keys conf1) signed2 info block enc
    | inr round =>
        ∃ info block enc, block_ok (c_keys conf1) signed2 info block enc ∧ round = b_Round block ∧
          Store.block_data signed2 = Ok info ∧
          v_depgraph s' = Depgraph.add (v_depgraph svc0) info ∧
          v_received s' = Received.set (v_received svc0) (b_Node block) round ∧
          (kv_get (s_db (v_store svc0)) (Codec.includedKey (bd_id info)) = inl KeyNotFound →
             Store.getBlock (v_store s') (bd_id info) = Ok (inr signed2))
    end.
Proof.
  apply (processBlock_records svc0 signed2). intros info E.
  change (c_keys (v_conf svc0)) with (c_keys conf1) in E. rewrite check_signed2 in E. injection E as <-.
  split; by vm_compute.
Defined.

(** ** Creating and sending blocks *)
Definition rates1 : rates := mkRates 10 5 (λ r, r / 2).
(** The block of node 2 waits to be referenced. *)
Definition svc1 : service MapDB := set_depgraph svc0 (Depgraph.set_blocks (Depgraph.new 1) [info2]).

Lemma svc1_chain : chain_ok svc1.
Proof. split; [by vm_compute|]. intros []. reflexivity. Qed.
Lemma svc1_refs : refs_ok svc1.
Proof. apply Forall_singleton. exists 2. split_and!; [vm_compute; reflexivity..|done]. Qed.
Lemma svc1_tx : Ext.holds (v_tx svc1) [].
Proof. split; simpl; try done; try lia. Qed.

Lemma created_blocks_are_accepted_witness :
  genBlocks rates1 false 10 svc1 = Halt Fatal ∨
  ∃ rate' signed s' info bg, genBlocks rates1 false 10 svc1 = Ok (rate', signed, s') ∧
    check_block (c_keys conf1) signed = inr info ∧ same_block info bg ∧
    Node (bg_Block bg) = 1 ∧ Round (bg_Block bg) = 0 + 1 ∧
    (∃ block, unmarshal (sd_Data signed) = Some block ∧ Ext.transactions block = Ok []) ∧
    v_added s' = v_added svc1 ++ [bg] ∧ v_round s' = 0 + 1 ∧
    Ext.holds (v_tx s') [] ∧ chain_ok s' ∧ refs_ok s'.
Proof.
  apply (created_blocks_are_accepted rates1 false 10 svc1 1 []).
  - vm_compute. reflexivity.
  - intros d. apply bool_decide_eq_true_2. reflexivity.
  - exact svc1_chain.
  - exact svc1_refs.
  - by vm_compute.
  - exact svc1_tx.
  - by vm_compute.
Defined.

Definition own_at (r : Z) : SignedData := mkSigned [r] [1; r].
(** Two own blocks are stored and nothing is sent yet. *)
Definition store_own (st : store MapDB) (r : Z) : store MapDB :=
  (Store.setOwnBlock st (own_at r) (own_at r) (mkBlockGraph (mkBlockID [r] 1 r) [] zeroID)).1.
Definition svc2 : service MapDB := set_round (set_store svc0 (foldl store_own (v_store svc0) [1; 2])) 2.

Lemma svc2_own : own_ok svc2 own_at.
Proof.
  split.
  - intros r b. vm_compute. discriminate.
  - intros r Hr. assert (r = 1 ∨ r = 2) as [->| ->] by (change (v_round svc2) with 2 in Hr; lia);
      vm_compute; reflexivity.
Qed.

Lemma getUnsent_sends_next_rounds_witness :
  if v_round svc2 <=? 0 then getUnsent svc2 2 = Ok (svc2, None)
  else
    (getUnsent svc2 2 = Halt Fatal ∧ c_maxPayload conf1 < Ext.SignedData_Size (own_at (0 + 1))) ∨
    ∃ s' n, getUnsent svc2 2 = Ok (s', Some (own_blocks own_at (0 + 1) n)) ∧ cached svc2 s' ∧ (0 < n)%nat ∧
      0 + Z.of_nat n ≤ v_round svc2 ∧ total_size (own_blocks own_at (0 + 1) n) ≤ c_maxPayload conf1 ∧
      (0 + Z.of_nat n = v_round svc2 ∨
       c_maxPayload conf1 < total_size (own_blocks own_at (0 + 1) (S n))).
Proof.
  apply (getUnsent_sends_next_rounds svc2 own_at 2); [exact svc2_own|split; by vm_compute|by vm_compute].
Defined.

(** ** Filling gaps: rounds 1 and 2 of node 2 are asked for, round 1 is in the response *)
Definition filled : service MapDB :=
  match fill_blocks svc0 ∅ [Some signed2] with Ok (s, _) => s | Halt _ => svc0 end.
Lemma fill_blocks_1 : fill_blocks svc0 ∅ [Some signed2] = Ok (filled, {[1]}).
Proof. vm_compute. reflexivity. Qed.

Lemma fill_response_asks_again_witness :
  ∃ s', fill_response svc0 2 [1; 2] 2 [Some signed2]
        = Ok (s', match filter (.∉ ({[1]} : gset Z)) [1; 2] with [] => None | l => Some l end) ∧
    ri_sequence (Received.get (v_received s') 2) =
      match last (filter (.∈ ({[1]} : gset Z)) [1; 2]), filter (.∉ ({[1]} : gset Z)) [1; 2] with
      | None, _ => ri_sequence (Received.get (v_received filled) 2)
      | Some r, [] => r
      | Some _, _ :: _ => 2
      end.
Proof.
  apply (fill_response_asks_again svc0 2 [1; 2] 2 [Some signed2] filled {[1]}).
  - repeat constructor; discriminate.
  - exact fill_blocks_1.
Defined.

(** ** The dependency graph: the second block of node 2 arrives before the first *)
Definition id_a : BlockID := mkBlockID (replicate 32 7) 2 1.
Definition id_b : BlockID := mkBlockID (replicate 32 8) 2 2.
Definition block_a : blockData := mkBlockData [] id_a zeroID (mkSigned [1] [2]).
Definition block_b : blockData := mkBlockData [] id_b id_a (mkSigned [3] [4]).
Definition needs_ab (id : BlockID) : list BlockID := if decide (id = id_b) then [id_a] else [].

Definition arrived : sys := mkSys ∅ [] (Depgraph.add (Depgraph.add (Depgraph.new 1) block_b) block_a) 0.
Definition dep_step (y : sys) : sys :=
  match Depgraph.process_step (stored_flag (y_flag y)) (y_i y) (y_dep y) with
  | Ok (Some (i, d)) => mkSys (y_flag y) (y_taken y) d i
  | _ => y
  end.
Definition first_pending : sys := dep_step arrived.
Definition both_queued : sys := dep_step first_pending.

Lemma good_b : good needs_ab (λ _, True) 1 block_b.
Proof.
  split_and!; [vm_compute; reflexivity| |done]. apply Forall_singleton. right. vm_compute. lia.
Qed.
Lemma good_a : good needs_ab (λ _, True) 1 block_a.
Proof. split_and!; [vm_compute; reflexivity|constructor|done]. Qed.

Lemma dep_step_run y :
  match Depgraph.process_step (stored_flag (y_flag y)) (y_i y) (y_dep y) with Ok (Some _) => true | _ => false end = true →
  sys_step needs_ab (λ _, True) y (dep_step y).
Proof.
  unfold dep_step. destruct (Depgraph.process_step _ _ _) as [[[i d]|]|] eqn:E; [|done..].
  intros _. by apply sys_process.
Qed.
Lemma first_pending_run : rtc (sys_step needs_ab (λ _, True)) (sys_init 1 ∅) first_pending.
Proof.
  eapply rtc_l; [apply (sys_add _ _ (sys_init 1 ∅) block_b good_b)|].
  eapply rtc_l; [apply (sys_add _ _ (mkSys ∅ [] (Depgraph.add (Depgraph.new 1) block_b) 0) block_a good_a)|].
  apply rtc_once, (dep_step_run arrived). vm_compute. reflexivity.
Qed.
Lemma both_queued_run : rtc (sys_step needs_ab (λ _, True)) (sys_init 1 ∅) both_queued.
Proof.
  eapply rtc_r; [exact first_pending_run|]. apply (dep_step_run first_pending). vm_compute. reflexivity.
Qed.
Lemma both_queued_eq : queued both_queued = [block_a; block_b].
Proof. vm_compute. reflexivity. Qed.

Lemma queued_in_causal_order_witness :
  causal 1 ∅ (queued both_queued) ∧ Forall (λ _, True) (queued both_queued).
Proof. apply (queued_in_causal_order needs_ab (λ _, True) 1 ∅ both_queued). exact both_queued_run. Defined.

Lemma process_makes_progress_witness :
  ∃ d' news, Depgraph.process_step (stored_flag (y_flag first_pending)) (y_i first_pending) (y_dep first_pending)
             = Ok (Some (y_i first_pending + 1, d')) ∧
    d_in d' = [] ∧ d_blocks d' = d_blocks (y_dep first_pending) ++ news ∧
    let Inc' := ids (queued first_pending ++ news) ∪ ∅ in
    (id_a ∈ Inc' ∨ is_Some (d_pending d' !! id_a)) ∧
    ∀ id, is_Some (d_pending d' !! id) → id ∉ Inc' ∧ ∃ dep, dep ∈ needs_ab id ∧ dep ∉ Inc'.
Proof.
  pose proof (process_makes_progress needs_ab (λ _, True) 1 ∅ first_pending first_pending_run) as W.
  cbv zeta in W. change (d_in (y_dep first_pending)) with [block_a] in W. cbv iota beta in W.
  apply W. right. vm_compute. lia.
Defined.

Lemma short_reference_panics_witness :
  Depgraph.process_step (stored_flag ∅) 0
    (Depgraph.add (Depgraph.new 1) (mkBlockData [mkBlockID [1; 2; 3] 2 1] id_a zeroID (mkSigned [1] [2]))) = Halt Panic.
Proof.
  apply (short_reference_panics 1 id_a (mkBlockID [1; 2; 3] 2 1) (mkSigned [1] [2])); [done|simpl; lia|done].
Defined.

(** ** Two rounds are reported, the first before the callback is registered *)
Definition reported_store : store MapDB := (Store.setBlock (v_store svc0) id_a signed2).1.
Definition svc_reported : service MapDB := set_store svc0 reported_store.
Definition round_1 : Interpreted := mkInterpreted [id_a] 1 1.
Definition round_2 : Interpreted := mkInterpreted [] 2 2.
Definition blocks_of (r : Z) : list SignedData := if r =? 1 then [signed2] else [].

Lemma MapDB_writes (st : store MapDB) data : s_closed st = false → (Store.setInterpreted st data).2 = None.
Proof. intros Hc. unfold Store.setInterpreted, Store.update. rewrite Hc. reflexivity. Qed.

Lemma reported_1 : reported reported_store blocks_of round_1.
Proof.
  split.
  - by vm_compute.
  - split; [by vm_compute|]. apply Forall_singleton. split; by vm_compute.
  - constructor; [vm_compute; reflexivity|constructor].
  - intros []; vm_compute; reflexivity.
Qed.
Lemma reported_2 : reported reported_store blocks_of round_2.
Proof.
  split; [by vm_compute|split; [by vm_compute|constructor]|constructor|intros []; vm_compute; reflexivity].
Qed.
Lemma nothing_stored : stored_rounds reported_store blocks_of 0 0.
Proof. split; [done|intros k; lia|]. right. split; [done|]. vm_compute. reflexivity. Qed.

Lemma callback_sees_every_round_once_witness :
  ∃ s', (s1 ← report true svc_reported [round_1]; s2 ← Register s1; report true s2 [round_2]) = Ok s' ∧
    v_calls s' = (λ k, (k, blocks_of k)) <$> seqZ (0 + 1) (0 + Z.of_nat (length ([round_1] ++ [round_2])) - 0).
Proof.
  apply (callback_sees_every_round_once MapDB_writes blocks_of 0 true svc_reported 0 [round_1] [round_2]).
  - lia.
  - lia.
  - reflexivity.
  - reflexivity.
  - reflexivity.
  - exact nothing_stored.
  - constructor; [exact reported_1|]. apply Forall_singleton. exact reported_2.
  - repeat split.
Defined.

(** ** A node that receives its own block *)

(** A node whose own first block is sent back to it accepts the block, queues it and
    references it in its next block, which every node then rejects because it references a block
    of its own node. *)
Theorem own_block_sent_back_is_referenced :
  ('(rate, signed1, s1) ← genBlocks rates1 false 10 svc0;
   '(s2, r) ← processBlock s1 signed1;
   o ← Depgraph.process_step (Store.isIncluded (v_store s2)) 0 (v_depgraph s2);
   match o with
   | Some (_, d) =>
       '(_, signed, _) ← genBlocks rates1 false rate (set_depgraph s2 d);
       Ok (r, check_block (c_keys conf1) signed)
   | None => Halt Panic
   end) = Ok (inr 1, inl ErrRefSameNode).
Proof. vm_compute. reflexivity. Qed.
