(* ===== verification/NodeWitnesses.v ===== *)
(** * Connections, peers and publishing on concrete inputs *)

From stdpp Require Import strings.
From S2P Require Import Prelude Messages Block Graph Config Codec Kv Conn ConnProps Cache Store StoreProps Ext Depgraph Broadcast BroadcastProps Node NodeProps Peers Callbacks PeersProps Loops Network Pubsub PubsubProps Restart Setup Startup Discovery Commands Web Wire Instances ServiceWitnesses.
Import Broadcast.

Lemma byte_size_round_trip_witness :
  ByteSize.UnmarshalYAML 0 (Some (ByteSize.MarshalYAML (3 * ByteSize.MB))) = (3 * ByteSize.MB, None).
Proof. apply (ByteSize.byte_size_round_trip 0 (3 * ByteSize.MB)). by vm_compute. Defined.

(** ** Connections *)
Definition idle : netconn := mkNet [] [Took 3; Took 1000] [] false.
Lemma idle_writable : writable (Conn.NewConn idle).
Proof. split; [done|repeat constructor; eauto|by apply Nat.leb_le]. Qed.

Lemma readPayload_total_witness :
  ∃ c' r, Conn.readPayload (Conn.NewConn idle) 1000 = Ok (c', r) ∧ (4 ≤ length (c_buf c'))%nat ∧
    (length (n_in (c_conn c')) ≤ length (n_in (c_conn (Conn.NewConn idle))))%nat ∧
    match r with
    | inl _ => n_closed (c_conn c') = true
    | inr p => Z.of_nat (length p) ≤ 1000 ∧ Z.of_nat (length p) < 2 ^ 31
    end.
Proof. apply (readPayload_total (Conn.NewConn idle) 1000). by apply Nat.leb_le. Defined.

Definition msg1 : SMessage := mkMessage 0 [] 4 [1].
Definition enc1 : bytes := default [] (marshal msg1).
(** The frame arrives in two pieces. *)
Definition chunks1 : list bytes := [take 7 (frame enc1); drop 7 (frame enc1)].
Definition from_peer : netconn := mkNet (Got <$> chunks1) [] [] false.
Lemma msg1_fits : Forall2 (fits 1000) [msg1] [enc1].
Proof. constructor; [|constructor]. split; vm_compute; done. Qed.

Lemma messages_arrive_in_order_witness :
  ∃ sender', write_all (Conn.NewConn idle) [msg1] 1000 = Ok (sender', None) ∧
    (n_out (c_conn sender') = n_out (c_conn (Conn.NewConn idle)) ++ mjoin chunks1 →
     ∃ receiver', read_all (length [msg1]) (Conn.NewConn from_peer) 1000 = Ok (receiver', inr [msg1])).
Proof.
  apply (messages_arrive_in_order (Conn.NewConn idle) (Conn.NewConn from_peer) 1000 [msg1] [enc1] chunks1).
  - exact idle_writable.
  - split; [done|by apply Nat.leb_le].
  - lia.
  - exact msg1_fits.
Defined.

(** ** The node *)
Definition top2 : topology := mkTopology _ ∅ {[1 := 1; 2 := 2]} 2.
Lemma nodes_agree_on_peers_witness :
  if bool_decide (1 ≤ 1 ≤ 2)
  then ∃ peers, peers_of 1 (Topology.Nodes top2) = Ok (Some peers) ∧
    peers = filter (λ p, p ≠ 1) (seqZ 1 2) ∧
    (c_peers conf1 = peers → cfg_Peers (graph_config conf1 0 2 true) = seqZ 1 2)
  else peers_of 1 (Topology.Nodes top2) = Halt Panic.
Proof. apply (nodes_agree_on_peers top2 conf1 0 2 true). by vm_compute. Defined.

(** Node 2 accepts the hello message of node 1, ten seconds after it was signed. *)
Definition server2 : server := mkServer _ 2 {[1 := 1; 2 := 2]} 100000 30000000000 ∅.
Definition hello1 : Hello := default (mkHello [] [] [] 0) (Node.SignHello 1 2 CONNECTION_BROADCAST [7; 7] 5000000000).

Lemma verifyPeerID_authenticates_witness :
  Node.verifyPeerID server2 15000000000 hello1 = inr 1 ↔
  (h_Payload hello1 = [] ∧ 1 = 0) ∨ ∃ info, authentic server2 15000000000 hello1 info ∧ 1 = hi_Client info.
Proof. apply (verifyPeerID_authenticates server2 15000000000 hello1 1). simpl. lia. Defined.

(** It then asks for no rounds, and gets no blocks. *)
Definition request1 : SMessage := mkMessage 0 [] OP_GET_ROUNDS (default [] (marshal (mkGetRounds []))).
Definition response1 : SMessage := mkMessage 0 [] OP_LIST_BLOCKS (default [] (marshal (mkList []))).
Definition enc {A} `{Proto A} (a : A) : bytes := default [] (marshal a).
Definition to_server : bytes := frame (enc hello1) ++ frame (enc request1).
Definition net2 : netconn := mkNet (Got <$> [take 50 to_server; []; drop 50 to_server]) [] [] false.

Lemma connection_serves_requests_witness :
  ∃ c', Node.handleConnection server2 15000000000 svc0 net2 = Ok (svc0, c') ∧ n_closed (c_conn c') = true ∧
    n_out (c_conn c') = n_out net2 ++ mjoin (frame <$> [enc response1]).
Proof.
  apply (connection_serves_requests server2 15000000000 svc0 net2 1 1 [7; 7] 5000000000 hello1 (enc hello1)
    [request1] [enc request1] [take 50 to_server; []; drop 50 to_server] svc0 [response1] [enc response1]).
  - simpl. lia.
  - reflexivity.
  - simpl. lia.
  - vm_compute. reflexivity.
  - intros d. apply bool_decide_eq_true_2. reflexivity.
  - left. simpl. lia.
  - reflexivity.
  - vm_compute. discriminate.
  - split; reflexivity.
  - vm_compute. reflexivity.
  - constructor.
  - split; vm_compute; done.
  - constructor; [|constructor]. split; vm_compute; done.
  - vm_compute. reflexivity.
  - constructor; [|constructor]. split; vm_compute; done.
Defined.

(** ** Broadcasting: node 1 sends its first block to node 2 *)
Definition block1 : Block := mkBlock 1 None [] 1 (Some (mkTxs 0 [])).
Definition ref1 : bytes := enc (mkRef (sha512_256 (enc block1)) 1 1).
Definition signed1 (r : Z) : SignedData := mkSigned (enc block1) (1 :: ref1).
Definition info1 (r : Z) : blockData :=
  mkBlockData [] (mkBlockID (sha512_256 (enc block1)) 1 1) zeroID (mkSigned ref1 (1 :: ref1)).
Definition keys12 : gmap Z Z := {[1 := 1; 2 := 2]}.
Definition sender1 : service MapDB :=
  set_round (set_store svc0 (Store.setOwnBlock (v_store svc0) (signed1 1) (signed1 1)
    (mkBlockGraph (bd_id (info1 1)) [] zeroID)).1) 1.
Definition receiver2 : service MapDB :=
  mkService (mkConf _ keys12 10 100000 2 [1] 10000) false [] (Depgraph.new 2) [] 0 (mkOwn ∅ 0) [] None ∅ 0 ∅
    (mkStore false empty_db 2) buf1.

Lemma signed1_valid r : 1 ≤ r ≤ 1 →
  check_block keys12 (signed1 r) = inr (info1 r) ∧ Node (bd_id (info1 r)) = 1 ∧ Round (bd_id (info1 r)) = r.
Proof. intros Hr. assert (r = 1) as -> by lia. split; [vm_compute; reflexivity|done]. Qed.
Lemma MapDB_takes_blocks (st : store MapDB) r :
  1 ≤ r ≤ 1 → s_closed st = false → (Store.setBlock st (bd_id (info1 r)) (signed1 r)).2 = None.
Proof.
  intros _ Hc. assert (is_Some (marshal (signed1 r))) as [v Hv] by (vm_compute; by eexists).
  unfold Store.setBlock. rewrite Hc, Hv. unfold Store.update. rewrite Hc. cbn [kv_get kv_update MapDB_KV].
  by destruct (s_db st !! Codec.includedKey (bd_id (info1 r))).
Qed.
Lemma signed1_encoded r n : 1 ≤ r → r + Z.of_nat n - 1 ≤ 1 → is_Some (marshal (mkList (Some <$> own_blocks signed1 r n))).
Proof.
  intros Hr Hn. assert (n = 0%nat ∨ n = 1%nat) as [-> | ->] by lia; unfold own_blocks.
  - vm_compute. by eexists.
  - rewrite seqZ_cons by lia. vm_compute. by eexists.
Qed.
Lemma ack_encoded r : is_u64 r → is_Some (marshal (mkAck r)).
Proof.
  intros Hr. cbn [marshal wire_Proto]. unfold encode_msg. cbn [to_fields AckBroadcast_msg mbind option_bind ack_Last].
  rewrite bool_decide_eq_true_2; [by eexists|]. unfold put_uint. destruct (r =? 0); repeat constructor; done || simpl; lia || apply Hr.
Qed.
Lemma sender1_sends : sends 2 signed1 1 sender1 0.
Proof.
  split.
  - split; [intros r b; vm_compute; discriminate|].
    intros r Hr. change (v_round sender1) with 1 in Hr. assert (r = 1) as -> by lia. vm_compute. reflexivity.
  - reflexivity.
  - reflexivity.
  - intros r Hr. vm_compute. congruence.
Qed.


(** The same over a connection, in pieces: node 1 dials, says hello and sends its block. *)
Definition sent_block : SMessage :=
  mkMessage 0 [] OP_BROADCAST (enc (mkList [Some (signed1 1)])).
Definition acked : SMessage := mkMessage 0 [] OP_ACK_BROADCAST (enc (mkAck 1)).
Definition wire_b : bytes := frame (enc hello1) ++ frame (enc sent_block).
Definition wire_a : bytes := frame (enc acked).
Definition pieces_b : list bytes := [take 9 wire_b; []; drop 9 wire_b].
Definition pieces_a : list bytes := [take 3 wire_a; drop 3 wire_a].
Definition end_a : netconn := mkNet (Got <$> pieces_a) [Took 2] [] false.
Definition end_b : netconn := mkNet (Got <$> pieces_b) [Took 1; Took 0] [] false.

Lemma hello1_welcome : welcome 1 server2 15000000000 100000 hello1 (enc hello1).
Proof.
  split.
  - simpl. lia.
  - reflexivity.
  - simpl. split; [reflexivity|lia].
  - exists 1. split; [vm_compute; reflexivity|]. intros d. apply bool_decide_eq_true_2. reflexivity.
  - exists [7; 7], 5000000000. split; [left; simpl; lia|reflexivity].
  - vm_compute. discriminate.
  - split; vm_compute; done.
Qed.
Lemma carries_a : carries end_a pieces_a.
Proof. split; [by split|repeat constructor; eauto|done]. Qed.
Lemma carries_b : carries end_b pieces_b.
Proof. split; [by split|repeat constructor; eauto|done]. Qed.
Lemma request_of_1 sa1 m : broadcast_request sender1 2 = Ok (sa1, Some m) → m = sent_block.
Proof.
  intros E. assert (match broadcast_request sender1 2 with Ok (_, r) => r | Halt _ => None end = Some sent_block) as H
    by (vm_compute; reflexivity).
  rewrite E in H. by injection H.
Qed.
Lemma response_of_2 sb1 r : Handle receiver2 1 sent_block = Ok (sb1, inr r) → r = acked.
Proof.
  intros E. assert (match Handle receiver2 1 sent_block with Ok (_, inr r) => Some r | _ => None end = Some acked) as H
    by (vm_compute; reflexivity).
  rewrite E in H. by injection H.
Qed.


(** ** Publishing *)
Definition pub0 : pserver :=
  Pubsub.handleConnection (Pubsub.RegisterNotifier (mkPServer 1 ∅ 0 [])) [10] idle.
Definition tx_block : Block := mkBlock 1 None [] 1 (Some (mkTxs 1 (put_le 8 5 ++ put_le 4 2 ++ [3; 4]))).
Lemma pub0_subscribed : all_subscribed pub0.
Proof.
  intros addr c. unfold pub0. simpl. rewrite lookup_insert, lookup_empty. case_decide; [|done].
  intros [= <-]. split; [done|repeat constructor; eauto].
Qed.

Definition published_bytes : bytes := tx_frame 1 [3; 4].
Definition subscriber : pconn :=
  PConn.NewConn (mkNet (Got <$> [take 5 published_bytes; drop 5 published_bytes]) [] [] false).

Lemma delivered_transactions_reach_subscribers_witness :
  ∃ p' c', Listener.handleDeliver pub0 svc0 1 [mkSigned (enc tx_block) []] = Ok (p', Acknowledge svc0 1) ∧
    published pub0 p' (td_Data <$> mjoin [[mkTx [3; 4] 5]]) ∧ ps_conns p' !! [10] = Some c' ∧
    (n_out (pc_conn c') = n_out idle ++ mjoin [take 5 published_bytes; drop 5 published_bytes] →
     ∃ client', client_turns (length (mjoin [[mkTx [3; 4] 5]])) subscriber []
                = Ok (client', (λ t, (1, td_Data t)) <$> mjoin [[mkTx [3; 4] 5]])).
Proof.
  apply (delivered_transactions_reach_subscribers pub0 svc0 1 [mkSigned (enc tx_block) []] [[mkTx [3; 4] 5]]
    [10] (PConn.NewConn idle) subscriber [take 5 published_bytes; drop 5 published_bytes]).
  - exact pub0_subscribed.
  - constructor; [|constructor]. exists tx_block. split; vm_compute; reflexivity.
  - constructor; [|constructor]. eexists. split; [reflexivity|by vm_compute].
  - vm_compute. reflexivity.
  - split; reflexivity.
  - by apply Nat.leb_le.
Defined.

(** The block of node 2 of ServiceWitnesses.v, which passes the checks of the other nodes. *)
Lemma block_without_transactions_panics_witness :
  check_block (c_keys conf1) signed2 = inr info2 ∧
  Listener.handleDeliver pub0 svc0 1 [signed2] = Halt Panic.
Proof.
  split; [vm_compute; reflexivity|].
  apply (block_without_transactions_panics pub0 svc0 1 signed2 block2 []); [vm_compute; reflexivity|reflexivity].
Defined.

(** ** A restart

    Round 1 was stored before the node stopped; it is published when the listener is created, and
    round 2 when it is reported. *)
Definition signed_tx : SignedData := mkSigned (enc tx_block) [].
Definition blocks_tx (r : Z) : list SignedData := if (r =? 1) || (r =? 2) then [signed_tx] else [].
Definition txs_tx (r : Z) : list (list TransactionData) := if (r =? 1) || (r =? 2) then [[mkTx [3; 4] 5]] else [].
Definition store_tx : store MapDB := (Store.setBlock (v_store svc0) id_a signed_tx).1.
Definition tx_round (r : Z) : Interpreted := mkInterpreted [id_a] r r.
Definition stored_tx : store MapDB := (Store.setInterpreted store_tx (tx_round 1)).1.
Definition stopped_db : MapDB := s_db stored_tx.

Lemma blocks_tx_hold r : Forall2 holds_txs (blocks_tx r) (txs_tx r).
Proof.
  unfold blocks_tx, txs_tx. destruct (_ || _); [|constructor]. constructor; [|constructor].
  exists tx_block. split; vm_compute; reflexivity.
Qed.
Lemma txs_tx_fit r : Forall (λ t, tx_fits 1 (td_Data t)) (mjoin (txs_tx r)).
Proof. unfold txs_tx. destruct (_ || _); repeat constructor. Qed.
Lemma tx_reported (st : store MapDB) r :
  1 ≤ r ≤ 2 → Store.getBlock st id_a = Ok (inr signed_tx) → reported st blocks_tx (tx_round r).
Proof.
  intros Hr Hb. split; simpl.
  - unfold is_u64. lia.
  - split; [by vm_compute|]. apply Forall_singleton. split; by vm_compute.
  - replace (blocks_tx r) with [signed_tx]; [by repeat constructor|]. unfold blocks_tx.
    assert (r = 1 ∨ r = 2) as [-> | ->] by lia; done.
  - intros []; vm_compute; reflexivity.
Qed.
Lemma stopped_rounds : stored_rounds stored_tx blocks_tx 0 1.
Proof.
  refine (proj1 (setInterpreted_next store_tx blocks_tx 0 0 (tx_round 1) stored_tx _ _ _ _ _)).
  - vm_compute. reflexivity.
  - split; [done|intros k; lia|]. right. split; [done|]. vm_compute. reflexivity.
  - apply tx_reported; [lia|vm_compute; reflexivity].
  - lia.
  - reflexivity.
Qed.

Lemma MapDB_ack_writes (st : store MapDB) round : s_closed st = false → (Store.setDeliverAcknowledged st round).2 = None.
Proof. intros Hc. unfold Store.setDeliverAcknowledged, Store.update. rewrite Hc. reflexivity. Qed.

Lemma stopped_kept : rounds_kept blocks_tx stored_tx 0 1.
Proof.
  split; [exact stopped_rounds|]. exists 1. split; [by split|]. vm_compute. reflexivity.
Qed.
(** The node has no own blocks yet. *)
Lemma stopped_no_graphs k : kv_get stopped_db (Codec.blockGraphPrefix :: k) = inl KeyNotFound.
Proof.
  assert (map_Forall (λ k _, head k ≠ Some Codec.blockGraphPrefix) stopped_db) as HF
    by (apply (bool_decide_unpack _); vm_compute; exact I).
  simpl. destruct (stopped_db !! (Codec.blockGraphPrefix :: k)) as [v|] eqn:E; [|done]. by apply HF in E.
Qed.
Lemma stopped_loadable : loadable stored_tx 1 0 (λ _, mkBlockGraph zeroID [] zeroID).
Proof.
  split.
  - left. vm_compute. reflexivity.
  - left. vm_compute. reflexivity.
  - left. vm_compute. reflexivity.
  - eexists. vm_compute. reflexivity.
  - split; [|intros; lia..|].
    + intros k v. change (s_db stored_tx) with stopped_db. by rewrite stopped_no_graphs.
    + intros bg [_ E]. change (s_db stored_tx) with stopped_db in E. rewrite blockGraphKey_cons in E. by rewrite stopped_no_graphs in E.
Qed.


(** ** Discovery: nodes 3 and 2 announce themselves, node 1 then dials node 2 *)
Definition addr_2 : bytes := lit "10.0.0.2".
Definition undiscovered : topology := mkTopology _ ∅ {[2 := 2; 3 := 3]} 3.
(** What the resolver finds: nothing under services of other networks. *)
Definition resolver (service : bytes) : list mdns_event :=
  if bool_decide (service = lit "_net._chainspace")
  then [Entry (mkEntry (Startup.mdns_instance 3) [lit "10.0.0.3"] 9003);
        Entry (mkEntry (Startup.mdns_instance 2) [addr_2] 9002);
        Entry (mkEntry (lit "printer") [lit "10.0.0.9"] 80); Expired]
  else [Expired].
Definition discovered : topology := (Discovery.bootstrapMDNS true true undiscovered (lit "NET") resolver).1.1.
Lemma announced_node_is_dialled_witness :
  Topology.Lookup discovered 2 = lit "10.0.0.2:9002" ∧
  Discovery.Dial (λ _ _, Some idle) discovered 2 = inr (Conn.NewConn idle).
Proof.
  destruct (Discovery.announced_node_is_dialled (λ _ _, Some idle) undiscovered (lit "NET") 2 9002 (Startup.mdns_instance 2)
    (Startup.mdns_service (lit "NET")) 9002 addr_2 [] resolver [mkEntry (Startup.mdns_instance 3) [lit "10.0.0.3"] 9003]
    [Entry (mkEntry (lit "printer") [lit "10.0.0.9"] 80); Expired] discovered) as (_ & E & D).
  - by vm_compute.
  - lia.
  - by eexists.
  - reflexivity.
  - by vm_compute.
  - repeat constructor. by intros s [=].
  - reflexivity.
  - split; [exact E|exact D].
Defined.

(** ** The HTTP server: a request waits for a block when it is shut down *)
Definition http_server : RestServer.server := RestServer.mkServer 8000 true 0 1 [RestServer.Serving] 1.
Lemma waiting_request_holds_up_shutdown n s' :
  nsteps RestServer.progress n http_server s' → RestServer.shutdown_returns s' = false.
Proof.
  assert (rtc RestServer.step (RestServer.New 8000 pub0).1 http_server) as Hr.
  { eapply rtc_l; [apply RestServer.start_step|].
    eapply rtc_l; [by apply RestServer.progress_step, (RestServer.listen_progress 0)|].
    eapply rtc_l; [by apply RestServer.request_step|].
    eapply rtc_l; [by apply RestServer.progress_step, RestServer.await_progress|].
    eapply rtc_l; [apply RestServer.shutdown_step|]. apply rtc_refl. }
  intros Hn. destruct (proj1 (RestProps.shutdown_stops _ _ _ Hr eq_refl) n s' Hn) as [_ HS].
  assert (0 < RestServer.sv_waiting s')%nat as Hw.
  { assert (0 < RestServer.sv_waiting http_server)%nat as Hw by (simpl; lia). clear -Hn Hw.
    induction Hn as [|n s s1 s2 Hp _ IH]; [done|]. apply IH. clear IH.
    destruct Hp as [i s s1 E|i s s1 E|s s1 E|s s1 E];
      unfold RestServer.listen, RestServer.return_, RestServer.answer, RestServer.await_block in E;
      repeat case_match; simplify_eq; simpl; lia. }
  destruct (RestServer.shutdown_returns s'); [|done]. destruct (proj1 HS eq_refl). lia.
Qed.
