(* ===== verification/SetupWitnesses.v ===== *)
(** * A network of four nodes, generated and started

    A file system that is a finite map, keys and certificates that name their owner, and the binary
    digits of Instances.v in the place of YAML: instances of the classes of Files.v and Keys.v
    for which their laws hold. *)

From stdpp Require Import strings.
From S2P Require Import Prelude Messages Config Base32 Kv Broadcast Node Keys Files Setup Startup SetupProps Wire Instances.
Import Generate.

(** ** YAML *)
Local Ltac by_fields := let x := fresh in intros x; by destruct x.
#[export] Instance Key_eq_dec : EqDecision Key. Proof. solve_decision. Defined.
#[export] Instance Key_countable : Countable Key.
Proof. refine (inj_countable' (λ x, (k_Type x, k_Public x, k_Private x)) (λ '(a, b, c), mkKey a b c) _). by_fields. Defined.
#[export] Instance KeysConf_eq_dec : EqDecision KeysConf. Proof. solve_decision. Defined.
#[export] Instance KeysConf_countable : Countable KeysConf.
Proof. refine (inj_countable' (λ x, (ks_SigningKey x, ks_TransportCert x)) (λ '(a, b), mkKeys a b) _). by_fields. Defined.
#[export] Instance PeerKey_eq_dec : EqDecision PeerKey. Proof. solve_decision. Defined.
#[export] Instance PeerKey_countable : Countable PeerKey.
Proof. refine (inj_countable' (λ x, (pk_Type x, pk_Value x)) (λ '(a, b), mkPeerKey a b) _). by_fields. Defined.
#[export] Instance Peer_eq_dec : EqDecision Peer. Proof. solve_decision. Defined.
#[export] Instance Peer_countable : Countable Peer.
Proof. refine (inj_countable' (λ x, (pe_SigningKey x, pe_TransportCert x)) (λ '(a, b), mkPeer a b) _). by_fields. Defined.
#[export] Instance NetConsensus_eq_dec : EqDecision NetConsensus. Proof. solve_decision. Defined.
#[export] Instance NetConsensus_countable : Countable NetConsensus.
Proof.
  refine (inj_countable' (λ x, (nc_BlockReferencesSizeLimit x, nc_BlockTransactionsSizeLimit x, nc_NonceExpiration x,
    nc_RoundInterval x, nc_ViewTimeout x)) (λ '(a, b, c, d, e), mkNetConsensus a b c d e) _). by_fields.
Defined.
#[export] Instance Network_eq_dec : EqDecision Network. Proof. solve_decision. Defined.
#[export] Instance Network_countable : Countable Network.
Proof.
  refine (inj_countable' (λ x, (nw_ID x, nw_Consensus x, nw_MaxPayload x, nw_SeedNodes x))
    (λ '(a, b, c, d), mkNetwork a b c d) _). by_fields.
Defined.
#[export] Instance Announce_eq_dec : EqDecision Announce. Proof. solve_decision. Defined.
#[export] Instance Announce_countable : Countable Announce.
Proof. refine (inj_countable' (λ x, (an_MDNS x, an_Registry x)) (λ '(a, b), mkAnnounce a b) _). by_fields. Defined.
#[export] Instance Bootstrap_eq_dec : EqDecision Bootstrap. Proof. solve_decision. Defined.
#[export] Instance Bootstrap_countable : Countable Bootstrap.
Proof.
  refine (inj_countable' (λ x, (bs_File x, bs_MDNS x, bs_Registry x, bs_Static x)) (λ '(a, b, c, d), mkBootstrap a b c d) _).
  by_fields.
Defined.
#[export] Instance BroadcastConf_eq_dec : EqDecision BroadcastConf. Proof. solve_decision. Defined.
#[export] Instance BroadcastConf_countable : Countable BroadcastConf.
Proof. refine (inj_countable' (λ x, (bc_InitialBackoff x, bc_MaxBackoff x)) (λ '(a, b), mkBroadcastConf a b) _). by_fields. Defined.
#[export] Instance Connections_eq_dec : EqDecision Connections. Proof. solve_decision. Defined.
#[export] Instance Connections_countable : Countable Connections.
Proof. refine (inj_countable' (λ x, (cn_ReadTimeout x, cn_WriteTimeout x)) (λ '(a, b), mkConnections a b) _). by_fields. Defined.
#[export] Instance RateLimit_eq_dec : EqDecision RateLimit. Proof. solve_decision. Defined.
#[export] Instance RateLimit_countable : Countable RateLimit.
Proof. refine (inj_countable' (λ x, (rl_InitialRate x, rl_RateDecrease x, rl_RateIncrease x)) (λ '(a, b, c), mkRateLimit a b c) _). by_fields. Defined.
#[export] Instance NodeConsensus_eq_dec : EqDecision NodeConsensus. Proof. solve_decision. Defined.
#[export] Instance NodeConsensus_countable : Countable NodeConsensus.
Proof.
  refine (inj_countable' (λ x, (no_DriftTolerance x, no_InitialWorkDuration x, no_RateLimit x)) (λ '(a, b, c), mkNodeConsensus a b c) _).
  by_fields.
Defined.
#[export] Instance ServiceEnable_eq_dec : EqDecision ServiceEnable. Proof. solve_decision. Defined.
#[export] Instance ServiceEnable_countable : Countable ServiceEnable.
Proof. refine (inj_countable' (λ x, (se_Enabled x, se_Port x)) (λ '(a, b), mkEnable a b) _). by_fields. Defined.
#[export] Instance Logging_eq_dec : EqDecision Logging. Proof. solve_decision. Defined.
#[export] Instance Logging_countable : Countable Logging.
Proof.
  refine (inj_countable' (λ x, (lg_ConsoleLevel x, lg_FileLevel x, lg_FilePath x, lg_ServerHost x, lg_ServerLevel x, lg_ServerToken x))
    (λ '(a, b, c, d, e, f), mkLogging a b c d e f) _). by_fields.
Defined.
#[export] Instance Registry_eq_dec : EqDecision Registry. Proof. solve_decision. Defined.
#[export] Instance Registry_countable : Countable Registry.
Proof. refine (inj_countable' (λ x, (rg_Host x, rg_Token x)) (λ '(a, b), mkRegistry a b) _). by_fields. Defined.
#[export] Instance Storage_eq_dec : EqDecision Storage. Proof. solve_decision. Defined.
#[export] Instance Storage_countable : Countable Storage.
Proof. refine (inj_countable' st_Type mkStorage _). by_fields. Defined.
#[export] Instance NodeConf_eq_dec : EqDecision NodeConf. Proof. solve_decision. Defined.
#[export] Instance NodeConf_countable : Countable NodeConf.
Proof.
  refine (inj_countable' (λ x, (nd_Announce x, nd_Bootstrap x, nd_Broadcast x, nd_Connections x, nd_Consensus x, nd_HTTP x,
    nd_Logging x, nd_Pubsub x, nd_Registries x, nd_Storage x))
    (λ '(a, b, c, d, e, f, g, h, i, j), mkNodeConf a b c d e f g h i j) _). by_fields.
Defined.

Definition digits_Yaml {A} `{Countable A} : Yaml A :=
  {| yaml_Marshal a := Some (digits (encode a)); yaml_Unmarshal s := decode (of_digits s) |}.
Lemma digits_yaml_laws {A} `{Countable A} : @YamlLaws A digits_Yaml.
Proof. intros a b [= <-]. simpl. by rewrite of_digits_digits, decode_encode. Qed.
#[export] Instance KeysConf_yaml : Yaml KeysConf := digits_Yaml.
#[export] Instance KeysConf_yaml_laws : YamlLaws KeysConf := digits_yaml_laws.
#[export] Instance Network_yaml : Yaml Network := digits_Yaml.
#[export] Instance Network_yaml_laws : YamlLaws Network := digits_yaml_laws.
#[export] Instance NodeConf_yaml : Yaml NodeConf := digits_Yaml.
#[export] Instance NodeConf_yaml_laws : YamlLaws NodeConf := digits_yaml_laws.

(** ** Keys and certificates *)
Definition key_bytes (n : nat) (rnd : bytes) : bytes := replicate n (default 0 (head rnd) mod 256).
Lemma key_bytes_ok n rnd : is_bytes (key_bytes n rnd) ∧ length (key_bytes n rnd) = n.
Proof.
  split; [|apply length_replicate]. apply Forall_replicate.
  pose proof (Z.mod_pos_bound (default 0 (head rnd)) 256 eq_refl). unfold is_u8. lia.
Qed.
#[export] Instance named_keys : Ed25519 := {|
  ed_GenerateKey rnd := Some (key_bytes 32 rnd, key_bytes 64 rnd);
  ed_Sign priv data := default 0 (head priv) :: data;
  ed_Verify pub data sig := bool_decide (sig = default 0 (head pub) :: data) |}.
#[export] Instance named_keys_laws : Ed25519Laws.
Proof.
  split.
  - intros rnd pub priv E. cbn [ed_GenerateKey named_keys] in E. injection E as <- <-.
    pose proof (key_bytes_ok 32 rnd). pose proof (key_bytes_ok 64 rnd). naive_solver.
  - intros rnd pub priv data E. cbn [ed_GenerateKey named_keys] in E. injection E as <- <-.
    by apply bool_decide_eq_true_2.
Qed.

#[export] Instance named_certs : X509 := {|
  ECKey := bytes; CertPool := unit; Certificate := unit; ecdsa_GenerateKey rnd := Some rnd;
  MarshalECPrivateKey key := Some key; CreateCertificate _ tmpl _ := Some (tm_CommonName tmpl);
  pem_Encode typ data := Some (lit "-----BEGIN " ++ typ ++ lit "-----" ++ data);
  AppendCertsFromPEM _ := Some tt; X509KeyPair _ _ := Some tt |}.
#[export] Instance named_certs_laws : X509Laws.
Proof. split; eauto. Qed.

(** ** Files *)
(** [None] is a directory. *)
Abbreviation MapFS := (gmap (list (list Z)) (option (list Z))).

#[export] Instance MapFS_OS : OS MapFS := {|
  os_Stat fs p := match fs !! p with Some _ => inr tt | None => inl NotExist end;
  os_Mkdir fs p := match fs !! p with Some _ => inl (OSFailure 17) | None => inr (<[p := None]> fs) end;
  os_MkdirAll fs p := inr (<[p := None]> fs);
  os_Create fs p := match fs !! p with Some None => inl (OSFailure 21) | _ => inr (<[p := Some []]> fs) end;
  os_Write fs p data := inr (<[p := Some data]> fs);
  os_ReadFile fs p := match fs !! p with Some (Some data) => inr data | Some None => inl (OSFailure 21) | None => inl NotExist end;
  os_Abs _ p := inr p |}.

#[export] Instance MapFS_laws : OSLaws MapFS.
Proof.
  split; simpl.
  - intros fs p data fs1 fs2 _ [= <-]. by rewrite lookup_insert_eq.
  - intros fs p fs' p' Hc Hp. destruct (fs !! p) as [[|]|]; simplify_eq; by rewrite lookup_insert_ne.
  - intros fs p data fs' p' [= <-] Hp. by rewrite lookup_insert_ne.
  - intros fs p fs' p' data Hm Hr. destruct (fs !! p) eqn:E; simplify_eq.
    rewrite lookup_insert_ne; [done|]. intros ->. by rewrite E in Hr.
  - intros fs p fs' Hm. destruct (fs !! p); simplify_eq. by rewrite lookup_insert_eq.
  - intros fs p fs' p' Hm Hs. destruct (fs !! p); simplify_eq. rewrite lookup_insert. by case_decide.
  - intros fs p fs' p' Hc Hs. destruct (fs !! p) as [[|]|]; simplify_eq; rewrite lookup_insert; by case_decide.
  - intros fs p data fs' p' [= <-] Hs. rewrite lookup_insert. by case_decide.
Qed.

(** ** The network *)
Definition four_nodes : GConfig :=
  mkGConfig (lit "default") [lit "home"] [] (1 * Second) 8000 7000 4 false false false.
Definition sources (i : Z) : bytes * Transport.source := ([i], Transport.mkSource [i] [i] 0).
Definition generated : MapFS :=
  match Generate four_nodes None sources ∅ with Ok (fs, _) => fs | Halt _ => ∅ end.

Lemma four_generated : Generate four_nodes None sources (∅ : MapFS) = Ok (generated, None).
Proof.
  assert (match Generate four_nodes None sources (∅ : MapFS) with Ok (_, None) => true | _ => false end = true) as H
    by (vm_compute; reflexivity).
  unfold generated. destruct (Generate _ _ _ _) as [[fs [e|]]|]; done.
Qed.

Lemma checksum_bytes s : is_bytes (sha512_256 s).
Proof.
  unfold sha512_256, checksum. apply Forall_replicate. assert (is_u8 17) as H by done. revert H. generalize 17.
  induction s as [|b s IH]; intros h Hh; [done|]. cbn [foldl]. apply IH.
  pose proof (Z.mod_pos_bound (31 * h + b + 7) 256 eq_refl). unfold is_u8. lia.
Qed.

Definition obliging : Startup.system := Startup.mkSystem Some (λ _, Some 9000) true true true (λ _, Startup.Status 204).
Lemma obliging_helpful : helpful obliging 9000.
Proof. done. Qed.

Lemma generated_network_starts_witness :
  ∃ (keys : Z → Signature.keypair) id c up,
    Startup.LoadConfiguration generated (lit "default") [lit "home"] None 2 = inr c ∧
    Startup.Run (map_to_list (nw_SeedNodes (cf_Network c))) [] obliging c = Ok (inr up) ∧
    Startup.su_key (Startup.up_setup up) = keys 2 ∧ Startup.su_peers (Startup.up_setup up) = [1; 3; 4] ∧
    Startup.su_keys (Startup.up_setup up) !! 3 = Some (Signature.PublicKey (keys 3)) ∧
    Startup.up_mdns up = Some (lit "_2", Startup.mdns_service id, 9000).
Proof.
  destruct (generated_network_starts (λ _, true) four_nodes None sources ∅ generated checksum_bytes eq_refl eq_refl four_generated)
    as (keys & id & H).
  destruct (H 2) as (c & Hc & H2); [by vm_compute|].
  destruct (H2 (map_to_list (nw_SeedNodes (cf_Network c))) obliging 9000 (Permutation_refl _) obliging_helpful)
    as (up & Hs & Hk & _ & Hp & Hj & _ & Hm).
  exists keys, id, c, up. split_and!; [done|done|done|by rewrite Hp|by rewrite Hj|by rewrite Hm].
Defined.

(** The network file of the generated network, and the topology it gives. *)
Definition network_file : Network :=
  match ConfigFiles.LoadNetwork generated [lit "home"; lit "default"; lit "network.yaml"] with
  | inr c => c
  | inl _ => mkNetwork [] None 0 ∅
  end.
Lemma network_file_accepted :
  ∃ top, NetworkNew.New (map_to_list (nw_SeedNodes network_file)) (lit "default") network_file = Ok (inr top) ∧
    nt_nodeCount top = 4.
Proof.
  assert (match NetworkNew.New (map_to_list (nw_SeedNodes network_file)) (lit "default") network_file with
          | Ok (inr t) => nt_nodeCount t =? 4 | _ => false end = true) as H by (vm_compute; reflexivity).
  revert H. generalize (NetworkNew.New (map_to_list (nw_SeedNodes network_file)) (lit "default") network_file).
  intros [[e|top]|] H; [discriminate H| |discriminate H]. exists top. split; [reflexivity|]. by apply Z.eqb_eq.
Qed.


(** The ports of the nodes of one network can coincide: every node's ports are one above those of the
    node before it, and only the first ones are compared. *)
Definition close_ports : GConfig :=
  mkGConfig (lit "default") [lit "home"] [] (1 * Second) 8001 8000 4 false false false.
Definition ports (cfg : GConfig) (i : Z) : option (Z * Z) :=
  match Generate cfg None sources (∅ : MapFS) with
  | Ok (fs, None) =>
      match ConfigFiles.LoadNode fs (g_ConfigRoot cfg ++ [g_NetworkName cfg; node_dir i; lit "node.yaml"]) with
      | inr n => Some (se_Port (nd_HTTP n), se_Port (nd_Pubsub n))
      | inl _ => None
      end
  | _ => None
  end.
Lemma generated_ports_collide :
  Validate (λ _, true) close_ports = None ∧ ports close_ports 1 = Some (8002, 8001) ∧ ports close_ports 2 = Some (8003, 8002).
Proof. vm_compute. done. Qed.

(** Without HTTP and pubsub, ports of zero are refused because they are equal. *)
Lemma services_off_refused url_ok name root interval n :
  interval ≠ 0 →
  Validate url_ok (mkGConfig name root [] interval 0 0 n false true true) = Some ErrInvalidHTTPOrPubsubPort.
Proof. intros Hi. unfold Validate. simpl. by rewrite (proj2 (Z.eqb_neq _ _) Hi). Qed.
