(* ===== verification/LogWitnesses.v ===== *)
(** * Log entries on concrete inputs *)

From stdpp Require Import strings.
From S2P Require Import Prelude Messages Config GoText Log LogText Kv Conn ConnProps LogNet LogNetProps.
Import Text Logger LogNet.

(** A string with a quote, a line end, a letter of two bytes and an invalid byte. *)
Definition odd_text : bytes := lit "a" ++ [34; 10; 195; 169; 255].

Lemma quoted_text_round_trip_witness :
  is_bytes odd_text ∧
  ∃ out, write_quoted [] odd_text = Ok ([] ++ quote ++ out ++ quote) ∧
    unquote (out ++ quote ++ lit " b") = Some (clean odd_text, lit " b") ∧ inline out ∧
    (Utf8.Valid odd_text = true → clean odd_text = odd_text).
Proof.
  assert (is_bytes odd_text) as H by (by apply (bool_decide_unpack _); vm_compute).
  split; [exact H|]. exact (quoted_text_round_trip [] odd_text (lit " b") H).
Defined.

Definition some_fields : list Field :=
  [Fields.String (lit "peer") odd_text; Fields.Uint64 (lit "round") (2 ^ 64 - 1); Fields.Bools (lit "flags") [true; false];
   Fields.Duration (lit "took") 1500000; Fields.Digest (lit "hash") (mkSlice [1; 2; 3; 4; 5; 6; 7] [])].


(** The types without a text: the switch ends in its default case, or the assertion fails. *)
Example unprintable_fields :
  writeTextFields [] [Fields.Int16 (lit "n") 1] = Halt Panic ∧ writeTextFields [] [Fields.Uint16 (lit "n") 1] = Halt Panic ∧
  writeTextFields [] [Fields.Errs (Some (lit "failed"))] = Halt Panic ∧
  writeTextFields [] [Fields.Digest (lit "hash") (mkSlice [1; 2] [])] = Halt Panic.
Proof. by vm_compute. Qed.

(** The whole line of an entry. *)
Example a_line :
  textLine (mkLogEntry [Fields.String (lit "key") (lit "x")] Level.InfoLevel [] (lit "Started") 0)
  = Ok (lit "[1970-01-01 00:00:00]   " ++ esc ++ lit "[34mINFO        " ++ esc ++ lit "[0mStarted" ++ newline
        ++ replicate 34 32 ++ lit "  " ++ esc ++ lit "[100m key " ++ esc ++ lit "[0m " ++ quote ++ lit "x" ++ quote ++ newline).
Proof. by vm_compute. Qed.

(** Two entries of a logger with a field, one of them with an indexed field. *)
Definition first_entry : entry :=
  mkLogEntry [Fields.Uint32 (lit "@id") 7; Fields.Bool (lit "ok") true] Level.InfoLevel [Fields.String (lit "node") (lit "1")] (lit "Hello") 0.
Definition second_entry : entry := mkLogEntry [] Level.ErrorLevel [Fields.String (lit "node") (lit "1")] (lit "Bye") 1.
Definition entry_views : list net_entry := default [] (mapM entry_view [first_entry; second_entry]).
Definition log_conn : netconn := mkNet [] [] [] false.

Lemma views_fit : Forall entry_fits entry_views.
Proof. apply (bool_decide_unpack _). by vm_compute. Qed.

Lemma shipped_entries_reach_server_witness :
  steady log_conn ∧ mapM entry_view [first_entry; second_entry] = Some entry_views ∧ Forall entry_fits entry_views ∧
  ∃ t w, writeNetEntries init [Some log_conn] [first_entry; second_entry] = Ok (t, []) ∧ nt_bc t = Some w ∧
    n_out (Bufio.w_conn w) ++ Bufio.w_buf w = n_out log_conn ++ (entry_views ≫= frames) ∧
    (length (Bufio.w_buf w) ≤ Bufio.size)%nat ∧
    ∀ nc chunks, arrives nc chunks → mjoin chunks = entry_views ≫= frames →
      ∃ nc' printed, handle nc = Ok (nc', printed) ∧
        Forall2 (λ bufs x, printed_as bufs x ∧ decode_entry (take (length (payload x)) bufs.2) = Some x) printed entry_views.
Proof.
  assert (steady log_conn) as H1 by done.
  assert (mapM entry_view [first_entry; second_entry] = Some entry_views) as H2 by (by vm_compute).
  split; [exact H1|]. split; [exact H2|]. split; [exact views_fit|].
  exact (shipped_entries_reach_server log_conn first_entry [second_entry] entry_views H1 H2 views_fit).
Defined.

(** The last bytes stay in the buffer of the writer, which is never flushed. *)
Example nothing_flushed :
  ∃ t w, writeNetEntries init [Some log_conn] [first_entry; second_entry] = Ok (t, []) ∧ nt_bc t = Some w ∧
    n_out (Bufio.w_conn w) = [].
Proof. eexists _, _. split; [by vm_compute|]. by vm_compute. Qed.
